(* ===== verification/_CoqProject ===== *)
-Q . S2P
Prelude.v
RaftState.v
RaftLog.v
RaftLogFacts.v
RaftNode.v
RaftOps.v
RaftRpc.v
SnapshotFraming.v
RaftNodeFacts.v
RaftSteps.v
RaftNodeThms.v
RaftDurability.v
RaftDelivery.v
RaftGroup.v
RaftElection.v
RaftSpecs.v
RaftLeases.v
RaftReads.v
GroupDisk.v
GroupDiskFacts.v
DiskExamples.v
RaftProtocol.v
RaftReplication.v
RaftMoves.v
RaftViews.v
RaftSim.v
RaftSimMoves.v
RaftMembers.v
RaftAnswers.v
RaftRecovery.v
RaftSafety.v
RaftExamples.v
RaftSafetyExamples.v
BridgeRing.v
BridgeRingFacts.v
BridgeRingSpec.v
BridgeFlow.v
BridgeFlowFacts.v
BridgeThms.v
BridgeExamples.v
WalRecord.v
WalRecordFacts.v
WalReader.v
WalReaderFacts.v
WalRecovery.v
WalWriter.v
WalWriterFacts.v
WalDwb.v
WalDwbFacts.v
WalCrash.v
WalRepair.v
WalExamples.v
WalSegments.v
WalSegmentsFacts.v
WalReplay.v
WalSegmented.v
WalSegmentedThms.v
WalSegmentedExamples.v
WalFilters.v
WalFiltersFacts.v
Codec.v
Gorilla.v
CodecBits.v
CodecFacts.v
GorillaFacts.v
FastLanes.v
FastLanesFacts.v
Rans.v
RansFacts.v
Fsst.v
FsstFacts.v
CodecExamples.v
MemState.v
MemGovernor.v
MemLogic.v
MemAccounting.v
MemThms.v
MemAlone.v
MemPressure.v
MemExamples.v
