(* ===== verification/Prelude.v ===== *)
(** * NodeDB verification library

    A model of the parts of NodeDB that decide whether data survives: the
    Raft consensus crate and how the cluster crate drives it, the bridge
    between the control plane and the data plane, the write-ahead log, the
    column codecs, and the memory governor. Paths below are under [src/].

    ** How the parts fit together

    A request arrives on the Tokio control plane, crosses to a data-plane
    core through an SPSC ring with backpressure ([nodedb-bridge]), is ordered
    by a Raft group where the collection is replicated ([nodedb-raft], driven
    by [nodedb-cluster]), and becomes durable through the write-ahead log
    ([nodedb-wal]). Column segments are compressed by [nodedb-codec]. Every
    engine reserves its memory with one governor shared by all cores
    ([nodedb-mem]).

    ** Files

    This file holds the machine integers, [result] and its bind
    [let? x := c in k], record update [r {{ f := v }}], little- and
    big-endian integers, and the tactics and hints the components share.

    Raft ([nodedb-raft/src], [nodedb-cluster/src]):
    - [RaftState]: [state.rs], [message.rs], [error.rs].
    - [RaftLog], [RaftLogFacts]: [log.rs], [storage.rs]. [LogStorage] is the
      trait as a class; [LogStorageSpec] is the contract its documentation
      gives, and [MemStorage] is proved to meet it. Every later Raft theorem
      is proved for any storage with that contract.
    - [RaftNode], [RaftOps], [RaftRpc]: the [RaftNode] state machine with
      every public operation and RPC handler of [node/]. An operation takes
      the state and returns the new one; the clock and the random source are
      inputs ([Env]); messages go to the node's [ready] queue as in the code.
    - [RaftNodeFacts], [RaftSteps], [RaftNodeThms], [RaftDurability],
      [RaftDelivery], [RaftSpecs], [RaftLeases], [RaftReads]: theorems on one
      node, over every sequence of operations ([NodeOp]).
    - [RaftGroup], [RaftElection]: several nodes, their disks and the network,
      as [multi_raft/] and [raft_loop/] drive them; election safety.
    - [GroupDisk], [GroupDiskFacts]: [group_disk/], the staged storage of a
      group with its writer thread and its durability tickets.
    - [RaftReplication]: the group with its log traffic, its staged storage
      and the entries it hands to the state machines.
    - [RaftProtocol]: an abstract replication protocol with durable and
      pending promises, and its safety. [RaftMoves]: what an operation of a
      node does to the part of its state that matters to the protocol.
      [RaftViews]: a compacted log as a view of a full one. [RaftSim],
      [RaftSimMoves], [RaftMembers], [RaftAnswers], [RaftRecovery]: the
      relation between the group and the protocol, and that a node's moves,
      its votes, its answers, its flushes and its restarts keep it.
      [RaftSafety]: every run of the group is a run of the protocol, and what
      follows.
    - [SnapshotFraming]: [snapshot_framing.rs].

    Bridge ([nodedb-bridge/src]):
    - [BridgeRing], [BridgeRingFacts], [BridgeRingSpec]: [buffer.rs], once as
      whole calls and once as a machine of single shared-memory accesses whose
      loads may be stale.
    - [BridgeFlow], [BridgeFlowFacts], [BridgeThms]: [wfq.rs],
      [backpressure.rs] and the send path of [async_bridge.rs].

    Write-ahead log ([nodedb-wal/src]):
    - [WalRecord], [WalRecordFacts]: [record/], [preamble.rs], [crypto.rs].
    - [WalReader], [WalReaderFacts], [WalRecovery]: [reader.rs],
      [torn_tail.rs], [recovery.rs] and the slots of [double_write/].
    - [WalWriter], [WalWriterFacts], [WalCrash]: [writer/], [align.rs]. The
      writer uses the double-write buffer through the class
      [DoubleWriteBuffer].
    - [WalDwb], [WalDwbFacts], [WalRepair]: [double_write/], the instance of
      that class, and repair of torn records. [WalExamples] also has two runs
      in which recovery refuses a segment.
    - [WalSegments]: [segment/], [segmented.rs]: a directory of segments, the
      log that rolls to new ones and truncates old ones, and replay across
      them. [WalSegmentsFacts]: names and discovery. [WalReplay]: what replay of
      a directory returns. [WalSegmented], [WalSegmentedThms]: what a segment
      holds at every point of a run of the log, and what follows for replay.
    - [WalFilters], [WalFiltersFacts]: [replay/], [tombstone.rs],
      [record/aborted.rs], the collection names of [nodedb-types/src/id] and the
      filter of refused writes in [nodedb/src/wal/manager/replay.rs].

    Codecs ([nodedb-codec/src]):
    - [Codec], [CodecBits], [CodecFacts]: [bounds.rs], [delta.rs],
      [double_delta.rs].
    - [Gorilla], [GorillaFacts]: [gorilla.rs].
    - [FastLanes], [FastLanesFacts]: [fastlanes/].
    - [Rans], [RansFacts]: [rans.rs].
    - [Fsst], [FsstFacts]: [fsst.rs].

    Memory ([nodedb-mem/src]):
    - [MemState]: every atomic of the crate, the budget maps, and programs
      made of single shared accesses ([prog]) with their steps: loads may be
      stale, weak compare-exchanges may fail for no reason.
    - [MemGovernor]: [budget.rs], [scoped_budget.rs], [over_release.rs],
      [reserve_scope.rs], [reservation_token.rs], [engine_limits.rs],
      [governor/] as such programs, and the machine that interleaves calls.
    - [MemLogic]: ghost accounts of what each call has credited, and a [wp]
      that allows only accesses that keep the accounts. [MemAccounting]: it
      holds of every operation. [MemThms]: what follows for every run.
    - [MemAlone]: calls nobody disturbs, to their end.
    - [MemPressure]: [pressure.rs], [spill.rs], [governor/metrics.rs].

    [RaftExamples], [RaftSafetyExamples], [DiskExamples], [BridgeExamples],
    [WalExamples], [WalSegmentedExamples], [CodecExamples] and [MemExamples] apply
    the theorems to concrete runs and data.

    ** What the theorems show

    - Consensus: at most one leader per term in a group whose messages are
      delayed, lost, repeated and reordered and whose nodes crash and restart
      ([election_safety]); in a group of two or more voters all state machines
      are handed the same entries ([state_machine_safety]), committed entries
      are in every later leader's log ([leader_completeness]) and are never
      replaced ([committed_agree]), and logs that share an entry share what is
      below it ([log_matching]); one vote per term; the commit rule; what a
      successful AppendEntries promises; gap-free delivery; recovery after a restart; leases against votes;
      check-quorum; linearizable reads; bounded compaction.
    - Group disk: the storage holds a prefix of the staged writes that covers
      what is reported durable ([disk_prefix_durable]), a granted ticket means
      its writes are on disk ([ticket_durable]), and the writer catches up
      ([writer_drains]).
    - Log durability: an acknowledged record survives every later crash
      ([acked_survive]); the writer refines an abstract log with a durable
      part ([wal_refines_log]); a failed fsync is final; torn records are
      repaired from the double-write buffer; recovery terminates on every
      file and finds exactly the whole records of a cut-off segment; the
      chunked torn-tail scan equals a search of every offset; encryption is
      transparent.
    - Segments: a log that rolls and truncates replays exactly the records it
      accepted, with LSNs that count up without a gap
      ([segmented_replay_exact]); an interrupted truncation leaves the replay
      from the checkpoint as it was ([truncation_keeps_suffix]); a replay with
      segments missing is complete or an error ([replay_never_short]); pages
      are pages of the full replay ([replay_paged]).
    - Filters: a replay drops exactly the writes that were refused, wherever it
      starts ([refused_writes_dropped]), and shadows exactly the writes below a
      tombstone of their collection ([replay_filters_exact]).
    - Bridge: under every interleaving the ring delivers each value once and
      in order, and its two sides never race on a slot; it refines a bounded
      queue; the fair queue starves nobody.
    - Codecs: every codec decodes what it encodes, within input bounds the
      theorems state; the delta frame of a list is unique; the wide bit
      read equals bit-by-bit reading; random access agrees with full decoding;
      the Gorilla decoder is safe on arbitrary bytes.
    - Memory: under every interleaving each counter is what the live tokens
      and the calls under way credited, and no release exceeds it
      ([counters_balanced]); reservations stay within the ceiling, the engine
      limits and the quotas ([limits_enforced]); changing quotas loses no live
      token ([quota_counts_tokens]); a call that runs alone ends with the
      answer the limits give, and a denial leaves no trace ([reserve_alone]).
    - Defects, each as a theorem on a concrete run or a family of inputs: a
      disconnect reported before the last value, a direct-I/O reopen that
      overwrites a recovered record, an unsynced torn batch that blocks
      recovery, FSST frames refused by their own decoder, a learner that parts
      from a single voter ([learner_diverges]), a write given up on a closed
      disk and reported durable ([abandoned_write_reported]), a memory
      request so large that it passes the limits
      ([oversized_request_granted]), a truncation misled by the file of a
      failed roll ([orphan_truncation_loses]), and a failed key rotation that
      unlinks the active segment ([failed_rotation_unlinks]).

    ** Assumptions

    Code outside the repository enters as an argument. [crc32c]: its results
    are below [2^32], and nothing else (no theorem assumes that corruption is
    detected; where a checksum's verdict matters it is a hypothesis on the
    bytes at hand). [aes-gcm]: decryption inverts encryption under the same
    key, nonce and additional data, and a ciphertext is 16 bytes longer. [LogStorage]: the contract in its
    documentation. The iteration order of a [HashMap] ([drain_order] in
    [Fsst]): some permutation of the entries. Each is instantiated in an
    example file.

    The replicating group makes durable what whole operations staged: a crash
    between the writes of one operation is covered by [GroupDiskFacts] (the
    disk holds some prefix) but not by [RaftSafety]. Its network can delay,
    lose, repeat and reorder every message; it does not invent any. Its driver
    reports an index as applied only up to the commit index, and hands back
    only entries it was given.

    The sizes asked of the memory governor at one time add up to less than
    [2^64] ([fits]); [oversized_request_granted] is what happens otherwise. A
    write section of its budget maps is one step, for its lock excludes every
    other access to the map. The strong count it reads is the newest.

    A file is its cached and its durable bytes; a power loss keeps the durable
    bytes and any part of what was written since. A successful fsync makes
    the cached bytes durable. The outcome of each system call is an input.

    [segmented_replay_exact] is about one life of the log, opened on an empty
    directory and without encryption; its segments stay below [2^63] bytes, and
    a roll that fails removes the file it created (the two defects above show
    what happens otherwise). [WalCrash] covers crashes and restarts of one
    segment. Listing a directory succeeds.

    ** Bounds and fuel

    Integers keep their width: 64-bit counters of the ring wrap, [saturating_*]
    and [checked_*] arithmetic is written out, [i64] casts wrap. [usize] is
    64 bits. Loops that are not structural run on fuel computed from the
    input: the file length for the WAL scans, the counts in a frame or the
    number of bytes left for the decoders, ten steps for a varint, the number
    of queued items for the fair queue. Each is shown to be enough, by a
    termination theorem ([recovery_terminates], [replay_paged],
    [gorilla_decoder_safe], [wfq_drain_all]) or because the round-trip theorem produces the result.
    rANS normalisation is modelled with the rounding of the [f64] division.

    ** Not modelled

    Async runtimes, transports and metrics; Raft membership changes and
    snapshot transfer at group level (single nodes run them; the theorems on
    groups fix the voters, and the replicating group installs no snapshots);
    crashes of the segmented log as a whole, time-anchor lookups, checkpoint
    files, the io_uring writer and the memory-mapped reader of the WAL; codecs that wrap
    external libraries (lz4, zstd, pco) or work on floating-point numbers
    (ALP, the vector quantizers), and the pipeline that chooses among them;
    jemalloc arenas, strict tuples and the rest of [nodedb-types]; the
    SQL, query, columnar, array, graph, text, vector and spatial engines; the
    client and the server binary. They are external code, floating-point
    kernels or I/O glue, or have not been reached yet. *)

From stdpp Require Import base list option gmap numbers sorting.
From Stdlib Require Import Lia.

Open Scope N_scope.

(** ** Notation scope of the development *)

Declare Scope nodedb_scope.
Delimit Scope nodedb_scope with nodedb.

(** A Rust [u64] (and [usize] on the 64-bit targets the server runs on). *)
Abbreviation u64 := N (only parsing).
Abbreviation u32 := N (only parsing).
Abbreviation usize := N (only parsing).
(** [std::time::Instant] and [std::time::Duration], in nanoseconds. *)
Abbreviation Instant := N (only parsing).
Abbreviation Duration := N (only parsing).
(** A byte buffer; each element is below 256. *)
Abbreviation bytes := (list N) (only parsing).

(** [u64::MAX] and [u32::MAX]. *)
Definition u64_max : N := 2 ^ 64 - 1.
Definition u32_max : N := 2 ^ 32 - 1.

(** [u64::saturating_add] and [u32::saturating_add]. [saturating_sub] is
    [N.sub]. *)
Definition sat_add64 (a b : u64) : u64 := N.min (a + b) u64_max.
Definition sat_add32 (a b : u32) : u32 := N.min (a + b) u32_max.

(** Wrapping [u64] addition ([fetch_add], [wrapping_add]). *)
Definition wrap64 (a : N) : u64 := a mod 2 ^ 64.

(** ** Automation *)

(** Facts the components register for [eauto]. *)
Create HintDb nodedb.

(** Boolean comparisons on [N] in the context, as propositions. *)
Ltac bool_to_prop :=
  repeat match goal with
  | H : (_ <=? _) = true |- _ => apply N.leb_le in H
  | H : (_ <=? _) = false |- _ => apply N.leb_gt in H
  | H : (_ <? _) = true |- _ => apply N.ltb_lt in H
  | H : (_ <? _) = false |- _ => apply N.ltb_ge in H
  | H : (_ =? _) = true |- _ => apply N.eqb_eq in H
  | H : (_ =? _) = false |- _ => apply N.eqb_neq in H
  | H : _ && _ = true |- _ => apply andb_true_iff in H as [? ?]
  | H : _ || _ = false |- _ => apply orb_false_iff in H as [? ?]
  | H : negb _ = true |- _ => apply negb_true_iff in H
  | H : negb _ = false |- _ => apply negb_false_iff in H
  end.

(** ** [Result] *)

Inductive result (E A : Type) : Type :=
  | Ok (a : A)
  | Err (e : E).
Arguments Ok {E A} a.
Arguments Err {E A} e.

Definition is_ok {E A} (r : result E A) : bool :=
  match r with Ok _ => true | Err _ => false end.

(** The [?] operator on a call that returns a new state beside its result:
    an error leaves the state the call left and returns early with [wrap]
    applied to it. *)
Notation "'let?' ( s , x ) := c 'in' k" :=
  (match c with
   | (s, Ok x) => k
   | (s, Err err) => (s, Err err)
   end)
  (at level 10, s name, x name, c at level 100, k at level 200).

Notation "'let?' x := c 'in' k" :=
  (match c with
   | Ok x => k
   | Err err => Err err
   end)
  (at level 10, x name, c at level 100, k at level 200).

(** ** Field updates of records

    [x {{ f := v }}] is the Rust assignment [x.f = v], [x {{ f ::= g }}]
    applies [g] to the field, and [x {{ f -> h := v }}] is [x.f.h = v].
    Several updates run left to right. A record type joins in with an [Eta]
    instance that rebuilds it from its projections; the setter of a
    projection is then found by instance search. *)

Class Eta (R : Type) : Type := eta : R → R.

Class Setter {R E : Type} (proj : R → E) : Type := upd : (E → E) → R → R.
Arguments upd {R E} proj {Setter} f r : simpl nomatch.

Ltac make_setter proj :=
  lazymatch type of proj with
  | ?R → ?E =>
      let e := constr:(_ : Eta R) in
      let e := eval hnf in e in
      lazymatch eval pattern proj in e with
      | ?body _ =>
          let s := eval cbv beta in (λ f : E → E, body (λ r : R, f (proj r))) in
          exact s
      end
  end.

#[export] Hint Extern 0 (Setter ?proj) => make_setter proj : typeclass_instances.

Declare Custom Entry field_update.

Notation "p := v" := (upd p (λ _, v))
  (in custom field_update at level 1, p constr at level 1, v constr at level 99).
Notation "p ::= g" := (upd p g)
  (in custom field_update at level 1, p constr at level 1, g constr at level 99).
Notation "p -> q := v" := (upd p (upd q (λ _, v)))
  (in custom field_update at level 1, p constr at level 1, q constr at level 1,
   v constr at level 99).
Notation "p -> q ::= g" := (upd p (upd q g))
  (in custom field_update at level 1, p constr at level 1, q constr at level 1,
   g constr at level 99).
Notation "x {{ u }}" := (u x)
  (at level 1, left associativity, u custom field_update at level 1, only parsing).
Notation "x {{ u ; v ; .. ; w }}" := (w .. (v (u x)) ..)
  (at level 1, left associativity, u custom field_update at level 1,
   v custom field_update at level 1, w custom field_update at level 1, only parsing).

(** ** Integer ranges *)

(** [lo..=hi] as a list, ascending; empty when [lo > hi]. *)
Definition range_incl (lo hi : N) : list N :=
  (λ i : nat, lo + N.of_nat i) <$> seq 0 (N.to_nat (hi + 1 - lo)).

Lemma elem_of_range_incl lo hi n :
  n ∈ range_incl lo hi ↔ lo ≤ n ≤ hi.
Proof.
  unfold range_incl. rewrite list_elem_of_fmap. split.
  - intros (i & -> & Hi%elem_of_seq). lia.
  - intros [H1 H2]. exists (N.to_nat (n - lo)).
    rewrite elem_of_seq. lia.
Qed.

Lemma range_incl_empty lo hi : hi < lo → range_incl lo hi = [].
Proof. intros H. unfold range_incl. by replace (N.to_nat (hi + 1 - lo)) with 0%nat by lia. Qed.

Lemma lookup_range_incl lo hi k x :
  range_incl lo hi !! k = Some x ↔ x = lo + N.of_nat k ∧ x ≤ hi.
Proof.
  unfold range_incl. rewrite list_lookup_fmap, fmap_Some. setoid_rewrite lookup_seq. split.
  - intros (i & [-> ?] & ->). lia.
  - intros [-> ?]. exists k. lia.
Qed.

Lemma find_split {A} (f : A → bool) (l : list A) x :
  List.find f l = Some x →
  ∃ l1 l2, l = l1 ++ x :: l2 ∧ f x = true ∧ ∀ y, y ∈ l1 → f y = false.
Proof.
  induction l as [|a l IH]; simpl; [done|]. destruct (f a) eqn:Ha.
  - intros [= <-]. exists [], l. split_and!; [done..|]. by intros y ?%elem_of_nil.
  - intros (l1 & l2 & -> & Hx & Hl1)%IH. exists (a :: l1), l2. split_and!; [done..|].
    intros y [->|?]%elem_of_cons; auto.
Qed.

(** [(lo..=hi).rev().find(f)] finds the greatest. *)
Lemma find_rev_range f lo hi i :
  List.find f (rev (range_incl lo hi)) = Some i →
  lo ≤ i ≤ hi ∧ f i = true ∧ ∀ j, i < j ≤ hi → f j = false.
Proof.
  intros (l1 & l2 & Hl & Hi & Hl1)%find_split.
  apply (f_equal (@rev N)) in Hl. rewrite rev_involutive, rev_app_distr in Hl. simpl in Hl.
  rewrite <-app_assoc in Hl. simpl in Hl.
  assert (range_incl lo hi !! length (rev l2) = Some i) as Hpos.
  { rewrite Hl. by apply list_lookup_middle. }
  apply lookup_range_incl in Hpos as [Hi1 Hi2]. split_and!; [lia|lia|done|].
  intros j Hj. apply Hl1. apply list_elem_of_In, in_rev, list_elem_of_In.
  assert (range_incl lo hi !! N.to_nat (j - lo) = Some j) as Hj'
    by (apply lookup_range_incl; lia).
  rewrite Hl, lookup_app_r in Hj' by lia.
  apply lookup_cons_Some in Hj' as [[? ?]|[? Hj']]; [lia|].
  by eapply list_elem_of_lookup_2.
Qed.

Lemma find_rev_range_None f lo hi :
  List.find f (rev (range_incl lo hi)) = None → ∀ j, lo ≤ j ≤ hi → f j = false.
Proof.
  intros Hn j Hj. apply (find_none _ _ Hn). apply in_rev. rewrite rev_involutive.
  by apply list_elem_of_In, elem_of_range_incl.
Qed.

(** ** Association vectors

    The source keeps small per-peer tables as [Vec<(u64, V)>] and reads them
    with [iter().find(|e| e.0 == k)]: the first matching pair counts. *)

Fixpoint assoc {V} (k : u64) (l : list (u64 * V)) : option V :=
  match l with
  | [] => None
  | (k', v) :: l => if k' =? k then Some v else assoc k l
  end.

(** [if let Some(e) = iter_mut().find(..) { e.1 = f(e.1) }]: no entry, no
    change. *)
Fixpoint assoc_update {V} (k : u64) (f : V → V) (l : list (u64 * V)) : list (u64 * V) :=
  match l with
  | [] => []
  | (k', v) :: l => if k' =? k then (k', f v) :: l else (k', v) :: assoc_update k f l
  end.

(** [Vec::contains] and [iter().any(|&(id, _)| id == k)]. *)
Definition mem (k : u64) (l : list u64) : bool := existsb (N.eqb k) l.
Definition assoc_has {V} (k : u64) (l : list (u64 * V)) : bool := mem k l.*1.

(** [retain(|&(id, _)| id != k)]. *)
Definition assoc_remove {V} (k : u64) (l : list (u64 * V)) : list (u64 * V) :=
  List.filter (λ p, negb (p.1 =? k)) l.

Lemma mem_spec k l : mem k l = true ↔ k ∈ l.
Proof.
  unfold mem. rewrite existsb_exists, list_elem_of_In. split.
  - intros (x & Hx & ->%N.eqb_eq). done.
  - intros H. exists k. by rewrite N.eqb_refl.
Qed.

Lemma mem_false k l : mem k l = false ↔ k ∉ l.
Proof. rewrite <-mem_spec. destruct (mem k l); naive_solver. Qed.

Section assoc_lemmas.
Context {V : Type}.
Implicit Types (l : list (u64 * V)).

Lemma assoc_elem_of k v l : assoc k l = Some v → (k, v) ∈ l.
Proof.
  induction l as [|[k' v'] l IH]; simpl; [done|].
  case N.eqb_spec; [intros -> [= ->]; left|intros _ H; right; auto].
Qed.

Lemma assoc_None k l : assoc k l = None ↔ k ∉ l.*1.
Proof.
  induction l as [|[k' v'] l IH]; csimpl; [by split; [intros _ ?%elem_of_nil|]|].
  destruct (N.eqb_spec k' k) as [->|Hne].
  { split; [done|]. intros []. left. }
  rewrite IH, not_elem_of_cons. split; [by auto|by intros []].
Qed.

Lemma assoc_update_keys k f l : (assoc_update k f l).*1 = l.*1.
Proof.
  induction l as [|[k' v'] l IH]; csimpl; [done|].
  destruct (k' =? k); csimpl; [done|by rewrite IH].
Qed.

Lemma assoc_assoc_update_eq k f l : assoc k (assoc_update k f l) = f <$> assoc k l.
Proof.
  induction l as [|[k' v'] l IH]; simpl; [done|].
  destruct (N.eqb_spec k' k) as [->|Hne]; simpl.
  - by rewrite N.eqb_refl.
  - by rewrite (proj2 (N.eqb_neq _ _) Hne).
Qed.

Lemma assoc_assoc_update_ne k k' f l : k ≠ k' → assoc k' (assoc_update k f l) = assoc k' l.
Proof.
  intros Hne. induction l as [|[k'' v'] l IH]; simpl; [done|].
  destruct (N.eqb_spec k'' k) as [->|]; simpl.
  - by rewrite (proj2 (N.eqb_neq _ _) Hne).
  - by rewrite IH.
Qed.

Lemma assoc_app k l1 l2 :
  assoc k (l1 ++ l2) = match assoc k l1 with Some v => Some v | None => assoc k l2 end.
Proof. induction l1 as [|[k' v'] l1 IH]; simpl; [done|]. by destruct (k' =? k). Qed.

Lemma assoc_remove_ne k k' l : k ≠ k' → assoc k' (assoc_remove k l) = assoc k' l.
Proof.
  intros Hne. induction l as [|[k'' v'] l IH]; simpl; [done|].
  destruct (N.eqb_spec k'' k) as [->|]; simpl.
  - by rewrite (proj2 (N.eqb_neq _ _) Hne).
  - by rewrite IH.
Qed.

Lemma assoc_remove_eq k l : assoc k (assoc_remove k l) = None.
Proof.
  induction l as [|[k'' v'] l IH]; simpl; [done|].
  destruct (N.eqb_spec k'' k) as [->|Hne]; simpl; [done|].
  by rewrite (proj2 (N.eqb_neq _ _) Hne).
Qed.
End assoc_lemmas.

(** [iter().position(f)]. *)
Fixpoint position {A} (f : A → bool) (l : list A) : option nat :=
  match l with
  | [] => None
  | x :: l => if f x then Some 0%nat else S <$> position f l
  end.

Lemma position_Some {A} (f : A → bool) (l : list A) k :
  position f l = Some k ↔
  (∃ x, l !! k = Some x ∧ f x = true) ∧ ∀ j x, (j < k)%nat → l !! j = Some x → f x = false.
Proof.
  revert k. induction l as [|a l IH]; intros k; simpl.
  - split; [done|]. intros [(x & Hx & _) _]. done.
  - destruct (f a) eqn:Ha.
    + split.
      * intros [= <-]. split; [by exists a|]. intros j x Hj. lia.
      * intros [(x & Hx & Hfx) Hlt]. destruct k as [|k]; [done|].
        specialize (Hlt 0%nat a ltac:(lia) eq_refl). congruence.
    + rewrite fmap_Some. split.
      * intros (k' & [Hx Hlt]%IH & ->). split; [done|].
        intros [|j] x Hj ?; simplify_eq/=; [done|]. eapply (Hlt j); [lia|done].
      * intros [(x & Hx & Hfx) Hlt]. destruct k as [|k].
        { simpl in Hx. injection Hx as ->. congruence. }
        exists k. split; [|done]. apply IH. split; [by eauto|].
        intros j y Hj. apply (Hlt (S j)); lia.
Qed.

Lemma position_None {A} (f : A → bool) (l : list A) :
  position f l = None ↔ ∀ x, x ∈ l → f x = false.
Proof.
  induction l as [|a l IH]; simpl; [set_solver|].
  destruct (f a) eqn:Ha.
  - split; [done|]. intros H. specialize (H a ltac:(left)). congruence.
  - rewrite fmap_None, IH. split.
    + intros H x [->|?]%elem_of_cons; auto.
    + intros H x ?. apply H. by right.
Qed.

(** ** Filters that cut a list at a position *)

Lemma filter_keep_suffix {A} (f : A → bool) (l : list A) n :
  (∀ i x, l !! i = Some x → f x = bool_decide (n ≤ i)%nat) →
  List.filter f l = drop n l.
Proof.
  revert n. induction l as [|a l IH]; intros n Hf; simpl; [by rewrite drop_nil|].
  rewrite (Hf 0%nat a eq_refl). destruct n as [|n]; simpl.
  - f_equal. rewrite (IH 0%nat), drop_0; [done|].
    intros i x Hi. rewrite (Hf (S i) x Hi). by rewrite !bool_decide_true by lia.
  - apply IH. intros i x Hi. rewrite (Hf (S i) x Hi). apply bool_decide_ext. lia.
Qed.

Lemma filter_keep_prefix {A} (f : A → bool) (l : list A) n :
  (∀ i x, l !! i = Some x → f x = bool_decide (i < n)%nat) →
  List.filter f l = take n l.
Proof.
  revert n. induction l as [|a l IH]; intros n Hf; simpl; [by rewrite take_nil|].
  rewrite (Hf 0%nat a eq_refl). destruct n as [|n]; simpl.
  - rewrite (IH 0%nat), take_0; [done|].
    intros i x Hi. rewrite (Hf (S i) x Hi). by rewrite !bool_decide_false by lia.
  - f_equal. apply IH. intros i x Hi. rewrite (Hf (S i) x Hi). apply bool_decide_ext. lia.
Qed.

(** ** Descending sorts and order statistics *)

Definition N_ge (a b : N) : Prop := b ≤ a.

#[export] Instance N_ge_dec : RelDecision N_ge.
Proof. intros a b. unfold N_ge. apply _. Defined.

(** [sort_unstable_by(|a, b| b.cmp(a))] on integers. *)
Definition sort_desc (l : list N) : list N := merge_sort N_ge l.

Lemma sort_desc_Permutation l : sort_desc l ≡ₚ l.
Proof. apply merge_sort_Permutation. Qed.

Lemma sort_desc_sorted l : StronglySorted N_ge (sort_desc l).
Proof.
  assert (Transitive N_ge) by (intros a b c; unfold N_ge; lia).
  assert (Total N_ge) by (intros a b; unfold N_ge; lia).
  apply StronglySorted_merge_sort; apply _.
Qed.

Lemma StronglySorted_lookup {A} (R : A → A → Prop) l i j x y :
  StronglySorted R l → l !! i = Some x → l !! j = Some y → (i < j)%nat → R x y.
Proof.
  intros Hs. revert i j. induction Hs as [|a l Hs IH Hall]; intros i j Hi Hj Hlt; [done|].
  destruct i as [|i], j as [|j]; simplify_eq/=; [lia| |lia|].
  - rewrite Forall_lookup in Hall. by eapply Hall.
  - eapply IH; [done..|lia].
Qed.

(** [iter().filter(f).count()]. *)
Definition count {A} (f : A → bool) (l : list A) : nat := length (List.filter f l).

Lemma count_app {A} (f : A → bool) l1 l2 : count f (l1 ++ l2) = (count f l1 + count f l2)%nat.
Proof. unfold count. by rewrite List.filter_app, length_app. Qed.

Lemma count_Permutation {A} (f : A → bool) l1 l2 : l1 ≡ₚ l2 → count f l1 = count f l2.
Proof.
  unfold count. induction 1; simpl; [done| | |by etrans].
  - destruct (f x); simpl; lia.
  - by destruct (f x), (f y).
Qed.

Lemma count_le_length {A} (f : A → bool) l : (count f l ≤ length l)%nat.
Proof. unfold count. induction l as [|a l IH]; simpl; [done|]. destruct (f a); simpl; lia. Qed.

Lemma count_all {A} (f : A → bool) l : (∀ x, x ∈ l → f x = true) → count f l = length l.
Proof.
  unfold count. induction l as [|a l IH]; intros Hf; simpl; [done|].
  rewrite Hf by left. simpl. f_equal. apply IH. intros x Hx. apply Hf. by right.
Qed.

Lemma count_none {A} (f : A → bool) l : (∀ x, x ∈ l → f x = false) → count f l = 0%nat.
Proof.
  unfold count. induction l as [|a l IH]; intros Hf; simpl; [done|].
  rewrite Hf by left. apply IH. intros x Hx. apply Hf. by right.
Qed.

Lemma count_mono {A} (f g : A → bool) l :
  (∀ x, x ∈ l → f x = true → g x = true) → (count f l ≤ count g l)%nat.
Proof.
  unfold count. induction l as [|a l IH]; intros Hfg; simpl; [done|].
  assert (∀ x, x ∈ l → f x = true → g x = true) as Hfg' by (intros ? ?; apply Hfg; by right).
  specialize (IH Hfg'). destruct (f a) eqn:Ha.
  - rewrite (Hfg a) by (done || left). simpl. lia.
  - destruct (g a); simpl; lia.
Qed.

Lemma count_ext {A} (f g : A → bool) l : (∀ x, x ∈ l → f x = g x) → count f l = count g l.
Proof.
  intros Hfg. apply Nat.le_antisymm; apply count_mono; intros x Hx; rewrite (Hfg x Hx); done.
Qed.

Lemma count_fmap {A B} (f : B → bool) (g : A → B) l : count f (g <$> l) = count (λ x, f (g x)) l.
Proof. unfold count. induction l as [|a l IH]; csimpl; [done|]. destruct (f (g a)); simpl; lia. Qed.

(** The value at position [k] of a descending sort has at least [k + 1]
    values at or above it, and at most [k] above it. *)
Lemma sort_desc_lookup l k v :
  sort_desc l !! k = Some v →
  (k < count (λ x, v <=? x)%N l)%nat ∧ (count (λ x, v <? x)%N l ≤ k)%nat.
Proof.
  intros Hk. pose proof (sort_desc_sorted l) as Hs.
  rewrite <-!(count_Permutation _ _ _ (sort_desc_Permutation l)).
  set (s := sort_desc l) in *. pose proof (lookup_lt_Some _ _ _ Hk) as Hlen. split.
  - rewrite <-(take_drop (S k) s), count_app, (count_all _ (take (S k) s)).
    + rewrite length_take_le by lia. lia.
    + intros x [i [Hi Hlt]%lookup_take_Some]%list_elem_of_lookup. apply N.leb_le.
      destruct (decide (i = k)) as [->|]; [simplify_eq; lia|].
      apply (StronglySorted_lookup _ _ i k _ _ Hs); [done..|lia].
  - rewrite <-(take_drop k s), count_app, (count_none _ (drop k s)).
    + etrans; [|apply (firstn_le_length k s)]. rewrite Nat.add_0_r. apply count_le_length.
    + intros x [i Hi]%list_elem_of_lookup. rewrite lookup_drop in Hi. apply N.ltb_ge.
      destruct (decide (i = 0%nat)) as [->|]; [rewrite Nat.add_0_r in Hi; simplify_eq; lia|].
      apply (StronglySorted_lookup _ _ k (k + i) _ _ Hs); [done..|lia].
Qed.

Lemma half_bounds a : 2 * (a / 2) ≤ a < 2 * (a / 2) + 2.
Proof.
  pose proof (N.Div0.div_mod a 2) as Ha. pose proof (N.mod_lt a 2 ltac:(done)) as Hm.
  revert Ha Hm. generalize (a / 2) (a mod 2). lia.
Qed.

(** ** Big-endian integers *)

(** [to_be_bytes] of a [k]-byte integer and [from_be_bytes]. *)
Fixpoint to_be (k : nat) (v : N) : bytes :=
  match k with
  | O => []
  | S k => to_be k (v / 256) ++ [v mod 256]
  end.

Definition from_be (bs : bytes) : N := foldl (λ acc b, acc * 256 + b) 0 bs.

Lemma length_to_be k v : length (to_be k v) = k.
Proof. revert v. induction k as [|k IH]; intros v; simpl; [done|]. rewrite length_app, IH. simpl. lia. Qed.

Lemma from_be_snoc bs b : from_be (bs ++ [b]) = from_be bs * 256 + b.
Proof. unfold from_be. by rewrite foldl_app. Qed.

Lemma from_be_to_be k v : v < 256 ^ N.of_nat k → from_be (to_be k v) = v.
Proof.
  revert v. induction k as [|k IH]; intros v Hv; [simpl in *; unfold from_be; simpl; lia|].
  change (to_be (S k) v) with (to_be k (v / 256) ++ [v mod 256]).
  rewrite from_be_snoc, IH.
  - pose proof (N.div_mod v 256). lia.
  - apply N.Div0.div_lt_upper_bound. by rewrite <-N.pow_succ_r', <-Nat2N.inj_succ.
Qed.

Lemma to_be_from_be k bs :
  length bs = k → Forall (λ b, b < 256) bs → to_be k (from_be bs) = bs.
Proof.
  revert bs. induction k as [|k IH]; intros bs Hlen Hb; [by destruct bs|].
  destruct bs as [|b bs _] using rev_ind; [done|].
  rewrite length_app in Hlen. apply Forall_app in Hb as [Hbs Hb].
  rewrite Forall_singleton in Hb. rewrite from_be_snoc. change (to_be (S k) ?v) with (to_be k (v / 256) ++ [v mod 256]).
  rewrite N.div_add_l, N.div_small, N.add_0_r by lia.
  rewrite N.add_comm, N.Div0.mod_add, N.mod_small by lia.
  rewrite IH; [done|simpl in Hlen; lia|done].
Qed.

#[global] Arguments to_be : simpl never.

(** ** Little-endian integers *)

(** [to_le_bytes] of a [k]-byte integer and [from_le_bytes]. *)
Definition to_le (k : nat) (v : N) : bytes := reverse (to_be k v).

Definition from_le (bs : bytes) : N := from_be (reverse bs).

Lemma length_to_le k v : length (to_le k v) = k.
Proof. unfold to_le. by rewrite length_reverse, length_to_be. Qed.

Lemma from_le_to_le k v : v < 256 ^ N.of_nat k → from_le (to_le k v) = v.
Proof. intros. unfold from_le, to_le. by rewrite reverse_involutive, from_be_to_be. Qed.

Lemma to_le_from_le k bs :
  length bs = k → Forall (λ b, b < 256) bs → to_le k (from_le bs) = bs.
Proof.
  intros Hk Hb. unfold to_le, from_le. rewrite to_be_from_be, reverse_involutive; [done| |].
  - by rewrite length_reverse.
  - by apply Forall_reverse.
Qed.

Lemma to_be_bytes k v : Forall (λ b, b < 256) (to_be k v).
Proof.
  revert v. induction k as [|k IH]; intros v; [constructor|].
  change (to_be (S k) v) with (to_be k (v / 256) ++ [v mod 256]).
  apply Forall_app. split; [apply IH|]. constructor; [by apply N.mod_lt|constructor].
Qed.

Lemma to_le_bytes k v : Forall (λ b, b < 256) (to_le k v).
Proof. apply Forall_reverse, to_be_bytes. Qed.

Lemma from_be_lt bs : Forall (λ b, b < 256) bs → from_be bs < 256 ^ N.of_nat (length bs).
Proof.
  induction bs as [|b bs IH] using rev_ind; [done|]. intros [Hbs Hb]%Forall_app.
  rewrite Forall_singleton in Hb. rewrite from_be_snoc, length_app, Nat2N.inj_add, N.pow_add_r.
  specialize (IH Hbs). simpl. lia.
Qed.

Lemma from_le_lt bs : Forall (λ b, b < 256) bs → from_le bs < 256 ^ N.of_nat (length bs).
Proof.
  intros Hb. unfold from_le. rewrite <-(length_reverse bs). by apply from_be_lt, Forall_reverse.
Qed.

#[global] Arguments to_le : simpl never.
#[global] Arguments from_le : simpl never.
