(* ===== verification/RaftState.v ===== *)
(** * Raft state and messages

    The data of one Raft group: [nodedb-raft/src/state.rs] (hard state,
    roles, the leader's replication table), [message.rs] (log entries and
    RPCs) and [error.rs]. [Vec<(u64, V)>] tables are association lists,
    [HashSet<u64>] is [gset N] and [HashMap<u64, V>] is [gmap N V]. Fields
    carry the prefix of their struct, since Rocq records share one name
    space. *)

From stdpp Require Import base list option gmap strings.
From S2P Require Import Prelude.

Open Scope N_scope.

(** ** Errors ([error.rs]) *)

Inductive RaftError : Type :=
  | NotLeader (leader_hint : option u64) (term : u64)
  | LogCompacted (requested first_available : u64)
  | CompactionAheadOfApplied (requested last_applied : u64)
  | ProposalRejected (reason : string)
  | InvalidTransferTarget (target : u64)
  | LeadershipTransferInProgress
  | GroupNotFound (group_id : u64)
  | TransportError (detail : string)
  | StorageError (detail : string)
  | SerializationError (detail : string)
  | SnapshotFormat (detail : string)
  | Shutdown.

Abbreviation Result := (result RaftError).

(** ** Persistent and volatile state ([state.rs]) *)

Record HardState : Type := MkHardState {
  current_term : u64;
  (** The candidate voted for in [current_term]; 0 is none. *)
  voted_for : u64;
}.

#[export] Instance eta_HardState : Eta HardState := λ r,
    MkHardState (current_term r) (voted_for r).

Definition hard_state_new : HardState := MkHardState 0 0.

Inductive NodeRole : Type :=
  | Follower
  | Candidate
  | Leader
  | Learner
  | Observer.

#[export] Instance node_role_eq_dec : EqDecision NodeRole.
Proof. solve_decision. Defined.

Inductive ReplicaState : Type :=
  | Whole
  | WantsSnapshot
  | AwaitingSnapshot.

#[export] Instance replica_state_eq_dec : EqDecision ReplicaState.
Proof. solve_decision. Defined.

(** The discriminants the derived [Ord] compares. *)
Definition replica_rank (r : ReplicaState) : N :=
  match r with Whole => 0 | WantsSnapshot => 1 | AwaitingSnapshot => 2 end.

Definition raised_to (self other : ReplicaState) : ReplicaState :=
  if replica_rank self <=? replica_rank other then other else self.

Definition wants_snapshot (r : ReplicaState) : bool :=
  match r with Whole => false | WantsSnapshot | AwaitingSnapshot => true end.

Definition may_lead (r : ReplicaState) : bool :=
  match r with Whole | WantsSnapshot => true | AwaitingSnapshot => false end.

Record VolatileState : Type := MkVolatileState {
  commit_index : u64;
  last_applied : u64;
}.

#[export] Instance eta_VolatileState : Eta VolatileState := λ r,
    MkVolatileState (commit_index r) (last_applied r).

Definition volatile_new : VolatileState := MkVolatileState 0 0.

Definition volatile_restored (applied_index : u64) : VolatileState :=
  MkVolatileState applied_index applied_index.

Record LeadershipTransfer : Type := MkTransfer {
  lt_target : u64;
  lt_emitted : bool;
  lt_deadline : Instant;
}.

#[export] Instance eta_LeadershipTransfer : Eta LeadershipTransfer := λ r,
    MkTransfer (lt_target r) (lt_emitted r) (lt_deadline r).

Record PreVoteRound : Type := MkPreVoteRound {
  pvr_term : u64;
  pvr_granted : gset u64;
}.

#[export] Instance eta_PreVoteRound : Eta PreVoteRound := λ r,
    MkPreVoteRound (pvr_term r) (pvr_granted r).

Record ObserverState : Type := MkObserverState {
  os_next_index : u64;
  os_match_index : u64;
  os_pending_count : u32;
}.

#[export] Instance eta_ObserverState : Eta ObserverState := λ r,
    MkObserverState (os_next_index r) (os_match_index r) (os_pending_count r).

(** [ObserverState::MAX_PENDING]. *)
Definition MAX_PENDING : u32 := 256.

Record LeaderState : Type := MkLeaderState {
  ls_next_index : list (u64 * u64);
  ls_match_index : list (u64 * u64);
  ls_observer_states : list (u64 * ObserverState);
  ls_ack_count : list (u64 * u64);
  ls_peer_states : gmap u64 ReplicaState;
}.

#[export] Instance eta_LeaderState : Eta LeaderState := λ r,
    MkLeaderState (ls_next_index r) (ls_match_index r) (ls_observer_states r)
    (ls_ack_count r) (ls_peer_states r).

(** ** [LeaderState] operations *)

Definition leader_state_new (peers observers : list u64) (last_log_index : u64) : LeaderState := {|
  ls_next_index := (λ id, (id, last_log_index + 1)) <$> peers;
  ls_match_index := (λ id, (id, 0)) <$> peers;
  ls_ack_count := (λ id, (id, 0)) <$> peers;
  ls_peer_states := ∅;
  ls_observer_states := (λ id, (id, MkObserverState (last_log_index + 1) 0 0)) <$> observers;
|}.

Definition next_index_for (ls : LeaderState) (peer : u64) : u64 :=
  default 1 (assoc peer (ls_next_index ls)).

Definition set_next_index (peer index : u64) (ls : LeaderState) : LeaderState :=
  ls {{ ls_next_index ::= assoc_update peer (λ _, index) }}.

Definition ls_match_index_for (ls : LeaderState) (peer : u64) : u64 :=
  default 0 (assoc peer (ls_match_index ls)).

Definition set_match_index (peer index : u64) (ls : LeaderState) : LeaderState :=
  ls {{ ls_match_index ::= assoc_update peer (λ _, index) }}.

Definition ls_add_peer (peer last_log_index : u64) (ls : LeaderState) : LeaderState :=
  if negb (assoc_has peer (ls_next_index ls)) then
    ls {{ ls_next_index ::= λ l, l ++ [(peer, last_log_index + 1)];
          ls_match_index ::= λ l, l ++ [(peer, 0)];
          ls_ack_count ::= λ l, l ++ [(peer, 0)] }}
  else ls.

Definition ls_remove_peer (peer : u64) (ls : LeaderState) : LeaderState :=
  ls {{ ls_next_index ::= assoc_remove peer;
        ls_match_index ::= assoc_remove peer;
        ls_ack_count ::= assoc_remove peer;
        ls_peer_states ::= delete peer }}.

Definition ack_count_for (ls : LeaderState) (peer : u64) : u64 :=
  default 0 (assoc peer (ls_ack_count ls)).

Definition record_ack (peer : u64) (ls : LeaderState) : LeaderState :=
  ls {{ ls_ack_count ::= assoc_update peer (λ n, sat_add64 n 1) }}.

(** [LeaderState::peers]. *)
Definition ls_peers (ls : LeaderState) : list u64 := (ls_next_index ls).*1.

Definition add_observer (observer last_log_index : u64) (ls : LeaderState) : LeaderState :=
  if negb (assoc_has observer (ls_observer_states ls)) then
    ls {{ ls_observer_states ::=
            λ l, l ++ [(observer, MkObserverState (last_log_index + 1) 0 0)] }}
  else ls.

Definition remove_observer (observer : u64) (ls : LeaderState) : LeaderState :=
  ls {{ ls_observer_states ::= assoc_remove observer }}.

(** A write through [observer_state_mut]: nothing when the observer is
    unknown. *)
Definition update_observer (observer : u64) (f : ObserverState → ObserverState)
    (ls : LeaderState) : LeaderState :=
  ls {{ ls_observer_states ::= assoc_update observer f }}.

Definition observer_can_receive (ls : LeaderState) (observer : u64) : bool :=
  match assoc observer (ls_observer_states ls) with
  | Some state => os_pending_count state <? MAX_PENDING
  | None => false
  end.

(** ** Log entries and RPCs ([message.rs]) *)

Record LogEntry : Type := MkLogEntry {
  e_term : u64;
  e_index : u64;
  e_data : bytes;
}.

#[export] Instance log_entry_eq_dec : EqDecision LogEntry.
Proof. solve_decision. Defined.

Record AppendEntriesRequest : Type := MkAppendEntriesRequest {
  ae_term : u64;
  ae_leader_id : u64;
  ae_prev_log_index : u64;
  ae_prev_log_term : u64;
  ae_entries : list LogEntry;
  ae_leader_commit : u64;
  ae_group_id : u64;
  ae_round : u64;
  ae_replicated_floor : u64;
}.

Record AppendEntriesResponse : Type := MkAppendEntriesResponse {
  aer_term : u64;
  aer_success : bool;
  aer_last_log_index : u64;
  aer_round : u64;
  aer_replica : ReplicaState;
}.

Record RequestVoteRequest : Type := MkRequestVoteRequest {
  rv_term : u64;
  rv_candidate_id : u64;
  rv_last_log_index : u64;
  rv_last_log_term : u64;
  rv_group_id : u64;
  rv_transfer : bool;
}.

#[export] Instance eta_RequestVoteRequest : Eta RequestVoteRequest := λ r,
    MkRequestVoteRequest (rv_term r) (rv_candidate_id r) (rv_last_log_index r)
    (rv_last_log_term r) (rv_group_id r) (rv_transfer r).

Record RequestVoteResponse : Type := MkRequestVoteResponse {
  rvr_term : u64;
  rvr_vote_granted : bool;
}.

Record PreVoteRequest : Type := MkPreVoteRequest {
  pv_term : u64;
  pv_candidate_id : u64;
  pv_last_log_index : u64;
  pv_last_log_term : u64;
  pv_group_id : u64;
}.

Record PreVoteResponse : Type := MkPreVoteResponse {
  pvres_term : u64;
  pvres_vote_granted : bool;
}.

Record TimeoutNowRequest : Type := MkTimeoutNowRequest {
  tn_term : u64;
  tn_leader_id : u64;
  tn_group_id : u64;
}.

Record InstallSnapshotRequest : Type := MkInstallSnapshotRequest {
  is_term : u64;
  is_leader_id : u64;
  is_last_included_index : u64;
  is_last_included_term : u64;
  is_offset : u64;
  is_data : bytes;
  is_done : bool;
  is_group_id : u64;
  is_total_size : u64;
  is_voters : list u64;
  is_learners : list u64;
}.

Record InstallSnapshotResponse : Type := MkInstallSnapshotResponse {
  isr_term : u64;
}.
