(* ===== verification/RaftLogFacts.v ===== *)
(** * Facts about the Raft log

    Well-formedness (the entries are the contiguous run after the snapshot
    boundary) and what each log operation does to the entries by index; the
    contract of [LogStorage], [MemStorage]'s proof of it, and crash recovery:
    a log rebuilt from storage is the log that was lost. *)

From stdpp Require Import base list option gmap.
From S2P Require Import Prelude RaftState RaftLog.

Open Scope N_scope.

(** ** Contiguous runs of entries *)

(** [es] holds the entries of indexes [base + 1], [base + 2], ... *)
Definition contiguous (base : N) (es : list LogEntry) : Prop :=
  ∀ i e, es !! i = Some e → e_index e = base + 1 + N.of_nat i.

Lemma contiguous_nil base : contiguous base [].
Proof. intros i e Hi. by rewrite lookup_nil in Hi. Qed.

Lemma contiguous_app base xs ys :
  contiguous base (xs ++ ys) ↔
  contiguous base xs ∧ contiguous (base + N.of_nat (length xs)) ys.
Proof.
  unfold contiguous. split.
  - intros Hc. split.
    + intros i e Hi. apply Hc. by apply lookup_app_l_Some.
    + intros i e Hi. rewrite (Hc (length xs + i)%nat e); [lia|].
      by rewrite lookup_app_r, Nat.add_comm, Nat.add_sub by lia.
  - intros [Hx Hy] i e [Hi|[Hlen Hi]]%lookup_app_Some; [by auto|].
    rewrite (Hy _ _ Hi). lia.
Qed.

Lemma contiguous_singleton base e : contiguous base [e] ↔ e_index e = base + 1.
Proof.
  split.
  - intros Hc. rewrite (Hc 0%nat e eq_refl). lia.
  - intros He [|i] e' Hi; [|done]. simpl in Hi. simplify_eq. lia.
Qed.

Lemma contiguous_take base n es : contiguous base es → contiguous base (take n es).
Proof. intros Hc i e [Hi _]%lookup_take_Some. by apply Hc. Qed.

Lemma contiguous_drop base n es :
  contiguous base es → contiguous (base + N.of_nat n) (drop n es).
Proof. intros Hc i e Hi. rewrite lookup_drop in Hi. rewrite (Hc _ _ Hi). lia. Qed.

Lemma contiguous_filter_gt base i es :
  contiguous base es → base ≤ i →
  List.filter (λ e, i <? e_index e) es = drop (N.to_nat (i - base)) es.
Proof.
  intros Hc Hi. apply filter_keep_suffix. intros j e He. rewrite (Hc _ _ He).
  apply eq_bool_prop_intro. rewrite bool_decide_spec, Is_true_true, N.ltb_lt. lia.
Qed.

Lemma contiguous_filter_lt base i es :
  contiguous base es →
  List.filter (λ e, e_index e <? i) es = take (N.to_nat (i - base - 1)) es.
Proof.
  intros Hc. apply filter_keep_prefix. intros j e He. rewrite (Hc _ _ He).
  apply eq_bool_prop_intro. rewrite bool_decide_spec, Is_true_true, N.ltb_lt. lia.
Qed.

Lemma contiguous_last base es e :
  contiguous base es → last es = Some e → e_index e = base + N.of_nat (length es).
Proof.
  intros Hc Hl. rewrite last_lookup in Hl. rewrite (Hc _ _ Hl).
  destruct es; [done|]. simpl. lia.
Qed.

(** ** Well-formed logs *)

Section log_facts.
Context {S : Type} `{LogStorage S}.
Implicit Types (l : RaftLog S).

(** The entries in memory are the contiguous run after the snapshot. *)
Definition log_wf l : Prop := contiguous (lg_snapshot_index l) (lg_entries l).

Lemma last_index_wf l :
  log_wf l → last_index l = lg_snapshot_index l + N.of_nat (length (lg_entries l)).
Proof.
  intros Hwf. unfold last_index. destruct (last (lg_entries l)) as [e|] eqn:El.
  - by apply (contiguous_last _ _ _ Hwf).
  - apply last_None in El. rewrite El. simpl. lia.
Qed.

Lemma entry_at_wf l i :
  log_wf l →
  entry_at l i =
    if lg_snapshot_index l <? i then lg_entries l !! N.to_nat (i - lg_snapshot_index l - 1)
    else None.
Proof.
  intros Hwf. unfold entry_at. rewrite (last_index_wf l Hwf).
  destruct (N.leb_spec i (lg_snapshot_index l)), (N.ltb_spec (lg_snapshot_index l) i);
    try lia; simpl; [done|].
  case N.ltb_spec; [|done]. intros Hlt. symmetry. apply lookup_ge_None. lia.
Qed.

Lemma entry_at_Some_wf l i e :
  log_wf l → entry_at l i = Some e →
  lg_snapshot_index l < i ≤ last_index l ∧ e_index e = i.
Proof.
  intros Hwf. rewrite (entry_at_wf l i Hwf), (last_index_wf l Hwf).
  case N.ltb_spec; [|done]. intros Hlt He.
  pose proof (lookup_lt_Some _ _ _ He). rewrite (Hwf _ _ He). lia.
Qed.

Lemma entry_at_None_wf l i :
  log_wf l → entry_at l i = None ↔ i ≤ lg_snapshot_index l ∨ last_index l < i.
Proof.
  intros Hwf. rewrite (entry_at_wf l i Hwf), (last_index_wf l Hwf).
  case N.ltb_spec; intros Hlt; [|split; [lia|done]].
  rewrite lookup_ge_None. lia.
Qed.

Lemma term_at_above l i :
  lg_snapshot_index l < i → term_at l i = e_term <$> entry_at l i.
Proof.
  intros Hlt. unfold term_at.
  rewrite (proj2 (N.eqb_neq i 0)), (proj2 (N.eqb_neq i (lg_snapshot_index l))) by lia.
  by rewrite (proj2 (N.ltb_ge i (lg_snapshot_index l))) by lia.
Qed.

(** The slice of [entries_range] never leaves the vector: no panic. *)
Lemma entries_range_bounds l lo hi :
  log_wf l → lg_snapshot_index l < lo → lo ≤ hi → lo ≤ last_index l →
  lo - lg_snapshot_index l - 1 ≤ N.min hi (last_index l) - lg_snapshot_index l - 1 + 1 ∧
  (N.to_nat (N.min hi (last_index l) - lg_snapshot_index l - 1 + 1) ≤ length (lg_entries l))%nat.
Proof. intros Hwf. rewrite (last_index_wf l Hwf). lia. Qed.

(** [entries_range] returns exactly the entries of [lo..=hi] the log holds. *)
Lemma entries_range_lookup l lo hi es i :
  log_wf l → entries_range l lo hi = Ok es →
  es !! i = if lo + N.of_nat i <=? hi then entry_at l (lo + N.of_nat i) else None.
Proof.
  intros Hwf. unfold entries_range.
  case N.leb_spec; [done|]. intros Hlo.
  destruct (N.ltb_spec hi lo), (N.ltb_spec (last_index l) lo); simpl; intros [= <-].
  1-3: case N.leb_spec; intros; [|done]; try lia;
    symmetry; apply (entry_at_None_wf l _ Hwf); lia.
  rewrite lookup_take, lookup_drop, (entry_at_wf l _ Hwf).
  rewrite (proj2 (N.ltb_lt _ _)) by lia.
  replace (N.to_nat (lo - lg_snapshot_index l - 1) + i)%nat
    with (N.to_nat (lo + N.of_nat i - lg_snapshot_index l - 1)) by lia.
  rewrite (last_index_wf l Hwf). case_decide as Hd; case N.leb_spec; intros Hhi; try done; [lia|].
  symmetry. apply lookup_ge_None. lia.
Qed.

(** ** [append_entries] *)

Lemma log_lacks_true l e :
  log_wf l → log_lacks l e = true ↔
  lg_snapshot_index l < e_index e ∧ ∀ x, entry_at l (e_index e) = Some x → e_term x ≠ e_term e.
Proof.
  intros Hwf. unfold log_lacks. rewrite andb_true_iff, N.ltb_lt.
  destruct (entry_at l (e_index e)) as [x|]; [|naive_solver].
  rewrite negb_true_iff, N.eqb_neq. naive_solver.
Qed.

Lemma log_lacks_false l e :
  log_wf l → log_lacks l e = false ↔
  e_index e ≤ lg_snapshot_index l ∨
  ∃ x, entry_at l (e_index e) = Some x ∧ e_term x = e_term e.
Proof.
  intros Hwf. unfold log_lacks. rewrite andb_false_iff, N.ltb_ge.
  destruct (entry_at l (e_index e)) as [x|]; [|naive_solver].
  rewrite negb_false_iff, N.eqb_eq. naive_solver.
Qed.

Lemma truncate_from_ok l i l' :
  log_wf l → truncate_from i l = (l', Ok tt) → lg_snapshot_index l < i →
  lg_entries l' = take (N.to_nat (i - lg_snapshot_index l - 1)) (lg_entries l) ∧
  lg_snapshot_index l' = lg_snapshot_index l ∧ lg_snapshot_term l' = lg_snapshot_term l.
Proof.
  intros Hwf. unfold truncate_from. case N.leb_spec; [lia|]. intros _.
  destruct (storage_truncate i (lg_storage l)) as [s [[]|]]; [|done].
  intros [= <-] _. done.
Qed.

(** Every new entry lands right after the entries the log keeps. *)
Lemma first_new_adjacent l prev ents k e :
  log_wf l → contiguous prev ents → prev ≤ last_index l →
  ents !! k = Some e → lg_snapshot_index l < e_index e →
  (∀ j x, (j < k)%nat → ents !! j = Some x → log_lacks l x = false) →
  e_index e ≤ last_index l + 1.
Proof.
  intros Hwf Hc Hprev Hk Hsnap Hold. rewrite (Hc _ _ Hk) in *.
  destruct k as [|k]; [lia|].
  destruct (lookup_lt_is_Some_2 ents k) as [x Hx].
  { apply lookup_lt_Some in Hk. lia. }
  pose proof (Hold k x ltac:(lia) Hx) as [Hle|(y & Hy & _)]%(log_lacks_false l x Hwf);
    rewrite (Hc _ _ Hx) in *.
  - rewrite (last_index_wf l Hwf). lia.
  - apply (entry_at_Some_wf l _ _ Hwf) in Hy. lia.
Qed.

(** What a successful [append_entries] did: nothing when the log held every
    entry, else it kept the log below the first lacking entry and put the
    rest of the request after it. *)
Lemma log_append_entries_ok l prev ents l' w :
  log_wf l → contiguous prev ents → prev ≤ last_index l →
  log_append_entries prev ents l = (l', Ok w) →
  (w = false ∧ l' = l ∧ ∀ e, e ∈ ents → log_lacks l e = false) ∨
  (w = true ∧ ∃ k e,
     ents !! k = Some e ∧ log_lacks l e = true ∧
     (∀ j x, (j < k)%nat → ents !! j = Some x → log_lacks l x = false) ∧
     lg_snapshot_index l < e_index e ≤ last_index l + 1 ∧
     lg_entries l' =
       take (N.to_nat (e_index e - lg_snapshot_index l - 1)) (lg_entries l) ++ drop k ents ∧
     lg_snapshot_index l' = lg_snapshot_index l ∧
     lg_snapshot_term l' = lg_snapshot_term l).
Proof.
  intros Hwf Hc Hprev. unfold log_append_entries.
  destruct (position (log_lacks l) ents) as [k|] eqn:Hpos.
  2: { intros [= <- <-]. left. rewrite position_None in Hpos. auto. }
  apply position_Some in Hpos as [(e & Hk & Hlack) Hold].
  pose proof (proj1 (log_lacks_true l e Hwf) Hlack) as [Hsnap _].
  pose proof (first_new_adjacent l prev ents k e Hwf Hc Hprev Hk Hsnap Hold) as Hadj.
  rewrite head_lookup, lookup_drop, Nat.add_0_r, Hk.
  intros Happ. right. revert Happ.
  destruct (entry_at l (e_index e)) as [x|] eqn:Hx.
  - destruct (truncate_from (e_index e) l) as [l1 [[]|]] eqn:Htr; [|done].
    destruct (truncate_from_ok l _ _ Hwf Htr Hsnap) as (He1 & Hs1 & Ht1).
    destruct (storage_append _ _) as [s [u|]]; [|done]. intros [= <- <-].
    split; [done|]. exists k, e. simpl. rewrite He1. naive_solver.
  - apply (entry_at_None_wf l _ Hwf) in Hx.
    destruct (storage_append _ _) as [s [u|]]; [|done]. intros [= <- <-].
    split; [done|]. exists k, e. simpl.
    rewrite (take_ge (lg_entries l)); [naive_solver|].
    rewrite (last_index_wf l Hwf) in Hx. lia.
Qed.

Lemma kept_then_new_contiguous l prev ents k e :
  log_wf l → contiguous prev ents → ents !! k = Some e →
  lg_snapshot_index l < e_index e ≤ last_index l + 1 →
  contiguous (lg_snapshot_index l)
    (take (N.to_nat (e_index e - lg_snapshot_index l - 1)) (lg_entries l) ++ drop k ents).
Proof.
  intros Hwf Hc Hk Hidx. rewrite contiguous_app. split; [by apply contiguous_take|].
  rewrite (last_index_wf l Hwf) in Hidx. rewrite length_take_le by lia.
  apply (contiguous_drop _ k) in Hc as Hc'. pose proof (Hc _ _ Hk).
  by replace (lg_snapshot_index l + _) with (prev + N.of_nat k) by lia.
Qed.

Lemma log_append_entries_wf l prev ents l' w :
  log_wf l → contiguous prev ents → prev ≤ last_index l →
  log_append_entries prev ents l = (l', Ok w) → log_wf l'.
Proof.
  intros Hwf Hc Hprev
    [(_ & -> & _)|(_ & k & e & Hk & _ & _ & Hidx & He & Hs & _)]%log_append_entries_ok; try done.
  unfold log_wf. rewrite He, Hs. by eapply kept_then_new_contiguous.
Qed.

Lemma log_append_entries_last l prev ents l' w :
  log_wf l → contiguous prev ents → prev ≤ last_index l →
  log_append_entries prev ents l = (l', Ok w) →
  lg_snapshot_index l' = lg_snapshot_index l ∧
  lg_snapshot_term l' = lg_snapshot_term l ∧
  N.max prev (prev + N.of_nat (length ents)) ≤ last_index l'.
Proof.
  intros Hwf Hc Hprev Happ.
  pose proof (log_append_entries_wf _ _ _ _ _ Hwf Hc Hprev Happ) as Hwf'.
  rewrite (last_index_wf l' Hwf'). rewrite (last_index_wf l Hwf) in Hprev.
  apply log_append_entries_ok in Happ; [|by auto|by auto|by rewrite last_index_wf].
  destruct Happ as [(_ & -> & Hheld)|(_ & k & e & Hk & _ & _ & Hidx & He & -> & ->)].
  - split_and!; [done..|]. destruct (last ents) as [e|] eqn:El.
    + pose proof (contiguous_last _ _ _ Hc El) as Hi.
      assert (log_lacks l e = false) as [Hle|(x & Hx & _)]%(log_lacks_false l e Hwf).
      { apply Hheld. by apply last_Some_elem_of. }
      * lia.
      * apply (entry_at_Some_wf l _ _ Hwf) in Hx. rewrite (last_index_wf l Hwf) in Hx. lia.
    + apply last_None in El. subst. simpl. lia.
  - split_and!; [done..|]. rewrite He, length_app, length_drop.
    rewrite (last_index_wf l Hwf) in Hidx. rewrite length_take_le by lia.
    pose proof (Hc _ _ Hk). apply lookup_lt_Some in Hk. lia.
Qed.

(** The log after a successful append, by index: it holds every entry of the
    request already, or the request replaces everything from its first
    lacking entry [e] on. *)
Lemma log_append_entries_lookup l prev ents l' w :
  log_wf l → contiguous prev ents → prev ≤ last_index l →
  log_append_entries prev ents l = (l', Ok w) →
  (w = false ∧ l' = l ∧ ∀ e, e ∈ ents → log_lacks l e = false) ∨
  (w = true ∧ ∃ k e, ents !! k = Some e ∧ log_lacks l e = true ∧
   (∀ j x, (j < k)%nat → ents !! j = Some x → log_lacks l x = false) ∧
   ∀ i, entry_at l' i =
     if i <? e_index e then entry_at l i else ents !! N.to_nat (i - prev - 1)).
Proof.
  intros Hwf Hc Hprev Happ.
  pose proof (log_append_entries_wf _ _ _ _ _ Hwf Hc Hprev Happ) as Hwf'.
  apply log_append_entries_ok in Happ; [|done..].
  destruct Happ as [?|(Hw & k & e & Hk & Hlk & Hold & Hidx & He & Hs & _)]; [by left|].
  right. split; [done|]. exists k, e. split_and!; [done..|]. intros i.
  rewrite (entry_at_wf l' i Hwf'), (entry_at_wf l i Hwf), Hs, He.
  rewrite (last_index_wf l Hwf) in Hidx. pose proof (Hc _ _ Hk) as Hek.
  destruct (N.ltb_spec i (e_index e)); case N.ltb_spec; intros Hi; try done.
  - rewrite lookup_app_l by (rewrite length_take_le; lia). apply lookup_take_lt. lia.
  - rewrite lookup_app_r by (rewrite length_take_le; lia).
    rewrite lookup_drop, length_take_le by lia. f_equal. lia.
  - lia.
Qed.

(** Every entry of the request above the snapshot is in the log after. *)
Lemma log_append_entries_holds l prev ents l' w :
  log_wf l → contiguous prev ents → prev ≤ last_index l →
  log_append_entries prev ents l = (l', Ok w) →
  ∀ e, e ∈ ents → lg_snapshot_index l < e_index e → term_at l' (e_index e) = Some (e_term e).
Proof.
  intros Hwf Hc Hprev Happ x Hx Hsn.
  pose proof (log_append_entries_last _ _ _ _ _ Hwf Hc Hprev Happ) as (Hs & _ & _).
  apply log_append_entries_lookup in Happ as
    [(_ & -> & Hheld)|(_ & k & e & Hk & Hlk & Hold & Hlook)]; [..|done|done|done].
  - destruct (proj1 (log_lacks_false l x Hwf) (Hheld x Hx)) as [?|(y & Hy & Ht)]; [lia|].
    by rewrite term_at_above, Hy, <-Ht by done.
  - apply list_elem_of_lookup in Hx as [j Hj]. pose proof (Hc _ _ Hj) as Hxj.
    pose proof (Hc _ _ Hk) as Hek.
    rewrite term_at_above, Hlook by (by rewrite Hs). case N.ltb_spec; intros Hlt.
    + destruct (proj1 (log_lacks_false l x Hwf) (Hold j x ltac:(lia) Hj))
        as [?|(y & -> & Ht)]; [lia|]. simpl. by rewrite Ht.
    + replace (N.to_nat (e_index x - prev - 1)) with j by lia. by rewrite Hj.
Qed.

(** After a successful [append_entries] at a matching position, the log
    is still contiguous, holds the prefix through [prev] unchanged, holds
    every entry of the request above the snapshot at the leader's term, and
    lost no entry unless the request conflicts with one. *)
Theorem log_append_entries_matches l prev ents l' w :
  log_wf l → contiguous prev ents → prev ≤ last_index l →
  log_append_entries prev ents l = (l', Ok w) →
  log_wf l' ∧
  (∀ i, i ≤ prev → entry_at l' i = entry_at l i) ∧
  (∀ e, e ∈ ents → lg_snapshot_index l < e_index e →
     term_at l' (e_index e) = Some (e_term e)) ∧
  ((∀ e x, e ∈ ents → entry_at l (e_index e) = Some x → e_term x = e_term e) →
   ∀ i e, entry_at l i = Some e → entry_at l' i = Some e).
Proof.
  intros Hwf Hc Hprev Happ.
  split; [exact (log_append_entries_wf _ _ _ _ _ Hwf Hc Hprev Happ)|].
  pose proof (log_append_entries_holds _ _ _ _ _ Hwf Hc Hprev Happ) as Hholds.
  apply log_append_entries_lookup in Happ as
    [(_ & -> & Hheld)|(_ & k & e & Hk & Hlk & Hold & Hlook)]; [..|done|done|done].
  - by split_and!.
  - pose proof (Hc _ _ Hk) as Hek. split_and!; [|done|].
    + intros i Hi. by rewrite Hlook, (proj2 (N.ltb_lt _ _)) by lia.
    + intros Hno i x Hx. apply (log_lacks_true l e Hwf) in Hlk as [Hsn Hlk].
      rewrite Hlook. case N.ltb_spec; [done|]. intros Hle. exfalso.
      destruct (entry_at l (e_index e)) as [y|] eqn:Hy.
      * apply (Hlk y); [done|]. by apply Hno; [apply (list_elem_of_lookup_2 _ _ _ Hk)|].
      * apply (entry_at_None_wf l _ Hwf) in Hy. apply (entry_at_Some_wf l _ _ Hwf) in Hx. lia.
Qed.

(** ** Single appends and snapshots *)

Lemma log_append_ok l e l' :
  log_append e l = (l', Ok tt) →
  lg_entries l' = lg_entries l ++ [e] ∧
  lg_snapshot_index l' = lg_snapshot_index l ∧ lg_snapshot_term l' = lg_snapshot_term l.
Proof.
  unfold log_append. destruct (storage_append _ _) as [s [u|]]; [|done]. by intros [= <-].
Qed.

Lemma log_append_wf l e l' :
  log_wf l → e_index e = last_index l + 1 → log_append e l = (l', Ok tt) →
  log_wf l' ∧ last_index l' = e_index e.
Proof.
  intros Hwf He (Hes & Hs & _)%log_append_ok. unfold log_wf.
  rewrite Hes, Hs, contiguous_app, contiguous_singleton, <-(last_index_wf l Hwf).
  split; [done|]. unfold last_index. by rewrite Hes, last_snoc.
Qed.

Lemma apply_snapshot_ok l i t l' :
  log_wf l → apply_snapshot i t l = (l', Ok tt) → lg_snapshot_index l < i →
  log_wf l' ∧ lg_snapshot_index l' = i ∧ lg_snapshot_term l' = t ∧
  last_index l' = N.max i (last_index l) ∧
  ∀ j, i < j → entry_at l' j = entry_at l j.
Proof.
  intros Hwf. unfold apply_snapshot. case N.leb_spec; [lia|]. intros Hlt.
  destruct (storage_compact _ _ _) as [s [u|]]; [|done]. intros [= <-] _.
  set (l' := upd _ _ _).
  assert (lg_entries l' = drop (N.to_nat (i - lg_snapshot_index l)) (lg_entries l)) as He.
  { simpl. rewrite <-(contiguous_filter_gt _ i _ Hwf) by lia.
    apply filter_ext. intros e. apply eq_bool_prop_intro.
    rewrite !Is_true_true, N.leb_le, N.ltb_lt. lia. }
  assert (log_wf l') as Hwf'.
  { unfold log_wf. rewrite He. simpl.
    pose proof (contiguous_drop _ (N.to_nat (i - lg_snapshot_index l)) _ Hwf) as Hd.
    by replace (lg_snapshot_index l + _) with i in Hd by lia. }
  split_and!; [done..| |].
  - rewrite (last_index_wf l' Hwf'), (last_index_wf l Hwf), He, length_drop. simpl. lia.
  - intros j Hj. rewrite (entry_at_wf l' j Hwf'), (entry_at_wf l j Hwf), He. simpl.
    rewrite !(proj2 (N.ltb_lt _ _)) by lia. rewrite lookup_drop. f_equal. lia.
Qed.

(** ** Batches *)

Definition data_bytes (es : list LogEntry) : N :=
  foldr (λ e n, N.of_nat (length (e_data e)) + n) 0 es.

Lemma data_bytes_app xs ys : data_bytes (xs ++ ys) = data_bytes xs + data_bytes ys.
Proof. unfold data_bytes. induction xs as [|x xs IH]; simpl; [done|]. rewrite IH. lia. Qed.

(** The loop invariant of [entries_within]: [pre] is what the loop took. *)
Lemma batch_len_spec max es : ∀ pre,
  max < u64_max →
  let full := pre ++ es in
  let n := batch_len max (N.min (data_bytes pre) u64_max) (length pre) es in
  (length pre ≤ n ≤ length full)%nat ∧
  (full ≠ [] → 1 ≤ n)%nat ∧
  ((n = length pre ∨ n ≤ 1)%nat ∨ data_bytes (take n full) ≤ max) ∧
  ((n < length full)%nat → max < data_bytes (take (Datatypes.S n) full)).
Proof.
  induction es as [|e es IH]; intros pre Hmax; cbn zeta; simpl.
  { rewrite app_nil_r. split_and!; [lia|lia| |auto|lia].
    destruct pre; simpl; [done|lia]. }
  set (d := N.of_nat (length (e_data e))).
  replace (sat_add64 _ d) with (N.min (data_bytes (pre ++ [e])) u64_max)
    by (rewrite data_bytes_app; unfold sat_add64; simpl; lia).
  destruct ((0 <? length pre)%nat && (max <? N.min (data_bytes (pre ++ [e])) u64_max)) eqn:Hstop.
  - apply andb_true_iff in Hstop as [Hpre%Nat.ltb_lt Hgt%N.ltb_lt].
    rewrite length_app. simpl. split_and!; [lia|lia|lia|auto|]. intros _.
    rewrite take_app. replace (Datatypes.S (length pre) - length pre)%nat with 1%nat by lia.
    rewrite take_ge by lia. simpl. rewrite take_0. lia.
  - replace (Datatypes.S (length pre)) with (length (pre ++ [e])) by (rewrite length_app; simpl; lia).
    replace (pre ++ e :: es) with ((pre ++ [e]) ++ es) by (by rewrite <-app_assoc).
    destruct (IH (pre ++ [e]) Hmax) as (Hle & Hpos & Hbytes & Hnext).
    set (n := batch_len _ _ _ _) in *. rewrite (length_app pre [e]) in *. simpl in *.
    split_and!; [lia|lia|lia| |done].
    destruct Hbytes as [[Hn|?]|?]; [|by auto..].
    apply andb_false_iff in Hstop as [Hpre%Nat.ltb_ge|Hgt%N.ltb_ge]; [left; lia|].
    right. rewrite take_app, take_ge by (rewrite length_app; simpl; lia).
    replace (n - length (pre ++ [e]))%nat with 0%nat by (rewrite length_app; simpl; lia).
    rewrite take_0, app_nil_r. lia.
Qed.

(** A batch is a prefix of the requested range, never empty when the
    range is not, within the byte limit unless it is one entry, and never
    shorter than the limit allows. *)
Theorem entries_within_batch l lo hi max range batch :
  max < u64_max → entries_range l lo hi = Ok range → entries_within l lo hi max = Ok batch →
  batch = take (length batch) range ∧
  (range ≠ [] → batch ≠ []) ∧
  (length batch = 1%nat ∨ data_bytes batch ≤ max) ∧
  ((length batch < length range)%nat →
     max < data_bytes (take (Datatypes.S (length batch)) range)).
Proof.
  intros Hmax Hr. unfold entries_within. rewrite Hr. intros [= <-].
  destruct (batch_len_spec max range [] Hmax) as (Hle & Hpos & Hbytes & Hnext).
  change (N.min (data_bytes []) u64_max) with 0 in *. simpl in *.
  set (n := batch_len max 0 0 range) in *. rewrite length_take_le by lia.
  split_and!; [done| | |done].
  - intros Hne Hnil%(f_equal length). rewrite length_take_le in Hnil by lia.
    specialize (Hpos Hne). simpl in Hnil. lia.
  - destruct Hbytes as [[Hn|?]|?]; [|destruct (decide (n = 0%nat)); [|left; lia]|by right].
    all: right; replace n with 0%nat by lia; rewrite take_0; simpl; lia.
Qed.
End log_facts.

(** ** The storage contract *)

(** What [LogStorage] documents: a successful write is visible to the loads
    of the next boot, a failed one is not, and each write changes only its
    own part. Log writes keep the entries contiguous. *)
Class LogStorageSpec (S : Type) `{LogStorage S} : Type := {
  storage_ok : S → Prop;
  append_spec s new s' r es :
    storage_ok s → load_entries_after (snapshot_metadata s).1 s = Ok es →
    contiguous (snapshot_metadata s).1 (es ++ new) →
    storage_append new s = (s', r) →
    storage_ok s' ∧ snapshot_metadata s' = snapshot_metadata s ∧
    load_entries_after (snapshot_metadata s).1 s' =
      Ok (if is_ok r then es ++ new else es);
  append_meta s new s' r :
    storage_append new s = (s', r) →
    load_hard_state s' = load_hard_state s ∧ load_applied_index s' = load_applied_index s;
  truncate_spec s i s' r es :
    storage_ok s → load_entries_after (snapshot_metadata s).1 s = Ok es →
    storage_truncate i s = (s', r) →
    storage_ok s' ∧ snapshot_metadata s' = snapshot_metadata s ∧
    load_entries_after (snapshot_metadata s).1 s' =
      Ok (if is_ok r then List.filter (λ e, e_index e <? i) es else es);
  truncate_meta s i s' r :
    storage_truncate i s = (s', r) →
    load_hard_state s' = load_hard_state s ∧ load_applied_index s' = load_applied_index s;
  compact_spec s i t s' r es :
    storage_ok s → load_entries_after (snapshot_metadata s).1 s = Ok es →
    (snapshot_metadata s).1 ≤ i → storage_compact i t s = (s', r) →
    storage_ok s' ∧
    (if is_ok r then
       snapshot_metadata s' = (i, t) ∧
       load_entries_after i s' = Ok (List.filter (λ e, i <? e_index e) es)
     else
       snapshot_metadata s' = snapshot_metadata s ∧
       load_entries_after (snapshot_metadata s).1 s' = Ok es);
  compact_meta s i t s' r :
    storage_compact i t s = (s', r) →
    load_hard_state s' = load_hard_state s ∧ load_applied_index s' = load_applied_index s;
  save_hard_state_spec s hs s' r :
    save_hard_state hs s = (s', r) →
    (storage_ok s → storage_ok s') ∧
    snapshot_metadata s' = snapshot_metadata s ∧
    (∀ i, load_entries_after i s' = load_entries_after i s) ∧
    load_applied_index s' = load_applied_index s ∧
    load_hard_state s' = if is_ok r then Ok hs else load_hard_state s;
  save_applied_index_spec s i s' r :
    save_applied_index i s = (s', r) →
    (storage_ok s → storage_ok s') ∧
    snapshot_metadata s' = snapshot_metadata s ∧
    (∀ j, load_entries_after j s' = load_entries_after j s) ∧
    load_hard_state s' = load_hard_state s ∧
    load_applied_index s' = if is_ok r then Ok i else load_applied_index s;
}.

(** *** [MemStorage] meets it *)

Lemma mem_put_fresh es e :
  (∀ x, x ∈ es → e_index x ≠ e_index e) → mem_put es e = es ++ [e].
Proof.
  intros Hf. unfold mem_put. rewrite (proj2 (position_None _ _)); [done|].
  intros x Hx. by apply N.eqb_neq, Hf.
Qed.

(** Fresh indexes are pushed in order. *)
Lemma mem_append_fresh new : ∀ es,
  NoDup (e_index <$> (es ++ new)) → foldl mem_put es new = es ++ new.
Proof.
  induction new as [|e new IH]; intros es Hnd; simpl; [by rewrite app_nil_r|].
  rewrite mem_put_fresh.
  - rewrite IH; rewrite <-app_assoc; done.
  - intros x Hx Heq. rewrite fmap_app in Hnd. apply NoDup_app in Hnd as (_ & Hdis & _).
    apply (Hdis (e_index x)); [by apply list_elem_of_fmap_2|]. rewrite Heq. left.
Qed.

Lemma contiguous_NoDup base es : contiguous base es → NoDup (e_index <$> es).
Proof.
  intros Hc. apply NoDup_alt. intros i j x. rewrite !list_lookup_fmap.
  destruct (es !! i) as [e1|] eqn:H1; [|done]. destruct (es !! j) as [e2|] eqn:H2; [|done].
  simpl. intros [= <-] [= Heq]. rewrite (Hc _ _ H1), (Hc _ _ H2) in Heq. lia.
Qed.

Lemma filter_id {A} (f : A → bool) (l : list A) :
  (∀ x, x ∈ l → f x = true) → List.filter f l = l.
Proof.
  induction l as [|a l IH]; intros Hf; simpl; [done|].
  rewrite Hf by left. f_equal. apply IH. intros x Hx. apply Hf. by right.
Qed.

(** Storage never keeps an entry its snapshot covers. *)
Definition mem_storage_ok (m : MemStorage) : Prop :=
  ∀ e, e ∈ ms_entries m → ms_snapshot_index m < e_index e.

Lemma mem_load_ok m :
  mem_storage_ok m → mem_load_entries_after (ms_snapshot_index m) m = Ok (ms_entries m).
Proof.
  intros Hok. unfold mem_load_entries_after. rewrite filter_id; [done|].
  intros e He. by apply N.ltb_lt, Hok.
Qed.

#[export] Program Instance mem_storage_spec : LogStorageSpec MemStorage := {|
  storage_ok := mem_storage_ok;
|}.
Next Obligation.
  intros m new m' r es Hok Hload Hc [= <- <-]. simpl in *.
  rewrite (mem_load_ok m Hok) in Hload. simplify_eq.
  assert (mem_storage_ok (m {{ ms_entries ::= λ old, foldl mem_put old new }})) as Hok'.
  { intros e. simpl. rewrite mem_append_fresh by (by eapply contiguous_NoDup).
    intros [i Hi]%list_elem_of_lookup. rewrite (Hc _ _ Hi). lia. }
  split_and!; [done..|]. etrans; [exact (mem_load_ok _ Hok')|]. simpl.
  by rewrite mem_append_fresh by (by eapply contiguous_NoDup).
Qed.
Next Obligation. by intros m new m' r [= <- <-]. Qed.
Next Obligation.
  intros m i m' r es Hok Hload [= <- <-]. simpl in *.
  rewrite (mem_load_ok m Hok) in Hload. simplify_eq.
  assert (mem_storage_ok (m {{ ms_entries ::= List.filter (λ e, e_index e <? i) }})) as Hok'.
  { intros e. simpl. rewrite list_elem_of_In, filter_In, <-list_elem_of_In. intros [? _]. by apply Hok. }
  split_and!; [done..|]. exact (mem_load_ok _ Hok').
Qed.
Next Obligation. by intros m i m' r [= <- <-]. Qed.
Next Obligation.
  intros m i t m' r es Hok Hload Hle [= <- <-]. simpl in *.
  rewrite (mem_load_ok m Hok) in Hload. simplify_eq.
  set (m' := upd _ _ _).
  assert (mem_storage_ok m') as Hok'.
  { intros e. simpl. rewrite list_elem_of_In, filter_In, N.ltb_lt. by intros [_ ?]. }
  split_and!; [done..|]. exact (mem_load_ok _ Hok').
Qed.
Next Obligation. by intros m i t m' r [= <- <-]. Qed.
Next Obligation. by intros m hs m' r [= <- <-]. Qed.
Next Obligation. by intros m i m' r [= <- <-]. Qed.

(** ** Crash recovery *)

Section recovery.
Context {S : Type} `{LogStorageSpec S}.
Implicit Types (l : RaftLog S).

(** Storage holds exactly the log in memory. *)
Definition mirrors l : Prop :=
  storage_ok (lg_storage l) ∧
  snapshot_metadata (lg_storage l) = (lg_snapshot_index l, lg_snapshot_term l) ∧
  load_entries_after (lg_snapshot_index l) (lg_storage l) = Ok (lg_entries l).

Lemma mirrors_restore l : mirrors l → log_restore (log_new (lg_storage l)) = (l, Ok tt).
Proof.
  intros (_ & Hm & Hl). unfold log_restore, log_new. simpl. rewrite Hm. simpl.
  rewrite Hl. by destruct l.
Qed.

Lemma mirrors_truncate_from l i l' r :
  mirrors l → log_wf l → truncate_from i l = (l', r) → mirrors l'.
Proof.
  intros (Hok & Hm & Hl) Hwf. unfold truncate_from. case N.leb_spec; [by intros _ [= <- <-]|].
  intros Hlt. destruct (storage_truncate i (lg_storage l)) as [s r0] eqn:Htr.
  rewrite <-(f_equal fst Hm : _ = lg_snapshot_index l) in Hl.
  destruct (truncate_spec _ _ _ _ _ Hok Hl Htr) as (Hok' & Hm' & Hl').
  rewrite Hm in *. simpl in *.
  destruct r0 as [u|]; intros [= <- <-]; (split_and!; [done..|]); [|done].
  simpl in *. by rewrite Hl', (contiguous_filter_lt _ _ _ Hwf).
Qed.

Lemma mirrors_storage_append l new s r :
  mirrors l → contiguous (lg_snapshot_index l) (lg_entries l ++ new) →
  storage_append new (lg_storage l) = (s, r) →
  mirrors (l {{ lg_storage := s; lg_entries := if is_ok r then lg_entries l ++ new else lg_entries l }}).
Proof.
  intros (Hok & Hm & Hl) Hc Happ.
  rewrite <-(f_equal fst Hm : _ = lg_snapshot_index l) in Hl, Hc.
  destruct (append_spec _ _ _ _ _ Hok Hl Hc Happ) as (Hok' & Hm' & Hl').
  rewrite Hm in *. simpl in *. by split_and!.
Qed.

(** Storage keeps holding exactly the log in memory through every
    [append_entries] of a well-formed request, whether it succeeds or a
    storage write fails in the middle. *)
Lemma mirrors_append_entries_any l prev ents l' r :
  mirrors l → log_wf l → contiguous prev ents → prev ≤ last_index l →
  log_append_entries prev ents l = (l', r) → mirrors l'.
Proof.
  intros Hmi Hwf Hc Hprev. unfold log_append_entries.
  destruct (position (log_lacks l) ents) as [k|] eqn:Hpos; [|by intros [= <- <-]].
  apply position_Some in Hpos as [(e & Hk & Hlack) Hold].
  pose proof (proj1 (log_lacks_true l e Hwf) Hlack) as [Hsnap _].
  pose proof (first_new_adjacent l prev ents k e Hwf Hc Hprev Hk Hsnap Hold) as Hadj.
  pose proof (kept_then_new_contiguous l prev ents k e Hwf Hc Hk (conj Hsnap Hadj)) as Hcont.
  rewrite head_lookup, lookup_drop, Nat.add_0_r, Hk.
  destruct (entry_at l (e_index e)) as [x|] eqn:Hx.
  - destruct (truncate_from (e_index e) l) as [l1 r1] eqn:Htr.
    pose proof (mirrors_truncate_from _ _ _ _ Hmi Hwf Htr) as Hmi1.
    destruct r1 as [[]|]; [|by intros [= <- <-]].
    destruct (truncate_from_ok l _ _ Hwf Htr Hsnap) as (He1 & Hs1 & _).
    rewrite <-He1, <-Hs1 in Hcont.
    destruct (storage_append _ _) as [s r0] eqn:Hst.
    pose proof (mirrors_storage_append _ _ _ _ Hmi1 Hcont Hst) as Hm2.
    by destruct r0 as [u|]; intros [= <- <-].
  - apply (entry_at_None_wf l _ Hwf) in Hx. rewrite (last_index_wf l Hwf) in Hx.
    rewrite take_ge in Hcont by lia.
    destruct (storage_append _ _) as [s r0] eqn:Hst.
    pose proof (mirrors_storage_append _ _ _ _ Hmi Hcont Hst) as Hm2.
    by destruct r0 as [u|]; intros [= <- <-].
Qed.

Lemma mirrors_append l e l' r :
  mirrors l → log_wf l → e_index e = last_index l + 1 →
  log_append e l = (l', r) → mirrors l'.
Proof.
  intros Hmi Hwf He. unfold log_append.
  destruct (storage_append _ _) as [s r0] eqn:Hst.
  assert (contiguous (lg_snapshot_index l) (lg_entries l ++ [e])) as Hc.
  { rewrite contiguous_app, contiguous_singleton, <-(last_index_wf l Hwf). done. }
  pose proof (mirrors_storage_append _ _ _ _ Hmi Hc Hst) as Hm2.
  by destruct r0 as [u|]; intros [= <- <-].
Qed.

Lemma mirrors_apply_snapshot l i t l' r :
  mirrors l → log_wf l → apply_snapshot i t l = (l', r) → mirrors l'.
Proof.
  intros (Hok & Hm & Hl) Hwf. unfold apply_snapshot. case N.leb_spec; [by intros _ [= <- <-]|].
  intros Hlt. destruct (storage_compact i t (lg_storage l)) as [s r0] eqn:Hst.
  rewrite <-(f_equal fst Hm : _ = lg_snapshot_index l) in Hl.
  assert ((snapshot_metadata (lg_storage l)).1 ≤ i) as Hle by (rewrite Hm; simpl; lia).
  destruct (compact_spec _ _ _ _ _ _ Hok Hl Hle Hst) as (Hok' & Hr).
  rewrite Hm in *. simpl in *.
  destruct r0 as [u|]; intros [= <- <-]; destruct Hr as [Hm' Hl'];
    (split_and!; [done..|]); [|done].
  simpl in *. rewrite Hl'. f_equal. apply filter_ext. intros e.
  apply eq_bool_prop_intro. rewrite !Is_true_true, N.leb_le, N.ltb_lt. lia.
Qed.
End recovery.
