(* ===== verification/RaftNode.v ===== *)
(** * The Raft node

    [nodedb-raft/src/node]: the group state machine [RaftNode] ([core.rs]),
    its configuration, the leader lease, check-quorum, the peer-contact
    views, replication and commit ([internal.rs]) and the election entry
    points ([election.rs]).

    An operation reads the clock and the random source through [Env]: the
    instant [Instant::now()] gives and the random number the election timeout
    draws while the operation runs. Logging is left out, and so is the
    [failpoints] gate, which release builds compile out. *)

From stdpp Require Import base list option gmap sorting.
From S2P Require Import Prelude RaftState RaftLog.

Open Scope N_scope.

Record Env : Type := MkEnv {
  env_now : Instant;
  env_rnd : N;
}.

(** ** Configuration ([config.rs]) *)

Record RaftConfig : Type := MkRaftConfig {
  node_id : u64;
  group_id : u64;
  peers : list u64;
  learners : list u64;
  observers : list u64;
  starts_as_learner : bool;
  starts_as_observer : bool;
  election_timeout_min : Duration;
  election_timeout_max : Duration;
  heartbeat_interval : Duration;
  log_compaction_threshold : option u64;
}.

#[export] Instance eta_RaftConfig : Eta RaftConfig := λ r,
  MkRaftConfig (node_id r) (group_id r) (peers r) (learners r) (observers r)
    (starts_as_learner r) (starts_as_observer r) (election_timeout_min r)
    (election_timeout_max r) (heartbeat_interval r) (log_compaction_threshold r).

Definition cluster_size (c : RaftConfig) : usize := N.of_nat (length (peers c)) + 1.

Definition quorum (c : RaftConfig) : usize := cluster_size c / 2 + 1.

(** [election_timeout_min.mul_f64(0.1)], which rounds to the nearest
    nanosecond. *)
Definition lease_drift_margin (c : RaftConfig) : Duration := (election_timeout_min c + 5) / 10.

Definition lease_duration (c : RaftConfig) : Duration :=
  election_timeout_min c - lease_drift_margin c.

(** ** The leader lease ([leader_lease.rs]) *)

Definition UNTRACKED_ROUND : u64 := 0.
Definition MAX_PENDING_ROUNDS : usize := 4096.

Record LeaseState : Type := MkLeaseState {
  next_round : u64;
  term_first_round : u64;
  sent : list (u64 * Instant);
  anchor : option Instant;
  revoked : bool;
}.

#[export] Instance eta_LeaseState : Eta LeaseState := λ r,
  MkLeaseState (next_round r) (term_first_round r) (sent r) (anchor r) (revoked r).

Definition lease_new : LeaseState :=
  MkLeaseState (UNTRACKED_ROUND + 1) (UNTRACKED_ROUND + 1) [] None false.

Definition begin_term (le : LeaseState) : LeaseState :=
  le {{ term_first_round := next_round le; sent := []; anchor := None; revoked := false }}.

Definition stamp (now : Instant) (le : LeaseState) : LeaseState * u64 :=
  let round := next_round le in
  let le := le {{ next_round := sat_add64 (next_round le) 1 }} in
  let le :=
    if MAX_PENDING_ROUNDS <=? N.of_nat (length (sent le)) then le {{ sent ::= tail }} else le in
  (le {{ sent ::= λ l, l ++ [(round, now)] }}, round).

Definition is_current (le : LeaseState) (round : u64) : bool :=
  (term_first_round le <=? round) && (round <? next_round le).

(** [binary_search_by_key] on the rounds, which are in ascending order
    ([lease_rounds_sorted]), finds the position of [round]. *)
Definition settle (round : u64) (le : LeaseState) : LeaseState * option Instant :=
  let le :=
    match position (λ p : u64 * Instant, p.1 =? round) (sent le) with
    | Some pos =>
        let le :=
          match sent le !! pos with
          | Some (_, sent_at) =>
              match anchor le with
              | Some a => if a <? sent_at then le {{ anchor := Some sent_at }} else le
              | None => le {{ anchor := Some sent_at }}
              end
          | None => le
          end in
        le {{ sent ::= drop (S pos) }}
    | None => le
    end in
  (le, anchor le).

Definition lease_revoke (le : LeaseState) : LeaseState := le {{ revoked := true }}.

Definition clear_anchor (le : LeaseState) : LeaseState := le {{ anchor := None }}.

Definition expires_at (le : LeaseState) (duration : Duration) : option Instant :=
  if revoked le then None else (λ a, a + duration) <$> anchor le.

(** ** The node ([core.rs], [quorum_contact.rs]) *)

Record VoterAck : Type := MkVoterAck {
  va_peer : u64;
  va_round : u64;
  va_arrived : Instant;
}.

Record LeaderContact : Type := MkLeaderContact {
  lc_leader_commit : u64;
  lc_at : Instant;
}.

Record Ready : Type := MkReady {
  rd_hard_state : option HardState;
  rd_messages : list (u64 * AppendEntriesRequest);
  rd_vote_requests : list (u64 * RequestVoteRequest);
  rd_pre_vote_requests : list (u64 * PreVoteRequest);
  rd_timeout_now : list (u64 * TimeoutNowRequest);
  rd_committed_entries : list LogEntry;
  rd_snapshots_needed : list u64;
  rd_committed_read_error : option RaftError;
}.

#[export] Instance eta_Ready : Eta Ready := λ r,
  MkReady (rd_hard_state r) (rd_messages r) (rd_vote_requests r) (rd_pre_vote_requests r)
    (rd_timeout_now r) (rd_committed_entries r) (rd_snapshots_needed r)
    (rd_committed_read_error r).

Definition ready_default : Ready := MkReady None [] [] [] [] [] [] None.

Definition ready_is_empty (r : Ready) : bool :=
  match r with
  | MkReady None [] [] [] [] [] [] None => true
  | _ => false
  end.

(** [rn_compaction_ceiling] is the value of the shared atomic when the
    operation loads it. *)
Record RaftNode (S : Type) : Type := MkRaftNode {
  rn_config : RaftConfig;
  rn_role : NodeRole;
  rn_hard_state : HardState;
  rn_volatile : VolatileState;
  rn_leader_state : option LeaderState;
  rn_log : RaftLog S;
  rn_election_deadline : Instant;
  rn_heartbeat_deadline : Instant;
  rn_votes_received : gset u64;
  rn_ready : Ready;
  rn_leader_id : u64;
  rn_leadership_transfer : option LeadershipTransfer;
  rn_pre_vote : option PreVoteRound;
  rn_durable_applied : u64;
  rn_leader_contact : option LeaderContact;
  rn_last_quorum_contact : option Instant;
  rn_quorum_window : list VoterAck;
  rn_leader_since : option Instant;
  rn_term_start_index : option u64;
  rn_lease : LeaseState;
  rn_boot_vote_fence : Instant;
  rn_compaction_ceiling : option u64;
  rn_replica : ReplicaState;
  rn_replicated_floor : u64;
}.
Arguments MkRaftNode {S}.
Arguments rn_config {S}.
Arguments rn_role {S}.
Arguments rn_hard_state {S}.
Arguments rn_volatile {S}.
Arguments rn_leader_state {S}.
Arguments rn_log {S}.
Arguments rn_election_deadline {S}.
Arguments rn_heartbeat_deadline {S}.
Arguments rn_votes_received {S}.
Arguments rn_ready {S}.
Arguments rn_leader_id {S}.
Arguments rn_leadership_transfer {S}.
Arguments rn_pre_vote {S}.
Arguments rn_durable_applied {S}.
Arguments rn_leader_contact {S}.
Arguments rn_last_quorum_contact {S}.
Arguments rn_quorum_window {S}.
Arguments rn_leader_since {S}.
Arguments rn_term_start_index {S}.
Arguments rn_lease {S}.
Arguments rn_boot_vote_fence {S}.
Arguments rn_compaction_ceiling {S}.
Arguments rn_replica {S}.
Arguments rn_replicated_floor {S}.

#[export] Instance eta_RaftNode S : Eta (RaftNode S) := λ r,
  MkRaftNode (rn_config r) (rn_role r) (rn_hard_state r) (rn_volatile r) (rn_leader_state r)
    (rn_log r) (rn_election_deadline r) (rn_heartbeat_deadline r) (rn_votes_received r)
    (rn_ready r) (rn_leader_id r) (rn_leadership_transfer r) (rn_pre_vote r)
    (rn_durable_applied r) (rn_leader_contact r) (rn_last_quorum_contact r)
    (rn_quorum_window r) (rn_leader_since r) (rn_term_start_index r) (rn_lease r)
    (rn_boot_vote_fence r) (rn_compaction_ceiling r) (rn_replica r) (rn_replicated_floor r).

Section node.
Context {S : Type} `{LogStorage S}.
Implicit Types (n : RaftNode S) (ev : Env).

(** Shorthands for the fields the code reads most. *)
Definition term_of n : u64 := current_term (rn_hard_state n).
Definition commit_of n : u64 := commit_index (rn_volatile n).
Definition applied_of n : u64 := last_applied (rn_volatile n).

(** [RaftNode::new]. *)
Definition node_new ev (config : RaftConfig) (storage : S) : RaftNode S := {|
  rn_log := log_new storage;
  rn_role :=
    if starts_as_observer config then Observer
    else if starts_as_learner config then Learner
    else Follower;
  rn_hard_state := hard_state_new;
  rn_volatile := volatile_new;
  rn_leader_state := None;
  rn_election_deadline := env_now ev + election_timeout_max config;
  rn_heartbeat_deadline := env_now ev;
  rn_votes_received := ∅;
  rn_ready := ready_default;
  rn_leader_id := 0;
  rn_leadership_transfer := None;
  rn_pre_vote := None;
  rn_durable_applied := 0;
  rn_leader_contact := None;
  rn_last_quorum_contact := None;
  rn_quorum_window := [];
  rn_leader_since := None;
  rn_term_start_index := None;
  rn_lease := lease_new;
  rn_boot_vote_fence := env_now ev + election_timeout_max config;
  rn_compaction_ceiling := None;
  rn_replica := Whole;
  rn_replicated_floor := 0;
  rn_config := config;
|}.

(** [reset_election_timeout]: a draw from [min..=max] milliseconds.
    [random_range] refuses an empty range; a configuration has
    [min <= max]. *)
Definition reset_election_timeout ev n : RaftNode S :=
  let min := election_timeout_min (rn_config n) / 1000000 in
  let max := election_timeout_max (rn_config n) / 1000000 in
  let timeout := (min + env_rnd ev mod (max - min + 1)) * 1000000 in
  n {{ rn_election_deadline := env_now ev + timeout }}.

Definition persist_hard_state n : RaftNode S :=
  n {{ rn_ready -> rd_hard_state := Some (rn_hard_state n) }}.

(** [RaftNode::restore]. *)
Definition node_restore ev n : RaftNode S * Result unit :=
  match load_hard_state (lg_storage (rn_log n)) with
  | Err err => (n, Err err)
  | Ok hs =>
      let n := n {{ rn_hard_state := hs }} in
      match load_applied_index (lg_storage (rn_log n)) with
      | Err err => (n, Err err)
      | Ok applied =>
          let n := n {{ rn_durable_applied := applied;
                        rn_volatile := volatile_restored applied }} in
          let '(l, r) := log_restore (rn_log n) in
          let n := n {{ rn_log := l }} in
          match r with
          | Ok _ => (reset_election_timeout ev n, Ok tt)
          | Err err => (n, Err err)
          end
      end
  end.

Definition take_ready n : RaftNode S * Ready :=
  (n {{ rn_ready := ready_default }}, rn_ready n).

Definition persist_hard_state_if_dirty n : RaftNode S * Result unit :=
  match rd_hard_state (rn_ready n) with
  | Some _ =>
      let '(s, r) := save_hard_state (rn_hard_state n) (lg_storage (rn_log n)) in
      let n := n {{ rn_log -> lg_storage := s }} in
      match r with
      | Ok _ => (n {{ rn_ready -> rd_hard_state := None }}, Ok tt)
      | Err err => (n, Err err)
      end
  | None => (n, Ok tt)
  end.

(** [RaftNode::match_index_for]. *)
Definition match_index_for n (peer : u64) : option u64 :=
  (λ ls, ls_match_index_for ls peer) <$> rn_leader_state n.

Definition node_term_start_index n : option u64 :=
  match rn_role n with Leader => rn_term_start_index n | _ => None end.

Definition log_entries_range n (lo hi : u64) : Result (list LogEntry) :=
  entries_range (rn_log n) lo (N.min hi (commit_of n)).

(** ** Applied watermarks ([durability.rs]) *)

Definition has_apply_gap n : bool := applied_of n <? lg_snapshot_index (rn_log n).

Definition first_available_index n : u64 := lg_snapshot_index (rn_log n) + 1.

Definition advance_applied (applied_to : u64) n : RaftNode S :=
  n {{ rn_volatile -> last_applied ::= λ a, N.max a applied_to }}.

Definition save_durable_applied_index (index : u64) n : RaftNode S * Result unit :=
  if index <=? rn_durable_applied n then (n, Ok tt)
  else
    let '(s, r) := save_applied_index index (lg_storage (rn_log n)) in
    let n := n {{ rn_log -> lg_storage := s }} in
    match r with
    | Ok _ => (n {{ rn_durable_applied := index }}, Ok tt)
    | Err err => (n, Err err)
    end.

(** ** Check-quorum ([quorum_contact.rs]) *)

Definition voter_ack n (peer : u64) : option VoterAck :=
  List.find (λ a, va_peer a =? peer) (rn_quorum_window n).

Definition arm_quorum_window (now : Instant) n : RaftNode S :=
  n {{ rn_last_quorum_contact := Some now;
       rn_leader_since := Some now;
       rn_quorum_window := [];
       rn_lease ::= begin_term }}.

Definition voter_heard_within_window n (peer : u64) (now : Instant) : bool :=
  let last_seen :=
    match voter_ack n peer with
    | Some ack => Some (va_arrived ack)
    | None => rn_leader_since n
    end in
  match last_seen with
  | Some seen => now - seen <? election_timeout_max (rn_config n)
  | None => false
  end.

Definition refresh_quorum_contact (now : Instant) n : RaftNode S :=
  match rn_role n with
  | Leader =>
      let peers_needed := quorum (rn_config n) - 1 in
      if peers_needed =? 0 then n {{ rn_last_quorum_contact := Some now }}
      else
        let arrivals :=
          sort_desc (omap (λ peer, va_arrived <$> voter_ack n peer) (peers (rn_config n))) in
        match arrivals !! N.to_nat (peers_needed - 1) with
        | None => n
        | Some contact =>
            match rn_last_quorum_contact n with
            | Some last =>
                if last <? contact then n {{ rn_last_quorum_contact := Some contact }} else n
            | None => n {{ rn_last_quorum_contact := Some contact }}
            end
        end
  | _ => n
  end.

Definition quorum_contact_lost n (now : Instant) : bool :=
  match rn_role n with
  | Leader =>
      match rn_last_quorum_contact n with
      | Some last => election_timeout_max (rn_config n) <=? now - last
      | None => false
      end
  | _ => false
  end.

(** ** Peer contact ([peer_contact.rs]) *)

Definition peer_ack_count n (peer : u64) : option u64 :=
  (λ ls, ack_count_for ls peer) <$> rn_leader_state n.

(** [Iterator::min]. *)
Definition list_min (l : list N) : option N :=
  match l with [] => None | x :: l => Some (foldl N.min x l) end.

Definition replicated_floor_at n (now : Instant) : u64 :=
  match rn_leader_state n with
  | None => rn_replicated_floor n
  | Some leader =>
      let lowest_live_voter :=
        default u64_max (list_min (ls_match_index_for leader <$>
          List.filter (λ peer, voter_heard_within_window n peer now) (peers (rn_config n)))) in
      N.max (rn_replicated_floor n) (N.min lowest_live_voter (commit_of n))
  end.

Definition replicated_floor ev n : u64 := replicated_floor_at n (env_now ev).

Definition peer_replica_state n (peer : u64) : option ReplicaState :=
  rn_leader_state n ≫= λ leader, ls_peer_states leader !! peer.

Definition peer_answered_whole n (peer : u64) : bool :=
  bool_decide (peer_replica_state n peer = Some Whole).

Definition live_leader n (now : Instant) : u64 :=
  match rn_role n with
  | Leader => node_id (rn_config n)
  | _ =>
      if rn_leader_id n =? 0 then 0
      else
        let fresh :=
          match rn_leader_contact n with
          | Some contact => now - lc_at contact <? election_timeout_min (rn_config n)
          | None => false
          end in
        if fresh then rn_leader_id n else 0
  end.

(** ** Lease operations of the node ([leader_lease.rs]) *)

Definition stamp_lease_round ev n : RaftNode S * u64 :=
  let '(le, round) := stamp (env_now ev) (rn_lease n) in
  (n {{ rn_lease := le }}, round).

(** The first acknowledgement of [peer] takes the newer round and arrival;
    an unknown peer is pushed. *)
Fixpoint ack_voter (peer round : u64) (now : Instant) (w : list VoterAck) : list VoterAck :=
  match w with
  | [] => [MkVoterAck peer round now]
  | a :: w =>
      if va_peer a =? peer
      then MkVoterAck (va_peer a) (N.max (va_round a) round) (N.max (va_arrived a) now) :: w
      else a :: ack_voter peer round now w
  end.

Definition record_lease_ack (peer round : u64) (now : Instant) n : RaftNode S :=
  if is_current (rn_lease n) round
  then n {{ rn_quorum_window ::= ack_voter peer round now }}
  else n.

Definition acked_round n (peer : u64) : u64 :=
  match voter_ack n peer with Some ack => va_round ack | None => UNTRACKED_ROUND end.

Definition settle_lease n : RaftNode S * option Instant :=
  let peers_needed := quorum (rn_config n) - 1 in
  if peers_needed =? 0 then (n, None)
  else
    let acked := sort_desc (acked_round n <$> peers (rn_config n)) in
    match acked !! N.to_nat (peers_needed - 1) with
    | None => (n, None)
    | Some quorum_round =>
        if quorum_round =? UNTRACKED_ROUND then (n, anchor (rn_lease n))
        else
          let '(le, a) := settle quorum_round (rn_lease n) in
          (n {{ rn_lease := le }}, a)
    end.

Definition current_term_committed n : bool :=
  bool_decide (term_at (rn_log n) (commit_of n) = Some (term_of n)).

Definition lease_valid n (now : Instant) : bool :=
  if negb (bool_decide (rn_role n = Leader))
     || bool_decide (is_Some (rn_leadership_transfer n))
     || negb (current_term_committed n)
  then false
  else
    match peers (rn_config n) with
    | [] => negb (revoked (rn_lease n))
    | _ =>
        match expires_at (rn_lease n) (lease_duration (rn_config n)) with
        | Some stop => now <? stop
        | None => false
        end
    end.

Definition lease_read_index n (now : Instant) : option u64 :=
  if lease_valid n now then Some (commit_of n) else None.

Definition vote_refusal_active n (now : Instant) : bool :=
  if now <? rn_boot_vote_fence n then true
  else
    match rn_leader_contact n with
    | Some contact => now - lc_at contact <? election_timeout_min (rn_config n)
    | None => false
    end.

(** ** State transitions and replication ([internal.rs]) *)

Definition become_follower ev (term : u64) n : RaftNode S :=
  let n :=
    match rn_role n with
    | Learner | Observer => n
    | Follower | Candidate | Leader => n {{ rn_role := Follower }}
    end in
  let n :=
    if term_of n <? term then n {{ rn_hard_state -> voted_for := 0 }} else n in
  let n := n {{ rn_hard_state -> current_term := term;
                rn_leader_id := 0;
                rn_leader_state := None;
                rn_votes_received := ∅;
                rn_leadership_transfer := None;
                rn_pre_vote := None;
                rn_last_quorum_contact := None;
                rn_quorum_window := [];
                rn_leader_since := None;
                rn_term_start_index := None }} in
  reset_election_timeout ev (persist_hard_state n).

Definition queue_committed_entries n : RaftNode S * Result unit :=
  let queued_through :=
    match last (rd_committed_entries (rn_ready n)) with
    | Some entry => e_index entry
    | None => 0
    end in
  let from := N.max (applied_of n) queued_through + 1 in
  let to := commit_of n in
  if to <? from then (n, Ok tt)
  else
    match entries_range (rn_log n) from to with
    | Err err => (n, Err err)
    | Ok entries => (n {{ rn_ready -> rd_committed_entries ::= λ q, q ++ entries }}, Ok tt)
    end.

Definition collect_committed_entries n : RaftNode S :=
  match queue_committed_entries n with
  | (n, Ok _) => n
  | (n, Err e) => n {{ rn_ready -> rd_committed_read_error := Some e }}
  end.

(** Whether a quorum of voters holds index [i] of the current term: the test
    of the loop body of [try_advance_commit_index]. *)
Definition commit_quorum_at n (leader : LeaderState) (i : u64) : bool :=
  match term_at (rn_log n) i with
  | None => false
  | Some t =>
      if negb (t =? term_of n) then false
      else
        let self := if i <=? stable_index (rn_log n) then 1 else 0 in
        let acks := count (λ peer, i <=? ls_match_index_for leader peer) (peers (rn_config n)) in
        quorum (rn_config n) <=? self + N.of_nat acks
  end.

(** The loop runs down from the last index and stops at the first index that
    commits. *)
Definition try_advance_commit_index n : RaftNode S :=
  match rn_leader_state n with
  | None => n
  | Some leader =>
      match List.find (commit_quorum_at n leader)
              (rev (range_incl (commit_of n + 1) (last_index (rn_log n)))) with
      | Some i => collect_committed_entries (n {{ rn_volatile -> commit_index := i }})
      | None => n
      end
  end.

(** The entries a peer at [next_index] gets; [None] when they are compacted
    away. *)
Definition entries_to_send n (next_index : u64) : option (list LogEntry) :=
  if next_index <=? last_index (rn_log n) then
    match entries_within (rn_log n) next_index (last_index (rn_log n)) MAX_APPEND_BATCH_BYTES with
    | Ok slice => Some slice
    | Err (LogCompacted _ _) => None
    | Err _ => Some []
    end
  else Some [].

Definition push_snapshot_needed (peer : u64) n : RaftNode S :=
  n {{ rn_ready -> rd_snapshots_needed ::= λ l, l ++ [peer] }}.

Definition append_request ev n (prev_log_index prev_log_term : u64) (entries : list LogEntry)
    (round : u64) : AppendEntriesRequest := {|
  ae_term := term_of n;
  ae_leader_id := node_id (rn_config n);
  ae_prev_log_index := prev_log_index;
  ae_prev_log_term := prev_log_term;
  ae_entries := entries;
  ae_leader_commit := commit_of n;
  ae_group_id := group_id (rn_config n);
  ae_round := round;
  ae_replicated_floor := replicated_floor ev n;
|}.

Definition send_append_entries ev (peer : u64) n : RaftNode S :=
  match rn_leader_state n with
  | None => n
  | Some leader =>
      let next_index := next_index_for leader peer in
      let prev_log_index := next_index - 1 in
      match term_at (rn_log n) prev_log_index with
      | None => push_snapshot_needed peer n
      | Some prev_log_term =>
          match entries_to_send n next_index with
          | None => push_snapshot_needed peer n
          | Some entries =>
              let '(n, round) := stamp_lease_round ev n in
              n {{ rn_ready -> rd_messages ::= λ l,
                     l ++ [(peer, append_request ev n prev_log_index prev_log_term entries round)] }}
          end
      end
  end.

Definition send_append_entries_to_observer ev (observer : u64) n : RaftNode S :=
  match rn_leader_state n with
  | None => n
  | Some leader =>
      if negb (observer_can_receive leader observer) then n
      else
        match assoc observer (ls_observer_states leader) with
        | None => n
        | Some obs_state =>
            let next_index := os_next_index obs_state in
            let prev_log_index := next_index - 1 in
            match term_at (rn_log n) prev_log_index with
            | None => push_snapshot_needed observer n
            | Some prev_log_term =>
                match entries_to_send n next_index with
                | None => push_snapshot_needed observer n
                | Some entries =>
                    let entry_count := N.of_nat (length entries) mod 2 ^ 32 in
                    let n := n {{ rn_ready -> rd_messages ::= λ l,
                      l ++ [(observer, append_request ev n prev_log_index prev_log_term entries
                                         UNTRACKED_ROUND)] }} in
                    n {{ rn_leader_state ::= fmap (update_observer observer (λ st,
                      st {{ os_pending_count ::= λ c, sat_add32 c (N.max entry_count 1) }})) }}
                end
            end
        end
  end.

Definition replicate_to_all ev n : RaftNode S :=
  let n := foldl (λ n peer, send_append_entries ev peer n) n
             (peers (rn_config n) ++ learners (rn_config n)) in
  foldl (λ n observer, send_append_entries_to_observer ev observer n) n
    (observers (rn_config n)).

(** The no-op's append result is dropped ([let _ = ...]). *)
Definition become_leader ev n : RaftNode S :=
  let n := n {{ rn_role := Leader; rn_leader_id := node_id (rn_config n) }} in
  let ls := leader_state_new (peers (rn_config n)) (observers (rn_config n))
              (last_index (rn_log n)) in
  let ls := foldl (λ ls learner, ls_add_peer learner (last_index (rn_log n)) ls) ls
              (learners (rn_config n)) in
  let n := n {{ rn_leader_state := Some ls }} in
  let n := arm_quorum_window (env_now ev) n in
  let noop := MkLogEntry (term_of n) (last_index (rn_log n) + 1) [] in
  let n := n {{ rn_log := (log_append noop (rn_log n)).1 }} in
  let n := n {{ rn_term_start_index := Some (e_index noop) }} in
  let n :=
    if cluster_size (rn_config n) =? 1 then try_advance_commit_index n else n in
  replicate_to_all ev n.

(** ** Elections ([election.rs]) *)

Definition start_election ev n : RaftNode S :=
  match rn_role n with
  | Learner | Observer => n
  | Follower | Candidate | Leader =>
      if negb (may_lead (rn_replica n)) then n
      else
        let n := n {{ rn_pre_vote := None;
                      rn_hard_state -> current_term ::= λ t, t + 1;
                      rn_role := Candidate;
                      rn_hard_state -> voted_for := node_id (rn_config n);
                      rn_votes_received := ∅;
                      rn_leader_id := 0 }} in
        let n := reset_election_timeout ev (persist_hard_state n) in
        match peers (rn_config n) with
        | [] => become_leader ev n
        | ps =>
            let request := {|
              rv_term := term_of n;
              rv_candidate_id := node_id (rn_config n);
              rv_last_log_index := last_index (rn_log n);
              rv_last_log_term := last_term (rn_log n);
              rv_group_id := group_id (rn_config n);
              rv_transfer := false;
            |} in
            n {{ rn_ready -> rd_vote_requests ::= λ l, l ++ ((λ p, (p, request)) <$> ps) }}
        end
  end.

Definition start_pre_election ev n : RaftNode S :=
  match rn_role n with
  | Learner | Observer => n
  | Follower | Candidate | Leader =>
      if negb (may_lead (rn_replica n)) then n
      else
        match peers (rn_config n) with
        | [] => start_election ev n
        | ps =>
            let n := reset_election_timeout ev n in
            let term := term_of n + 1 in
            let n := n {{ rn_pre_vote := Some (MkPreVoteRound term ∅) }} in
            let request := {|
              pv_term := term;
              pv_candidate_id := node_id (rn_config n);
              pv_last_log_index := last_index (rn_log n);
              pv_last_log_term := last_term (rn_log n);
              pv_group_id := group_id (rn_config n);
            |} in
            n {{ rn_ready -> rd_pre_vote_requests ::= λ l, l ++ ((λ p, (p, request)) <$> ps) }}
        end
  end.

(** ** Driving the node ([core.rs]) *)

Definition on_storage_progress n : RaftNode S :=
  match rn_leader_state n with
  | Some _ => try_advance_commit_index n
  | None => n
  end.

Definition tick ev n : RaftNode S :=
  let now := env_now ev in
  match rn_role n with
  | Follower | Candidate =>
      if rn_election_deadline n <=? now then start_pre_election ev n else n
  | Leader =>
      let n :=
        match rn_leadership_transfer n with
        | Some t => if lt_deadline t <=? now then n {{ rn_leadership_transfer := None }} else n
        | None => n
        end in
      let n := refresh_quorum_contact now n in
      if quorum_contact_lost n now then become_follower ev (term_of n) n
      else if rn_heartbeat_deadline n <=? now then
        let n := replicate_to_all ev n in
        n {{ rn_heartbeat_deadline := now + heartbeat_interval (rn_config n) }}
      else n
  | Learner | Observer => n
  end.

Definition leader_hint n : option u64 :=
  if negb (rn_leader_id n =? 0) then Some (rn_leader_id n) else None.

Definition propose ev (data : bytes) n : RaftNode S * Result u64 :=
  match rn_role n with
  | Leader =>
      match rn_leadership_transfer n with
      | Some _ => (n, Err LeadershipTransferInProgress)
      | None =>
          let index := last_index (rn_log n) + 1 in
          let '(l, r) := log_append (MkLogEntry (term_of n) index data) (rn_log n) in
          let n := n {{ rn_log := l }} in
          match r with
          | Err err => (n, Err err)
          | Ok _ =>
              let n := replicate_to_all ev n in
              let n :=
                if cluster_size (rn_config n) =? 1 then try_advance_commit_index n else n in
              (n, Ok index)
          end
      end
  | _ => (n, Err (NotLeader (leader_hint n) (term_of n)))
  end.
End node.
