(* ===== verification/RaftOps.v ===== *)
(** * Operations the driver calls on a Raft node

    [nodedb-raft/src/node]: membership changes and leadership transfer
    ([membership.rs]), the delivery queue and log compaction
    ([durability.rs]), replicas that need a snapshot ([snapshot_debt.rs]),
    linearizable reads ([read_index.rs]) and bounded-staleness reads
    ([staleness.rs]). *)

From stdpp Require Import base list option gmap.
From S2P Require Import Prelude RaftState RaftLog RaftNode.

Open Scope N_scope.

(** ** Reads ([read_index.rs], [staleness.rs]) *)

Inductive ReadIndexStatus : Type :=
  | Confirmed
  | Pending
  | LeadershipLost.

#[export] Instance read_index_status_eq_dec : EqDecision ReadIndexStatus.
Proof. solve_decision. Defined.

Record ReadIndexProbe : Type := MkReadIndexProbe {
  pr_read_index : u64;
  pr_term : u64;
  pr_acks : list (u64 * u64);
}.

Inductive StalenessVerdict : Type :=
  | Fresh
  | NoRecentContact
  | Behind (leader_commit applied : u64).

#[export] Instance staleness_verdict_eq_dec : EqDecision StalenessVerdict.
Proof. solve_decision. Defined.

Section ops.
Context {S : Type} `{LogStorage S}.
Implicit Types (n : RaftNode S) (ev : Env).

Definition term_read_floor n : u64 :=
  let commit := commit_of n in
  if current_term_committed n then commit
  else
    let last := last_index (rn_log n) in
    default (last + 1)
      (List.find (λ i, bool_decide (term_at (rn_log n) i = Some (term_of n)))
         (range_incl (commit + 1) last)).

Definition start_read_index ev n : RaftNode S * option ReadIndexProbe :=
  match rn_role n with
  | Leader =>
      match rn_leader_state n with
      | None => (n, None)
      | Some leader =>
          let probe := {|
            pr_read_index := term_read_floor n;
            pr_term := term_of n;
            pr_acks := (λ id, (id, ack_count_for leader id)) <$> peers (rn_config n);
          |} in
          (replicate_to_all ev n, Some probe)
      end
  | _ => (n, None)
  end.

Definition read_index_status n (probe : ReadIndexProbe) : ReadIndexStatus :=
  if negb (bool_decide (rn_role n = Leader)) || negb (term_of n =? pr_term probe)
  then LeadershipLost
  else
    match rn_leader_state n with
    | None => LeadershipLost
    | Some leader =>
        if commit_of n <? pr_read_index probe then Pending
        else
          let acks := count (λ a : u64 * u64, a.2 <? ack_count_for leader a.1) (pr_acks probe) in
          if quorum (rn_config n) <=? 1 + N.of_nat acks then Confirmed else Pending
    end.

Definition read_index_confirmed n (probe : ReadIndexProbe) : bool :=
  bool_decide (read_index_status n probe = Confirmed).

Definition staleness_verdict ev n (max_staleness : Duration) (applied : u64) : StalenessVerdict :=
  match rn_role n with
  | Leader => Fresh
  | _ =>
      match rn_leader_contact n with
      | None => NoRecentContact
      | Some contact =>
          if max_staleness <? env_now ev - lc_at contact then NoRecentContact
          else if applied <? lc_leader_commit contact then
            Behind (lc_leader_commit contact) applied
          else Fresh
      end
  end.

Definition within_staleness_bound ev n (max_staleness : Duration) (applied : u64) : bool :=
  bool_decide (staleness_verdict ev n max_staleness applied = Fresh).

Definition leader_contact_within ev n (window : Duration) : bool :=
  match rn_role n with
  | Leader => true
  | _ =>
      match rn_leader_contact n with
      | Some contact => env_now ev - lc_at contact <=? window
      | None => false
      end
  end.

(** ** Delivery and compaction ([durability.rs]) *)

Definition requeue_committed (batch : list LogEntry) n : RaftNode S :=
  let applied := applied_of n in
  let merged := List.filter (λ e, applied <? e_index e) batch in
  let through := match last merged with Some e => e_index e | None => applied end in
  n {{ rn_ready -> rd_committed_entries ::= λ q,
         merged ++ List.filter (λ e, through <? e_index e) q }}.

Definition compact_log_up_to (up_to_index : u64) n : RaftNode S * Result bool :=
  let up_to_index :=
    match rn_compaction_ceiling n with
    | Some ceiling => N.min up_to_index ceiling
    | None => up_to_index
    end in
  if up_to_index <=? lg_snapshot_index (rn_log n) then (n, Ok false)
  else
    let ceiling := N.min (rn_durable_applied n) (applied_of n) in
    if ceiling <? up_to_index then (n, Err (CompactionAheadOfApplied up_to_index ceiling))
    else
      match term_at (rn_log n) up_to_index with
      | None => (n, Err (LogCompacted up_to_index (lg_snapshot_index (rn_log n) + 1)))
      | Some term =>
          let '(l, r) := apply_snapshot up_to_index term (rn_log n) in
          let n := n {{ rn_log := l }} in
          match r with
          | Ok _ => (n, Ok true)
          | Err err => (n, Err err)
          end
      end.

Definition set_compaction_ceiling (ceiling : u64) n : RaftNode S :=
  n {{ rn_compaction_ceiling := Some ceiling }}.

Definition maybe_compact_log (applied_index : u64) n : RaftNode S * Result bool :=
  match log_compaction_threshold (rn_config n) with
  | None => (n, Ok false)
  | Some threshold =>
      let snapshot_index := lg_snapshot_index (rn_log n) in
      if applied_index <=? snapshot_index then (n, Ok false)
      else if applied_index - snapshot_index <? threshold then (n, Ok false)
      else
        let up_to := N.min (N.min applied_index (rn_durable_applied n)) (applied_of n) in
        compact_log_up_to up_to n
  end.

(** ** Membership ([membership.rs]) *)

Definition set_voters (new_voters : list u64) n : RaftNode S :=
  let last := last_index (rn_log n) in
  let old := peers (rn_config n) in
  let is_learner peer := mem peer (learners (rn_config n)) in
  let n := n {{ rn_leader_state ::= fmap (λ leader,
    let leader := foldl (λ ls peer,
      if negb (mem peer old) && negb (is_learner peer) then ls_add_peer peer last ls else ls)
      leader new_voters in
    foldl (λ ls peer,
      if negb (mem peer new_voters) && negb (is_learner peer) then ls_remove_peer peer ls else ls)
      leader old) }} in
  n {{ rn_config -> peers := new_voters; rn_lease ::= clear_anchor }}.

(** Whether [peer] is self, a voter or a learner. *)
Definition is_member n (peer : u64) : bool :=
  (peer =? node_id (rn_config n)) || mem peer (peers (rn_config n))
  || mem peer (learners (rn_config n)).

Definition add_peer (peer : u64) n : RaftNode S :=
  if is_member n peer then n else set_voters (peers (rn_config n) ++ [peer]) n.

Definition notify_removed_peer ev (peer : u64) n : RaftNode S :=
  let tracked := mem peer (peers (rn_config n)) || mem peer (learners (rn_config n)) in
  if negb (bool_decide (rn_role n = Leader)) || negb tracked then n
  else send_append_entries ev peer n.

Definition remove_peer (peer : u64) n : RaftNode S :=
  if negb (mem peer (peers (rn_config n))) then n
  else set_voters (List.filter (λ id, negb (id =? peer)) (peers (rn_config n))) n.

Definition add_learner (peer : u64) n : RaftNode S :=
  if is_member n peer then n
  else
    let last := last_index (rn_log n) in
    let n := n {{ rn_leader_state ::= fmap (ls_add_peer peer last) }} in
    n {{ rn_config -> learners ::= λ l, l ++ [peer] }}.

Definition remove_learner (peer : u64) n : RaftNode S :=
  if negb (mem peer (learners (rn_config n))) then n
  else
    let n := n {{ rn_leader_state ::= fmap (ls_remove_peer peer) }} in
    n {{ rn_config -> learners ::= List.filter (λ id, negb (id =? peer)) }}.

Definition promote_learner (peer : u64) n : RaftNode S * bool :=
  if negb (mem peer (learners (rn_config n))) then (n, false)
  else
    let n := n {{ rn_config -> learners ::= List.filter (λ id, negb (id =? peer)) }} in
    let n :=
      if negb (mem peer (peers (rn_config n)))
      then n {{ rn_config -> peers ::= λ l, l ++ [peer] }} else n in
    (n, true).

Definition promote_self_to_voter n : RaftNode S :=
  match rn_role n with
  | Learner => n {{ rn_role := Follower; rn_config -> starts_as_learner := false }}
  | _ => n
  end.

Definition try_emit_timeout_now n : RaftNode S :=
  match rn_leadership_transfer n with
  | None => n
  | Some t =>
      if lt_emitted t then n
      else if negb (bool_decide (match_index_for n (lt_target t) = Some (last_index (rn_log n))))
      then n
      else
        let request := {|
          tn_term := term_of n;
          tn_leader_id := node_id (rn_config n);
          tn_group_id := group_id (rn_config n);
        |} in
        let n := n {{ rn_ready -> rd_timeout_now ::= λ l, l ++ [(lt_target t, request)] }} in
        n {{ rn_leadership_transfer ::= fmap (λ t, t {{ lt_emitted := true }}) }}
  end.

Definition transfer_leadership ev (target : u64) n : RaftNode S * Result unit :=
  match rn_role n with
  | Leader =>
      if (target =? node_id (rn_config n)) || negb (mem target (peers (rn_config n)))
      then (n, Err (InvalidTransferTarget target))
      else
        match rn_leadership_transfer n with
        | Some _ => (n, Ok tt)
        | None =>
            let deadline := env_now ev + election_timeout_max (rn_config n) in
            let n := n {{ rn_leadership_transfer := Some (MkTransfer target false deadline);
                          rn_lease ::= lease_revoke }} in
            (try_emit_timeout_now n, Ok tt)
        end
  | _ => (n, Err (NotLeader (leader_hint n) (term_of n)))
  end.

(** ** Snapshot debt ([snapshot_debt.rs]) *)

(** [Iterator::max_by_key]: the last of the largest. *)
Definition max_by_match (l : list (u64 * u64)) : option (u64 * u64) :=
  match l with
  | [] => None
  | p :: l => Some (foldl (λ best p : u64 * u64, if best.2 <=? p.2 then p else best) p l)
  end.

Definition hand_off_target n : option u64 :=
  let candidates :=
    omap (λ peer, (λ m, (peer, m)) <$> match_index_for n peer)
      (List.filter (peer_answered_whole n) (peers (rn_config n))) in
  fst <$> max_by_match (List.filter (λ p : u64 * u64, commit_of n <=? p.2) candidates).

Definition stand_down_for_snapshot ev n : RaftNode S :=
  let term := term_of n in
  match rn_role n with
  | Leader =>
      let n :=
        match hand_off_target n with
        | Some target =>
            let request := {|
              tn_term := term;
              tn_leader_id := node_id (rn_config n);
              tn_group_id := group_id (rn_config n);
            |} in
            n {{ rn_lease ::= lease_revoke;
                 rn_ready -> rd_timeout_now ::= λ l, l ++ [(target, request)] }}
        | None => n
        end in
      become_follower ev term n
  | Candidate => become_follower ev term n
  | Follower => n {{ rn_pre_vote := None }}
  | Learner | Observer => n
  end.

Definition set_replica_state ev (state : ReplicaState) n : RaftNode S :=
  let n := n {{ rn_replica := state }} in
  if negb (may_lead state) then stand_down_for_snapshot ev n else n.

Definition snapshot_required n : bool := wants_snapshot (rn_replica n).
End ops.
