(* ===== verification/RaftRpc.v ===== *)
(** * RPC handlers of a Raft node

    [nodedb-raft/src/node/rpc]: [AppendEntries], [RequestVote], [PreVote],
    [InstallSnapshot] and [TimeoutNow], with their response handlers. *)

From stdpp Require Import base list option gmap.
From S2P Require Import Prelude RaftState RaftLog RaftNode RaftOps.

Open Scope N_scope.

Section rpc.
Context {S : Type} `{LogStorage S}.
Implicit Types (n : RaftNode S) (ev : Env).

(** ** [AppendEntries] ([append_entries.rs]) *)

Definition append_reply n (success : bool) (last_log_index round : u64) :
    AppendEntriesResponse := {|
  aer_term := term_of n;
  aer_success := success;
  aer_last_log_index := last_log_index;
  aer_round := round;
  aer_replica := rn_replica n;
|}.

Definition claimable_match n (matched : u64) (wrote : bool) : u64 :=
  if wrote then matched else N.min matched (stable_index (rn_log n)).

(** The [prev_log] consistency check. *)
Definition prev_log_matches n (req : AppendEntriesRequest) : bool :=
  if 0 <? ae_prev_log_index req then
    match term_at (rn_log n) (ae_prev_log_index req) with
    | Some term => term =? ae_prev_log_term req
    | None => false
    end
  else true.

(** The part of [handle_append_entries] before the log is touched: the term
    and role changes and the recorded contact. *)
Definition accept_leader ev (req : AppendEntriesRequest) n : RaftNode S :=
  let n :=
    if (term_of n <? ae_term req)
       || bool_decide (rn_role n = Candidate)
       || (bool_decide (rn_role n = Leader) && negb (ae_leader_id req =? node_id (rn_config n)))
    then become_follower ev (ae_term req) n
    else n in
  let n := n {{ rn_leader_id := ae_leader_id req }} in
  let n := reset_election_timeout ev n in
  n {{ rn_replicated_floor ::= λ f, N.max f (ae_replicated_floor req);
       rn_leader_contact := Some (MkLeaderContact (ae_leader_commit req) (env_now ev)) }}.

(** The rest of it: the refusals, the append, the commit index and the
    claimed match. *)
Definition append_to_log (req : AppendEntriesRequest) n : RaftNode S * AppendEntriesResponse :=
  if wants_snapshot (rn_replica n) then
    (n, append_reply n false (last_index (rn_log n)) (ae_round req))
  else if has_apply_gap n then
    (n, append_reply n false (applied_of n) (ae_round req))
  else if negb (prev_log_matches n req) then
    (n, append_reply n false (last_index (rn_log n)) (ae_round req))
  else
    let '(l, r) := log_append_entries (ae_prev_log_index req) (ae_entries req) (rn_log n) in
    let n := n {{ rn_log := l }} in
    match r with
    | Err _ => (n, append_reply n false (last_index (rn_log n)) (ae_round req))
    | Ok wrote =>
        let matched :=
          match last (ae_entries req) with
          | Some e => e_index e
          | None => ae_prev_log_index req
          end in
        let commit := N.min (ae_leader_commit req) matched in
        let n :=
          if commit_of n <? commit
          then collect_committed_entries (n {{ rn_volatile -> commit_index := commit }})
          else n in
        (n, append_reply n true (claimable_match n matched wrote) (ae_round req))
    end.

Definition handle_append_entries ev (req : AppendEntriesRequest) n :
    RaftNode S * AppendEntriesResponse :=
  if ae_term req <? term_of n then
    (n, append_reply n false (last_index (rn_log n)) (ae_round req))
  else append_to_log req (accept_leader ev req n).

(** An observer's answer updates its send state and nothing else. *)
Definition handle_observer_response ev (peer : u64) (resp : AppendEntriesResponse) n :
    RaftNode S :=
  match rn_leader_state n with
  | None => n
  | Some leader =>
      if aer_success resp then
        n {{ rn_leader_state := Some (update_observer peer (λ st,
          let new_match := aer_last_log_index resp in
          let st :=
            if os_match_index st <? new_match
            then st {{ os_match_index := new_match; os_next_index := new_match + 1 }}
            else st in
          st {{ os_pending_count ::= λ c, c - 1 }}) leader) }}
      else
        let n := n {{ rn_leader_state := Some (update_observer peer (λ st,
          let new_next := aer_last_log_index resp + 1 in
          let backed_off :=
            if new_next <? os_next_index st then new_next else os_next_index st - 1 in
          st {{ os_next_index := N.max (N.max backed_off (sat_add64 (os_match_index st) 1)) 1;
                os_pending_count ::= λ c, c - 1 }}) leader) }} in
        send_append_entries_to_observer ev peer n
  end.

(** A voter's answer, accepted or not, is contact: it renews the lease round
    and check-quorum. *)
Definition record_voter_contact ev (peer : u64) (resp : AppendEntriesResponse) n : RaftNode S :=
  if mem peer (peers (rn_config n)) then
    let now := env_now ev in
    let n := record_lease_ack peer (aer_round resp) now n in
    let n := (settle_lease n).1 in
    refresh_quorum_contact now n
  else n.

Definition handle_append_entries_response ev (peer : u64) (resp : AppendEntriesResponse) n :
    RaftNode S :=
  if term_of n <? aer_term resp then become_follower ev (aer_term resp) n
  else if aer_term resp <? term_of n then n
  else if negb (bool_decide (rn_role n = Leader)) then n
  else if mem peer (observers (rn_config n)) then handle_observer_response ev peer resp n
  else
    match rn_leader_state n with
    | None => n
    | Some leader =>
        let n := n {{ rn_leader_state := Some (record_ack peer leader) }} in
        let n := record_voter_contact ev peer resp n in
        match rn_leader_state n with
        | None => n
        | Some leader =>
            let leader := leader {{ ls_peer_states ::= <[peer := aer_replica resp]> }} in
            let n := n {{ rn_leader_state := Some leader }} in
            let n :=
              if aer_success resp then
                let new_match := aer_last_log_index resp in
                let leader :=
                  if ls_match_index_for leader peer <? new_match
                  then set_next_index peer (new_match + 1) (set_match_index peer new_match leader)
                  else leader in
                let n := n {{ rn_leader_state := Some leader }} in
                if mem peer (peers (rn_config n)) then
                  let n := try_advance_commit_index n in
                  n {{ rn_replicated_floor := replicated_floor ev n }}
                else n
              else if wants_snapshot (aer_replica resp) then
                if negb (mem peer (rd_snapshots_needed (rn_ready n)))
                then push_snapshot_needed peer n else n
              else
                let new_next := aer_last_log_index resp + 1 in
                let current_next := next_index_for leader peer in
                let backed_off :=
                  if new_next <? current_next then new_next else current_next - 1 in
                let floor := sat_add64 (ls_match_index_for leader peer) 1 in
                let leader := set_next_index peer (N.max (N.max backed_off floor) 1) leader in
                send_append_entries ev peer (n {{ rn_leader_state := Some leader }}) in
            try_emit_timeout_now n
        end
    end.

(** ** [RequestVote] ([request_vote.rs]) *)

(** The candidate's log is at least as up to date as this one. *)
Definition log_up_to_date n (last_log_term last_log_index : u64) : bool :=
  (last_term (rn_log n) <? last_log_term)
  || ((last_log_term =? last_term (rn_log n)) && (last_index (rn_log n) <=? last_log_index)).

Definition is_voter_role (r : NodeRole) : bool :=
  match r with Follower | Candidate | Leader => true | Learner | Observer => false end.

Definition handle_request_vote_at ev (req : RequestVoteRequest) (now : Instant) n :
    RaftNode S * RequestVoteResponse :=
  if is_voter_role (rn_role n) && negb (rv_transfer req) && vote_refusal_active n now then
    (n, MkRequestVoteResponse (term_of n) false)
  else
    let n := if term_of n <? rv_term req then become_follower ev (rv_term req) n else n in
    if rv_term req <? term_of n then (n, MkRequestVoteResponse (term_of n) false)
    else
      match rn_role n with
      | Learner | Observer => (n, MkRequestVoteResponse (term_of n) false)
      | Follower | Candidate | Leader =>
          let voted := voted_for (rn_hard_state n) in
          let can_vote := (voted =? 0) || (voted =? rv_candidate_id req) in
          let log_ok := log_up_to_date n (rv_last_log_term req) (rv_last_log_index req) in
          if can_vote && log_ok then
            let n := n {{ rn_hard_state -> voted_for := rv_candidate_id req }} in
            let n := reset_election_timeout ev (persist_hard_state n) in
            (n, MkRequestVoteResponse (term_of n) true)
          else (n, MkRequestVoteResponse (term_of n) false)
      end.

Definition handle_request_vote ev (req : RequestVoteRequest) n :
    RaftNode S * RequestVoteResponse :=
  handle_request_vote_at ev req (env_now ev) n.

Definition handle_request_vote_response ev (peer : u64) (resp : RequestVoteResponse) n :
    RaftNode S :=
  if term_of n <? rvr_term resp then become_follower ev (rvr_term resp) n
  else if rvr_term resp <? term_of n then n
  else
    match rn_role n with
    | Candidate =>
        if rvr_vote_granted resp then
          let n := n {{ rn_votes_received ::= λ vs, {[peer]} ∪ vs }} in
          let vote_count := N.of_nat (size (rn_votes_received n)) + 1 in
          if quorum (rn_config n) <=? vote_count then become_leader ev n else n
        else n
    | _ => n
    end.

(** ** [PreVote] ([pre_vote.rs]) *)

Definition handle_pre_vote_at (req : PreVoteRequest) (now : Instant) n :
    RaftNode S * PreVoteResponse :=
  let term := term_of n in
  let refuse := MkPreVoteResponse term false in
  match rn_role n with
  | Leader | Learner | Observer => (n, refuse)
  | Follower | Candidate =>
      if pv_term req <=? term then (n, refuse)
      else if vote_refusal_active n now then (n, refuse)
      else if negb (log_up_to_date n (pv_last_log_term req) (pv_last_log_index req))
      then (n, refuse)
      else (n, MkPreVoteResponse term true)
  end.

Definition handle_pre_vote ev (req : PreVoteRequest) n : RaftNode S * PreVoteResponse :=
  handle_pre_vote_at req (env_now ev) n.

Definition handle_pre_vote_response ev (peer : u64) (resp : PreVoteResponse) n : RaftNode S :=
  if term_of n <? pvres_term resp then
    (become_follower ev (pvres_term resp) n) {{ rn_pre_vote := None }}
  else
    match rn_role n with
    | Leader => n
    | _ =>
        let next_term := term_of n + 1 in
        match rn_pre_vote n with
        | None => n
        | Some round =>
            if negb (pvr_term round =? next_term) then n {{ rn_pre_vote := None }}
            else if negb (pvres_vote_granted resp) then n
            else
              let round := round {{ pvr_granted ::= λ g, {[peer]} ∪ g }} in
              let n := n {{ rn_pre_vote := Some round }} in
              let votes := N.of_nat (size (pvr_granted round)) + 1 in
              if quorum (rn_config n) <=? votes
              then start_election ev (n {{ rn_pre_vote := None }})
              else n
        end
    end.

(** ** [InstallSnapshot] ([install_snapshot.rs]) *)

Definition adopt_snapshot_boundary (last_included_index last_included_term : u64) n :
    RaftNode S * Result unit :=
  let moves_boundary := lg_snapshot_index (rn_log n) <? last_included_index in
  if negb moves_boundary && (last_included_index <=? applied_of n) then (n, Ok tt)
  else
    let '(l, r) :=
      if moves_boundary
      then apply_snapshot last_included_index last_included_term (rn_log n)
      else (rn_log n, Ok tt) in
    let n := n {{ rn_log := l }} in
    match r with
    | Err err => (n, Err err)
    | Ok _ =>
        let n := n {{ rn_volatile -> commit_index ::= N.max last_included_index;
                      rn_volatile -> last_applied ::= N.max last_included_index;
                      rn_ready -> rd_committed_entries ::=
                        List.filter (λ e, last_included_index <? e_index e) }} in
        let n :=
          if negb (has_apply_gap n)
          then n {{ rn_ready -> rd_committed_read_error := None }} else n in
        save_durable_applied_index last_included_index n
    end.

Definition handle_install_snapshot ev (req : InstallSnapshotRequest) n :
    RaftNode S * Result InstallSnapshotResponse :=
  if is_term req <? term_of n then (n, Ok (MkInstallSnapshotResponse (term_of n)))
  else
    let n := if term_of n <? is_term req then become_follower ev (is_term req) n else n in
    let n := n {{ rn_leader_id := is_leader_id req }} in
    let n := reset_election_timeout ev n in
    let '(n, r) :=
      if is_done req
      then adopt_snapshot_boundary (is_last_included_index req) (is_last_included_term req) n
      else (n, Ok tt) in
    match r with
    | Err err => (n, Err err)
    | Ok _ => (n, Ok (MkInstallSnapshotResponse (term_of n)))
    end.

Definition record_snapshot_installed (peer last_included_index : u64) n : RaftNode S :=
  match rn_leader_state n with
  | None => n
  | Some leader =>
      if ls_match_index_for leader peer <? last_included_index
      then n {{ rn_leader_state := Some
             (set_next_index peer (last_included_index + 1)
                (set_match_index peer last_included_index leader)) }}
      else n
  end.

(** ** [TimeoutNow] ([timeout_now.rs]) *)

Definition handle_timeout_now ev (req : TimeoutNowRequest) n : RaftNode S :=
  if bool_decide (rn_role n = Follower) && (tn_term req =? term_of n)
     && (tn_leader_id req =? rn_leader_id n)
  then
    let n := start_election ev n in
    let term := term_of n in
    n {{ rn_ready -> rd_vote_requests ::= fmap (λ pv : u64 * RequestVoteRequest,
           if rv_term pv.2 =? term then (pv.1, pv.2 {{ rv_transfer := true }}) else pv) }}
  else n.
End rpc.
