(* ===== verification/SnapshotFraming.v ===== *)
(** * Snapshot chunk frames

    [nodedb-raft/src/snapshot_framing.rs]: the frame around a snapshot chunk,
    [magic(4) version(2) engine_id(2) crc32c(4) payload], big-endian. The
    [crc32c] crate is not part of the repository: its two functions are
    parameters, and the theorems use only that they return a [u32]. *)

From stdpp Require Import base list option.
From S2P Require Import Prelude.

Open Scope N_scope.

Definition SNAPSHOT_MAGIC : bytes := [78; 68; 83; 78].
Definition SNAPSHOT_FORMAT_VERSION : N := 1.
Definition HEADER_LEN : usize := 4 + 2 + 2 + 4.

Inductive SnapshotEngineId : Type :=
  | Vector
  | Graph
  | DocumentSchemaless
  | DocumentStrict
  | Columnar
  | KeyValue
  | Fts
  | Spatial
  | Crdt
  | Composite.

(** [engine_id as u16]. *)
Definition engine_discriminant (id : SnapshotEngineId) : N :=
  match id with
  | Vector => 1
  | Graph => 2
  | DocumentSchemaless => 3
  | DocumentStrict => 4
  | Columnar => 5
  | KeyValue => 6
  | Fts => 7
  | Spatial => 8
  | Crdt => 9
  | Composite => 10
  end.

Inductive SnapshotFramingError : Type :=
  | MagicMismatch (got : bytes)
  | VersionMismatch (got : N)
  | CrcMismatch (stored computed : u32)
  | UnknownEngineId (got : N)
  | Truncated (len : usize).

Definition engine_from_u16 (v : N) : result SnapshotFramingError SnapshotEngineId :=
  match v with
  | 1 => Ok Vector
  | 2 => Ok Graph
  | 3 => Ok DocumentSchemaless
  | 4 => Ok DocumentStrict
  | 5 => Ok Columnar
  | 6 => Ok KeyValue
  | 7 => Ok Fts
  | 8 => Ok Spatial
  | 9 => Ok Crdt
  | 10 => Ok Composite
  | other => Err (UnknownEngineId other)
  end.

Section framing.
Context (crc32c : bytes → u32) (crc32c_append : u32 → bytes → u32).

(** The checksum of the engine bytes followed by the payload. *)
Definition frame_crc (engine_bytes payload : bytes) : u32 :=
  crc32c_append (crc32c engine_bytes) payload.

Definition encode_snapshot_chunk (id : SnapshotEngineId) (payload : bytes) : bytes :=
  let engine_bytes := to_be 2 (engine_discriminant id) in
  let crc := frame_crc engine_bytes payload in
  SNAPSHOT_MAGIC ++ to_be 2 SNAPSHOT_FORMAT_VERSION ++ engine_bytes ++ to_be 4 crc ++ payload.

Definition decode_snapshot_chunk (data : bytes) :
    result SnapshotFramingError (SnapshotEngineId * bytes) :=
  if N.of_nat (length data) <? HEADER_LEN then Err (Truncated (N.of_nat (length data)))
  else
    let magic := take 4 data in
    if negb (bool_decide (magic = SNAPSHOT_MAGIC)) then Err (MagicMismatch magic)
    else
      let version := from_be (take 2 (drop 4 data)) in
      if negb (version =? SNAPSHOT_FORMAT_VERSION) then Err (VersionMismatch version)
      else
        let? engine_id := engine_from_u16 (from_be (take 2 (drop 6 data))) in
        let stored := from_be (take 4 (drop 8 data)) in
        let payload := drop (N.to_nat HEADER_LEN) data in
        let computed := frame_crc (take 2 (drop 6 data)) payload in
        if negb (stored =? computed) then Err (CrcMismatch stored computed)
        else Ok (engine_id, payload).

(** ** The frame is a bijection *)

Lemma engine_from_u16_discriminant id : engine_from_u16 (engine_discriminant id) = Ok id.
Proof. by destruct id. Qed.

Lemma engine_from_u16_Ok v id : engine_from_u16 v = Ok id → v = engine_discriminant id.
Proof.
  unfold engine_from_u16. intros Hv.
  repeat (case_match; try discriminate); by injection Hv as <-.
Qed.

Lemma engine_discriminant_u16 id : engine_discriminant id < 256 ^ 2.
Proof. by destruct id. Qed.

(** A frame cut at the header boundaries. *)
Lemma frame_parts (m v e c p : bytes) :
  length m = 4%nat → length v = 2%nat → length e = 2%nat → length c = 4%nat →
  let d := m ++ v ++ e ++ c ++ p in
  take 4 d = m ∧ take 2 (drop 4 d) = v ∧ take 2 (drop 6 d) = e ∧
  take 4 (drop 8 d) = c ∧ drop 12 d = p ∧ length d = (12 + length p)%nat.
Proof.
  intros Hm Hv He Hc d. unfold d.
  destruct m as [|? [|? [|? [|? [|]]]]]; simplify_eq/=.
  destruct v as [|? [|? [|]]]; simplify_eq/=. destruct e as [|? [|? [|]]]; simplify_eq/=.
  by destruct c as [|? [|? [|? [|? [|]]]]]; simplify_eq/=.
Qed.

Lemma frame_of_parts (d : bytes) :
  d = take 4 d ++ take 2 (drop 4 d) ++ take 2 (drop 6 d) ++ take 4 (drop 8 d) ++ drop 12 d.
Proof.
  rewrite <-(take_drop 4 d) at 1. f_equal. rewrite <-(take_drop 2 (drop 4 d)) at 1. f_equal.
  rewrite drop_drop. simpl. rewrite <-(take_drop 2 (drop 6 d)) at 1. f_equal.
  rewrite drop_drop. simpl. rewrite <-(take_drop 4 (drop 8 d)) at 1. f_equal.
  by rewrite drop_drop.
Qed.

Hypothesis crc_u32 : ∀ h p, crc32c_append h p < 256 ^ 4.

(** Decoding accepts exactly the frames encoding produces: a buffer of
    bytes decodes to an engine and a payload if and only if it is the
    encoding of that engine and payload. So frames round-trip, no two frames
    decode alike, and every header or payload change that alters the encoding
    is refused. *)
Theorem decode_snapshot_chunk_iff data id payload :
  Forall (λ b, b < 256) data →
  decode_snapshot_chunk data = Ok (id, payload) ↔ data = encode_snapshot_chunk id payload.
Proof.
  intros Hb. unfold decode_snapshot_chunk, encode_snapshot_chunk. split.
  - case N.ltb_spec; [done|]. change HEADER_LEN with 12. intros Hlen.
    case_bool_decide as Hm; [|done]. cbn [negb].
    case N.eqb_spec; [|done]. intros Hv. cbn [negb].
    destruct (engine_from_u16 _) as [eid|] eqn:Hid; [|done].
    case N.eqb_spec; [|done]. intros Hcrc. cbn [negb]. intros [= -> <-].
    apply engine_from_u16_Ok in Hid.
    rewrite <-Hid, <-Hv. rewrite (to_be_from_be 2 (take 2 (drop 6 data))), <-Hcrc, <-Hm.
    2: { rewrite length_take, length_drop. lia. }
    2: { by apply Forall_take, Forall_drop. }
    rewrite !to_be_from_be; [apply frame_of_parts|..];
      try (by apply Forall_take, Forall_drop); rewrite length_take, length_drop; lia.
  - intros ->. set (c := frame_crc _ _).
    destruct (frame_parts SNAPSHOT_MAGIC (to_be 2 SNAPSHOT_FORMAT_VERSION)
      (to_be 2 (engine_discriminant id)) (to_be 4 c) payload)
      as (-> & -> & -> & -> & Hp & ->); [done|by rewrite length_to_be..|].
    change (N.to_nat HEADER_LEN) with 12%nat. rewrite Hp.
    rewrite (proj2 (N.ltb_ge _ _)) by (change HEADER_LEN with 12; lia).
    rewrite !from_be_to_be by (exact (crc_u32 _ _) || exact (engine_discriminant_u16 _) || done).
    rewrite engine_from_u16_discriminant. rewrite bool_decide_true by done. cbn [negb]. by rewrite !N.eqb_refl.
Qed.
End framing.
