(* ===== verification/RaftNodeFacts.v ===== *)
(** * What the operations of a Raft node change

    The helpers the handlers share (replication, commit advancement, contact
    bookkeeping, the transfer trigger) write only the fields of [Touched].
    The lemmas here say so, and the theorems about single nodes and about the
    group are proved from them. *)

From stdpp Require Import base list option gmap sorting.
From S2P Require Import Prelude RaftState RaftLog RaftLogFacts RaftNode RaftOps RaftRpc.

Open Scope N_scope.

(** The fields leader work writes. *)
Record Touched : Type := MkTouched {
  to_leader_state : option LeaderState;
  to_commit : u64;
  to_messages : list (u64 * AppendEntriesRequest);
  to_snapshots : list u64;
  to_queue : list LogEntry;
  to_read_error : option RaftError;
  to_timeout_now : list (u64 * TimeoutNowRequest);
  to_transfer : option LeadershipTransfer;
  to_window : list VoterAck;
  to_contact : option Instant;
  to_lease : LeaseState;
}.

Section shapes.
Context {S : Type} `{LogStorage S}.
Implicit Types (n : RaftNode S) (ev : Env) (t : Touched).

Definition touched_of n : Touched := {|
  to_leader_state := rn_leader_state n;
  to_commit := commit_of n;
  to_messages := rd_messages (rn_ready n);
  to_snapshots := rd_snapshots_needed (rn_ready n);
  to_queue := rd_committed_entries (rn_ready n);
  to_read_error := rd_committed_read_error (rn_ready n);
  to_timeout_now := rd_timeout_now (rn_ready n);
  to_transfer := rn_leadership_transfer n;
  to_window := rn_quorum_window n;
  to_contact := rn_last_quorum_contact n;
  to_lease := rn_lease n;
|}.

(** [n] with the fields of [t]. *)
Definition touch n t : RaftNode S := {|
  rn_config := rn_config n;
  rn_role := rn_role n;
  rn_hard_state := rn_hard_state n;
  rn_volatile := MkVolatileState (to_commit t) (last_applied (rn_volatile n));
  rn_leader_state := to_leader_state t;
  rn_log := rn_log n;
  rn_election_deadline := rn_election_deadline n;
  rn_heartbeat_deadline := rn_heartbeat_deadline n;
  rn_votes_received := rn_votes_received n;
  rn_ready := {|
    rd_hard_state := rd_hard_state (rn_ready n);
    rd_messages := to_messages t;
    rd_vote_requests := rd_vote_requests (rn_ready n);
    rd_pre_vote_requests := rd_pre_vote_requests (rn_ready n);
    rd_timeout_now := to_timeout_now t;
    rd_committed_entries := to_queue t;
    rd_snapshots_needed := to_snapshots t;
    rd_committed_read_error := to_read_error t;
  |};
  rn_leader_id := rn_leader_id n;
  rn_leadership_transfer := to_transfer t;
  rn_pre_vote := rn_pre_vote n;
  rn_durable_applied := rn_durable_applied n;
  rn_leader_contact := rn_leader_contact n;
  rn_last_quorum_contact := to_contact t;
  rn_quorum_window := to_window t;
  rn_leader_since := rn_leader_since n;
  rn_term_start_index := rn_term_start_index n;
  rn_lease := to_lease t;
  rn_boot_vote_fence := rn_boot_vote_fence n;
  rn_compaction_ceiling := rn_compaction_ceiling n;
  rn_replica := rn_replica n;
  rn_replicated_floor := rn_replicated_floor n;
|}.

Lemma touch_touched_of n : touch n (touched_of n) = n.
Proof. by destruct n as [???[]?????[]]. Qed.

Lemma touched_of_touch n t : touched_of (touch n t) = t.
Proof. by destruct t. Qed.

(** [n'] is [n] up to touched fields, related by [P]. *)
Definition touched (P : Touched → Touched → Prop) n n' : Prop :=
  n' = touch n (touched_of n') ∧ P (touched_of n) (touched_of n').

Lemma touched_inv P n n' : touched P n n' → ∃ t, n' = touch n t ∧ P (touched_of n) t.
Proof. intros [? ?]. by exists (touched_of n'). Qed.

#[local] Instance touched_refl P : Reflexive P → Reflexive (touched P).
Proof. intros HP n. split; [by rewrite touch_touched_of|done]. Qed.

#[local] Instance touched_trans P : Transitive P → Transitive (touched P).
Proof.
  intros HP n1 n2 n3 (t & -> & H1)%touched_inv (t' & -> & H2)%touched_inv.
  rewrite touched_of_touch in H2. split; rewrite touched_of_touch; [done|by etrans].
Qed.

Lemma touched_mono (P Q : Touched → Touched → Prop) n n' :
  (∀ t t', P t t' → Q t t') → touched P n n' → touched Q n n'.
Proof. intros HPQ [? ?]. split; auto. Qed.

(** Same leadership, and the commit index does not go down. *)
Definition leads_on t t' : Prop :=
  (is_Some (to_leader_state t') ↔ is_Some (to_leader_state t)) ∧ to_commit t ≤ to_commit t'.

(** The per-peer tables of a leader, without the observers' send state. *)
Definition peer_tables (ls : LeaderState) :=
  (ls_next_index ls, ls_match_index ls, ls_ack_count ls, ls_peer_states ls).

(** Replication: only messages, snapshot flags, the lease and the observers'
    send state. *)
Definition replication t t' : Prop :=
  peer_tables <$> to_leader_state t' = peer_tables <$> to_leader_state t ∧
  to_commit t' = to_commit t ∧ to_queue t' = to_queue t ∧
  to_read_error t' = to_read_error t ∧ to_timeout_now t' = to_timeout_now t ∧
  to_transfer t' = to_transfer t ∧ to_window t' = to_window t ∧ to_contact t' = to_contact t.

(** Commit advancement: only the commit index and the delivery queue. *)
Definition commits t t' : Prop :=
  to_leader_state t' = to_leader_state t ∧ to_commit t ≤ to_commit t' ∧
  to_messages t' = to_messages t ∧ to_snapshots t' = to_snapshots t ∧
  to_timeout_now t' = to_timeout_now t ∧ to_transfer t' = to_transfer t ∧
  to_window t' = to_window t ∧ to_contact t' = to_contact t ∧ to_lease t' = to_lease t.

(** Contact bookkeeping: only the window, the contact time and the lease. *)
Definition contact t t' : Prop :=
  to_leader_state t' = to_leader_state t ∧ to_commit t' = to_commit t ∧
  to_messages t' = to_messages t ∧ to_snapshots t' = to_snapshots t ∧
  to_queue t' = to_queue t ∧ to_read_error t' = to_read_error t ∧
  to_timeout_now t' = to_timeout_now t ∧ to_transfer t' = to_transfer t.

#[local] Instance replication_refl : Reflexive replication.
Proof. by intros t; split_and!. Qed.

#[local] Instance replication_trans : Transitive replication.
Proof. intros t1 t2 t3. unfold replication. naive_solver congruence. Qed.

#[local] Instance leads_on_refl : Reflexive leads_on.
Proof. by intros t; split. Qed.

#[local] Instance leads_on_trans : Transitive leads_on.
Proof. intros t1 t2 t3 [H1 ?] [H2 ?]. split; [by rewrite H2|lia]. Qed.

#[local] Instance contact_trans : Transitive contact.
Proof. intros t1 t2 t3. unfold contact. naive_solver congruence. Qed.

Lemma replication_leads t t' : replication t t' → leads_on t t'.
Proof.
  intros (Ht & ? & _). split; [|lia].
  rewrite <-(fmap_is_Some peer_tables), Ht. by rewrite fmap_is_Some.
Qed.

Lemma commits_leads t t' : commits t t' → leads_on t t'.
Proof. intros (Hl & ? & _). split; [by rewrite Hl|done]. Qed.

Lemma contact_leads t t' : contact t t' → leads_on t t'.
Proof. intros (Hl & Hc & _). split; [by rewrite Hl|lia]. Qed.

(** ** Replication *)

Lemma touched_snapshot peer n : touched replication n (push_snapshot_needed peer n).
Proof. split; [by destruct n as [???[]?????[]]|by split_and!]. Qed.

Lemma touched_send ev peer n : touched replication n (send_append_entries ev peer n).
Proof.
  unfold send_append_entries. destruct (rn_leader_state n) as [leader|] eqn:Hls; [|done].
  case_match; [|apply touched_snapshot]. case_match; [|apply touched_snapshot].
  unfold stamp_lease_round. destruct (stamp _ _) as [le round].
  split; [by destruct n as [???[]?????[]]|by split_and!].
Qed.

Lemma touched_send_observer ev o n :
  touched replication n (send_append_entries_to_observer ev o n).
Proof.
  unfold send_append_entries_to_observer.
  destruct (rn_leader_state n) as [leader|] eqn:Hls; [|done].
  case_match; [done|]. case_match; [|done]. case_match; [|apply touched_snapshot].
  case_match; [|apply touched_snapshot].
  split; [by destruct n as [???[]?????[]]|]. split_and!; try done.
  simpl. by rewrite Hls.
Qed.

Lemma touched_foldl {A} (f : RaftNode S → A → RaftNode S) (l : list A) n :
  (∀ n x, touched replication n (f n x)) → touched replication n (foldl f n l).
Proof.
  intros Hf. revert n. induction l as [|x l IH]; intros n; simpl; [done|].
  etrans; [apply Hf|apply IH].
Qed.

Lemma touched_replicate ev n : touched replication n (replicate_to_all ev n).
Proof.
  unfold replicate_to_all. etrans; apply (touched_foldl (A := u64)); intros.
  - apply touched_send.
  - apply touched_send_observer.
Qed.

(** ** Commit advancement *)

Lemma touched_collect n c :
  commit_of n ≤ c →
  touched commits n (collect_committed_entries (n {{ rn_volatile -> commit_index := c }})).
Proof.
  intros Hc. unfold collect_committed_entries, queue_committed_entries.
  repeat case_match; simplify_eq; (split; [by destruct n as [???[]?????[]]|by split_and!]).
Qed.

Lemma touched_commits_refl n : touched commits n n.
Proof. split; [by rewrite touch_touched_of|by split_and!]. Qed.

Lemma touched_try_advance n : touched commits n (try_advance_commit_index n).
Proof.
  unfold try_advance_commit_index.
  destruct (rn_leader_state n) as [leader|]; [|apply touched_commits_refl].
  destruct (List.find _ _) as [i|] eqn:Hf; [|apply touched_commits_refl].
  apply touched_collect. apply find_some in Hf as [Hin _].
  apply in_rev, list_elem_of_In, elem_of_range_incl in Hin. lia.
Qed.

(** ** Contact bookkeeping *)

Lemma touched_refresh now n : touched contact n (refresh_quorum_contact now n).
Proof.
  unfold refresh_quorum_contact. repeat case_match;
    (split; [by destruct n as [???[]?????[]]|by split_and!]).
Qed.

Lemma touched_settle n : touched contact n (settle_lease n).1.
Proof.
  unfold settle_lease. repeat case_match;
    (split; [by destruct n as [???[]?????[]]|by split_and!]).
Qed.

Lemma touched_ack peer round now n : touched contact n (record_lease_ack peer round now n).
Proof.
  unfold record_lease_ack. case_match; (split; [by destruct n as [???[]?????[]]|by split_and!]).
Qed.

Lemma touched_voter ev peer resp n : touched contact n (record_voter_contact ev peer resp n).
Proof.
  unfold record_voter_contact. case_match.
  - etrans; [apply touched_ack|]. etrans; [apply touched_settle|apply touched_refresh].
  - split; [by rewrite touch_touched_of|by split_and!].
Qed.

(** ** The transfer trigger *)

Lemma touched_emit n : touched leads_on n (try_emit_timeout_now n).
Proof.
  unfold try_emit_timeout_now. repeat case_match; try done.
  split; [by destruct n as [???[]?????[]]|]. by split.
Qed.
End shapes.

#[export] Existing Instance touched_refl.
#[export] Existing Instance touched_trans.
#[export] Existing Instance leads_on_refl.
#[export] Existing Instance leads_on_trans.
#[export] Existing Instance replication_refl.
#[export] Existing Instance replication_trans.
