(* ===== verification/RaftSteps.v ===== *)
(** * Elections and votes of one node

    Every public operation of [RaftNode] as a value ([NodeOp], with
    [MemberOp] for the membership changes) and the voter automaton each
    operation runs ([vote_move]): step down, campaign, vote, count a grant,
    win. The invariants of a single node are proved over the automaton. *)

From stdpp Require Import base list option gmap relations.
From S2P Require Import Prelude RaftState RaftLog RaftLogFacts RaftNode RaftOps RaftRpc.
From S2P Require Import RaftNodeFacts.

Open Scope N_scope.

(** ** The operations of a node *)

Inductive NodeOp : Type :=
  | OpStorageProgress
  | OpTick
  | OpPropose (data : bytes)
  | OpAppendEntries (req : AppendEntriesRequest)
  | OpAppendEntriesResponse (peer : u64) (resp : AppendEntriesResponse)
  | OpRequestVote (req : RequestVoteRequest)
  | OpRequestVoteResponse (peer : u64) (resp : RequestVoteResponse)
  | OpPreVote (req : PreVoteRequest)
  | OpPreVoteResponse (peer : u64) (resp : PreVoteResponse)
  | OpInstallSnapshot (req : InstallSnapshotRequest)
  | OpAdoptSnapshot (last_included_index last_included_term : u64)
  | OpSnapshotInstalled (peer last_included_index : u64)
  | OpTimeoutNow (req : TimeoutNowRequest)
  | OpTransfer (target : u64)
  | OpReadIndex
  | OpSetReplica (state : ReplicaState)
  | OpAdvanceApplied (applied_to : u64)
  | OpSaveDurable (index : u64)
  | OpRequeue (batch : list LogEntry)
  | OpCompact (up_to : u64)
  | OpMaybeCompact (applied_index : u64)
  | OpSetCeiling (ceiling : u64)
  | OpNotifyRemoved (peer : u64).

Inductive MemberOp : Type :=
  | OpAddPeer (peer : u64)
  | OpRemovePeer (peer : u64)
  | OpAddLearner (peer : u64)
  | OpRemoveLearner (peer : u64)
  | OpPromoteLearner (peer : u64)
  | OpPromoteSelf.

(** ** Hard-state order *)

(** A hard state moves to a later term, or keeps its term and at most fills
    an empty vote. *)
Definition hs_le (h h' : HardState) : Prop :=
  current_term h < current_term h' ∨
  current_term h = current_term h' ∧ (voted_for h = 0 ∨ voted_for h = voted_for h').

#[export] Instance hs_le_preorder : PreOrder hs_le.
Proof.
  split.
  - intros h. right. auto.
  - intros h1 h2 h3 [?|[? [?|Hv]]] [?|[? [?|Hv']]]; unfold hs_le; try (left; lia);
      right; (split; [lia|]); try (by left); rewrite Hv in *; auto.
Qed.

(** What a node was given from outside: grants and replica states. *)
Record Inputs : Type := MkInputs {
  in_grant : u64 → u64 → Prop;
  in_replica : ReplicaState → Prop;
}.

Definition no_inputs : Inputs := MkInputs (λ _ _, False) (λ _, False).

(** Receiver, term and candidate of the queued vote requests. *)
Definition vote_keys (l : list (u64 * RequestVoteRequest)) : list (u64 * u64 * u64) :=
  (λ pv, (pv.1, rv_term pv.2, rv_candidate_id pv.2)) <$> l.

Definition demote (r : NodeRole) : NodeRole :=
  match r with Learner => Learner | Observer => Observer | _ => Follower end.

Section steps.
Context {S : Type} `{LogStorage S}.
Implicit Types (n : RaftNode S) (ev : Env).

Definition run_op ev (op : NodeOp) n : RaftNode S :=
  match op with
  | OpStorageProgress => on_storage_progress n
  | OpTick => tick ev n
  | OpPropose data => (propose ev data n).1
  | OpAppendEntries req => (handle_append_entries ev req n).1
  | OpAppendEntriesResponse peer resp => handle_append_entries_response ev peer resp n
  | OpRequestVote req => (handle_request_vote ev req n).1
  | OpRequestVoteResponse peer resp => handle_request_vote_response ev peer resp n
  | OpPreVote req => (handle_pre_vote ev req n).1
  | OpPreVoteResponse peer resp => handle_pre_vote_response ev peer resp n
  | OpInstallSnapshot req => (handle_install_snapshot ev req n).1
  | OpAdoptSnapshot i t => (adopt_snapshot_boundary i t n).1
  | OpSnapshotInstalled peer i => record_snapshot_installed peer i n
  | OpTimeoutNow req => handle_timeout_now ev req n
  | OpTransfer target => (transfer_leadership ev target n).1
  | OpReadIndex => (start_read_index ev n).1
  | OpSetReplica state => set_replica_state ev state n
  | OpAdvanceApplied a => advance_applied a n
  | OpSaveDurable i => (save_durable_applied_index i n).1
  | OpRequeue batch => requeue_committed batch n
  | OpCompact i => (compact_log_up_to i n).1
  | OpMaybeCompact i => (maybe_compact_log i n).1
  | OpSetCeiling c => set_compaction_ceiling c n
  | OpNotifyRemoved peer => notify_removed_peer ev peer n
  end.

Definition run_member_op (op : MemberOp) n : RaftNode S :=
  match op with
  | OpAddPeer peer => add_peer peer n
  | OpRemovePeer peer => remove_peer peer n
  | OpAddLearner peer => add_learner peer n
  | OpRemoveLearner peer => remove_learner peer n
  | OpPromoteLearner peer => (promote_learner peer n).1
  | OpPromoteSelf => promote_self_to_voter n
  end.

(** The hard state the storage holds. *)
Definition stored_hs n : Result HardState := load_hard_state (lg_storage (rn_log n)).

(** What no static operation changes or moves down. *)
Record frame n n' : Prop := MkFrame {
  fr_config : rn_config n' = rn_config n;
  fr_stored : stored_hs n' = stored_hs n;
  fr_commit : commit_of n ≤ commit_of n';
  fr_applied : applied_of n ≤ applied_of n';
  fr_durable : rn_durable_applied n ≤ rn_durable_applied n';
}.

(** What an operation gave the node from outside. *)
Definition op_inputs (op : NodeOp) : Inputs := {|
  in_grant := λ p t,
    match op with
    | OpRequestVoteResponse peer resp =>
        peer = p ∧ rvr_term resp = t ∧ rvr_vote_granted resp = true
    | _ => False
    end;
  in_replica := λ r, op = OpSetReplica r;
|}.

(** ** The voter automaton *)

Inductive vote_move (I : Inputs) n n' : Prop :=
  | vm_same :
      frame n n' → rn_replica n' = rn_replica n → rn_role n' = rn_role n →
      (is_Some (rn_leader_state n') ↔ is_Some (rn_leader_state n)) →
      rn_hard_state n' = rn_hard_state n → rn_votes_received n' = rn_votes_received n →
      rd_hard_state (rn_ready n') = rd_hard_state (rn_ready n) →
      vote_keys (rd_vote_requests (rn_ready n')) = vote_keys (rd_vote_requests (rn_ready n)) →
      vote_move I n n'
  | vm_replica r :
      in_replica I r → n' = n {{ rn_replica := r }} → vote_move I n n'
  | vm_follow t :
      frame n n' → rn_replica n' = rn_replica n → rn_role n' = demote (rn_role n) →
      rn_leader_state n' = None → term_of n ≤ t →
      rn_hard_state n' =
        MkHardState t (if term_of n <? t then 0 else voted_for (rn_hard_state n)) →
      rn_votes_received n' = ∅ →
      rd_hard_state (rn_ready n') = Some (rn_hard_state n') →
      rd_vote_requests (rn_ready n') = rd_vote_requests (rn_ready n) →
      vote_move I n n'
  | vm_campaign :
      frame n n' → rn_replica n' = rn_replica n →
      rn_role n = Follower ∨ rn_role n = Candidate → rn_role n' = Candidate →
      may_lead (rn_replica n) = true →
      rn_leader_state n' = rn_leader_state n →
      rn_hard_state n' = MkHardState (term_of n + 1) (node_id (rn_config n)) →
      rn_votes_received n' = ∅ →
      rd_hard_state (rn_ready n') = Some (rn_hard_state n') →
      vote_keys (rd_vote_requests (rn_ready n')) =
        vote_keys (rd_vote_requests (rn_ready n)) ++
        ((λ p, (p, term_of n + 1, node_id (rn_config n))) <$> peers (rn_config n)) →
      vote_move I n n'
  | vm_vote c :
      frame n n' → rn_replica n' = rn_replica n → rn_role n' = rn_role n →
      rn_leader_state n' = rn_leader_state n → is_voter_role (rn_role n) = true →
      voted_for (rn_hard_state n) = 0 ∨ voted_for (rn_hard_state n) = c →
      rn_hard_state n' = MkHardState (term_of n) c →
      rn_votes_received n' = rn_votes_received n →
      rd_hard_state (rn_ready n') = Some (rn_hard_state n') →
      rd_vote_requests (rn_ready n') = rd_vote_requests (rn_ready n) →
      vote_move I n n'
  | vm_count p :
      rn_role n = Candidate → in_grant I p (term_of n) →
      n' = n {{ rn_votes_received ::= λ vs, {[p]} ∪ vs }} →
      vote_move I n n'
  | vm_win :
      frame n n' → rn_replica n' = rn_replica n → rn_role n = Candidate → rn_role n' = Leader →
      is_Some (rn_leader_state n') →
      quorum (rn_config n) ≤ N.of_nat (size (rn_votes_received n)) + 1 →
      rn_hard_state n' = rn_hard_state n → rn_votes_received n' = rn_votes_received n →
      rd_hard_state (rn_ready n') = rd_hard_state (rn_ready n) →
      rd_vote_requests (rn_ready n') = rd_vote_requests (rn_ready n) →
      vote_move I n n'.

Lemma frame_refl n : frame n n.
Proof. by split. Qed.

Lemma frame_trans n1 n2 n3 : frame n1 n2 → frame n2 n3 → frame n1 n3.
Proof. intros [] []. split; [congruence|congruence|lia..]. Qed.

Lemma vote_move_frame I n n' : vote_move I n n' → frame n n'.
Proof. destruct 1; simplify_eq; try done; by split. Qed.

(** Leader work is a silent move. *)
Lemma vm_touched I n n' : touched leads_on n n' → vote_move I n n'.
Proof. intros (t & -> & [Hl Hc])%touched_inv. by apply vm_same; [split|..]. Qed.
End steps.

(** ** Every operation runs the automaton *)

Section runs.
Context {S : Type} `{LogStorageSpec S}.
Implicit Types (n : RaftNode S) (l : RaftLog S) (ev : Env).

(** Log writes leave the stored hard state alone. *)
Definition log_hs l : Result HardState := load_hard_state (lg_storage l).

Lemma log_append_hs e l : log_hs (log_append e l).1 = log_hs l.
Proof.
  unfold log_append, log_hs. destruct (storage_append _ _) as [s r] eqn:Hst.
  apply append_meta in Hst as [Hst _]. by destruct r.
Qed.

Lemma truncate_from_hs i l : log_hs (truncate_from i l).1 = log_hs l.
Proof.
  unfold truncate_from, log_hs. case_match; [done|].
  destruct (storage_truncate _ _) as [s r] eqn:Hst.
  apply truncate_meta in Hst as [Hst _]. by destruct r.
Qed.

Lemma apply_snapshot_hs i t l : log_hs (apply_snapshot i t l).1 = log_hs l.
Proof.
  unfold apply_snapshot, log_hs. case_match; [done|].
  destruct (storage_compact _ _ _) as [s r] eqn:Hst.
  apply compact_meta in Hst as [Hst _]. by destruct r.
Qed.

Lemma log_append_entries_hs prev es l : log_hs (log_append_entries prev es l).1 = log_hs l.
Proof.
  unfold log_append_entries. case_match; [|done].
  set (c := match head _ with Some _ => _ | None => _ end).
  assert (log_hs (match c with Some i => truncate_from i l | None => (l, Ok tt) end).1 = log_hs l)
    as Htr by (destruct c; [apply truncate_from_hs|done]).
  destruct (match c with Some _ => _ | None => _ end) as [l1 [u|]]; [|done].
  destruct (storage_append _ _) as [s r] eqn:Hst.
  apply append_meta in Hst as [Hst _]. unfold log_hs in *. simpl in Htr. rewrite <-Htr.
  by destruct r.
Qed.

Lemma vm_log I l' n :
  log_hs l' = log_hs (rn_log n) → vote_move I n (n {{ rn_log := l' }}).
Proof. intros Hl. by apply vm_same; [split|..]. Qed.

Lemma become_follower_move I ev t n : term_of n ≤ t → vote_move I n (become_follower ev t n).
Proof.
  intros Ht. unfold become_follower.
  destruct (rn_role n) eqn:Hr; unfold term_of in *; simpl;
    destruct (current_term (rn_hard_state n) <? t) eqn:Hlt;
    (apply (vm_follow I n _ t); [by split|..]); unfold term_of; simpl; rewrite ?Hr, ?Hlt; done.
Qed.

Definition moves (I : Inputs) : relation (RaftNode S) := rtc (vote_move I).

#[local] Instance moves_refl I : Reflexive (moves I).
Proof. unfold moves. apply _. Qed.

#[local] Instance moves_trans I : Transitive (moves I).
Proof. unfold moves. apply _. Qed.

Lemma moves_touched I P n n' :
  (∀ t t', P t t' → leads_on t t') → touched P n n' → moves I n n'.
Proof. intros HP Ht. apply rtc_once, vm_touched. by eapply touched_mono. Qed.

Lemma moves_replicate I ev n : moves I n (replicate_to_all ev n).
Proof. eapply moves_touched; [apply replication_leads|apply touched_replicate]. Qed.

Lemma moves_send I ev p n : moves I n (send_append_entries ev p n).
Proof. eapply moves_touched; [apply replication_leads|apply touched_send]. Qed.

Lemma moves_send_observer I ev p n : moves I n (send_append_entries_to_observer ev p n).
Proof. eapply moves_touched; [apply replication_leads|apply touched_send_observer]. Qed.

Lemma moves_snapshot_needed I p n : moves I n (push_snapshot_needed p n).
Proof. eapply moves_touched; [apply replication_leads|apply touched_snapshot]. Qed.

Lemma moves_try_advance I n : moves I n (try_advance_commit_index n).
Proof. eapply moves_touched; [apply commits_leads|apply touched_try_advance]. Qed.

Lemma moves_collect I n c :
  commit_of n ≤ c → moves I n (collect_committed_entries (n {{ rn_volatile -> commit_index := c }})).
Proof. intros. eapply moves_touched; [apply commits_leads|by apply touched_collect]. Qed.

Lemma moves_refresh I now n : moves I n (refresh_quorum_contact now n).
Proof. eapply moves_touched; [apply contact_leads|apply touched_refresh]. Qed.

Lemma moves_voter I ev p resp n : moves I n (record_voter_contact ev p resp n).
Proof. eapply moves_touched; [apply contact_leads|apply touched_voter]. Qed.

Lemma moves_emit I n : moves I n (try_emit_timeout_now n).
Proof. eapply moves_touched; [done|apply touched_emit]. Qed.

Lemma moves_follow I ev t n : term_of n ≤ t → moves I n (become_follower ev t n).
Proof. intros. by apply rtc_once, become_follower_move. Qed.

(** A field write outside the voter's view. *)
Lemma moves_same I n n' :
  frame n n' → rn_replica n' = rn_replica n → rn_role n' = rn_role n →
  (is_Some (rn_leader_state n') ↔ is_Some (rn_leader_state n)) →
  rn_hard_state n' = rn_hard_state n → rn_votes_received n' = rn_votes_received n →
  rd_hard_state (rn_ready n') = rd_hard_state (rn_ready n) →
  vote_keys (rd_vote_requests (rn_ready n')) = vote_keys (rd_vote_requests (rn_ready n)) →
  moves I n n'.
Proof. intros. by apply rtc_once, vm_same. Qed.

Lemma moves_become_leader I ev n :
  rn_role n = Candidate →
  quorum (rn_config n) ≤ N.of_nat (size (rn_votes_received n)) + 1 →
  moves I n (become_leader ev n).
Proof.
  intros Hr Hq. unfold become_leader.
  set (n1 := n {{ rn_role := Leader; rn_leader_id := _ }}).
  set (n2 := n1 {{ rn_leader_state := Some _ }}).
  set (n3 := arm_quorum_window _ n2).
  set (l := (log_append _ (rn_log n3)).1).
  set (n4 := n3 {{ rn_log := l }} {{ rn_term_start_index := Some _ }}).
  eapply (rtc_l _ _ n4).
  - apply vm_win; try done. split; try done. apply log_append_hs.
  - case_match; [etrans; [apply moves_try_advance|]|]; apply moves_replicate.
Qed.

Lemma moves_start_election I ev n :
  rn_role n = Follower ∨ rn_role n = Candidate → moves I n (start_election ev n).
Proof.
  intros Hr. unfold start_election.
  assert (moves I n n) by done.
  destruct (may_lead (rn_replica n)) eqn:Hlead; [|by destruct Hr as [-> | ->]].
  set (m := match peers _ with [] => _ | _ :: _ => _ end).
  enough (moves I n m) by (destruct Hr as [-> | ->]; done). subst m.
  destruct (peers (rn_config n)) as [|p ps] eqn:Hp; simpl; rewrite Hp.
  - eapply rtc_l; [|apply moves_become_leader].
    + apply vm_campaign; try done. simpl. by rewrite Hp, app_nil_r.
    + done.
    + unfold quorum, cluster_size. simpl. rewrite Hp. done.
  - apply rtc_once, vm_campaign; try done. simpl. unfold vote_keys.
    rewrite fmap_app, Hp. f_equal. csimpl. f_equal. by rewrite <-list_fmap_compose.
Qed.

Lemma moves_start_pre_election I ev n :
  rn_role n = Follower ∨ rn_role n = Candidate → moves I n (start_pre_election ev n).
Proof.
  intros Hr. unfold start_pre_election.
  assert (moves I n n) by done.
  destruct (may_lead (rn_replica n)) eqn:Hlead; [|by destruct Hr as [-> | ->]].
  destruct (peers (rn_config n)) as [|p ps] eqn:Hp.
  - destruct Hr as [Hr|Hr]; rewrite Hr; apply moves_start_election; auto.
  - destruct Hr as [Hr|Hr]; rewrite Hr; by apply moves_same; [split|..].
Qed.

Ltac same := apply moves_same; [by split|done..].

(** Single writes outside the voter's view. *)
Lemma moves_set_heartbeat I d n : moves I n (n {{ rn_heartbeat_deadline := d }}).
Proof. same. Qed.

Lemma moves_set_floor I f n : moves I n (n {{ rn_replicated_floor := f }}).
Proof. same. Qed.

Lemma moves_set_pre_vote I g n : moves I n (n {{ rn_pre_vote := g }}).
Proof. same. Qed.

Lemma moves_set_contact I id ev f c n :
  moves I n ((reset_election_timeout ev (n {{ rn_leader_id := id }}))
    {{ rn_replicated_floor ::= f; rn_leader_contact := c }}).
Proof. same. Qed.

Lemma moves_hear I id ev n :
  moves I n (reset_election_timeout ev (n {{ rn_leader_id := id }})).
Proof. same. Qed.

Lemma moves_tick I ev n : moves I n (tick ev n).
Proof.
  unfold tick. destruct (rn_role n) eqn:Hr; try done.
  1,2: case_match; [apply moves_start_pre_election; auto|done].
  set (n1 := match rn_leadership_transfer n with Some _ => _ | None => _ end).
  assert (moves I n n1) as Hm by (unfold n1; repeat case_match; first [same|done]).
  etrans; [exact Hm|]. etrans; [apply moves_refresh|].
  case_match; [apply moves_follow; lia|]. case_match; [|done].
  etrans; [|apply moves_set_heartbeat]. apply moves_replicate.
Qed.

Lemma moves_propose I ev data n : moves I n (propose ev data n).1.
Proof.
  unfold propose. case_match; try done. case_match; [done|].
  destruct (log_append _ _) as [l r] eqn:Hl.
  assert (log_hs l = log_hs (rn_log n)) as Hhs.
  { change l with (l, r).1. rewrite <-Hl. apply log_append_hs. }
  assert (moves I n (n {{ rn_log := l }})) as Hm by (by apply rtc_once, vm_log).
  destruct r; [|done]. simpl. etrans; [exact Hm|]. etrans; [apply moves_replicate|].
  case_match; [apply moves_try_advance|done].
Qed.

Lemma moves_accept_leader I ev req n : term_of n ≤ ae_term req → moves I n (accept_leader ev req n).
Proof.
  intros Ht. unfold accept_leader.
  set (n1 := if _ : bool then become_follower _ _ _ else n).
  assert (moves I n n1) as Hm by (unfold n1; case_match; [by apply moves_follow|done]).
  etrans; [exact Hm|]. apply moves_set_contact.
Qed.

Lemma moves_append_to_log I req n : moves I n (append_to_log req n).1.
Proof.
  unfold append_to_log. do 3 (case_match; [done|]).
  destruct (log_append_entries _ _ _) as [l r] eqn:Hl.
  assert (log_hs l = log_hs (rn_log n)) as Hhs.
  { change l with (l, r).1. rewrite <-Hl. apply log_append_entries_hs. }
  assert (moves I n (n {{ rn_log := l }})) as Hm by (by apply rtc_once, vm_log).
  destruct r; [|done]. simpl. etrans; [exact Hm|]. case N.ltb_spec; [|done]. intros Hc.
  apply moves_collect. lia.
Qed.

Lemma moves_append_entries I ev req n : moves I n (handle_append_entries ev req n).1.
Proof.
  unfold handle_append_entries. case N.ltb_spec; [done|]. intros Ht.
  etrans; [by apply (moves_accept_leader I ev req)|]. apply moves_append_to_log.
Qed.

Lemma moves_append_response I ev p resp n : moves I n (handle_append_entries_response ev p resp n).
Proof.
  unfold handle_append_entries_response. case N.ltb_spec; intros Ht; [apply moves_follow; lia|].
  do 2 (case_match; [done|]). case_match.
  { unfold handle_observer_response. destruct (rn_leader_state n) eqn:Hls; [|done].
    case_match; [by apply moves_same; rewrite ?Hls; [split|..]|].
    etrans; [|apply moves_send_observer]. by apply moves_same; rewrite ?Hls; [split|..]. }
  destruct (rn_leader_state n) as [leader|] eqn:Hls; [|done].
  set (n1 := n {{ rn_leader_state := Some (record_ack p leader) }}).
  assert (moves I n n1) as Hm by (by apply moves_same; rewrite ?Hls; [split|..]).
  etrans; [exact Hm|]. etrans; [apply (moves_voter I ev p resp)|].
  set (n2 := record_voter_contact ev p resp n1).
  destruct (rn_leader_state n2) as [leader2|] eqn:Hls2; [|done].
  etrans; [|apply moves_emit].
  assert (∀ ls, moves I n2 (n2 {{ rn_leader_state := Some ls }})) as Hset.
  { intros ls. by apply moves_same; rewrite ?Hls2; [split|..]. }
  assert (∀ ls ls', moves I n2 (n2 {{ rn_leader_state := Some ls; rn_leader_state := Some ls' }}))
    as Hset2.
  { intros ls ls'. by apply moves_same; rewrite ?Hls2; [split|..]. }
  case_match; [|case_match].
  - case_match; [|apply Hset2].
    etrans; [|apply moves_set_floor]. etrans; [|apply moves_try_advance]. apply Hset2.
  - case_match; [|apply Hset]. etrans; [apply Hset|apply moves_snapshot_needed].
  - etrans; [apply Hset2|apply moves_send].
Qed.

Lemma moves_request_vote I ev req n : moves I n (handle_request_vote ev req n).1.
Proof.
  unfold handle_request_vote, handle_request_vote_at. case_match; [done|].
  set (n1 := if _ : bool then become_follower _ _ _ else n).
  assert (moves I n n1) as Hm.
  { unfold n1. case N.ltb_spec; [|done]. intros ?. apply moves_follow. lia. }
  etrans; [exact Hm|]. clearbody n1. case_match; [done|].
  set (can := (_ || _) && _).
  assert (∀ r, rn_role n1 = r → is_voter_role r = true → can = true →
    moves I n1 (reset_election_timeout ev (persist_hard_state
      (n1 {{ rn_hard_state -> voted_for := rv_candidate_id req }})))) as Hvote.
  { intros r Hr Hv Hc. unfold can in Hc. apply andb_true_iff in Hc as [Hc _].
    apply orb_true_iff in Hc as [Hc%N.eqb_eq|Hc%N.eqb_eq];
    (apply rtc_once, (vm_vote _ _ _ (rv_candidate_id req));
       [by split|done|done|done|by rewrite Hr|by auto|done..]). }
  clearbody can. destruct (rn_role n1) eqn:Hr; try done;
    (destruct can eqn:Hcan; [exact (Hvote _ eq_refl eq_refl eq_refl)|done]).
Qed.

Lemma moves_vote_response ev p resp n :
  let op := OpRequestVoteResponse p resp in
  moves (op_inputs op) n (handle_request_vote_response ev p resp n).
Proof.
  intros op. unfold handle_request_vote_response.
  case N.ltb_spec; intros Ht; [apply moves_follow; lia|].
  case N.ltb_spec; intros Ht'; [done|].
  destruct (rn_role n) eqn:Hr; try done. destruct (rvr_vote_granted resp) eqn:Hg; [|done].
  set (n1 := n {{ rn_votes_received ::= _ }}).
  assert (moves (op_inputs op) n n1) as Hm.
  { apply rtc_once, (vm_count _ _ _ p); [done| |done]. simpl. split_and!; [done|lia|done]. }
  etrans; [exact Hm|]. case N.leb_spec; [|done]. intros Hq. by apply moves_become_leader.
Qed.

Lemma moves_pre_vote_response I ev p resp n :
  moves I n (handle_pre_vote_response ev p resp n).
Proof.
  unfold handle_pre_vote_response. case N.ltb_spec; intros Ht.
  { etrans; [|apply moves_set_pre_vote]. apply moves_follow. lia. }
  assert (∀ g, rn_role n = Follower ∨ rn_role n = Candidate →
    moves I n (start_election ev (n {{ rn_pre_vote := g; rn_pre_vote := None }}))) as Hstart.
  { intros g Hr. etrans; [|by apply moves_start_election].
    etrans; apply moves_set_pre_vote. }
  assert (∀ g, rn_role n = Learner ∨ rn_role n = Observer →
    moves I n (start_election ev (n {{ rn_pre_vote := g; rn_pre_vote := None }}))) as Hskip.
  { intros g Hr. unfold start_election. destruct Hr as [Hr|Hr]; simpl; rewrite Hr; same. }
  destruct (rn_role n) eqn:Hr; try done;
    (case_match; [|done]; case_match; [apply moves_set_pre_vote|]; case_match; [done|];
     case_match; [solve [apply Hstart; auto|apply Hskip; auto]|apply moves_set_pre_vote]).
Qed.

Lemma moves_save_durable I i n : moves I n (save_durable_applied_index i n).1.
Proof.
  unfold save_durable_applied_index. case N.leb_spec; [done|]. intros Hlt.
  destruct (save_applied_index _ _) as [s r] eqn:Hst.
  apply save_applied_index_spec in Hst as (_ & _ & _ & Hhs & _).
  destruct r; (apply moves_same; [split; simpl; try done; lia|done..]).
Qed.

Lemma moves_adopt_snapshot I i t n : moves I n (adopt_snapshot_boundary i t n).1.
Proof.
  unfold adopt_snapshot_boundary. case_match; [done|].
  set (lr := if _ : bool then apply_snapshot _ _ _ else _).
  assert (log_hs lr.1 = log_hs (rn_log n)) as Hhs.
  { unfold lr. case_match; [apply apply_snapshot_hs|done]. }
  destruct lr as [l [u|]]; simpl in Hhs; [|by apply rtc_once, vm_log].
  etrans; [|apply moves_save_durable]. etrans; [by apply rtc_once, (vm_log I l)|].
  set (n1 := n {{ rn_log := l }}). case_match;
  (apply moves_same; [split; unfold commit_of, applied_of; simpl; try done; lia|done..]).
Qed.

Lemma moves_install_snapshot I ev req n : moves I n (handle_install_snapshot ev req n).1.
Proof.
  unfold handle_install_snapshot. case_match; [done|].
  set (n1 := if _ : bool then become_follower _ _ _ else n).
  assert (moves I n n1) as Hm.
  { unfold n1. case N.ltb_spec; [|done]. intros ?. apply moves_follow. lia. }
  etrans; [exact Hm|]. clearbody n1.
  set (n2 := reset_election_timeout ev _).
  etrans; [apply (moves_hear I (is_leader_id req) ev)|]. fold n2.
  set (nr := if is_done req then _ else _).
  assert (moves I n2 nr.1) as Hn by (unfold nr; case_match; [apply moves_adopt_snapshot|done]).
  by destruct nr as [? []].
Qed.

Lemma moves_timeout_now I ev req n : moves I n (handle_timeout_now ev req n).
Proof.
  unfold handle_timeout_now. case_match eqn:Hg; [|done].
  apply andb_true_iff in Hg as [[Hr%bool_decide_eq_true _]%andb_true_iff _].
  etrans; [apply (moves_start_election I ev); auto|].
  apply moves_same; [by split|done..|]. simpl. unfold vote_keys. rewrite <-list_fmap_compose.
  apply list_fmap_ext. intros i [p v] _. simpl. by case_match.
Qed.

Lemma moves_transfer I ev target n : moves I n (transfer_leadership ev target n).1.
Proof.
  unfold transfer_leadership. repeat (case_match; try done).
  etrans; [|apply moves_emit]. same.
Qed.

Lemma moves_read_index I ev n : moves I n (start_read_index ev n).1.
Proof. unfold start_read_index. repeat (case_match; try done). apply moves_replicate. Qed.

Lemma moves_stand_down I ev n : moves I n (stand_down_for_snapshot ev n).
Proof.
  unfold stand_down_for_snapshot. destruct (rn_role n); try done.
  - same.
  - apply moves_follow. lia.
  - etrans; [|apply moves_follow; case_match; done]. case_match; [same|done].
Qed.

Lemma moves_set_replica ev r n :
  moves (op_inputs (OpSetReplica r)) n (set_replica_state ev r n).
Proof.
  unfold set_replica_state. eapply rtc_l; [by apply (vm_replica _ _ _ r)|].
  case_match; [apply moves_stand_down|done].
Qed.

Lemma moves_compact I i n : moves I n (compact_log_up_to i n).1.
Proof.
  unfold compact_log_up_to. set (up := match rn_compaction_ceiling n with Some _ => _ | None => _ end).
  do 2 (case_match; [done|]). case_match; [|done].
  destruct (apply_snapshot _ _ _) as [l r] eqn:Hl.
  assert (log_hs l = log_hs (rn_log n)) as Hhs.
  { change l with (l, r).1. rewrite <-Hl. apply apply_snapshot_hs. }
  by destruct r; apply rtc_once, vm_log.
Qed.

Lemma moves_maybe_compact I i n : moves I n (maybe_compact_log i n).1.
Proof. unfold maybe_compact_log. repeat (case_match; [done|]). case_match; [|done]. repeat (case_match; [done|]). apply moves_compact. Qed.

(** Every static operation runs the automaton, on the inputs it was given. *)
Lemma run_op_moves ev op n : moves (op_inputs op) n (run_op ev op n).
Proof.
  destruct op; simpl; try (same || done).
  - unfold on_storage_progress. case_match; [apply moves_try_advance|done].
  - apply moves_tick.
  - apply moves_propose.
  - apply moves_append_entries.
  - apply moves_append_response.
  - apply moves_request_vote.
  - apply moves_vote_response.
  - unfold handle_pre_vote, handle_pre_vote_at. by repeat case_match.
  - apply moves_pre_vote_response.
  - apply moves_install_snapshot.
  - apply moves_adopt_snapshot.
  - unfold record_snapshot_installed. destruct (rn_leader_state n) eqn:Hls; [|done].
    case_match; [|done]. by apply moves_same; rewrite ?Hls; [split|..].
  - apply moves_timeout_now.
  - apply moves_transfer.
  - apply moves_read_index.
  - apply moves_set_replica.
  - apply moves_same; [split; unfold applied_of; simpl; (done || lia)|done..].
  - apply moves_save_durable.
  - apply moves_compact.
  - apply moves_maybe_compact.
  - unfold notify_removed_peer. case_match; [done|apply moves_send].
Qed.
End runs.
