(* ===== verification/RaftNodeThms.v ===== *)
(** * Theorems about one Raft node

    Invariants over every sequence of operations the driver can run: terms
    and votes, watermarks, and roles. *)

From stdpp Require Import base list option gmap relations sorting.
From S2P Require Import Prelude RaftState RaftLog RaftLogFacts RaftNode RaftOps RaftRpc.
From S2P Require Import RaftNodeFacts RaftSteps.

Open Scope N_scope.

(** ** Runs of a node *)

(** Anything the driver does to a node: an operation, a membership change,
    writing the hard state through, or draining the outputs. *)
Inductive DriverOp : Type :=
  | DOp (op : NodeOp)
  | DMember (op : MemberOp)
  | DPersist
  | DDrain.

Section runs.
Context {S : Type} `{LogStorageSpec S}.
Implicit Types (n : RaftNode S) (ev : Env).

(** The end of a [MultiRaft::tick] round: the outputs are taken only once the
    hard state is written. *)
Definition drain n : RaftNode S * option Ready :=
  match persist_hard_state_if_dirty n with
  | (n, Ok _) => let '(n, r) := take_ready n in (n, Some r)
  | (n, Err _) => (n, None)
  end.

Definition run_driver_op (n : RaftNode S) (evop : Env * DriverOp) : RaftNode S :=
  match evop.2 with
  | DOp op => run_op evop.1 op n
  | DMember op => run_member_op op n
  | DPersist => (persist_hard_state_if_dirty n).1
  | DDrain => (drain n).1
  end.

Definition run (ops : list (Env * DriverOp)) n : RaftNode S := foldl run_driver_op n ops.

(** A relation every operation respects holds across a run. *)
Lemma run_preserves (R : relation (RaftNode S)) ops n :
  PreOrder R → (∀ n eo, eo ∈ ops → R n (run_driver_op n eo)) → R n (run ops n).
Proof.
  intros HR Hop. revert n. induction ops as [|eo ops IH]; intros n; simpl; [done|].
  etrans; [apply Hop; left|]. apply IH. intros n' eo' Hin. apply Hop. by right.
Qed.

Lemma run_invariant (P : RaftNode S → Prop) ops n :
  (∀ n eo, eo ∈ ops → P n → P (run_driver_op n eo)) → P n → P (run ops n).
Proof.
  revert n. induction ops as [|eo ops IH]; intros n Hop HP; simpl; [done|].
  apply IH; [|apply Hop; [left|done]]. intros n' eo' Hin. apply Hop. by right.
Qed.

Lemma moves_preserve I (P : RaftNode S → Prop) n n' :
  (∀ m m', vote_move I m m' → P m → P m') → moves I n n' → P n → P n'.
Proof. intros Hstep Hm. induction Hm; eauto. Qed.

Lemma moves_rel I (R : relation (RaftNode S)) n n' :
  PreOrder R → (∀ m m', vote_move I m m' → R m m') → moves I n n' → R n n'.
Proof. intros HR Hstep Hm. induction Hm as [|n1 n2 n3 H1 _ IH]; [done|]. etrans; eauto. Qed.

(** ** Terms and votes *)

Lemma vote_move_hs I n n' : vote_move I n n' → hs_le (rn_hard_state n) (rn_hard_state n').
Proof.
  destruct 1; subst; unfold term_of in *; try done;
    match goal with Hhs : rn_hard_state _ = _ |- _ => rewrite Hhs end; try done.
  - unfold hs_le. simpl. case N.ltb_spec; intros; [by left|]. right. split; [lia|auto].
  - left. simpl. lia.
  - right. simpl. split; [done|tauto].
Qed.

Lemma member_op_frame op n :
  rn_hard_state (run_member_op op n) = rn_hard_state n ∧
  rn_volatile (run_member_op op n) = rn_volatile n ∧
  rn_durable_applied (run_member_op op n) = rn_durable_applied n ∧
  rn_ready (run_member_op op n) = rn_ready n ∧
  rn_log (run_member_op op n) = rn_log n ∧
  rn_replica (run_member_op op n) = rn_replica n ∧
  (is_Some (rn_leader_state (run_member_op op n)) ↔ is_Some (rn_leader_state n)) ∧
  (rn_role (run_member_op op n) = rn_role n ∨
   rn_role n = Learner ∧ rn_role (run_member_op op n) = Follower).
Proof.
  destruct op; simpl; unfold add_peer, remove_peer, add_learner, remove_learner,
    promote_learner, promote_self_to_voter, set_voters;
    repeat case_match; simpl; rewrite ?fmap_is_Some; auto 10.
Qed.

Lemma persist_frame n :
  rn_hard_state (persist_hard_state_if_dirty n).1 = rn_hard_state n ∧
  rn_volatile (persist_hard_state_if_dirty n).1 = rn_volatile n ∧
  rn_durable_applied (persist_hard_state_if_dirty n).1 = rn_durable_applied n ∧
  rn_role (persist_hard_state_if_dirty n).1 = rn_role n ∧
  rn_replica (persist_hard_state_if_dirty n).1 = rn_replica n ∧
  rn_leader_state (persist_hard_state_if_dirty n).1 = rn_leader_state n ∧
  rn_config (persist_hard_state_if_dirty n).1 = rn_config n ∧
  rn_votes_received (persist_hard_state_if_dirty n).1 = rn_votes_received n ∧
  rd_vote_requests (rn_ready (persist_hard_state_if_dirty n).1) = rd_vote_requests (rn_ready n).
Proof.
  unfold persist_hard_state_if_dirty. case_match; [|done].
  by destruct (save_hard_state _ _) as [s []].
Qed.

Lemma drain_frame n :
  rn_hard_state (drain n).1 = rn_hard_state n ∧
  rn_volatile (drain n).1 = rn_volatile n ∧
  rn_durable_applied (drain n).1 = rn_durable_applied n ∧
  rn_role (drain n).1 = rn_role n ∧
  rn_replica (drain n).1 = rn_replica n ∧
  rn_leader_state (drain n).1 = rn_leader_state n.
Proof.
  pose proof (persist_frame n) as Hp. unfold drain.
  destruct (persist_hard_state_if_dirty n) as [n1 []]; naive_solver.
Qed.

Lemma driver_op_hs n eo : hs_le (rn_hard_state n) (rn_hard_state (run_driver_op n eo)).
Proof.
  destruct eo as [ev [op|op| |]]; unfold run_driver_op; simpl.
  - eapply (moves_rel _ (λ a b, hs_le (rn_hard_state a) (rn_hard_state b)));
      [|apply vote_move_hs|apply run_op_moves].
    split; [by intros ?|intros ???; apply transitivity].
  - by rewrite (proj1 (member_op_frame op n)).
  - by rewrite (proj1 (persist_frame n)).
  - by rewrite (proj1 (drain_frame n)).
Qed.

Lemma run_hs ops n : hs_le (rn_hard_state n) (rn_hard_state (run ops n)).
Proof.
  apply (run_preserves (λ a b, hs_le (rn_hard_state a) (rn_hard_state b)));
    [split; [by intros ?|intros ???; apply transitivity]|].
  intros. apply driver_op_hs.
Qed.

Lemma run_term ops n : term_of n ≤ term_of (run ops n).
Proof. unfold term_of. destruct (run_hs ops n) as [?|[? _]]; lia. Qed.

Lemma run_app ops1 ops2 n : run (ops1 ++ ops2) n = run ops2 (run ops1 n).
Proof. apply foldl_app. Qed.

(** Whatever operations run, in whatever order and with whatever
    messages, a node's term never goes down, and within one term a vote once
    cast is never changed or withdrawn. *)
Theorem one_vote_per_term ops n :
  term_of n ≤ term_of (run ops n) ∧
  (term_of (run ops n) = term_of n → voted_for (rn_hard_state n) ≠ 0 →
   voted_for (rn_hard_state (run ops n)) = voted_for (rn_hard_state n)).
Proof.
  unfold term_of. destruct (run_hs ops n) as [?|[? Hv]]; [lia|]. split; [lia|]. intros _ ?. by destruct Hv.
Qed.

(** ** Watermarks *)

Definition watermarks_le n n' : Prop :=
  commit_of n ≤ commit_of n' ∧ applied_of n ≤ applied_of n' ∧
  rn_durable_applied n ≤ rn_durable_applied n'.

#[local] Instance watermarks_preorder : PreOrder watermarks_le.
Proof. split; [by intros ?|]. unfold watermarks_le. intros ???. lia. Qed.

Lemma driver_op_watermarks n eo : watermarks_le n (run_driver_op n eo).
Proof.
  destruct eo as [ev [op|op| |]]; unfold run_driver_op; simpl.
  - eapply moves_rel; [apply _| |apply run_op_moves].
    by intros m m' [_ _ ? ? ?]%vote_move_frame.
  - destruct (member_op_frame op n) as (_ & Hv & Hd & _).
    unfold watermarks_le, commit_of, applied_of. by rewrite Hv, Hd.
  - destruct (persist_frame n) as (_ & Hv & Hd & _).
    unfold watermarks_le, commit_of, applied_of. by rewrite Hv, Hd.
  - destruct (drain_frame n) as (_ & Hv & Hd & _).
    unfold watermarks_le, commit_of, applied_of. by rewrite Hv, Hd.
Qed.

(** The commit index, the delivery watermark and the durable applied
    floor never go down, whatever operations run. *)
Theorem watermarks_monotone ops n : watermarks_le n (run ops n).
Proof. apply run_preserves; [apply _|]. intros. apply driver_op_watermarks. Qed.

(** ** Roles *)

(** The leader's table exists exactly while the node leads, and a replica
    whose data diverged neither campaigns nor leads. *)
Definition role_ok n : Prop :=
  (rn_role n = Leader ↔ is_Some (rn_leader_state n)) ∧
  (may_lead (rn_replica n) = false → rn_role n ≠ Candidate ∧ rn_role n ≠ Leader).

Lemma role_ok_ext n n' :
  rn_role n' = rn_role n → rn_replica n' = rn_replica n →
  (is_Some (rn_leader_state n') ↔ is_Some (rn_leader_state n)) → role_ok n → role_ok n'.
Proof. unfold role_ok. intros -> -> ->. done. Qed.

Lemma demote_ok r : demote r ≠ Candidate ∧ demote r ≠ Leader.
Proof. by destruct r. Qed.

(** Without a replica input every move keeps roles consistent. *)
Lemma vote_move_role I n n' :
  (∀ r, ¬ in_replica I r) → vote_move I n n' → role_ok n → role_ok n'.
Proof.
  intros HI Hm Hok. destruct Hm as
    [_ Hrep Hrole Hls _ _ _ _|r Hin _|t _ Hrep Hrole Hls _ _ _ _ _
    |_ Hrep Hr Hrole Hlead Hls _ _ _ _|c _ Hrep Hrole Hls _ _ _ _ _ _
    |p Hr _ ->|_ Hrep Hr Hrole Hls _ _ _ _ _].
  - by eapply role_ok_ext.
  - by destruct (HI r).
  - unfold role_ok. rewrite Hrole, Hls. pose proof (demote_ok (rn_role n)) as [? ?].
    split; [|done]. split; [done|by intros [? ?]].
  - destruct Hok as [Hl _]. unfold role_ok. rewrite Hrole, Hls, Hrep, Hlead, <-Hl.
    split; [|done]. by destruct Hr as [-> | ->].
  - eapply role_ok_ext; [done..| |done]. by rewrite Hls.
  - done.
  - destruct Hok as [_ Hw]. unfold role_ok. rewrite Hrole, Hrep. split; [done|].
    intros Hr'. by destruct (Hw Hr').
Qed.

Lemma become_follower_role ev t n : role_ok (become_follower ev t n).
Proof.
  assert (rn_role (become_follower ev t n) = demote (rn_role n)) as Hrole.
  { unfold become_follower. by destruct (rn_role n) eqn:Hr; simpl; case_match. }
  unfold role_ok. rewrite Hrole. pose proof (demote_ok (rn_role n)) as [? ?].
  split; [|done]. split; [done|by intros [? ?]].
Qed.

Lemma set_replica_role ev r n : role_ok n → role_ok (set_replica_state ev r n).
Proof.
  intros [Hl Hw]. unfold set_replica_state. destruct (may_lead r) eqn:Hr; simpl.
  { split; [done|]. simpl. congruence. }
  unfold stand_down_for_snapshot. simpl.
  destruct (rn_role n) eqn:Hrole; try apply become_follower_role;
    (split; simpl; rewrite Hrole; [by rewrite <-Hl|done]).
Qed.

Lemma driver_op_role n eo : role_ok n → role_ok (run_driver_op n eo).
Proof.
  intros Hok. destruct eo as [ev [op|op| |]]; unfold run_driver_op; simpl.
  - assert ((∃ r, op = OpSetReplica r) ∨ ∀ r, op ≠ OpSetReplica r) as [[r ->]|Hne].
    { destruct op; first [by right|left; by eexists]. }
    + by apply set_replica_role.
    + eapply moves_preserve; [|apply run_op_moves|done].
      intros m m'. by apply vote_move_role.
  - destruct (member_op_frame op n) as (_ & _ & _ & _ & _ & Hrep & Hls & Hrole).
    destruct Hok as [Hl Hw]. unfold role_ok. rewrite Hrep, Hls.
    destruct Hrole as [->|[Hn ->]]; [done|]. rewrite Hn in *. naive_solver.
  - destruct (persist_frame n) as (_ & _ & _ & ? & ? & Hls & _).
    by eapply role_ok_ext; [..|rewrite Hls|exact Hok].
  - destruct (drain_frame n) as (_ & _ & _ & ? & ? & Hls).
    by eapply role_ok_ext; [..|rewrite Hls|exact Hok].
Qed.

(** From boot on, whatever operations run: the node holds a leader's
    replication table exactly while its role is leader, and a replica whose
    data diverged ([AwaitingSnapshot]) is neither candidate nor leader. *)
Theorem roles_consistent ev config storage ops :
  role_ok (run ops (node_new ev config storage)).
Proof.
  apply run_invariant; [intros; by apply driver_op_role|].
  split; simpl; [|done]. repeat case_match; (split; [done|by intros [? ?]]).
Qed.
End runs.
