(* ===== verification/RaftDurability.v ===== *)
(** * Durable state of one Raft node

    What a node's operations do to its log and storage: every change is one
    of four log steps, and each keeps the storage an exact image of the log
    and the applied floor. The hard state in storage is never ahead of the
    node's and equals it once written. *)

From stdpp Require Import base list option gmap relations.
From S2P Require Import Prelude RaftState RaftLog RaftLogFacts RaftNode RaftOps RaftRpc.
From S2P Require Import RaftNodeFacts RaftSteps RaftNodeThms.

Open Scope N_scope.

Section durability.
Context {S : Type} `{LogStorageSpec S}.
Implicit Types (n : RaftNode S) (l : RaftLog S) (ev : Env) (d : u64).

(** ** Log steps *)

(** The ways an operation changes the log and the durable applied floor. *)
Inductive log_step : relation (RaftLog S * u64) :=
  | step_append e l d :
      e_index e = last_index l + 1 → log_step (l, d) ((log_append e l).1, d)
  | step_entries prev es l d :
      contiguous prev es → prev ≤ last_index l →
      log_step (l, d) ((log_append_entries prev es l).1, d)
  | step_snapshot i t l d : log_step (l, d) ((apply_snapshot i t l).1, d)
  | step_applied i s r l d :
      save_applied_index i (lg_storage l) = (s, r) →
      log_step (l, d) (l {{ lg_storage := s }}, if is_ok r then i else d).

Definition log_steps : relation (RaftLog S * u64) := rtc log_step.

#[local] Instance log_steps_refl : Reflexive log_steps.
Proof. unfold log_steps. apply _. Qed.

#[local] Instance log_steps_trans : Transitive log_steps.
Proof. unfold log_steps. apply _. Qed.

Definition log_view n : RaftLog S * u64 := (rn_log n, rn_durable_applied n).

Lemma view_log n n' : log_view n' = log_view n → rn_log n' = rn_log n.
Proof. by intros [= ? ?]. Qed.

(** A well-formed message or request: entries come as a run after [prev], and
    a batch handed back was taken from this node. *)
Definition op_wf (op : NodeOp) n : Prop :=
  match op with
  | OpAppendEntries req => contiguous (ae_prev_log_index req) (ae_entries req)
  | OpRequeue batch => ∃ base, contiguous base batch ∧ base ≤ applied_of n
  | _ => True
  end.

(** ** Operations that leave the log alone *)

Lemma touched_view P n n' : touched P n n' → log_view n' = log_view n.
Proof. by intros (t & -> & _)%touched_inv. Qed.

Lemma become_follower_view ev t n : log_view (become_follower ev t n) = log_view n.
Proof. unfold become_follower. by destruct (rn_role n); simpl; case_match. Qed.

Lemma replicate_view ev n : log_view (replicate_to_all ev n) = log_view n.
Proof. eapply touched_view, touched_replicate. Qed.

Lemma try_advance_view n : log_view (try_advance_commit_index n) = log_view n.
Proof. eapply touched_view, touched_try_advance. Qed.

Lemma set_pre_vote_view g n : log_view (n {{ rn_pre_vote := g }}) = log_view n.
Proof. done. Qed.

Lemma set_floor_view f n : log_view (n {{ rn_replicated_floor := f }}) = log_view n.
Proof. done. Qed.

Lemma set_heartbeat_view d n : log_view (n {{ rn_heartbeat_deadline := d }}) = log_view n.
Proof. done. Qed.

(** ** Operations that write it *)

Lemma become_leader_steps ev n : log_steps (log_view n) (log_view (become_leader ev n)).
Proof.
  unfold become_leader. rewrite replicate_view.
  set (n1 := n {{ rn_role := Leader; rn_leader_id := _ }}).
  set (n2 := n1 {{ rn_leader_state := Some _ }}).
  set (n3 := arm_quorum_window _ n2).
  set (noop := MkLogEntry _ _ _).
  set (n4 := n3 {{ rn_log := _ }} {{ rn_term_start_index := Some _ }}).
  assert (log_steps (log_view n) (log_view n4)) as Hs.
  { apply rtc_once. exact (step_append noop (rn_log n) (rn_durable_applied n) eq_refl). }
  case_match; [by rewrite try_advance_view|done].
Qed.

Lemma start_election_steps ev n : log_steps (log_view n) (log_view (start_election ev n)).
Proof.
  assert (log_steps (log_view n) (log_view n)) by done.
  unfold start_election. destruct (may_lead (rn_replica n)); [|by destruct (rn_role n)].
  set (m := match peers _ with [] => _ | _ :: _ => _ end).
  enough (log_steps (log_view n) (log_view m)) by (by destruct (rn_role n)). subst m.
  case_match; [|done]. etrans; [|apply become_leader_steps]. done.
Qed.

Lemma start_pre_election_steps ev n :
  log_steps (log_view n) (log_view (start_pre_election ev n)).
Proof.
  assert (log_steps (log_view n) (log_view n)) by done.
  unfold start_pre_election. destruct (may_lead (rn_replica n)); [|by destruct (rn_role n)].
  pose proof (start_election_steps ev n). destruct (peers (rn_config n)), (rn_role n); done.
Qed.

Lemma tick_steps ev n : log_steps (log_view n) (log_view (tick ev n)).
Proof.
  unfold tick. destruct (rn_role n) eqn:Hr; try done.
  1,2: case_match; [apply start_pre_election_steps|done].
  set (n1 := match rn_leadership_transfer n with Some _ => _ | None => _ end).
  assert (log_view (refresh_quorum_contact (env_now ev) n1) = log_view n) as Hv.
  { rewrite (touched_view _ _ _ (touched_refresh _ n1)). unfold n1. by repeat case_match. }
  rewrite <-Hv. case_match; [by rewrite become_follower_view|]. case_match; [|done].
  by rewrite set_heartbeat_view, replicate_view.
Qed.

Lemma propose_steps ev data n : log_steps (log_view n) (log_view (propose ev data n).1).
Proof.
  unfold propose. case_match; try done. case_match; [done|].
  set (e := MkLogEntry _ _ _).
  pose proof (step_append e (rn_log n) (rn_durable_applied n) eq_refl) as Hs.
  destruct (log_append e (rn_log n)) as [l r].
  destruct r; simpl in *; [|by apply rtc_once].
  case_match; rewrite ?try_advance_view, replicate_view; by apply rtc_once.
Qed.

Lemma prev_log_matches_last n req :
  log_wf (rn_log n) → prev_log_matches n req = true →
  ae_prev_log_index req ≤ last_index (rn_log n).
Proof.
  intros Hwf. unfold prev_log_matches. case N.ltb_spec; [|lia]. intros _.
  unfold term_at. case N.eqb_spec; [lia|]. intros _. case N.eqb_spec; [intros ->|intros _].
  { rewrite (last_index_wf _ Hwf). lia. }
  case N.ltb_spec; [done|]. intros _.
  destruct (entry_at _ _) eqn:He; [|done]. apply (entry_at_Some_wf _ _ _ Hwf) in He. lia.
Qed.

Lemma hear_view id ev n :
  log_view (reset_election_timeout ev (n {{ rn_leader_id := id }})) = log_view n.
Proof. done. Qed.

Lemma set_contact_view f c n :
  log_view (n {{ rn_replicated_floor ::= f; rn_leader_contact := c }}) = log_view n.
Proof. done. Qed.

Lemma accept_leader_view ev req n : log_view (accept_leader ev req n) = log_view n.
Proof.
  unfold accept_leader. rewrite set_contact_view, hear_view.
  case_match; [apply become_follower_view|done].
Qed.

Lemma append_to_log_steps req n :
  log_wf (rn_log n) → contiguous (ae_prev_log_index req) (ae_entries req) →
  log_steps (log_view n) (log_view (append_to_log req n).1).
Proof.
  intros Hwf Hc. unfold append_to_log. do 2 (case_match; [done|]).
  case_match eqn:Hp; [done|]. apply negb_false_iff, prev_log_matches_last in Hp; [|done].
  pose proof (step_entries _ _ _ (rn_durable_applied n) Hc Hp) as Hs.
  destruct (log_append_entries _ _ _) as [l r].
  destruct r; simpl in *; [|by apply rtc_once].
  case_match eqn:Hcm; [|by apply rtc_once].
  rewrite (touched_view _ _ _ (touched_collect (n {{ rn_log := l }}) _
    (N.lt_le_incl _ _ (proj1 (N.ltb_lt _ _) Hcm)))). by apply rtc_once.
Qed.

Lemma append_entries_steps ev req n :
  log_wf (rn_log n) → contiguous (ae_prev_log_index req) (ae_entries req) →
  log_steps (log_view n) (log_view (handle_append_entries ev req n).1).
Proof.
  intros Hwf Hc. unfold handle_append_entries. case_match; [done|].
  rewrite <-(accept_leader_view ev req n). apply append_to_log_steps; [|done].
  by rewrite (view_log _ _ (accept_leader_view ev req n)).
Qed.

Lemma append_response_view ev p resp n :
  log_view (handle_append_entries_response ev p resp n) = log_view n.
Proof.
  unfold handle_append_entries_response. case_match; [apply become_follower_view|].
  do 2 (case_match; [done|]). case_match.
  { unfold handle_observer_response. case_match; [|done]. case_match; [done|].
    by rewrite (touched_view _ _ _ (touched_send_observer ev p _)). }
  case_match; [|done].
  set (n1 := n {{ rn_leader_state := Some _ }}).
  pose proof (touched_view _ _ _ (touched_voter ev p resp n1)) as Hv.
  change (log_view n1) with (log_view n) in Hv. rewrite <-Hv.
  set (n2 := record_voter_contact ev p resp n1). clearbody n2. case_match; [|done].
  rewrite (touched_view _ _ _ (touched_emit _)).
  case_match; [case_match; [|done]|case_match; [by case_match|]].
  - by rewrite set_floor_view, try_advance_view.
  - by rewrite (touched_view _ _ _ (touched_send ev p _)).
Qed.

Lemma request_vote_view ev req n : log_view (handle_request_vote ev req n).1 = log_view n.
Proof.
  unfold handle_request_vote, handle_request_vote_at. case_match; [done|].
  set (n1 := if _ : bool then become_follower _ _ _ else n).
  assert (log_view n1 = log_view n) as Hv.
  { unfold n1. case_match; [apply become_follower_view|done]. }
  rewrite <-Hv. clearbody n1. by repeat case_match.
Qed.

Lemma vote_response_steps ev p resp n :
  log_steps (log_view n) (log_view (handle_request_vote_response ev p resp n)).
Proof.
  unfold handle_request_vote_response. case_match; [by rewrite become_follower_view|].
  case_match; [done|]. case_match; try done. case_match; [|done]. case_match; [|done].
  etrans; [|apply become_leader_steps]. done.
Qed.

Lemma pre_vote_response_steps ev p resp n :
  log_steps (log_view n) (log_view (handle_pre_vote_response ev p resp n)).
Proof.
  unfold handle_pre_vote_response. case_match.
  { by rewrite set_pre_vote_view, become_follower_view. }
  assert (∀ g, log_steps (log_view n)
    (log_view (start_election ev (n {{ rn_pre_vote := g; rn_pre_vote := None }})))) as Hs.
  { intros g. etrans; [|apply start_election_steps]. done. }
  destruct (rn_role n); try done;
    (case_match; [|done]; do 2 (case_match; [done|]); case_match; [apply Hs|done]).
Qed.

Lemma save_durable_steps i n :
  log_steps (log_view n) (log_view (save_durable_applied_index i n).1).
Proof.
  unfold save_durable_applied_index. case_match; [done|].
  destruct (save_applied_index _ _) as [s r] eqn:Hst.
  pose proof (step_applied _ _ _ _ (rn_durable_applied n) Hst) as Hs.
  destruct r; by apply rtc_once.
Qed.

Lemma adopt_snapshot_steps i t n :
  log_steps (log_view n) (log_view (adopt_snapshot_boundary i t n).1).
Proof.
  unfold adopt_snapshot_boundary. case_match; [done|].
  set (lr := if _ : bool then apply_snapshot _ _ _ else _).
  assert (log_steps (log_view n) (lr.1, rn_durable_applied n)) as Hs.
  { unfold lr. case_match; [apply rtc_once, step_snapshot|done]. }
  destruct lr as [l [u|]]; simpl in Hs; [|done].
  etrans; [|apply save_durable_steps]. case_match; done.
Qed.

Lemma install_snapshot_steps ev req n :
  log_steps (log_view n) (log_view (handle_install_snapshot ev req n).1).
Proof.
  unfold handle_install_snapshot. case_match; [done|].
  set (n1 := if _ : bool then become_follower _ _ _ else n).
  assert (log_view n1 = log_view n) as Hv.
  { unfold n1. case_match; [apply become_follower_view|done]. }
  rewrite <-Hv, <-(hear_view (is_leader_id req) ev n1). clearbody n1.
  set (n2 := reset_election_timeout ev _).
  set (nr := if is_done req then _ else _).
  assert (log_steps (log_view n2) (log_view nr.1)) as Hn.
  { unfold nr. case_match; [apply adopt_snapshot_steps|done]. }
  by destruct nr as [? []].
Qed.

Lemma compact_steps i n : log_steps (log_view n) (log_view (compact_log_up_to i n).1).
Proof.
  unfold compact_log_up_to.
  set (up := match rn_compaction_ceiling n with Some _ => _ | None => _ end).
  do 2 (case_match; [done|]). destruct (term_at _ _) as [t|]; [|done].
  pose proof (step_snapshot up t (rn_log n) (rn_durable_applied n)) as Hs.
  destruct (apply_snapshot _ _ _) as [l []]; by apply rtc_once.
Qed.

Lemma run_op_log_steps ev op n :
  log_wf (rn_log n) → op_wf op n → log_steps (log_view n) (log_view (run_op ev op n)).
Proof.
  intros Hwf Hop. destruct op; simpl; try done.
  - unfold on_storage_progress. case_match; [by rewrite try_advance_view|done].
  - apply tick_steps.
  - apply propose_steps.
  - by apply append_entries_steps.
  - by rewrite append_response_view.
  - by rewrite request_vote_view.
  - apply vote_response_steps.
  - unfold handle_pre_vote, handle_pre_vote_at. by repeat case_match.
  - apply pre_vote_response_steps.
  - apply install_snapshot_steps.
  - apply adopt_snapshot_steps.
  - unfold record_snapshot_installed. by repeat case_match.
  - unfold handle_timeout_now. case_match; [|done]. etrans; [apply (start_election_steps ev)|done].
  - unfold transfer_leadership. repeat (case_match; try done). simpl.
    by rewrite (touched_view _ _ _ (touched_emit _)).
  - unfold start_read_index. repeat (case_match; try done). simpl. by rewrite replicate_view.
  - unfold set_replica_state. case_match; [|done]. unfold stand_down_for_snapshot.
    repeat case_match; rewrite ?become_follower_view; done.
  - apply save_durable_steps.
  - apply compact_steps.
  - unfold maybe_compact_log. case_match; [|done]. do 2 (case_match; [done|]). apply compact_steps.
  - unfold notify_removed_peer. case_match; [done|].
    by rewrite (touched_view _ _ _ (touched_send ev _ _)).
Qed.

(** ** Storage holds the durable state *)

Definition durable_ok (ld : RaftLog S * u64) : Prop :=
  log_wf ld.1 ∧ mirrors ld.1 ∧ load_applied_index (lg_storage ld.1) = Ok ld.2.

Lemma log_append_same e l l' err :
  log_append e l = (l', Err err) → lg_entries l' = lg_entries l ∧
  lg_snapshot_index l' = lg_snapshot_index l.
Proof. unfold log_append. destruct (storage_append _ _) as [s []]; [done|]. by intros [= <-]. Qed.

Lemma log_append_wf_any e l :
  log_wf l → e_index e = last_index l + 1 → log_wf (log_append e l).1.
Proof.
  intros Hwf He. destruct (log_append e l) as [l' [[]|]] eqn:Hl; simpl.
  - exact (proj1 (log_append_wf _ _ _ Hwf He Hl)).
  - apply log_append_same in Hl as [He' Hs']. unfold log_wf. by rewrite He', Hs'.
Qed.

Lemma truncate_from_wf i l l' r : log_wf l → truncate_from i l = (l', r) → log_wf l'.
Proof.
  unfold truncate_from. case_match; [by intros ? [= <- <-]|].
  destruct (storage_truncate _ _) as [s []]; intros Hwf [= <- <-]; [|done].
  by apply contiguous_take.
Qed.

Lemma log_append_entries_wf_any prev es l l' r :
  log_wf l → contiguous prev es → prev ≤ last_index l →
  log_append_entries prev es l = (l', r) → log_wf l'.
Proof.
  intros Hwf Hc Hp Happ. destruct r as [w|err]; [by eapply log_append_entries_wf|].
  revert Happ. unfold log_append_entries. case_match; [|done].
  set (c := match head _ with Some _ => _ | None => _ end).
  set (lr := match c with Some i => truncate_from i l | None => (l, Ok tt) end).
  assert (log_wf lr.1) as Hwf'.
  { unfold lr. destruct c as [i|]; [|done].
    destruct (truncate_from i l) as [l1 r1] eqn:Ht. by eapply truncate_from_wf. }
  destruct lr as [l1 [u|]]; [|by intros [= <- _]].
  destruct (storage_append _ _) as [s []]; [done|]. by intros [= <- _].
Qed.

Lemma apply_snapshot_wf i t l l' r : log_wf l → apply_snapshot i t l = (l', r) → log_wf l'.
Proof.
  intros Hwf Happ. destruct (decide (i ≤ lg_snapshot_index l)) as [Hle|Hlt].
  { unfold apply_snapshot in Happ. rewrite (proj2 (N.leb_le _ _) Hle) in Happ. by injection Happ as <- _. }
  destruct r as [[]|err]; [eapply apply_snapshot_ok; [done..|lia]|].
  revert Happ. unfold apply_snapshot. case_match; [by intros [= <-]|].
  destruct (storage_compact _ _ _) as [s []]; [done|]. by intros [= <- _].
Qed.

Lemma log_append_applied e l l' r :
  log_append e l = (l', r) →
  load_applied_index (lg_storage l') = load_applied_index (lg_storage l).
Proof.
  unfold log_append. destruct (storage_append _ _) as [s r0] eqn:Hst.
  apply append_meta in Hst as [_ Hst]. by destruct r0; intros [= <- _].
Qed.

Lemma log_append_entries_applied prev es l l' r :
  log_append_entries prev es l = (l', r) →
  load_applied_index (lg_storage l') = load_applied_index (lg_storage l).
Proof.
  unfold log_append_entries. case_match; [|by intros [= <- _]].
  set (c := match head _ with Some _ => _ | None => _ end).
  set (lr := match c with Some i => truncate_from i l | None => (l, Ok tt) end).
  assert (load_applied_index (lg_storage lr.1) = load_applied_index (lg_storage l)) as Hl.
  { unfold lr. destruct c as [i|]; [|done]. unfold truncate_from. case_match; [done|].
    destruct (storage_truncate _ _) as [s r0] eqn:Hst. apply truncate_meta in Hst as [_ Hst].
    by destruct r0. }
  destruct lr as [l1 [u|]]; [|by intros [= <- _]].
  destruct (storage_append _ _) as [s r0] eqn:Hst. apply append_meta in Hst as [_ Hst].
  simpl in Hl. rewrite <-Hl. by destruct r0; intros [= <- _].
Qed.

Lemma apply_snapshot_applied i t l l' r :
  apply_snapshot i t l = (l', r) →
  load_applied_index (lg_storage l') = load_applied_index (lg_storage l).
Proof.
  unfold apply_snapshot. case_match; [by intros [= <- _]|].
  destruct (storage_compact _ _ _) as [s r0] eqn:Hst. apply compact_meta in Hst as [_ Hst].
  by destruct r0; intros [= <- _].
Qed.

Lemma log_step_durable ld ld' : log_step ld ld' → durable_ok ld → durable_ok ld'.
Proof.
  unfold durable_ok. destruct 1 as [e l d He|prev es l d Hc Hp|i t l d|i s r l d Hst];
    simpl; intros (Hwf & Hmi & Ha).
  - split; [by apply log_append_wf_any|]. destruct (log_append e l) as [l' r] eqn:Hl. simpl.
    split; [by eapply mirrors_append|by rewrite (log_append_applied _ _ _ _ Hl)].
  - destruct (log_append_entries prev es l) as [l' r] eqn:Hl. simpl.
    split_and!; [exact (log_append_entries_wf_any _ _ _ _ _ Hwf Hc Hp Hl)
      |exact (mirrors_append_entries_any _ _ _ _ _ Hmi Hwf Hc Hp Hl)|].
    by rewrite (log_append_entries_applied _ _ _ _ _ Hl).
  - destruct (apply_snapshot i t l) as [l' r] eqn:Hl. simpl.
    split_and!; [exact (apply_snapshot_wf _ _ _ _ _ Hwf Hl)
      |exact (mirrors_apply_snapshot _ _ _ _ _ Hmi Hwf Hl)|].
    by rewrite (apply_snapshot_applied _ _ _ _ _ Hl).
  - apply save_applied_index_spec in Hst as (Hok & Hm & Hl & _ & Happ).
    destruct Hmi as (Hok0 & Hm0 & Hl0). split_and!; [done| |].
    + unfold mirrors. simpl. rewrite Hm, Hl. auto.
    + simpl. rewrite Happ. by destruct r.
Qed.

Lemma log_steps_durable ld ld' : log_steps ld ld' → durable_ok ld → durable_ok ld'.
Proof. induction 1; eauto using log_step_durable. Qed.

(** The stored hard state is never ahead of the node's, and equals it unless
    the node has marked it for writing. *)
Definition hs_stored n : Prop :=
  ∃ h, stored_hs n = Ok h ∧ hs_le h (rn_hard_state n) ∧
    (rd_hard_state (rn_ready n) = None → h = rn_hard_state n).

Lemma vote_move_stored I n n' : vote_move I n n' → hs_stored n → hs_stored n'.
Proof.
  intros Hm (h & Hh & Hle & Hd). exists h.
  rewrite (fr_stored _ _ (vote_move_frame _ _ _ Hm)).
  pose proof (vote_move_hs _ _ _ Hm) as Hle'. split_and!; [done|by etrans|].
  destruct Hm; subst; simpl; try congruence; intros; rewrite Hd; congruence.
Qed.

Lemma persist_stored n :
  hs_stored n →
  hs_stored (persist_hard_state_if_dirty n).1 ∧
  ((persist_hard_state_if_dirty n).2 = Ok tt →
   stored_hs (persist_hard_state_if_dirty n).1 = Ok (rn_hard_state n)).
Proof.
  intros (h & Hh & Hle & Hd). unfold persist_hard_state_if_dirty.
  destruct (rd_hard_state (rn_ready n)) as [x|] eqn:Hx.
  2: { specialize (Hd eq_refl). subst h. split; [by exists (rn_hard_state n)|done]. }
  destruct (save_hard_state _ _) as [s r] eqn:Hst.
  apply save_hard_state_spec in Hst as (_ & _ & _ & _ & Hl). destruct r; simpl in *.
  - split; [|by intros _]. exists (rn_hard_state n). by split_and!.
  - split; [|done]. exists h. unfold stored_hs in *. simpl. rewrite Hl, Hx. by split_and!.
Qed.

Lemma persist_log_view n :
  durable_ok (log_view n) → durable_ok (log_view (persist_hard_state_if_dirty n).1).
Proof.
  unfold durable_ok, persist_hard_state_if_dirty. intros (Hwf & (Hok & Hm & Hl) & Ha).
  case_match; [|done]. destruct (save_hard_state _ _) as [s r] eqn:Hst.
  apply save_hard_state_spec in Hst as (Hok' & Hm' & Hl' & Ha' & _). unfold mirrors.
  destruct r; simpl in *; rewrite Hm', Hl', Ha'; auto.
Qed.
End durability.
