(* ===== verification/RaftDelivery.v ===== *)
(** * Delivery of committed entries, and restart

    The queue of committed entries a node hands to its state machine, the
    invariant of a whole node over every run of operations, and what a
    restart recovers. *)

From stdpp Require Import base list option gmap relations.
From S2P Require Import Prelude RaftState RaftLog RaftLogFacts RaftNode RaftOps RaftRpc.
From S2P Require Import RaftNodeFacts RaftSteps RaftNodeThms RaftDurability.

Open Scope N_scope.

Section delivery.
Context {S : Type} `{LogStorageSpec S}.
Implicit Types (n : RaftNode S) (l : RaftLog S) (ev : Env).

(** ** The delivery queue *)

(** The committed entries queued and not yet delivered. *)
Definition undelivered n : list LogEntry :=
  List.filter (λ e, applied_of n <? e_index e) (rd_committed_entries (rn_ready n)).

(** The queue is entries at or below [a], then the run right after [a]. *)
Definition queue_good (a : N) (q : list LogEntry) : Prop :=
  ∃ pre post, q = pre ++ post ∧ Forall (λ e, e_index e ≤ a) pre ∧ contiguous a post.

Lemma filter_none {A} (f : A → bool) (l : list A) :
  Forall (λ x, f x = false) l → List.filter f l = [].
Proof. induction 1 as [|x l Hx _ IH]; simpl; [done|]. by rewrite Hx. Qed.

Lemma contiguous_gt a es : contiguous a es → Forall (λ e, a < e_index e) es.
Proof. intros Hc. apply Forall_lookup. intros i e Hi. rewrite (Hc _ _ Hi). lia. Qed.

Lemma filter_contiguous_id a i es :
  contiguous a es → i ≤ a → List.filter (λ e, i <? e_index e) es = es.
Proof.
  intros Hc Hi. apply filter_id. intros e He. apply N.ltb_lt.
  pose proof (proj1 (Forall_forall _ _) (contiguous_gt _ _ Hc) e He). simpl in *. lia.
Qed.

Lemma filter_pre_none a i pre :
  Forall (λ e : LogEntry, e_index e ≤ a) pre → a ≤ i →
  List.filter (λ e, i <? e_index e) pre = [].
Proof.
  intros Hp Hi. apply filter_none. eapply Forall_impl; [exact Hp|].
  intros e He. apply N.ltb_ge. simpl in He. lia.
Qed.

Lemma queue_good_undelivered a q :
  queue_good a q → contiguous a (List.filter (λ e, a <? e_index e) q).
Proof.
  intros (pre & post & -> & Hp & Hc). rewrite List.filter_app.
  by rewrite (filter_pre_none a), (filter_contiguous_id a).
Qed.

(** Where the queue ends. *)
Definition queued_through (q : list LogEntry) : N :=
  match last q with Some e => e_index e | None => 0 end.

Lemma queue_good_end a pre post :
  Forall (λ e, e_index e ≤ a) pre → contiguous a post →
  N.max a (queued_through (pre ++ post)) = a + N.of_nat (length post).
Proof.
  intros Hp Hc. unfold queued_through. destruct (last post) as [e|] eqn:Hl.
  - rewrite last_app, Hl, (contiguous_last _ _ _ Hc Hl). lia.
  - apply last_None in Hl as ->. rewrite app_nil_r. simpl.
    destruct (last pre) as [e|] eqn:Hl; [|lia].
    pose proof (proj1 (Forall_forall _ _) Hp e (last_Some_elem_of _ _ Hl)). simpl in *. lia.
Qed.

Lemma queue_good_grow a q es :
  queue_good a q → contiguous (N.max a (queued_through q)) es → queue_good a (q ++ es).
Proof.
  intros (pre & post & -> & Hp & Hc) Hes. rewrite (queue_good_end a) in Hes by done.
  exists pre, (post ++ es). rewrite app_assoc, contiguous_app. auto.
Qed.

Lemma queue_good_raise a b q : a ≤ b → queue_good a q → queue_good b q.
Proof.
  intros Hab (pre & post & -> & Hp & Hc). set (k := N.to_nat (b - a)).
  exists (pre ++ take k post), (drop k post). rewrite <-app_assoc, take_drop.
  split_and!; [done| |].
  - apply Forall_app. split; [eapply Forall_impl; [exact Hp|simpl; lia]|].
    apply Forall_lookup. intros i e [Hi Hlt]%lookup_take_Some. rewrite (Hc _ _ Hi). lia.
  - apply (contiguous_drop _ k) in Hc. by replace (a + N.of_nat k) with b in Hc by lia.
Qed.

Lemma queue_good_filter a i q :
  i ≤ a → queue_good a q → queue_good a (List.filter (λ e, i <? e_index e) q).
Proof.
  intros Hi (pre & post & -> & Hp & Hc). rewrite List.filter_app, (filter_contiguous_id a i post) by done.
  eexists _, post. split_and!; [done| |done]. apply Forall_forall. intros e.
  rewrite list_elem_of_In, filter_In, <-list_elem_of_In. intros [He _].
  by apply (proj1 (Forall_forall _ _) Hp).
Qed.

Lemma queue_good_requeue a base batch q :
  contiguous base batch → base ≤ a → queue_good a q →
  let merged := List.filter (λ e, a <? e_index e) batch in
  let through := match last merged with Some e => e_index e | None => a end in
  queue_good a (merged ++ List.filter (λ e, through <? e_index e) q).
Proof.
  intros Hb Hba (pre & post & -> & Hp & Hc) merged through.
  assert (contiguous a merged) as Hm.
  { unfold merged. rewrite (contiguous_filter_gt base) by done.
    apply (contiguous_drop _ (N.to_nat (a - base))) in Hb.
    by replace (base + _) with a in Hb by lia. }
  assert (through = a + N.of_nat (length merged)) as Ht.
  { unfold through. destruct (last merged) eqn:Hl; [by apply contiguous_last|].
    apply last_None in Hl. rewrite Hl. simpl. lia. }
  exists [], (merged ++ List.filter (λ e, through <? e_index e) (pre ++ post)).
  split_and!; [done|done|]. rewrite contiguous_app, <-Ht. split; [done|].
  rewrite List.filter_app, (filter_pre_none a) by (done || lia). simpl.
  rewrite (contiguous_filter_gt a) by (done || lia).
  apply (contiguous_drop _ (N.to_nat (through - a))) in Hc.
  by replace (a + _) with through in Hc by lia.
Qed.

Definition queue_ok n : Prop := queue_good (applied_of n) (rd_committed_entries (rn_ready n)).

Definition queue_view n : u64 * list LogEntry :=
  (applied_of n, rd_committed_entries (rn_ready n)).

Lemma queue_ok_view n n' : queue_view n' = queue_view n → queue_ok n → queue_ok n'.
Proof. unfold queue_view, queue_ok. by intros [= -> ->]. Qed.

(** ** Operations on the queue *)

Lemma replicate_queue ev n : queue_view (replicate_to_all ev n) = queue_view n.
Proof.
  destruct (touched_inv _ _ _ (touched_replicate ev n)) as (t & -> & _ & _ & Hq & _).
  unfold queue_view. simpl in *. by rewrite Hq.
Qed.

Lemma send_queue ev p n : queue_view (send_append_entries ev p n) = queue_view n.
Proof.
  destruct (touched_inv _ _ _ (touched_send ev p n)) as (t & -> & _ & _ & Hq & _).
  unfold queue_view. simpl in *. by rewrite Hq.
Qed.

Lemma send_observer_queue ev p n :
  queue_view (send_append_entries_to_observer ev p n) = queue_view n.
Proof.
  destruct (touched_inv _ _ _ (touched_send_observer ev p n)) as (t & -> & _ & _ & Hq & _).
  unfold queue_view. simpl in *. by rewrite Hq.
Qed.

Lemma contact_queue n n' : touched contact n n' → queue_view n' = queue_view n.
Proof.
  intros (t & -> & _ & _ & _ & _ & Hq & _)%touched_inv. unfold queue_view. simpl in *. by rewrite Hq.
Qed.

Lemma emit_queue n : queue_view (try_emit_timeout_now n) = queue_view n.
Proof. unfold try_emit_timeout_now. by repeat case_match. Qed.

Lemma become_follower_queue ev t n : queue_view (become_follower ev t n) = queue_view n.
Proof. unfold become_follower. by destruct (rn_role n); simpl; case_match. Qed.

Lemma set_commit_queue c n : queue_view (n {{ rn_volatile -> commit_index := c }}) = queue_view n.
Proof. done. Qed.

(** Collection extends the queue with the next run of the log. *)
Lemma collect_queue n : log_wf (rn_log n) → queue_ok n → queue_ok (collect_committed_entries n).
Proof.
  intros Hwf Hq. unfold collect_committed_entries, queue_committed_entries.
  fold (queued_through (rd_committed_entries (rn_ready n))).
  case_match eqn:Hc. case_match; simplify_eq; [done|].
  set (from := N.max _ _ + 1) in *.
  destruct (entries_range (rn_log n) from (commit_of n)) as [es|] eqn:Hr; simplify_eq; [|done].
  unfold queue_ok. change (applied_of (upd _ _ n)) with (applied_of n). simpl.
  apply queue_good_grow; [done|]. intros i e Hi.
  rewrite (entries_range_lookup _ _ _ _ i Hwf Hr) in Hi.
  case_match; [|done]. apply (entry_at_Some_wf _ _ _ Hwf) in Hi. lia.
Qed.

Lemma try_advance_queue n :
  log_wf (rn_log n) → queue_ok n → queue_ok (try_advance_commit_index n).
Proof.
  intros Hwf Hq. unfold try_advance_commit_index. case_match; [|done]. case_match; [|done].
  by apply collect_queue.
Qed.

Lemma become_leader_queue ev n :
  log_wf (rn_log n) → queue_ok n → queue_ok (become_leader ev n).
Proof.
  intros Hwf Hq. unfold become_leader. eapply queue_ok_view; [apply replicate_queue|].
  set (n1 := n {{ rn_role := Leader; rn_leader_id := _ }}).
  set (n2 := n1 {{ rn_leader_state := Some _ }}).
  set (n3 := arm_quorum_window _ n2). set (noop := MkLogEntry _ _ _).
  set (n4 := n3 {{ rn_log := _ }} {{ rn_term_start_index := Some _ }}).
  assert (queue_ok n4) as Hq4 by done. case_match; [|done]. apply try_advance_queue; [|done].
  exact (log_append_wf_any noop _ Hwf eq_refl).
Qed.

Lemma start_election_queue ev n :
  log_wf (rn_log n) → queue_ok n → queue_ok (start_election ev n).
Proof.
  intros Hwf Hq. unfold start_election.
  destruct (may_lead (rn_replica n)); [|by destruct (rn_role n)].
  set (m := match peers _ with [] => _ | _ :: _ => _ end).
  enough (queue_ok m) by (by destruct (rn_role n)). subst m.
  case_match; [|done]. by apply become_leader_queue.
Qed.

Lemma tick_queue ev n : log_wf (rn_log n) → queue_ok n → queue_ok (tick ev n).
Proof.
  intros Hwf Hq. unfold tick. destruct (rn_role n) eqn:Hr; try done.
  1,2: case_match; [|done]; unfold start_pre_election; rewrite Hr; case_match; [done|];
    case_match; [by apply start_election_queue|done].
  set (n1 := match rn_leadership_transfer n with Some _ => _ | None => _ end).
  assert (queue_ok (refresh_quorum_contact (env_now ev) n1)) as Hq1.
  { eapply queue_ok_view; [apply contact_queue, touched_refresh|]. unfold n1. by repeat case_match. }
  case_match; [eapply queue_ok_view; [apply become_follower_queue|done]|]. case_match; [|done].
  eapply (queue_ok_view (replicate_to_all ev _)); [reflexivity|].
  by eapply queue_ok_view; [apply replicate_queue|].
Qed.

Lemma propose_queue ev data n :
  log_wf (rn_log n) → queue_ok n → queue_ok (propose ev data n).1.
Proof.
  intros Hwf Hq. unfold propose. case_match; try done. case_match; [done|].
  set (e := MkLogEntry _ _ _). pose proof (log_append_wf_any e _ Hwf eq_refl) as Hwf'.
  destruct (log_append e (rn_log n)) as [l r]. simpl in Hwf'. destruct r; [|done]. simpl.
  assert (queue_ok (replicate_to_all ev (n {{ rn_log := l }}))) as Hq1.
  { eapply queue_ok_view; [apply replicate_queue|done]. }
  case_match; [|done]. apply try_advance_queue; [|done].
  by rewrite (view_log _ _ (replicate_view ev (n {{ rn_log := l }}))).
Qed.

Lemma hear_queue id ev n :
  queue_view (reset_election_timeout ev (n {{ rn_leader_id := id }})) = queue_view n.
Proof. done. Qed.

Lemma set_contact_queue f c n :
  queue_view (n {{ rn_replicated_floor ::= f; rn_leader_contact := c }}) = queue_view n.
Proof. done. Qed.

Lemma accept_leader_queue ev req n : queue_view (accept_leader ev req n) = queue_view n.
Proof.
  unfold accept_leader. rewrite set_contact_queue, hear_queue.
  case_match; [apply become_follower_queue|done].
Qed.

Lemma append_to_log_queue req n :
  log_wf (rn_log n) → contiguous (ae_prev_log_index req) (ae_entries req) → queue_ok n →
  queue_ok (append_to_log req n).1.
Proof.
  intros Hwf Hc Hq. unfold append_to_log. do 2 (case_match; [done|]).
  case_match eqn:Hp; [done|]. apply negb_false_iff, prev_log_matches_last in Hp; [|done].
  destruct (log_append_entries _ _ _) as [l r] eqn:Hl.
  pose proof (log_append_entries_wf_any _ _ _ _ _ Hwf Hc Hp Hl) as Hwf'.
  destruct r; [|done]. simpl. case_match; [|done]. by apply collect_queue.
Qed.

Lemma append_entries_queue ev req n :
  log_wf (rn_log n) → contiguous (ae_prev_log_index req) (ae_entries req) → queue_ok n →
  queue_ok (handle_append_entries ev req n).1.
Proof.
  intros Hwf Hc Hq. unfold handle_append_entries. case_match; [done|].
  apply append_to_log_queue; [|done|].
  - by rewrite (view_log _ _ (accept_leader_view ev req n)).
  - eapply queue_ok_view; [apply accept_leader_queue|done].
Qed.

Lemma append_response_queue ev p resp n :
  log_wf (rn_log n) → queue_ok n → queue_ok (handle_append_entries_response ev p resp n).
Proof.
  intros Hwf Hq. unfold handle_append_entries_response.
  case_match; [eapply queue_ok_view; [apply become_follower_queue|done]|].
  do 2 (case_match; [done|]). case_match.
  { unfold handle_observer_response. case_match; [|done]. case_match; [done|].
    by eapply queue_ok_view; [apply send_observer_queue|]. }
  case_match; [|done].
  set (n1 := n {{ rn_leader_state := Some _ }}).
  assert (queue_ok n1 ∧ log_wf (rn_log n1)) as [Hq1 Hwf1] by done.
  eapply queue_ok_view in Hq1; [|apply contact_queue, (touched_voter ev p resp)].
  rewrite <-(view_log _ _ (touched_view _ _ _ (touched_voter ev p resp n1))) in Hwf1.
  set (n2 := record_voter_contact ev p resp n1) in *. clearbody n2. case_match; [|done].
  eapply queue_ok_view; [apply emit_queue|].
  case_match; [case_match; [|done]|case_match; [by case_match|]].
  - eapply (queue_ok_view (try_advance_commit_index _)); [reflexivity|]. by apply try_advance_queue.
  - by eapply queue_ok_view; [apply send_queue|].
Qed.

Lemma request_vote_queue ev req n : queue_view (handle_request_vote ev req n).1 = queue_view n.
Proof.
  unfold handle_request_vote, handle_request_vote_at. case_match; [done|].
  set (n1 := if _ : bool then become_follower _ _ _ else n).
  assert (queue_view n1 = queue_view n) as Hv.
  { unfold n1. case_match; [apply become_follower_queue|done]. }
  rewrite <-Hv. clearbody n1. by repeat case_match.
Qed.

Lemma vote_response_queue ev p resp n :
  log_wf (rn_log n) → queue_ok n → queue_ok (handle_request_vote_response ev p resp n).
Proof.
  intros Hwf Hq. unfold handle_request_vote_response.
  case_match; [eapply queue_ok_view; [apply become_follower_queue|done]|].
  case_match; [done|]. case_match; try done. case_match; [|done]. case_match; [|done].
  by apply become_leader_queue.
Qed.

Lemma set_pre_vote_queue g n : queue_view (n {{ rn_pre_vote := g }}) = queue_view n.
Proof. done. Qed.

Lemma pre_vote_response_queue ev p resp n :
  log_wf (rn_log n) → queue_ok n → queue_ok (handle_pre_vote_response ev p resp n).
Proof.
  intros Hwf Hq. unfold handle_pre_vote_response. case_match.
  { eapply queue_ok_view; [apply set_pre_vote_queue|].
    by eapply queue_ok_view; [apply become_follower_queue|]. }
  destruct (rn_role n); try done;
    (case_match; [|done]; do 2 (case_match; [done|]); case_match; [|done];
     by apply start_election_queue).
Qed.

Lemma save_durable_queue i n : queue_view (save_durable_applied_index i n).1 = queue_view n.
Proof.
  unfold save_durable_applied_index. case_match; [done|].
  by destruct (save_applied_index _ _) as [s []].
Qed.

Lemma adopt_snapshot_queue i t n : queue_ok n → queue_ok (adopt_snapshot_boundary i t n).1.
Proof.
  intros Hq. unfold adopt_snapshot_boundary. case_match; [done|].
  set (lr := if _ : bool then apply_snapshot _ _ _ else _). destruct lr as [l [u|]]; [|done].
  eapply queue_ok_view; [apply save_durable_queue|].
  assert (queue_good (N.max i (applied_of n))
    (List.filter (λ e, i <? e_index e) (rd_committed_entries (rn_ready n)))) as Hg.
  { apply queue_good_filter; [lia|]. eapply queue_good_raise; [|exact Hq]. lia. }
  by case_match.
Qed.

Lemma install_snapshot_queue ev req n : queue_ok n → queue_ok (handle_install_snapshot ev req n).1.
Proof.
  intros Hq. unfold handle_install_snapshot. case_match; [done|].
  set (n1 := if _ : bool then become_follower _ _ _ else n).
  assert (queue_ok n1) as Hq1.
  { unfold n1. case_match; [by eapply queue_ok_view; [apply become_follower_queue|]|done]. }
  clearbody n1. eapply queue_ok_view in Hq1; [|apply (hear_queue (is_leader_id req) ev)].
  set (n2 := reset_election_timeout ev _) in *.
  set (nr := if is_done req then _ else _).
  assert (queue_ok nr.1) as Hn by (unfold nr; case_match; [by apply adopt_snapshot_queue|done]).
  by destruct nr as [? []].
Qed.

Lemma compact_queue i n : queue_view (compact_log_up_to i n).1 = queue_view n.
Proof.
  unfold compact_log_up_to.
  set (up := match rn_compaction_ceiling n with Some _ => _ | None => _ end).
  do 2 (case_match; [done|]). case_match; [|done].
  by destruct (apply_snapshot _ _ _) as [l []].
Qed.

Lemma set_replica_queue ev r n : queue_view (set_replica_state ev r n) = queue_view n.
Proof.
  unfold set_replica_state. case_match; [|done]. unfold stand_down_for_snapshot.
  case_match; rewrite ?become_follower_queue; try done. by case_match.
Qed.

Lemma requeue_queue base batch n :
  contiguous base batch → base ≤ applied_of n → queue_ok n → queue_ok (requeue_committed batch n).
Proof. intros. by apply (queue_good_requeue _ base). Qed.

Lemma run_op_queue ev op n :
  log_wf (rn_log n) → op_wf op n → queue_ok n → queue_ok (run_op ev op n).
Proof.
  intros Hwf Hop Hq. destruct op; simpl; try done.
  - unfold on_storage_progress. case_match; [by apply try_advance_queue|done].
  - by apply tick_queue.
  - by apply propose_queue.
  - by apply append_entries_queue.
  - by apply append_response_queue.
  - by eapply queue_ok_view; [apply request_vote_queue|].
  - by apply vote_response_queue.
  - unfold handle_pre_vote, handle_pre_vote_at. by repeat case_match.
  - by apply pre_vote_response_queue.
  - by apply install_snapshot_queue.
  - by apply adopt_snapshot_queue.
  - unfold record_snapshot_installed. by repeat case_match.
  - unfold handle_timeout_now. case_match; [|done].
    by eapply (queue_ok_view (start_election ev n)); [|apply start_election_queue].
  - unfold transfer_leadership. repeat (case_match; try done). simpl.
    by eapply queue_ok_view; [apply emit_queue|].
  - unfold start_read_index. repeat (case_match; try done). simpl.
    by eapply queue_ok_view; [apply replicate_queue|].
  - by eapply queue_ok_view; [apply set_replica_queue|].
  - eapply (queue_good_raise (applied_of n)); [|exact Hq]. unfold applied_of. simpl. lia.
  - by eapply queue_ok_view; [apply save_durable_queue|].
  - destruct Hop as (base & ? & ?). by eapply requeue_queue.
  - by eapply queue_ok_view; [apply compact_queue|].
  - unfold maybe_compact_log. case_match; [|done]. do 2 (case_match; [done|]).
    by eapply queue_ok_view; [apply compact_queue|].
  - unfold notify_removed_peer. case_match; [done|]. by eapply queue_ok_view; [apply send_queue|].
Qed.

(** ** The node invariant *)

Record node_wf n : Prop := MkNodeWf {
  wf_durable : durable_ok (log_view n);
  wf_stored : hs_stored n;
  wf_queue : queue_ok n;
}.

Definition driver_op_wf (eo : Env * DriverOp) n : Prop :=
  match eo.2 with DOp op => op_wf op n | _ => True end.

(** Every operation of a run is well formed where it happens. *)
Fixpoint run_wf (ops : list (Env * DriverOp)) n : Prop :=
  match ops with
  | [] => True
  | eo :: ops => driver_op_wf eo n ∧ run_wf ops (run_driver_op n eo)
  end.

Lemma persist_queue n : queue_view (persist_hard_state_if_dirty n).1 = queue_view n.
Proof.
  unfold persist_hard_state_if_dirty. case_match; [|done].
  by destruct (save_hard_state _ _) as [s []].
Qed.

Lemma persist_wf n : node_wf n → node_wf (persist_hard_state_if_dirty n).1.
Proof.
  intros [Hd Hs Hq]. split; [by apply persist_log_view|by apply persist_stored|].
  by eapply queue_ok_view; [apply persist_queue|].
Qed.

Lemma drain_wf n : node_wf n → node_wf (drain n).1.
Proof.
  intros Hwf. pose proof (persist_wf n Hwf) as [Hd Hs Hq]. pose proof (persist_frame n) as Hp.
  destruct (persist_stored n (wf_stored _ Hwf)) as [_ Hst]. unfold drain.
  destruct (persist_hard_state_if_dirty n) as [n1 r]; simpl in *.
  destruct r as [[]|]; [|done]. split; simpl; [done| |by exists [], []].
  exists (rn_hard_state n). specialize (Hst eq_refl). destruct Hp as [Hhs _].
  split_and!; [done| |]; unfold rn_hard_state in *; simpl; by rewrite Hhs.
Qed.

Lemma driver_op_keeps_wf n eo : driver_op_wf eo n → node_wf n → node_wf (run_driver_op n eo).
Proof.
  intros Hop Hwf. pose proof Hwf as [Hd Hs Hq].
  destruct eo as [ev [op|op| |]]; unfold run_driver_op; simpl in *.
  - assert (log_wf (rn_log n)) as Hlw by apply Hd. split.
    + eapply log_steps_durable; [by apply run_op_log_steps|done].
    + eapply moves_preserve; [|apply run_op_moves|done]. apply vote_move_stored.
    + by apply run_op_queue.
  - destruct (member_op_frame op n) as (Hhs & Hv & Hda & Hrd & Hl & _). split.
    + unfold log_view. by rewrite Hl, Hda.
    + destruct Hs as (h & ? & ? & ?). exists h. unfold stored_hs. by rewrite Hl, Hhs, Hrd.
    + unfold queue_ok, applied_of. by rewrite Hv, Hrd.
  - by apply persist_wf.
  - by apply drain_wf.
Qed.

Lemma run_keeps_wf ops n : run_wf ops n → node_wf n → node_wf (run ops n).
Proof.
  revert n. induction ops as [|eo ops IH]; intros n; [done|]. intros [Hop Hops] Hwf.
  apply IH; [done|]. by apply driver_op_keeps_wf.
Qed.

(** A node booted on consistent storage, as [MultiRaft] mounts a group. *)
Definition boot ev (config : RaftConfig) (storage : S) : RaftNode S * Result unit :=
  node_restore ev (node_new ev config storage).

Lemma boot_recovers ev config l h a :
  durable_ok (l, a) → load_hard_state (lg_storage l) = Ok h →
  ∃ m, boot ev config (lg_storage l) = (m, Ok tt) ∧
    rn_config m = config ∧ rn_hard_state m = h ∧ rn_log m = l ∧ rn_durable_applied m = a ∧
    rn_volatile m = MkVolatileState a a ∧ rn_votes_received m = ∅ ∧
    rn_ready m = ready_default ∧ is_voter_role (rn_role m) = is_voter_role (rn_role (node_new ev config (lg_storage l))) ∧
    rn_role m ≠ Leader ∧ rn_role m ≠ Candidate.
Proof.
  intros (Hwf & Hmi & Ha) Hh. simpl in *. unfold boot, node_restore. simpl. rewrite Hh. simpl.
  rewrite Ha. simpl. change (MkRaftLog [] 0 0 (lg_storage l)) with (log_new (lg_storage l)).
  rewrite (mirrors_restore l Hmi). eexists. split; [done|]. simpl.
  split_and!; try done; by repeat case_match.
Qed.


(** C18. After any run the committed entries that wait for delivery are
    exactly the indexes [applied + 1], [applied + 2], ... with no gap, no
    repetition and in order. *)
Theorem delivery_gap_free ops n :
  node_wf n → run_wf ops n →
  contiguous (applied_of (run ops n)) (undelivered (run ops n)).
Proof.
  intros Hwf Hops. apply queue_good_undelivered. apply (run_keeps_wf ops n Hops Hwf).
Qed.
End delivery.
