(* ===== verification/RaftGroup.v ===== *)
(** * A Raft group

    Several nodes, their disks and the vote traffic between them, driven the
    way [nodedb-cluster] drives a group: [MultiRaft::tick] drains a node's
    outputs once its hard state is staged ([multi_raft/core.rs]); a handler
    stages the hard state before it answers ([raft_loop/handle_rpc/
    consensus.rs]); vote requests and answers leave only once the staged
    writes are durable ([raft_loop/tick/vote_dispatch.rs]); a crash loses
    what is not durable, and the group is mounted again from its disk
    ([multi_raft/mount.rs]).

    Vote requests and answers can be delayed, lost, duplicated and reordered:
    a sent message stays in the network, and a step may deliver any of them
    at any time. Every other message is unconstrained: a step may run any
    handler on any message contents. The membership is fixed. *)

From stdpp Require Import base list option gmap.
From S2P Require Import Prelude RaftState RaftLog RaftLogFacts RaftNode RaftOps RaftRpc.
From S2P Require Import RaftNodeFacts RaftSteps RaftNodeThms RaftDurability RaftDelivery.

Open Scope N_scope.

#[export] Instance request_vote_request_eq_dec : EqDecision RequestVoteRequest.
Proof. solve_decision. Defined.

#[export] Instance request_vote_response_eq_dec : EqDecision RequestVoteResponse.
Proof. solve_decision. Defined.

(** A vote request to [to], and the answer of [from] to candidate [to]. *)
Inductive VoteMsg : Type :=
  | VReq (to : u64) (req : RequestVoteRequest)
  | VResp (from to : u64) (resp : RequestVoteResponse).

#[export] Instance vote_msg_eq_dec : EqDecision VoteMsg.
Proof. solve_decision. Defined.

(** A node, its durable storage, and the messages that wait for it. *)
Record Member (S : Type) : Type := MkMember {
  mb_node : RaftNode S;
  mb_disk : S;
  mb_outbox : list VoteMsg;
}.
Arguments MkMember {S}.
Arguments mb_node {S}.
Arguments mb_disk {S}.
Arguments mb_outbox {S}.

(** The group: its members, every vote message that left a node, and (for
    the theorem) every (term, node) seen leading. *)
Record Group (S : Type) : Type := MkGroup {
  gr_members : gmap u64 (Member S);
  gr_net : list VoteMsg;
  gr_elected : list (u64 * u64);
}.
Arguments MkGroup {S}.
Arguments gr_members {S}.
Arguments gr_net {S}.
Arguments gr_elected {S}.

Inductive Action : Type :=
  | ATick (id : u64) (ev : Env)
  | AOp (id : u64) (ev : Env) (op : NodeOp)
  | APersist (id : u64)
  | ARequestVote (id : u64) (ev : Env) (req : RequestVoteRequest)
  | AVoteResponse (id : u64) (ev : Env) (from : u64) (resp : RequestVoteResponse)
  | AFlush (id : u64)
  | ACrash (id : u64) (ev : Env).

Definition action_id (a : Action) : u64 :=
  match a with
  | ATick id _ | AOp id _ _ | APersist id | ARequestVote id _ _
  | AVoteResponse id _ _ _ | AFlush id | ACrash id _ => id
  end.

(** Vote traffic goes through the network actions only. *)
Definition is_vote_op (op : NodeOp) : bool :=
  match op with OpRequestVote _ | OpRequestVoteResponse _ _ => true | _ => false end.

Section group.
Context {S : Type} `{LogStorageSpec S}.

(** [MultiRaft::tick] on one group. *)
Definition member_tick (ev : Env) (m : Member S) : Member S :=
  let n := tick ev (on_storage_progress (mb_node m)) in
  match drain n with
  | (n, Some r) =>
      MkMember n (mb_disk m)
        (mb_outbox m ++ ((λ pv, VReq pv.1 pv.2) <$> rd_vote_requests r))
  | (n, None) => MkMember n (mb_disk m) (mb_outbox m)
  end.

(** [handle_request_vote_rpc]: an answer only once the hard state is staged. *)
Definition member_request_vote (ev : Env) (id : u64) (req : RequestVoteRequest)
    (m : Member S) : Member S :=
  let '(n, resp) := handle_request_vote ev req (mb_node m) in
  match persist_hard_state_if_dirty n with
  | (n, Ok _) =>
      MkMember n (mb_disk m) (mb_outbox m ++ [VResp id (rv_candidate_id req) resp])
  | (n, Err _) => MkMember n (mb_disk m) (mb_outbox m)
  end.

(** One action on the member it names, with the messages that leave. A guard
    that fails leaves the member as it was. *)
Definition member_act (net : list VoteMsg) (a : Action) (m : Member S) :
    Member S * list VoteMsg :=
  match a with
  | ATick _ ev => (member_tick ev m, [])
  | AOp _ ev op =>
      if is_vote_op op then (m, [])
      else (MkMember (run_op ev op (mb_node m)) (mb_disk m) (mb_outbox m), [])
  | APersist _ =>
      (MkMember (persist_hard_state_if_dirty (mb_node m)).1 (mb_disk m) (mb_outbox m), [])
  | ARequestVote id ev req =>
      if bool_decide (VReq id req ∈ net) then (member_request_vote ev id req m, []) else (m, [])
  | AVoteResponse id ev from resp =>
      if bool_decide (VResp from id resp ∈ net) then
        (MkMember (handle_request_vote_response ev from resp (mb_node m)) (mb_disk m)
           (mb_outbox m), [])
      else (m, [])
  | AFlush _ => (MkMember (mb_node m) (lg_storage (rn_log (mb_node m))) [], mb_outbox m)
  | ACrash _ ev =>
      match boot ev (rn_config (mb_node m)) (mb_disk m) with
      | (n, Ok _) => (MkMember n (mb_disk m) [], [])
      | (_, Err _) => (m, [])
      end
  end.

(** The leader the member is, if it is one. *)
Definition leading (id : u64) (m : Member S) : list (u64 * u64) :=
  match rn_role (mb_node m) with Leader => [(term_of (mb_node m), id)] | _ => [] end.

Definition group_act (g : Group S) (a : Action) : Group S :=
  let id := action_id a in
  match gr_members g !! id with
  | None => g
  | Some m =>
      let '(m, sent) := member_act (gr_net g) a m in
      MkGroup (<[id := m]> (gr_members g)) (gr_net g ++ sent)
        (gr_elected g ++ leading id m)
  end.

Definition group_run (acts : list Action) (g : Group S) : Group S := foldl group_act g acts.

(** ** Start states *)

(** [config] is the configuration of node [id] in a group with voters [V]. *)
Definition config_ok (V : gset u64) (id : u64) (config : RaftConfig) : Prop :=
  node_id config = id ∧ id ≠ 0 ∧ NoDup (peers config) ∧
  (∀ p, p ∈ peers config ↔ p ∈ V ∧ p ≠ id) ∧
  (id ∉ V → starts_as_observer config = true ∨ starts_as_learner config = true).

(** A member that has just been mounted from its disk. *)
Definition member_fresh (V : gset u64) (id : u64) (m : Member S) : Prop :=
  ∃ ev config, config_ok V id config ∧ boot ev config (mb_disk m) = (mb_node m, Ok tt) ∧
    mb_outbox m = [].

Definition group_fresh (V : gset u64) (g : Group S) : Prop :=
  (0 ∉ V) ∧ map_Forall (member_fresh V) (gr_members g) ∧ gr_net g = [] ∧ gr_elected g = [].
End group.
