(* ===== verification/RaftElection.v ===== *)
(** * Election safety

    At most one node leads in a term, over every run of a group: crashes,
    restarts, lost, late and repeated messages, failing storage writes.

    Each vote a node casts is a claim (term, candidate) of that node: an
    answer that grants, or the vote request of a candidate, which stands for
    its vote for itself. The invariant orders a claim's life: a queued claim
    is covered by the node's hard state, one that waits for the disk by the
    staged hard state, one that left by the durable hard state. Two claims of
    one node in one term name one candidate, so two quorums that elect in one
    term elect the same node. *)

From stdpp Require Import base list option gmap.
From S2P Require Import Prelude RaftState RaftLog RaftLogFacts RaftNode RaftOps RaftRpc.
From S2P Require Import RaftNodeFacts RaftSteps RaftNodeThms RaftDurability RaftDelivery.
From S2P Require Import RaftGroup.

Open Scope N_scope.

(** ** Claims *)

Record Claim : Type := MkClaim {
  cl_voter : u64;
  cl_term : u64;
  cl_cand : u64;
}.

Definition msg_claim (m : VoteMsg) : option Claim :=
  match m with
  | VReq _ req => Some (MkClaim (rv_candidate_id req) (rv_term req) (rv_candidate_id req))
  | VResp from to resp =>
      if rvr_vote_granted resp then Some (MkClaim from (rvr_term resp) to) else None
  end.

(** [c] is a claim one of [ms] makes. *)
Definition claims (ms : list VoteMsg) (c : Claim) : Prop := ∃ m, m ∈ ms ∧ msg_claim m = Some c.

Lemma claims_app ms ms' c : claims (ms ++ ms') c ↔ claims ms c ∨ claims ms' c.
Proof. unfold claims. setoid_rewrite elem_of_app. naive_solver. Qed.

Lemma claims_nil c : ¬ claims [] c.
Proof. intros (m & Hm & _). by apply elem_of_nil in Hm. Qed.

(** The claims of the vote requests in a node's outputs. *)
Definition ready_claims {S} (n : RaftNode S) (c : Claim) : Prop :=
  ∃ p, (p, cl_term c, cl_cand c) ∈ vote_keys (rd_vote_requests (rn_ready n)) ∧
    cl_voter c = cl_cand c.

(** The hard state records the claim, or is past its term. *)
Definition covers (h : HardState) (c : Claim) : Prop :=
  cl_term c < current_term h ∨ cl_term c = current_term h ∧ voted_for h = cl_cand c.

Lemma covers_mono h h' c : cl_cand c ≠ 0 → hs_le h h' → covers h c → covers h' c.
Proof.
  unfold covers, hs_le. intros Hc [?|[? Hv]] [?|[? ?]]; try (left; lia).
  right. destruct Hv; [congruence|]. split; congruence.
Qed.

(** ** Messages *)

(** A message of [owner]: a vote request of a voter to another voter, or an
    answer; a granted one answers a request the network holds. *)
Definition msg_ok (V : gset u64) (net : list VoteMsg) (owner : u64) (m : VoteMsg) : Prop :=
  match m with
  | VReq to req => rv_candidate_id req = owner ∧ owner ∈ V ∧ to ∈ V ∧ to ≠ owner
  | VResp from to resp =>
      from = owner ∧
      (rvr_vote_granted resp = true →
       ∃ req, VReq from req ∈ net ∧ rv_candidate_id req = to ∧ rv_term req = rvr_term resp ∧
         from ∈ V ∧ from ≠ to ∧ to ∈ V)
  end.

Lemma msg_ok_mono V net net' owner m :
  (∀ x, x ∈ net → x ∈ net') → msg_ok V net owner m → msg_ok V net' owner m.
Proof. destruct m; simpl; naive_solver. Qed.

Lemma msg_ok_claim V net owner m c :
  msg_ok V net owner m → msg_claim m = Some c → cl_voter c = owner ∧ cl_cand c ∈ V.
Proof.
  destruct m as [to req|from to resp]; simpl; [naive_solver|].
  case_match; [|done]. intros [-> Hg] [= <-]. simpl. destruct Hg as (? & ? & ?); naive_solver.
Qed.

(** ** Evidence of an election *)

(** A majority of [V] claims [i] in term [t]. *)
Definition elected_by (V : gset u64) (net : list VoteMsg) (t i : u64) : Prop :=
  i ∈ V ∧
  (V = {[i]} ∨
   ∃ Q : gset u64, Q ⊆ V ∧ (size V < 2 * size Q)%nat ∧ ∀ v, v ∈ Q → claims net (MkClaim v t i)).

(** Claims of one node in one term agree. *)
Definition net_agrees (net : list VoteMsg) : Prop :=
  ∀ v t i j, claims net (MkClaim v t i) → claims net (MkClaim v t j) → i = j.

Lemma majorities_meet (V Q R : gset u64) :
  Q ⊆ V → R ⊆ V → (size V < 2 * size Q)%nat → (size V < 2 * size R)%nat → ∃ v, v ∈ Q ∧ v ∈ R.
Proof.
  intros HQ HR Hq Hr. destruct (decide (Q ∩ R = ∅)) as [He|Hne].
  - exfalso. assert (size (Q ∪ R) ≤ size V)%nat by (apply subseteq_size; set_solver).
    rewrite size_union in * by set_solver. lia.
  - apply set_choose_L in Hne as [v Hv]. exists v. set_solver.
Qed.

Lemma elected_unique V net t i j :
  net_agrees net → elected_by V net t i → elected_by V net t j → i = j.
Proof.
  intros Hag [Hi Hqi] [Hj Hqj].
  destruct Hqi as [HV|(Q & HQ & Hq & HcQ)]; [set_solver|].
  destruct Hqj as [HV|(R & HR & Hr & HcR)]; [set_solver|].
  destruct (majorities_meet V Q R) as (v & HvQ & HvR); try done.
  eapply (Hag v t); eauto.
Qed.

Lemma elected_mono V net net' t i :
  (∀ x, x ∈ net → x ∈ net') → elected_by V net t i → elected_by V net' t i.
Proof.
  intros Hsub [Hi [HV|(Q & HQ & Hq & Hc)]]; (split; [done|]); [by left|right].
  exists Q. split_and!; [done..|]. intros v Hv. destruct (Hc v Hv) as (m & ? & ?). exists m. auto.
Qed.

(** ** The invariant of a member *)

Section election.
Context {S : Type} `{LogStorageSpec S}.
Implicit Types (n : RaftNode S) (m : Member S) (V : gset u64) (net : list VoteMsg).

(** The claims [id] has made or is about to make. *)
Definition all_claims net (id : u64) (out : list VoteMsg) n (c : Claim) : Prop :=
  (claims net c ∧ cl_voter c = id) ∨ claims out c ∨ ready_claims n c.

(** The part of the invariant the node's own moves keep. *)
Record voter_inv V net (id : u64) (out : list VoteMsg) n : Prop := MkVoterInv {
  vi_config : config_ok V id (rn_config n);
  vi_role : is_voter_role (rn_role n) = true → id ∈ V;
  vi_ready : ∀ p t c, (p, t, c) ∈ vote_keys (rd_vote_requests (rn_ready n)) →
    c = id ∧ id ∈ V ∧ p ∈ V ∧ p ≠ id;
  vi_claim : ∀ c, all_claims net id out n c →
    cl_voter c = id ∧ cl_cand c ∈ V ∧ covers (rn_hard_state n) c;
  vi_agree : ∀ t i j, all_claims net id out n (MkClaim id t i) →
    all_claims net id out n (MkClaim id t j) → i = j;
  vi_votes : rn_role n = Candidate → ∀ p, p ∈ rn_votes_received n →
    ∃ resp, VResp p id resp ∈ net ∧ rvr_vote_granted resp = true ∧ rvr_term resp = term_of n;
  vi_leads : rn_role n = Leader → elected_by V net (term_of n) id;
}.

(** The whole of it, with the durable hard state [hd] and the staged [hst]. *)
Record member_inv_at V net (id : u64) (hd hst : HardState) m : Prop := MkMemberInv {
  mi_disk : load_hard_state (mb_disk m) = Ok hd;
  mi_staged : stored_hs (mb_node m) = Ok hst;
  mi_order : hs_le hd hst;
  mi_ahead : hs_le hst (rn_hard_state (mb_node m));
  mi_clean : rd_hard_state (rn_ready (mb_node m)) = None → hst = rn_hard_state (mb_node m);
  mi_net : ∀ c, claims net c → cl_voter c = id → covers hd c;
  mi_out : ∀ c, claims (mb_outbox m) c → covers hst c;
  mi_outbox : Forall (msg_ok V net id) (mb_outbox m);
  mi_voter : voter_inv V net id (mb_outbox m) (mb_node m);
}.

Definition member_inv V net (id : u64) m : Prop := ∃ hd hst, member_inv_at V net id hd hst m.

(** Every message of the network has an owner. *)
Definition net_ok V net : Prop := ∀ x, x ∈ net → ∃ owner, msg_ok V net owner x.

(** ** The node's moves keep it *)

Lemma ready_claims_ext n n' c :
  vote_keys (rd_vote_requests (rn_ready n')) = vote_keys (rd_vote_requests (rn_ready n)) →
  ready_claims n' c ↔ ready_claims n c.
Proof. unfold ready_claims. by intros ->. Qed.

Lemma all_claims_ext net id out n n' c :
  vote_keys (rd_vote_requests (rn_ready n')) = vote_keys (rd_vote_requests (rn_ready n)) →
  all_claims net id out n' c ↔ all_claims net id out n c.
Proof. intros Hk. unfold all_claims. by rewrite (ready_claims_ext n n'). Qed.

(** A move that queues no vote request and moves the hard state up. *)
Lemma voter_inv_keep V net id out n n' :
  (0 ∉ V) → rn_config n' = rn_config n →
  vote_keys (rd_vote_requests (rn_ready n')) = vote_keys (rd_vote_requests (rn_ready n)) →
  hs_le (rn_hard_state n) (rn_hard_state n') →
  (is_voter_role (rn_role n') = true → is_voter_role (rn_role n) = true) →
  (rn_role n' = Candidate → ∀ p, p ∈ rn_votes_received n' →
    ∃ resp, VResp p id resp ∈ net ∧ rvr_vote_granted resp = true ∧ rvr_term resp = term_of n') →
  (rn_role n' = Leader → elected_by V net (term_of n') id) →
  voter_inv V net id out n → voter_inv V net id out n'.
Proof.
  intros HV0 Hcfg Hk Hle Hrole Hvotes Hleads [Hc Hr Hrd Hcl Hag _ _]. split; try done.
  - by rewrite Hcfg.
  - auto.
  - by rewrite Hk.
  - intros c Hcl'. rewrite (all_claims_ext _ _ _ n) in Hcl' by done.
    destruct (Hcl c Hcl') as (? & ? & ?). split_and!; try done.
    eapply covers_mono; [|done..]. intros Hz. apply HV0. by rewrite <-Hz.
  - intros t i j. rewrite !(all_claims_ext _ _ _ n n') by done. apply Hag.
Qed.

Lemma is_voter_demote r : is_voter_role (demote r) = is_voter_role r.
Proof. by destruct r. Qed.

(** A voter's configuration names every other voter. *)
Lemma config_size V id config :
  config_ok V id config → id ∈ V → size V = Datatypes.S (length (peers config)).
Proof.
  intros (_ & _ & Hnd & Hpeers & _) Hid.
  replace V with ({[id]} ∪ list_to_set (C := gset u64) (peers config)).
  - rewrite size_union, size_singleton, size_list_to_set; [done|done|].
    intros p. rewrite elem_of_singleton, elem_of_list_to_set, Hpeers. naive_solver.
  - apply set_eq. intros p. rewrite elem_of_union, elem_of_singleton, elem_of_list_to_set, Hpeers.
    destruct (decide (p = id)); naive_solver.
Qed.

(** A candidate with a quorum of counted votes was elected. *)
Lemma votes_elect V net id config (votes : gset u64) t :
  net_ok V net → config_ok V id config → id ∈ V →
  (∀ p, p ∈ votes →
    ∃ resp, VResp p id resp ∈ net ∧ rvr_vote_granted resp = true ∧ rvr_term resp = t) →
  quorum config ≤ N.of_nat (size votes) + 1 →
  elected_by V net t id.
Proof.
  intros Hnet Hcfg Hid Hvotes Hq. split; [done|].
  assert (∀ p, p ∈ votes → p ∈ V ∧ p ≠ id ∧ claims net (MkClaim p t id) ∧
    claims net (MkClaim id t id)) as Hgrant.
  { intros p Hp. destruct (Hvotes p Hp) as (resp & Hin & Hg & Ht).
    destruct (Hnet _ Hin) as (owner & -> & Hreq). destruct (Hreq Hg) as (req & Hreqin & Hc & Hrt & ? & ? & _).
    split_and!; [done|done|..].
    - exists (VResp owner id resp). simpl. by rewrite Hg, Ht.
    - exists (VReq owner req). simpl. rewrite Hc, Hrt, Ht. done. }
  pose proof (config_size V id config Hcfg Hid) as HV.
  unfold quorum, cluster_size in Hq.
  destruct (decide (votes = ∅)) as [He|Hne].
  - left. rewrite He, size_empty in Hq.
    assert (length (peers config) = 0%nat) as Hl.
    { pose proof (half_bounds (N.of_nat (length (peers config)) + 1)). lia. }
    rewrite Hl in HV. apply size_1_elem_of in HV as [x Hx]. clear -Hx Hid. set_solver.
  - right. apply set_choose_L in Hne as [p0 Hp0]. exists ({[id]} ∪ votes).
    split_and!.
    + clear -Hid Hgrant. intros v. rewrite elem_of_union, elem_of_singleton.
      intros [->|Hv]; [done|by apply Hgrant].
    + rewrite size_union, size_singleton.
      2: { intros v ->%elem_of_singleton Hv. by apply (Hgrant id). }
      pose proof (half_bounds (N.of_nat (length (peers config)) + 1)). lia.
    + intros v. rewrite elem_of_union, elem_of_singleton. intros [->|Hv]; [|by apply Hgrant].
      by apply (Hgrant p0).
Qed.

Lemma elem_of_campaign_keys (keys : list (u64 * u64 * u64)) ps t id p t' c :
  (p, t', c) ∈ keys ++ ((λ q : u64, (q, t, id)) <$> ps) ↔
  (p, t', c) ∈ keys ∨ p ∈ ps ∧ t' = t ∧ c = id.
Proof.
  rewrite elem_of_app, list_elem_of_fmap. split.
  - intros [?|(q & [= -> -> ->] & ?)]; auto.
  - intros [?|(? & -> & ->)]; [by left|right; eauto].
Qed.

(** A campaign adds the claim of the node's vote for itself in a term no
    claim of it has. *)
Lemma voter_inv_campaign V net id out n n' :
  (0 ∉ V) → rn_config n' = rn_config n → rn_role n = Follower ∨ rn_role n = Candidate →
  rn_role n' = Candidate → rn_hard_state n' = MkHardState (term_of n + 1) (node_id (rn_config n)) →
  rn_votes_received n' = ∅ →
  vote_keys (rd_vote_requests (rn_ready n')) =
    vote_keys (rd_vote_requests (rn_ready n)) ++
    ((λ p, (p, term_of n + 1, node_id (rn_config n))) <$> peers (rn_config n)) →
  voter_inv V net id out n → voter_inv V net id out n'.
Proof.
  intros HV0 Hcfg Hr Hr' Hhs Hv Hk [Hc Hrole Hrd Hcl Hag _ _].
  assert (id ∈ V) as Hid by (apply Hrole; by destruct Hr as [-> | ->]).
  pose proof Hc as (Hnode & _ & _ & Hpeers & _). rewrite Hnode in *.
  assert (∀ c, all_claims net id out n' c →
    all_claims net id out n c ∨ c = MkClaim id (term_of n + 1) id) as Hnew.
  { intros [v t i] [?|[?|(p & Hp & Hvi)]]; [by left; left|by left; right; left|].
    rewrite Hk in Hp. apply elem_of_campaign_keys in Hp as [Hp|(_ & Ht & Hi)].
    - left. right. right. by exists p.
    - right. simpl in *. congruence. }
  assert (∀ c, all_claims net id out n c → cl_term c ≤ term_of n) as Hold.
  { intros c Hall. destruct (Hcl c Hall) as (_ & _ & [?|[? _]]); unfold term_of; lia. }
  split.
  - by rewrite Hcfg.
  - done.
  - intros p t c. rewrite Hk, elem_of_campaign_keys. intros [Hin|(Hp & _ & ->)]; [by eapply Hrd|].
    apply Hpeers in Hp as [? ?]. done.
  - intros c [Hall| ->]%Hnew.
    + destruct (Hcl c Hall) as (? & ? & _). split_and!; [done..|].
      left. rewrite Hhs. simpl. specialize (Hold c Hall). lia.
    + rewrite Hhs. split_and!; [done..|]. by right.
  - intros t i j [Hi|Hi]%Hnew [Hj|Hj]%Hnew; [by eapply Hag|..]; simplify_eq; try done.
    + specialize (Hold _ Hi). simpl in Hold. lia.
    + specialize (Hold _ Hj). simpl in Hold. lia.
  - rewrite Hv. intros _ p Hp. by apply elem_of_empty in Hp.
  - by rewrite Hr'.
Qed.

Lemma vote_move_inv V net id out I n n' :
  (0 ∉ V) → net_ok V net →
  (∀ p t, in_grant I p t →
    ∃ resp, VResp p id resp ∈ net ∧ rvr_vote_granted resp = true ∧ rvr_term resp = t) →
  vote_move I n n' → voter_inv V net id out n → voter_inv V net id out n'.
Proof.
  intros HV0 Hnet HI Hm Hvi. pose proof (vote_move_hs _ _ _ Hm) as Hle.
  pose proof (fr_config _ _ (vote_move_frame _ _ _ Hm)) as Hcfg.
  pose proof Hvi as [Hc Hrole Hrd Hcl Hag Hvo Hld]. destruct Hm as
    [_ _ Hr _ Hhs Hvs _ Hk|r _ ->|t _ _ Hr _ Ht Hhs Hvs _ Hk
    |_ _ Hr0 Hr _ _ Hhs Hvs _ Hk|c _ _ Hr _ _ _ Hhs Hvs _ Hk
    |p Hr Hg ->|_ _ Hr0 Hr _ Hq Hhs Hvs _ Hk].
  - eapply voter_inv_keep; try done; unfold term_of in *; by rewrite ?Hr, ?Hvs, ?Hhs.
  - by eapply voter_inv_keep.
  - eapply voter_inv_keep; try done.
    + by rewrite Hk.
    + by rewrite Hr, is_voter_demote.
    + rewrite Hvs. intros _ p Hp. by apply elem_of_empty in Hp.
    + rewrite Hr. by destruct (rn_role n).
  - by eapply voter_inv_campaign.
  - eapply voter_inv_keep; try done.
    + by rewrite Hk.
    + by rewrite Hr.
    + rewrite Hr, Hvs. unfold term_of in *. rewrite Hhs. simpl. exact Hvo.
    + rewrite Hr. unfold term_of in *. rewrite Hhs. simpl. exact Hld.
  - eapply voter_inv_keep; try done; simpl.
    intros _ q. rewrite elem_of_union, elem_of_singleton. intros [->|?]; [by apply HI|by apply Hvo].
  - eapply voter_inv_keep; try done.
    + by rewrite Hk.
    + by rewrite Hr0.
    + by rewrite Hr.
    + intros _. unfold term_of in *. rewrite Hhs. eapply votes_elect; try done.
      * apply Hrole. by rewrite Hr0.
      * by apply Hvo.
Qed.

(** ** The actions keep the member invariant *)

Lemma moves_stored I n n' : moves I n n' → stored_hs n' = stored_hs n.
Proof.
  induction 1 as [|n1 n2 n3 Hm _ IH]; [done|].
  rewrite IH. apply (fr_stored _ _ (vote_move_frame _ _ _ Hm)).
Qed.

Lemma member_moves V net id hd hst I n n' d out :
  (0 ∉ V) → net_ok V net →
  (∀ p t, in_grant I p t →
    ∃ resp, VResp p id resp ∈ net ∧ rvr_vote_granted resp = true ∧ rvr_term resp = t) →
  moves I n n' →
  member_inv_at V net id hd hst (MkMember n d out) →
  member_inv_at V net id hd hst (MkMember n' d out).
Proof.
  intros HV0 Hnet HI Hm [Hd Hst Ho Ha Hcl Hn Hout Hob Hv]. simpl in *.
  assert (hs_stored n') as (h & Hh & Hle & Hc).
  { eapply moves_preserve; [apply vote_move_stored|exact Hm|]. by exists hst. }
  rewrite (moves_stored I n n' Hm), Hst in Hh. injection Hh as <-.
  split; simpl; try done.
  - by rewrite (moves_stored I n n' Hm).
  - eapply moves_preserve; [|exact Hm|exact Hv]. intros m m'. by apply vote_move_inv.
Qed.

Lemma member_persist V net id hd hst n d out :
  (0 ∉ V) →
  member_inv_at V net id hd hst (MkMember n d out) →
  let n' := (persist_hard_state_if_dirty n).1 in
  ∃ hst', member_inv_at V net id hd hst' (MkMember n' d out) ∧
    (is_ok (persist_hard_state_if_dirty n).2 = true → hst' = rn_hard_state n').
Proof.
  intros HV0 [Hd Hst Ho Ha Hcl Hn Hout Hob Hv]. cbn zeta. simpl in *.
  destruct (persist_frame n) as (Hhs & _ & _ & Hr & _ & _ & Hcfg & Hvs & Hk).
  destruct (persist_stored n) as [(h & Hh & Hle & Hc) Hok]; [by exists hst|].
  set (n' := (persist_hard_state_if_dirty n).1) in *.
  assert (h = hst ∨ h = rn_hard_state n') as Hcase.
  { revert Hok Hh. unfold n', persist_hard_state_if_dirty.
    destruct (rd_hard_state (rn_ready n)); [|simpl; intros _ Hh; left; congruence].
    destruct (save_hard_state _ _) as [s r] eqn:Hs.
    apply save_hard_state_spec in Hs as (_ & _ & _ & _ & Hl). unfold stored_hs in *. simpl.
    destruct r; simpl in *; intros _; rewrite Hl; intros Hh; [right|left]; congruence. }
  assert (hs_le hst h) as Hup by (destruct Hcase as [->| ->]; [done|by rewrite Hhs]).
  exists h. split.
  - split; simpl; try done.
    + by etrans.
    + intros c Hcl'. eapply covers_mono; [|exact Hup|by apply Hout].
      destruct (vi_claim _ _ _ _ _ Hv c) as (_ & Hin & _); [by right; left|].
      intros Hz. apply HV0. by rewrite <-Hz.
    + eapply voter_inv_keep; [done|done|by rewrite Hk|by rewrite Hhs|by rewrite Hr| | |exact Hv].
      * rewrite Hr, Hvs. unfold term_of. rewrite Hhs. apply (vi_votes _ _ _ _ _ Hv).
      * rewrite Hr. unfold term_of. rewrite Hhs. apply (vi_leads _ _ _ _ _ Hv).
  - intros Hr'. rewrite Hhs. destruct (persist_hard_state_if_dirty n) as [n1 [[]|]]; [|done].
    simpl in *. rewrite (Hok eq_refl) in Hh. congruence.
Qed.

(** New messages with claims the node's hard state records, once staged. *)
Lemma member_send V net id hd n d out new :
  member_inv_at V net id hd (rn_hard_state n) (MkMember n d out) →
  Forall (msg_ok V net id) new →
  (∀ c, claims new c → all_claims net id out n c ∨
    cl_term c = term_of n ∧ cl_cand c = voted_for (rn_hard_state n)) →
  member_inv_at V net id hd (rn_hard_state n) (MkMember n d (out ++ new)).
Proof.
  intros [Hd Hst Ho Ha Hcl Hn Hout Hob [Hc Hrole Hrd Hvc Hag Hvo Hld]] Hnew Hclaims. simpl in *.
  assert (∀ c, all_claims net id (out ++ new) n c → all_claims net id out n c ∨
    cl_voter c = id ∧ cl_cand c ∈ V ∧ cl_term c = term_of n ∧
    cl_cand c = voted_for (rn_hard_state n)) as Hsplit.
  { intros c [?|[[?|Hcn]%claims_app|?]]; [by left; left|by left; right; left| |by left; right; right].
    destruct (Hclaims c Hcn) as [?|[? ?]]; [by left|right].
    destruct Hcn as (x & Hx & Hxc). rewrite Forall_forall in Hnew.
    destruct (msg_ok_claim _ _ _ _ _ (Hnew x Hx) Hxc). done. }
  assert (∀ c, all_claims net id (out ++ new) n c →
    cl_voter c = id ∧ cl_cand c ∈ V ∧ covers (rn_hard_state n) c) as Hcov.
  { intros c [Hall|(? & ? & ? & ?)]%Hsplit; [by apply Hvc|]. split_and!; try done. by right. }
  split; simpl; try done.
  - intros c Hin. apply Hcov. by right; left.
  - by apply Forall_app.
  - split; try done. intros t i j Hi Hj.
    destruct (Hsplit _ Hi) as [Hi'|(_ & _ & Ht & Hi')], (Hsplit _ Hj) as [Hj'|(_ & _ & Ht' & Hj')];
      simpl in *; [by eapply Hag| | |congruence].
    + destruct (Hvc _ Hi') as (_ & _ & [?|[_ ?]]); simpl in *; [unfold term_of in *; lia|congruence].
    + destruct (Hvc _ Hj') as (_ & _ & [?|[_ ?]]); simpl in *; [unfold term_of in *; lia|congruence].
Qed.

(** Taking the outputs drops the queued requests. *)
Lemma member_take V net id hd n d out :
  member_inv_at V net id hd (rn_hard_state n) (MkMember n d out) →
  member_inv_at V net id hd (rn_hard_state n) (MkMember (take_ready n).1 d out).
Proof.
  intros [Hd Hst Ho Ha Hcl Hn Hout Hob [Hc Hrole Hrd Hvc Hag Hvo Hld]]. simpl in *.
  assert (∀ c, all_claims net id out (take_ready n).1 c → all_claims net id out n c) as Hsub.
  { intros c [?|[?|(p & Hp & _)]]; [by left|by right; left|by apply elem_of_nil in Hp]. }
  split; simpl; try done. split; try done.
  - intros p t c Hp. by apply elem_of_nil in Hp.
  - intros c Hall. by apply Hvc, Hsub.
  - intros t i j Hi Hj. by eapply Hag; apply Hsub.
Qed.

Lemma request_claims n c :
  claims ((λ pv : u64 * RequestVoteRequest, VReq pv.1 pv.2) <$> rd_vote_requests (rn_ready n)) c →
  ready_claims n c.
Proof.
  intros (x & ([p req] & -> & Hin)%list_elem_of_fmap & [= <-]). exists p. split; [|done].
  apply list_elem_of_fmap. by exists (p, req).
Qed.

Lemma member_tick_inv V net id ev m :
  (0 ∉ V) → net_ok V net → member_inv V net id m → member_inv V net id (member_tick ev m).
Proof.
  intros HV0 Hnet (hd & hst & Hinv). destruct m as [n d out].
  apply (member_moves _ _ _ _ _ (op_inputs OpStorageProgress) _ (on_storage_progress n)) in Hinv;
    [|done|done|done|apply (run_op_moves ev OpStorageProgress)].
  apply (member_moves _ _ _ _ _ (op_inputs OpTick) _ (tick ev (on_storage_progress n))) in Hinv;
    [|done|done|done|apply (run_op_moves ev OpTick)].
  unfold member_tick. simpl. set (n1 := tick ev _) in *. clearbody n1. clear n.
  apply member_persist in Hinv as (hst' & Hinv & Hok); [|done]. unfold drain.
  destruct (persist_hard_state_if_dirty n1) as [n2 r]; simpl in *.
  destruct r as [u|]; [|by exists hd, hst']. specialize (Hok eq_refl). subst hst'.
  exists hd, (rn_hard_state n2). apply (member_take _ _ _ _ n2). apply member_send; [done| |].
  - pose proof (vi_ready _ _ _ _ _ (mi_voter _ _ _ _ _ _ Hinv)) as Hrd. simpl in Hrd.
    apply Forall_forall. intros x ([p req] & -> & Hin)%list_elem_of_fmap. simpl.
    apply (Hrd p (rv_term req)). apply list_elem_of_fmap. by exists (p, req).
  - intros c Hc. left. right. right. by apply request_claims.
Qed.

Lemma request_vote_granted ev req n n' resp :
  handle_request_vote ev req n = (n', resp) → rvr_vote_granted resp = true →
  rvr_term resp = term_of n' ∧ rv_term req = term_of n' ∧
  voted_for (rn_hard_state n') = rv_candidate_id req ∧ is_voter_role (rn_role n') = true.
Proof.
  unfold handle_request_vote, handle_request_vote_at. case_match; [by intros [= <- <-]|].
  set (n1 := if _ : bool then become_follower _ _ _ else n).
  assert (rv_term req ≤ term_of n1) as Hle.
  { unfold n1. case N.ltb_spec; [|done]. intros _. unfold become_follower, term_of. simpl. done. }
  clearbody n1. case N.ltb_spec; [by intros _ [= <- <-]|]. intros Hge.
  destruct (rn_role n1) eqn:Hr; try (by intros [= <- <-]);
    (case_match; [|by intros [= <- <-]]);
    intros [= <- <-] _; simpl; rewrite Hr; unfold term_of in *; simpl; (split_and!; [done|lia|done..]).
Qed.

Lemma member_request_vote_inv V net id ev req m :
  (0 ∉ V) → net_ok V net → VReq id req ∈ net → member_inv V net id m →
  member_inv V net id (member_request_vote ev id req m).
Proof.
  intros HV0 Hnet Hin (hd & hst & Hinv). destruct m as [n d out].
  unfold member_request_vote. simpl.
  apply (member_moves _ _ _ _ _ (op_inputs (OpRequestVote req)) _
    (handle_request_vote ev req n).1) in Hinv;
    [|done|done|done|apply (run_op_moves ev (OpRequestVote req))].
  destruct (handle_request_vote ev req n) as [n1 resp] eqn:Hh. simpl in Hinv.
  pose proof (request_vote_granted _ _ _ _ _ Hh) as Hg.
  destruct (persist_frame n1) as (Hhs & _ & _ & Hrole & _).
  apply member_persist in Hinv as (hst' & Hinv & Hok); [|done].
  destruct (persist_hard_state_if_dirty n1) as [n2 r]; simpl in *.
  destruct r as [u|]; [|by exists hd, hst']. specialize (Hok eq_refl). subst hst'.
  exists hd, (rn_hard_state n2). destruct (Hnet _ Hin) as (owner & Hown & HoV & HidV & Hne).
  apply member_send; [done| |].
  - apply Forall_singleton. split; [done|]. intros Hgr. destruct (Hg Hgr) as (Ht & Hrt & _).
    exists req. by rewrite Hrt, Ht, Hown.
  - intros c (x & ->%list_elem_of_singleton & Hx). simpl in Hx. case_match eqn:Hgr; [|done].
    injection Hx as <-. destruct (Hg eq_refl) as (Ht & _ & Hv & _). right. simpl.
    unfold term_of in *. rewrite Hhs. by rewrite Ht, Hv.
Qed.

(** What a mount reads back, whatever else the storage holds. *)
Lemma boot_ok ev config d n :
  boot ev config d = (n, Ok tt) →
  load_hard_state d = Ok (rn_hard_state n) ∧ stored_hs n = load_hard_state d ∧
  rn_config n = config ∧ rn_ready n = ready_default ∧ rn_votes_received n = ∅ ∧
  rn_role n =
    (if starts_as_observer config then Observer
     else if starts_as_learner config then Learner else Follower).
Proof.
  unfold boot, node_restore, log_restore. simpl.
  destruct (load_hard_state d) as [h|] eqn:Hh; [|done]. simpl.
  destruct (load_applied_index d) as [a|]; [|done]. simpl.
  destruct (snapshot_metadata d) as [si st]. simpl.
  destruct (load_entries_after si d) as [es|]; [|done].
  intros [= <-]. unfold stored_hs. simpl. rewrite Hh. done.
Qed.

Lemma member_boot V net id ev config hd n d :
  (0 ∉ V) → config_ok V id config → boot ev config d = (n, Ok tt) → load_hard_state d = Ok hd →
  (∀ c, claims net c → cl_voter c = id → cl_cand c ∈ V ∧ covers hd c) →
  (∀ t i j, claims net (MkClaim id t i) → claims net (MkClaim id t j) → i = j) →
  member_inv_at V net id hd hd (MkMember n d []).
Proof.
  intros HV0 Hcfg Hb Hd Hnet Hag.
  destruct (boot_ok _ _ _ _ Hb) as (Hhs & Hst & Hc & Hrd & Hvs & Hrole).
  assert (rn_hard_state n = hd) as Heq by congruence.
  assert (∀ c, all_claims net id [] n c → claims net c ∧ cl_voter c = id) as Hall.
  { intros c [?|[[]%claims_nil|(p & Hp & _)]]; [done|].
    rewrite Hrd in Hp. by apply elem_of_nil in Hp. }
  split; simpl; try done.
  - by rewrite Hst.
  - by rewrite Heq.
  - intros c Hin Hv. by apply Hnet.
  - by intros c Hc'%claims_nil.
  - split.
    + by rewrite Hc.
    + rewrite Hrole. intros Hvr. destruct (decide (id ∈ V)) as [|Hn]; [done|].
      destruct Hcfg as (_ & _ & _ & _ & Hl). destruct (Hl Hn) as [E|E]; rewrite E in Hvr;
        by repeat case_match.
    + rewrite Hrd. intros p t c Hp. by apply elem_of_nil in Hp.
    + intros c [Hin Hv]%Hall. destruct (Hnet c Hin Hv). by rewrite Heq.
    + intros t i j [Hi _]%Hall [Hj _]%Hall. by eapply Hag.
    + rewrite Hrole. by repeat case_match.
    + rewrite Hrole. by repeat case_match.
Qed.

(** Messages of another node that join the network. *)
Lemma member_net_grow V net sent id m :
  (∀ c, claims sent c → cl_voter c ≠ id) →
  member_inv V net id m → member_inv V (net ++ sent) id m.
Proof.
  intros Hsent (hd & hst & [Hd Hst Ho Ha Hcl Hn Hout Hob [Hc Hrole Hrd Hvc Hag Hvo Hld]]).
  assert (∀ x, x ∈ net → x ∈ net ++ sent) as Hsub by (intros; apply elem_of_app; auto).
  assert (∀ c, all_claims (net ++ sent) id (mb_outbox m) (mb_node m) c →
    all_claims net id (mb_outbox m) (mb_node m) c) as Hall.
  { intros c [[[?|Hs]%claims_app Hv]|?]; [by left|by destruct (Hsent c Hs)|by right]. }
  exists hd, hst. split; try done.
  - intros c [?|Hs]%claims_app Hv; [by apply Hn|by destruct (Hsent c Hs)].
  - eapply Forall_impl; [exact Hob|]. intros x. by apply msg_ok_mono.
  - split; try done.
    + intros c Hx%Hall. by apply Hvc.
    + intros t i j Hi%Hall Hj%Hall. by eapply Hag.
    + intros Hr p Hp. destruct (Hvo Hr p Hp) as (resp & ? & ?). exists resp. auto.
    + intros Hr. by eapply elected_mono; [|apply Hld].
Qed.

(** The member that flushes: what waited is durable and leaves. *)
Lemma member_flush V net id m :
  (0 ∉ V) → member_inv V net id m →
  member_inv V (net ++ mb_outbox m) id
    (MkMember (mb_node m) (lg_storage (rn_log (mb_node m))) []).
Proof.
  intros HV0 (hd & hst & [Hd Hst Ho Ha Hcl Hn Hout Hob [Hc Hrole Hrd Hvc Hag Hvo Hld]]).
  assert (∀ x, x ∈ net → x ∈ net ++ mb_outbox m) as Hsub by (intros; apply elem_of_app; auto).
  assert (∀ c, all_claims (net ++ mb_outbox m) id [] (mb_node m) c →
    all_claims net id (mb_outbox m) (mb_node m) c) as Hall.
  { intros c [[[?|?]%claims_app Hv]|[[]%claims_nil|?]]; [by left|by right; left|by right; right]. }
  assert (∀ c, claims net c → cl_voter c = id → cl_cand c ≠ 0) as Hnz.
  { intros c Hin Hv Hz. apply HV0. rewrite <-Hz. apply Hvc. by left. }
  exists hst, hst. split; simpl; try done.
  - intros c [Hc'|Hc']%claims_app Hv; [|by apply Hout].
    eapply covers_mono; [by apply Hnz|exact Ho|by apply Hn].
  - by intros c Hc'%claims_nil.
  - split; try done.
    + intros c Hx%Hall. by apply Hvc.
    + intros t i j Hi%Hall Hj%Hall. by eapply Hag.
    + intros Hr p Hp. destruct (Hvo Hr p Hp) as (resp & ? & ?). exists resp. auto.
    + intros Hr. by eapply elected_mono; [|apply Hld].
Qed.

(** ** The group *)

Record group_inv V (g : Group S) : Prop := MkGroupInv {
  gi_zero : 0 ∉ V;
  gi_net : net_ok V (gr_net g);
  gi_agree : net_agrees (gr_net g);
  gi_members : map_Forall (member_inv V (gr_net g)) (gr_members g);
  gi_elected : ∀ t i, (t, i) ∈ gr_elected g → elected_by V (gr_net g) t i;
}.

(** One action on a member: its invariant over the network it leaves behind,
    and what it sends is its own outbox. *)
Lemma member_act_inv V net id a m m' sent :
  (0 ∉ V) → net_ok V net → net_agrees net → action_id a = id →
  member_act net a m = (m', sent) → member_inv V net id m →
  member_inv V (net ++ sent) id m' ∧ (sent = [] ∨ sent = mb_outbox m).
Proof.
  intros HV0 Hnet Hag <- Hact Hinv.
  assert (∀ x, member_inv V net (action_id a) x → (m', sent) = (x, []) →
    member_inv V (net ++ sent) (action_id a) m' ∧ (sent = [] ∨ sent = mb_outbox m)) as Hquiet.
  { intros x Hx [= -> ->]. rewrite app_nil_r. auto. }
  destruct a as [id ev|id ev op|id|id ev req|id ev from resp|id|id ev]; simpl in *.
  - eapply Hquiet; [|done]. by apply member_tick_inv.
  - destruct (is_vote_op op) eqn:Hop; [by eapply Hquiet|]. eapply Hquiet; [|done].
    destruct m as [n d out], Hinv as (hd & hst & Hinv). exists hd, hst.
    eapply member_moves; [done|done| |apply (run_op_moves ev op)|done].
    intros p t. by destruct op.
  - eapply Hquiet; [|done]. destruct m as [n d out], Hinv as (hd & hst & Hinv).
    apply member_persist in Hinv as (hst' & Hinv & _); [|done]. by exists hd, hst'.
  - case_bool_decide as Hin; [|by eapply Hquiet]. eapply Hquiet; [|done].
    by apply member_request_vote_inv.
  - case_bool_decide as Hin; [|by eapply Hquiet]. eapply Hquiet; [|done].
    destruct m as [n d out], Hinv as (hd & hst & Hinv). exists hd, hst.
    eapply member_moves; [done|done| |apply (run_op_moves ev (OpRequestVoteResponse from resp))|done].
    intros p t (-> & Ht & Hg). by exists resp.
  - injection Hact as <- <-. split; [|by right]. by apply member_flush.
  - destruct (boot ev _ _) as [n [[]|]] eqn:Hb; [|by eapply Hquiet]. eapply Hquiet; [|done].
    destruct Hinv as (hd & hst & [Hd _ _ _ _ Hn _ _ Hv]). exists hd, hd.
    eapply member_boot; [done|apply Hv|done..| |].
    + intros c Hin Hc. split; [|by apply Hn]. apply (vi_claim _ _ _ _ _ Hv). by left.
    + intros t i j. apply Hag.
Qed.

Lemma group_act_inv V g a : group_inv V g → group_inv V (group_act g a).
Proof.
  intros Hg. pose proof Hg as [HV0 Hnet Hag Hmem Hel]. unfold group_act.
  destruct (gr_members g !! action_id a) as [m|] eqn:Hm; [|done].
  destruct (member_act (gr_net g) a m) as [m' sent] eqn:Hact.
  pose proof (Hmem _ _ Hm) as Hinv. simpl in Hinv.
  destruct (member_act_inv V _ _ _ _ _ _ HV0 Hnet Hag eq_refl Hact Hinv) as [Hinv' Hsent].
  assert (∀ x, x ∈ gr_net g → x ∈ gr_net g ++ sent) as Hsub by (intros; apply elem_of_app; auto).
  assert (Forall (msg_ok V (gr_net g) (action_id a)) sent) as Hok.
  { destruct Hsent as [->| ->]; [done|]. destruct Hinv as (? & ? & Hi). apply Hi. }
  assert (∀ c, claims sent c → cl_voter c = action_id a) as Hown.
  { intros c (x & Hx & Hc). rewrite Forall_forall in Hok.
    exact (proj1 (msg_ok_claim V (gr_net g) _ x c (Hok x Hx) Hc)). }
  split; simpl; try done.
  - intros x [Hx|Hx]%elem_of_app.
    + destruct (Hnet x Hx) as [o Ho]. exists o. by eapply msg_ok_mono.
    + exists (action_id a). rewrite Forall_forall in Hok. eapply msg_ok_mono; [done|by apply Hok].
  - intros v t i j Hi Hj. destruct (decide (v = action_id a)) as [->|Hne].
    + destruct Hinv' as (hd & hst & Hi'). eapply (vi_agree _ _ _ _ _ (mi_voter _ _ _ _ _ _ Hi') t);
        by left.
    + apply claims_app in Hi as [Hi|Hi]; [|by apply Hown in Hi].
      apply claims_app in Hj as [Hj|Hj]; [|by apply Hown in Hj]. by eapply Hag.
  - intros id x [[<- <-]|[Hne Hx]]%lookup_insert_Some; [done|].
    apply member_net_grow; [|by apply Hmem]. intros c Hc. by rewrite (Hown c Hc).
  - intros t i [Hin|Hin]%elem_of_app; [by eapply elected_mono; [|apply Hel]|].
    unfold leading in Hin. destruct (rn_role (mb_node m')) eqn:Hr; try by apply elem_of_nil in Hin.
    apply list_elem_of_singleton in Hin as [= -> ->].
    destruct Hinv' as (hd & hst & Hi'). by apply (vi_leads _ _ _ _ _ (mi_voter _ _ _ _ _ _ Hi')).
Qed.

Lemma group_fresh_inv V g : group_fresh V g → group_inv V g.
Proof.
  intros (HV0 & Hmem & Hnet & Hel). split; rewrite ?Hnet, ?Hel; try done.
  - intros x Hx. by apply elem_of_nil in Hx.
  - by intros v t i j ?%claims_nil.
  - intros id m Hm. destruct (Hmem id m Hm) as (ev & config & Hc & Hb & Ho).
    destruct m as [n d out]. simpl in *. subst out. exists (rn_hard_state n), (rn_hard_state n).
    eapply member_boot; [done..| | |].
    + by apply boot_ok in Hb as [? _].
    + by intros c ?%claims_nil.
    + by intros t i j ?%claims_nil.
  - intros t i Hx. by apply elem_of_nil in Hx.
Qed.

(** C3. Election safety: over every run of a group with voters [V] (ticks,
    message deliveries in any order and number, failing writes, crashes that
    lose what is not durable, restarts), two nodes that ever led in the same
    term are the same node. *)
Theorem election_safety V g acts t i j :
  group_fresh V g →
  (t, i) ∈ gr_elected (group_run acts g) → (t, j) ∈ gr_elected (group_run acts g) → i = j.
Proof.
  intros Hf Hi Hj. assert (group_inv V (group_run acts g)) as Hg.
  { apply group_fresh_inv in Hf. revert g Hf Hi Hj. unfold group_run.
    induction acts as [|a acts IH]; intros g Hf; simpl; [done|]. intros.
    apply IH; [by apply group_act_inv|done|done]. }
  eapply elected_unique; [apply Hg|by apply Hg|by apply Hg].
Qed.
End election.
