(* ===== verification/RaftSpecs.v ===== *)
(** * What the node's decisions mean

    The commit rule and a successful [AppendEntries], stated on the log and
    the voters instead of on the tables the code walks. *)

From stdpp Require Import base list option gmap relations sorting.
From S2P Require Import Prelude RaftState RaftLog RaftLogFacts RaftNode RaftOps RaftRpc.
From S2P Require Import RaftNodeFacts RaftSteps RaftNodeThms RaftDurability.

Open Scope N_scope.

Section specs.
Context {S : Type} `{LogStorageSpec S}.
Implicit Types (n : RaftNode S) (ev : Env) (leader : LeaderState).

(** ** The commit rule *)

(** The voters known to hold index [i] durably: this node when its own disk
    does, and each voter peer whose match index reaches it. *)
Definition holders n leader (i : u64) : list u64 :=
  (if i <=? stable_index (rn_log n) then [node_id (rn_config n)] else []) ++
  List.filter (λ p, i <=? ls_match_index_for leader p) (peers (rn_config n)).

(** A majority of the voters hold index [i], and its entry is of the current
    term. *)
Definition committable n leader (i : u64) : Prop :=
  term_at (rn_log n) i = Some (term_of n) ∧
  cluster_size (rn_config n) < 2 * N.of_nat (length (holders n leader i)).

Lemma commit_quorum_at_spec n leader i :
  commit_quorum_at n leader i = true ↔ committable n leader i.
Proof.
  unfold commit_quorum_at, committable, holders, quorum, count. rewrite length_app.
  pose proof (half_bounds (cluster_size (rn_config n))) as Hh.
  destruct (term_at (rn_log n) i) as [t|]; [|naive_solver].
  destruct (N.eqb_spec t (term_of n)) as [->|Hne]; simpl.
  - rewrite N.leb_le. case_match; simpl; split; [intros; split; [done|lia]|intros [_ ?]; lia|
      intros; split; [done|lia]|intros [_ ?]; lia].
  - split; [done|]. intros [[= ?] _]. done.
Qed.

Lemma collect_commit n : commit_of (collect_committed_entries n) = commit_of n.
Proof. unfold collect_committed_entries, queue_committed_entries. by repeat case_match; simplify_eq. Qed.

(** The commit rule: a leader moves its commit index to the greatest
    index of its log above it that a majority of the voters holds durably and
    whose entry is of its own term, and leaves it alone when there is none.
    Learners and observers never count, nor does the leader's own copy until
    its disk holds it. *)
Theorem commit_rule n leader :
  rn_leader_state n = Some leader →
  let n' := try_advance_commit_index n in
  (commit_of n' = commit_of n ∨
   commit_of n < commit_of n' ≤ last_index (rn_log n) ∧ committable n leader (commit_of n')) ∧
  (∀ i, commit_of n < i ≤ last_index (rn_log n) → committable n leader i → i ≤ commit_of n').
Proof.
  intros Hls. unfold try_advance_commit_index. rewrite Hls. simpl.
  destruct (List.find _ _) as [i|] eqn:Hf.
  - rewrite collect_commit. change (commit_of (upd _ _ n)) with i.
    apply find_rev_range in Hf as (Hr & Hi & Hmax). split.
    + right. split; [lia|]. by apply commit_quorum_at_spec.
    + intros j Hj Hc. destruct (decide (j ≤ i)) as [|Hgt]; [done|].
      apply commit_quorum_at_spec in Hc. rewrite Hmax in Hc by lia. done.
  - split; [by left|]. intros j Hj Hc%commit_quorum_at_spec.
    rewrite (find_rev_range_None _ _ _ Hf) in Hc by lia. done.
Qed.

(** ** A successful [AppendEntries] *)

(** The last index the request shows the follower and the leader share. *)
Definition request_match (req : AppendEntriesRequest) : u64 :=
  match last (ae_entries req) with Some e => e_index e | None => ae_prev_log_index req end.

Lemma become_follower_term ev t n : term_of (become_follower ev t n) = t.
Proof. done. Qed.

Lemma set_contact_term id ev f c n :
  term_of ((reset_election_timeout ev (n {{ rn_leader_id := id }}))
    {{ rn_replicated_floor ::= f; rn_leader_contact := c }}) = term_of n.
Proof. done. Qed.

Lemma accept_leader_term ev req n :
  term_of n ≤ ae_term req → term_of (accept_leader ev req n) = ae_term req.
Proof.
  intros Hle. unfold accept_leader. rewrite set_contact_term.
  case_match eqn:Hc; [apply become_follower_term|].
  apply orb_false_iff in Hc as [[Hc%N.ltb_ge _]%orb_false_iff _]. lia.
Qed.

Lemma set_contact_volatile id ev f c n :
  rn_volatile ((reset_election_timeout ev (n {{ rn_leader_id := id }}))
    {{ rn_replicated_floor ::= f; rn_leader_contact := c }}) = rn_volatile n.
Proof. done. Qed.

Lemma become_follower_volatile ev t n : rn_volatile (become_follower ev t n) = rn_volatile n.
Proof. unfold become_follower. by destruct (rn_role n); simpl; case_match. Qed.

Lemma accept_leader_volatile ev req n : rn_volatile (accept_leader ev req n) = rn_volatile n.
Proof.
  unfold accept_leader. rewrite set_contact_volatile.
  case_match; [apply become_follower_volatile|done].
Qed.

Lemma collect_log n : rn_log (collect_committed_entries n) = rn_log n.
Proof. unfold collect_committed_entries, queue_committed_entries. by repeat case_match; simplify_eq. Qed.

Lemma collect_term n : term_of (collect_committed_entries n) = term_of n.
Proof. unfold collect_committed_entries, queue_committed_entries. by repeat case_match; simplify_eq. Qed.

(** What the log holds after a match at [prev]. *)
Lemma append_keeps_prev l prev es l' w :
  log_wf l → contiguous prev es → prev ≤ last_index l →
  log_append_entries prev es l = (l', Ok w) → term_at l' prev = term_at l prev.
Proof.
  intros Hwf Hc Hp Happ.
  destruct (log_append_entries_last _ _ _ _ _ Hwf Hc Hp Happ) as (Hs & Ht & _).
  assert (entry_at l' prev = entry_at l prev) as He.
  { pose proof (log_append_entries_lookup _ _ _ _ _ Hwf Hc Hp Happ)
      as [(_ & -> & _)|(_ & k & e & Hk & _ & _ & Hlook)]; [done|].
    rewrite Hlook, (proj2 (N.ltb_lt _ _)); [done|]. rewrite (Hc _ _ Hk). lia. }
  unfold term_at. by rewrite Hs, Ht, He.
Qed.

Lemma append_to_log_success req n n' resp :
  log_wf (rn_log n) → contiguous (ae_prev_log_index req) (ae_entries req) →
  append_to_log req n = (n', resp) → aer_success resp = true →
  term_of n' = term_of n ∧ aer_term resp = term_of n ∧
  (0 < ae_prev_log_index req →
     term_at (rn_log n') (ae_prev_log_index req) = Some (ae_prev_log_term req)) ∧
  (∀ e, e ∈ ae_entries req → lg_snapshot_index (rn_log n) < e_index e →
     term_at (rn_log n') (e_index e) = Some (e_term e)) ∧
  commit_of n' = N.max (commit_of n) (N.min (ae_leader_commit req) (request_match req)) ∧
  aer_last_log_index resp ≤ request_match req.
Proof.
  intros Hwf Hc. unfold append_to_log.
  do 2 (case_match; [by intros [= <- <-]|]). case_match eqn:Hp; [by intros [= <- <-]|].
  apply negb_false_iff in Hp. pose proof (prev_log_matches_last _ _ Hwf Hp) as Hle.
  destruct (log_append_entries _ _ _) as [l [w|]] eqn:Hl; [|by intros [= <- <-]].
  fold (request_match req). set (c := N.min _ _).
  pose proof (append_keeps_prev _ _ _ _ _ Hwf Hc Hle Hl) as Hprev.
  pose proof (log_append_entries_holds _ _ _ _ _ Hwf Hc Hle Hl) as Hents.
  assert (0 < ae_prev_log_index req →
    term_at l (ae_prev_log_index req) = Some (ae_prev_log_term req)) as Hprev'.
  { intros Hpos. rewrite Hprev. revert Hp. unfold prev_log_matches.
    rewrite (proj2 (N.ltb_lt _ _) Hpos). destruct (term_at (rn_log n) _); [|discriminate].
    by intros ->%N.eqb_eq. }
  assert (∀ m : RaftNode S, claimable_match m (request_match req) w ≤ request_match req) as Hclaim.
  { intros m. unfold claimable_match. case_match; lia. }
  case N.ltb_spec; intros Hcm [= <- <-] _; unfold append_reply; simpl;
    rewrite ?collect_term, ?collect_log, ?collect_commit;
    (split_and!; [done..|unfold commit_of in *; simpl in *; lia|apply Hclaim]).
Qed.

(** When a follower answers [AppendEntries] with success, its term is the
    leader's, its log agrees with the leader's at [prev] and at every entry of
    the request above its snapshot, its commit index is the greater of its
    own and what the request lets it commit, and the match index it claims is
    no more than what the request proves. *)
Theorem append_entries_success ev req n n' resp :
  log_wf (rn_log n) → contiguous (ae_prev_log_index req) (ae_entries req) →
  handle_append_entries ev req n = (n', resp) → aer_success resp = true →
  term_of n ≤ ae_term req ∧ term_of n' = ae_term req ∧ aer_term resp = ae_term req ∧
  (0 < ae_prev_log_index req →
     term_at (rn_log n') (ae_prev_log_index req) = Some (ae_prev_log_term req)) ∧
  (∀ e, e ∈ ae_entries req → lg_snapshot_index (rn_log n) < e_index e →
     term_at (rn_log n') (e_index e) = Some (e_term e)) ∧
  commit_of n' = N.max (commit_of n) (N.min (ae_leader_commit req) (request_match req)) ∧
  aer_last_log_index resp ≤ request_match req.
Proof.
  intros Hwf Hc. unfold handle_append_entries. case N.ltb_spec; [by intros _ [= <- <-]|].
  intros Hle Happ Hs. pose proof (view_log _ _ (accept_leader_view ev req n)) as Hlog.
  rewrite <-Hlog in Hwf.
  destruct (append_to_log_success _ _ _ _ Hwf Hc Happ Hs) as (Ht & Hrt & Hp & He & Hcm & Hm).
  rewrite accept_leader_term in Ht, Hrt by done. rewrite Hlog in He.
  unfold commit_of in Hcm. rewrite accept_leader_volatile in Hcm. by split_and!.
Qed.
End specs.
