(* ===== verification/RaftLeases.v ===== *)
(** * Leases and check-quorum

    How a leader knows it still leads: the lease anchor and the votes it
    blocks, and the check-quorum step-down. *)

From stdpp Require Import base list option gmap relations sorting.
From S2P Require Import Prelude RaftState RaftLog RaftLogFacts RaftNode RaftOps RaftRpc.
From S2P Require Import RaftNodeFacts RaftSteps RaftNodeThms RaftDurability.

Open Scope N_scope.

(** ** Lease rounds *)

(** The rounds awaiting answers are in ascending order and below the next
    round, so [binary_search_by_key] finds the one position of a round. *)
Definition lease_ok (le : LeaseState) : Prop :=
  StronglySorted N.lt (sent le).*1 ∧ Forall (λ r, r < next_round le) (sent le).*1.

Lemma StronglySorted_snoc {A} (R : A → A → Prop) l x :
  StronglySorted R l → Forall (λ y, R y x) l → StronglySorted R (l ++ [x]).
Proof.
  induction 1 as [|a l Hs IH Ha]; simpl; intros Hx; [by repeat constructor|].
  apply Forall_cons in Hx as [? ?]. constructor; [auto|]. by apply Forall_app; split; [|constructor].
Qed.

Lemma StronglySorted_drop {A} (R : A → A → Prop) k l :
  StronglySorted R l → StronglySorted R (drop k l).
Proof.
  revert l. induction k as [|k IH]; intros l Hs; [done|]. destruct Hs; simpl; [constructor|auto].
Qed.

(** A drop keeps the rounds in order. *)
Lemma lease_ok_drop le k : lease_ok le → lease_ok (le {{ sent ::= drop k }}).
Proof.
  intros [Hs Hf]. unfold lease_ok. simpl. rewrite fmap_drop.
  split; [by apply StronglySorted_drop|by apply Forall_drop].
Qed.

Lemma lease_rounds_sorted now le :
  next_round le < u64_max → lease_ok le → lease_ok (stamp now le).1.
Proof.
  intros Hmax Hok. unfold stamp.
  set (le1 := le {{ next_round := _ }}).
  assert (next_round le1 = next_round le + 1) as Hn.
  { unfold le1. simpl. unfold sat_add64. lia. }
  assert (lease_ok le1 ∧ Forall (λ r, r < next_round le) (sent le1).*1) as [Hok1 Hlt].
  { destruct Hok as [Hs Hf]. split; [|done]. split; [done|]. rewrite Hn.
    eapply Forall_impl; [exact Hf|]. simpl. lia. }
  set (le2 := if _ : bool then _ else _).
  assert (lease_ok le2 ∧ Forall (λ r, r < next_round le) (sent le2).*1 ∧
    next_round le2 = next_round le + 1) as ([Hs2 Hf2] & Hlt2 & Hn2).
  { unfold le2. case_match; [|done].
    replace (upd sent tail le1) with (le1 {{ sent ::= drop 1 }}) by (by destruct le1 as [?? []]).
    split_and!; [by apply lease_ok_drop|simpl; rewrite fmap_drop; by apply Forall_drop|done]. }
  split; simpl; rewrite fmap_app; simpl.
  - by apply StronglySorted_snoc.
  - rewrite Hn2. apply Forall_app. split; [eapply Forall_impl; [exact Hlt2|simpl; lia]|].
    apply Forall_singleton. lia.
Qed.

Section leases.
Context {S : Type} `{LogStorageSpec S}.
Implicit Types (n : RaftNode S) (ev : Env).

(** This node and the voter peers for which [f] holds are a majority. *)
Definition majority_with n (f : u64 → bool) : Prop :=
  cluster_size (rn_config n) < 2 * N.of_nat (1 + count f (peers (rn_config n))).

Lemma majority_quorum n f :
  majority_with n f ↔ quorum (rn_config n) - 1 ≤ N.of_nat (count f (peers (rn_config n))).
Proof.
  unfold majority_with, quorum. pose proof (half_bounds (cluster_size (rn_config n))). lia.
Qed.

(** ** The lease anchor *)

Lemma settle_anchor round le le' a :
  settle round le = (le', a) →
  (anchor le' = anchor le ∨
   ∃ at_, anchor le' = Some at_ ∧ (round, at_) ∈ sent le) ∧
  (∀ x, anchor le = Some x → ∃ y, anchor le' = Some y ∧ x ≤ y).
Proof.
  unfold settle. destruct (position _ _) as [pos|] eqn:Hp.
  - apply position_Some in Hp as [([r t] & Hl & Hr%N.eqb_eq) _]. simpl in Hr. subst r.
    rewrite Hl. apply list_elem_of_lookup_2 in Hl.
    destruct (anchor le) as [x|] eqn:Ha.
    + case N.ltb_spec; intros Hlt [= <- <-]; simpl; rewrite ?Ha.
      * split; [right; by exists t|]. intros ? [= <-]. exists t. split; [done|lia].
      * split; [by left|]. intros ? [= <-]. by exists x.
    + intros [= <- <-]. simpl. split; [right; by exists t|done].
  - intros [= <- <-]. split; [by left|]. intros x ->. by exists x.
Qed.

(** The lease anchor: settling moves it only to the send time of a round
    of this leadership that a majority of the voters (the leader included)
    has answered, and never moves it back. *)
Theorem lease_anchor_sound n n' a :
  settle_lease n = (n', a) →
  (anchor (rn_lease n') = anchor (rn_lease n) ∨
   ∃ round at_, anchor (rn_lease n') = Some at_ ∧ (round, at_) ∈ sent (rn_lease n) ∧
     majority_with n (λ p, round <=? acked_round n p)) ∧
  (∀ x, anchor (rn_lease n) = Some x → ∃ y, anchor (rn_lease n') = Some y ∧ x ≤ y).
Proof.
  unfold settle_lease. case N.eqb_spec.
  { intros _ [= <- <-]. split; [by left|]. intros x ->. by exists x. }
  intros Hne. destruct (_ !! _) as [r|] eqn:Hr.
  2: { intros [= <- <-]. split; [by left|]. intros x ->. by exists x. }
  case_match.
  { intros [= <- <-]. split; [by left|]. intros x ->. by exists x. }
  destruct (settle r (rn_lease n)) as [le b] eqn:Hs. intros [= <- <-]. simpl.
  apply settle_anchor in Hs as [Hcase Hmono]. split; [|done].
  destruct Hcase as [?|(t & ? & ?)]; [by left|right]. exists r, t. split_and!; [done..|].
  apply majority_quorum. apply sort_desc_lookup in Hr as [Hc _]. rewrite count_fmap in Hc. lia.
Qed.

(** C20. While a lease is valid, a voter that heard the leader no earlier
    than the lease's anchor refuses every vote request that is not part of a
    leadership transfer, and keeps its term, vote and log untouched, even when
    its clock ran ahead of the leader's by the drift margin. *)
Theorem lease_blocks_votes ev (leader follower : RaftNode S) a contact req now now_f :
  lease_valid leader now = true → peers (rn_config leader) ≠ [] →
  anchor (rn_lease leader) = Some a → a ≤ now →
  is_voter_role (rn_role follower) = true →
  rn_leader_contact follower = Some contact →
  election_timeout_min (rn_config follower) = election_timeout_min (rn_config leader) →
  now_f - lc_at contact ≤ (now - a) + lease_drift_margin (rn_config leader) →
  rv_transfer req = false →
  handle_request_vote_at ev req now_f follower =
    (follower, MkRequestVoteResponse (term_of follower) false).
Proof.
  intros Hv Hp Ha Hle Hrole Hc Hmin Hdrift Htr.
  assert (now < a + lease_duration (rn_config leader)) as Hlt.
  { revert Hv Hp. unfold lease_valid, expires_at. case_match; [done|].
    destruct (peers (rn_config leader)); [done|]. intros Hv _. revert Hv.
    destruct (revoked (rn_lease leader)); [done|]. rewrite Ha. simpl. apply N.ltb_lt. }
  assert (vote_refusal_active follower now_f = true) as Href.
  { unfold vote_refusal_active. case_match; [done|]. rewrite Hc, Hmin. apply N.ltb_lt.
    unfold lease_duration in Hlt. lia. }
  unfold handle_request_vote_at. by rewrite Hrole, Htr, Href.
Qed.

(** ** Check-quorum *)

(** [p] answered within the step-down window. *)
Definition heard_in_window n (now : Instant) (p : u64) : bool :=
  match voter_ack n p with
  | Some ack => now - va_arrived ack <? election_timeout_max (rn_config n)
  | None => false
  end.

Lemma count_omap {A B} (f : B → bool) (g : A → option B) (l : list A) :
  count f (omap g l) = count (λ x, match g x with Some y => f y | None => false end) l.
Proof.
  unfold count. induction l as [|a l IH]; csimpl; [done|].
  destruct (g a) as [b|]; simpl; [|done]. destruct (f b); simpl; lia.
Qed.

(** The refreshed contact time is stale exactly when it was stale and no
    majority answered in the window. *)
Lemma refresh_contact_lost n now last :
  rn_role n = Leader → rn_last_quorum_contact n = Some last →
  0 < election_timeout_max (rn_config n) →
  quorum_contact_lost (refresh_quorum_contact now n) now = false ↔
  now - last < election_timeout_max (rn_config n) ∨ majority_with n (heard_in_window n now).
Proof.
  intros Hr Hl Hpos. rewrite majority_quorum. unfold refresh_quorum_contact. rewrite Hr, Hl.
  set (k := quorum (rn_config n) - 1). set (mx := election_timeout_max (rn_config n)) in *.
  assert (∀ t, quorum_contact_lost (n {{ rn_last_quorum_contact := Some t }}) now = false ↔
    now - t < mx) as Hlost.
  { intros t. unfold quorum_contact_lost. simpl. rewrite Hr. apply N.leb_gt. }
  assert (quorum_contact_lost n now = false ↔ now - last < mx) as Hlost0.
  { unfold quorum_contact_lost. rewrite Hr, Hl. apply N.leb_gt. }
  case N.eqb_spec; intros Hk; [rewrite Hlost; lia|].
  set (arr := omap _ _).
  assert (count (heard_in_window n now) (peers (rn_config n)) =
    count (λ x, now - x <? mx)%N arr) as ->.
  { unfold arr. rewrite count_omap. apply count_ext. intros p _. unfold heard_in_window.
    by destruct (voter_ack n p). }
  clearbody arr. destruct (sort_desc arr !! N.to_nat (k - 1)) as [c|] eqn:Hc.
  - apply sort_desc_lookup in Hc as [Hge Hgt].
    assert (k ≤ N.of_nat (count (λ x, now - x <? mx) arr) ↔ now - c < mx) as ->.
    { split.
      - intros Hcnt. destruct (decide (now - c < mx)) as [|Hn]; [done|exfalso].
        assert (count (λ x, now - x <? mx)%N arr ≤ count (λ x, c <? x)%N arr)%nat; [|lia].
        apply count_mono. intros x _ Hx%N.ltb_lt. apply N.ltb_lt. lia.
      - intros Hfresh. assert (count (λ x, c <=? x)%N arr ≤ count (λ x, now - x <? mx)%N arr)%nat; [|lia].
        apply count_mono. intros x _ Hx%N.leb_le. apply N.ltb_lt. lia. }
    case N.ltb_spec; intros Hlc; rewrite ?Hlost, ?Hlost0; lia.
  - apply lookup_ge_None in Hc.
    rewrite (Permutation_length (sort_desc_Permutation arr)) in Hc.
    pose proof (count_le_length (λ x, now - x <? mx) arr). rewrite Hlost0. lia.
Qed.

(** Check-quorum: on a tick a leader stays leader exactly when its last
    quorum contact is within the step-down window or, with itself, a majority
    of the voters answered within it; otherwise it steps down to follower. *)
Theorem check_quorum ev n last :
  rn_role n = Leader → rn_last_quorum_contact n = Some last →
  0 < election_timeout_max (rn_config n) →
  let connected :=
    env_now ev - last < election_timeout_max (rn_config n) ∨
    majority_with n (heard_in_window n (env_now ev)) in
  (connected → rn_role (tick ev n) = Leader) ∧ (¬ connected → rn_role (tick ev n) = Follower).
Proof.
  intros Hr Hl Hpos connected. unfold tick. rewrite Hr.
  set (n1 := match rn_leadership_transfer n with Some _ => _ | None => _ end).
  assert (quorum_contact_lost (refresh_quorum_contact (env_now ev) n1) (env_now ev) = false ↔
    connected) as Hiff.
  { assert (n1 = n ∨ n1 = n {{ rn_leadership_transfer := None }}) as [-> | ->].
    - unfold n1. repeat case_match; auto.
    - exact (refresh_contact_lost n (env_now ev) last Hr Hl Hpos).
    - rewrite (refresh_contact_lost (n {{ rn_leadership_transfer := None }}) (env_now ev) last)
        by done.
      unfold connected, majority_with, heard_in_window, voter_ack. done. }
  assert (rn_role (refresh_quorum_contact (env_now ev) n1) = Leader) as Hr1.
  { destruct (touched_inv _ _ _ (touched_refresh (env_now ev) n1)) as (t & -> & _).
    unfold n1. simpl. by repeat case_match. }
  set (n2 := refresh_quorum_contact (env_now ev) n1) in *. clearbody n2. split.
  - intros Hc%Hiff. rewrite Hc. case_match; [|done].
    destruct (touched_inv _ _ _ (touched_replicate ev n2)) as (t & -> & _). done.
  - intros Hc. destruct (quorum_contact_lost n2 (env_now ev)) eqn:E; [|by destruct Hc; apply Hiff].
    unfold become_follower. rewrite Hr1. simpl. by case_match.
Qed.
End leases.
