(* ===== verification/RaftReads.v ===== *)
(** * Linearizable reads, compaction, isolated voters

    A confirmed read index, followed across a run of operations: every voter
    it counts answered after the read began. The bounds of log compaction.
    A voter nobody answers keeps its term. *)

From stdpp Require Import base list option gmap relations.
From S2P Require Import Prelude RaftState RaftLog RaftLogFacts RaftNode RaftOps RaftRpc.
From S2P Require Import RaftNodeFacts RaftSteps RaftNodeThms RaftDurability RaftDelivery.
From S2P Require Import RaftLeases.

Open Scope N_scope.

Section reads.
Context {S : Type} `{LogStorageSpec S}.
Implicit Types (n : RaftNode S) (ev : Env).

(** ** Acknowledgement counts *)

(** How often [p] has answered this leadership; 0 off the leader. *)
Definition acks_of n (p : u64) : u64 :=
  match rn_leader_state n with Some leader => ack_count_for leader p | None => 0 end.

Lemma acks_of_state n n' p : rn_leader_state n' = rn_leader_state n → acks_of n' p = acks_of n p.
Proof. unfold acks_of. by intros ->. Qed.

Lemma acks_replicated n n' p : touched replication n n' → acks_of n' p = acks_of n p.
Proof.
  intros (t & -> & Ht & _)%touched_inv. unfold acks_of, ack_count_for. simpl in *.
  destruct (rn_leader_state n), (to_leader_state t); simplify_eq/=; [|done].
  congruence.
Qed.

Lemma acks_contact n n' p : touched contact n n' → acks_of n' p = acks_of n p.
Proof. intros (t & -> & Ht & _)%touched_inv. by apply acks_of_state. Qed.

Lemma acks_commits n n' p : touched commits n n' → acks_of n' p = acks_of n p.
Proof. intros (t & -> & Ht & _)%touched_inv. by apply acks_of_state. Qed.

Lemma acks_emit n p : acks_of (try_emit_timeout_now n) p = acks_of n p.
Proof. apply acks_of_state. unfold try_emit_timeout_now. by repeat case_match. Qed.

Lemma acks_follow ev t n p : acks_of (become_follower ev t n) p = 0.
Proof. done. Qed.

(** A fresh leadership has counted nothing. *)
Lemma new_state_acks ps os i p : ack_count_for (leader_state_new ps os i) p = 0.
Proof.
  unfold ack_count_for. simpl. induction ps as [|q ps IH]; csimpl; [done|]. by case_match.
Qed.

Lemma add_peer_acks q i ls p : ack_count_for (ls_add_peer q i ls) p = ack_count_for ls p.
Proof.
  unfold ls_add_peer. case_match; [|done]. unfold ack_count_for. simpl. rewrite assoc_app.
  destruct (assoc p (ls_ack_count ls)); simpl; [done|]. by case_match.
Qed.

Lemma remove_peer_acks q ls p : ack_count_for (ls_remove_peer q ls) p ≤ ack_count_for ls p.
Proof.
  unfold ack_count_for. simpl. destruct (decide (q = p)) as [->|Hne].
  - rewrite assoc_remove_eq. simpl. lia.
  - by rewrite assoc_remove_ne.
Qed.

Lemma foldl_acks {A} (f : LeaderState → A → LeaderState) l ls p :
  (∀ ls x, ack_count_for (f ls x) p ≤ ack_count_for ls p) →
  ack_count_for (foldl f ls l) p ≤ ack_count_for ls p.
Proof.
  intros Hf. revert ls. induction l as [|x l IH]; intros ls; simpl; [lia|].
  etrans; [apply IH|apply Hf].
Qed.

Lemma acks_become_leader ev n p : acks_of (become_leader ev n) p = 0.
Proof.
  unfold become_leader. rewrite (acks_replicated _ _ p (touched_replicate ev _)).
  set (ls := foldl _ _ _).
  assert (ack_count_for ls p = 0) as Hz.
  { pose proof (foldl_acks (λ ls learner, ls_add_peer learner (last_index (rn_log n)) ls)
      (learners (rn_config n)) (leader_state_new (peers (rn_config n)) (observers (rn_config n))
        (last_index (rn_log n))) p) as Hle.
    rewrite new_state_acks in Hle. specialize (Hle ltac:(intros; by rewrite add_peer_acks)).
    unfold ls. simpl. lia. }
  case_match; [rewrite (acks_commits _ _ p (touched_try_advance _))|]; exact Hz.
Qed.

Lemma acks_start_election ev n p : acks_of (start_election ev n) p ≤ acks_of n p.
Proof.
  unfold start_election. destruct (may_lead (rn_replica n)); [|by destruct (rn_role n)].
  set (m := match peers _ with [] => _ | _ :: _ => _ end).
  enough (acks_of m p ≤ acks_of n p) by (by destruct (rn_role n)). subst m.
  case_match; [rewrite acks_become_leader; lia|done].
Qed.

Lemma acks_tick ev n p : acks_of (tick ev n) p ≤ acks_of n p.
Proof.
  unfold tick. destruct (rn_role n) eqn:Hr; try done.
  1,2: case_match; [|done]; unfold start_pre_election; rewrite Hr; case_match; [done|];
    case_match; [apply acks_start_election|done].
  set (n1 := match rn_leadership_transfer n with Some _ => _ | None => _ end).
  assert (acks_of (refresh_quorum_contact (env_now ev) n1) p = acks_of n p) as Hn1.
  { rewrite (acks_contact _ _ p (touched_refresh _ n1)). unfold n1. by repeat case_match. }
  rewrite <-Hn1. case_match; [rewrite acks_follow; lia|]. case_match; [|done].
  by rewrite <-(acks_replicated _ _ p (touched_replicate ev (refresh_quorum_contact _ n1))).
Qed.

(** Only an answer of [p] in the node's term, on the leader, raises its
    count. *)
Definition answers (op : NodeOp) (p t : u64) : Prop :=
  match op with
  | OpAppendEntriesResponse q resp => q = p ∧ aer_term resp = t
  | _ => False
  end.

Lemma record_ack_other q ls p : p ≠ q → ack_count_for (record_ack q ls) p = ack_count_for ls p.
Proof. intros Hne. unfold ack_count_for. simpl. by rewrite assoc_assoc_update_ne. Qed.

Lemma acks_append_response ev q resp n p :
  acks_of (handle_append_entries_response ev q resp n) p ≤ acks_of n p ∨
  q = p ∧ aer_term resp = term_of n.
Proof.
  unfold handle_append_entries_response. case N.ltb_spec; intros Ht; [left; rewrite acks_follow; lia|].
  case N.ltb_spec; intros Ht'; [by left|]. case_match; [by left|].
  destruct (decide (q = p)) as [->|Hne]; [right; split; [done|lia]|left].
  case_match.
  { unfold handle_observer_response. destruct (rn_leader_state n) as [leader|] eqn:Hls; [|done].
    case_match; [by unfold acks_of; rewrite Hls|].
    rewrite (acks_replicated _ _ p (touched_send_observer ev q _)).
    by unfold acks_of; rewrite Hls. }
  destruct (rn_leader_state n) as [leader|] eqn:Hls; [|done].
  set (n1 := n {{ rn_leader_state := Some _ }}).
  assert (acks_of n1 p = acks_of n p) as Hn1.
  { unfold acks_of at 2. rewrite Hls. unfold n1, acks_of. simpl. by apply record_ack_other. }
  rewrite <-Hn1, <-(acks_contact _ _ p (touched_voter ev q resp n1)).
  set (n2 := record_voter_contact ev q resp n1). clearbody n2. clear n1 Hn1.
  destruct (rn_leader_state n2) as [l2|] eqn:Hl2; [|done]. rewrite acks_emit.
  assert (∀ ls, ls_ack_count ls = ls_ack_count l2 →
    acks_of (n2 {{ rn_leader_state := Some ls }}) p = acks_of n2 p) as Hset.
  { intros ls Hls'. unfold acks_of. rewrite Hl2. simpl. unfold ack_count_for. by rewrite Hls'. }
  assert (∀ ls ls', ls_ack_count ls' = ls_ack_count l2 →
    acks_of (n2 {{ rn_leader_state := Some ls; rn_leader_state := Some ls' }}) p = acks_of n2 p)
    as Hset2.
  { intros ls ls' Hls'. unfold acks_of. rewrite Hl2. simpl. unfold ack_count_for. by rewrite Hls'. }
  case_match; [case_match|case_match; [case_match|]].
  - change (acks_of (upd rn_replicated_floor _ ?m) p) with (acks_of m p).
    rewrite (acks_commits _ _ p (touched_try_advance _)).
    apply N.eq_le_incl, Hset2. by case_match.
  - apply N.eq_le_incl, Hset2. by case_match.
  - rewrite (acks_replicated _ _ p (touched_snapshot q _)). by rewrite Hset.
  - by rewrite Hset.
  - rewrite (acks_replicated _ _ p (touched_send ev q _)). by apply N.eq_le_incl, Hset2.
Qed.

(** Handlers that keep the leader's table or drop it. *)
Definition state_kept n n' : Prop := rn_leader_state n' = rn_leader_state n ∨ rn_leader_state n' = None.

Lemma acks_kept n n' p : state_kept n n' → acks_of n' p ≤ acks_of n p.
Proof. unfold acks_of. intros [->| ->]; lia. Qed.

Lemma follow_if_kept (b : bool) ev t n : state_kept n (if b then become_follower ev t n else n).
Proof. destruct b; [by right|by left]. Qed.

Lemma hear_kept id ev n n' :
  state_kept n n' → state_kept n (reset_election_timeout ev (n' {{ rn_leader_id := id }})).
Proof. done. Qed.

Lemma set_contact_kept f c n n' :
  state_kept n n' → state_kept n (n' {{ rn_replicated_floor ::= f; rn_leader_contact := c }}).
Proof. done. Qed.

Lemma accept_leader_kept ev req n : state_kept n (accept_leader ev req n).
Proof. apply set_contact_kept, hear_kept, follow_if_kept. Qed.

Lemma append_to_log_state req n : rn_leader_state (append_to_log req n).1 = rn_leader_state n.
Proof.
  unfold append_to_log. do 3 (case_match; [done|]).
  destruct (log_append_entries _ _ _) as [l [w|]]; [|done]. simpl. case_match eqn:Hc; [|done].
  apply N.ltb_lt in Hc.
  destruct (touched_inv _ _ _ (touched_collect (n {{ rn_log := l }}) _ (N.lt_le_incl _ _ Hc)))
    as (t & -> & Hls & _). done.
Qed.

Lemma append_entries_kept ev req n : state_kept n (handle_append_entries ev req n).1.
Proof.
  unfold handle_append_entries. case_match; [by left|]. unfold state_kept.
  rewrite append_to_log_state. apply accept_leader_kept.
Qed.

Lemma request_vote_kept ev req n : state_kept n (handle_request_vote ev req n).1.
Proof.
  unfold handle_request_vote, handle_request_vote_at. case_match; [by left|].
  pose proof (follow_if_kept (term_of n <? rv_term req) ev (rv_term req) n) as Hk.
  set (n1 := if _ : bool then become_follower _ _ _ else n) in *. clearbody n1.
  by repeat case_match.
Qed.

Lemma adopt_snapshot_state i t n :
  rn_leader_state (adopt_snapshot_boundary i t n).1 = rn_leader_state n.
Proof.
  unfold adopt_snapshot_boundary. case_match; [done|].
  set (lr := if _ : bool then apply_snapshot _ _ _ else _). destruct lr as [l [u|]]; [|done].
  unfold save_durable_applied_index. repeat case_match; simplify_eq/=; done.
Qed.

Lemma install_snapshot_kept ev req n : state_kept n (handle_install_snapshot ev req n).1.
Proof.
  unfold handle_install_snapshot. case_match; [by left|].
  pose proof (hear_kept (is_leader_id req) ev n _
    (follow_if_kept (term_of n <? is_term req) ev (is_term req) n)) as Hk.
  set (n1 := if _ : bool then become_follower _ _ _ else n) in *. clearbody n1.
  set (n2 := reset_election_timeout ev _) in *. clearbody n2.
  set (nr := if is_done req then _ else _).
  assert (rn_leader_state nr.1 = rn_leader_state n2) as Hn.
  { unfold nr. case_match; [apply adopt_snapshot_state|done]. }
  unfold state_kept in *. rewrite <-Hn in Hk. by destruct nr as [? []].
Qed.

Lemma run_op_acks ev op n p :
  acks_of (run_op ev op n) p ≤ acks_of n p ∨ answers op p (term_of n).
Proof.
  destruct op; simpl; try (by left).
  - left. unfold on_storage_progress. case_match; [|done].
    by rewrite (acks_commits _ _ p (touched_try_advance n)).
  - left. apply acks_tick.
  - left. unfold propose. case_match; try done. case_match; [done|].
    destruct (log_append _ _) as [l [u|]]; [|done]. simpl.
    case_match; rewrite ?(acks_commits _ _ p (touched_try_advance _));
      by rewrite (acks_replicated _ _ p (touched_replicate ev _)).
  - left. apply acks_kept, append_entries_kept.
  - apply acks_append_response.
  - left. apply acks_kept, request_vote_kept.
  - left. unfold handle_request_vote_response. case_match; [rewrite acks_follow; lia|].
    case_match; [done|]. case_match; try done. case_match; [|done]. case_match; [|done].
    rewrite acks_become_leader. lia.
  - left. unfold handle_pre_vote, handle_pre_vote_at. by repeat case_match.
  - left. unfold handle_pre_vote_response. case_match; [apply acks_kept; by right|].
    destruct (rn_role n); try done;
      (case_match; [|done]; do 2 (case_match; [done|]); case_match; [|done];
       etrans; [apply acks_start_election|done]).
  - left. apply acks_kept, install_snapshot_kept.
  - left. apply acks_kept. left. apply adopt_snapshot_state.
  - left. unfold record_snapshot_installed. destruct (rn_leader_state n) eqn:Hls; [|done].
    case_match; [|done]. unfold acks_of. by rewrite Hls.
  - left. unfold handle_timeout_now. case_match; [|done]. apply acks_start_election.
  - left. unfold transfer_leadership. repeat (case_match; try done). simpl. by rewrite acks_emit.
  - left. unfold start_read_index. repeat (case_match; try done). simpl.
    by rewrite (acks_replicated _ _ p (touched_replicate ev n)).
  - left. apply acks_kept. unfold set_replica_state. case_match; [|by left].
    unfold stand_down_for_snapshot. case_match; by (right + left).
  - left. apply acks_kept. left. unfold save_durable_applied_index.
    repeat case_match; by simplify_eq/=.
  - left. apply acks_kept. left. unfold compact_log_up_to. repeat case_match; by simplify_eq/=.
  - left. apply acks_kept. left. unfold maybe_compact_log, compact_log_up_to.
    repeat case_match; by simplify_eq/=.
  - left. unfold notify_removed_peer. case_match; [done|].
    by rewrite (acks_replicated _ _ p (touched_send ev _ n)).
Qed.

Lemma set_voters_acks vs n p : acks_of (set_voters vs n) p ≤ acks_of n p.
Proof.
  unfold set_voters, acks_of. simpl. destruct (rn_leader_state n) as [ls|]; simpl; [|lia].
  etrans; apply foldl_acks; intros ls' q; (case_match; [|done]).
  - apply remove_peer_acks.
  - by rewrite add_peer_acks.
Qed.

Lemma member_op_acks op n p : acks_of (run_member_op op n) p ≤ acks_of n p.
Proof.
  destruct op; simpl; unfold add_peer, remove_peer, add_learner, remove_learner,
    promote_learner, promote_self_to_voter; repeat (case_match; try done);
    try apply set_voters_acks; unfold acks_of; simpl;
    (destruct (rn_leader_state n); simpl; [|done]).
  - by rewrite add_peer_acks.
  - apply remove_peer_acks.
Qed.

Lemma driver_op_acks n eo p :
  acks_of (run_driver_op n eo) p ≤ acks_of n p ∨
  ∃ resp, eo.2 = DOp (OpAppendEntriesResponse p resp) ∧ aer_term resp = term_of n.
Proof.
  destruct eo as [ev [op|op| |]]; unfold run_driver_op; simpl.
  - destruct (run_op_acks ev op n p) as [?|Ha]; [by left|right].
    destruct op; try done. destruct Ha as [-> ?]. eauto.
  - left. apply member_op_acks.
  - left. apply acks_kept. left. by destruct (persist_frame n) as (_ & _ & _ & _ & _ & ? & _).
  - left. apply acks_kept. left. by destruct (drain_frame n) as (_ & _ & _ & _ & _ & ?).
Qed.

(** A count that rose across a run rose at an answer of that peer. *)
Lemma run_acks ops n p :
  acks_of n p < acks_of (run ops n) p →
  ∃ ops1 ops2 ev resp,
    ops = ops1 ++ (ev, DOp (OpAppendEntriesResponse p resp)) :: ops2 ∧
    aer_term resp = term_of (run ops1 n).
Proof.
  revert n. induction ops as [|[ev o] ops IH]; intros n Hlt; simpl in *; [lia|].
  destruct (driver_op_acks n (ev, o) p) as [Hle|(resp & Ho & Ht)].
  - destruct (IH (run_driver_op n (ev, o))) as (o1 & o2 & ev' & resp & -> & Ht); [lia|].
    by exists ((ev, o) :: o1), o2, ev', resp.
  - simpl in Ho. subst o. by exists [], ops, ev, resp.
Qed.

(** ** The read floor *)

Lemma term_read_floor_spec n :
  commit_of n ≤ last_index (rn_log n) →
  commit_of n ≤ term_read_floor n ∧
  (term_at (rn_log n) (term_read_floor n) = Some (term_of n) ∨
   term_read_floor n = last_index (rn_log n) + 1).
Proof.
  intros Hle. unfold term_read_floor, current_term_committed.
  case_bool_decide as Hc; [split; [lia|by left]|].
  destruct (List.find _ _) as [i|] eqn:Hf; simpl.
  - apply find_some in Hf as [Hin%list_elem_of_In%elem_of_range_incl Ht%bool_decide_eq_true].
    split; [lia|by left].
  - split; [lia|by right].
Qed.

Lemma read_index_confirmed_spec n probe :
  read_index_status n probe = Confirmed →
  rn_role n = Leader ∧ term_of n = pr_term probe ∧ pr_read_index probe ≤ commit_of n ∧
  cluster_size (rn_config n) <
    2 * N.of_nat (1 + count (λ a : u64 * u64, a.2 <? acks_of n a.1) (pr_acks probe)).
Proof.
  unfold read_index_status. destruct (_ || _) eqn:Hg; [done|].
  apply orb_false_iff in Hg as [Hr%negb_false_iff%bool_decide_eq_true Ht%negb_false_iff%N.eqb_eq].
  destruct (rn_leader_state n) as [ls|] eqn:Hls; [|done].
  case N.ltb_spec; [done|]. intros Hc. case N.leb_spec; [|done]. intros Hq _.
  split_and!; [done..|]. unfold acks_of. rewrite Hls.
  unfold quorum in Hq. pose proof (half_bounds (cluster_size (rn_config n))). lia.
Qed.


(** ** Compaction *)

(** C7. Compaction never discards an entry that is above the durable applied
    floor, above the delivery watermark or above the configured ceiling:
    whatever is requested, the log boundary stays where it was or moves up to
    at most the least of these, and every entry above the new boundary is
    still there. *)
Theorem compaction_bounded up_to n :
  log_wf (rn_log n) →
  let n' := (compact_log_up_to up_to n).1 in
  (lg_snapshot_index (rn_log n') = lg_snapshot_index (rn_log n) ∨
   lg_snapshot_index (rn_log n) < lg_snapshot_index (rn_log n') ∧
   lg_snapshot_index (rn_log n') ≤ up_to ∧
   lg_snapshot_index (rn_log n') ≤ rn_durable_applied n ∧
   lg_snapshot_index (rn_log n') ≤ applied_of n ∧
   (∀ c, rn_compaction_ceiling n = Some c → lg_snapshot_index (rn_log n') ≤ c)) ∧
  (∀ i, lg_snapshot_index (rn_log n') < i → entry_at (rn_log n') i = entry_at (rn_log n) i).
Proof.
  intros Hwf. unfold compact_log_up_to.
  set (up := match rn_compaction_ceiling n with Some _ => _ | None => _ end).
  assert (up ≤ up_to ∧ ∀ c, rn_compaction_ceiling n = Some c → up ≤ c) as [Hup Hceil].
  { unfold up. case_match; simplify_eq; split; try lia; intros ? [= <-]; lia. }
  clearbody up. case N.leb_spec; [by auto|]. intros Hsnap. case N.ltb_spec; [by auto|]. intros Hd.
  destruct (term_at _ _) as [t|]; [|by auto].
  destruct (apply_snapshot up t (rn_log n)) as [l r] eqn:Hl. destruct r as [[]|].
  - apply apply_snapshot_ok in Hl as (_ & Hs & _ & _ & Hent); [|done|done]. simpl. rewrite Hs.
    split; [right|done]. split_and!; [lia..|done].
  - assert (lg_entries l = lg_entries (rn_log n) ∧
      lg_snapshot_index l = lg_snapshot_index (rn_log n)) as [He Hs].
    { revert Hl. unfold apply_snapshot. case_match; [done|].
      destruct (storage_compact _ _ _) as [s []]; [done|]. by intros [= <- _]. }
    simpl. rewrite Hs. split; [by left|]. intros i _. unfold entry_at, last_index. by rewrite He, Hs.
Qed.

(** ** A voter nobody answers *)

(** The operations of a node that gets no message. *)
Definition unanswered (o : DriverOp) : bool :=
  match o with
  | DOp (OpTick | OpStorageProgress | OpPropose _ | OpReadIndex | OpAdvanceApplied _
        | OpSaveDurable _ | OpRequeue _ | OpCompact _ | OpMaybeCompact _ | OpSetCeiling _
        | OpSetReplica _ | OpTransfer _) | DPersist | DDrain => true
  | _ => false
  end.

Lemma follow_same_term ev n : rn_hard_state (become_follower ev (term_of n) n) = rn_hard_state n.
Proof.
  unfold become_follower, term_of. destruct (rn_role n) eqn:Hr; simpl;
    rewrite N.ltb_irrefl; simpl; by destruct (rn_hard_state n).
Qed.

Lemma touched_hs P n n' : touched P n n' → rn_hard_state n' = rn_hard_state n.
Proof. by intros (t & -> & _)%touched_inv. Qed.

Lemma tick_unanswered_hs ev n :
  peers (rn_config n) ≠ [] → rn_hard_state (tick ev n) = rn_hard_state n.
Proof.
  intros Hp. unfold tick. destruct (rn_role n) eqn:Hr; try done.
  1,2: case_match; [|done]; unfold start_pre_election; rewrite Hr; case_match; [done|];
    by destruct (peers (rn_config n)).
  set (n1 := match rn_leadership_transfer n with Some _ => _ | None => _ end).
  assert (rn_hard_state (refresh_quorum_contact (env_now ev) n1) = rn_hard_state n) as Hn1.
  { rewrite (touched_hs _ _ _ (touched_refresh _ n1)). unfold n1. by repeat case_match. }
  rewrite <-Hn1. case_match; [apply follow_same_term|]. case_match; [|done].
  apply (touched_hs _ _ _ (touched_replicate ev _)).
Qed.

Lemma unanswered_op_hs ev op n :
  peers (rn_config n) ≠ [] → unanswered (DOp op) = true →
  rn_hard_state (run_op ev op n) = rn_hard_state n.
Proof.
  intros Hp Ho. destruct op; try done; simpl.
  - unfold on_storage_progress. case_match; [|done]. apply (touched_hs _ _ _ (touched_try_advance n)).
  - by apply tick_unanswered_hs.
  - unfold propose. case_match; try done. case_match; [done|].
    destruct (log_append _ _) as [l [u|]]; [|done]. simpl.
    case_match; rewrite ?(touched_hs _ _ _ (touched_try_advance _));
      by rewrite (touched_hs _ _ _ (touched_replicate ev _)).
  - unfold transfer_leadership. repeat (case_match; try done). simpl.
    by rewrite (touched_hs _ _ _ (touched_emit _)).
  - unfold start_read_index. repeat (case_match; try done). simpl.
    apply (touched_hs _ _ _ (touched_replicate ev n)).
  - unfold set_replica_state. case_match; [|done]. unfold stand_down_for_snapshot.
    case_match; try done; [exact (follow_same_term ev (n {{ rn_replica := state }}))|].
    set (m := match hand_off_target _ with Some _ => _ | None => _ end).
    assert (term_of (n {{ rn_replica := state }}) = term_of m ∧
      rn_hard_state m = rn_hard_state n) as [Ht Hm] by (unfold m; by case_match).
    rewrite Ht, <-Hm. apply follow_same_term.
  - unfold save_durable_applied_index. repeat case_match; by simplify_eq/=.
  - unfold compact_log_up_to. repeat case_match; by simplify_eq/=.
  - unfold maybe_compact_log, compact_log_up_to. repeat case_match; by simplify_eq/=.
Qed.

Lemma run_op_config ev op n : rn_config (run_op ev op n) = rn_config n.
Proof.
  eapply (moves_preserve _ (λ m, rn_config m = rn_config n)); [|apply run_op_moves|done].
  intros m m' Hm <-. apply (fr_config _ _ (vote_move_frame _ _ _ Hm)).
Qed.

(** A voter of a group with other voters that gets no answer keeps its
    term and vote, however often its election timer fires: without a granted
    pre-vote it never starts an election, so a partitioned node does not come
    back with an inflated term. *)
Theorem isolated_term_stable ops n :
  peers (rn_config n) ≠ [] → Forall (λ eo, unanswered eo.2 = true) ops →
  rn_hard_state (run ops n) = rn_hard_state n.
Proof.
  intros Hp Hall.
  assert (rn_config (run ops n) = rn_config n ∧ rn_hard_state (run ops n) = rn_hard_state n)
    as [_ ?]; [|done].
  apply (run_invariant (λ m, rn_config m = rn_config n ∧ rn_hard_state m = rn_hard_state n)); [|done].
  intros m [ev o] Hin [Hc Hhs]. rewrite Forall_forall in Hall. specialize (Hall _ Hin).
  unfold run_driver_op. destruct o as [op|op| |]; simpl in *; try done.
  - rewrite run_op_config, unanswered_op_hs; [done|by rewrite Hc|done].
  - destruct (persist_frame m) as (? & _ & _ & _ & _ & _ & ? & _). split; congruence.
  - pose proof (persist_frame m) as (? & _ & _ & _ & _ & _ & ? & _). unfold drain.
    destruct (persist_hard_state_if_dirty m) as [m1 []]; simpl in *; split; congruence.
Qed.
End reads.
