(* ===== verification/GroupDisk.v ===== *)
(** * The disk of a Raft group

    [nodedb-cluster/src/group_disk]: a group's node stages every storage write
    in a queue and returns at once ([staged.rs]); a writer thread drains the
    queue, joins runs of appends, applies the writes to the log storage in
    order, and publishes how far it came ([writer.rs]); a reply or a vote
    request waits on a ticket for the writes it depends on ([ticket.rs]).

    The writer is a machine: it takes a batch, applies one write at a time,
    and publishes. Staging and closing may come between any two of its steps.
    A failed write is applied again at the writer's next step, so the pause
    between attempts is left out. The log storage below the disk (redb in the
    server) is any [LogStorage]. *)

From stdpp Require Import base option gmap sorting list.
From S2P Require Import Prelude RaftState RaftLog.

Open Scope N_scope.

Inductive StorageOp : Type :=
  | SoAppend (entries : list LogEntry)
  | SoTruncate (index : u64)
  | SoCompact (index term : u64)
  | SoHardState (state : HardState)
  | SoAppliedIndex (index : u64).

Record DiskProgress : Type := MkDiskProgress {
  dp_durable_seq : u64;
  dp_stable : u64 * u64;
  dp_closed : bool;
}.

#[export] Instance eta_DiskProgress : Eta DiskProgress := λ r,
  MkDiskProgress (dp_durable_seq r) (dp_stable r) (dp_closed r).

(** The staged writes; [staged_through] is the sequence number of the last. *)
Record Queue : Type := MkQueue {
  qu_ops : list (u64 * StorageOp);
  qu_staged_through : u64;
  qu_hard_state_seq : u64;
  qu_closed : bool;
}.

#[export] Instance eta_Queue : Eta Queue := λ r,
  MkQueue (qu_ops r) (qu_staged_through r) (qu_hard_state_seq r) (qu_closed r).

(** Where the writer thread is: waiting for work; in [apply_batch], with the
    writes to come, the stable entry so far, the batch's last sequence number
    and whether the disk was closed when the batch was taken; or ended. *)
Inductive Writer : Type :=
  | WIdle
  | WBatch (ops : list StorageOp) (stable : u64 * u64) (through : u64) (closed : bool)
  | WEnded.

Record GroupDisk (S : Type) : Type := MkGroupDisk {
  gd_storage : S;
  gd_queue : Queue;
  gd_progress : DiskProgress;
  gd_writer : Writer;
}.
Arguments MkGroupDisk {S}.
Arguments gd_storage {S}.
Arguments gd_queue {S}.
Arguments gd_progress {S}.
Arguments gd_writer {S}.

#[export] Instance eta_GroupDisk S : Eta (GroupDisk S) := λ r,
  MkGroupDisk (gd_storage r) (gd_queue r) (gd_progress r) (gd_writer r).

(** One step of [merge_appends]: an append joins the append before it. *)
Definition merge_push (merged : list StorageOp) (op : StorageOp) : list StorageOp :=
  match last merged, op with
  | Some (SoAppend run), SoAppend more =>
      take (length merged - 1) merged ++ [SoAppend (run ++ more)]
  | _, _ => merged ++ [op]
  end.

Definition merge_appends (batch : list (u64 * StorageOp)) : list StorageOp :=
  foldl merge_push [] (snd <$> batch).

(** The last durable entry once [op] is durable; term 0 is a term not known. *)
Definition next_stable (stable : u64 * u64) (op : StorageOp) : u64 * u64 :=
  match op with
  | SoAppend entries =>
      match last entries with Some e => (e_index e, e_term e) | None => stable end
  | SoTruncate index => if index <=? stable.1 then (index - 1, 0) else stable
  | SoCompact index term => if stable.1 <? index then (index, term) else stable
  | SoHardState _ | SoAppliedIndex _ => stable
  end.

Section disk.
Context {S : Type} `{LogStorage S}.
Implicit Types (d : GroupDisk S).

(** [GroupDisk::apply]. *)
Definition disk_apply (op : StorageOp) (s : S) : S * Result unit :=
  match op with
  | SoAppend entries => storage_append entries s
  | SoTruncate index => storage_truncate index s
  | SoCompact index term => storage_compact index term s
  | SoHardState state => save_hard_state state s
  | SoAppliedIndex index => save_applied_index index s
  end.

Definition disk_open (s : S) : GroupDisk S :=
  MkGroupDisk s (MkQueue [] 0 0 false) (MkDiskProgress 0 (0, 0) false) WIdle.

Definition set_restored_stable (stable : u64 * u64) d : GroupDisk S :=
  d {{ gd_progress -> dp_stable := stable }}.

(** [StagedLogStorage::open], then the entries the restore loads: each sets
    the stable entry. *)
Definition staged_open (s : S) : GroupDisk S :=
  set_restored_stable (snapshot_metadata s) (disk_open s).

Definition staged_load_entries_after (snapshot_index : u64) d : GroupDisk S * Result (list LogEntry) :=
  match load_entries_after snapshot_index (gd_storage d) with
  | Err err => (d, Err err)
  | Ok entries =>
      (match last entries with
       | Some e => set_restored_stable (e_index e, e_term e) d
       | None => d
       end, Ok entries)
  end.

(** [GroupDisk::stage]. *)
Definition stage (op : StorageOp) d : GroupDisk S :=
  let seq := qu_staged_through (gd_queue d) + 1 in
  let d := d {{ gd_queue -> qu_staged_through := seq }} in
  let d := match op with
           | SoHardState _ => d {{ gd_queue -> qu_hard_state_seq := seq }}
           | _ => d
           end in
  d {{ gd_queue -> qu_ops ::= λ ops, ops ++ [(seq, op)] }}.

(** The writes of [StagedLogStorage]: each succeeds at once; the snapshot
    boundary it also remembers is the one of the node's log. *)
Definition staged_append (entries : list LogEntry) d : GroupDisk S :=
  match entries with [] => d | _ => stage (SoAppend entries) d end.

Definition disk_close d : GroupDisk S := d {{ gd_queue -> qu_closed := true }}.

(** [run_writer]: drain the queue, with the start of [apply_batch]. *)
Definition take_batch d : GroupDisk S :=
  match gd_writer d with
  | WIdle =>
      match last (qu_ops (gd_queue d)) with
      | None => d
      | Some (through, _) =>
          let w := WBatch (merge_appends (qu_ops (gd_queue d))) (dp_stable (gd_progress d))
                     through (qu_closed (gd_queue d)) in
          d {{ gd_queue -> qu_ops := []; gd_writer := w }}
      end
  | _ => d
  end.

(** One attempt of the [while let Err] loop: a write that fails is tried
    again, or given up once the disk was closed. *)
Definition write_next d : GroupDisk S :=
  match gd_writer d with
  | WBatch (op :: ops) stable through closed =>
      let '(s, r) := disk_apply op (gd_storage d) in
      let d := d {{ gd_storage := s }} in
      if is_ok r || closed
      then d {{ gd_writer := WBatch ops (next_stable stable op) through closed }}
      else d
  | _ => d
  end.

(** The end of [apply_batch]. *)
Definition publish d : GroupDisk S :=
  match gd_writer d with
  | WBatch [] stable through _ =>
      d {{ gd_progress -> dp_durable_seq ::= λ s, N.max s through;
           gd_progress -> dp_stable := stable;
           gd_writer := WIdle }}
  | _ => d
  end.

(** The end of [run_writer]. *)
Definition end_writer d : GroupDisk S :=
  match gd_writer d with
  | WIdle =>
      if bool_decide (qu_ops (gd_queue d) = []) && qu_closed (gd_queue d)
      then d {{ gd_progress -> dp_closed := true; gd_writer := WEnded }}
      else d
  | _ => d
  end.

Inductive DiskAct : Type :=
  | DaStage (op : StorageOp)
  | DaClose
  | DaTake
  | DaWrite
  | DaPublish
  | DaEnd.

Definition disk_act d (a : DiskAct) : GroupDisk S :=
  match a with
  | DaStage op => stage op d
  | DaClose => disk_close d
  | DaTake => take_batch d
  | DaWrite => write_next d
  | DaPublish => publish d
  | DaEnd => end_writer d
  end.

Definition disk_run (acts : list DiskAct) d : GroupDisk S := foldl disk_act d acts.

(** ** Tickets *)

(** [DurabilityTicket::for_staged]: the sequence number to wait for. *)
Definition ticket_for_staged d : option u64 :=
  let seq := qu_staged_through (gd_queue d) in
  if dp_durable_seq (gd_progress d) <? seq then Some seq else None.

(** [DurabilityTicket::for_reply]. *)
Definition ticket_for_reply (mark : u64) d : option u64 :=
  let seq :=
    if mark <? qu_staged_through (gd_queue d) then qu_staged_through (gd_queue d)
    else qu_hard_state_seq (gd_queue d) in
  if dp_durable_seq (gd_progress d) <? seq then Some seq else None.

(** What [wait_blocking] and [durable] answer: [None] is to wait on. *)
Definition ticket_poll (seq : u64) d : option bool :=
  if seq <=? dp_durable_seq (gd_progress d) then Some true
  else if dp_closed (gd_progress d) then Some false
  else None.
End disk.
