(* ===== verification/GroupDiskFacts.v ===== *)
(** * What the disk of a Raft group holds

    At every moment the log storage is what a prefix of the staged writes
    makes of the storage the disk was opened on, and that prefix covers every
    write the disk reports durable. So a crash loses a suffix of the staged
    writes and nothing else, and a granted ticket means that the writes it
    stands for are on disk. The exception is a write that fails while the disk
    closes: it is skipped and reported durable. *)

From stdpp Require Import base option gmap sorting list.
From S2P Require Import Prelude RaftState RaftLog RaftLogFacts GroupDisk.

Open Scope N_scope.

(** ** Disk images *)

(** What a boot reads from the storage. *)
Record Image : Type := MkImage {
  im_snapshot : u64 * u64;
  im_entries : list LogEntry;
  im_hard_state : HardState;
  im_applied : u64;
}.

#[export] Instance eta_Image : Eta Image := λ r,
  MkImage (im_snapshot r) (im_entries r) (im_hard_state r) (im_applied r).

Definition image_op (im : Image) (op : StorageOp) : Image :=
  match op with
  | SoAppend es => im {{ im_entries ::= λ old, old ++ es }}
  | SoTruncate i => im {{ im_entries ::= List.filter (λ e, e_index e <? i) }}
  | SoCompact i t => im {{ im_entries ::= List.filter (λ e, i <? e_index e); im_snapshot := (i, t) }}
  | SoHardState hs => im {{ im_hard_state := hs }}
  | SoAppliedIndex i => im {{ im_applied := i }}
  end.

Definition image_ops (im : Image) (ops : list StorageOp) : Image := foldl image_op im ops.

(** A write a Raft log makes of itself: appended entries follow the last one,
    a cut lies above the snapshot, and the snapshot moves up. *)
Definition op_fits (im : Image) (op : StorageOp) : Prop :=
  match op with
  | SoAppend es => es ≠ [] ∧ contiguous (im_snapshot im).1 (im_entries im ++ es)
  | SoTruncate i => (im_snapshot im).1 < i
  | SoCompact i _ => (im_snapshot im).1 ≤ i
  | SoHardState _ | SoAppliedIndex _ => True
  end.

Fixpoint ops_fit (im : Image) (ops : list StorageOp) : Prop :=
  match ops with
  | [] => True
  | op :: ops => op_fits im op ∧ ops_fit (image_op im op) ops
  end.

Lemma image_ops_app im xs ys : image_ops im (xs ++ ys) = image_ops (image_ops im xs) ys.
Proof. apply foldl_app. Qed.

Lemma ops_fit_app im xs ys :
  ops_fit im (xs ++ ys) ↔ ops_fit im xs ∧ ops_fit (image_ops im xs) ys.
Proof. revert im. induction xs as [|x xs IH]; intros im; simpl; [tauto|]. rewrite IH. tauto. Qed.

Definition image_wf (im : Image) : Prop := contiguous (im_snapshot im).1 (im_entries im).

(** The last entry of an image, its snapshot boundary when it has none. *)
Definition im_last (im : Image) : u64 * u64 :=
  match last (im_entries im) with
  | Some e => (e_index e, e_term e)
  | None => im_snapshot im
  end.

Lemma im_last_index im :
  image_wf im → (im_last im).1 = (im_snapshot im).1 + N.of_nat (length (im_entries im)).
Proof.
  intros Hwf. unfold im_last. destruct (last _) eqn:El; simpl.
  - by apply (contiguous_last _ _ _ Hwf).
  - apply last_None in El. rewrite El. simpl. lia.
Qed.

Lemma image_op_wf im op : image_wf im → op_fits im op → image_wf (image_op im op).
Proof.
  unfold image_wf. destruct op as [es|i|i t|hs|i]; simpl; try done.
  - by intros _ [_ ?].
  - intros Hwf _. rewrite (contiguous_filter_lt _ _ _ Hwf). by apply contiguous_take.
  - intros Hwf Hi. rewrite (contiguous_filter_gt _ _ _ Hwf Hi).
    replace (contiguous i) with (contiguous ((im_snapshot im).1 + N.of_nat (N.to_nat (i - (im_snapshot im).1))))
      by (f_equal; lia). by apply contiguous_drop.
Qed.

Lemma image_ops_wf im ops : image_wf im → ops_fit im ops → image_wf (image_ops im ops).
Proof.
  revert im. induction ops as [|op ops IH]; intros im Hwf; simpl; [done|].
  intros [? ?]. by apply IH; [apply image_op_wf|].
Qed.

(** ** The stable entry *)

(** [stable] is at the last index of the image and names the entry there;
    term 0 is a term not known. *)
Definition stable_names (im : Image) (stable : u64 * u64) : Prop :=
  stable.1 = (im_last im).1 ∧
  ∀ e, last (im_entries im) = Some e → stable.2 = 0 ∨ stable.2 = e_term e.

Lemma next_stable_names im op stable :
  image_wf im → op_fits im op → stable_names im stable →
  stable_names (image_op im op) (next_stable stable op).
Proof.
  intros Hwf Hfit [Hi Ht]. rewrite (im_last_index _ Hwf) in Hi.
  unfold stable_names. rewrite (im_last_index _ (image_op_wf _ _ Hwf Hfit)).
  unfold image_wf in Hwf. destruct op as [es|i|i t|hs|i]; simpl in *; [| | |by auto..].
  - destruct Hfit as [Hne Hc]. destruct (last es) as [e|] eqn:El; [|by apply last_None in El].
    assert (last (im_entries im ++ es) = Some e) as Hlast by (by rewrite last_app, El).
    simpl. rewrite <-(contiguous_last _ _ _ Hc Hlast). split; [done|]. intros x. rewrite Hlast.
    intros [= <-]. by right.
  - rewrite (contiguous_filter_lt _ _ _ Hwf), length_take. case N.leb_spec; intros Hcut; simpl.
    + split; [lia|by left].
    + rewrite take_ge by lia. split; [lia|done].
  - rewrite (contiguous_filter_gt _ _ _ Hwf Hfit), length_drop. case N.ltb_spec; intros Hgt; simpl.
    + rewrite drop_ge by lia. split; [lia|done].
    + split; [lia|]. intros e He. apply Ht. rewrite last_lookup, length_drop, lookup_drop in He.
      rewrite last_lookup. destruct (im_entries im) as [|x xs] eqn:Ex; [by rewrite lookup_nil in He|].
      pose proof (lookup_lt_Some _ _ _ He). rewrite <-He. f_equal. simpl in *. lia.
Qed.

(** ** Joined appends *)

(** [op] is one staged write, or a run of appends joined. *)
Inductive joins : StorageOp → list StorageOp → Prop :=
  | joins_one op : joins op [op]
  | joins_more run more ops :
      joins (SoAppend run) ops → joins (SoAppend (run ++ more)) (ops ++ [SoAppend more]).

Inductive merged : list StorageOp → list StorageOp → Prop :=
  | merged_nil : merged [] []
  | merged_cons op g ms ops : joins op g → merged ms ops → merged (op :: ms) (g ++ ops).

Lemma joins_image im op ops : joins op ops → image_ops im ops = image_op im op.
Proof.
  induction 1 as [|run more ops _ IH]; [done|]. rewrite image_ops_app, IH.
  destruct im as [sn es hs ap]. change (MkImage sn ((es ++ run) ++ more) hs ap = MkImage sn (es ++ run ++ more) hs ap).
  by rewrite app_assoc.
Qed.

Lemma joins_fits im op ops : joins op ops → ops_fit im ops → op_fits im op.
Proof.
  induction 1 as [|run more ops Hj IH]; [by intros [? _]|]. rewrite ops_fit_app. intros [Hf [Hm _]].
  specialize (IH Hf). rewrite (joins_image _ _ _ Hj) in Hm. destruct IH as [Hne _], Hm as [_ Hc].
  simpl in *. split; [by destruct run|]. by rewrite app_assoc.
Qed.

Lemma merged_app ms1 ms2 ops :
  merged (ms1 ++ ms2) ops ↔ ∃ ops1 ops2, ops = ops1 ++ ops2 ∧ merged ms1 ops1 ∧ merged ms2 ops2.
Proof.
  revert ops. induction ms1 as [|m ms1 IH]; intros ops; simpl.
  - split; [intros ?; exists [], ops; by split_and!; [|constructor|]|].
    intros (ops1 & ops2 & -> & Hm & ?). by inversion Hm.
  - split.
    + inversion 1 as [|? g ? ops' Hj Hm]; subst. apply IH in Hm as (o1 & o2 & -> & H1 & H2).
      exists (g ++ o1), o2. split_and!; [by rewrite app_assoc|by constructor|done].
    + intros (o1 & o2 & -> & Hm & H2). inversion Hm as [|? g ? ops' Hj Hm']; subst.
      rewrite <-app_assoc. constructor; [done|]. apply IH. eauto.
Qed.

Lemma merged_one op g : merged [op] g ↔ joins op g.
Proof.
  split.
  - inversion 1 as [|? g' ? ops Hj Hm]; subst. inversion Hm; subst. by rewrite app_nil_r.
  - intros Hj. rewrite <-(app_nil_r g). by repeat constructor.
Qed.

Lemma merge_push_merged ms ops op : merged ms ops → merged (merge_push ms op) (ops ++ [op]).
Proof.
  intros Hm. unfold merge_push.
  assert (merged (ms ++ [op]) (ops ++ [op])) as Hsnoc.
  { apply merged_app. exists ops, [op]. split_and!; [done..|]. apply merged_one. constructor. }
  destruct (last ms) as [[run| | | |]|] eqn:El; try done. destruct op as [more| | | |]; try done.
  apply last_Some in El as [ms0 ->]. apply merged_app in Hm as (o1 & o2 & -> & H1 & H2%merged_one).
  rewrite length_app, Nat.add_sub, take_app_length, <-app_assoc. apply merged_app.
  exists o1, (o2 ++ [SoAppend more]). split_and!; [done..|]. apply merged_one. by constructor.
Qed.

Lemma merge_appends_merged batch : merged (merge_appends batch) (snd <$> batch).
Proof.
  unfold merge_appends. generalize (snd <$> batch). intros ops.
  induction ops as [|op ops IH] using rev_ind; [constructor|].
  rewrite foldl_app. by apply merge_push_merged.
Qed.

Section disk.
Context {S : Type} `{LogStorageSpec S}.
Implicit Types (d : GroupDisk S) (s : S).

(** The storage holds the image. *)
Definition holds_image s (im : Image) : Prop :=
  storage_ok s ∧ image_wf im ∧ snapshot_metadata s = im_snapshot im ∧
  load_entries_after (im_snapshot im).1 s = Ok (im_entries im) ∧
  load_hard_state s = Ok (im_hard_state im) ∧ load_applied_index s = Ok (im_applied im).

(** One write, applied or not. *)
Lemma disk_apply_image op s s' r im :
  holds_image s im → op_fits im op → disk_apply op s = (s', r) →
  holds_image s' (if is_ok r then image_op im op else im).
Proof.
  intros (Hok & Hwf & Hm & Hl & Hh & Ha) Hfit Happ.
  pose proof (image_op_wf _ _ Hwf Hfit) as Hwf'. destruct im as [sn es0 hs0 ap0]. simpl in *. subst sn.
  unfold holds_image. destruct op as [es|i|i t|hs|i]; simpl in *.
  - destruct Hfit as [_ Hc]. destruct (append_meta _ _ _ _ Happ) as [-> ->].
    destruct (append_spec _ _ _ _ _ Hok Hl Hc Happ) as (? & Hm' & Hl'). by destruct (is_ok r).
  - destruct (truncate_meta _ _ _ _ Happ) as [-> ->].
    destruct (truncate_spec _ _ _ _ _ Hok Hl Happ) as (? & Hm' & Hl'). by destruct (is_ok r).
  - destruct (compact_meta _ _ _ _ _ Happ) as [-> ->].
    destruct (compact_spec _ _ _ _ _ _ Hok Hl Hfit Happ) as (? & Hr).
    destruct (is_ok r), Hr as [Hm' Hl']; done.
  - destruct (save_hard_state_spec _ _ _ _ Happ) as (Hok' & Hm' & Hl' & -> & ->).
    specialize (Hok' Hok). destruct (is_ok r); simpl; by rewrite Hl'.
  - destruct (save_applied_index_spec _ _ _ _ Happ) as (Hok' & Hm' & Hl' & -> & ->).
    specialize (Hok' Hok). destruct (is_ok r); simpl; by rewrite Hl'.
Qed.

(** ** The invariant *)

(** The boot of a group: its disk is opened and its entries are loaded. *)
Definition disk_mount s : GroupDisk S :=
  (staged_load_entries_after (snapshot_metadata s).1 (staged_open s)).1.

Definition staged_by (acts : list DiskAct) : list StorageOp :=
  omap (λ a, match a with DaStage op => Some op | _ => None end) acts.

(** The writer gives a write up at its next step. *)
Definition abandons d : bool :=
  match gd_writer d with
  | WBatch (op :: _) _ _ true => negb (is_ok (disk_apply op (gd_storage d)).2)
  | _ => false
  end.

Fixpoint none_abandoned (acts : list DiskAct) d : bool :=
  match acts with
  | [] => true
  | a :: acts =>
      match a with DaWrite => negb (abandons d) | _ => true end && none_abandoned acts (disk_act d a)
  end.

(** [ops] are queued behind the first [n] writes. *)
Definition numbered (n : nat) (ops : list (u64 * StorageOp)) : Prop :=
  ∀ k seq op, ops !! k = Some (seq, op) → seq = N.of_nat (n + k + 1).

(** Every hard state of [hist] is among the first [h] writes. *)
Definition hard_states_by (hist : list StorageOp) (h : u64) : Prop :=
  h ≤ N.of_nat (length hist) ∧
  ∀ k hs, hist !! k = Some (SoHardState hs) → N.of_nat k < h.

(** [hist] was staged over [im]: [fin] is applied, [flight] is with the
    writer, the rest is queued. *)
Record disk_inv_at (im : Image) (hist fin flight : list StorageOp) d : Prop := MkDiskInv {
  di_hist : hist = fin ++ flight ++ (snd <$> qu_ops (gd_queue d));
  di_staged : qu_staged_through (gd_queue d) = N.of_nat (length hist);
  di_hard : hard_states_by hist (qu_hard_state_seq (gd_queue d));
  di_numbers : numbered (length (fin ++ flight)) (qu_ops (gd_queue d));
  di_image : holds_image (gd_storage d) (image_ops im fin);
  di_durable : dp_durable_seq (gd_progress d) ≤ N.of_nat (length fin);
  di_stable : stable_names (image_ops im (take (N.to_nat (dp_durable_seq (gd_progress d))) hist))
                (dp_stable (gd_progress d));
  di_writer :
    match gd_writer d with
    | WBatch ops stable through _ =>
        merged ops flight ∧ through = N.of_nat (length (fin ++ flight)) ∧
        stable_names (image_ops im fin) stable
    | _ => flight = [] ∧ dp_durable_seq (gd_progress d) = N.of_nat (length fin)
    end;
}.

Definition disk_inv (im : Image) (hist : list StorageOp) d : Prop :=
  ∃ fin flight, disk_inv_at im hist fin flight d.

Lemma disk_mount_inv s im : holds_image s im → disk_inv im [] (disk_mount s).
Proof.
  intros Him. pose proof Him as (_ & _ & Hm & Hl & _). exists [], [].
  unfold disk_mount, staged_load_entries_after. simpl. rewrite Hm, Hl. simpl.
  assert (stable_names im (im_last im)) as Hst.
  { split; [done|]. intros e He. right. unfold im_last. by rewrite He. }
  unfold im_last in Hst. destruct (last (im_entries im)) as [e|] eqn:El;
    (split; simpl; [done|done|by split|done|done|done| |done]); [exact Hst|by rewrite Hm].
Qed.

Lemma hard_states_snoc hist op h :
  hard_states_by hist h →
  hard_states_by (hist ++ [op])
    (match op with SoHardState _ => N.of_nat (length hist) + 1 | _ => h end).
Proof.
  intros [Hb Hk]. split.
  - rewrite length_app. simpl. destruct op; lia.
  - intros k hs [Hl|[_ Hx]]%lookup_app_Some.
    + pose proof (lookup_lt_Some _ _ _ Hl). specialize (Hk _ _ Hl). destruct op; lia.
    + pose proof Hx as [Hz ->]%list_lookup_singleton_Some. lia.
Qed.

Lemma stage_inv im hist op d : disk_inv im hist d → disk_inv im (hist ++ [op]) (stage op d).
Proof.
  intros (fin & flight & [Hh Hs Hhard Hn Hi Hd Hst Hw]). exists fin, flight.
  assert (N.to_nat (dp_durable_seq (gd_progress d)) ≤ length hist)%nat as Hle.
  { rewrite Hh, length_app. lia. }
  assert (numbered (length (fin ++ flight)) (qu_ops (gd_queue d) ++ [(N.of_nat (length hist) + 1, op)]))
    as Hn'.
  { intros k seq x [Hk|[Hk Hx]]%lookup_app_Some; [by eapply Hn|].
    apply list_lookup_singleton_Some in Hx as [Hz [= <- _]].
    rewrite Hh, !length_app, length_fmap. lia. }
  apply (hard_states_snoc _ op) in Hhard.
  assert (hist ++ [op] = fin ++ flight ++ (snd <$> (qu_ops (gd_queue d) ++ [(N.of_nat (length hist) + 1, op)])))
    as Hh' by (rewrite fmap_app, Hh at 1; by rewrite !app_assoc).
  rewrite <-(take_app_le hist [op]) in Hst by done. unfold stage. rewrite Hs.
  destruct op; (split; simpl; [exact Hh'|rewrite length_app; simpl; lia|exact Hhard|done..]).
Qed.

Lemma take_batch_inv im hist d : disk_inv im hist d → disk_inv im hist (take_batch d).
Proof.
  intros (fin & flight & Hd). pose proof Hd as [Hh Hs Hhard Hn Hi Hdu Hst Hw]. unfold take_batch.
  destruct (gd_writer d) eqn:Ew; [|by exists fin, flight..].
  destruct (last (qu_ops (gd_queue d))) as [[through op]|] eqn:El; [|by exists fin, flight].
  destruct Hw as [-> Hdur]. exists fin, (snd <$> qu_ops (gd_queue d)). simpl in *.
  split; simpl; rewrite ?app_nil_r; try done. split_and!.
  - apply merge_appends_merged.
  - rewrite app_nil_r in Hn. rewrite last_lookup in El. pose proof (lookup_lt_Some _ _ _ El).
    rewrite (Hn _ _ _ El), length_app, length_fmap. lia.
  - rewrite Hdur, Nat2N.id, Hh, take_app_length in Hst. done.
Qed.

Lemma write_next_inv im hist d :
  ops_fit im hist → abandons d = false → disk_inv im hist d → disk_inv im hist (write_next d).
Proof.
  intros Hfit Hab (fin & flight & Hd). pose proof Hd as [Hh Hs Hhard Hn Hi Hdu Hst Hw].
  unfold write_next, abandons in *. destruct (gd_writer d) as [|[|op ops] stable through closed|] eqn:Ew;
    try by exists fin, flight.
  destruct Hw as (Hm & Hth & Hsn). inversion Hm as [|? g ? rest Hj Hm']; subst.
  rewrite !ops_fit_app in Hfit. destruct Hfit as (_ & [Hg _] & _).
  pose proof (joins_fits _ _ _ Hj Hg) as Hop.
  destruct (disk_apply op (gd_storage d)) as [s r] eqn:Happ. simpl in Hab.
  pose proof (disk_apply_image _ _ _ _ _ Hi Hop Happ) as Hi'.
  destruct (is_ok r) eqn:Hr; simpl in *.
  - exists (fin ++ g), rest.
    split; simpl; rewrite <-?app_assoc in *; try done.
    + by rewrite image_ops_app, (joins_image _ _ _ Hj).
    + rewrite length_app. lia.
    + split_and!; [done..|]. rewrite image_ops_app, (joins_image _ _ _ Hj).
      apply next_stable_names; [apply Hi|done..].
  - destruct closed; [done|]. exists fin, (g ++ rest). split; simpl; try done. by rewrite Ew.
Qed.

Lemma publish_inv im hist d : disk_inv im hist d → disk_inv im hist (publish d).
Proof.
  intros (fin & flight & Hd). pose proof Hd as [Hh Hs Hhard Hn Hi Hdu Hst Hw]. unfold publish.
  destruct (gd_writer d) as [|[|op ops] stable through closed|] eqn:Ew; try by exists fin, flight.
  destruct Hw as (Hm & Hth & Hsn). inversion Hm; subst. rewrite app_nil_r in *. exists fin, [].
  split; simpl in *; rewrite ?app_nil_r; try done; try lia.
  - rewrite N.max_r, Nat2N.id, take_app_length by lia. done.
  - split; [done|lia].
Qed.

Lemma end_writer_inv im hist d : disk_inv im hist d → disk_inv im hist (end_writer d).
Proof.
  intros (fin & flight & [Hh Hs Hhard Hn Hi Hdu Hst Hw]). exists fin, flight. unfold end_writer.
  destruct (gd_writer d) eqn:Ew; [case_match|..]; split; simpl; rewrite ?Ew; done.
Qed.

Lemma disk_act_inv im hist a d :
  ops_fit im hist → (a = DaWrite → abandons d = false) →
  disk_inv im hist d → disk_inv im (hist ++ staged_by [a]) (disk_act d a).
Proof.
  intros Hfit Hab Hd. destruct a as [op| | | | |]; simpl; rewrite ?app_nil_r.
  - by apply stage_inv.
  - destruct Hd as (fin & flight & Hd). exists fin, flight. by destruct Hd.
  - by apply take_batch_inv.
  - by apply write_next_inv; [|apply Hab|].
  - by apply publish_inv.
  - by apply end_writer_inv.
Qed.

Lemma staged_by_app xs ys : staged_by (xs ++ ys) = staged_by xs ++ staged_by ys.
Proof. apply omap_app. Qed.

Lemma disk_run_inv im hist acts d :
  ops_fit im (hist ++ staged_by acts) → none_abandoned acts d = true →
  disk_inv im hist d → disk_inv im (hist ++ staged_by acts) (disk_run acts d).
Proof.
  revert hist d. induction acts as [|a acts IH]; intros hist d Hfit Hab Hd.
  { simpl. by rewrite app_nil_r. }
  change (a :: acts) with ([a] ++ acts) in *. rewrite staged_by_app, app_assoc in *.
  simpl in Hab. apply andb_true_iff in Hab as [Ha Hab].
  apply IH; [done|done|]. apply disk_act_inv; [|by intros ->; apply negb_true_iff in Ha|done].
  rewrite !ops_fit_app in Hfit. apply Hfit.
Qed.

Lemma durable_mono acts d :
  dp_durable_seq (gd_progress d) ≤ dp_durable_seq (gd_progress (disk_run acts d)).
Proof.
  revert d. induction acts as [|a acts IH]; intros d; simpl; [done|]. etrans; [|apply IH].
  destruct a as [op| | | | |]; simpl; unfold stage, take_batch, write_next, publish, end_writer;
    repeat case_match; simpl; lia.
Qed.

(** ** Durability *)

(** C5. Whatever is staged and however staging, closing and the writer's
    steps interleave, unless a failed write is given up the log storage holds
    what a prefix of the staged writes makes of the storage the disk was
    opened on. The prefix covers every write reported durable, and the stable
    entry the disk reports is the last entry of the durable part. *)
Theorem disk_prefix_durable s im acts :
  holds_image s im → ops_fit im (staged_by acts) → none_abandoned acts (disk_mount s) = true →
  let d := disk_run acts (disk_mount s) in
  let durable := dp_durable_seq (gd_progress d) in
  ∃ k : nat,
    durable ≤ N.of_nat k ≤ N.of_nat (length (staged_by acts)) ∧
    holds_image (gd_storage d) (image_ops im (take k (staged_by acts))) ∧
    stable_names (image_ops im (take (N.to_nat durable) (staged_by acts)))
      (dp_stable (gd_progress d)).
Proof.
  intros Him Hfit Hab. cbn zeta.
  destruct (disk_run_inv im [] acts _ Hfit Hab (disk_mount_inv _ _ Him)) as (fin & flight & Hd).
  destruct Hd as [Hh _ _ _ Hi Hdu Hst _]. simpl in Hh, Hst. exists (length fin).
  split; [rewrite Hh, length_app; lia|]. split; [|done]. by rewrite Hh, take_app_length.
Qed.


(** A write that fails on a closed disk is given up and still reported
    durable: its ticket is granted, and the storage is what it was. *)
Theorem abandoned_write_reported s im op :
  holds_image s im → op_fits im op → is_ok (disk_apply op s).2 = false →
  let d := disk_run [DaStage op; DaClose; DaTake; DaWrite; DaPublish] (disk_mount s) in
  ticket_for_staged (stage op (disk_mount s)) = Some 1 ∧
  ticket_poll 1 d = Some true ∧ holds_image (gd_storage d) im.
Proof.
  intros Him Hfit Hfail. pose proof Him as (_ & _ & Hm & Hl & _).
  destruct (disk_apply op s) as [s' r] eqn:Happ.
  pose proof (disk_apply_image _ _ _ _ _ Him Hfit Happ) as Him'. simpl in Hfail. rewrite Hfail in Him'.
  assert (∃ st, disk_mount s = set_restored_stable st (disk_open s)) as [st ->].
  { unfold disk_mount, staged_load_entries_after. simpl. rewrite Hm, Hl. simpl. case_match; eauto. }
  split; [by destruct op|].
  assert (write_next (take_batch (disk_close (stage op (set_restored_stable st (disk_open s))))) =
    MkGroupDisk s' (gd_queue (take_batch (disk_close (stage op (set_restored_stable st (disk_open s))))))
      (MkDiskProgress 0 st false) (WBatch [] (next_stable st op) 1 true)) as Hw.
  { destruct op; unfold write_next; simpl in *; rewrite Happ, orb_true_r; done. }
  simpl. rewrite Hw. split; [done|]. exact Him'.
Qed.

(** ** The writer keeps up *)

(** What the writer thread does next when nobody else runs. *)
Definition writer_next d : DiskAct :=
  match gd_writer d with
  | WBatch (_ :: _) _ _ _ => DaWrite
  | WBatch [] _ _ _ => DaPublish
  | _ => if bool_decide (qu_ops (gd_queue d) = []) then DaEnd else DaTake
  end.

Fixpoint writer_run (n : nat) d : GroupDisk S :=
  match n with O => d | Datatypes.S n => writer_run n (disk_act d (writer_next d)) end.

(** Attempts left to finish the batch at hand, and to take, write and publish
    what is queued. *)
Definition writer_work d : nat :=
  match gd_writer d with WBatch ops _ _ _ => length ops + 1 | _ => 0 end +
  match qu_ops (gd_queue d) with [] => 0 | ops => length ops + 2 end.

Lemma writer_run_add n k d : writer_run (n + k) d = writer_run k (writer_run n d).
Proof. revert d. induction n as [|n IH]; intros d; simpl; [done|apply IH]. Qed.

Lemma merge_appends_length batch : (length (merge_appends batch) ≤ length batch)%nat.
Proof.
  unfold merge_appends. rewrite <-(length_fmap snd). generalize (snd <$> batch). intros ops.
  induction ops as [|op ops IH] using rev_ind; [done|]. rewrite foldl_app, length_app. simpl.
  set (ms := foldl _ _ _) in *. clearbody ms. unfold merge_push.
  repeat case_match; rewrite ?length_app, ?length_take; simpl; lia.
Qed.

Section works.
Context (Hworks : ∀ op s, is_ok (disk_apply op s).2 = true).

(** A step of a writer with work left uses it up. *)
Lemma writer_step_work d :
  gd_writer d ≠ WEnded →
  let d' := disk_act d (writer_next d) in
  qu_staged_through (gd_queue d') = qu_staged_through (gd_queue d) ∧
  (writer_work d = 0%nat ∨ (writer_work d' < writer_work d)%nat ∧ gd_writer d' ≠ WEnded).
Proof.
  intros Hne. cbn zeta. unfold writer_next, writer_work.
  destruct (gd_writer d) as [|[|op ops] stable through closed|] eqn:Ew; [| | |done].
  - destruct (qu_ops (gd_queue d)) as [|x xs] eqn:Eq.
    { rewrite bool_decide_eq_true_2 by done. simpl. unfold end_writer. rewrite Ew. split; [by case_match|by left]. }
    rewrite bool_decide_eq_false_2 by done. simpl. unfold take_batch. rewrite Ew, Eq.
    destruct (last (x :: xs)) as [[through op]|] eqn:El; [|by apply last_None in El].
    split; [done|right]. cbn [upd]. simpl. pose proof (merge_appends_length (x :: xs)). simpl in *.
    split; [lia|done].
  - simpl. unfold publish. rewrite Ew. simpl. split; [done|right]. split; [lia|done].
  - simpl. unfold write_next. rewrite Ew. pose proof (Hworks op (gd_storage d)) as Hr.
    destruct (disk_apply op (gd_storage d)) as [s r]. simpl in Hr. rewrite Hr. simpl.
    split; [done|right]. split; [lia|done].
Qed.

Lemma works_abandons d : abandons d = false.
Proof.
  unfold abandons. repeat case_match; try done. by rewrite Hworks.
Qed.

Lemma works_none_abandoned acts d : none_abandoned acts d = true.
Proof.
  revert d. induction acts as [|a acts IH]; intros d; simpl; [done|].
  rewrite IH, works_abandons. by destruct a.
Qed.

(** The thread's own steps are steps of the disk that stage nothing. *)
Lemma writer_run_acts n d : ∃ acts, writer_run n d = disk_run acts d ∧ staged_by acts = [].
Proof.
  revert d. induction n as [|n IH]; intros d; [by exists []|].
  destruct (IH (disk_act d (writer_next d))) as (acts & Hrun & Hst).
  exists (writer_next d :: acts). split; [done|].
  unfold writer_next. by repeat case_match; simpl.
Qed.

Lemma writer_run_inv im hist n d :
  ops_fit im hist → disk_inv im hist d → disk_inv im hist (writer_run n d).
Proof.
  intros Hfit Hd. destruct (writer_run_acts n d) as (acts & -> & Hst).
  pose proof (disk_run_inv im hist acts d) as Hi. rewrite Hst, app_nil_r in Hi.
  apply Hi; [done|apply works_none_abandoned|done].
Qed.

Lemma writer_idle_durable im hist d :
  disk_inv im hist d → gd_writer d ≠ WEnded → writer_work d = 0%nat →
  dp_durable_seq (gd_progress d) = N.of_nat (length hist).
Proof.
  intros (fin & flight & [Hh _ _ _ _ _ _ Hw]) Hne Hz. unfold writer_work in Hz.
  destruct (gd_writer d); [|lia|done]. destruct (qu_ops (gd_queue d)); [|simpl in Hz; lia].
  destruct Hw as [-> ->]. rewrite Hh. simpl. by rewrite app_nil_r.
Qed.

Lemma writer_catches_up im hist n d :
  ops_fit im hist → disk_inv im hist d → gd_writer d ≠ WEnded → (writer_work d ≤ n)%nat →
  dp_durable_seq (gd_progress (writer_run n d)) = N.of_nat (length hist).
Proof.
  intros Hfit. revert d. induction n as [|n IH]; intros d Hd Hne Hle.
  - simpl. apply (writer_idle_durable im); [done..|lia].
  - destruct (writer_step_work d Hne) as [_ [Hz|[Hlt Hne']]].
    + destruct (writer_run_inv im hist (Datatypes.S n) d Hfit Hd) as (fin & flight & [Hh _ _ _ _ Hdu _ _]).
      destruct (writer_run_acts (Datatypes.S n) d) as (acts & Hrun & _).
      pose proof (durable_mono acts d) as Hmono. rewrite <-Hrun in Hmono.
      rewrite (writer_idle_durable im hist d Hd Hne Hz) in Hmono.
      assert (length fin ≤ length hist)%nat by (rewrite Hh, length_app; lia). lia.
    + cbn [writer_run]. apply IH; [|done|lia]. exact (writer_run_inv im hist 1 d Hfit Hd).
Qed.
End works.

(** C31. A writer thread whose writes succeed catches up: from any reachable
    state in which it has not ended, after as many of its own steps as there
    is work, every staged write is durable and on disk. *)
Theorem writer_drains s im acts n :
  let d := disk_run acts (disk_mount s) in
  (∀ op s, is_ok (disk_apply op s).2 = true) →
  holds_image s im → ops_fit im (staged_by acts) →
  gd_writer d ≠ WEnded → (writer_work d ≤ n)%nat →
  dp_durable_seq (gd_progress (writer_run n d)) = qu_staged_through (gd_queue d) ∧
  holds_image (gd_storage (writer_run n d)) (image_ops im (staged_by acts)).
Proof.
  cbn zeta. intros Hworks Him Hfit Hne Hle.
  pose proof (disk_run_inv im [] acts _ Hfit (works_none_abandoned Hworks _ _) (disk_mount_inv _ _ Him)) as Hd.
  simpl in Hd. set (d := disk_run acts (disk_mount s)) in *. clearbody d.
  pose proof (writer_catches_up Hworks im _ n d Hfit Hd Hne Hle) as Hdur.
  pose proof (writer_run_inv Hworks im _ n d Hfit Hd) as (fin & flight & Hd').
  destruct Hd as (fin0 & flight0 & Hd0). rewrite (di_staged _ _ _ _ _ Hd0), Hdur. split; [done|].
  destruct Hd' as [Hh _ _ _ Hi Hdu _ _]. rewrite Hdur in Hdu.
  pose proof (f_equal length Hh) as Hl. rewrite length_app in Hl.
  destruct (flight ++ _) as [|x xs]; [|simpl in Hl; lia]. by rewrite Hh, app_nil_r.
Qed.
End disk.
