(* ===== verification/DiskExamples.v ===== *)
(** * The group disk on concrete storage

    The theorems of [GroupDiskFacts] on [MemStorage], and on a storage whose
    writes fail. *)

From stdpp Require Import base option gmap list.
From S2P Require Import Prelude RaftState RaftLog RaftLogFacts GroupDisk GroupDiskFacts.

Open Scope N_scope.

(** ** Storage that is down *)

(** No write succeeds; what was written before can be read. *)
Record DownMem : Type := MkDownMem {
  dm_mem : MemStorage;
}.

Definition down_write (s : DownMem) : DownMem * Result unit := (s, Err Shutdown).

#[export] Instance down_log_storage : LogStorage DownMem := {|
  storage_append := λ _, down_write;
  storage_truncate := λ _, down_write;
  load_entries_after := λ i s, mem_load_entries_after i (dm_mem s);
  storage_compact := λ _ _, down_write;
  snapshot_metadata := λ s, snapshot_metadata (dm_mem s);
  save_hard_state := λ _, down_write;
  load_hard_state := λ s, load_hard_state (dm_mem s);
  save_applied_index := λ _, down_write;
  load_applied_index := λ s, load_applied_index (dm_mem s);
  stable_through := λ _, None;
|}.

#[export] Program Instance down_storage_spec : LogStorageSpec DownMem := {|
  storage_ok := λ s, mem_storage_ok (dm_mem s);
|}.
Next Obligation. by intros s new s' r es Hok Hl Hc [= <- <-]. Qed.
Next Obligation. by intros s new s' r [= <- <-]. Qed.
Next Obligation. by intros s i s' r es Hok Hl [= <- <-]. Qed.
Next Obligation. by intros s i s' r [= <- <-]. Qed.
Next Obligation. by intros s i t s' r es Hok Hl Hi [= <- <-]. Qed.
Next Obligation. by intros s i t s' r [= <- <-]. Qed.
Next Obligation. by intros s hs s' r [= <- <-]. Qed.
Next Obligation. by intros s i s' r [= <- <-]. Qed.

(** ** Witnesses *)

Definition blank_image : Image := MkImage (0, 0) [] hard_state_new 0.

Definition first_entry : LogEntry := MkLogEntry 1 1 [].

Definition second_entry : LogEntry := MkLogEntry 1 2 [7].

Definition voted : HardState := MkHardState 1 2.

(** A vote and an entry are staged and written; a second entry is staged
    while the writer works and only queued. *)
Definition disk_acts : list DiskAct := [
  DaStage (SoHardState voted);
  DaStage (SoAppend [first_entry]);
  DaTake;
  DaWrite;
  DaStage (SoAppend [second_entry]);
  DaWrite;
  DaPublish
].

Lemma blank_holds : holds_image mem_storage_new blank_image.
Proof. split_and!; try done. by intros e []%elem_of_nil. Qed.

Lemma down_holds : holds_image (MkDownMem mem_storage_new) blank_image.
Proof. split_and!; try done. by intros e []%elem_of_nil. Qed.

Lemma disk_acts_fit : ops_fit blank_image (staged_by disk_acts).
Proof.
  simpl. split_and!; try done.
  - intros i e He. by destruct i as [|i]; [injection He as <-|].
  - intros i e He. by destruct i as [|[|i]]; [injection He as <-..|].
Qed.

Lemma disk_prefix_durable_witness :
  let d := disk_run disk_acts (disk_mount mem_storage_new) in
  dp_durable_seq (gd_progress d) = 2 ∧ dp_stable (gd_progress d) = (1, 1) ∧
  ∃ k : nat, 2 ≤ N.of_nat k ≤ 3 ∧
    holds_image (gd_storage d) (image_ops blank_image (take k (staged_by disk_acts))).
Proof.
  split; [vm_compute; reflexivity|]. split; [vm_compute; reflexivity|].
  destruct (disk_prefix_durable mem_storage_new blank_image disk_acts) as (k & Hk & Him & _);
    [exact blank_holds|exact disk_acts_fit|vm_compute; reflexivity|].
  exists k. split; [exact Hk|exact Him].
Defined.


Lemma abandoned_write_reported_witness :
  let d := disk_run [DaStage (SoHardState voted); DaClose; DaTake; DaWrite; DaPublish]
    (disk_mount (MkDownMem mem_storage_new)) in
  ticket_poll 1 d = Some true ∧ holds_image (gd_storage d) blank_image.
Proof.
  destruct (abandoned_write_reported (MkDownMem mem_storage_new) blank_image (SoHardState voted))
    as (_ & Hp & Him); [exact down_holds|exact I|vm_compute; reflexivity|].
  split; [exact Hp|exact Him].
Defined.

Lemma writer_drains_witness :
  let d := disk_run disk_acts (disk_mount mem_storage_new) in
  qu_staged_through (gd_queue d) = 3 ∧
  dp_durable_seq (gd_progress (writer_run 3 d)) = qu_staged_through (gd_queue d) ∧
  holds_image (gd_storage (writer_run 3 d)) (image_ops blank_image (staged_by disk_acts)).
Proof.
  split; [vm_compute; reflexivity|].
  apply (writer_drains mem_storage_new blank_image disk_acts 3).
  - by intros [].
  - exact blank_holds.
  - exact disk_acts_fit.
  - vm_compute. discriminate.
  - vm_compute. lia.
Defined.
