(* ===== verification/RaftProtocol.v ===== *)
(** * The replication protocol

    An abstract Raft: nodes with full logs, of which a part is durable, that
    vote, lead, accept a leader's log, acknowledge it and crash. A leader is
    known by its term; [ps_hist] is the log of each term's leader and grows as
    the leader appends. Messages are the promises they carry: a vote is a
    promise to the candidate's log, an acknowledgement one to a prefix of the
    leader's log. A promise is pending until the node's disk holds what it
    says, and a crash takes pending promises back.

    The invariant says when an acknowledged prefix can be missing from a later
    leader's log: only when a majority has moved on without acknowledging it,
    so that it will never be chosen. Chosen prefixes are therefore in every
    later leader's log, and any two of them are comparable. The group of
    [RaftReplication] is shown to implement this protocol. *)

From stdpp Require Import base option gmap functions list.
From S2P Require Import Prelude RaftState RaftElection.

Open Scope N_scope.

Abbreviation Log := (list LogEntry) (only parsing).

(** The term of a log's last entry. *)
Definition log_term (l : Log) : u64 := match last l with Some e => e_term e | None => 0 end.

(** [l] is at least as up to date as [l']. *)
Definition up_to_date (l l' : Log) : Prop :=
  log_term l' < log_term l ∨ log_term l' = log_term l ∧ (length l' ≤ length l)%nat.

Record PState : Type := MkPState {
  ps_term : u64 → u64;
  ps_dterm : u64 → u64;
  ps_log : u64 → Log;
  ps_dlog : u64 → Log;
  ps_hist : u64 → option Log;
  ps_start : u64 → Log;
  ps_grants : u64 → u64 → Log → Prop;
  ps_gleft : u64 → u64 → Log → Prop;
  ps_acks : u64 → u64 → nat → Prop;
  ps_aleft : u64 → u64 → nat → Prop;
}.

#[export] Instance eta_PState : Eta PState := λ p,
  MkPState (ps_term p) (ps_dterm p) (ps_log p) (ps_dlog p) (ps_hist p) (ps_start p)
    (ps_grants p) (ps_gleft p) (ps_acks p) (ps_aleft p).

(** Every prefix of [l] that ends with an entry of a term is a prefix of the
    log of that term's leader. *)
Definition coherent (hist : u64 → option Log) (l : Log) : Prop :=
  ∀ i e, l !! i = Some e → ∃ h, hist (e_term e) = Some h ∧ take (S i) l `prefix_of` h.

(** The leader of [t] itself made entry number [i] of its log. *)
Definition own_key p (t : u64) (i : nat) : Prop :=
  ∃ h, ps_hist p t = Some h ∧ (length (ps_start p t) < i ≤ length h)%nat.

(** [Q] is a majority of [V]. *)
Definition majority (V Q : gset u64) : Prop := Q ⊆ V ∧ (size V < 2 * size Q)%nat.

Section protocol.
Context (V : gset u64).
Implicit Types (p : PState) (v t u : u64) (l h : Log) (e : LogEntry).

Inductive pstep p : PState → Prop :=
  | p_raise v u :
      ps_term p v ≤ u → pstep p (p {{ ps_term ::= <[v := u]> }})
  | p_grant v u l :
      ps_term p v = u → coherent (ps_hist p) l → (∀ e, e ∈ l → e_term e < u) →
      up_to_date l (ps_log p v) →
      pstep p (p {{ ps_grants ::= λ g v' u' l', g v' u' l' ∨ v' = v ∧ u' = u ∧ l' = l }})
  | p_flush v st :
      ps_dterm p v ≤ st ≤ ps_term p v → (∀ e, e ∈ ps_log p v → e_term e ≤ st) →
      pstep p (p {{ ps_dterm ::= <[v := st]>; ps_dlog ::= <[v := ps_log p v]>;
                    ps_gleft ::= <[v := λ u l, ps_grants p v u l ∧ u ≤ st]>;
                    ps_aleft ::= <[v := λ t m, ps_acks p v t m ∧ t ≤ st]> }})
  | p_crash v :
      pstep p (p {{ ps_term ::= <[v := ps_dterm p v]>; ps_log ::= <[v := ps_dlog p v]>;
                    ps_grants ::= <[v := ps_gleft p v]>; ps_acks ::= <[v := ps_aleft p v]> }})
  | p_win Q u l :
      ps_hist p u = None → majority V Q → (∀ v, v ∈ Q → ps_gleft p v u l) →
      pstep p (p {{ ps_hist ::= <[u := Some l]>; ps_start ::= <[u := l]> }})
  | p_lead v u e :
      ps_term p v = u → ps_hist p u = Some (ps_log p v) → e_term e = u →
      pstep p (p {{ ps_hist ::= <[u := Some (ps_log p v ++ [e])]>;
                    ps_log ::= <[v := ps_log p v ++ [e]]> }})
  | p_accept v u h l :
      ps_term p v = u → ps_hist p u = Some h → l `prefix_of` h → ¬ l `prefix_of` ps_log p v →
      pstep p (p {{ ps_log ::= <[v := l]> }})
  | p_ack v u h m :
      ps_term p v = u → ps_hist p u = Some h → (m ≤ length h)%nat →
      ((length (ps_start p u) < m)%nat → take m h `prefix_of` ps_log p v) →
      pstep p (p {{ ps_acks ::= λ a v' t' m', a v' t' m' ∨ v' = v ∧ t' = u ∧ m' = m }})
  | p_ack_now v u h m :
      ps_term p v = u → ps_dterm p v = u → ps_hist p u = Some h → (m ≤ length h)%nat →
      ((length (ps_start p u) < m)%nat →
        take m h `prefix_of` ps_log p v ∧ take m h `prefix_of` ps_dlog p v) →
      pstep p (p {{ ps_acks ::= λ a v' t' m', a v' t' m' ∨ v' = v ∧ t' = u ∧ m' = m;
                    ps_aleft ::= λ a v' t' m', a v' t' m' ∨ v' = v ∧ t' = u ∧ m' = m }}).

(** The first [i] entries of term [t]'s leader will never be chosen: a
    majority is past the term and has not acknowledged them. *)
Definition dead p t (i : nat) : Prop :=
  ∃ Q, majority V Q ∧ ∀ v, v ∈ Q → t < ps_dterm p v ∧ ∀ m, (i ≤ m)%nat → ¬ ps_acks p v t m.

(** A majority holds the first [i] entries of term [t]'s leader durably, and
    the leader made the last of them. *)
Definition chosen p t (i : nat) : Prop :=
  own_key p t i ∧ ∃ Q, majority V Q ∧ ∀ v, v ∈ Q → ∃ m, (i ≤ m)%nat ∧ ps_aleft p v t m.

(** The first [i] entries of term [t]'s leader are in [l], unless dead. *)
Definition kept p t (i : nat) l : Prop :=
  ¬ dead p t i → ∀ h, ps_hist p t = Some h → take i h `prefix_of` l.

Record pinv p : Prop := MkPInv {
  pi_hist : ∀ t h, ps_hist p t = Some h → coherent (ps_hist p) h ∧ ∀ e, e ∈ h → e_term e ≤ t;
  pi_start : ∀ t h, ps_hist p t = Some h →
    ps_start p t `prefix_of` h ∧ (∀ e, e ∈ ps_start p t → e_term e < t) ∧
    ∀ i e, (length (ps_start p t) ≤ i)%nat → h !! i = Some e → e_term e = t;
  pi_log : ∀ v, coherent (ps_hist p) (ps_log p v) ∧ ∀ e, e ∈ ps_log p v → e_term e ≤ ps_term p v;
  pi_dlog : ∀ v, coherent (ps_hist p) (ps_dlog p v) ∧ ∀ e, e ∈ ps_dlog p v → e_term e ≤ ps_dterm p v;
  pi_terms : ∀ v, ps_dterm p v ≤ ps_term p v;
  pi_grants : ∀ v u l, ps_grants p v u l →
    u ≤ ps_term p v ∧ coherent (ps_hist p) l ∧ (∀ e, e ∈ l → e_term e < u) ∧
    ∀ t i m, t < u → own_key p t i → ps_acks p v t m → (i ≤ m)%nat → kept p t i l;
  pi_gleft : ∀ v u l, ps_gleft p v u l → ps_grants p v u l ∧ u ≤ ps_dterm p v;
  pi_acks : ∀ v t m, ps_acks p v t m →
    t ≤ ps_term p v ∧ (∃ h, ps_hist p t = Some h ∧ (m ≤ length h)%nat) ∧
    ∀ i, own_key p t i → (i ≤ m)%nat → kept p t i (ps_log p v);
  pi_aleft : ∀ v t m, ps_aleft p v t m →
    ps_acks p v t m ∧ t ≤ ps_dterm p v ∧
    ∀ i, own_key p t i → (i ≤ m)%nat → kept p t i (ps_dlog p v);
  pi_safe : ∀ t u h i, ps_hist p u = Some h → t < u → own_key p t i → kept p t i (ps_start p u);
  pi_elected : ∀ u h, ps_hist p u = Some h → ∃ Q, majority V Q ∧ ∀ v, v ∈ Q → u ≤ ps_dterm p v;
}.

(** ** Prefixes and coherent logs *)

Lemma prefix_by_length {A} (l l' h : list A) :
  l `prefix_of` h → l' `prefix_of` h → (length l ≤ length l')%nat → l `prefix_of` l'.
Proof.
  intros H1 H2 Hl. destruct (prefix_weak_total l l' h H1 H2) as [?|Hp]; [done|].
  rewrite (prefix_length_eq l' l); [done..|lia].
Qed.

Lemma take_prefix_take {A} (i : nat) (l h : list A) :
  l `prefix_of` h → (i ≤ length l)%nat → take i h = take i l.
Proof. intros [k ->] Hi. by rewrite take_app_le. Qed.

Lemma take_prefix_le {A} (i m : nat) (h : list A) : (i ≤ m)%nat → take i h `prefix_of` take m h.
Proof.
  intros Hi. replace (take i h) with (take i (take m h)); [apply prefix_take|].
  by rewrite take_take, Nat.min_l.
Qed.

Lemma prefix_elem {A} (l h : list A) x : l `prefix_of` h → x ∈ l → x ∈ h.
Proof. intros [k ->] Hx. apply elem_of_app. by left. Qed.

Lemma coherent_nil hist : coherent hist [].
Proof. intros i e He. by rewrite lookup_nil in He. Qed.

Lemma coherent_prefix hist l l' : l' `prefix_of` l → coherent hist l → coherent hist l'.
Proof.
  intros [k ->] Hc i e He. pose proof (lookup_lt_Some _ _ _ He).
  destruct (Hc i e) as (h & Hh & Hp); [by apply lookup_app_l_Some|].
  exists h. split; [done|]. by rewrite take_app_le in Hp by lia.
Qed.

Lemma coherent_mono hist hist' l :
  (∀ t h, hist t = Some h → ∃ h', hist' t = Some h' ∧ h `prefix_of` h') →
  coherent hist l → coherent hist' l.
Proof.
  intros Hm Hc i e He. destruct (Hc i e He) as (h & Hh & Hp).
  destruct (Hm _ _ Hh) as (h' & Hh' & Hp'). exists h'. split; [done|]. by etrans.
Qed.

Lemma coherent_last hist l :
  coherent hist l → l ≠ [] → ∃ h, hist (log_term l) = Some h ∧ l `prefix_of` h.
Proof.
  intros Hc Hne. unfold log_term. destruct (last l) as [e|] eqn:El; [|by apply last_None in El].
  rewrite last_lookup in El. destruct (Hc _ _ El) as (h & Hh & Hp). exists h. split; [done|].
  rewrite take_ge in Hp; [done|]. destruct l; [done|simpl; lia].
Qed.

(** Coherent logs with the same last term and length are the same. *)
Lemma coherent_key hist l l' :
  coherent hist l → coherent hist l' → log_term l = log_term l' → length l = length l' → l = l'.
Proof.
  intros Hc Hc' Ht Hl. destruct (decide (l = [])) as [->|Hne].
  { destruct l'; [done|simpl in Hl; lia]. }
  destruct (coherent_last _ _ Hc Hne) as (h & Hh & Hp).
  destruct (coherent_last _ _ Hc') as (h' & Hh' & Hp').
  { intros ->. by destruct l. }
  rewrite Ht, Hh' in Hh. injection Hh as ->.
  apply prefix_length_eq; [by eapply prefix_by_length; [..|lia]|lia].
Qed.

Lemma log_term_in l : l ≠ [] → ∃ e, e ∈ l ∧ e_term e = log_term l.
Proof.
  intros Hne. unfold log_term. destruct (last l) as [e|] eqn:El; [|by apply last_None in El].
  exists e. split; [|done]. apply last_Some in El as [k ->]. apply elem_of_app. right. by left.
Qed.

Lemma log_term_elem p l e :
  (∀ t h, ps_hist p t = Some h → ∀ e, e ∈ h → e_term e ≤ t) →
  coherent (ps_hist p) l → e ∈ l → e_term e ≤ log_term l.
Proof.
  intros Hh Hc He. destruct (coherent_last _ _ Hc) as (h & Hh' & Hp).
  { intros ->. by apply elem_of_nil in He. }
  eapply Hh; [done|]. by eapply prefix_elem.
Qed.

(** ** Extension *)

(** What every step keeps: leaders' logs and durable terms grow, and a node
    past a term makes no new promise in it. *)
Record pext p p' : Prop := MkPExt {
  pe_hist : ∀ t h, ps_hist p t = Some h → ∃ h', ps_hist p' t = Some h' ∧ h `prefix_of` h';
  pe_start : ∀ t h, ps_hist p t = Some h → ps_start p' t = ps_start p t;
  pe_dterm : ∀ v, ps_dterm p v ≤ ps_dterm p' v;
  pe_acks : ∀ v t m, t < ps_dterm p v → ps_acks p' v t m → ps_acks p v t m;
}.

Lemma dead_ext p p' t i : pext p p' → dead p t i → dead p' t i.
Proof.
  intros Hx (Q & HQ & Hd). exists Q. split; [done|]. intros v Hv. destruct (Hd v Hv) as [Ht Ha].
  pose proof (pe_dterm _ _ Hx v). split; [lia|]. intros m Hm Hack.
  by eapply Ha, pe_acks.
Qed.

Lemma own_key_ext p p' t i : pext p p' → own_key p t i → own_key p' t i.
Proof.
  intros Hx (h & Hh & Hi). destruct (pe_hist _ _ Hx _ _ Hh) as (h' & Hh' & Hp).
  exists h'. split; [done|]. rewrite (pe_start _ _ Hx _ _ Hh). apply prefix_length in Hp. lia.
Qed.

Lemma kept_ext p p' t i l l' :
  pext p p' → own_key p t i → l `prefix_of` l' → kept p t i l → kept p' t i l'.
Proof.
  intros Hx (h & Hh & Hi) Hl Hk Hnd h' Hh'.
  destruct (pe_hist _ _ Hx _ _ Hh) as (h'' & Hh'' & Hp). simplify_eq.
  rewrite (take_prefix_take _ _ _ Hp) by lia. etrans; [|done].
  apply Hk; [|done]. contradict Hnd. by eapply dead_ext.
Qed.

Lemma coherent_ext p p' l : pext p p' → coherent (ps_hist p) l → coherent (ps_hist p') l.
Proof. intros Hx. apply coherent_mono, Hx. Qed.

(** ** The steps keep the invariant *)

(** Field by field at node [w] after a write at node [v]. *)
Ltac at_node w v :=
  destruct (decide (w = v)) as [->|?];
  rewrite ?fn_lookup_insert, ?fn_lookup_insert_ne in * by done.

(** A step that elects nobody and appends to no leader's log. *)
Lemma pinv_local p p' :
  pinv p → pext p p' → ps_hist p' = ps_hist p → ps_start p' = ps_start p →
  (∀ v, coherent (ps_hist p) (ps_log p' v) ∧ ∀ e, e ∈ ps_log p' v → e_term e ≤ ps_term p' v) →
  (∀ v, coherent (ps_hist p) (ps_dlog p' v) ∧ ∀ e, e ∈ ps_dlog p' v → e_term e ≤ ps_dterm p' v) →
  (∀ v, ps_dterm p' v ≤ ps_term p' v) →
  (∀ v u l, ps_grants p' v u l →
    u ≤ ps_term p' v ∧ coherent (ps_hist p) l ∧ (∀ e, e ∈ l → e_term e < u) ∧
    ∀ t i m, t < u → own_key p t i → ps_acks p' v t m → (i ≤ m)%nat → kept p t i l) →
  (∀ v u l, ps_gleft p' v u l → ps_grants p' v u l ∧ u ≤ ps_dterm p' v) →
  (∀ v t m, ps_acks p' v t m →
    t ≤ ps_term p' v ∧ (∃ h, ps_hist p t = Some h ∧ (m ≤ length h)%nat) ∧
    ∀ i, own_key p t i → (i ≤ m)%nat → kept p t i (ps_log p' v)) →
  (∀ v t m, ps_aleft p' v t m →
    ps_acks p' v t m ∧ t ≤ ps_dterm p' v ∧
    ∀ i, own_key p t i → (i ≤ m)%nat → kept p t i (ps_dlog p' v)) →
  pinv p'.
Proof.
  intros Hp Hx Hh Hs Hlog Hdlog Hterms Hgr Hgl Hac Hal.
  assert (∀ t i, own_key p' t i ↔ own_key p t i) as Hkey.
  { intros t i. unfold own_key. by rewrite Hh, Hs. }
  assert (∀ t i l, own_key p t i → kept p t i l → kept p' t i l) as Hkept.
  { intros t i l Hk. by apply kept_ext. }
  split; rewrite ?Hh, ?Hs; try done; try apply Hp.
  - intros v u l Hg. destruct (Hgr v u l Hg) as (? & ? & ? & Hk). split_and!; [done..|].
    intros t i m Ht Hi Ha Hm. apply Hkey in Hi. eauto.
  - intros v t m Ha. destruct (Hac v t m Ha) as (? & ? & Hk). split_and!; [done..|].
    intros i Hi Hm. apply Hkey in Hi. eauto.
  - intros v t m Ha. destruct (Hal v t m Ha) as (? & ? & Hk). split_and!; [done..|].
    intros i Hi Hm. apply Hkey in Hi. eauto.
  - intros t u h i Hu Ht Hi. apply Hkey in Hi. apply Hkept; [done|].
    by eapply (pi_safe _ Hp).
  - intros u h Hu. destruct (pi_elected _ Hp u h Hu) as (Q & HQ & Hd). exists Q. split; [done|].
    intros v Hv. etrans; [by apply Hd|apply Hx].
Qed.

Lemma pext_refl_fields p p' :
  ps_hist p' = ps_hist p → ps_start p' = ps_start p → (∀ v, ps_dterm p v ≤ ps_dterm p' v) →
  (∀ v t m, t < ps_dterm p v → ps_acks p' v t m → ps_acks p v t m) → pext p p'.
Proof. intros Hh Hs Hd Ha. split; rewrite ?Hh, ?Hs; eauto. Qed.

Lemma raise_ok p v u :
  ps_term p v ≤ u → pinv p → pinv (p {{ ps_term ::= <[v := u]> }}).
Proof.
  intros Hu Hp. apply (pinv_local p); try done; simpl; try apply Hp.
  - by apply pext_refl_fields.
  - intros w. split; [apply Hp|]. intros e He. pose proof (proj2 (pi_log _ Hp w) e He).
    at_node w v; lia.
  - intros w. pose proof (pi_terms _ Hp w). at_node w v; lia.
  - intros w u' l Hg. destruct (pi_grants _ Hp w u' l Hg) as (? & ? & ? & ?). split_and!; [|done..].
    at_node w v; lia.
  - intros w t m Ha. destruct (pi_acks _ Hp w t m Ha) as (? & ? & ?). split_and!; [|done..].
    at_node w v; lia.
Qed.

(** A voter's promises are in the log of a candidate it finds up to date. *)
Lemma up_to_date_kept p v l t i m u :
  pinv p → coherent (ps_hist p) l → (∀ e, e ∈ l → e_term e < u) → up_to_date l (ps_log p v) →
  own_key p t i → ps_acks p v t m → (i ≤ m)%nat → kept p t i l.
Proof.
  intros Hp Hc Hlt Hup Hi Ha Hm Hnd h Hh.
  destruct (pi_acks _ Hp v t m Ha) as (_ & _ & Hk). pose proof (Hk i Hi Hm Hnd h Hh) as Hin.
  pose proof Hi as (h' & Hh' & Hlen). simplify_eq.
  destruct (pi_log _ Hp v) as [Hcv _]. destruct (pi_start _ Hp t h Hh) as (_ & _ & Hown).
  assert (∃ e, h !! pred i = Some e ∧ e_term e = t ∧ e ∈ ps_log p v) as (e & He & Het & Hev).
  { destruct (lookup_lt_is_Some_2 h (pred i)) as [e He]; [lia|]. exists e.
    split_and!; [done|by eapply Hown; [|exact He]; lia|]. eapply prefix_elem; [exact Hin|].
    apply list_elem_of_lookup. exists (pred i). by rewrite lookup_take_lt by lia. }
  assert (t ≤ log_term (ps_log p v)) as Htv.
  { rewrite <-Het. eapply log_term_elem; [|done..]. intros ? ? Hx. by apply (pi_hist _ Hp). }
  assert (ps_log p v ≠ []) as Hne by (intros Hz; rewrite Hz in Hev; by apply elem_of_nil in Hev).
  assert (l ≠ []) as Hnl.
  { intros ->. destruct Hup as [Hup|[_ Hup]]; [change (log_term []) with 0 in Hup; lia|].
    by destruct (ps_log p v); [|simpl in Hup; lia]. }
  destruct (coherent_last _ _ Hcv Hne) as (hv & Hhv & Hpv).
  destruct (coherent_last _ _ Hc Hnl) as (hl & Hhl & Hpl).
  destruct Hup as [Hlt'|[Heq Hle]].
  - destruct (pi_start _ Hp _ _ Hhl) as (Hst & Hstl & _).
    destruct (log_term_in l Hnl) as (x & Hx & Hxt). pose proof (Hlt x Hx).
    etrans; [eapply (pi_safe _ Hp t (log_term l) hl i); [done|lia|done..]|]. eapply prefix_by_length; [done..|].
    destruct (decide (length l ≤ length (ps_start p (log_term l)))%nat) as [Hsh|]; [exfalso|lia].
    assert (l `prefix_of` ps_start p (log_term l)) as Hls by (by eapply prefix_by_length).
    pose proof (Hstl x (prefix_elem _ _ _ Hls Hx)). lia.
  - rewrite <-Heq, Hhv in Hhl. injection Hhl as <-.
    etrans; [exact Hin|]. by eapply prefix_by_length.
Qed.

Lemma grant_ok p v u l :
  ps_term p v = u → coherent (ps_hist p) l → (∀ e, e ∈ l → e_term e < u) →
  up_to_date l (ps_log p v) → pinv p →
  pinv (p {{ ps_grants ::= λ g v' u' l', g v' u' l' ∨ v' = v ∧ u' = u ∧ l' = l }}).
Proof.
  intros Hu Hc Hlt Hup Hp. apply (pinv_local p); try done; simpl; try apply Hp.
  - by apply pext_refl_fields.
  - intros w u' l' [Hg|(-> & -> & ->)]; [by apply (pi_grants _ Hp)|]. split_and!; [lia|done..|].
    intros t i m _ Hi Ha Hm. by eapply up_to_date_kept.
  - intros w u' l' Hg. destruct (pi_gleft _ Hp w u' l' Hg). split; [by left|done].
Qed.

Lemma flush_ok p v st :
  ps_dterm p v ≤ st ≤ ps_term p v → (∀ e, e ∈ ps_log p v → e_term e ≤ st) → pinv p →
  pinv (p {{ ps_dterm ::= <[v := st]>; ps_dlog ::= <[v := ps_log p v]>;
             ps_gleft ::= <[v := λ u l, ps_grants p v u l ∧ u ≤ st]>;
             ps_aleft ::= <[v := λ t m, ps_acks p v t m ∧ t ≤ st]> }}).
Proof.
  intros Hst He Hp. apply (pinv_local p); try done; simpl; try apply Hp.
  - apply pext_refl_fields; try done. simpl. intros w. at_node w v; lia.
  - intros w. at_node w v; [|apply (pi_dlog _ Hp)]. split; [apply (pi_log _ Hp)|done].
  - intros w. pose proof (pi_terms _ Hp w). at_node w v; lia.
  - intros w u l Hl. at_node w v; [done|by apply (pi_gleft _ Hp)].
  - intros w t m Hl. at_node w v; [|by apply (pi_aleft _ Hp)]. destruct Hl as [Hl ?].
    split_and!; [done..|]. by apply (pi_acks _ Hp v t m).
Qed.

Lemma crash_ok p v :
  pinv p →
  pinv (p {{ ps_term ::= <[v := ps_dterm p v]>; ps_log ::= <[v := ps_dlog p v]>;
             ps_grants ::= <[v := ps_gleft p v]>; ps_acks ::= <[v := ps_aleft p v]> }}).
Proof.
  intros Hp.
  assert (∀ w t m, (<[v := ps_aleft p v]> (ps_acks p)) w t m → ps_acks p w t m) as Hack.
  { intros w t m Ha. at_node w v; [|done]. by apply (pi_aleft _ Hp). }
  apply (pinv_local p); try done; simpl; try apply Hp.
  - apply pext_refl_fields; try done. simpl. eauto.
  - intros w. at_node w v; [apply (pi_dlog _ Hp)|apply (pi_log _ Hp)].
  - intros w. at_node w v; [lia|apply (pi_terms _ Hp)].
  - intros w u l Hg. assert (ps_grants p w u l) as Hg'.
    { at_node w v; [|done]. by apply (pi_gleft _ Hp). }
    destruct (pi_grants _ Hp w u l Hg') as (? & ? & ? & ?). split_and!; [|by eauto..].
    at_node w v; [|done]. by apply (pi_gleft _ Hp) in Hg as [_ ?].
  - intros w u l Hg. destruct (pi_gleft _ Hp w u l Hg). at_node w v; done.
  - intros w t m Ha. destruct (pi_acks _ Hp w t m (Hack _ _ _ Ha)) as (? & ? & ?).
    at_node w v; [|done]. by destruct (pi_aleft _ Hp v t m Ha) as (? & ? & ?).
  - intros w t m Ha. destruct (pi_aleft _ Hp w t m Ha) as (? & ? & ?). at_node w v; done.
Qed.

(** Acknowledging the first [m] entries of the current leader. *)
Lemma ack_own p v u h m L :
  ps_hist p u = Some h → (m ≤ length h)%nat →
  ((length (ps_start p u) < m)%nat → take m h `prefix_of` L) →
  ∀ i, own_key p u i → (i ≤ m)%nat → kept p u i L.
Proof.
  intros Hh Hm HL i (h' & Hh' & Hi) Him _ h'' Hh''. rewrite Hh in Hh', Hh''. simplify_eq.
  etrans; [|apply HL; lia]. by apply take_prefix_le.
Qed.

Lemma ack_ok p v u h m :
  ps_term p v = u → ps_hist p u = Some h → (m ≤ length h)%nat →
  ((length (ps_start p u) < m)%nat → take m h `prefix_of` ps_log p v) → pinv p →
  pinv (p {{ ps_acks ::= λ a v' t' m', a v' t' m' ∨ v' = v ∧ t' = u ∧ m' = m }}).
Proof.
  intros Hu Hh Hm HL Hp. apply (pinv_local p); try done; simpl; try apply Hp.
  - apply pext_refl_fields; try done. simpl. intros w t m' Ht [?|(-> & -> & ->)]; [done|].
    pose proof (pi_terms _ Hp v). lia.
  - intros w u' l Hg. destruct (pi_grants _ Hp w u' l Hg) as (? & ? & ? & ?). split_and!; [done..|].
    intros t i m' Ht Hi [?|(-> & -> & ->)] Hm'; [by eauto|lia].
  - intros w t m' [Ha|(-> & -> & ->)]; [by apply (pi_acks _ Hp)|].
    split_and!; [lia|by eauto|]. by eapply ack_own.
  - intros w t m' Ha. destruct (pi_aleft _ Hp w t m' Ha) as (? & ? & ?). split_and!; [by left|done..].
Qed.

Lemma ack_now_ok p v u h m :
  ps_term p v = u → ps_dterm p v = u → ps_hist p u = Some h → (m ≤ length h)%nat →
  ((length (ps_start p u) < m)%nat →
    take m h `prefix_of` ps_log p v ∧ take m h `prefix_of` ps_dlog p v) → pinv p →
  pinv (p {{ ps_acks ::= λ a v' t' m', a v' t' m' ∨ v' = v ∧ t' = u ∧ m' = m;
             ps_aleft ::= λ a v' t' m', a v' t' m' ∨ v' = v ∧ t' = u ∧ m' = m }}).
Proof.
  intros Hu Hd Hh Hm HL Hp. assert (Hp' := Hp). apply (ack_ok p v u h m) in Hp'; try done.
  2: { intros. by apply HL. }
  eapply (pinv_local _ _ Hp'); try done; simpl; try apply Hp'.
  - by apply pext_refl_fields.
  - intros w t m' [Ha|(-> & -> & ->)]; [by apply (pi_aleft _ Hp' w t m')|].
    split_and!; [by right|lia|]. eapply (ack_own (p {{ ps_acks ::= _ }})); [done..|].
    intros. by apply HL.
Qed.

Lemma accept_ok p v u h l :
  ps_term p v = u → ps_hist p u = Some h → l `prefix_of` h → ¬ l `prefix_of` ps_log p v →
  pinv p → pinv (p {{ ps_log ::= <[v := l]> }}).
Proof.
  intros Hu Hh Hl Hnl Hp. apply (pinv_local p); try done; simpl; try apply Hp.
  - by apply pext_refl_fields.
  - intros w. at_node w v; [|apply (pi_log _ Hp)]. destruct (pi_hist _ Hp _ _ Hh) as [Hc Ht].
    split; [by eapply coherent_prefix|]. intros e He. rewrite Hu. by eapply Ht, prefix_elem.
  - intros w t m Ha. destruct (pi_acks _ Hp w t m Ha) as (Ht & Hm & Hk). split_and!; [done..|].
    intros i Hi Him. at_node w v; [|by apply Hk]. intros Hnd h' Hh'.
    pose proof (Hk i Hi Him Hnd h' Hh') as Hin.
    assert (take i h' `prefix_of` h) as Hpre.
    { destruct (decide (t = u)) as [->|]; [simplify_eq; apply prefix_take|].
      etrans; [eapply (pi_safe _ Hp t u); [done|lia|done..]|]. by apply (pi_start _ Hp). }
    destruct (prefix_weak_total _ _ _ Hpre Hl) as [?|Hx]; [done|].
    destruct Hnl. by etrans.
Qed.

Lemma majority_inhabited Q : majority V Q → ∃ v, v ∈ Q.
Proof.
  intros [_ Hs]. destruct (decide (Q = ∅)) as [->|Hne].
  - rewrite size_empty in Hs. lia.
  - by apply set_choose_L in Hne.
Qed.

Lemma win_ext p u l :
  ps_hist p u = None → pext p (p {{ ps_hist ::= <[u := Some l]>; ps_start ::= <[u := l]> }}).
Proof.
  intros Hn. split; simpl; [| |done..]; intros t h Hh; at_node t u; simplify_eq; eauto.
Qed.

Lemma win_ok p Q u l :
  ps_hist p u = None → majority V Q → (∀ v, v ∈ Q → ps_gleft p v u l) → pinv p →
  pinv (p {{ ps_hist ::= <[u := Some l]>; ps_start ::= <[u := l]> }}).
Proof.
  intros Hn HQ Hg Hp. pose proof (win_ext p u l Hn) as Hx.
  match type of Hx with pext _ ?q => set (p' := q) in * end.
  assert (∀ v, v ∈ Q → ps_grants p v u l ∧ u ≤ ps_dterm p v) as Hgr.
  { intros v Hv. by apply (pi_gleft _ Hp), Hg. }
  destruct (majority_inhabited Q HQ) as [v0 Hv0]. destruct (Hgr v0 Hv0) as [Hg0 _].
  destruct (pi_grants _ Hp _ _ _ Hg0) as (_ & Hc & Hlt & _).
  assert (∀ t i, own_key p' t i → own_key p t i) as Hkey.
  { intros t i (h & Hh & Hi). subst p'. simpl in *. at_node t u; [simplify_eq; lia|by exists h]. }
  assert (∀ t i L, own_key p' t i → kept p t i L → kept p' t i L) as Hkept.
  { intros t i L Hi. apply kept_ext; [done| |done]. by apply Hkey. }
  split.
  - intros t h Hh. subst p'. simpl in *. at_node t u; simplify_eq.
    + split; [by apply (coherent_ext _ _ _ Hx)|]. intros e He. specialize (Hlt e He). lia.
    + destruct (pi_hist _ Hp _ _ Hh). split; [by apply (coherent_ext _ _ _ Hx)|done].
  - intros t h Hh. subst p'. simpl in *. at_node t u; simplify_eq; [|by apply (pi_start _ Hp)].
    split_and!; [done..|]. intros i e Hi He. apply lookup_lt_Some in He. lia.
  - intros v. destruct (pi_log _ Hp v). split; [by apply (coherent_ext _ _ _ Hx)|done].
  - intros v. destruct (pi_dlog _ Hp v). split; [by apply (coherent_ext _ _ _ Hx)|done].
  - apply Hp.
  - intros v u' l' Hv. destruct (pi_grants _ Hp _ _ _ Hv) as (? & ? & ? & ?).
    split_and!; [done|by apply (coherent_ext _ _ _ Hx)|done|]. eauto.
  - apply (pi_gleft _ Hp).
  - intros v t m Ha. destruct (pi_acks _ Hp _ _ _ Ha) as (? & (h & Hh & Hm) & ?).
    split_and!; [done| |by eauto]. destruct (pe_hist _ _ Hx _ _ Hh) as (h' & ? & Hpre).
    exists h'. apply prefix_length in Hpre. split; [done|lia].
  - intros v t m Ha. destruct (pi_aleft _ Hp _ _ _ Ha) as (? & ? & ?). eauto 10.
  - intros t u' h i Hh Ht Hi. specialize (Hkept t i). specialize (Hkey t i Hi).
    subst p'. simpl in *. at_node u' u; [|by eapply Hkept, (pi_safe _ Hp)]. simplify_eq.
    apply Hkept; [done|]. intros Hnd h' Hh'. apply dec_stable. intros Hno. apply Hnd.
    exists Q. split; [done|]. intros v Hv. destruct (Hgr v Hv) as [Hvg Hd]. split; [lia|].
    intros m Hm Ha. apply Hno. by eapply (pi_grants _ Hp).
  - intros t h Hh. subst p'. simpl in *. at_node t u; [|by eapply (pi_elected _ Hp)].
    exists Q. split; [done|]. intros v Hv. by apply Hgr.
Qed.

Lemma lead_ext p v u e :
  ps_hist p u = Some (ps_log p v) →
  pext p (p {{ ps_hist ::= <[u := Some (ps_log p v ++ [e])]>;
               ps_log ::= <[v := ps_log p v ++ [e]]> }}).
Proof.
  intros Hu. split; simpl; [|done..]. intros t h Hh. at_node t u; [|by eauto]. simplify_eq.
  eexists. split; [done|]. by apply prefix_app_r.
Qed.

Lemma coherent_snoc p h e u :
  ps_hist p u = Some h → coherent (ps_hist p) h → e_term e = u →
  coherent (<[u := Some (h ++ [e])]> (ps_hist p)) (h ++ [e]).
Proof.
  intros Hu Hc He i x Hx. destruct (decide (i < length h)%nat) as [Hi|Hi].
  - rewrite lookup_app_l in Hx by done. destruct (Hc i x Hx) as (h' & Hh' & Hp).
    rewrite take_app_le by lia. at_node (e_term x) u; [|by eauto].
    eexists. split; [done|]. etrans; [apply prefix_take|]. by apply prefix_app_r.
  - assert (i = length h) as ->.
    { apply lookup_lt_Some in Hx. rewrite length_app in Hx. simpl in Hx. lia. }
    rewrite list_lookup_middle in Hx by done. simplify_eq. rewrite fn_lookup_insert.
    eexists. split; [done|]. by rewrite take_ge by (rewrite length_app; simpl; lia).
Qed.

Lemma lead_ok p v u e :
  ps_term p v = u → ps_hist p u = Some (ps_log p v) → e_term e = u → pinv p →
  pinv (p {{ ps_hist ::= <[u := Some (ps_log p v ++ [e])]>;
             ps_log ::= <[v := ps_log p v ++ [e]]> }}).
Proof.
  intros Ht Hu He Hp. pose proof (lead_ext p v u e Hu) as Hx.
  match type of Hx with pext _ ?q => set (p' := q) in * end.
  destruct (pi_hist _ Hp _ _ Hu) as [Hc Hle]. pose proof (coherent_snoc p _ e u Hu Hc He) as Hc'.
  assert (∀ x, x ∈ ps_log p v ++ [e] → e_term x ≤ u) as Hle'.
  { intros x [?|?%list_elem_of_singleton]%elem_of_app; [by apply Hle|subst; lia]. }
  assert (∀ w t i m, own_key p' t i → ps_acks p w t m → (i ≤ m)%nat → own_key p t i) as Hkey.
  { intros w t i m (h & Hh & Hi) Ha Hm. destruct (pi_acks _ Hp _ _ _ Ha) as (_ & (h' & Hh' & ?) & _).
    exists h'. split; [done|]. rewrite (pe_start _ _ Hx _ _ Hh') in Hi. lia. }
  assert (∀ w, ps_log p w `prefix_of` ps_log p' w) as Hlog.
  { intros w. subst p'. simpl. at_node w v; [by apply prefix_app_r|done]. }
  split.
  - intros t h Hh. subst p'. simpl in *. at_node t u; [by simplify_eq|].
    destruct (pi_hist _ Hp _ _ Hh). split; [by apply (coherent_ext _ _ _ Hx)|done].
  - intros t h Hh. subst p'. simpl in *. at_node t u; [|by apply (pi_start _ Hp)]. simplify_eq.
    destruct (pi_start _ Hp _ _ Hu) as (? & ? & Hown). split_and!; [by apply prefix_app_r|done|].
    intros i x Hi [?|[_ Hl]]%lookup_app_Some; [by eapply Hown|].
    by apply list_lookup_singleton_Some in Hl as [_ <-].
  - intros w. subst p'. simpl. at_node w v; [by rewrite Ht|]. destruct (pi_log _ Hp w).
    split; [by apply (coherent_ext _ _ _ Hx)|done].
  - intros w. destruct (pi_dlog _ Hp w). split; [by apply (coherent_ext _ _ _ Hx)|done].
  - apply Hp.
  - intros w u' l' Hv. destruct (pi_grants _ Hp _ _ _ Hv) as (? & ? & ? & Hk).
    split_and!; [done|by apply (coherent_ext _ _ _ Hx)|done|].
    intros t i m Htu Hi Ha Hm. pose proof (Hkey _ _ _ _ Hi Ha Hm).
    by eapply (kept_ext p); [..|eapply Hk].
  - apply (pi_gleft _ Hp).
  - intros w t m Ha. destruct (pi_acks _ Hp _ _ _ Ha) as (? & (h & Hh & Hm) & Hk).
    split_and!; [done| |].
    + destruct (pe_hist _ _ Hx _ _ Hh) as (h' & ? & Hpre).
      exists h'. apply prefix_length in Hpre. split; [done|lia].
    + intros i Hi Him. pose proof (Hkey _ _ _ _ Hi Ha Him).
      eapply (kept_ext p); [done..|apply Hlog|by apply Hk].
  - intros w t m Ha. destruct (pi_aleft _ Hp _ _ _ Ha) as (Ha' & ? & Hk). split_and!; [done..|].
    intros i Hi Him. pose proof (Hkey _ _ _ _ Hi Ha' Him). eapply (kept_ext p); [done..|].
    by apply Hk.
  - intros t u' h i Hh Htu Hi.
    assert (∃ h', ps_hist p u' = Some h') as (h' & Hh').
    { subst p'. simpl in *. at_node u' u; eauto. }
    destruct (pi_elected _ Hp _ _ Hh') as (Q & HQ & Hd).
    pose proof Hi as (h1 & Hh1 & Hi1).
    assert (∃ h0, ps_hist p t = Some h0 ∧ ps_start p' t = ps_start p t) as (h0 & Hh0 & Hst).
    { subst p'. simpl in *. at_node t u; eauto. }
    destruct (decide (i ≤ length h0)%nat) as [Hold|Hnew].
    + rewrite Hst in Hi1. assert (own_key p t i) as Hi0 by (exists h0; split; [done|lia]).
      eapply (kept_ext p); [done..|]. by eapply (pi_safe _ Hp).
    + intros Hnd. destruct Hnd. exists Q. split; [done|]. intros w Hw. specialize (Hd w Hw).
      split; [change (ps_dterm p' w) with (ps_dterm p w); lia|]. intros m Hm Ha.
      destruct (pi_acks _ Hp w t m Ha) as (_ & (h2 & Hh2 & ?) & _). simplify_eq. lia.
  - intros u' h Hh. assert (∃ h', ps_hist p u' = Some h') as (h' & Hh').
    { subst p'. simpl in *. at_node u' u; eauto. }
    by apply (pi_elected _ Hp u' h').
Qed.

(** ** Runs of the protocol *)

(** Nodes that restarted with hard states of terms [terms] and empty logs. *)
Definition p_start (terms : u64 → u64) : PState :=
  MkPState terms terms (λ _, []) (λ _, []) (λ _, None) (λ _, [])
    (λ _ _ _, False) (λ _ _ _, False) (λ _ _ _, False) (λ _ _ _, False).

Lemma p_start_ok terms : pinv (p_start terms).
Proof.
  split; simpl; try done; intros v; try done.
  all: split; [apply coherent_nil|intros e He; by apply elem_of_nil in He].
Qed.

Lemma pstep_ok p p' : pstep p p' → pinv p → pinv p'.
Proof.
  destruct 1; eauto using raise_ok, grant_ok, flush_ok, crash_ok, accept_ok, win_ok, lead_ok,
    ack_ok, ack_now_ok.
Qed.

Lemma pstep_ext p p' : pstep p p' → pinv p → pext p p'.
Proof.
  intros Hs Hp. destruct Hs as [| |v st Hst| v | | | | |];
    try (by apply pext_refl_fields); [| |by apply win_ext|by apply lead_ext| |];
    apply pext_refl_fields; try done; simpl.
  - intros w. at_node w v; [lia|done].
  - intros w t m Ht Ha. at_node w v; [|done]. by apply (pi_aleft _ Hp).
  - intros w t m' Ht [?|(-> & -> & ->)]; [done|]. pose proof (pi_terms _ Hp v). lia.
  - intros w t m' Ht [?|(-> & -> & ->)]; [done|]. lia.
Qed.

(** Durable acknowledgements stay. *)
Lemma pstep_aleft p p' v t m : pstep p p' → pinv p → ps_aleft p v t m → ps_aleft p' v t m.
Proof.
  intros Hs Hp Ha. destruct Hs; simpl; try done; [|by left].
  at_node v v0; [|done]. destruct (pi_aleft _ Hp _ _ _ Ha) as (? & ? & _). split; [done|lia].
Qed.

Lemma pstep_gleft p p' v u l : pstep p p' → pinv p → ps_gleft p v u l → ps_gleft p' v u l.
Proof.
  intros Hs Hp Hg. destruct Hs; simpl; try done.
  at_node v v0; [|done]. destruct (pi_gleft _ Hp _ _ _ Hg) as [? ?]. split; [done|lia].
Qed.

Lemma chosen_step p p' t i : pstep p p' → pinv p → chosen p t i → chosen p' t i.
Proof.
  intros Hs Hp [Hi (Q & HQ & Ha)]. split; [by eapply own_key_ext; [eapply pstep_ext|]|].
  exists Q. split; [done|]. intros v Hv. destruct (Ha v Hv) as (m & ? & ?).
  exists m. split; [done|]. by eapply pstep_aleft.
Qed.

Lemma chosen_alive p t i : pinv p → chosen p t i → ¬ dead p t i.
Proof.
  intros Hp [_ (Q & HQ & Ha)] (R & HR & Hd).
  destruct (majorities_meet V Q R) as (v & HvQ & HvR); [by apply HQ|by apply HR|apply HQ|apply HR|].
  destruct (Ha v HvQ) as (m & Hm & Hl). destruct (Hd v HvR) as [_ Hno].
  apply (Hno m Hm). by apply (pi_aleft _ Hp).
Qed.

(** Every leader of the term or a later one has a chosen prefix. *)
Lemma chosen_in_leader p t u i h h' :
  pinv p → chosen p t i → ps_hist p t = Some h → ps_hist p u = Some h' → t ≤ u →
  take i h `prefix_of` h'.
Proof.
  intros Hp Hc Hh Hh' Htu. destruct (decide (t = u)) as [->|].
  { simplify_eq. apply prefix_take. }
  etrans; [|by apply (pi_start _ Hp)].
  eapply (pi_safe _ Hp t u); [done|lia|apply Hc|by apply chosen_alive|done].
Qed.

(** Two chosen prefixes are prefixes of one leader's log. *)
Lemma chosen_comparable p t i u j h h' :
  pinv p → chosen p t i → chosen p u j → ps_hist p t = Some h → ps_hist p u = Some h' →
  ∃ H, take i h `prefix_of` H ∧ take j h' `prefix_of` H.
Proof.
  intros Hp Hi Hj Hh Hh'. destruct (decide (t ≤ u)).
  - exists h'. split; [by eapply chosen_in_leader|apply prefix_take].
  - exists h. split; [apply prefix_take|]. eapply chosen_in_leader; [done|exact Hj|done..|lia].
Qed.

(** A log that carries a later leader's entry carries every chosen prefix. *)
Lemma chosen_in_log p t i h l e :
  pinv p → chosen p t i → ps_hist p t = Some h → coherent (ps_hist p) l → e ∈ l → t < e_term e →
  take i h `prefix_of` l.
Proof.
  intros Hp Hc Hh Hl He Ht. apply list_elem_of_lookup in He as [k Hk].
  destruct (Hl k e Hk) as (h' & Hh' & Hpre).
  assert (take i h `prefix_of` ps_start p (e_term e)) as Hs.
  { eapply (pi_safe _ Hp); [done..|apply Hc|by apply chosen_alive|done]. }
  destruct (pi_start _ Hp _ _ Hh') as (Hst & Hlt & _).
  etrans; [exact Hs|]. transitivity (take (S k) l); [|apply prefix_take].
  eapply prefix_by_length; [done..|]. apply lookup_lt_Some in Hk as Hlen.
  destruct (decide (length (ps_start p (e_term e)) ≤ length (take (S k) l))%nat); [done|exfalso].
  assert (e ∈ ps_start p (e_term e)); [|by eapply N.lt_irrefl, Hlt].
  eapply (prefix_elem (take (S k) l)); [eapply prefix_by_length; [done..|lia]|].
  apply list_elem_of_lookup. exists k. by rewrite lookup_take_lt by lia.
Qed.
End protocol.
