(* ===== verification/RaftReplication.v ===== *)
(** * Replication in a Raft group

    The group of [RaftGroup] with its log traffic: [AppendEntries] requests
    leave a node as soon as a tick drains them ([raft_loop/tick/
    dispatch_outbound.rs]); an answer to one leaves at once when the request
    staged nothing and the latest hard state is durable, else once what was
    staged is durable ([handle_append_entries_rpc], [DurabilityTicket::
    for_reply]); a node learns how much of its log is durable from its disk
    ([StagedLogStorage::stable_through]), with any delay.

    Requests and answers can be delayed, lost, duplicated and reordered. A
    flush makes whole operations durable, a crash loses the rest. The driver
    reports entries applied only once they are committed, and hands back only
    entries it was given. Snapshot transfer is not part of the group. *)

From stdpp Require Import base option gmap list.
From S2P Require Import Prelude RaftState RaftLog RaftLogFacts RaftNode RaftOps RaftRpc.
From S2P Require Import RaftNodeFacts RaftSteps RaftNodeThms RaftDurability RaftDelivery RaftGroup.

Open Scope N_scope.

(** ** Staged storage *)

#[export] Instance hard_state_eq_dec : EqDecision HardState.
Proof. solve_decision. Defined.

#[export] Instance mem_storage_eq_dec : EqDecision MemStorage.
Proof. solve_decision. Defined.

#[export] Instance append_request_eq_dec : EqDecision AppendEntriesRequest.
Proof. solve_decision. Defined.

#[export] Instance append_response_eq_dec : EqDecision AppendEntriesResponse.
Proof. solve_decision. Defined.

(** [StagedLogStorage]: what the disk holds once every staged write is
    durable; the last durable entry the writer reported; and the numbers of
    the last staged write and of the last staged hard state. *)
Record StagedMem : Type := MkStagedMem {
  sm_mem : MemStorage;
  sm_stable : u64 * u64;
  sm_staged_through : u64;
  sm_hard_state_seq : u64;
}.

#[export] Instance eta_StagedMem : Eta StagedMem := λ r,
  MkStagedMem (sm_mem r) (sm_stable r) (sm_staged_through r) (sm_hard_state_seq r).

(** A write is staged and returns at once. *)
Definition staged_write (f : MemStorage → MemStorage * Result unit) (s : StagedMem) :
    StagedMem * Result unit :=
  let '(m, r) := f (sm_mem s) in (s {{ sm_mem := m; sm_staged_through ::= λ i, i + 1 }}, r).

(** An empty append stages nothing. *)
Definition staged_append_entries (es : list LogEntry) (s : StagedMem) : StagedMem * Result unit :=
  match es with [] => (s, Ok tt) | _ => staged_write (mem_append es) s end.

Definition staged_hard_state (hs : HardState) (s : StagedMem) : StagedMem * Result unit :=
  let '(s, r) := staged_write (mem_save_hard_state hs) s in
  (s {{ sm_hard_state_seq := sm_staged_through s }}, r).

#[export] Instance staged_log_storage : LogStorage StagedMem := {|
  storage_append := staged_append_entries;
  storage_truncate := λ i, staged_write (mem_truncate i);
  load_entries_after := λ i s, mem_load_entries_after i (sm_mem s);
  storage_compact := λ i t, staged_write (mem_compact i t);
  snapshot_metadata := λ s, snapshot_metadata (sm_mem s);
  save_hard_state := staged_hard_state;
  load_hard_state := λ s, load_hard_state (sm_mem s);
  save_applied_index := λ i, staged_write (mem_save_applied_index i);
  load_applied_index := λ s, load_applied_index (sm_mem s);
  stable_through := λ s, Some (sm_stable s);
|}.

(** The entry a restart reports as the last durable one. *)
Definition restored_mark (m : MemStorage) : u64 * u64 :=
  match mem_load_entries_after (ms_snapshot_index m) m with
  | Ok es =>
      match last es with
      | Some e => (e_index e, e_term e)
      | None => (ms_snapshot_index m, ms_snapshot_term m)
      end
  | Err _ => (ms_snapshot_index m, ms_snapshot_term m)
  end.

(** The disk opened again: nothing is staged, and the last durable entry is
    the one it holds. *)
Definition remounted (s : StagedMem) : StagedMem :=
  MkStagedMem (sm_mem s) (restored_mark (sm_mem s)) 0 0.

(** ** The group *)

#[export] Instance eta_Member S : Eta (Member S) := λ r,
  MkMember (mb_node r) (mb_disk r) (mb_outbox r).

#[export] Instance eta_Group S : Eta (Group S) := λ r,
  MkGroup (gr_members r) (gr_net r) (gr_elected r).

(** The group; the requests that left a node, with their receivers; the
    answers that wait for a disk, by node, with their receivers; the answers
    that left, with sender and receiver; the durable marks each node's disk
    reported since it was mounted; and every entry handed to a node's state
    machine. *)
Record RGroup : Type := MkRGroup {
  rg_group : Group StagedMem;
  rg_appends : list (u64 * AppendEntriesRequest);
  rg_waiting : gmap u64 (list (u64 * AppendEntriesResponse));
  rg_replies : list (u64 * u64 * AppendEntriesResponse);
  rg_marks : gmap u64 (list (u64 * u64));
  rg_delivered : list (u64 * LogEntry);
}.

#[export] Instance eta_RGroup : Eta RGroup := λ r,
  MkRGroup (rg_group r) (rg_appends r) (rg_waiting r) (rg_replies r) (rg_marks r) (rg_delivered r).

Inductive RAction : Type :=
  | RTick (id : u64) (ev : Env)
  | ROp (id : u64) (ev : Env) (op : NodeOp)
  | RPersist (id : u64)
  | RRequestVote (id : u64) (ev : Env) (req : RequestVoteRequest)
  | RVoteResponse (id : u64) (ev : Env) (from : u64) (resp : RequestVoteResponse)
  | RAppend (id : u64) (ev : Env) (req : AppendEntriesRequest)
  | RAppendResponse (id : u64) (ev : Env) (from : u64) (resp : AppendEntriesResponse)
  | RFlush (id : u64)
  | RMark (id : u64) (mark : u64 * u64)
  | RCrash (id : u64) (ev : Env).

(** The operations a driver runs outside the network: messages come through
    the network actions, the applied index never passes the commit index, and
    a batch handed back was delivered to this node. *)
Definition local_op (delivered : list (u64 * LogEntry)) (id : u64) (op : NodeOp)
    (n : RaftNode StagedMem) : bool :=
  match op with
  | OpRequestVote _ | OpRequestVoteResponse _ _ | OpAppendEntries _
  | OpAppendEntriesResponse _ _ | OpInstallSnapshot _ | OpAdoptSnapshot _ _
  | OpSnapshotInstalled _ _ => false
  | OpAdvanceApplied a => a <=? commit_of n
  | OpSaveDurable i => i <=? commit_of n
  | OpRequeue batch => forallb (λ e, bool_decide ((id, e) ∈ delivered)) batch
  | _ => true
  end.

Definition base_act (a : Action) (g : RGroup) : RGroup := g {{ rg_group ::= λ x, group_act x a }}.

Definition node_storage (n : RaftNode StagedMem) : StagedMem := lg_storage (rn_log n).

(** [DurabilityTicket::for_reply]: whether the answer of a node that went
    from [n] to [n'] waits, when [disk] is what is durable. *)
Definition reply_waits (disk : StagedMem) (n n' : RaftNode StagedMem) : bool :=
  let mark := sm_staged_through (node_storage n) in
  let staged := sm_staged_through (node_storage n') in
  let seq := if mark <? staged then staged else sm_hard_state_seq (node_storage n') in
  sm_staged_through disk <? seq.

(** [handle_append_entries_rpc]. *)
Definition rg_append (id : u64) (ev : Env) (req : AppendEntriesRequest) (m : Member StagedMem)
    (g : RGroup) : RGroup :=
  let '(n, resp) := handle_append_entries ev req (mb_node m) in
  let g := base_act (APersist id) (base_act (AOp id ev (OpAppendEntries req)) g) in
  match persist_hard_state_if_dirty n with
  | (n, Ok _) =>
      if reply_waits (mb_disk m) (mb_node m) n
      then g {{ rg_waiting ::= λ w, <[id := (w !!! id) ++ [(ae_leader_id req, resp)]]> w }}
      else g {{ rg_replies ::= λ l, l ++ [(id, ae_leader_id req, resp)] }}
  | (_, Err _) => g
  end.

Definition set_member (id : u64) (m : Member StagedMem) (g : RGroup) : RGroup :=
  g {{ rg_group -> gr_members ::= <[id := m]> }}.

(** The node sees [mark] from now on. *)
Definition set_stable (mark : u64 * u64) (n : RaftNode StagedMem) : RaftNode StagedMem :=
  n {{ rn_log ::= λ l, l {{ lg_storage -> sm_stable := mark }} }}.

Definition log_mark (l : RaftLog StagedMem) : u64 * u64 := (last_index l, last_term l).

Definition rg_act (g : RGroup) (a : RAction) : RGroup :=
  let member id (f : Member StagedMem → RGroup) :=
    match gr_members (rg_group g) !! id with Some m => f m | None => g end in
  match a with
  | RTick id ev => member id (λ m,
      let g := base_act (ATick id ev) g in
      match (drain (tick ev (on_storage_progress (mb_node m)))).2 with
      | Some r =>
          g {{ rg_appends ::= λ l, l ++ rd_messages r;
               rg_delivered ::= λ l, l ++ ((λ e, (id, e)) <$> rd_committed_entries r) }}
      | None => g
      end)
  | ROp id ev op => member id (λ m,
      if local_op (rg_delivered g) id op (mb_node m) then base_act (AOp id ev op) g else g)
  | RPersist id => base_act (APersist id) g
  | RRequestVote id ev req => base_act (ARequestVote id ev req) g
  | RVoteResponse id ev from resp => base_act (AVoteResponse id ev from resp) g
  | RAppend id ev req => member id (λ m,
      if bool_decide ((id, req) ∈ rg_appends g) then rg_append id ev req m g else g)
  | RAppendResponse id ev from resp =>
      if bool_decide ((from, id, resp) ∈ rg_replies g)
      then base_act (APersist id) (base_act (AOp id ev (OpAppendEntriesResponse from resp)) g) else g
  | RFlush id => member id (λ m,
      (base_act (AFlush id) g) {{
        rg_replies ::= λ l, l ++ ((λ w, (id, w.1, w.2)) <$> rg_waiting g !!! id);
        rg_waiting ::= <[id := []]>;
        rg_marks ::= λ k, <[id := (k !!! id) ++ [log_mark (rn_log (mb_node m))]]> k }})
  | RMark id mark => member id (λ m,
      if bool_decide (mark ∈ rg_marks g !!! id) || (mark.2 =? 0)
      then set_member id (m {{ mb_node ::= set_stable mark }}) g
      else g)
  | RCrash id ev => member id (λ m,
      let disk := remounted (mb_disk m) in
      (base_act (ACrash id ev) (set_member id (m {{ mb_disk := disk }}) g)) {{
        rg_waiting ::= <[id := []]>; rg_marks ::= <[id := [sm_stable disk]]> }})
  end.

Definition rg_run (acts : list RAction) (g : RGroup) : RGroup := foldl rg_act g acts.

(** ** Start states *)

(** A disk that holds a hard state and no log. *)
Definition empty_disk (s : StagedMem) : Prop :=
  ∃ hs, s = MkStagedMem (mem_storage_new {{ ms_hard_state := hs }}) (0, 0) 0 0.

(** Every member just mounted from an empty disk, and nothing sent. *)
Definition rg_mounted (V : gset u64) (g : RGroup) : Prop :=
  group_fresh V (rg_group g) ∧
  map_Forall (λ _ m, empty_disk (mb_disk m)) (gr_members (rg_group g)) ∧
  rg_appends g = [] ∧ rg_waiting g = ∅ ∧ rg_replies g = [] ∧ rg_marks g = ∅ ∧
  rg_delivered g = [].

(** The same, with two or more voters. *)
Definition rg_fresh (V : gset u64) (g : RGroup) : Prop := (2 ≤ size V)%nat ∧ rg_mounted V g.
