(* ===== verification/RaftMoves.v ===== *)
(** * Replication by one node

    What an operation of a node does to replication, as a run of small moves
    over the observed part of the node ([Obs]): send a request, step down,
    campaign, vote, count a grant, win, append, commit, accept entries, count
    an acknowledgement, compact, record progress. Every operation of the node
    except the snapshot transfer is such a run. *)

From stdpp Require Import base option gmap relations list.
From S2P Require Import Prelude RaftState RaftLog RaftLogFacts RaftNode RaftOps RaftRpc.
From S2P Require Import RaftNodeFacts RaftSteps RaftNodeThms RaftDurability.

Open Scope N_scope.

(** Receiver, term, candidate and last entry of a queued vote request. *)
Record VoteKey : Type := MkVoteKey {
  vk_to : u64;
  vk_term : u64;
  vk_cand : u64;
  vk_index : u64;
  vk_last : u64;
}.

Definition vote_key (pv : u64 * RequestVoteRequest) : VoteKey :=
  MkVoteKey pv.1 (rv_term pv.2) (rv_candidate_id pv.2) (rv_last_log_index pv.2)
    (rv_last_log_term pv.2).

(** What a node was given from outside. *)
Record Given : Type := MkGiven {
  gv_grant : u64 → u64 → Prop;
  gv_ack : u64 → u64 → u64 → Prop;
  gv_append : AppendEntriesRequest → Prop;
  gv_applied : u64 → Prop;
  gv_durable : u64 → Prop;
  gv_batch : LogEntry → Prop;
}.

Definition op_given (op : NodeOp) : Given := {|
  gv_grant := λ p t,
    match op with
    | OpRequestVoteResponse peer resp =>
        peer = p ∧ rvr_term resp = t ∧ rvr_vote_granted resp = true
    | _ => False
    end;
  gv_ack := λ p t m,
    match op with
    | OpAppendEntriesResponse peer resp =>
        peer = p ∧ aer_term resp = t ∧ aer_success resp = true ∧ aer_last_log_index resp = m
    | _ => False
    end;
  gv_append := λ req, op = OpAppendEntries req;
  gv_applied := λ a, op = OpAdvanceApplied a;
  gv_durable := λ i, op = OpSaveDurable i;
  gv_batch := λ e, match op with OpRequeue batch => e ∈ batch | _ => False end;
|}.

(** The snapshot transfer. *)
Definition snapshot_op (op : NodeOp) : bool :=
  match op with
  | OpInstallSnapshot _ | OpAdoptSnapshot _ _ | OpSnapshotInstalled _ _ => true
  | _ => false
  end.

Record Obs (S : Type) : Type := MkObs {
  ob_config : RaftConfig;
  ob_role : NodeRole;
  ob_hs : HardState;
  ob_log : RaftLog S;
  ob_commit : u64;
  ob_applied : u64;
  ob_durable : u64;
  ob_match : option (list (u64 * u64));
  ob_votes : gset u64;
  ob_dirty : option HardState;
  ob_msgs : list (u64 * AppendEntriesRequest);
  ob_vreqs : list VoteKey;
  ob_queue : list LogEntry;
}.
Arguments MkObs {S}.
Arguments ob_config {S}.
Arguments ob_role {S}.
Arguments ob_hs {S}.
Arguments ob_log {S}.
Arguments ob_commit {S}.
Arguments ob_applied {S}.
Arguments ob_durable {S}.
Arguments ob_match {S}.
Arguments ob_votes {S}.
Arguments ob_dirty {S}.
Arguments ob_msgs {S}.
Arguments ob_vreqs {S}.
Arguments ob_queue {S}.

#[export] Instance eta_Obs S : Eta (Obs S) := λ r,
  MkObs (ob_config r) (ob_role r) (ob_hs r) (ob_log r) (ob_commit r) (ob_applied r)
    (ob_durable r) (ob_match r) (ob_votes r) (ob_dirty r) (ob_msgs r) (ob_vreqs r) (ob_queue r).

Section moves.
Context {S : Type} `{LogStorageSpec S}.
Implicit Types (n : RaftNode S) (o : Obs S) (ev : Env).

(** Staged writes do not fail. *)
Context (entries_ok : ∀ prev es (l : RaftLog S), is_ok (log_append_entries prev es l).2 = true).

Definition obs n : Obs S := {|
  ob_config := rn_config n;
  ob_role := rn_role n;
  ob_hs := rn_hard_state n;
  ob_log := rn_log n;
  ob_commit := commit_of n;
  ob_applied := applied_of n;
  ob_durable := rn_durable_applied n;
  ob_match := ls_match_index <$> rn_leader_state n;
  ob_votes := rn_votes_received n;
  ob_dirty := rd_hard_state (rn_ready n);
  ob_msgs := rd_messages (rn_ready n);
  ob_vreqs := vote_key <$> rd_vote_requests (rn_ready n);
  ob_queue := rd_committed_entries (rn_ready n);
|}.

Definition ob_term o : u64 := current_term (ob_hs o).

(** The acknowledged index of a peer in a table. *)
Definition match_of (mt : list (u64 * u64)) (peer : u64) : u64 := default 0 (assoc peer mt).

(** A request the leader [o] sends: a run of its log after a term it knows. *)
Definition sends o (req : AppendEntriesRequest) : Prop :=
  ae_term req = ob_term o ∧
  term_at (ob_log o) (ae_prev_log_index req) = Some (ae_prev_log_term req) ∧
  (∀ j e, ae_entries req !! j = Some e →
    entry_at (ob_log o) (ae_prev_log_index req + 1 + N.of_nat j) = Some e) ∧
  ae_leader_commit req = ob_commit o.

(** Entries of the log up to [c]. *)
Definition held_to (l : RaftLog S) (c : u64) (es : list LogEntry) : Prop :=
  ∀ e, e ∈ es → ∃ i, i ≤ c ∧ entry_at l i = Some e.

(** The test of [commit_quorum_at]. *)
Definition quorum_holds o (mt : list (u64 * u64)) (c : u64) : Prop :=
  term_at (ob_log o) c = Some (ob_term o) ∧
  quorum (ob_config o) ≤
    (if c <=? stable_index (ob_log o) then 1 else 0) +
    N.of_nat (count (λ peer, c <=? match_of mt peer) (peers (ob_config o))).

(** The last index a request covers. *)
Definition covered (req : AppendEntriesRequest) : u64 :=
  match last (ae_entries req) with
  | Some e => e_index e
  | None => ae_prev_log_index req
  end.

Definition prev_matches (l : RaftLog S) (req : AppendEntriesRequest) : Prop :=
  ae_prev_log_index req = 0 ∨ term_at l (ae_prev_log_index req) = Some (ae_prev_log_term req).

(** [o] in term [t], as a follower or what it was. *)
Definition down_to (t : u64) o : Obs S :=
  let hs := MkHardState t (if ob_term o <? t then 0 else voted_for (ob_hs o)) in
  o {{ ob_role ::= demote; ob_hs := hs; ob_match := None; ob_votes := ∅; ob_dirty := Some hs }}.

(** The key of a vote request of [o] as a candidate in the next term. *)
Definition campaign_key o (p : u64) : VoteKey :=
  MkVoteKey p (ob_term o + 1) (node_id (ob_config o)) (last_index (ob_log o)) (last_term (ob_log o)).

Inductive rmove (G : Given) o : Obs S → Prop :=
  | rm_send to req :
      is_Some (ob_match o) → sends o req → rmove G o (o {{ ob_msgs ::= λ l, l ++ [(to, req)] }})
  | rm_follow t : ob_term o ≤ t → rmove G o (down_to t o)
  | rm_campaign ps :
      ob_role o = Follower ∨ ob_role o = Candidate →
      let hs := MkHardState (ob_term o + 1) (node_id (ob_config o)) in
      rmove G o (o {{ ob_role := Candidate; ob_hs := hs; ob_votes := ∅; ob_dirty := Some hs;
                      ob_vreqs ::= λ l, l ++ (campaign_key o <$> ps) }})
  | rm_vote c :
      voted_for (ob_hs o) = 0 ∨ voted_for (ob_hs o) = c →
      let hs := MkHardState (ob_term o) c in
      rmove G o (o {{ ob_hs := hs; ob_dirty := Some hs }})
  | rm_count p :
      ob_role o = Candidate → gv_grant G p (ob_term o) →
      rmove G o (o {{ ob_votes ::= λ vs, {[p]} ∪ vs }})
  | rm_win mt :
      ob_role o = Candidate → quorum (ob_config o) ≤ N.of_nat (size (ob_votes o)) + 1 →
      (∀ p, match_of mt p = 0) →
      let noop := MkLogEntry (ob_term o) (last_index (ob_log o) + 1) [] in
      rmove G o (o {{ ob_role := Leader; ob_match := Some mt; ob_log ::= λ l, (log_append noop l).1 }})
  | rm_propose data :
      ob_role o = Leader →
      let e := MkLogEntry (ob_term o) (last_index (ob_log o) + 1) data in
      rmove G o (o {{ ob_log ::= λ l, (log_append e l).1 }})
  | rm_commit mt c es :
      ob_match o = Some mt → ob_commit o < c → quorum_holds o mt c → held_to (ob_log o) c es →
      rmove G o (o {{ ob_commit := c; ob_queue ::= λ q, q ++ es }})
  | rm_accept req c es :
      gv_append G req → ob_role o ≠ Candidate → ae_term req = ob_term o →
      prev_matches (ob_log o) req →
      let l := (log_append_entries (ae_prev_log_index req) (ae_entries req) (ob_log o)).1 in
      is_ok (log_append_entries (ae_prev_log_index req) (ae_entries req) (ob_log o)).2 = true →
      c = ob_commit o ∧ es = [] ∨
        ob_commit o < c ∧ c = N.min (ae_leader_commit req) (covered req) ∧ held_to l c es →
      rmove G o (o {{ ob_log := l; ob_commit := c; ob_queue ::= λ q, q ++ es }})
  | rm_match p m mt :
      ob_match o = Some mt → gv_ack G p (ob_term o) m →
      rmove G o (o {{ ob_match := Some (assoc_update p (λ _, m) mt) }})
  | rm_compact i t :
      lg_snapshot_index (ob_log o) < i → i ≤ ob_durable o → i ≤ ob_applied o →
      term_at (ob_log o) i = Some t →
      rmove G o (o {{ ob_log ::= λ l, (apply_snapshot i t l).1 }})
  | rm_applied a : gv_applied G a → rmove G o (o {{ ob_applied ::= λ x, N.max x a }})
  | rm_durable i s r :
      gv_durable G i → ob_durable o < i → save_applied_index i (lg_storage (ob_log o)) = (s, r) →
      rmove G o (o {{ ob_log -> lg_storage := s; ob_durable := if is_ok r then i else ob_durable o }})
  | rm_requeue q :
      (∀ e, e ∈ q → e ∈ ob_queue o ∨ gv_batch G e) → rmove G o (o {{ ob_queue := q }}).

Definition rmoves (G : Given) : relation (Obs S) := rtc (rmove G).

#[local] Instance rmoves_refl G : Reflexive (rmoves G).
Proof. unfold rmoves. apply _. Qed.

#[local] Instance rmoves_trans G : Transitive (rmoves G).
Proof. unfold rmoves. apply _. Qed.

(** ** Every operation is a run of moves *)

Lemma rmoves_same G n n' : obs n' = obs n → rmoves G (obs n) (obs n').
Proof. by intros ->. Qed.

(** The entries of a batch are the log's, in place. *)
Lemma entries_to_send_held n next es :
  log_wf (rn_log n) → entries_to_send n next = Some es →
  ∀ j e, es !! j = Some e → entry_at (rn_log n) (next - 1 + 1 + N.of_nat j) = Some e.
Proof.
  intros Hwf. unfold entries_to_send, entries_within. case N.leb_spec; [|by intros _ [= <-]].
  intros _. destruct (entries_range _ _ _) as [range|err] eqn:Hr; simpl.
  2: { by destruct err; intros [= <-]. }
  intros [= <-] j e [He _]%lookup_take_Some.
  assert (0 < next) by (revert Hr; unfold entries_range; case N.leb_spec; [done|lia]).
  rewrite (entries_range_lookup _ _ _ _ _ Hwf Hr) in He. case_match; [|done].
  by replace (next - 1 + 1) with next by lia.
Qed.

Lemma send_moves G ev p n :
  log_wf (rn_log n) → rmoves G (obs n) (obs (send_append_entries ev p n)).
Proof.
  intros Hwf. unfold send_append_entries.
  destruct (rn_leader_state n) as [ls|] eqn:Hls; [|done].
  destruct (term_at _ _) as [pt|] eqn:Hpt; [|by apply rmoves_same].
  destruct (entries_to_send _ _) as [es|] eqn:Hes; [|by apply rmoves_same].
  unfold stamp_lease_round. destruct (stamp _ _) as [le round].
  apply rtc_once. set (req := append_request _ _ _ _ _ _).
  apply (rm_send G (obs n) p req); [by rewrite <-not_eq_None_Some; simpl; rewrite Hls|].
  split_and!; [done|done| |done]. by eapply entries_to_send_held.
Qed.

Lemma send_observer_moves G ev p n :
  log_wf (rn_log n) → rmoves G (obs n) (obs (send_append_entries_to_observer ev p n)).
Proof.
  intros Hwf. unfold send_append_entries_to_observer.
  destruct (rn_leader_state n) as [ls|] eqn:Hls; [|done]. case_match; [done|].
  destruct (assoc _ _) as [st|]; [|done].
  destruct (term_at _ _) as [pt|] eqn:Hpt; [|by apply rmoves_same].
  destruct (entries_to_send _ _) as [es|] eqn:Hes; [|by apply rmoves_same].
  apply rtc_once. set (req := append_request _ _ _ _ _ _).
  match goal with |- rmove G (obs n) ?o' =>
    replace o' with ((obs n) {{ ob_msgs ::= λ l, l ++ [(p, req)] }}) end.
  2: { unfold obs. simpl. by rewrite Hls. }
  apply (rm_send G (obs n) p req); [by rewrite <-not_eq_None_Some; simpl; rewrite Hls|].
  split_and!; [done|done| |done]. by eapply entries_to_send_held.
Qed.

Lemma foldl_moves G (f : RaftNode S → u64 → RaftNode S) ps : ∀ n,
  (∀ n p, log_wf (rn_log n) → rmoves G (obs n) (obs (f n p))) →
  (∀ n p, rn_log (f n p) = rn_log n) →
  log_wf (rn_log n) → rmoves G (obs n) (obs (foldl f n ps)).
Proof.
  induction ps as [|p ps IH]; intros n Hf Hl Hwf; simpl; [done|].
  etrans; [by apply Hf|]. apply IH; [done..|]. by rewrite Hl.
Qed.

Lemma touched_log P n n' : touched P n n' → rn_log n' = rn_log n.
Proof. by intros (t & -> & _)%touched_inv. Qed.

Lemma replicate_moves G ev n :
  log_wf (rn_log n) → rmoves G (obs n) (obs (replicate_to_all ev n)).
Proof.
  intros Hwf. unfold replicate_to_all. etrans; [apply (foldl_moves G (λ n peer, send_append_entries ev peer n))|].
  - intros. by apply send_moves.
  - intros. eapply touched_log, touched_send.
  - done.
  - apply foldl_moves.
    + intros. by apply send_observer_moves.
    + intros. eapply touched_log, touched_send_observer.
    + rewrite (touched_log replication n); [done|]. apply touched_foldl. intros. apply touched_send.
Qed.

Lemma queue_none o : o {{ ob_queue ::= λ q, q ++ [] }} = o.
Proof. destruct o. cbv -[app]. by rewrite app_nil_r. Qed.

(** The queue grows by entries of the log up to the commit index. *)
Lemma collect_obs n :
  log_wf (rn_log n) → ∃ es, held_to (rn_log n) (commit_of n) es ∧
    obs (collect_committed_entries n) = (obs n) {{ ob_queue ::= λ q, q ++ es }}.
Proof.
  intros Hwf. unfold collect_committed_entries, queue_committed_entries.
  set (from := N.max _ _ + 1). destruct (commit_of n <? from).
  { exists []. split; [by intros e ?%elem_of_nil|by rewrite queue_none]. }
  destruct (entries_range _ _ _) as [es|err] eqn:Hr.
  - exists es. split; [|done]. intros e [j He]%list_elem_of_lookup.
    rewrite (entries_range_lookup _ _ _ _ _ Hwf Hr) in He. case_match eqn:Hle; [|done].
    apply N.leb_le in Hle. by exists (from + N.of_nat j).
  - exists []. split; [by intros e ?%elem_of_nil|by rewrite queue_none].
Qed.

Lemma try_advance_moves G n :
  log_wf (rn_log n) → rmoves G (obs n) (obs (try_advance_commit_index n)).
Proof.
  intros Hwf. unfold try_advance_commit_index.
  destruct (rn_leader_state n) as [ls|] eqn:Hls; [|done].
  destruct (List.find _ _) as [c|] eqn:Hf; [|done].
  apply find_some in Hf as [Hin Hq].
  apply in_rev, list_elem_of_In, elem_of_range_incl in Hin.
  match goal with |- rmoves _ _ (obs (collect_committed_entries ?n')) =>
    destruct (collect_obs n' Hwf) as (es & Hes & ->) end.
  apply rtc_once, (rm_commit G (obs n) (ls_match_index ls) c es).
  - simpl. by rewrite Hls.
  - simpl. lia.
  - revert Hq. unfold commit_quorum_at, quorum_holds. simpl.
    destruct (term_at _ _) as [t|]; [|done]. case N.eqb_spec; [intros ->|done]. simpl.
    rewrite N.leb_le. done.
  - done.
Qed.

Lemma follow_obs ev t n : obs (become_follower ev t n) = down_to t (obs n).
Proof.
  unfold become_follower, down_to. change (ob_term (obs n)) with (term_of n).
  destruct (rn_role n) eqn:Hr; change (term_of _ <? t) with (term_of n <? t);
    destruct (term_of n <? t) eqn:Hd; clear Hd; destruct n; simpl in Hr; subst; reflexivity.
Qed.

Lemma follow_moves G ev t n : term_of n ≤ t → rmoves G (obs n) (obs (become_follower ev t n)).
Proof. intros Ht. rewrite follow_obs. by apply rtc_once, rm_follow. Qed.

Lemma contact_obs n n' : touched contact n n' → obs n' = obs n.
Proof.
  intros (t & -> & Ht)%touched_inv. destruct Ht as (Hl & Hc & Hm & _ & Hq & _). simpl in *.
  unfold obs, commit_of in *. simpl. by rewrite Hl, Hc, Hm, Hq.
Qed.

Lemma emit_obs n : obs (try_emit_timeout_now n) = obs n.
Proof. unfold try_emit_timeout_now. by repeat case_match. Qed.

(** A table of fresh peers acknowledges nothing. *)
Lemma match_of_fresh ids : ∀ p, match_of ((λ id, (id, 0)) <$> ids) p = 0.
Proof.
  intros p. unfold match_of. induction ids as [|q ids IH]; csimpl; [done|]. by case_match.
Qed.

Lemma match_of_app mt mt' p :
  match_of (mt ++ mt') p = default (match_of mt' p) (assoc p mt).
Proof.
  unfold match_of. induction mt as [|[q m] mt IH]; simpl; [done|]. by case_match.
Qed.

Lemma add_peer_fresh q i ls p :
  match_of (ls_match_index ls) p = 0 → match_of (ls_match_index (ls_add_peer q i ls)) p = 0.
Proof.
  intros Hz. unfold ls_add_peer. case_match; [|done]. simpl. rewrite match_of_app.
  unfold match_of in *. simpl. destruct (assoc p (ls_match_index ls)); [done|]. by case_match.
Qed.

Lemma leader_table_fresh ps os ls qs i p :
  ls = leader_state_new ps os i →
  match_of (ls_match_index (foldl (λ ls q, ls_add_peer q i ls) ls qs)) p = 0.
Proof.
  intros ->. assert (match_of (ls_match_index (leader_state_new ps os i)) p = 0) as Hz.
  { apply match_of_fresh. }
  revert Hz. generalize (leader_state_new ps os i).
  induction qs as [|q qs IH]; intros ls Hz; simpl; [done|]. by apply IH, add_peer_fresh.
Qed.

Lemma become_leader_moves G ev n :
  log_wf (rn_log n) → rn_role n = Candidate →
  quorum (rn_config n) ≤ N.of_nat (size (rn_votes_received n)) + 1 →
  rmoves G (obs n) (obs (become_leader ev n)).
Proof.
  intros Hwf Hr Hq. unfold become_leader.
  set (n1 := n {{ rn_role := Leader; rn_leader_id := _ }}).
  set (ls := foldl _ _ _). set (n2 := n1 {{ rn_leader_state := Some ls }}).
  set (n3 := arm_quorum_window _ n2). set (noop := MkLogEntry _ _ _).
  set (n4 := n3 {{ rn_log := _ }} {{ rn_term_start_index := Some _ }}).
  assert (rmoves G (obs n) (obs n4)) as Hm.
  { apply rtc_once. apply (rm_win G (obs n) (ls_match_index ls)); [done..|].
    intros p. by eapply leader_table_fresh. }
  assert (log_wf (rn_log n4)) as Hwf4 by (by apply log_append_wf_any).
  etrans; [exact Hm|]. case_match; [etrans; [by apply try_advance_moves|]|].
  - apply replicate_moves. by rewrite (touched_log _ _ _ (touched_try_advance n4)).
  - by apply replicate_moves.
Qed.

Lemma vreqs_obs n f :
  obs (n {{ rn_ready -> rd_vote_requests ::= f }}) =
  (obs n) {{ ob_vreqs := vote_key <$> f (rd_vote_requests (rn_ready n)) }}.
Proof. done. Qed.

Lemma start_election_moves G ev n :
  log_wf (rn_log n) → rn_role n = Follower ∨ rn_role n = Candidate →
  rmoves G (obs n) (obs (start_election ev n)).
Proof.
  intros Hwf Hr. unfold start_election.
  destruct (may_lead (rn_replica n)); [|by destruct Hr as [-> | ->]].
  set (m := match peers _ with [] => _ | _ :: _ => _ end).
  enough (rmoves G (obs n) (obs m)) by (destruct Hr as [-> | ->]; done). subst m.
  set (n1 := reset_election_timeout _ _).
  set (m := match peers _ with [] => _ | _ :: _ => _ end).
  assert (∀ ps, rmove G (obs n) ((obs n1) {{ ob_vreqs ::= λ l, l ++ (campaign_key (obs n) <$> ps) }}))
    as Hm by (intros ps; by apply (rm_campaign G (obs n) ps)).
  assert (∀ ps, obs m = (obs n1) {{ ob_vreqs ::= λ l, l ++ (campaign_key (obs n) <$> ps) }} →
    rmoves G (obs n) (obs m)) as Hdone.
  { intros ps ->. by apply rtc_once. }
  destruct (peers (rn_config n1)) as [|p ps] eqn:Hp; subst m.
  - assert (rmove G (obs n) (obs n1)) as Hm1.
    { specialize (Hm []). match type of Hm with rmove _ _ ?o => replace o with (obs n1) in Hm end;
        [done|]. unfold obs, upd. simpl. by rewrite app_nil_r. }
    eapply rtc_l; [exact Hm1|]. apply become_leader_moves; [done..|].
    unfold quorum, cluster_size. rewrite Hp. done.
  - apply (Hdone (p :: ps)). set (req := MkRequestVoteRequest _ _ _ _ _ _).
    rewrite (vreqs_obs n1 (λ l, l ++ ((λ p, (p, req)) <$> p :: ps))).
    by rewrite fmap_app, <-list_fmap_compose.
Qed.

Lemma start_pre_election_moves G ev n :
  log_wf (rn_log n) → rn_role n = Follower ∨ rn_role n = Candidate →
  rmoves G (obs n) (obs (start_pre_election ev n)).
Proof.
  intros Hwf Hr. unfold start_pre_election.
  destruct (may_lead (rn_replica n)); [|by destruct Hr as [-> | ->]].
  pose proof (start_election_moves G ev n Hwf Hr).
  destruct (peers (rn_config n)); destruct Hr as [-> | ->]; done.
Qed.

Lemma tick_moves G ev n : log_wf (rn_log n) → rmoves G (obs n) (obs (tick ev n)).
Proof.
  intros Hwf. unfold tick. destruct (rn_role n) eqn:Hr; try done.
  1,2: case_match; [apply start_pre_election_moves; auto|done].
  set (n1 := match rn_leadership_transfer n with Some _ => _ | None => _ end).
  assert (obs n1 = obs n) as Ho by (unfold n1; by repeat case_match).
  assert (rn_log n1 = rn_log n) as Hl by (unfold n1; by repeat case_match).
  pose proof (touched_refresh (env_now ev) n1) as Ht.
  set (n2 := refresh_quorum_contact (env_now ev) n1) in *.
  rewrite <-Ho, <-(contact_obs _ _ Ht). case_match; [by apply follow_moves|].
  case_match; [|done]. etrans; [apply (replicate_moves G ev)|done].
  by rewrite (touched_log _ _ _ Ht), Hl.
Qed.

Lemma propose_moves G ev data n :
  log_wf (rn_log n) → rmoves G (obs n) (obs (propose ev data n).1).
Proof.
  intros Hwf. unfold propose. destruct (rn_role n) eqn:Hr; try done. case_match; [done|].
  set (e := MkLogEntry _ _ _).
  pose proof (rm_propose G (obs n) data Hr) as Hm. simpl in Hm.
  change (MkLogEntry _ _ data) with e in Hm.
  pose proof (log_append_wf_any e (rn_log n) Hwf eq_refl) as Hwf'.
  destruct (log_append e (rn_log n)) as [l r] eqn:Hl.
  assert (rmove G (obs n) (obs (n {{ rn_log := l }}))) as Hm1.
  { match type of Hm with rmove _ _ ?o => replace o with (obs (n {{ rn_log := l }})) in Hm end;
      [done|]. by unfold obs, upd; simpl; rewrite Hl. }
  simpl in Hwf'. destruct r; [|by apply rtc_once]. simpl. eapply rtc_l; [exact Hm1|].
  etrans; [by apply (replicate_moves G ev)|]. case_match; [|done].
  apply try_advance_moves. by rewrite (touched_log _ _ _ (touched_replicate ev _)).
Qed.

Lemma accept_leader_moves G ev req n :
  term_of n ≤ ae_term req →
  let n' := accept_leader ev req n in
  rmoves G (obs n) (obs n') ∧ rn_log n' = rn_log n ∧ term_of n' = ae_term req ∧
  rn_role n' ≠ Candidate.
Proof.
  intros Ht n'. subst n'. unfold accept_leader.
  set (c := _ || _ || _). set (n1 := if c then become_follower _ _ _ else n).
  assert (rmoves G (obs n) (obs n1) ∧ rn_log n1 = rn_log n ∧ term_of n1 = ae_term req ∧
    rn_role n1 ≠ Candidate) as (Hm & Hl & Ht1 & Hr).
  { unfold n1. destruct c eqn:Hc.
    - split_and!; [by apply follow_moves|by apply view_log, become_follower_view|..].
      + change (ob_term (obs (become_follower ev (ae_term req) n)) = ae_term req).
        by rewrite follow_obs.
      + change (ob_role (obs (become_follower ev (ae_term req) n)) ≠ Candidate).
        rewrite follow_obs. simpl. by destruct (rn_role n).
    - unfold c in Hc. apply orb_false_iff in Hc as [[Hlt%N.ltb_ge Hr%bool_decide_eq_false]%orb_false_iff _].
      split_and!; [done..|lia|done]. }
  by split_and!.
Qed.

Lemma append_to_log_moves G req n :
  log_wf (rn_log n) → contiguous (ae_prev_log_index req) (ae_entries req) → gv_append G req →
  rn_role n ≠ Candidate → term_of n = ae_term req →
  rmoves G (obs n) (obs (append_to_log req n).1).
Proof.
  intros Hwf Hcon HG Hr Ht. unfold append_to_log. do 2 (case_match; [done|]).
  case_match eqn:Hp; [done|]. apply negb_false_iff in Hp.
  pose proof (prev_log_matches_last _ _ Hwf Hp) as Hlast.
  assert (prev_matches (rn_log n) req) as Hpm.
  { revert Hp. unfold prev_log_matches, prev_matches. case N.ltb_spec; [|lia]. intros _.
    case_match; [|done]. rewrite N.eqb_eq. intros ->. by right. }
  pose proof (rm_accept G (obs n) req) as Hm. simpl in Hm.
  destruct (log_append_entries _ _ _) as [l r] eqn:Hl. simpl in Hm.
  pose proof (log_append_entries_wf_any _ _ _ _ _ Hwf Hcon Hlast Hl) as Hwf'.
  assert (is_ok r = true) as Hr' by (change r with (l, r).2; rewrite <-Hl; by apply entries_ok).
  destruct r as [w|err]; [|done]. clear Hr'. simpl. fold (covered req). case N.ltb_spec; intros Hc.
  - match goal with |- rmoves _ _ (obs (collect_committed_entries ?n')) =>
      destruct (collect_obs n' Hwf') as (es & Hes & ->) end.
    apply rtc_once. by apply (Hm (N.min (ae_leader_commit req) (covered req)) es); auto.
  - apply rtc_once. specialize (Hm (commit_of n) []).
    match type of Hm with context [rmove _ _ ?o] =>
      replace o with (obs (n {{ rn_log := l }})) in Hm end; [by apply Hm; auto|].
    unfold obs, upd. simpl. by rewrite app_nil_r.
Qed.

Lemma append_entries_moves G ev req n :
  log_wf (rn_log n) → contiguous (ae_prev_log_index req) (ae_entries req) → gv_append G req →
  rmoves G (obs n) (obs (handle_append_entries ev req n).1).
Proof.
  intros Hwf Hcon HG. unfold handle_append_entries. case N.ltb_spec; [done|]. intros Ht.
  destruct (accept_leader_moves G ev req n Ht) as (Hm & Hl & Ht' & Hr).
  etrans; [exact Hm|]. apply append_to_log_moves; [by rewrite Hl|done..].
Qed.

Lemma match_moves G n ls p m :
  rn_leader_state n = Some ls → gv_ack G p (term_of n) m →
  rmoves G (obs n) (obs (n {{ rn_leader_state := Some
    (set_next_index p (m + 1) (set_match_index p m ls)) }})).
Proof.
  intros Hls HG. apply rtc_once. apply (rm_match G (obs n) p m (ls_match_index ls)); [|done].
  simpl. by rewrite Hls.
Qed.

(** Writing a leader's tables other than the acknowledged indexes. *)
Lemma tables_obs n ls ls' :
  rn_leader_state n = Some ls → ls_match_index ls' = ls_match_index ls →
  obs (n {{ rn_leader_state := Some ls' }}) = obs n.
Proof. intros Hls Hm. unfold obs, upd. simpl. rewrite Hls. simpl. by rewrite Hm. Qed.

Lemma observer_response_moves G ev p resp n :
  log_wf (rn_log n) → rmoves G (obs n) (obs (handle_observer_response ev p resp n)).
Proof.
  intros Hwf. unfold handle_observer_response.
  destruct (rn_leader_state n) as [ls|] eqn:Hls; [|done]. case_match.
  - apply rmoves_same. by eapply tables_obs.
  - etrans; [|by apply send_observer_moves]. apply rmoves_same. by eapply tables_obs.
Qed.

Lemma append_response_moves G ev p resp n :
  log_wf (rn_log n) →
  (aer_success resp = true → gv_ack G p (aer_term resp) (aer_last_log_index resp)) →
  rmoves G (obs n) (obs (handle_append_entries_response ev p resp n)).
Proof.
  intros Hwf HG. unfold handle_append_entries_response.
  case N.ltb_spec; intros Ht; [apply follow_moves; lia|].
  case N.ltb_spec; intros Ht'; [done|]. assert (aer_term resp = term_of n) as Hterm by lia.
  case_match; [done|]. case_match; [by apply observer_response_moves|].
  destruct (rn_leader_state n) as [ls|] eqn:Hls; [|done].
  set (n1 := n {{ rn_leader_state := Some (record_ack p ls) }}).
  assert (obs n1 = obs n) as Ho1 by (by eapply tables_obs).
  pose proof (touched_voter ev p resp n1) as Htv. set (n2 := record_voter_contact ev p resp n1) in *.
  pose proof (contact_obs _ _ Htv) as Ho2. rewrite <-Ho1, <-Ho2.
  assert (log_wf (rn_log n2)) as Hwf2 by (by rewrite (touched_log _ _ _ Htv)).
  assert (term_of n2 = term_of n) as Ht2.
  { change (ob_term (obs n2) = ob_term (obs n)). by rewrite Ho2, Ho1. }
  clearbody n2. clear Htv Ho1 Ho2. destruct (rn_leader_state n2) as [ls2|] eqn:Hls2; [|done].
  rewrite emit_obs. set (ls3 := ls2 {{ ls_peer_states ::= _ }}).
  set (n3 := n2 {{ rn_leader_state := Some ls3 }}).
  assert (obs n3 = obs n2) as Ho3 by (by eapply tables_obs). rewrite <-Ho3.
  case_match eqn:Hok.
  - assert (∀ ls4, rmoves G (obs n3) (obs (n3 {{ rn_leader_state := Some ls4 }})) →
      rmoves G (obs n3) (obs (if mem p (peers (rn_config n3))
        then (try_advance_commit_index (n3 {{ rn_leader_state := Some ls4 }}))
               {{ rn_replicated_floor := replicated_floor ev
                    (try_advance_commit_index (n3 {{ rn_leader_state := Some ls4 }})) }}
        else n3 {{ rn_leader_state := Some ls4 }}))) as Hrest.
    { intros ls4 Hm. etrans; [exact Hm|]. case_match; [|done].
      etrans; [by apply (try_advance_moves G)|done]. }
    apply Hrest. destruct (ls_match_index_for ls3 p <? _); [|by apply rmoves_same].
    apply match_moves; [done|]. change (term_of n3) with (term_of n2). rewrite Ht2, <-Hterm. auto.
  - case_match; [by case_match|]. etrans; [|by apply (send_moves G ev p)].
    apply rmoves_same. by eapply tables_obs.
Qed.

Lemma request_vote_moves G ev req n :
  rmoves G (obs n) (obs (handle_request_vote ev req n).1).
Proof.
  unfold handle_request_vote, handle_request_vote_at. case_match; [done|].
  set (n1 := if _ : bool then become_follower _ _ _ else n).
  assert (rmoves G (obs n) (obs n1)) as Hm.
  { unfold n1. case N.ltb_spec; [|done]. intros ?. apply follow_moves. lia. }
  etrans; [exact Hm|]. clearbody n1. case_match; [done|].
  set (can := (_ || _) && _).
  assert (can = true → rmoves G (obs n1) (obs (reset_election_timeout ev (persist_hard_state
      (n1 {{ rn_hard_state -> voted_for := rv_candidate_id req }}))))) as Hvote.
  { intros Hc. unfold can in Hc. apply andb_true_iff in Hc as [Hc _].
    apply rtc_once, (rm_vote G (obs n1) (rv_candidate_id req)).
    apply orb_true_iff in Hc as [Hc%N.eqb_eq|Hc%N.eqb_eq]; auto. }
  clearbody can. destruct (rn_role n1); try done; (destruct can; [by apply Hvote|done]).
Qed.

Lemma vote_response_moves G ev p resp n :
  log_wf (rn_log n) →
  (rvr_vote_granted resp = true → gv_grant G p (rvr_term resp)) →
  rmoves G (obs n) (obs (handle_request_vote_response ev p resp n)).
Proof.
  intros Hwf HG. unfold handle_request_vote_response.
  case N.ltb_spec; intros Ht; [apply follow_moves; lia|].
  case N.ltb_spec; intros Ht'; [done|]. assert (rvr_term resp = term_of n) as Hterm by lia.
  destruct (rn_role n) eqn:Hr; try done. case_match; [|done].
  set (n1 := n {{ rn_votes_received ::= _ }}).
  assert (rmoves G (obs n) (obs n1)) as Hm.
  { apply rtc_once, (rm_count G (obs n) p); [done|]. change (ob_term (obs n)) with (term_of n).
    rewrite <-Hterm. auto. }
  etrans; [exact Hm|]. case N.leb_spec; [|done]. intros Hq. by apply become_leader_moves.
Qed.

Lemma pre_vote_obs n g : obs (n {{ rn_pre_vote := g }}) = obs n.
Proof. done. Qed.

Lemma pre_vote_response_moves G ev p resp n :
  log_wf (rn_log n) → rmoves G (obs n) (obs (handle_pre_vote_response ev p resp n)).
Proof.
  intros Hwf. unfold handle_pre_vote_response.
  case N.ltb_spec; intros Ht; [rewrite pre_vote_obs; apply follow_moves; lia|].
  assert (∀ g, rn_role n ≠ Leader →
    rmoves G (obs n) (obs (start_election ev (n {{ rn_pre_vote := g; rn_pre_vote := None }})))) as Hs.
  { intros g Hr. set (n1 := n {{ rn_pre_vote := g; rn_pre_vote := None }}).
    change (obs n) with (obs n1). change (rn_role n1 ≠ Leader) in Hr.
    change (log_wf (rn_log n1)) in Hwf. clearbody n1.
    destruct (rn_role n1) eqn:Hr1; try done;
      try (apply start_election_moves; [done|rewrite Hr1; by auto]);
      unfold start_election; by rewrite Hr1. }
  destruct (rn_role n) eqn:Hr; try done;
    (case_match; [|done]; do 2 (case_match; [done|]); case_match; [by apply Hs|done]).
Qed.

Lemma timeout_now_moves G ev req n :
  log_wf (rn_log n) → rmoves G (obs n) (obs (handle_timeout_now ev req n)).
Proof.
  intros Hwf. unfold handle_timeout_now. case_match eqn:Hg; [|done].
  apply andb_true_iff in Hg as [[Hr%bool_decide_eq_true _]%andb_true_iff _].
  etrans; [apply (start_election_moves G ev); auto|]. apply rmoves_same.
  set (n1 := start_election ev n). rewrite vreqs_obs.
  rewrite <-list_fmap_compose. replace (_ <$> rd_vote_requests (rn_ready n1))
    with (vote_key <$> rd_vote_requests (rn_ready n1)); [done|].
  apply list_fmap_ext. intros i [p v] _. simpl. by case_match.
Qed.

Lemma set_replica_moves G ev r n : rmoves G (obs n) (obs (set_replica_state ev r n)).
Proof.
  unfold set_replica_state. case_match; [|done]. unfold stand_down_for_snapshot.
  set (n1 := n {{ rn_replica := r }}). change (obs n) with (obs n1).
  destruct (rn_role n1); try done; [by apply follow_moves|].
  etrans; [|by apply (follow_moves G ev (term_of n1)); case_match]. by case_match.
Qed.

Lemma save_durable_moves G i n :
  gv_durable G i → rmoves G (obs n) (obs (save_durable_applied_index i n).1).
Proof.
  intros HG. unfold save_durable_applied_index. case N.leb_spec; [done|]. intros Hlt.
  destruct (save_applied_index _ _) as [s r] eqn:Hst.
  pose proof (rm_durable G (obs n) i s r HG Hlt Hst) as Hm. by destruct r; apply rtc_once.
Qed.

Lemma compact_moves G i n : rmoves G (obs n) (obs (compact_log_up_to i n).1).
Proof.
  unfold compact_log_up_to.
  set (up := match rn_compaction_ceiling n with Some _ => _ | None => _ end).
  case N.leb_spec; [done|]. intros Hs. case N.ltb_spec; [done|]. intros Hc.
  destruct (term_at _ _) as [t|] eqn:Ht; [|done].
  assert (rmove G (obs n) (obs (n {{ rn_log := (apply_snapshot up t (rn_log n)).1 }}))) as Hm.
  { apply (rm_compact G (obs n) up t); simpl; [done|lia|lia|done]. }
  destruct (apply_snapshot _ _ _) as [l []]; by apply rtc_once.
Qed.

Lemma requeue_moves G batch n :
  (∀ e, e ∈ batch → gv_batch G e) → rmoves G (obs n) (obs (requeue_committed batch n)).
Proof.
  intros HG. apply rtc_once. apply (rm_requeue G (obs n)).
  intros e [He|He]%elem_of_app; apply list_elem_of_In, filter_In in He as [He%list_elem_of_In _]; auto.
Qed.

(** Every operation but the snapshot transfer. *)
Lemma run_op_rmoves ev op n :
  log_wf (rn_log n) →
  (∀ req, op = OpAppendEntries req → contiguous (ae_prev_log_index req) (ae_entries req)) →
  snapshot_op op = false →
  rmoves (op_given op) (obs n) (obs (run_op ev op n)).
Proof.
  intros Hwf Hop Hs. destruct op; simpl in *; try done.
  - unfold on_storage_progress. case_match; [by apply try_advance_moves|done].
  - by apply tick_moves.
  - by apply propose_moves.
  - apply append_entries_moves; [done|by apply Hop|done].
  - by apply append_response_moves.
  - apply request_vote_moves.
  - by apply vote_response_moves.
  - unfold handle_pre_vote, handle_pre_vote_at. by repeat case_match.
  - by apply pre_vote_response_moves.
  - by apply timeout_now_moves.
  - unfold transfer_leadership. repeat (case_match; try done). simpl. by rewrite emit_obs.
  - unfold start_read_index. repeat (case_match; try done). by apply replicate_moves.
  - apply set_replica_moves.
  - by apply rtc_once, (rm_applied _ (obs n)).
  - by apply save_durable_moves.
  - by apply requeue_moves.
  - apply compact_moves.
  - unfold maybe_compact_log. case_match; [|done]. do 2 (case_match; [done|]). apply compact_moves.
  - unfold notify_removed_peer. case_match; [done|by apply send_moves].
Qed.
End moves.
