(* ===== verification/RaftViews.v ===== *)
(** * Full logs behind compacted ones

    A node keeps its log after a snapshot boundary; [view] relates it to the
    full log it stands for, and the operations of the log to the full log:
    reads, an append, a compaction, and [append_entries] of a leader's run of
    entries, which either finds the whole run there or leaves exactly the
    leader's log up to its end. *)

From stdpp Require Import base option gmap list.
From S2P Require Import Prelude RaftState RaftLog RaftLogFacts RaftProtocol.

Open Scope N_scope.

Lemma take_lookup_inv {A} (l k : list A) n :
  take n l = take n k → ∀ i, (i < n)%nat → l !! i = k !! i.
Proof.
  intros Heq i Hi. rewrite <-(lookup_take_lt l n i), <-(lookup_take_lt k n i) by done. by rewrite Heq.
Qed.

Lemma last_drop_lt {A} (l : list A) n : (n < length l)%nat → last (drop n l) = last l.
Proof.
  intros Hn. rewrite !last_lookup, lookup_drop, length_drop. f_equal. lia.
Qed.

Lemma log_term_take (L : Log) i e : L !! i = Some e → log_term (take (S i) L) = e_term e.
Proof.
  intros He. unfold log_term. by rewrite (take_S_r _ _ _ He), last_snoc.
Qed.

Lemma log_term_snoc (L : Log) e : log_term (L ++ [e]) = e_term e.
Proof. unfold log_term. by rewrite last_snoc. Qed.

Section views.
Context {S : Type} `{LogStorage S}.
Implicit Types (l : RaftLog S) (L h : Log).

(** [l] is the full log [L] after a snapshot boundary. *)
Definition view l L : Prop :=
  contiguous 0 L ∧ lg_snapshot_index l ≤ N.of_nat (length L) ∧
  lg_entries l = drop (N.to_nat (lg_snapshot_index l)) L ∧
  lg_snapshot_term l = log_term (take (N.to_nat (lg_snapshot_index l)) L).

Lemma view_wf l L : view l L → log_wf l.
Proof.
  intros (Hc & _ & He & _). unfold log_wf. rewrite He.
  apply (contiguous_drop 0 (N.to_nat (lg_snapshot_index l))) in Hc.
  by replace (0 + N.of_nat (N.to_nat (lg_snapshot_index l))) with (lg_snapshot_index l) in Hc by lia.
Qed.

Lemma view_last_index l L : view l L → last_index l = N.of_nat (length L).
Proof.
  intros Hv. rewrite (last_index_wf l (view_wf _ _ Hv)). destruct Hv as (_ & Hs & He & _).
  rewrite He, length_drop. lia.
Qed.

Lemma view_last_term l L : view l L → last_term l = log_term L.
Proof.
  intros (_ & Hs & He & Ht). unfold last_term. rewrite He.
  destruct (decide (N.to_nat (lg_snapshot_index l) < length L)%nat) as [Hlt|].
  - rewrite last_drop_lt by done. unfold log_term. destruct (last L) eqn:El; [done|].
    apply last_None in El. by rewrite El in Hlt; simpl in Hlt; lia.
  - rewrite drop_ge by lia. simpl. rewrite Ht. by rewrite take_ge by lia.
Qed.

Lemma view_entry_at l L i :
  view l L → entry_at l i = if lg_snapshot_index l <? i then L !! N.to_nat (i - 1) else None.
Proof.
  intros Hv. rewrite (entry_at_wf l i (view_wf _ _ Hv)). destruct Hv as (_ & Hs & He & _).
  case N.ltb_spec; [|done]. intros Hlt. rewrite He, lookup_drop. f_equal. lia.
Qed.

Lemma view_entry_Some l L i e :
  view l L → entry_at l i = Some e → lg_snapshot_index l < i ∧ L !! N.to_nat (i - 1) = Some e.
Proof. intros Hv. rewrite (view_entry_at _ _ _ Hv). by case N.ltb_spec. Qed.

Lemma view_term_at l L i t :
  view l L → term_at l i = Some t →
  (N.to_nat i ≤ length L)%nat ∧ t = log_term (take (N.to_nat i) L) ∧
  (i = 0 ∨ lg_snapshot_index l ≤ i).
Proof.
  intros Hv. pose proof Hv as (_ & Hs & He & Ht). unfold term_at.
  case N.eqb_spec; [intros -> [= <-]; simpl; split_and!; [lia|done|by left]|]. intros H0.
  case N.eqb_spec; [intros -> [= <-]; split_and!; [lia|done|right; lia]|]. intros H1.
  case N.ltb_spec; [done|]. intros H2.
  destruct (entry_at l i) as [e|] eqn:Hent; [|done]. intros [= <-].
  apply (view_entry_Some _ _ _ _ Hv) in Hent as [_ Hent].
  pose proof (lookup_lt_Some _ _ _ Hent). split_and!; [lia| |right; lia].
  rewrite <-(log_term_take _ _ _ Hent). do 2 f_equal. lia.
Qed.

Lemma view_append l L e l' :
  view l L → e_index e = last_index l + 1 → log_append e l = (l', Ok tt) → view l' (L ++ [e]).
Proof.
  intros Hv He Happ. rewrite (view_last_index _ _ Hv) in He.
  destruct Hv as (Hc & Hs & Hes & Ht). revert Happ. unfold log_append.
  destruct (storage_append _ _) as [s [u|]]; [|done]. intros [= <-]. split_and!; simpl.
  - apply contiguous_app. split; [done|]. apply contiguous_singleton. lia.
  - rewrite length_app. simpl. lia.
  - rewrite Hes, drop_app_le by lia. done.
  - rewrite Ht. by rewrite take_app_le by lia.
Qed.

Lemma view_compact l L i t l' :
  view l L → lg_snapshot_index l < i → term_at l i = Some t →
  apply_snapshot i t l = (l', Ok tt) → view l' L.
Proof.
  intros Hv Hi Ht. pose proof (view_wf _ _ Hv) as Hwf.
  destruct (view_term_at _ _ _ _ Hv Ht) as (Hlen & -> & _). destruct Hv as (Hc & Hs & He & _).
  unfold apply_snapshot. case N.leb_spec; [lia|]. intros _.
  destruct (storage_compact _ _ _) as [s [u|]]; [|done]. intros [= <-]. split_and!; simpl; try done.
  - lia.
  - replace (List.filter _ (lg_entries l)) with (List.filter (λ e, i <? e_index e) (lg_entries l)).
    + rewrite (contiguous_filter_gt _ _ _ Hwf) by lia. rewrite He, drop_drop. f_equal. lia.
    + apply filter_ext. intros e. apply eq_bool_prop_intro.
      rewrite !Is_true_true, N.ltb_lt, N.leb_le. lia.
Qed.

(** ** A leader's entries *)

Section accept.
Context (l : RaftLog S) (L h : Log) (prev : u64) (es : list LogEntry).

(** The request carries entries of [h] after [prev]; the two logs share the
    snapshot, share what comes before [prev], and entries of one term at one
    index end the same prefix. *)
Context (Hv : view l L) (Hh : contiguous 0 h).
Context (Hes : es = take (length es) (drop (N.to_nat prev) h)).
Context (Hlen : (N.to_nat prev + length es ≤ length h)%nat).
Context (Hsnap : take (N.to_nat (lg_snapshot_index l)) L `prefix_of` h).
Context (Hprev : take (N.to_nat prev) h `prefix_of` L).
Context (Hmatch : ∀ i e e', L !! i = Some e → h !! i = Some e' → e_term e = e_term e' →
  take (Datatypes.S i) h `prefix_of` L).

Lemma sent_entry j e :
  es !! j = Some e → h !! (N.to_nat prev + j)%nat = Some e ∧ e_index e = prev + 1 + N.of_nat j.
Proof.
  intros He. rewrite Hes in He. apply lookup_take_Some in He as [He _]. rewrite lookup_drop in He.
  split; [done|]. rewrite (Hh _ _ He). lia.
Qed.

Lemma sent_contiguous : contiguous prev es.
Proof. intros j e He. by apply sent_entry. Qed.

(** A sent entry that is not missing ends a common prefix. *)
Lemma not_lacking_prefix j e :
  es !! j = Some e → log_lacks l e = false →
  take (N.to_nat prev + Datatypes.S j) h `prefix_of` L.
Proof.
  intros He Hlack. destruct (sent_entry _ _ He) as [Hje Hi].
  apply (log_lacks_false l e (view_wf _ _ Hv)) in Hlack as [Hle|(x & Hx & Ht)].
  - transitivity (take (N.to_nat (lg_snapshot_index l)) L); [|apply prefix_take].
    eapply prefix_by_length; [apply prefix_take|exact Hsnap|].
    destruct Hv as (_ & Hs & _). rewrite !length_take. lia.
  - apply (view_entry_Some _ _ _ _ Hv) in Hx as [_ Hx].
    replace (N.to_nat (e_index e - 1)) with (N.to_nat prev + j)%nat in Hx by lia.
    replace (N.to_nat prev + Datatypes.S j)%nat with (Datatypes.S (N.to_nat prev + j)) by lia.
    by eapply Hmatch.
Qed.

(** What comes before entry [k] when every earlier one is there. *)
Lemma before_prefix k :
  (k ≤ length es)%nat → (∀ j e, (j < k)%nat → es !! j = Some e → log_lacks l e = false) →
  take (N.to_nat prev + k) h `prefix_of` L.
Proof.
  intros Hk Hold. destruct k as [|k]; [by rewrite Nat.add_0_r|].
  destruct (lookup_lt_is_Some_2 es k) as [e He]; [lia|].
  eapply not_lacking_prefix; [exact He|]. eapply Hold; [|done]. lia.
Qed.

(** [append_entries]: the whole run was there, or the log is now the
    leader's up to the end of the run. *)
Lemma view_accept l' w :
  log_append_entries prev es l = (l', Ok w) →
  let l1 := take (N.to_nat prev + length es) h in
  (w = false ∧ l' = l ∧ l1 `prefix_of` L) ∨ (w = true ∧ view l' l1 ∧ ¬ l1 `prefix_of` L).
Proof.
  intros Happ l1. pose proof (view_wf _ _ Hv) as Hwf.
  assert (prev ≤ last_index l) as Hpl.
  { rewrite (view_last_index _ _ Hv). apply prefix_length in Hprev. rewrite length_take in Hprev. lia. }
  destruct (log_append_entries_ok _ _ _ _ _ Hwf sent_contiguous Hpl Happ)
    as [(-> & -> & Hall)|(-> & k & e & Hk & Hlack & Hold & [Hs _] & Hents & Hsi & Hst)]; [left|right].
  - split_and!; [done..|]. apply before_prefix; [lia|]. intros j e _ He.
    apply Hall. by eapply list_elem_of_lookup_2.
  - pose proof (lookup_lt_Some _ _ _ Hk) as Hkl. destruct (sent_entry _ _ Hk) as [Hek Hi].
    pose proof (before_prefix k ltac:(lia) Hold) as Hpre.
    assert (take (N.to_nat prev + k) L = take (N.to_nat prev + k) h) as Heq.
    { destruct Hpre as [z ->]. by rewrite take_app_le, take_take, Nat.min_id
        by (rewrite length_take; lia). }
    set (A := (N.to_nat prev + k)%nat) in *. set (s := N.to_nat (lg_snapshot_index l)) in *.
    assert (l1 = take A L ++ drop k es) as Hl1.
    { rewrite Heq, Hes. unfold l1. rewrite skipn_firstn_comm, drop_drop. fold A.
      rewrite take_take_drop. f_equal. lia. }
    assert (A ≤ length L)%nat as HA by (apply prefix_length in Hpre; rewrite length_take in Hpre; lia).
    assert (s ≤ A)%nat as HsA by lia. clear Hlen Hprev Hmatch Hpl.
    split_and!; [done| |].
    + destruct Hv as (_ & Hsn & He & Ht). unfold view. rewrite Hsi, Hst, Hents, He. fold s.
      split_and!; [by apply contiguous_take| |rewrite Hl1..].
      * rewrite Hl1, length_app, length_take. lia.
      * rewrite drop_app_le by (rewrite length_take; lia). f_equal.
        replace A with (s + N.to_nat (e_index e - lg_snapshot_index l - 1))%nat by lia.
        by rewrite take_drop_commute.
      * rewrite Ht. fold s. f_equal. rewrite take_app_le by (rewrite length_take; lia).
        by rewrite take_take, Nat.min_l by lia.
    + intros [z Hz]. apply (log_lacks_true l e Hwf) in Hlack as [_ Hno].
      apply (Hno e); [|done]. rewrite (view_entry_at _ _ _ Hv), (proj2 (N.ltb_lt _ _)) by done.
      replace (N.to_nat (e_index e - 1)) with A by lia. rewrite Hz. apply lookup_app_l_Some.
      unfold l1. by rewrite lookup_take_lt by lia.
Qed.
End accept.
End views.
