(* ===== verification/RaftSim.v ===== *)
(** * The group implements the protocol

    The relation between a node of [RaftReplication] and the protocol of
    [RaftProtocol]: its log is a view of the protocol's log, what it sends
    are promises of the protocol, and its commit index is covered by a chosen
    prefix. Every move of the node is a run of protocol steps that keeps the
    relation, for the node and for every other. *)

From stdpp Require Import base option gmap functions relations list.
From S2P Require Import Prelude RaftState RaftLog RaftLogFacts RaftNode RaftOps RaftRpc.
From S2P Require Import RaftNodeFacts RaftSteps RaftNodeThms RaftDurability RaftDelivery RaftGroup.
From S2P Require Import RaftElection RaftProtocol RaftReplication RaftMoves RaftViews.

Open Scope N_scope.

(** ** Staged storage keeps the storage contract *)

#[export] Program Instance staged_storage_spec : LogStorageSpec StagedMem := {|
  storage_ok := λ s, storage_ok (sm_mem s);
|}.
Next Obligation.
  intros s [|e new] s' r es Hok Hl Hc [= <- <-]; [by rewrite app_nil_r|].
  exact (append_spec (sm_mem s) (e :: new) _ _ es Hok Hl Hc eq_refl).
Qed.
Next Obligation. by intros s [|e new] s' r [= <- <-]. Qed.
Next Obligation. intros s i s' r es Hok Hl [= <- <-]. exact (truncate_spec (sm_mem s) i _ _ es Hok Hl eq_refl). Qed.
Next Obligation. by intros s i s' r [= <- <-]. Qed.
Next Obligation.
  intros s i t s' r es Hok Hl Hi [= <- <-]. exact (compact_spec (sm_mem s) i t _ _ es Hok Hl Hi eq_refl).
Qed.
Next Obligation. by intros s i t s' r [= <- <-]. Qed.
Next Obligation. intros s hs s' r [= <- <-]. exact (save_hard_state_spec (sm_mem s) hs _ _ eq_refl). Qed.
Next Obligation. intros s i s' r [= <- <-]. exact (save_applied_index_spec (sm_mem s) i _ _ eq_refl). Qed.

(** Staged writes succeed. *)
Lemma staged_append_ok e (l : RaftLog StagedMem) : ∃ l', log_append e l = (l', Ok tt).
Proof. by eexists. Qed.

Lemma staged_entries_ok prev es (l : RaftLog StagedMem) :
  is_ok (log_append_entries prev es l).2 = true.
Proof.
  unfold log_append_entries. destruct (position (log_lacks l) es) as [k|]; [|done].
  set (c := match head _ with Some _ => _ | None => _ end). clearbody c.
  generalize (drop k es). intros new. unfold truncate_from.
  destruct c as [i|]; [destruct (i <=? lg_snapshot_index l)|]; by destruct new.
Qed.

Lemma staged_snapshot_ok i t (l : RaftLog StagedMem) : ∃ l', apply_snapshot i t l = (l', Ok tt).
Proof. unfold apply_snapshot. case_match; by eexists. Qed.

(** ** Growing protocol states *)

(** [p] with the grant of [v] to the log [l] in term [u]. *)
Abbreviation granted p v u l :=
  (p {{ ps_grants ::= λ g v' u' l', g v' u' l' ∨ v' = v ∧ u' = u ∧ l' = l }}).

(** [p] after leader [id] of term [T] appended [e]. *)
Abbreviation appended p id T e :=
  (p {{ ps_hist ::= <[T := Some (ps_log p id%N ++ [e])]>; ps_log ::= <[id%N := ps_log p id%N ++ [e]]> }}).

(** [p] with a durable acknowledgement of the first [m] entries of [t]. *)
Abbreviation acked p v t m :=
  (p {{ ps_acks ::= λ a v' t' m', a v' t' m' ∨ v' = v ∧ t' = t ∧ m' = m;
        ps_aleft ::= λ a v' t' m', a v' t' m' ∨ v' = v ∧ t' = t ∧ m' = m }}).

Section sim.
Context (V : gset u64).
Implicit Types (p : PState) (t u v w id : u64) (l L h : Log) (i m : nat) (c B : u64).

Record grow p p' : Prop := MkGrow {
  gw_ext : pext p p';
  gw_chosen : ∀ t i, chosen V p t i → chosen V p' t i;
  gw_aleft : ∀ v t m, ps_aleft p v t m → ps_aleft p' v t m;
  gw_gleft : ∀ v u l, ps_gleft p v u l → ps_gleft p' v u l;
}.

Lemma pext_refl p : pext p p.
Proof. by apply pext_refl_fields. Qed.

Lemma pext_trans p1 p2 p3 : pext p1 p2 → pext p2 p3 → pext p1 p3.
Proof.
  intros [Hh Hs Hd Ha] [Hh' Hs' Hd' Ha']. split.
  - intros t h Ht. destruct (Hh _ _ Ht) as (h1 & H1 & ?). destruct (Hh' _ _ H1) as (h2 & ? & ?).
    exists h2. split; [done|by etrans].
  - intros t h Ht. destruct (Hh _ _ Ht) as (h1 & H1 & ?). rewrite (Hs' _ _ H1). eauto.
  - intros v. etrans; eauto.
  - intros v t m Ht Hm. apply Ha; [done|]. apply Ha'; [|done]. specialize (Hd v). lia.
Qed.

#[local] Instance grow_refl : Reflexive grow.
Proof. intros p. split; [apply pext_refl|done..]. Qed.

#[local] Instance grow_trans : Transitive grow.
Proof. intros p1 p2 p3 [] []. split; [by eapply pext_trans|eauto..]. Qed.

Lemma pstep_grow p p' : pinv V p → pstep V p p' → grow p p'.
Proof.
  intros Hp Hs. split; eauto using pstep_ext, chosen_step, pstep_aleft, pstep_gleft.
Qed.

Lemma grow_hist p p' t h : grow p p' → ps_hist p t = Some h →
  ∃ h', ps_hist p' t = Some h' ∧ h `prefix_of` h'.
Proof. intros [Hx _ _ _]. apply Hx. Qed.

(** A key of the grown state below the old log's end is an old key. *)
Lemma own_key_back p p' t i h :
  grow p p' → ps_hist p t = Some h → (i ≤ length h)%nat → own_key p' t i → own_key p t i.
Proof.
  intros Hg Hh Hi (h' & _ & Hi'). exists h. split; [done|].
  rewrite (pe_start _ _ (gw_ext _ _ Hg) _ _ Hh) in Hi'. lia.
Qed.

(** An entry the leader of [t] made is of term [t]. *)
Lemma own_key_entry p t i h :
  pinv V p → own_key p t i → ps_hist p t = Some h →
  ∃ e, h !! pred i = Some e ∧ e_term e = t ∧ (0 < i ≤ length h)%nat.
Proof.
  intros Hp (h' & Hh' & Hi) Hh. rewrite Hh in Hh'. injection Hh' as <-.
  destruct (pi_start _ _ Hp _ _ Hh) as (_ & _ & Hown).
  destruct (lookup_lt_is_Some_2 h (pred i)) as [e He]; [lia|]. exists e. split_and!; [done| |lia..].
  eapply Hown; [|done]. lia.
Qed.

Lemma own_key_at p t h i e :
  pinv V p → ps_hist p t = Some h → h !! pred i = Some e → (0 < i)%nat → e_term e = t → own_key p t i.
Proof.
  intros Hp Hh He Hi Ht. exists h. split; [done|]. pose proof (lookup_lt_Some _ _ _ He).
  destruct (pi_start _ _ Hp _ _ Hh) as ([z ->] & Hlt & _).
  destruct (decide (length (ps_start p t) < i)%nat); [lia|].
  rewrite lookup_app_l in He by lia. apply list_elem_of_lookup_2, Hlt in He. lia.
Qed.

(** ** Promises, evidence, certified entries *)

(** Node [v] holds the first [m] entries of term [t]'s leader, as far as
    they are not chosen anyway; [P] is the node's acknowledgements. *)
Definition promised p (P : u64 → u64 → nat → Prop) v t m : Prop :=
  (∃ h, ps_hist p t = Some h ∧ (m ≤ length h)%nat) ∧
  ∀ i, own_key p t i → (i ≤ m)%nat → chosen V p t i ∨ ∃ m', (i ≤ m')%nat ∧ P v t m'.

(** A prefix of [c] entries is chosen, in a term up to [B]. *)
Definition evidence p B c : Prop :=
  c = 0 ∨ ∃ t i, chosen V p t i ∧ t ≤ B ∧ (N.to_nat c ≤ i)%nat.

(** It is, and [L] has it. *)
Definition commit_ok p B L c : Prop :=
  c = 0 ∨ ∃ t i h, chosen V p t i ∧ t ≤ B ∧ ps_hist p t = Some h ∧ (N.to_nat c ≤ i)%nat ∧
    take (N.to_nat c) h `prefix_of` L.

Definition certified p (e : LogEntry) : Prop :=
  ∃ t i h j, chosen V p t i ∧ ps_hist p t = Some h ∧ (j < i)%nat ∧ h !! j = Some e.

(** A request is a run of its leader's log. *)
Definition ae_ok p (req : AppendEntriesRequest) : Prop :=
  ∃ h, ps_hist p (ae_term req) = Some h ∧
    (N.to_nat (ae_prev_log_index req) + length (ae_entries req) ≤ length h)%nat ∧
    ae_entries req = take (length (ae_entries req)) (drop (N.to_nat (ae_prev_log_index req)) h) ∧
    ae_prev_log_term req = log_term (take (N.to_nat (ae_prev_log_index req)) h) ∧
    evidence p (ae_term req) (ae_leader_commit req).

(** What the durable mark [mk] of node [id] says about entries of its
    current term. *)
Definition mark_ok p id (mk : u64 * u64) : Prop :=
  mk.2 = 0 ∨
  mk.2 ≤ ps_dterm p id ∧
  ∃ h, ps_hist p mk.2 = Some h ∧ (N.to_nat mk.1 ≤ length h)%nat ∧
    (mk.2 = ps_term p id → (length (ps_start p mk.2) < N.to_nat mk.1)%nat →
      take (N.to_nat mk.1) h `prefix_of` ps_log p id ∧
      take (N.to_nat mk.1) h `prefix_of` ps_dlog p id).

(** Every grant of [id] in [hs]'s term is the vote [hs] records. *)
Definition vote_ok p id (hs : HardState) : Prop :=
  ∀ l, ps_grants p id (current_term hs) l →
    voted_for hs ≠ 0 ∧ (voted_for hs = id ∨ ps_gleft p (voted_for hs) (current_term hs) l).

Definition key_ok (index last : u64) l : Prop :=
  index = N.of_nat (length l) ∧ last = log_term l.

Lemma take_grow p p' t h h' i :
  grow p p' → ps_hist p t = Some h → ps_hist p' t = Some h' → (i ≤ length h)%nat →
  take i h' = take i h.
Proof.
  intros Hg Hh Hh' Hi. destruct (grow_hist _ _ _ _ Hg Hh) as (h2 & Hh2 & Hp). simplify_eq.
  by apply take_prefix_take.
Qed.

Lemma promised_grow p p' (P P' : u64 → u64 → nat → Prop) v t m :
  grow p p' → (∀ m, P v t m → P' v t m) → promised p P v t m → promised p' P' v t m.
Proof.
  intros Hg HP [(h & Hh & Hm) Hk]. destruct (grow_hist _ _ _ _ Hg Hh) as (h' & Hh' & Hp).
  split; [exists h'; apply prefix_length in Hp; split; [done|lia]|]. intros i Hi Him.
  assert (own_key p t i) as Hi0 by (eapply own_key_back; [done..|lia|done]).
  destruct (Hk i Hi0 Him) as [?|(m' & ? & ?)].
  - left. by apply (gw_chosen _ _ Hg).
  - right. eauto.
Qed.

Lemma evidence_grow p p' B B' c : grow p p' → B ≤ B' → evidence p B c → evidence p' B' c.
Proof.
  intros Hg HB [?|(t & i & Hc & Ht & Hi)]; [by left|right]. exists t, i.
  split_and!; [by apply (gw_chosen _ _ Hg)|lia|done].
Qed.

Lemma commit_ok_grow p p' B B' L L' c :
  grow p p' → B ≤ B' → L `prefix_of` L' → commit_ok p B L c → commit_ok p' B' L' c.
Proof.
  intros Hg HB HL [?|(t & i & h & Hc & Ht & Hh & Hi & Hp)]; [by left|right].
  destruct (grow_hist _ _ _ _ Hg Hh) as (h' & Hh' & Hp'). exists t, i, h'.
  pose proof Hc as [(h2 & Hh2 & Hlen) _]. simplify_eq.
  split_and!; [by apply (gw_chosen _ _ Hg)|lia|done|done|].
  rewrite (take_grow _ _ _ _ _ _ Hg Hh Hh') by lia. by etrans.
Qed.

Lemma certified_grow p p' e : grow p p' → certified p e → certified p' e.
Proof.
  intros Hg (t & i & h & j & Hc & Hh & Hj & He). destruct (grow_hist _ _ _ _ Hg Hh) as (h' & Hh' & [z ->]).
  exists t, i, (h ++ z), j. split_and!; [by apply (gw_chosen _ _ Hg)|done..|].
  by apply lookup_app_l_Some.
Qed.

Lemma ae_ok_grow p p' req : grow p p' → ae_ok p req → ae_ok p' req.
Proof.
  intros Hg (h & Hh & Hlen & Hes & Hpt & Hev). destruct (grow_hist _ _ _ _ Hg Hh) as (h' & Hh' & [z ->]).
  exists (h ++ z). split_and!; [done|rewrite length_app; lia| | |by eapply evidence_grow].
  - rewrite drop_app_le, take_app_le; [done| |lia]. rewrite length_drop. lia.
  - by rewrite take_app_le by lia.
Qed.

(** ** The relation *)

(** What holds of the protocol and the votes under way. *)
Record core_sim (net : list VoteMsg) p : Prop := MkCoreSim {
  cs_inv : pinv V p;
  cs_zero : ps_hist p 0 = None;
  cs_hist : ∀ t h, ps_hist p t = Some h → contiguous 0 h ∧ ∃ j, elected_by V net t j;
  cs_unique : ∀ v u l l', ps_grants p v u l → ps_grants p v u l' → l = l';
  cs_vreq : ∀ to req, VReq to req ∈ net →
    ∃ l, ps_gleft p (rv_candidate_id req) (rv_term req) l ∧
      key_ok (rv_last_log_index req) (rv_last_log_term req) l;
  cs_vresp : ∀ from to resp, VResp from to resp ∈ net → rvr_vote_granted resp = true →
    ∃ l, ps_gleft p from (rvr_term resp) l ∧ ps_gleft p to (rvr_term resp) l;
}.

(** Node [id] with observed state [o] and reported marks [M]; the terms of
    its log and of its evidence are at most [B]. *)
Record node_sim (net : list VoteMsg) p id (M : list (u64 * u64)) B (o : Obs StagedMem) : Prop :=
    MkNodeSim {
  ns_config : config_ok V id (ob_config o);
  ns_voter : is_voter_role (ob_role o) = true → id ∈ V;
  ns_term : ps_term p id = ob_term o;
  ns_bound : ps_dterm p id ≤ B ∧ B ≤ ob_term o;
  ns_log : view (ob_log o) (ps_log p id);
  ns_store : durable_ok (ob_log o, ob_durable o);
  ns_entries : ∀ e, e ∈ ps_log p id → e_term e ≤ B;
  ns_commit : commit_ok p B (ps_log p id) (ob_commit o);
  ns_applied : ob_applied o ≤ ob_commit o;
  ns_durable : ob_durable o ≤ ob_commit o;
  ns_snap : lg_snapshot_index (ob_log o) ≤ ob_durable o;
  ns_vote : vote_ok p id (ob_hs o);
  ns_staged : ∃ hst, log_hs (ob_log o) = Ok hst ∧ vote_ok p id hst ∧
    current_term hst ≤ ob_term o;
  ns_match : ∀ mt, ob_match o = Some mt →
    ob_role o = Leader ∧
    ∀ v, promised p (ps_aleft p) v (ob_term o) (N.to_nat (match_of mt v));
  ns_lead : ob_role o = Leader →
    ps_hist p (ob_term o) = Some (ps_log p id) ∧ elected_by V net (ob_term o) id ∧
    ps_dterm p id = ob_term o;
  ns_cand : ob_role o = Candidate →
    0 < ob_term o ∧ ps_grants p id (ob_term o) (ps_log p id) ∧
    ∀ v, v ∈ ob_votes o → ∃ resp, VResp v id resp ∈ net ∧ rvr_vote_granted resp = true ∧
      rvr_term resp = ob_term o;
  ns_tenure : ∀ t, is_Some (ps_hist p t) → elected_by V net t id →
    t ≤ ps_dterm p id ∧ (t = ob_term o → ob_role o ≠ Candidate);
  ns_msgs : ∀ to req, (to, req) ∈ ob_msgs o → ae_ok p req;
  ns_vreqs : ∀ k, k ∈ ob_vreqs o →
    vk_cand k = id ∧ ∃ l, ps_grants p id (vk_term k) l ∧ key_ok (vk_index k) (vk_last k) l;
  ns_queue : ∀ e, e ∈ ob_queue o → certified p e;
  ns_marks : ∀ mk, mk ∈ sm_stable (lg_storage (ob_log o)) :: M → mark_ok p id mk;
}.

(** Node [v] is as it was, up to acknowledgements. *)
Record still p p' v : Prop := MkStill {
  st_term : ps_term p' v = ps_term p v;
  st_dterm : ps_dterm p' v = ps_dterm p v;
  st_log : ps_log p' v = ps_log p v;
  st_dlog : ps_dlog p' v = ps_dlog p v;
  st_grants : ∀ u l, ps_grants p' v u l ↔ ps_grants p v u l;
}.

(** Node [v] is as it was. *)
Record same_at p p' v : Prop := MkSameAt {
  sa_term : ps_term p' v = ps_term p v;
  sa_dterm : ps_dterm p' v = ps_dterm p v;
  sa_log : ps_log p' v = ps_log p v;
  sa_dlog : ps_dlog p' v = ps_dlog p v;
  sa_grants : ∀ u l, ps_grants p' v u l ↔ ps_grants p v u l;
  sa_gleft : ∀ u l, ps_gleft p' v u l ↔ ps_gleft p v u l;
  sa_acks : ∀ t m, ps_acks p' v t m ↔ ps_acks p v t m;
}.

(** Only node [id] moved, and only terms it leads have a new log. *)
Record local (net : list VoteMsg) id p p' : Prop := MkLocal {
  lc_grow : grow p p';
  lc_same : ∀ v, v ≠ id → same_at p p' v;
  lc_hist : ∀ t, ps_hist p' t = ps_hist p t ∨ elected_by V net t id;
}.

(** It did so without touching its disk or taking a promise back. *)
Record awake id p p' : Prop := MkAwake {
  aw_dterm : ps_dterm p' id = ps_dterm p id;
  aw_dlog : ps_dlog p' id = ps_dlog p id;
  aw_gleft : ∀ u l, ps_gleft p' id u l ↔ ps_gleft p id u l;
  aw_grants : ∀ u l, ps_grants p id u l → ps_grants p' id u l;
  aw_acks : ∀ t m, ps_acks p id t m → ps_acks p' id t m;
}.

Lemma mark_ok_grow p p' id mk :
  grow p p' → ps_term p' id = ps_term p id → ps_dterm p' id = ps_dterm p id →
  ps_log p' id = ps_log p id → ps_dlog p' id = ps_dlog p id → mark_ok p id mk → mark_ok p' id mk.
Proof.
  intros Hg Ht Hd Hl Hdl [?|(Hle & h & Hh & Hlen & Hk)]; [by left|right].
  destruct (grow_hist _ _ _ _ Hg Hh) as (h' & Hh' & Hp). rewrite Ht, Hd, Hl, Hdl.
  split; [done|]. exists h'. apply prefix_length in Hp as Hpl.
  rewrite (take_grow _ _ _ _ _ _ Hg Hh Hh'), (pe_start _ _ (gw_ext _ _ Hg) _ _ Hh) by lia.
  split_and!; [done|lia|done].
Qed.

Lemma vote_ok_grow p p' id hs :
  grow p p' → (∀ l, ps_grants p' id (current_term hs) l → ps_grants p id (current_term hs) l) →
  vote_ok p id hs → vote_ok p' id hs.
Proof.
  intros Hg Hb Hv l Hl. destruct (Hv l (Hb l Hl)) as [? [?|?]]; (split; [done|]); [by left|right].
  by apply (gw_gleft _ _ Hg).
Qed.

(** A node that did not move. *)
Lemma node_sim_still net p p' id M B o :
  grow p p' → still p p' id →
  (∀ t, elected_by V net t id → ps_hist p' t = ps_hist p t) →
  node_sim net p id M B o → node_sim net p' id M B o.
Proof.
  intros Hg [Ht Hd Hl Hdl Hgr] Hh [].
  split; rewrite ?Ht, ?Hd, ?Hl; try done; eauto using certified_grow, ae_ok_grow.
  - by eapply commit_ok_grow.
  - eapply vote_ok_grow; [done| |done]. intros l. by rewrite Hgr.
  - destruct ns_staged0 as (hst & ? & ? & ?). exists hst. split_and!; [done| |done].
    eapply vote_ok_grow; [done| |done]. intros l. by rewrite Hgr.
  - intros mt Hmt. destruct (ns_match0 mt Hmt) as [? Hk]. split; [done|]. intros v.
    eapply promised_grow; [done| |apply Hk]. intros m. apply (gw_aleft _ _ Hg).
  - intros Hr. destruct (ns_lead0 Hr) as (? & ? & ?). by rewrite Hh.
  - intros Hr. destruct (ns_cand0 Hr) as (? & ? & ?). by rewrite Hgr.
  - intros t Hs He. rewrite (Hh _ He) in Hs. by apply ns_tenure0.
  - intros k Hk. destruct (ns_vreqs0 k Hk) as (? & l & ? & ?). split; [done|]. exists l.
    by rewrite Hgr.
  - intros mk Hmk. eapply mark_ok_grow; eauto.
Qed.

(** Another node moved. *)
Lemma node_sim_other net p p' id w M B o :
  net_agrees net → local net id p p' → w ≠ id → node_sim net p w M B o → node_sim net p' w M B o.
Proof.
  intros Hag [Hg Hsame Hh] Hne Hs. eapply node_sim_still; [done| | |done].
  { by destruct (Hsame w Hne). }
  intros t He. destruct (Hh t) as [?|He']; [done|]. destruct Hne. by eapply elected_unique.
Qed.

(** ** Leader completeness *)

(** What a node knows committed is in the log of a leader as late. *)
Lemma commit_in_leader p B L c T h :
  pinv V p → commit_ok p B L c → B ≤ T → ps_hist p T = Some h →
  take (N.to_nat c) L `prefix_of` h ∧ (N.to_nat c ≤ length L)%nat.
Proof.
  intros Hp [->|(t & i & h' & Hc & Ht & Hh' & Hi & Hpre)] HB Hh; [split; [apply prefix_nil|simpl; lia]|].
  pose proof Hc as [(h2 & Hh2 & Hlen) _]. rewrite Hh' in Hh2. injection Hh2 as <-.
  apply prefix_length in Hpre as Hl. rewrite length_take in Hl.
  assert (take (N.to_nat c) L = take (N.to_nat c) h') as ->.
  { destruct Hpre as [z ->]. by rewrite take_app_le, take_take, Nat.min_id by (rewrite length_take; lia). }
  split; [|lia]. transitivity (take i h'); [by apply take_prefix_le|].
  eapply chosen_in_leader; [done..|lia].
Qed.
End sim.
