(* ===== verification/RaftSimMoves.v ===== *)
(** * Moves of a node are steps of the protocol

    For each move of [RaftMoves]: the protocol takes steps after which the
    relation of [RaftSim] holds again for the node that moved; every other
    node keeps it by [node_sim_other]. *)

From stdpp Require Import base option gmap functions relations list.
From S2P Require Import Prelude RaftState RaftLog RaftLogFacts RaftNode RaftOps RaftRpc.
From S2P Require Import RaftNodeFacts RaftSteps RaftNodeThms RaftDurability RaftDelivery RaftGroup.
From S2P Require Import RaftElection RaftProtocol RaftReplication RaftMoves RaftViews RaftSim.

Open Scope N_scope.

(** A list whose entries are [L]'s from position [a] on. *)
Lemma run_of_log (L es : Log) (a : nat) :
  (a ≤ length L)%nat → (∀ j e, es !! j = Some e → L !! (a + j)%nat = Some e) →
  (a + length es ≤ length L)%nat ∧ es = take (length es) (drop a L).
Proof.
  intros Ha Hl. assert (a + length es ≤ length L)%nat as Hlen.
  { destruct (decide (length es = 0%nat)); [lia|].
    destruct (lookup_lt_is_Some_2 es (pred (length es))) as [e He]; [lia|].
    apply Hl, lookup_lt_Some in He. lia. }
  split; [done|]. apply list_eq. intros j. destruct (decide (j < length es)%nat) as [Hj|Hj].
  - rewrite lookup_take_lt, lookup_drop by done.
    destruct (lookup_lt_is_Some_2 es j Hj) as [e He]. rewrite He. symmetry. by apply Hl.
  - rewrite !(proj2 (lookup_ge_None _ _)); [done|rewrite length_take, length_drop; lia|lia].
Qed.

Section moves.
Context (V : gset u64) (net : list VoteMsg).
Context (HV0 : 0 ∉ V) (HV2 : (2 ≤ size V)%nat) (Hnet : net_ok V net) (Hag : net_agrees net).
Implicit Types (p : PState) (t u v w id : u64) (l L h : Log) (i m : nat) (c B : u64).
Implicit Types (o : Obs StagedMem) (M : list (u64 * u64)) (G : Given).

(** What came from outside is what the network says. *)
Record given_ok p id o G : Prop := MkGivenOk {
  go_grant : ∀ v t, gv_grant G v t →
    ∃ resp, VResp v id resp ∈ net ∧ rvr_vote_granted resp = true ∧ rvr_term resp = t;
  go_ack : ∀ v t (m : u64), gv_ack G v t m → promised V p (ps_aleft p) v t (N.to_nat m);
  go_append : ∀ req, gv_append G req → ae_ok V p req;
  go_applied : ∀ a, gv_applied G a → a ≤ ob_commit o;
  go_durable : ∀ a, gv_durable G a → a ≤ ob_commit o;
  go_batch : ∀ e, gv_batch G e → certified V p e;
}.

(** The protocol follows to [o']. Only a leader's request raises the bound. *)
Definition follows G id M p B o' : Prop :=
  ∃ p' B', core_sim V net p' ∧ local V net id p p' ∧ awake id p p' ∧
    node_sim V net p' id M B' o' ∧ B ≤ B' ∧ ((∀ req, ¬ gv_append G req) → B' = B).

Lemma same_at_refl p v : same_at p p v.
Proof. by split. Qed.

Lemma local_refl id p : local V net id p p.
Proof. split; [apply grow_refl|intros; apply same_at_refl|by left]. Qed.

Lemma awake_refl id p : awake id p p.
Proof. by split. Qed.

Lemma follows_stay G id M p B o' :
  core_sim V net p → node_sim V net p id M B o' → follows G id M p B o'.
Proof.
  intros. exists p, B. split_and!; [done|apply local_refl|apply awake_refl|done|lia|done].
Qed.

Lemma send_follows G id M p B o to req :
  core_sim V net p → node_sim V net p id M B o →
  is_Some (ob_match o) → sends o req →
  follows G id M p B (o {{ ob_msgs ::= λ ms, ms ++ [(to, req)] }}).
Proof.
  intros Hc Hn [mt Hmt] (Ht & Hpt & Hes & Hlc). apply follows_stay; [done|].
  destruct (ns_match _ _ _ _ _ _ _ Hn mt Hmt) as [Hr _].
  destruct (ns_lead _ _ _ _ _ _ _ Hn Hr) as (Hh & _ & _).
  pose proof (ns_log _ _ _ _ _ _ _ Hn) as Hv.
  destruct (view_term_at _ _ _ _ Hv Hpt) as (Hlen & Hptl & _).
  destruct (run_of_log (ps_log p id) (ae_entries req) (N.to_nat (ae_prev_log_index req)))
    as [Hlen' Hrun]; [done| |].
  { intros j e He. apply Hes, (view_entry_Some _ _ _ _ Hv) in He as [_ He].
    rewrite <-He. f_equal. lia. }
  destruct Hn. split; try done. simpl. intros to' req' [?|Heq]%elem_of_app; [by eapply ns_msgs|].
  apply list_elem_of_singleton in Heq as [= -> ->]. exists (ps_log p id).
  rewrite Ht, Hlc. split_and!; [done..|].
  destruct ns_commit as [?|(t & i & h & ? & ? & ? & ? & _)]; [by left|right].
  exists t, i. split_and!; [done| |done]. lia.
Qed.

Lemma vote_follows G id M p B o x :
  core_sim V net p → node_sim V net p id M B o →
  voted_for (ob_hs o) = 0 ∨ voted_for (ob_hs o) = x →
  let hs := MkHardState (ob_term o) x in
  follows G id M p B (o {{ ob_hs := hs; ob_dirty := Some hs }}).
Proof.
  intros Hc [] Hvf hs. apply follows_stay; [done|]. split; try done.
  intros l Hl. destruct (ns_vote l Hl) as [Hne Hor].
  destruct Hvf as [?|Hx]; [done|]. simpl. by rewrite <-Hx.
Qed.

Lemma count_follows G id M p B o v :
  core_sim V net p → given_ok p id o G → node_sim V net p id M B o →
  ob_role o = Candidate → gv_grant G v (ob_term o) →
  follows G id M p B (o {{ ob_votes ::= λ vs, {[v]} ∪ vs }}).
Proof.
  intros Hc HG [] Hr Hv. apply follows_stay; [done|]. split; try done. intros _.
  destruct (ns_cand Hr) as (? & ? & Hvotes). split_and!; [done..|]. simpl.
  intros w [->%elem_of_singleton|Hw]%elem_of_union; [by apply (go_grant _ _ _ _ HG)|by apply Hvotes].
Qed.

Lemma match_follows G id M p B o v (m : u64) mt :
  core_sim V net p → given_ok p id o G → node_sim V net p id M B o →
  ob_match o = Some mt → gv_ack G v (ob_term o) m →
  follows G id M p B (o {{ ob_match := Some (assoc_update v (λ _, m) mt) }}).
Proof.
  intros Hc HG [] Hmt Hv. apply follows_stay; [done|]. split; try done. simpl.
  intros mt' [= <-]. destruct (ns_match mt Hmt) as [? Hk]. split; [done|]. intros w.
  unfold match_of in *. destruct (decide (w = v)) as [->|Hne].
  - rewrite assoc_assoc_update_eq. specialize (Hk v). destruct (assoc v mt); [|done]. simpl.
    by apply (go_ack _ _ _ _ HG).
  - rewrite assoc_assoc_update_ne by done. apply Hk.
Qed.

Lemma applied_follows G id M p B o a :
  core_sim V net p → given_ok p id o G → node_sim V net p id M B o →
  gv_applied G a → follows G id M p B (o {{ ob_applied ::= λ x, N.max x a }}).
Proof.
  intros Hc HG [] Ha. apply follows_stay; [done|]. split; try done. simpl.
  pose proof (go_applied _ _ _ _ HG a Ha). lia.
Qed.

Lemma requeue_follows G id M p B o q :
  core_sim V net p → given_ok p id o G → node_sim V net p id M B o →
  (∀ e, e ∈ q → e ∈ ob_queue o ∨ gv_batch G e) → follows G id M p B (o {{ ob_queue := q }}).
Proof.
  intros Hc HG [] Hq. apply follows_stay; [done|]. split; try done. simpl.
  intros e He. destruct (Hq e He); [by apply ns_queue|by apply (go_batch _ _ _ _ HG)].
Qed.

(** ** Log maintenance *)

Lemma set_log_eq o (f : RaftLog StagedMem → RaftLog StagedMem) (l : RaftLog StagedMem) :
  f (ob_log o) = l → o {{ ob_log ::= f }} = o {{ ob_log := l }}.
Proof. by intros <-. Qed.

Lemma node_sim_relog id M p B o (l : RaftLog StagedMem) d :
  view l (ps_log p id) → durable_ok (l, d) → log_hs l = log_hs (ob_log o) →
  sm_stable (lg_storage l) = sm_stable (lg_storage (ob_log o)) →
  d ≤ ob_commit o → lg_snapshot_index l ≤ d →
  node_sim V net p id M B o → node_sim V net p id M B (o {{ ob_log := l; ob_durable := d }}).
Proof.
  intros Hv Hd Hhs Hst Hdc Hsd []. rewrite <-Hhs in ns_staged. rewrite <-Hst in ns_marks.
  by split.
Qed.

Lemma compact_follows G id M p B o (a t : u64) :
  core_sim V net p → node_sim V net p id M B o →
  lg_snapshot_index (ob_log o) < a → a ≤ ob_durable o → a ≤ ob_applied o →
  term_at (ob_log o) a = Some t →
  follows G id M p B (o {{ ob_log ::= λ lg, (apply_snapshot a t lg).1 }}).
Proof.
  intros Hc Hn Hs Hd _ Ht. apply follows_stay; [done|].
  destruct (staged_snapshot_ok a t (ob_log o)) as [l Hl].
  pose proof (log_step_durable _ _ (step_snapshot a t (ob_log o) (ob_durable o))
    (ns_store _ _ _ _ _ _ _ Hn)) as Hdur.
  pose proof (apply_snapshot_hs a t (ob_log o)) as Hhs.
  pose proof (view_compact _ _ _ _ _ (ns_log _ _ _ _ _ _ _ Hn) Hs Ht Hl) as Hv.
  assert (sm_stable (lg_storage l) = sm_stable (lg_storage (ob_log o)) ∧ lg_snapshot_index l = a)
    as [Hst Hsi].
  { revert Hl. unfold apply_snapshot. case N.leb_spec; [lia|]. by intros _ [= <-]. }
  rewrite Hl in Hdur, Hhs.
  rewrite (set_log_eq o (λ lg, (apply_snapshot a t lg).1) l) by (by rewrite Hl).
  apply (node_sim_relog id M p B o l (ob_durable o)); try done; [apply (ns_durable _ _ _ _ _ _ _ Hn)|lia].
Qed.

Lemma durable_follows G id M p B o a s r :
  core_sim V net p → given_ok p id o G → node_sim V net p id M B o → gv_durable G a →
  ob_durable o < a → save_applied_index a (lg_storage (ob_log o)) = (s, r) →
  follows G id M p B
    (o {{ ob_log -> lg_storage := s; ob_durable := if is_ok r then a else ob_durable o }}).
Proof.
  intros Hc HG Hn Ha Hlt Hst. apply follows_stay; [done|].
  pose proof (log_step_durable _ _ (step_applied a s r (ob_log o) (ob_durable o) Hst)
    (ns_store _ _ _ _ _ _ _ Hn)) as Hdur.
  pose proof (go_durable _ _ _ _ HG a Ha) as Hle. pose proof (ns_snap _ _ _ _ _ _ _ Hn) as Hsn.
  injection Hst as <- <-. apply (node_sim_relog id M p B o); try done.
  - apply (ns_log _ _ _ _ _ _ _ Hn).
  - simpl. lia.
Qed.

(** ** Terms *)

(** A node past the terms of its marks, after a higher term. *)
Lemma mark_ok_raise p id mk t :
  ps_dterm p id ≤ ps_term p id → ps_term p id < t →
  mark_ok p id mk → mark_ok (p {{ ps_term ::= <[id := t]> }}) id mk.
Proof.
  intros Hd Ht [?|(Hle & h & Hh & Hlen & _)]; [by left|right]. split; [done|].
  exists h. split_and!; [done..|]. simpl. rewrite fn_lookup_insert. lia.
Qed.

Lemma raise_grow p id t :
  pinv V p → ps_term p id ≤ t → grow V p (p {{ ps_term ::= <[id := t]> }}).
Proof. intros Hp Ht. apply pstep_grow; [done|]. by apply p_raise. Qed.

(** No grant is ahead of the term. *)
Lemma no_grant p id t l : pinv V p → ps_term p id < t → ¬ ps_grants p id t l.
Proof. intros Hp Ht Hg. pose proof (pi_grants _ _ Hp _ _ _ Hg) as [? _]. lia. Qed.

Lemma raise_core p id t :
  core_sim V net p → ps_term p id ≤ t → core_sim V net (p {{ ps_term ::= <[id := t]> }}).
Proof. intros [] Ht. split; try done. by apply raise_ok. Qed.

Lemma raise_local p id t :
  pinv V p → ps_term p id ≤ t → local V net id p (p {{ ps_term ::= <[id := t]> }}).
Proof.
  intros Hp Ht. split; [by apply raise_grow| |by left]. intros v Hv. split; try done.
  simpl. by rewrite fn_lookup_insert_ne.
Qed.

Lemma follow_follows G id M p B o t :
  core_sim V net p → node_sim V net p id M B o → ob_term o ≤ t →
  follows G id M p B (down_to t o).
Proof.
  intros Hc Hn Ht. pose proof (cs_inv _ _ _ Hc) as Hp. pose proof (ns_term _ _ _ _ _ _ _ Hn) as Hpt.
  pose proof (pi_terms _ _ Hp id) as Hdt.
  destruct (decide (t = ob_term o)) as [->|Hne].
  { apply follows_stay; [done|]. unfold down_to. rewrite N.ltb_irrefl. destruct Hn.
    split; simpl; try done; rewrite ?is_voter_demote; try done.
    - by destruct (ob_role o).
    - by destruct (ob_role o).
    - intros t' Hs He. destruct (ns_tenure t' Hs He). split; [done|]. by destruct (ob_role o). }
  assert (ps_term p id < t) as Hlt by lia. set (p' := p {{ ps_term ::= <[id := t]> }}).
  exists p', B. split_and!; [apply raise_core; [done|lia]|apply raise_local; [done|lia]|done| |lia|done].
  assert (grow V p p') as Hg by (apply raise_grow; [done|lia]).
  unfold down_to. rewrite (proj2 (N.ltb_lt _ _)) by lia. destruct Hn.
  split; unfold p' in *; simpl; rewrite ?is_voter_demote, ?fn_lookup_insert;
    eauto using certified_grow, ae_ok_grow; try done.
  - unfold ob_term in *. simpl. lia.
  - intros l Hl. by destruct (no_grant p id t l).
  - destruct ns_staged as (hst & ? & ? & ?). exists hst. split_and!; [done|done|].
    unfold ob_term in *. simpl. lia.
  - by destruct (ob_role o).
  - by destruct (ob_role o).
  - intros t' Hs He. destruct (ns_tenure t' Hs He). split; [done|]. by destruct (ob_role o).
  - intros mk Hmk. apply mark_ok_raise; [done..|]. by apply ns_marks.
Qed.

(** ** Votes *)

Lemma local_trans id p1 p2 p3 :
  local V net id p1 p2 → local V net id p2 p3 → local V net id p1 p3.
Proof.
  intros [Hg Hs Hh] [Hg' Hs' Hh']. split; [by eapply grow_trans| |].
  - intros v Hv. destruct (Hs v Hv), (Hs' v Hv). split; try congruence; intros; naive_solver.
  - intros t. destruct (Hh' t) as [->|?]; [|by right]. apply Hh.
Qed.

Lemma awake_trans id p1 p2 p3 : awake id p1 p2 → awake id p2 p3 → awake id p1 p3.
Proof. intros [] []. split; try congruence; intros; naive_solver. Qed.

Lemma grant_local p id u l :
  pinv V p → ps_term p id = u → coherent (ps_hist p) l → (∀ e, e ∈ l → e_term e < u) →
  up_to_date l (ps_log p id) → local V net id p (granted p id u l).
Proof.
  intros Hp Hu Hc Hlt Hup. split; [by apply pstep_grow; [|apply p_grant]| |by left].
  intros v Hv. split; try done. simpl. intros u' l'. naive_solver.
Qed.

Lemma grant_core p id u l :
  core_sim V net p → ps_term p id = u → coherent (ps_hist p) l → (∀ e, e ∈ l → e_term e < u) →
  up_to_date l (ps_log p id) → (∀ l', ps_grants p id u l' → l' = l) →
  core_sim V net (granted p id u l).
Proof.
  intros [] Hu Hc Hlt Hup Hun. split; try done; [by apply grant_ok|]. simpl.
  intros v u' l1 l2 [H1|(-> & -> & ->)] [H2|(? & ? & ?)]; subst; [by eapply cs_unique| | |done].
  - by apply Hun.
  - symmetry. by apply Hun.
Qed.

Lemma grant_awake p id u l : awake id p (granted p id u l).
Proof. split; try done. intros; by left. Qed.

(** Granting to oneself, in a term not granted yet. *)
Lemma self_grant p id :
  core_sim V net p → (∀ l, ¬ ps_grants p id (ps_term p id) l) →
  (∀ e, e ∈ ps_log p id → e_term e < ps_term p id) →
  let p' := granted p id (ps_term p id) (ps_log p id) in
  core_sim V net p' ∧ local V net id p p' ∧ awake id p p'.
Proof.
  intros Hc Hno Hlt p'. pose proof (cs_inv _ _ _ Hc) as Hp.
  destruct (pi_log _ _ Hp id) as [Hco _].
  assert (up_to_date (ps_log p id) (ps_log p id)) by (right; split; [done|lia]).
  split_and!; [|by apply grant_local|apply grant_awake].
  apply grant_core; try done. intros l Hl. by destruct (Hno l).
Qed.

Lemma campaign_follows G id M p B o ps :
  core_sim V net p → node_sim V net p id M B o →
  ob_role o = Follower ∨ ob_role o = Candidate →
  let hs := MkHardState (ob_term o + 1) (node_id (ob_config o)) in
  follows G id M p B (o {{ ob_role := Candidate; ob_hs := hs; ob_votes := ∅; ob_dirty := Some hs;
    ob_vreqs ::= λ ks, ks ++ (campaign_key o <$> ps) }}).
Proof.
  intros Hc Hn Hr hs. pose proof (cs_inv _ _ _ Hc) as Hp. pose proof (ns_term _ _ _ _ _ _ _ Hn) as Hpt.
  pose proof (pi_terms _ _ Hp id) as Hdt. set (t := ob_term o + 1) in *.
  assert (ps_term p id < t) as Hlt by lia.
  set (p1 := p {{ ps_term ::= <[id := t]> }}).
  assert (ps_term p1 id = t) as Ht1 by (unfold p1; simpl; by rewrite fn_lookup_insert).
  assert (∀ l, ¬ ps_grants p1 id t l) as Hno1 by (intros l; by apply (no_grant p)).
  destruct (self_grant p1 id) as (Hc2 & Hl2 & Ha2).
  { apply raise_core; [done|lia]. }
  { by rewrite Ht1. }
  { intros e He. rewrite Ht1. destruct (pi_log _ _ Hp id) as [_ Hle]. specialize (Hle e He). lia. }
  rewrite Ht1 in *. set (p2 := granted p1 id t (ps_log p1 id)) in *.
  assert (local V net id p p2) as Hl by (apply (local_trans id p p1); [apply raise_local; [done|lia]|done]).
  assert (ps_log p2 id = ps_log p id) as Hlog by done.
  assert (ps_term p2 id = t) as Ht2 by done.
  exists p2, B. split_and!; [done|done|by apply (awake_trans id p p1)| |lia|done].
  pose proof (lc_grow _ _ _ _ _ Hl) as Hg. pose proof Hn as [].
  assert (∀ mk, mk ∈ sm_stable (lg_storage (ob_log o)) :: M → mark_ok p2 id mk) as Hmk.
  { intros mk Hmk. eapply (mark_ok_grow V p1); try done; [apply Hl2|].
    apply mark_ok_raise; [done..|]. by apply ns_marks. }
  destruct ns_config as (Hid & Hid0 & ?).
  split; rewrite ?Hlog, ?Ht2; eauto using certified_grow, ae_ok_grow; try done.
  - intros _. apply ns_voter. by destruct Hr as [-> | ->].
  - split; [by apply ns_bound|]. unfold ob_term in *. simpl. lia.
  - intros l _. simpl. rewrite Hid. by auto.
  - destruct ns_staged as (hst & ? & Hv & Hle). exists hst. split_and!; [done| |].
    + eapply vote_ok_grow; [done| |done]. intros l [?|(_ & He & _)]; [done|lia].
    + unfold ob_term in *. simpl. lia.
  - simpl. intros mt Hmt. destruct (ns_match mt Hmt) as [Hx _]. rewrite Hx in Hr. by destruct Hr.
  - intros _. split_and!; [unfold ob_term; simpl; lia|by right|]. intros v Hv.
    by apply elem_of_empty in Hv.
  - intros t' Hs He. destruct (ns_tenure t' Hs He). split; [done|]. unfold ob_term; simpl. lia.
  - simpl. intros k [Hk|Hk]%elem_of_app.
    + destruct (ns_vreqs k Hk) as (? & l & ? & ?). split; [done|]. exists l. split; [by left|done].
    + apply list_elem_of_fmap in Hk as (q & -> & _). split; [done|]. exists (ps_log p id).
      split; [by right|]. simpl. split; [by apply view_last_index|by apply view_last_term].
Qed.

(** ** Leading *)

Lemma follows_trans G id M p B o1 o2 :
  follows G id M p B o1 →
  (∀ p1 B1, grow V p p1 → core_sim V net p1 → node_sim V net p1 id M B1 o1 →
    follows G id M p1 B1 o2) →
  follows G id M p B o2.
Proof.
  intros (p1 & B1 & Hc1 & Hl1 & Ha1 & Hn1 & HB1 & He1) Hnext.
  destruct (Hnext p1 B1 (lc_grow _ _ _ _ _ Hl1) Hc1 Hn1) as (p2 & B2 & Hc2 & Hl2 & Ha2 & Hn2 & HB2 & He2).
  exists p2, B2. split_and!; [done|by eapply local_trans|by eapply awake_trans|done|lia|].
  intros Hno. rewrite He2, He1; done.
Qed.

(** A claim in the network is a durable grant to the candidate's log. *)
Lemma claim_grant p v t id l :
  core_sim V net p → claims net (MkClaim v t id) → ps_grants p id t l →
  ps_gleft p v t l ∧ ps_gleft p id t l.
Proof.
  intros Hc (x & Hx & Hcl) Hl. pose proof (cs_inv _ _ _ Hc) as Hp.
  assert (∃ l', ps_gleft p v t l' ∧ ps_gleft p id t l') as (l' & Hv & Hid).
  { destruct x as [to req|from to resp]; simpl in Hcl.
    - simplify_eq. destruct (cs_vreq _ _ _ Hc _ _ Hx) as (l' & ? & _). by exists l'.
    - destruct (rvr_vote_granted resp) eqn:Hg; [|done]. simplify_eq. by apply (cs_vresp _ _ _ Hc). }
  assert (l' = l) as ->; [|done].
  eapply (cs_unique _ _ _ Hc); [|done]. by apply (pi_gleft _ _ Hp).
Qed.

Lemma elect_follows G id M p B o mt :
  core_sim V net p → node_sim V net p id M B o → ob_role o = Candidate →
  quorum (ob_config o) ≤ N.of_nat (size (ob_votes o)) + 1 → (∀ v, match_of mt v = 0) →
  follows G id M p B (o {{ ob_role := Leader; ob_match := Some mt }}).
Proof.
  intros Hc Hn Hr Hq Hmt. pose proof (cs_inv _ _ _ Hc) as Hp. pose proof Hn as [].
  destruct (ns_cand Hr) as (Hpos & Hself & Hvotes). set (T := ob_term o) in *. set (L := ps_log p id) in *.
  assert (id ∈ V) as HidV by (apply ns_voter; by rewrite Hr).
  assert (elected_by V net T id) as Hel by (by eapply votes_elect).
  assert (ps_hist p T = None) as Hnone.
  { apply eq_None_not_Some. intros Hs. destruct Hs as [h Hs].
    destruct (cs_hist _ _ _ Hc _ _ Hs) as (_ & j & Hj).
    by destruct (ns_tenure T ltac:(by eexists) Hel) as [_ []]. }
  pose proof Hel as [_ [HV|(Q & HQ & Hsize & Hcl)]].
  { rewrite HV, size_singleton in HV2. lia. }
  assert (∀ v, v ∈ Q → ps_gleft p v T L ∧ ps_gleft p id T L) as Hgl.
  { intros v Hv. apply claim_grant; auto. }
  destruct (majority_inhabited V Q) as [v0 Hv0]; [done|].
  assert (ps_dterm p id = T) as Hdt.
  { destruct (pi_gleft _ _ Hp _ _ _ (proj2 (Hgl v0 Hv0))) as [_ ?].
    pose proof (pi_terms _ _ Hp id). lia. }
  set (p1 := p {{ ps_hist ::= <[T := Some L]>; ps_start ::= <[T := L]> }}).
  assert (pstep V p p1) as Hstep by (apply (p_win V p Q); [done..|intros v Hv; by apply Hgl]).
  assert (grow V p p1) as Hg by (by apply pstep_grow).
  assert (∀ t h, ps_hist p t = Some h → ps_hist p1 t = Some h ∧ ps_start p1 t = ps_start p t) as Hold.
  { intros t h Ht. unfold p1. simpl. rewrite !fn_lookup_insert_ne; [done|congruence..]. }
  exists p1, B. split_and!; [| | | |lia|done].
  - split; [by eapply pstep_ok| | |apply Hc..].
    + unfold p1. simpl. rewrite fn_lookup_insert_ne by lia. apply Hc.
    + intros t h. unfold p1. simpl. destruct (decide (t = T)) as [->|].
      * rewrite fn_lookup_insert. intros [= <-]. split; [apply ns_log|by exists id].
      * rewrite fn_lookup_insert_ne by done. apply (cs_hist _ _ _ Hc).
  - split; [done|by split|]. intros t. unfold p1. simpl. destruct (decide (t = T)) as [->|].
    + by right.
    + left. by rewrite fn_lookup_insert_ne.
  - by split.
  - split; eauto using certified_grow, ae_ok_grow; try done.
    + by eapply commit_ok_grow.
    + intros mt' [= <-]. split; [done|]. intros v. rewrite Hmt. split.
      * exists L. unfold p1. simpl. rewrite fn_lookup_insert. split; [done|apply Nat.le_0_l].
      * intros i (h & _ & Hi) Him. exfalso. simpl in Him. lia.
    + intros _. split_and!; try done. unfold p1. simpl. apply fn_lookup_insert.
    + intros t Hs He. split; [|done]. change (ps_dterm p1 id) with (ps_dterm p id).
      destruct (decide (t = T)) as [->|]; [lia|].
      unfold p1 in Hs. simpl in Hs. rewrite fn_lookup_insert_ne in Hs by done. by apply ns_tenure.
    + intros mk Hmk. destruct (ns_marks mk Hmk) as [?|(Hle & h & Hh & Hlen & _)]; [by left|right].
      split; [done|]. exists h. rewrite (proj1 (Hold _ _ Hh)). split_and!; [done..|].
      intros Heq. change (ps_term p1 id) with (ps_term p id) in Heq. congruence.
Qed.

Lemma append_local p id T e :
  core_sim V net p → ps_term p id = T → ps_hist p T = Some (ps_log p id) →
  elected_by V net T id → e_term e = T → e_index e = N.of_nat (length (ps_log p id)) + 1 →
  core_sim V net (appended p id T e) ∧ local V net id p (appended p id T e) ∧
  awake id p (appended p id T e).
Proof.
  intros Hc Ht Hh Hel He Hi. pose proof (cs_inv _ _ _ Hc) as Hp.
  assert (pstep V p (appended p id T e)) as Hstep by (by apply p_lead). split_and!.
  - split; [by eapply pstep_ok| | |apply Hc..]; simpl.
    + assert (T ≠ 0) by (intros ->; rewrite (cs_zero _ _ _ Hc) in Hh; done).
      rewrite fn_lookup_insert_ne by done. apply Hc.
    + intros t h. destruct (decide (t = T)) as [->|].
      * rewrite fn_lookup_insert. intros [= <-]. split; [|by exists id].
        apply contiguous_app. split; [by eapply (cs_hist _ _ _ Hc)|]. apply contiguous_singleton. lia.
      * rewrite fn_lookup_insert_ne by done. apply (cs_hist _ _ _ Hc).
  - split; [by apply pstep_grow| |]; simpl.
    + intros v Hv. split; try done. simpl. by rewrite fn_lookup_insert_ne.
    + intros t. destruct (decide (t = T)) as [->|]; [by right|left]. by rewrite fn_lookup_insert_ne.
  - by split.
Qed.

Lemma mark_ok_append p id T e mk :
  grow V p (appended p id T e) → mark_ok p id mk → mark_ok (appended p id T e) id mk.
Proof.
  intros Hg [?|(Hle & h & Hh & Hlen & Hk)]; [by left|right]. split; [done|].
  destruct (grow_hist _ _ _ _ _ Hg Hh) as (h' & Hh' & Hpre). exists h'.
  rewrite (take_grow _ _ _ _ _ _ _ Hg Hh Hh') by lia. apply prefix_length in Hpre.
  split_and!; [done|lia|]. simpl. intros Ht Hs. destruct (Hk Ht Hs) as [? ?]. split; [|done].
  rewrite fn_lookup_insert. by apply prefix_app_r.
Qed.

Lemma propose_follows G id M p B o e :
  core_sim V net p → node_sim V net p id M B o → ob_role o = Leader →
  e_term e = ob_term o → e_index e = last_index (ob_log o) + 1 →
  follows G id M p B (o {{ ob_log ::= λ lg, (log_append e lg).1 }}).
Proof.
  intros Hc Hn Hr Het Hei. pose proof Hn as []. destruct (ns_lead Hr) as (Hh & Hel & Hdt).
  set (T := ob_term o) in *.
  pose proof (view_last_index _ _ ns_log) as Hli.
  destruct (append_local p id T e) as (Hc' & Hl' & Ha'); [done..|lia|].
  pose proof (lc_grow _ _ _ _ _ Hl') as Hg. set (p' := appended p id T e) in *.
  destruct (staged_append_ok e (ob_log o)) as [l Hl].
  pose proof (view_append _ _ _ _ ns_log Hei Hl) as Hv.
  pose proof (log_step_durable _ _ (step_append e _ (ob_durable o) Hei) ns_store) as Hdur.
  pose proof (log_append_hs e (ob_log o)) as Hhs.
  assert (sm_stable (lg_storage l) = sm_stable (lg_storage (ob_log o)) ∧
    lg_snapshot_index l = lg_snapshot_index (ob_log o)) as [Hst Hsi].
  { injection Hl as <-. done. }
  assert (ps_log p' id = ps_log p id ++ [e]) as Hlog by (unfold p'; simpl; by rewrite fn_lookup_insert).
  exists p', B. split_and!; [done..| |lia|done].
  rewrite Hl in Hdur, Hhs.
  rewrite (set_log_eq o (λ lg, (log_append e lg).1) l) by (by rewrite Hl).
  clear Hl. rewrite <-Hst in ns_marks. rewrite <-Hhs in ns_staged.
  split; rewrite ?Hlog; eauto using certified_grow, ae_ok_grow; try done.
  - intros x [?|?%list_elem_of_singleton]%elem_of_app; [by apply ns_entries|]. subst. lia.
  - eapply commit_ok_grow; [done..| |done]. by apply prefix_app_r.
  - simpl. lia.
  - intros mt Hmt. destruct (ns_match mt Hmt) as [? Hk]. split; [done|]. intros v.
    by eapply promised_grow; [..|apply Hk].
  - intros _. split_and!; [|done..]. apply fn_lookup_insert.
  - intros Hr'. change (ob_role o = Candidate) in Hr'. congruence.
  - intros t Hs He. split; [|intros _; change (ob_role o ≠ Candidate); congruence].
    change (ps_dterm p' id) with (ps_dterm p id). destruct (decide (t = T)) as [->|]; [lia|].
    unfold p' in Hs. simpl in Hs. rewrite fn_lookup_insert_ne in Hs by done. by apply ns_tenure.
  - intros mk Hmk. apply mark_ok_append; [done|]. by apply ns_marks.
Qed.

Lemma win_follows G id M p B o mt :
  core_sim V net p → node_sim V net p id M B o → ob_role o = Candidate →
  quorum (ob_config o) ≤ N.of_nat (size (ob_votes o)) + 1 → (∀ v, match_of mt v = 0) →
  let noop := MkLogEntry (ob_term o) (last_index (ob_log o) + 1) [] in
  follows G id M p B
    (o {{ ob_role := Leader; ob_match := Some mt; ob_log ::= λ lg, (log_append noop lg).1 }}).
Proof.
  intros Hc Hn Hr Hq Hmt noop. eapply follows_trans; [by apply elect_follows|].
  intros p1 B1 _ Hc1 Hn1.
  by apply (propose_follows G id M p1 B1 (o {{ ob_role := Leader; ob_match := Some mt }}) noop).
Qed.

(** ** Durable prefixes *)

(** What the node may call durable of its current leader's own entries, is. *)
Lemma stable_durable id M p B o h i :
  core_sim V net p → node_sim V net p id M B o → ps_hist p (ob_term o) = Some h →
  own_key p (ob_term o) i → take i h `prefix_of` ps_log p id →
  lg_snapshot_index (ob_log o) < N.of_nat i → N.of_nat i ≤ stable_index (ob_log o) →
  take i h `prefix_of` ps_dlog p id.
Proof.
  intros Hc Hn Hh Hi Hpre Hs Hst. pose proof (cs_inv _ _ _ Hc) as Hp. pose proof Hn as [].
  destruct (own_key_entry _ _ _ _ _ Hp Hi Hh) as (e & He & Het & Hpos). revert Hst.
  unfold stable_index. simpl. destruct (sm_stable _) as [idx s] eqn:Hmk.
  case_match eqn:Hb; [|lia]. intros Hle.
  apply andb_true_iff in Hb as [_ Hb%bool_decide_eq_true].
  destruct (view_term_at _ _ _ _ ns_log Hb) as (Hlen & Hs' & _).
  destruct (pi_log _ _ Hp id) as [Hco Hterms].
  assert (e ∈ take (N.to_nat idx) (ps_log p id)) as Hin.
  { apply prefix_length in Hpre as Hpl. rewrite length_take in Hpl.
    apply (prefix_elem (take i h)).
    2: { apply (list_elem_of_lookup_2 _ (pred i)). by rewrite lookup_take_lt by lia. }
    eapply prefix_by_length; [exact Hpre|apply prefix_take|]. rewrite !length_take. lia. }
  assert (e_term e ≤ s) as Hge.
  { rewrite Hs'. eapply log_term_elem; [|by eapply coherent_prefix; [apply prefix_take|]|done].
    intros ? ? Hx. by apply (pi_hist _ _ Hp). }
  assert (s ≤ ob_term o) as Hle'.
  { rewrite Hs', <-ns_term. destruct (log_term_in (take (N.to_nat idx) (ps_log p id))) as (x & Hx & <-).
    - intros Hz. rewrite Hz in Hin. by apply elem_of_nil in Hin.
    - apply Hterms. eapply prefix_elem; [apply prefix_take|done]. }
  assert (s = ob_term o) as Heq by lia.
  destruct (ns_marks (idx, s)) as [Hz|(_ & h' & Hh' & Hlen' & Hk)]; simpl in *.
  { by left. }
  { rewrite <-Heq, Hz, (cs_zero _ _ _ Hc) in Hh. done. }
  rewrite Heq, Hh in Hh'. injection Hh' as <-. destruct Hi as (h2 & Hh2 & Hi2).
  destruct Hk as [_ Hk]; [congruence|rewrite Heq; lia|].
  etrans; [|exact Hk]. apply take_prefix_le. lia.
Qed.

(** ** Commitment *)

Lemma ack_now_local p id t h m :
  core_sim V net p → ps_term p id = t → ps_dterm p id = t → ps_hist p t = Some h →
  (m ≤ length h)%nat →
  ((length (ps_start p t) < m)%nat →
    take m h `prefix_of` ps_log p id ∧ take m h `prefix_of` ps_dlog p id) →
  core_sim V net (acked p id t m) ∧ local V net id p (acked p id t m) ∧
  awake id p (acked p id t m) ∧ still p (acked p id t m) id ∧ ps_aleft (acked p id t m) id t m.
Proof.
  intros Hc Ht Hd Hh Hm Hk. pose proof (cs_inv _ _ _ Hc) as Hp.
  assert (pstep V p (acked p id t m)) as Hstep by (by eapply p_ack_now). split_and!.
  - split; [by eapply pstep_ok|apply Hc..].
  - split; [by apply pstep_grow| |by left]. intros v Hv. split; try done. simpl. naive_solver.
  - split; try done. simpl. auto.
  - done.
  - simpl. by right.
Qed.

Lemma forall_or {A} (P : Prop) (Q : A → Prop) (xs : list A) :
  (∀ x, x ∈ xs → P ∨ Q x) → P ∨ ∀ x, x ∈ xs → Q x.
Proof.
  induction xs as [|x xs IH]; intros Hx.
  - right. intros x Hz. by apply elem_of_nil in Hz.
  - destruct (Hx x) as [?|Hq]; [by left|by left|].
    destruct IH as [?|Hall]; [intros y Hy; apply Hx; by right|by left|right].
    intros y [->|Hy]%elem_of_cons; [done|by apply Hall].
Qed.

(** A quorum of the configuration's peers, with the node itself or not. *)
Lemma quorum_majority id config (f : u64 → bool) (self : bool) :
  config_ok V id config → id ∈ V →
  quorum config ≤ (if self then 1 else 0) + N.of_nat (count f (peers config)) →
  ∃ Q, majority V Q ∧ ∀ v, v ∈ Q → (self = true ∧ v = id) ∨ v ∈ peers config ∧ f v = true.
Proof.
  intros Hcfg Hid Hq. pose proof (config_size V id config Hcfg Hid) as HV.
  destruct Hcfg as (_ & _ & Hnd & Hpeers & _).
  set (xs := List.filter f (peers config)) in *.
  assert (∀ v, v ∈ xs ↔ v ∈ peers config ∧ f v = true) as Hxs.
  { intros v. unfold xs. by rewrite !list_elem_of_In, filter_In. }
  assert (NoDup xs) as Hndx by (unfold xs; apply NoDup_ListNoDup, List.NoDup_filter, NoDup_ListNoDup, Hnd).
  exists (list_to_set xs ∪ (if self then {[id]} else ∅)). split; [split|].
  - intros v [Hv|Hv]%elem_of_union.
    + apply elem_of_list_to_set, Hxs in Hv as [Hv _]. by apply Hpeers.
    + destruct self; [by apply elem_of_singleton in Hv as ->|by apply elem_of_empty in Hv].
  - assert (list_to_set xs ## (if self then {[id]} else ∅ : gset u64)) as Hdis.
    { intros v Hv Hv'. apply elem_of_list_to_set, Hxs in Hv as [Hv _]. apply Hpeers in Hv as [_ Hv].
      destruct self; [by apply elem_of_singleton in Hv'|by apply elem_of_empty in Hv']. }
    rewrite size_union, size_list_to_set by done.
    pose proof (half_bounds (cluster_size config)). unfold quorum, cluster_size in *.
    change (count f (peers config)) with (length xs) in Hq.
    destruct self; [rewrite size_singleton|rewrite size_empty]; lia.
  - intros v [Hv|Hv]%elem_of_union.
    + apply elem_of_list_to_set, Hxs in Hv. by right.
    + destruct self; [by apply elem_of_singleton in Hv as ->; left|by apply elem_of_empty in Hv].
Qed.

(** Entries a node has up to a chosen index are certified. *)
Lemma held_certified p t i h (l : RaftLog StagedMem) L (c : u64) es :
  chosen V p t i → ps_hist p t = Some h → (N.to_nat c ≤ i)%nat → view l L →
  take (N.to_nat c) h `prefix_of` L → held_to l c es → ∀ e, e ∈ es → certified V p e.
Proof.
  intros Hc Hh Hi Hv Hpre Hes e He. destruct (Hes e He) as (a & Ha & Hent).
  apply (view_entry_Some _ _ _ _ Hv) in Hent as [Hs Hent].
  pose proof Hc as [(h' & Hh' & Hlen) _]. rewrite Hh in Hh'. injection Hh' as <-.
  exists t, i, h, (N.to_nat (a - 1)). split_and!; [done..|lia|].
  destruct Hpre as [z ->]. rewrite lookup_app_l in Hent by (rewrite length_take; lia).
  by rewrite lookup_take_lt in Hent by lia.
Qed.

(** The node's own acknowledgement, when it counts itself. *)
Lemma self_ack id M p B o (c : u64) :
  core_sim V net p → node_sim V net p id M B o → ob_role o = Leader →
  own_key p (ob_term o) (N.to_nat c) → lg_snapshot_index (ob_log o) < c →
  ∃ p', core_sim V net p' ∧ local V net id p p' ∧ awake id p p' ∧ still p p' id ∧
    ps_hist p' = ps_hist p ∧
    (c ≤ stable_index (ob_log o) → ps_aleft p' id (ob_term o) (N.to_nat c)).
Proof.
  intros Hc Hn Hr Hi Hs. destruct (decide (c ≤ stable_index (ob_log o))) as [Hst|Hst].
  2: { exists p. split_and!; [done|apply local_refl|apply awake_refl|done..]. }
  destruct (ns_lead _ _ _ _ _ _ _ Hn Hr) as (Hh & _ & Hd).
  assert (take (N.to_nat c) (ps_log p id) `prefix_of` ps_dlog p id) as Hdur.
  { eapply stable_durable; [done..|apply prefix_take|lia|lia]. }
  destruct Hi as (h & Hh' & Hi). rewrite Hh in Hh'. injection Hh' as <-.
  destruct (ack_now_local p id (ob_term o) (ps_log p id) (N.to_nat c)) as (? & ? & ? & ? & ?);
    [done|apply (ns_term _ _ _ _ _ _ _ Hn)|done..|lia| |].
  { intros _. split; [apply prefix_take|done]. }
  eexists. split_and!; [done..|]. auto.
Qed.

Lemma commit_follows G id M p B o mt (c : u64) es :
  core_sim V net p → node_sim V net p id M B o → ob_match o = Some mt → ob_commit o < c →
  quorum_holds o mt c → held_to (ob_log o) c es →
  follows G id M p B (o {{ ob_commit := c; ob_queue ::= λ q, q ++ es }}).
Proof.
  intros Hc Hn Hmt Hlt [Hta Hq] Hes. pose proof (cs_inv _ _ _ Hc) as Hp. pose proof Hn as [].
  destruct (ns_match mt Hmt) as [Hr Hprom]. destruct (ns_lead Hr) as (Hh & Hel & Hd).
  set (T := ob_term o) in *. set (L := ps_log p id) in *.
  destruct (view_term_at _ _ _ _ ns_log Hta) as (Hlen & HT & _).
  assert (own_key p T (N.to_nat c)) as Hi.
  { destruct (lookup_lt_is_Some_2 L (pred (N.to_nat c))) as [e He]; [lia|].
    eapply own_key_at; [done|done|exact He|lia|]. rewrite HT, <-(log_term_take _ _ _ He).
    do 2 f_equal. lia. }
  destruct (self_ack id M p B o c) as (p1 & Hc1 & Hl1 & Ha1 & Hs1 & Hh1 & Hself); [done..|lia|].
  pose proof (lc_grow _ _ _ _ _ Hl1) as Hg.
  destruct (quorum_majority id (ob_config o) (λ v, c <=? match_of mt v)
    (c <=? stable_index (ob_log o)) ns_config) as (Q & HQ & Hmem); [apply ns_voter; by rewrite Hr|done|].
  assert (chosen V p1 T (N.to_nat c)) as Hch.
  { destruct (forall_or (chosen V p1 T (N.to_nat c))
      (λ v, ∃ m, (N.to_nat c ≤ m)%nat ∧ ps_aleft p1 v T m) (elements Q)) as [?|Hall]; [|done|].
    - intros v Hv%elem_of_elements. destruct (Hmem v Hv) as [[Hst%N.leb_le ->]|[_ Hv']].
      + right. exists (N.to_nat c). auto.
      + apply N.leb_le in Hv'. destruct (Hprom v) as [_ Hk].
        destruct (Hk (N.to_nat c) Hi ltac:(lia)) as [?|(m & ? & ?)].
        * left. by apply (gw_chosen _ _ _ Hg).
        * right. exists m. split; [done|]. by apply (gw_aleft _ _ _ Hg).
    - split; [by eapply own_key_ext; [apply Hg|]|]. exists Q. split; [done|].
      intros v Hv. by apply Hall, elem_of_elements. }
  assert (node_sim V net p1 id M B o) as Hn1.
  { eapply node_sim_still; [done..| |done]. intros t _. by rewrite Hh1. }
  assert (ps_hist p1 T = Some L) as HhT by (by rewrite Hh1).
  exists p1, B. split_and!; [done..| |lia|done].
  pose proof (st_log _ _ _ Hs1) as Hlog. clear -HV0 HV2 Hnet Hag Hn1 Hch HhT Hlog Hlt Hd ns_bound ns_log Hes.
  destruct Hn1. split; try done; rewrite ?Hlog; simpl.
  - right. exists T, (N.to_nat c), L. split_and!; [done|lia|done|done|apply prefix_take].
  - lia.
  - lia.
  - intros e [?|He]%elem_of_app; [by auto|].
    apply (held_certified p1 T (N.to_nat c) L (ob_log o) L c es); try done. apply prefix_take.
Qed.

(** ** Accepting a leader's entries *)

(** Coherent logs that agree on a term at an index agree up to it. *)
Lemma coherent_agree p L h i :
  coherent (ps_hist p) L → coherent (ps_hist p) h → (i ≤ length L)%nat → (i ≤ length h)%nat →
  log_term (take i L) = log_term (take i h) → take i h `prefix_of` L.
Proof.
  intros HL Hh HiL Hih Ht. rewrite <-(coherent_key (ps_hist p) (take i L) (take i h)); try done.
  - apply prefix_take.
  - eapply coherent_prefix; [apply prefix_take|done].
  - eapply coherent_prefix; [apply prefix_take|done].
  - rewrite !length_take. lia.
Qed.

Lemma entries_stable prev es (l : RaftLog StagedMem) :
  let l' := (log_append_entries prev es l).1 in
  sm_stable (lg_storage l') = sm_stable (lg_storage l) ∧
  lg_snapshot_index l' = lg_snapshot_index l.
Proof.
  simpl. unfold log_append_entries. destruct (position (log_lacks l) es) as [k|]; [|done].
  set (c := match head _ with Some _ => _ | None => _ end). clearbody c.
  generalize (drop k es). intros new. unfold truncate_from.
  destruct c as [i|]; [destruct (i <=? lg_snapshot_index l)|]; by destruct new.
Qed.

Section accepting.
Context (id : u64) (M : list (u64 * u64)) (p : PState) (B : u64) (o : Obs StagedMem).
Context (req : AppendEntriesRequest) (h : Log).
Context (Hc : core_sim V net p) (Hn : node_sim V net p id M B o).
Context (Hterm : ae_term req = ob_term o) (Hpm : prev_matches (ob_log o) req).
Context (Hh : ps_hist p (ob_term o) = Some h).

#[local] Abbreviation prev := (ae_prev_log_index req).
#[local] Abbreviation sent := (ae_entries req).
#[local] Abbreviation reach := (N.to_nat prev + length sent)%nat.

Context (Hlen : (reach ≤ length h)%nat).
Context (Hsent : sent = take (length sent) (drop (N.to_nat prev) h)).
Context (Hpt : ae_prev_log_term req = log_term (take (N.to_nat prev) h)).

Lemma accept_snap : take (N.to_nat (lg_snapshot_index (ob_log o))) (ps_log p id) `prefix_of` h.
Proof.
  pose proof Hn as []. destruct (commit_in_leader V p B (ps_log p id) (ob_commit o) (ob_term o) h)
    as [Hpre _]; [apply Hc|done|apply ns_bound|done|].
  etrans; [|exact Hpre]. apply take_prefix_le. lia.
Qed.

Lemma accept_prev : take (N.to_nat prev) h `prefix_of` ps_log p id.
Proof.
  pose proof (cs_inv _ _ _ Hc) as Hp. destruct Hpm as [->|Hta]; [apply prefix_nil|].
  destruct (view_term_at _ _ _ _ (ns_log _ _ _ _ _ _ _ Hn) Hta) as (Hl & Ht & _).
  eapply coherent_agree; [apply (pi_log _ _ Hp)|by eapply (pi_hist _ _ Hp)|done|lia|congruence].
Qed.

Lemma accept_match i e e' :
  ps_log p id !! i = Some e → h !! i = Some e' → e_term e = e_term e' →
  take (S i) h `prefix_of` ps_log p id.
Proof.
  intros He He' Ht. pose proof (cs_inv _ _ _ Hc) as Hp.
  pose proof (lookup_lt_Some _ _ _ He). pose proof (lookup_lt_Some _ _ _ He').
  eapply coherent_agree; [apply (pi_log _ _ Hp)|by eapply (pi_hist _ _ Hp)|lia..|].
  by rewrite (log_term_take _ _ _ He), (log_term_take _ _ _ He').
Qed.

Lemma accept_contiguous : contiguous prev sent ∧ prev ≤ last_index (ob_log o).
Proof.
  destruct (cs_hist _ _ _ Hc _ _ Hh) as [Hch _]. split; [by eapply sent_contiguous|].
  rewrite (view_last_index _ _ (ns_log _ _ _ _ _ _ _ Hn)).
  pose proof (prefix_length _ _ accept_prev) as Hl. rewrite length_take in Hl. lia.
Qed.

Lemma accept_covered : covered req = N.of_nat reach.
Proof.
  unfold covered. destruct (last sent) as [e|] eqn:El.
  - rewrite (contiguous_last _ _ _ (proj1 accept_contiguous) El). lia.
  - apply last_None in El. rewrite El. simpl. lia.
Qed.

(** The protocol accepts what the log accepts. *)
Lemma accept_step :
  let l' := (log_append_entries prev sent (ob_log o)).1 in
  ∃ p1, core_sim V net p1 ∧ local V net id p p1 ∧ awake id p p1 ∧
    view l' (ps_log p1 id) ∧ take reach h `prefix_of` ps_log p1 id ∧
    ps_hist p1 = ps_hist p ∧ ps_start p1 = ps_start p ∧ ps_term p1 = ps_term p ∧
    ps_grants p1 = ps_grants p ∧
    (∀ X, X `prefix_of` ps_log p id → X `prefix_of` h → X `prefix_of` ps_log p1 id) ∧
    (ps_log p1 id = ps_log p id ∨ ¬ take reach h `prefix_of` ps_log p id).
Proof.
  intros l'. pose proof (cs_inv _ _ _ Hc) as Hp. destruct (cs_hist _ _ _ Hc _ _ Hh) as [Hch _].
  pose proof (ns_log _ _ _ _ _ _ _ Hn) as Hv.
  pose proof (staged_entries_ok prev sent (ob_log o)) as Hok.
  destruct (log_append_entries prev sent (ob_log o)) as [l1 [w|]] eqn:Happ; [|done]. subst l'. simpl.
  destruct (view_accept _ _ _ _ _ Hv Hch Hsent Hlen accept_snap accept_prev accept_match l1 w Happ)
    as [(_ & -> & Hin)|(_ & Hv1 & Hnin)].
  - exists p. split_and!; try done; [apply local_refl|by left].
  - set (p1 := p {{ ps_log ::= <[id := take reach h]> }}).
    assert (pstep V p p1) as Hstep.
    { eapply (p_accept V p id (ob_term o) h); try done; [apply (ns_term _ _ _ _ _ _ _ Hn)|apply prefix_take]. }
    assert (ps_log p1 id = take reach h) as Hlog by (unfold p1; simpl; apply fn_lookup_insert).
    exists p1. rewrite Hlog. split_and!; try done; try (by right).
    + split; [by eapply pstep_ok|apply Hc..].
    + split; [by apply pstep_grow| |by left]. intros v Hv'. split; try done. simpl.
      by rewrite fn_lookup_insert_ne.
    + intros X HXL HXh. destruct (prefix_weak_total X (take reach h) h) as [?|Hx];
        [done|apply prefix_take|done|]. destruct Hnin. by etrans.
Qed.

(** A request's commit index is covered once its entries are there. *)
Lemma accept_commit p1 c :
  pinv V p1 → ps_hist p1 = ps_hist p → take reach h `prefix_of` ps_log p1 id →
  evidence V p1 (ob_term o) (ae_leader_commit req) → 0 < c →
  c = N.min (ae_leader_commit req) (covered req) →
  ∃ t i h', chosen V p1 t i ∧ t ≤ ob_term o ∧ ps_hist p1 t = Some h' ∧ (N.to_nat c ≤ i)%nat ∧
    take (N.to_nat c) h' `prefix_of` ps_log p1 id.
Proof.
  intros Hp1 Hh1 Hin Hev Hpos Hceq. rewrite accept_covered in Hceq.
  destruct Hev as [?|(t & i & Hch & Ht & Hi)]; [lia|]. pose proof Hch as [(h' & Hh' & Hi') _].
  exists t, i, h'. split_and!; [done..|lia|].
  assert (take i h' `prefix_of` h) as Hpre.
  { eapply chosen_in_leader; [done..| |done]. by rewrite Hh1. }
  etrans; [|exact Hin]. eapply prefix_by_length; [|apply prefix_take|].
  - etrans; [|exact Hpre]. apply take_prefix_le. lia.
  - rewrite !length_take. lia.
Qed.

Lemma accept_follows G c es :
  ob_role o ≠ Candidate → gv_append G req → evidence V p (ob_term o) (ae_leader_commit req) →
  let l := (log_append_entries prev sent (ob_log o)).1 in
  c = ob_commit o ∧ es = [] ∨
    ob_commit o < c ∧ c = N.min (ae_leader_commit req) (covered req) ∧ held_to l c es →
  follows G id M p B (o {{ ob_log := l; ob_commit := c; ob_queue ::= λ q, q ++ es }}).
Proof.
  intros Hr HG Hev l Hcs.
  destruct accept_step as (p1 & Hc1 & Hl1 & Ha1 & Hv1 & Hin & Hh1 & Hst1 & Ht1 & Hg1 & Hkeep & Hlog).
  pose proof (cs_inv _ _ _ Hc1) as Hp1. pose proof (lc_grow _ _ _ _ _ Hl1) as Hg.
  destruct accept_contiguous as [Hcon Hpl]. destruct (entries_stable prev sent (ob_log o)) as [Hst Hsi].
  pose proof Hn as [].
  pose proof (log_step_durable _ _ (step_entries _ _ _ (ob_durable o) Hcon Hpl) ns_store) as Hdur.
  pose proof (log_append_entries_hs prev sent (ob_log o)) as Hhs.
  fold l in Hv1, Hst, Hsi, Hdur, Hhs. clearbody l.
  assert (commit_ok V p1 (ob_term o) (ps_log p1 id) c ∧ (∀ e, e ∈ es → certified V p1 e) ∧
    ob_commit o ≤ c) as (Hcom & Hq & Hle).
  { destruct Hcs as [[-> ->]|(Hlt & Hceq & Hes)].
    - split_and!; [|by intros e ?%elem_of_nil|lia].
      destruct ns_commit as [?|(t & i & h' & Hch & Ht & Hh' & Hi & Hpre)]; [by left|right].
      exists t, i, h'. rewrite Hh1. split_and!; [by apply (gw_chosen _ _ _ Hg)|lia|done|done|].
      apply Hkeep; [done|]. transitivity (take i h'); [by apply take_prefix_le|].
      eapply chosen_in_leader; [apply Hc|done..|lia].
    - destruct (accept_commit p1 c) as (t & i & h' & Hch & Ht & Hh' & Hi & Hpre); try done.
      { by eapply evidence_grow. }
      { lia. }
      split_and!; [right; by exists t, i, h'| |lia].
      by apply (held_certified p1 t i h' l (ps_log p1 id) c es). }
  exists p1, (ob_term o). split_and!; [done|done|done| |lia|by intros Hno; destruct (Hno req)].
  destruct Ha1 as [Hd1 Hdl1 _ _ _]. rewrite <-Hst in ns_marks. rewrite <-Hhs in ns_staged.
  set (o1 := o {{ ob_log := l; ob_commit := c; ob_queue ::= λ q, q ++ es }}).
  assert (ob_term o1 = ob_term o) as HoT by done.
  assert (∀ hs, vote_ok p id hs → vote_ok p1 id hs) as Hvote.
  { intros hs. apply (vote_ok_grow V); [done|]. by rewrite Hg1. }
  split; rewrite ?Ht1, ?Hd1, ?HoT, ?Hh1, ?Hg1; eauto using certified_grow, ae_ok_grow; try done.
  - split; [|done]. lia.
  - intros e He. rewrite <-ns_term, <-Ht1. by apply (pi_log _ _ Hp1).
  - simpl. lia.
  - simpl. lia.
  - simpl. lia.
  - destruct ns_staged as (hst & ? & ? & ?). exists hst. auto.
  - intros mt Hmt. destruct (ns_match mt Hmt) as [? Hk]. split; [done|]. intros v.
    eapply promised_grow; [done| |apply Hk]. apply (gw_aleft _ _ _ Hg).
  - intros Hrl. destruct (ns_lead Hrl) as (HhL & ? & ?). split_and!; [|done..].
    destruct Hlog as [->|Hnin]; [done|]. rewrite Hh in HhL. injection HhL as ->.
    destruct Hnin. apply prefix_take.
  - intros e [?|?]%elem_of_app; [|by apply Hq]. eapply certified_grow; [done|]. by apply ns_queue.
  - intros mk Hmk. destruct (ns_marks mk Hmk) as [?|(Hmle & h' & Hh' & Hml & Hk)]; [by left|right].
    rewrite Hd1. split; [done|]. exists h'. rewrite Hh1, Ht1, Hst1, Hdl1. split_and!; [done..|].
    intros Hmt Hs. destruct (Hk Hmt Hs) as [? ?]. split; [|done]. apply Hkeep; [done|].
    rewrite Hmt, ns_term, Hh in Hh'. injection Hh' as <-. apply prefix_take.
Qed.
End accepting.

(** ** Runs of moves *)

Lemma rmove_follows G id M p B o o' :
  core_sim V net p → given_ok p id o G → node_sim V net p id M B o → rmove G o o' →
  follows G id M p B o'.
Proof.
  intros Hc HG Hn Hm. destruct Hm.
  - by apply send_follows.
  - by apply follow_follows.
  - by apply campaign_follows.
  - by apply vote_follows.
  - by apply count_follows.
  - by apply win_follows.
  - by apply propose_follows.
  - by eapply commit_follows.
  - destruct (go_append _ _ _ _ HG req) as (h & Hh & Hlen & Hes & Hpt & Hev); [done|].
    rewrite H1 in Hh, Hev. by eapply accept_follows.
  - by apply match_follows.
  - by apply compact_follows.
  - by apply applied_follows.
  - by apply durable_follows.
  - by apply requeue_follows.
Qed.

Lemma rmove_commit G o o' : rmove G o o' → ob_commit o ≤ ob_commit o'.
Proof. destruct 1; simpl; lia. Qed.

Lemma given_ok_grow p p' id o o' G :
  grow V p p' → ob_commit o ≤ ob_commit o' → given_ok p id o G → given_ok p' id o' G.
Proof.
  intros Hg Hle []. split; eauto using certified_grow, ae_ok_grow.
  - intros v t m Hm. eapply promised_grow; [done| |by apply go_ack0]. apply (gw_aleft _ _ _ Hg).
  - intros a Ha. etrans; [by apply go_applied0|done].
  - intros a Ha. etrans; [by apply go_durable0|done].
Qed.

Lemma rmoves_follow G id M p B o o' :
  core_sim V net p → given_ok p id o G → node_sim V net p id M B o → rmoves G o o' →
  follows G id M p B o'.
Proof.
  intros Hc HG Hn Hm. revert p B Hc HG Hn.
  induction Hm as [o|o1 o2 o3 H12 H23 IH]; intros p B Hc HG Hn; [by apply follows_stay|].
  eapply follows_trans; [by eapply rmove_follows|]. intros p1 B1 Hg Hc1 Hn1. apply IH; [done| |done].
  eapply given_ok_grow; [done| |done]. by eapply rmove_commit.
Qed.
End moves.
