(* ===== verification/RaftMembers.v ===== *)
(** * Members implement the protocol

    The relation of [RaftSim] for a whole member: its node, its disk, and
    the messages that wait for the disk; and what each action of
    [RaftReplication] does to it. *)

From stdpp Require Import base option gmap functions relations list.
From S2P Require Import Prelude RaftState RaftLog RaftLogFacts RaftNode RaftOps RaftRpc.
From S2P Require Import RaftNodeFacts RaftSteps RaftNodeThms RaftDurability RaftDelivery RaftGroup.
From S2P Require Import RaftElection RaftProtocol RaftReplication RaftMoves RaftViews RaftSim.
From S2P Require Import RaftSimMoves.

Open Scope N_scope.

(** ** Staged writes *)

Definition staged_ok (s : StagedMem) : Prop := sm_hard_state_seq s ≤ sm_staged_through s.

(** Staged writes led from [s] to [s']. *)
Record later (s s' : StagedMem) : Prop := MkLater {
  lt_ok : staged_ok s → staged_ok s';
  lt_staged : sm_staged_through s ≤ sm_staged_through s';
  lt_hard_state : staged_ok s → sm_hard_state_seq s ≤ sm_hard_state_seq s';
  lt_hs : staged_ok s → sm_hard_state_seq s' ≤ sm_staged_through s →
    ms_hard_state (sm_mem s') = ms_hard_state (sm_mem s);
  lt_same : sm_staged_through s' = sm_staged_through s → sm_mem s' = sm_mem s;
}.

#[export] Instance later_preorder : PreOrder later.
Proof.
  split; [done|]. intros s1 s2 s3 [H0 H1 H2 H3 H4] [H0' H1' H2' H3' H4']. split.
  - auto.
  - lia.
  - intros Hok. specialize (H2 Hok). specialize (H2' (H0 Hok)). lia.
  - intros Hok Hle. specialize (H2' (H0 Hok)). rewrite H3', H3; [done|done|lia|auto|lia].
  - intros Heq. rewrite H4', H4 by lia. done.
Qed.

(** A write that is not a hard state. *)
Lemma later_write f (s : StagedMem) :
  (∀ m, ms_hard_state (f m).1 = ms_hard_state m) → later s (staged_write f s).1.
Proof.
  intros Hf. specialize (Hf (sm_mem s)). unfold staged_write.
  destruct (f (sm_mem s)) as [m r]. split; unfold staged_ok; simpl in *; try done; lia.
Qed.

Lemma later_append es (s : StagedMem) : later s (storage_append es s).1.
Proof. simpl. destruct es; [done|]. by apply later_write. Qed.

Lemma later_hard_state hs (s : StagedMem) : later s (save_hard_state hs s).1.
Proof. split; unfold staged_ok; simpl; intros; lia. Qed.

Lemma later_entries prev es (l : RaftLog StagedMem) :
  later (lg_storage l) (lg_storage (log_append_entries prev es l).1).
Proof.
  unfold log_append_entries. destruct (position (log_lacks l) es) as [k|]; [|done].
  set (c := match head _ with Some _ => _ | None => _ end). clearbody c.
  generalize (drop k es). intros new.
  assert (∀ i, later (lg_storage l) (lg_storage (truncate_from i l).1) ∧
    (truncate_from i l).2 = Ok tt) as Ht.
  { intros i. unfold truncate_from. destruct (i <=? lg_snapshot_index l); [done|].
    split; [by apply (later_write (mem_truncate i))|done]. }
  assert (∀ l', later (lg_storage l) (lg_storage l') →
    later (lg_storage l) (storage_append new (lg_storage l')).1) as Ha.
  { intros l' Hl. etrans; [exact Hl|apply later_append]. }
  destruct c as [i|].
  - destruct (Ht i) as [Hl Hok]. destruct (truncate_from i l) as [l' r]. simpl in Hok. subst r.
    specialize (Ha l' Hl). cbn -[storage_append]. by destruct (storage_append new _) as [s []].
  - specialize (Ha l (reflexivity _)). cbn -[storage_append]. by destruct (storage_append new _) as [s []].
Qed.

Lemma rmove_later G (o o' : Obs StagedMem) :
  rmove G o o' → later (lg_storage (ob_log o)) (lg_storage (ob_log o')).
Proof.
  destruct 1; try done.
  - by apply (later_write (mem_append [noop])).
  - by apply (later_write (mem_append [e])).
  - apply later_entries.
  - simpl. unfold apply_snapshot. case_match; [done|]. by apply (later_write (mem_compact i t)).
  - injection H1 as <- <-. by apply (later_write (mem_save_applied_index i)).
Qed.

Lemma rmoves_later G (n n' : RaftNode StagedMem) :
  rmoves G (obs n) (obs n') → later (node_storage n) (node_storage n').
Proof.
  intros Hm. change (later (lg_storage (ob_log (obs n))) (lg_storage (ob_log (obs n')))).
  induction Hm as [|o1 o2 o3 H12 _ IH]; [done|]. etrans; [by eapply rmove_later|done].
Qed.

Lemma persist_later (n : RaftNode StagedMem) :
  later (node_storage n) (node_storage (persist_hard_state_if_dirty n).1).
Proof. unfold persist_hard_state_if_dirty. case_match; [|done]. apply later_hard_state. Qed.

Section members.
Context (V : gset u64).
Implicit Types (p : PState) (t u v w id : u64) (l L h : Log) (i : nat) (B : u64).
Implicit Types (net out : list VoteMsg) (M : list (u64 * u64)).
Implicit Types (W : list (u64 * AppendEntriesResponse)) (m : Member StagedMem).

(** The disk holds the durable log, hard state and applied index. *)
Definition disk_sim p id (s : StagedMem) : Prop :=
  ∃ (lg : RaftLog StagedMem) (a : u64),
    sm_mem (lg_storage lg) = sm_mem s ∧ durable_ok (lg, a) ∧ view lg (ps_dlog p id) ∧
    current_term (ms_hard_state (sm_mem s)) = ps_dterm p id ∧ lg_snapshot_index lg ≤ a ∧
    commit_ok V p (ps_dterm p id) (ps_dlog p id) a ∧
    ∀ l, ps_gleft p id (ps_dterm p id) l →
      voted_for (ms_hard_state (sm_mem s)) ≠ 0 ∧
      (voted_for (ms_hard_state (sm_mem s)) = id ∨
       ps_gleft p (voted_for (ms_hard_state (sm_mem s))) (ps_dterm p id) l).

(** Vote messages of [id] that wait for its disk. *)
Definition out_sim p id B out : Prop :=
  (∀ to req, VReq to req ∈ out →
    rv_candidate_id req = id ∧ rv_term req ≤ B ∧
    ∃ l, ps_grants p id (rv_term req) l ∧ key_ok (rv_last_log_index req) (rv_last_log_term req) l) ∧
  (∀ from to resp, VResp from to resp ∈ out → rvr_vote_granted resp = true →
    from = id ∧ rvr_term resp ≤ B ∧
    ∃ l, ps_grants p id (rvr_term resp) l ∧ ps_gleft p to (rvr_term resp) l).

(** Answers of [id] that wait for its disk. *)
Definition waiting_sim p id B W : Prop :=
  ∀ to resp, (to, resp) ∈ W → aer_success resp = true →
    aer_term resp ≤ B ∧
    promised V p (ps_acks p) id (aer_term resp) (N.to_nat (aer_last_log_index resp)).

(** A member whose log is bounded by [B], and by its staged hard state. *)
Record member_sim_at net p id M W B m : Prop := MkMemberSim {
  ms_node : node_sim V net p id M B (obs (mb_node m));
  ms_disk : disk_sim p id (mb_disk m);
  ms_out : out_sim p id B (mb_outbox m);
  ms_waiting : waiting_sim p id B W;
  ms_staged : staged_ok (mb_disk m) ∧ later (mb_disk m) (node_storage (mb_node m));
}.

Definition staged_term (n : RaftNode StagedMem) : u64 :=
  current_term (ms_hard_state (sm_mem (node_storage n))).

Definition member_sim net p id M W m : Prop :=
  member_sim_at net p id M W (staged_term (mb_node m)) m.

(** ** Others' steps *)

Lemma disk_sim_grow p p' id s :
  grow V p p' → ps_dterm p' id = ps_dterm p id → ps_dlog p' id = ps_dlog p id →
  (∀ u l, ps_gleft p' id u l ↔ ps_gleft p id u l) → disk_sim p id s → disk_sim p' id s.
Proof.
  intros Hg Hd Hl Hgl (lg & a & Hs & Hdur & Hv & Ht & Hsn & Hc & Hvote). exists lg, a.
  rewrite Hd, Hl. split_and!; [done..|by eapply commit_ok_grow|].
  intros l. rewrite Hgl. intros Hx. destruct (Hvote l Hx) as [? [?|?]]; (split; [done|]); [by left|right].
  by apply (gw_gleft _ _ _ Hg).
Qed.

Lemma out_sim_grow p p' id B B' out :
  grow V p p' → B ≤ B' → (∀ u l, ps_grants p id u l → ps_grants p' id u l) →
  out_sim p id B out → out_sim p' id B' out.
Proof.
  intros Hg HB Hgr [Hreq Hresp]. split.
  - intros to req Hin. destruct (Hreq to req Hin) as (? & ? & l & ? & ?).
    split_and!; [done|lia|]. exists l. eauto.
  - intros from to resp Hin Hok. destruct (Hresp from to resp Hin Hok) as (? & ? & l & ? & ?).
    split_and!; [done|lia|]. exists l. split; [by auto|]. by apply (gw_gleft _ _ _ Hg).
Qed.

Lemma waiting_sim_grow p p' id B B' W :
  grow V p p' → B ≤ B' → (∀ t i, ps_acks p id t i → ps_acks p' id t i) →
  waiting_sim p id B W → waiting_sim p' id B' W.
Proof.
  intros Hg HB Hac Hw to resp Hin Hok. destruct (Hw to resp Hin Hok) as [? Hp].
  split; [lia|]. by eapply promised_grow; [|apply Hac|].
Qed.

(** Another member moved. *)
Lemma member_sim_other net p p' id w M W m :
  net_agrees net → local V net id p p' → w ≠ id → member_sim net p w M W m →
  member_sim net p' w M W m.
Proof.
  intros Hag Hl Hne [Hn Hd Ho Hw Hst]. destruct (lc_same _ _ _ _ _ Hl w Hne).
  pose proof (lc_grow _ _ _ _ _ Hl) as Hg. split.
  - by eapply node_sim_other.
  - by eapply disk_sim_grow.
  - eapply out_sim_grow; [done|done| |done]. intros u l. apply sa_grants.
  - eapply waiting_sim_grow; [done|done| |done]. intros t m'. apply sa_acks.
  - done.
Qed.

(** The member's own steps, up to its node. *)
Lemma member_sim_awake net p p' id M W B B' m n :
  local V net id p p' → awake id p p' → B ≤ B' → node_sim V net p' id M B' (obs n) →
  later (node_storage (mb_node m)) (node_storage n) → member_sim_at net p id M W B m → member_sim_at net p' id M W B' (m {{ mb_node := n }}).
Proof.
  intros Hl [Hd Hdl Hgl Hgr Hac] HB Hn Hlt [_ Hdisk Ho Hw [Hst Hlt0]].
  pose proof (lc_grow _ _ _ _ _ Hl) as Hg. split; simpl.
  - done.
  - by eapply disk_sim_grow.
  - by eapply out_sim_grow.
  - by eapply waiting_sim_grow.
  - split; [done|by etrans].
Qed.

(** ** Moves *)

Lemma rmove_hs G (o o' : Obs StagedMem) : rmove G o o' → log_hs (ob_log o') = log_hs (ob_log o).
Proof.
  destruct 1; try done.
  - apply log_append_entries_hs.
  - apply apply_snapshot_hs.
  - by apply save_applied_index_spec in H1 as (_ & _ & _ & ? & _).
Qed.

Lemma rmoves_staged G (n n' : RaftNode StagedMem) :
  rmoves G (obs n) (obs n') → staged_term n' = staged_term n.
Proof.
  intros Hm. assert (log_hs (rn_log n') = log_hs (rn_log n)) as Hh.
  { change (log_hs (ob_log (obs n')) = log_hs (ob_log (obs n))).
    induction Hm as [|o1 o2 o3 H12 _ IH]; [done|]. by rewrite IH, (rmove_hs _ _ _ H12). }
  unfold log_hs in Hh. simpl in Hh. unfold staged_term, node_storage. by injection Hh as ->.
Qed.

Lemma node_sim_bound net p id M B B' o :
  B ≤ B' → B' ≤ ob_term o → node_sim V net p id M B o → node_sim V net p id M B' o.
Proof.
  intros HB HB' []. split; try done.
  - lia.
  - intros e He. specialize (ns_entries e He). lia.
  - by eapply commit_ok_grow; [apply grow_refl|..].
Qed.

(** ** Staging the hard state *)

Lemma run_op_stored ev op (n : RaftNode StagedMem) : hs_stored n → hs_stored (run_op ev op n).
Proof. intros Hs. eapply moves_preserve; [apply vote_move_stored|apply run_op_moves|done]. Qed.

Lemma staged_clean (n : RaftNode StagedMem) :
  hs_stored n → rd_hard_state (rn_ready n) = None →
  ms_hard_state (sm_mem (node_storage n)) = rn_hard_state n.
Proof. intros (h & [= Hh] & _ & Hd) Hr. by rewrite <-(Hd Hr). Qed.

Lemma persist_sim net p id M B n :
  node_sim V net p id M B (obs n) → hs_stored n →
  let n' := (persist_hard_state_if_dirty n).1 in
  (persist_hard_state_if_dirty n).2 = Ok tt ∧ obs n' = (obs n) {{ ob_log := rn_log n'; ob_dirty := None }} ∧
  ms_hard_state (sm_mem (node_storage n')) = rn_hard_state n ∧
  node_sim V net p id M (term_of n) (obs n').
Proof.
  intros Hn Hcl. pose proof (persist_log_view n (ns_store _ _ _ _ _ _ _ Hn)) as Hst. revert Hst.
  apply (node_sim_bound _ _ _ _ _ (term_of n)) in Hn; [|apply Hn|done].
  pose proof (staged_clean n Hcl) as Hclean. clear Hcl. unfold persist_hard_state_if_dirty.
  destruct (rd_hard_state (rn_ready n)) as [x|] eqn:Hd.
  - intros Hst. destruct n. simpl in *. split_and!; [done..|]. destruct Hn; split; try done.
    exists rn_hard_state. split_and!; done.
  - intros _. simpl. split_and!; [done| |by apply Hclean|done]. destruct n as []. unfold obs. simpl in *.
    by rewrite Hd.
Qed.
(** ** Actions on one member *)

Section actions.
Context (net : list VoteMsg).
Context (HV0 : 0 ∉ V) (HV2 : (2 ≤ size V)%nat) (Hnet : net_ok V net) (Hag : net_agrees net).

(** The protocol follows to [m']. *)
Definition member_follows p id M W m' : Prop :=
  ∃ p', core_sim V net p' ∧ local V net id p p' ∧ member_sim net p' id M W m'.

Lemma member_rmoves G p id M W m n :
  core_sim V net p → given_ok V net p id (obs (mb_node m)) G → (∀ req, ¬ gv_append G req) →
  rmoves G (obs (mb_node m)) (obs n) → member_sim net p id M W m →
  member_follows p id M W (m {{ mb_node := n }}).
Proof.
  intros Hc HG Hno Hm Hs.
  destruct (rmoves_follow V net HV2 Hnet _ _ _ _ _ _ _ Hc HG (ms_node _ _ _ _ _ _ _ Hs) Hm)
    as (p' & B' & Hc' & Hl & Ha & Hn & HB & Heq). rewrite (Heq Hno) in Hn.
  exists p'. split_and!; [done..|]. unfold member_sim. simpl. rewrite (rmoves_staged _ _ _ Hm).
  eapply member_sim_awake; [done..|by eapply rmoves_later|done].
Qed.

Lemma member_follows_trans p id M W m m' :
  member_follows p id M W m →
  (∀ p', core_sim V net p' → grow V p p' → member_sim net p' id M W m → member_follows p' id M W m') →
  member_follows p id M W m'.
Proof.
  intros (p1 & Hc1 & Hl1 & Hs1) Hk. destruct (Hk p1 Hc1 (lc_grow _ _ _ _ _ Hl1) Hs1) as (p2 & ? & ? & ?).
  exists p2. split_and!; [done| |done]. by eapply local_trans.
Qed.

Lemma member_persist_sim p id M W m :
  core_sim V net p → hs_stored (mb_node m) → member_sim net p id M W m →
  member_sim net p id M W (m {{ mb_node := (persist_hard_state_if_dirty (mb_node m)).1 }}).
Proof.
  intros Hc Hst Hs. pose proof (ms_node _ _ _ _ _ _ _ Hs) as Hn.
  destruct (persist_sim _ _ _ _ _ _ Hn Hst) as (_ & _ & Hhs & Hn').
  unfold member_sim, staged_term. simpl. rewrite Hhs.
  eapply (member_sim_awake _ p p); [apply local_refl|apply awake_refl|apply Hn|done|apply persist_later|done].
Qed.

Lemma member_op p id M W m ev op :
  core_sim V net p → given_ok V net p id (obs (mb_node m)) (op_given op) →
  (∀ req, op ≠ OpAppendEntries req) → snapshot_op op = false → member_sim net p id M W m →
  member_follows p id M W (m {{ mb_node := run_op ev op (mb_node m) }}).
Proof.
  intros Hc HG Hop Hsn Hs. eapply member_rmoves; [done|exact HG|done| |done].
  apply run_op_rmoves; [apply staged_entries_ok| |by intros req ?%Hop|done].
  apply (ns_store _ _ _ _ _ _ _ (ms_node _ _ _ _ _ _ _ Hs)).
Qed.

(** Operations with nothing from outside. *)
Lemma given_nothing p id o op :
  match op with OpStorageProgress | OpTick => True | _ => False end →
  given_ok V net p id o (op_given op).
Proof. destruct op; try done; by split. Qed.

(** A drained member: what it sends is covered by what it has staged. *)
Lemma member_drain p id M W m :
  core_sim V net p → hs_stored (mb_node m) → member_sim net p id M W m →
  ∃ n' r, drain (mb_node m) = (n', Some r) ∧
    (∀ to req, (to, req) ∈ rd_messages r → ae_ok V p req) ∧
    (∀ e, e ∈ rd_committed_entries r → certified V p e) ∧
    member_sim net p id M W (MkMember n' (mb_disk m)
      (mb_outbox m ++ ((λ pv, VReq pv.1 pv.2) <$> rd_vote_requests r))).
Proof.
  intros Hc Hst Hs. pose proof (member_persist_sim p id M W m Hc Hst Hs) as [Hn Hd [Hq Ho] Hw Hlt].
  destruct (persist_sim _ _ _ _ _ _ (ms_node _ _ _ _ _ _ _ Hs) Hst) as (Hok & _ & Hhs & _).
  pose proof (persist_frame (mb_node m)) as (Hhs' & _).
  unfold drain. destruct (persist_hard_state_if_dirty (mb_node m)) as [n1 r1]. simpl in *. subst r1.
  assert (staged_term n1 = term_of n1) as Hterm.
  { unfold staged_term, term_of. by rewrite Hhs, Hhs'. }
  unfold take_ready. do 2 eexists. split; [done|].
  split; [apply (ns_msgs _ _ _ _ _ _ _ Hn)|]. split; [apply (ns_queue _ _ _ _ _ _ _ Hn)|].
  split; simpl; [|done| |done|done].
  - destruct Hn; split; try done; intros *; by intros ?%elem_of_nil.
  - split.
    + intros to req [Hin|([to' req'] & [= -> ->] & Hin)%list_elem_of_fmap]%elem_of_app; [by apply (Hq to)|].
      destruct (ns_vreqs _ _ _ _ _ _ _ Hn (vote_key (to', req'))) as (? & l & Hl & ?).
      { apply list_elem_of_fmap. by exists (to', req'). }
      simpl in *. split_and!; [done| |by exists l].
      apply (pi_grants _ _ (cs_inv _ _ _ Hc)) in Hl as [Hl _].
      rewrite (ns_term _ _ _ _ _ _ _ Hn) in Hl. change (rv_term req' ≤ staged_term n1).
      by rewrite Hterm.
    + intros from to resp [Hin|([? ?] & ? & _)%list_elem_of_fmap]%elem_of_app; [by apply (Ho _ to)|done].
Qed.

(** [MultiRaft::tick]. *)
Lemma member_tick_sim p id M W m ev :
  core_sim V net p → hs_stored (mb_node m) → member_sim net p id M W m →
  ∃ p' r, (drain (tick ev (on_storage_progress (mb_node m)))).2 = Some r ∧
    core_sim V net p' ∧ local V net id p p' ∧ member_sim net p' id M W (member_tick ev m) ∧
    (∀ to req, (to, req) ∈ rd_messages r → ae_ok V p' req) ∧
    (∀ e, e ∈ rd_committed_entries r → certified V p' e).
Proof.
  intros Hc Hst Hs.
  assert (member_follows p id M W (m {{ mb_node := tick ev (on_storage_progress (mb_node m)) }})) as
    (p' & Hc' & Hl & Hs').
  { eapply member_follows_trans.
    - apply (member_op p id M W m ev OpStorageProgress); [done|by apply given_nothing|done..].
    - intros p' Hc' _ Hs'.
      apply (member_op p' id M W _ ev OpTick) in Hs'; [done|done|by apply given_nothing|done..]. }
  apply (run_op_stored ev OpStorageProgress), (run_op_stored ev OpTick) in Hst.
  set (m1 := m {{ mb_node := tick ev (on_storage_progress (mb_node m)) }}) in Hs'.
  destruct (member_drain p' id M W m1 Hc' Hst Hs') as (n' & r & Hd & Hm & Hq & Hs2).
  simpl in Hd. exists p', r. unfold member_tick. rewrite Hd. split_and!; done.
Qed.

(** ** Votes *)

Lemma request_vote_log ev req (n n' : RaftNode StagedMem) resp :
  handle_request_vote ev req n = (n', resp) → rvr_vote_granted resp = true →
  log_up_to_date n' (rv_last_log_term req) (rv_last_log_index req) = true.
Proof.
  unfold handle_request_vote, handle_request_vote_at. case_match; [by intros [= <- <-]|].
  set (n1 := if _ : bool then become_follower _ _ _ else n). clearbody n1.
  case_match; [by intros [= <- <-]|].
  destruct (rn_role n1) eqn:Hr; try (by intros [= <- <-]);
    (case_match eqn:Hok; [|by intros [= <- <-]]); intros [= <- <-] _;
    by apply andb_true_iff in Hok as [_ ?].
Qed.

Lemma view_up_to_date (n : RaftNode StagedMem) L l (index last : u64) :
  view (rn_log n) L → key_ok index last l → log_up_to_date n last index = true → up_to_date l L.
Proof.
  intros Hv [-> ->]. unfold log_up_to_date, up_to_date.
  rewrite (view_last_index _ _ Hv), (view_last_term _ _ Hv).
  rewrite orb_true_iff, andb_true_iff, N.ltb_lt, N.eqb_eq, N.leb_le. lia.
Qed.

(** The vote is recorded in the protocol once it is staged. *)
Lemma node_sim_granted p id M (n : RaftNode StagedMem) l :
  let u := term_of n in let cand := voted_for (rn_hard_state n) in
  core_sim V net p → local V net id p (granted p id u l) → cand ≠ 0 → ps_gleft p cand u l →
  ms_hard_state (sm_mem (node_storage n)) = rn_hard_state n →
  node_sim V net p id M u (obs n) → node_sim V net (granted p id u l) id M u (obs n).
Proof.
  intros u cand Hc [Hg _ _] Hz Hgl Hst [].
  assert (vote_ok (granted p id u l) id (rn_hard_state n)) as Hv.
  { intros l' [Hl'|(_ & _ & ->)]; [|by split; [|right; apply (gw_gleft _ _ _ Hg)]].
    destruct (ns_vote l' Hl') as [? [?|?]]; (split; [done|]); [by left|right].
    by apply (gw_gleft _ _ _ Hg). }
  split; try done; eauto using certified_grow, ae_ok_grow.
  - exists (rn_hard_state n). split_and!; [|done..]. simpl. by rewrite <-Hst.
  - intros Hr. destruct (ns_cand Hr) as (? & ? & ?). split_and!; [done|by left|done].
  - intros k Hk. destruct (ns_vreqs k Hk) as (? & l' & ? & ?). split; [done|]. exists l'.
    split; [by left|done].
Qed.

Lemma member_grant p id M W m cand l resp :
  let n := mb_node m in
  core_sim V net p → ms_hard_state (sm_mem (node_storage n)) = rn_hard_state n →
  voted_for (rn_hard_state n) = cand → cand ≠ 0 → cand ≠ id → ps_gleft p cand (term_of n) l →
  up_to_date l (ps_log p id) → rvr_term resp = term_of n → member_sim net p id M W m →
  member_follows p id M W (m {{ mb_outbox ::= λ o, o ++ [VResp id cand resp] }}).
Proof.
  intros n Hc Hst Hvf Hz Hne Hgl Hup Ht [Hn Hd Ho Hw Hls].
  assert (staged_term n = term_of n) as HB by (unfold staged_term, term_of; by rewrite Hst).
  fold n in Hn, Ho, Hw. rewrite HB in Hn, Ho, Hw.
  pose proof (cs_inv _ _ _ Hc) as Hp. destruct (pi_gleft _ _ Hp _ _ _ Hgl) as [Hgc _].
  destruct (pi_grants _ _ Hp _ _ _ Hgc) as (_ & Hco & Hlt & _).
  assert (ps_term p id = term_of n) as Hterm by apply Hn.
  assert (local V net id p (granted p id (term_of n) l)) as Hl by (by apply grant_local).
  pose proof (grant_awake p id (term_of n) l) as [? ? ? Hgr ?].
  exists (granted p id (term_of n) l). split; [|split; [done|]].
  { apply grant_core; try done. intros l' Hl'.
    destruct (ns_vote _ _ _ _ _ _ _ Hn l' Hl') as [_ [Hx|Hx]]; simpl in Hx; rewrite Hvf in Hx; [done|].
    eapply (cs_unique _ _ _ Hc); [apply (pi_gleft _ _ Hp), Hx|done]. }
  unfold member_sim, staged_term. simpl. fold n. rewrite Hst. split; simpl.
  - apply node_sim_granted; try done; fold n; by rewrite Hvf.
  - eapply disk_sim_grow; [apply Hl|done..].
  - assert (out_sim (granted p id (term_of n) l) id (term_of n) (mb_outbox m)) as [Hq Hr].
    { eapply out_sim_grow; [apply Hl|done|apply Hgr|done]. }
    split; intros *; (intros [Hx|Hx%list_elem_of_singleton]%elem_of_app; [by eauto|]); [done|].
    simplify_eq. intros _. rewrite Ht. split_and!; [done..|]. exists l. split; [by right|done].
  - eapply waiting_sim_grow; [apply Hl|done| |done]. done.
  - done.
Qed.

(** [handle_request_vote_rpc] with a request from the network. *)
Lemma member_vote_sim p id M W m ev req :
  core_sim V net p → VReq id req ∈ net → hs_stored (mb_node m) → member_sim net p id M W m →
  member_follows p id M W (member_request_vote ev id req m).
Proof.
  intros Hc Hin Hst Hs. destruct (Hnet _ Hin) as (owner & Hown & HoV & HidV & Hne).
  destruct (member_op p id M W m ev (OpRequestVote req) Hc) as (p1 & Hc1 & Hl1 & Hs1);
    [by split|done..|].
  apply (run_op_stored ev (OpRequestVote req)) in Hst. simpl in Hs1, Hst.
  unfold member_request_vote.
  destruct (handle_request_vote ev req (mb_node m)) as [n1 resp] eqn:Hh. simpl in Hs1, Hst.
  set (m1 := m {{ mb_node := n1 }}) in Hs1.
  pose proof (member_persist_sim p1 id M W m1 Hc1 Hst Hs1) as Hs2.
  pose proof (ns_log _ _ _ _ _ _ _ (ms_node _ _ _ _ _ _ _ Hs1)) as Hv.
  destruct (persist_sim _ _ _ _ _ _ (ms_node _ _ _ _ _ _ _ Hs1) Hst) as (Hok & _ & Hhs & _).
  destruct (persist_frame n1) as (Hhs' & _). simpl in Hs2, Hok, Hhs, Hv. clear Hs1.
  destruct (persist_hard_state_if_dirty n1) as [n2 r]. simpl in *. subst r.
  destruct (rvr_vote_granted resp) eqn:Hgr.
  2: { exists p1. split_and!; [done..|]. destruct Hs2 as [Hn2 Hd [Hq Hr] Hw Hlt]. split; simpl; try done.
    split; intros *; (intros [Hx|Hx%list_elem_of_singleton]%elem_of_app; [eauto|congruence]). }
  destruct (request_vote_granted _ _ _ _ _ Hh Hgr) as (Ht & Hrt & Hvf & _).
  pose proof (request_vote_log _ _ _ _ _ Hh Hgr) as Hup.
  destruct (cs_vreq _ _ _ Hc1 _ _ Hin) as (l & Hgl & Hk).
  eapply view_up_to_date in Hup; [|done..].
  assert (term_of n2 = term_of n1) as Ht2 by (unfold term_of; by rewrite Hhs').
  apply (member_grant p1 id M W (m1 {{ mb_node := n2 }}) (rv_candidate_id req) l resp) in Hs2
    as (p2 & ? & Hl2 & ?); simpl; try congruence.
  exists p2. split_and!; [done|by eapply local_trans|done].
Qed.
End actions.
End members.
