(* ===== verification/RaftAnswers.v ===== *)
(** * Answers to a leader's entries

    A follower's answer is a promise of the protocol: the prefix it claims is
    its leader's, and when it leaves without waiting for the disk, the disk
    already holds what of it the leader made. *)

From stdpp Require Import base option gmap functions relations list.
From S2P Require Import Prelude RaftState RaftLog RaftLogFacts RaftNode RaftOps RaftRpc.
From S2P Require Import RaftNodeFacts RaftSteps RaftNodeThms RaftDurability RaftDelivery RaftSpecs.
From S2P Require Import RaftGroup RaftElection RaftProtocol RaftReplication RaftMoves RaftViews.
From S2P Require Import RaftSim RaftSimMoves RaftMembers.

Open Scope N_scope.

(** ** The claim of an answer *)

(** Either the claim is durable as far as the node knows, or the log took a
    new entry. *)
Lemma append_claim req (n n' : RaftNode StagedMem) resp :
  log_wf (rn_log n) → contiguous (ae_prev_log_index req) (ae_entries req) →
  append_to_log req n = (n', resp) → aer_success resp = true →
  lg_snapshot_index (rn_log n') = lg_snapshot_index (rn_log n) ∧
  (aer_last_log_index resp ≤ stable_index (rn_log n') ∨
   lg_entries (rn_log n') ≠ lg_entries (rn_log n)).
Proof.
  intros Hwf Hc. unfold append_to_log.
  do 2 (case_match; [by intros [= <- <-]|]). case_match eqn:Hp; [by intros [= <- <-]|].
  apply negb_false_iff in Hp. pose proof (prev_log_matches_last _ _ Hwf Hp) as Hle.
  destruct (log_append_entries _ _ _) as [l [w|]] eqn:Hl; [|by intros [= <- <-]].
  intros Heq _.
  assert (rn_log n' = l ∧ aer_last_log_index resp = claimable_match n' (request_match req) w) as [Hlog ->].
  { revert Heq. case N.ltb_spec; intros Hcm [= <- <-]; unfold append_reply, claimable_match; simpl;
      by rewrite ?collect_log. }
  destruct (log_append_entries_last _ _ _ _ _ Hwf Hc Hle Hl) as (Hs & _).
  split; [by rewrite Hlog|].
  destruct (log_append_entries_lookup _ _ _ _ _ Hwf Hc Hle Hl)
    as [(-> & -> & _)|(-> & k & e & Hk & Hlk & _)].
  { left. unfold claimable_match. lia. }
  right. rewrite Hlog. intros He. apply (log_lacks_true _ _ Hwf) in Hlk as [Hsn Hno].
  pose proof (log_append_entries_holds _ _ _ _ _ Hwf Hc Hle Hl e) as Hh.
  rewrite term_at_above in Hh by (by rewrite Hs).
  assert (entry_at l (e_index e) = entry_at (rn_log n) (e_index e)) as Heq'.
  { rewrite !entry_at_wf; [by rewrite Hs, He|done|by eapply log_append_entries_wf]. }
  rewrite Heq' in Hh. specialize (Hh (list_elem_of_lookup_2 _ _ _ Hk) Hsn).
  apply fmap_Some in Hh as (x & Hx & Ht). by apply (Hno x).
Qed.

(** What a successful answer says of the node that gave it. *)
Lemma append_success ev req (n n' : RaftNode StagedMem) resp :
  log_wf (rn_log n) → contiguous (ae_prev_log_index req) (ae_entries req) →
  handle_append_entries ev req n = (n', resp) → aer_success resp = true →
  ae_term req = term_of n' ∧ aer_term resp = term_of n' ∧
  (0 < ae_prev_log_index req →
    term_at (rn_log n') (ae_prev_log_index req) = Some (ae_prev_log_term req)) ∧
  (∀ e, e ∈ ae_entries req → lg_snapshot_index (rn_log n) < e_index e →
    term_at (rn_log n') (e_index e) = Some (e_term e)) ∧
  aer_last_log_index resp ≤ request_match req ∧
  lg_snapshot_index (rn_log n') = lg_snapshot_index (rn_log n) ∧
  (aer_last_log_index resp ≤ stable_index (rn_log n') ∨
   lg_entries (rn_log n') ≠ lg_entries (rn_log n)).
Proof.
  intros Hwf Hc. unfold handle_append_entries. case N.ltb_spec; [by intros _ [= <- <-]|].
  intros Ht Happ Hs. pose proof (view_log _ _ (accept_leader_view ev req n)) as Hlog.
  pose proof (accept_leader_term ev req n Ht) as Ht'. revert Hwf. rewrite <-Hlog. intros Hwf.
  destruct (append_to_log_success _ _ _ _ Hwf Hc Happ Hs) as (H1 & H2 & H3 & H4 & _ & H5).
  destruct (append_claim _ _ _ _ Hwf Hc Happ Hs). split_and!; try done; congruence.
Qed.

(** The last index a request covers. *)
Lemma request_match_reach req :
  contiguous (ae_prev_log_index req) (ae_entries req) →
  N.to_nat (request_match req) = (N.to_nat (ae_prev_log_index req) + length (ae_entries req))%nat.
Proof.
  intros Hc. unfold request_match. destruct (last (ae_entries req)) as [e|] eqn:He.
  - rewrite last_lookup in He. rewrite (Hc _ _ He). apply lookup_lt_Some in He. lia.
  - apply last_None in He. rewrite He. simpl. lia.
Qed.

Section answers.
Context (V : gset u64) (net : list VoteMsg).
Context (HV0 : 0 ∉ V) (HV2 : (2 ≤ size V)%nat) (Hnet : net_ok V net) (Hag : net_agrees net).
Implicit Types (p : PState) (t u v w id T : u64) (l L h : Log) (i m : nat) (c B : u64).
Implicit Types (M : list (u64 * u64)) (W : list (u64 * AppendEntriesResponse)).

(** Entries of the current leader below a commit index are chosen. *)
Lemma commit_chosen p T L c h i :
  pinv V p → commit_ok V p T L c → own_key p T i → ps_hist p T = Some h →
  take i h `prefix_of` L → (i ≤ N.to_nat c)%nat → chosen V p T i.
Proof.
  intros Hp Hc Hi Hh Hpre Hle. destruct (own_key_entry _ _ _ _ _ Hp Hi Hh) as (e & He & Het & Hpos).
  destruct Hc as [->|(t & j & h' & Hc & Ht & Hh' & Hj & Hpre')]; [simpl in Hle; lia|].
  pose proof Hc as [(h2 & Hh2 & Hlen) (Q & HQ & Hacks)]. rewrite Hh' in Hh2. injection Hh2 as <-.
  assert (h' !! pred i = Some e) as He'.
  { rewrite <-(lookup_take_lt _ (N.to_nat c)) by lia.
    rewrite <-(lookup_take_lt _ i) in He by lia.
    eapply prefix_lookup_Some in He; [|exact Hpre].
    rewrite <-He. eapply prefix_lookup_lt; [|exact Hpre']. rewrite length_take. lia. }
  assert (t = T) as ->.
  { destruct (pi_hist _ _ Hp _ _ Hh') as [_ Hle']. apply list_elem_of_lookup_2, Hle' in He'. lia. }
  split; [done|]. exists Q. split; [done|]. intros v Hv. destruct (Hacks v Hv) as (m & ? & ?).
  exists m. split; [lia|done].
Qed.

(** The node holds its leader's log up to the last index of the request. *)
Lemma answer_prefix p id M (n : RaftNode StagedMem) req h :
  let T := term_of n in
  core_sim V net p → node_sim V net p id M T (obs n) → ae_ok V p req → ae_term req = T →
  ps_hist p T = Some h → contiguous (ae_prev_log_index req) (ae_entries req) →
  (0 < ae_prev_log_index req →
    term_at (rn_log n) (ae_prev_log_index req) = Some (ae_prev_log_term req)) →
  (∀ e, e ∈ ae_entries req → lg_snapshot_index (rn_log n) < e_index e →
    term_at (rn_log n) (e_index e) = Some (e_term e)) →
  take (N.to_nat (request_match req)) h `prefix_of` ps_log p id ∧
  (N.to_nat (request_match req) ≤ length h)%nat.
Proof.
  intros T Hc Hn (h' & Hh' & Hlen & Hes & Hpt & _) Ht Hh Hcon Hprev Hents. rewrite Ht, Hh in Hh'.
  injection Hh' as <-. pose proof (cs_inv _ _ _ Hc) as Hp. pose proof Hn as [].
  pose proof (request_match_reach req Hcon) as Hr. split; [|lia].
  destruct (pi_hist _ _ Hp _ _ Hh) as [Hco _]. destruct (pi_log _ _ Hp id) as [HcoL _].
  assert (∀ x, term_at (rn_log n) (request_match req) = Some x →
    x = log_term (take (N.to_nat (request_match req)) h) →
    take (N.to_nat (request_match req)) h `prefix_of` ps_log p id) as Hgo.
  { intros x Hx Hx'. destruct (view_term_at _ _ _ _ ns_log Hx) as (Hle & Hxl & _).
    eapply coherent_agree; [done..|lia|]. by rewrite <-Hxl. }
  destruct (decide (request_match req ≤ lg_snapshot_index (rn_log n))) as [Hsn|Hsn].
  { destruct (commit_in_leader _ _ _ _ _ _ _ Hp ns_commit (N.le_refl _) Hh) as [Hpre Hle].
    simpl in *. set (R := N.to_nat (request_match req)) in *.
    rewrite (take_prefix_take R _ _ Hpre) by (rewrite length_take; lia).
    rewrite take_take, Nat.min_l by lia. apply prefix_take. }
  unfold request_match in *. destruct (last (ae_entries req)) as [e|] eqn:He.
  - apply (Hgo (e_term e)); [apply Hents; [by apply last_Some_elem_of|lia]|].
    rewrite last_lookup in He. pose proof (lookup_lt_Some _ _ _ He) as Hlt.
    assert (h !! (N.to_nat (ae_prev_log_index req) + pred (length (ae_entries req)))%nat = Some e) as Hx.
    { by rewrite <-lookup_drop, <-(lookup_take_lt _ (length (ae_entries req))), <-Hes by lia. }
    apply log_term_take in Hx. rewrite <-Hx, Hr. do 2 f_equal. lia.
  - apply (Hgo (ae_prev_log_term req)); [apply Hprev; lia|done].
Qed.

(** ** Recording the answer *)

(** [p] with an acknowledgement that waits for the disk. *)
#[local] Abbreviation acking p v t m :=
  (p {{ ps_acks ::= λ a v' t' m', a v' t' m' ∨ v' = v ∧ t' = t ∧ m' = m }}).

Lemma ack_local p id t h m :
  core_sim V net p → ps_term p id = t → ps_hist p t = Some h → (m ≤ length h)%nat →
  ((length (ps_start p t) < m)%nat → take m h `prefix_of` ps_log p id) →
  core_sim V net (acking p id t m) ∧ local V net id p (acking p id t m) ∧
  awake id p (acking p id t m) ∧ still p (acking p id t m) id ∧ ps_acks (acking p id t m) id t m.
Proof.
  intros Hc Ht Hh Hm Hk. pose proof (cs_inv _ _ _ Hc) as Hp.
  assert (pstep V p (acking p id t m)) as Hstep by (by eapply p_ack). split_and!.
  - split; [by eapply pstep_ok|apply Hc..].
  - split; [by apply pstep_grow| |by left]. intros v Hv. split; try done. simpl. naive_solver.
  - split; try done. simpl. auto.
  - done.
  - simpl. by right.
Qed.

(** A member that did nothing but acknowledge. *)
Lemma member_sim_acked p p' id M W (m : Member StagedMem) :
  local V net id p p' → awake id p p' → still p p' id → (∀ t, ps_hist p' t = ps_hist p t) →
  member_sim V net p id M W m → member_sim V net p' id M W m.
Proof.
  intros Hl Ha Hs Hh Hm. pose proof (lc_grow _ _ _ _ _ Hl) as Hg.
  destruct m as [n d o].
  apply (member_sim_awake V net p p' id M W (staged_term n) (staged_term n) (MkMember n d o) n); [done..| |done|exact Hm].
  eapply node_sim_still; [done|done|by intros; apply Hh|]. apply Hm.
Qed.

(** The answer waits. *)
Lemma answer_waits p id M W (m : Member StagedMem) h to resp :
  let T := term_of (mb_node m) in let k := N.to_nat (aer_last_log_index resp) in
  core_sim V net p → staged_term (mb_node m) = T → ps_hist p T = Some h → aer_term resp = T →
  (k ≤ length h)%nat → take k h `prefix_of` ps_log p id → member_sim V net p id M W m →
  ∃ p', core_sim V net p' ∧ local V net id p p' ∧
    member_sim V net p' id M (W ++ [(to, resp)]) m.
Proof.
  intros T k Hc HB Hh Ht Hk Hpre Hm.
  destruct (ack_local p id T h k) as (Hc' & Hl & Ha & Hs & Hack); [done|apply Hm|done..|].
  exists (acking p id T k). split_and!; [done..|].
  pose proof (member_sim_acked _ _ _ _ _ _ Hl Ha Hs (λ _, eq_refl) Hm) as [Hn Hd Ho Hw Hlt].
  split; try done. intros to' resp' [Hin|Hin%list_elem_of_singleton]%elem_of_app; [by apply (Hw to')|].
  simplify_eq. intros _. rewrite HB, Ht. split; [done|]. split; [by exists h|].
  intros i _ Hi. right. by exists k.
Qed.

(** The answer leaves at once. *)
Lemma answer_now p id M W (m : Member StagedMem) h (c : u64) :
  let T := term_of (mb_node m) in
  core_sim V net p → staged_term (mb_node m) = T → ps_dterm p id = T → ps_hist p T = Some h →
  (N.to_nat c ≤ length h)%nat → take (N.to_nat c) h `prefix_of` ps_log p id →
  c ≤ stable_index (rn_log (mb_node m)) → member_sim V net p id M W m →
  ∃ p', core_sim V net p' ∧ local V net id p p' ∧ member_sim V net p' id M W m ∧
    promised V p' (ps_aleft p') id T (N.to_nat c).
Proof.
  intros T Hc HB Hd Hh Hk Hpre Hst Hm. pose proof (ms_node _ _ _ _ _ _ _ _ Hm) as Hn.
  rewrite HB in Hn. pose proof (cs_inv _ _ _ Hc) as Hp.
  destruct (decide (c ≤ lg_snapshot_index (rn_log (mb_node m)))) as [Hsn|Hsn].
  { exists p. split_and!; [done|apply local_refl|done|]. split; [by exists h|]. intros i Hi Hle. left.
    eapply commit_chosen; [done|apply Hn|done..| |].
    - etrans; [by apply take_prefix_le|done].
    - destruct Hn. simpl in *. lia. }
  destruct (decide (length (ps_start p T) < N.to_nat c)%nat) as [Hlt|Hlt].
  - destruct (ack_now_local V net p id T h (N.to_nat c)) as (Hc' & Hl & Ha & Hs & Hack);
      [done|apply Hn|done..| |].
    { intros _. split; [done|]. eapply stable_durable; try done; [by exists h|simpl; lia..]. }
    eexists. split_and!; [done|done|by eapply member_sim_acked|]. split; [by exists h|].
    intros i _ Hi. right. by exists (N.to_nat c).
  - exists p. split_and!; [done|apply local_refl|done|]. split; [by exists h|].
    intros i (h' & _ & Hi) Hle. lia.
Qed.

Lemma ae_ok_contiguous p req :
  core_sim V net p → ae_ok V p req → contiguous (ae_prev_log_index req) (ae_entries req).
Proof.
  intros Hc (h & Hh & Hlen & Hes & _). destruct (cs_hist _ _ _ Hc _ _ Hh) as [Hcon _].
  by eapply sent_contiguous.
Qed.

Lemma persist_stable (n : RaftNode StagedMem) :
  let n' := (persist_hard_state_if_dirty n).1 in
  stable_index (rn_log n') = stable_index (rn_log n) ∧ lg_entries (rn_log n') = lg_entries (rn_log n) ∧
  lg_snapshot_index (rn_log n') = lg_snapshot_index (rn_log n).
Proof. unfold persist_hard_state_if_dirty. by case_match. Qed.

(** Logs over the same storage are the same. *)
Lemma storage_entries (l l' : RaftLog StagedMem) a a' :
  durable_ok (l, a) → durable_ok (l', a') → sm_mem (lg_storage l') = sm_mem (lg_storage l) →
  lg_entries l' = lg_entries l.
Proof.
  intros (_ & (_ & Hs & He) & _) (_ & (_ & Hs' & He') & _) Heq. simpl in *. rewrite Heq in *.
  congruence.
Qed.

Lemma reply_waits_false (d : StagedMem) (n n' : RaftNode StagedMem) :
  staged_ok d → later d (node_storage n) → later (node_storage n) (node_storage n') →
  reply_waits d n n' = false →
  sm_mem (node_storage n') = sm_mem (node_storage n) ∧
  ms_hard_state (sm_mem d) = ms_hard_state (sm_mem (node_storage n')).
Proof.
  intros Hok H1 H2. unfold reply_waits. rewrite N.ltb_ge.
  pose proof (lt_staged _ _ H1). pose proof (lt_staged _ _ H2). case N.ltb_spec; intros; [lia|].
  split; [apply (lt_same _ _ H2); lia|]. symmetry. apply (lt_hs d); [by etrans|done|done].
Qed.

(** A handler that ran, with its hard state staged. *)
Lemma member_append_moves p id M W (m : Member StagedMem) ev req :
  core_sim V net p → ae_ok V p req → hs_stored (mb_node m) → member_sim V net p id M W m →
  let n := (handle_append_entries ev req (mb_node m)).1 in
  let n' := (persist_hard_state_if_dirty n).1 in
  (persist_hard_state_if_dirty n).2 = Ok tt ∧ rn_hard_state n' = rn_hard_state n ∧
  ms_hard_state (sm_mem (node_storage n')) = rn_hard_state n ∧
  ∃ p', core_sim V net p' ∧ local V net id p p' ∧
    node_sim V net p' id M (term_of n) (obs n) ∧ member_sim V net p' id M W (m {{ mb_node := n' }}) ∧
    later (node_storage (mb_node m)) (node_storage n').
Proof.
  intros Hc Hae Hst Hs n n'. pose proof (ms_node _ _ _ _ _ _ _ _ Hs) as Hn0.
  assert (rmoves (op_given (OpAppendEntries req)) (obs (mb_node m)) (obs n)) as Hm.
  { apply (run_op_rmoves staged_entries_ok ev (OpAppendEntries req)); [apply Hn0| |done].
    intros req' [= <-]. by eapply ae_ok_contiguous. }
  assert (given_ok V net p id (obs (mb_node m)) (op_given (OpAppendEntries req))) as HG.
  { split; try done. by intros req' [= <-]. }
  destruct (rmoves_follow V net HV2 Hnet _ _ _ _ _ _ _ Hc HG Hn0 Hm)
    as (p' & B & Hc' & Hl & Ha & Hn & HB & _).
  assert (hs_stored n) as Hst' by apply (run_op_stored ev (OpAppendEntries req)), Hst.
  destruct (persist_sim _ _ _ _ _ _ _ Hn Hst') as (Hok & _ & Hhs & Hn'). destruct (persist_frame n) as (Hhs' & _).
  assert (later (node_storage (mb_node m)) (node_storage n')) as Hlt.
  { etrans; [by eapply rmoves_later|apply persist_later]. }
  fold n' in Hhs, Hn', Hhs'. split_and!; [done..|]. exists p'. split_and!; [done|done| | |done].
  - eapply node_sim_bound; [apply Hn|done|done].
  - unfold member_sim, staged_term. simpl. rewrite Hhs.
    eapply member_sim_awake; [done..| |exact Hn'|exact Hlt|exact Hs]. etrans; [exact HB|apply Hn].
Qed.

(** [handle_append_entries_rpc] with a request from the network. *)
Lemma member_append_sim p id M W (m : Member StagedMem) ev req :
  core_sim V net p → ae_ok V p req → hs_stored (mb_node m) → member_sim V net p id M W m →
  let '(n, resp) := handle_append_entries ev req (mb_node m) in
  let n' := (persist_hard_state_if_dirty n).1 in
  (persist_hard_state_if_dirty n).2 = Ok tt ∧
  ∃ p', core_sim V net p' ∧ local V net id p p' ∧
    if reply_waits (mb_disk m) (mb_node m) n'
    then member_sim V net p' id M (W ++ [(ae_leader_id req, resp)]) (m {{ mb_node := n' }})
    else member_sim V net p' id M W (m {{ mb_node := n' }}) ∧
      (aer_success resp = true →
       promised V p' (ps_aleft p') id (aer_term resp) (N.to_nat (aer_last_log_index resp))).
Proof.
  intros Hc Hae Hst Hs. pose proof (ae_ok_contiguous _ _ Hc Hae) as Hcon.
  destruct (member_append_moves p id M W m ev req Hc Hae Hst Hs)
    as (Hok & Hrn & Hhs & p1 & Hc1 & Hl1 & Hn1 & Hs1 & Hlt).
  pose proof (ms_node _ _ _ _ _ _ _ _ Hs) as Hn0.
  destruct (handle_append_entries ev req (mb_node m)) as [n resp] eqn:Hh. cbn [fst] in *.
  destruct (persist_stable n) as (Hstab & Hents & _).
  set (n' := (persist_hard_state_if_dirty n).1) in *. split; [done|].
  destruct (aer_success resp) eqn:Hsuc.
  2: { exists p1. split_and!; [done..|]. case_match; [|done].
    destruct Hs1 as [Hn' Hd Ho Hw Hlt']. split; try done.
    intros to resp' [Hin|Hin%list_elem_of_singleton]%elem_of_app; [by apply (Hw to)|congruence]. }
  destruct (append_success _ _ _ _ _ (proj1 (ns_store _ _ _ _ _ _ _ Hn0)) Hcon Hh Hsuc)
    as (Ht & Hrt & Hprev & Hes & Hcl & Hsn & Hst').
  apply (ae_ok_grow _ _ p1) in Hae; [|apply Hl1]. pose proof Hae as (h & Hhist & _).
  rewrite Ht in Hhist. rewrite <-Hsn in Hes.
  destruct (answer_prefix p1 id M n req h Hc1 Hn1 Hae Ht Hhist Hcon Hprev Hes) as [Hpre Hle].
  assert (take (N.to_nat (aer_last_log_index resp)) h `prefix_of` ps_log p1 id) as Hpre'.
  { etrans; [|exact Hpre]. apply take_prefix_le. lia. }
  assert (term_of n' = term_of n) as Htn by (unfold term_of; by rewrite Hrn).
  assert (staged_term n' = term_of n') as Hstg by (unfold staged_term, term_of; by rewrite Hhs, Hrn).
  rewrite <-Htn in Hhist, Hrt. case_match eqn:Hw.
  - edestruct (answer_waits p1 id M W (m {{ mb_node := n' }}) h (ae_leader_id req) resp)
      as (p2 & ? & Hl2 & ?); try done; [lia|].
    exists p2. split_and!; [done|by eapply local_trans|done].
  - apply reply_waits_false in Hw as [Hmem Hdhs]; [|apply Hs|apply Hs|exact Hlt].
    edestruct (answer_now p1 id M W (m {{ mb_node := n' }}) h (aer_last_log_index resp))
      as (p2 & ? & Hl2 & ? & Hpr); try done; [|lia| |].
    + destruct Hs1 as [_ (_ & _ & _ & _ & _ & Hdt & _) _ _ _]. simpl in Hdt. rewrite <-Hdt, Hdhs.
      exact Hstg.
    + simpl. rewrite Hstab. destruct Hst' as [?|Hno]; [done|]. destruct Hno. rewrite <-Hents.
      eapply storage_entries; [apply Hn0|apply (ms_node _ _ _ _ _ _ _ _ Hs1)|done].
    + exists p2. split_and!; [done|by eapply local_trans|done|]. intros _.
      by rewrite Hrt.
Qed.
End answers.
