(* ===== verification/RaftRecovery.v ===== *)
(** * Disks, durable marks and restarts

    A flush makes the staged writes of a member durable and lets its messages
    go; the writer reports the last durable entry; a crash mounts the member
    again from its disk. Each is a step of the protocol. *)

From stdpp Require Import base option gmap functions relations list.
From S2P Require Import Prelude RaftState RaftLog RaftLogFacts RaftNode RaftOps RaftRpc.
From S2P Require Import RaftNodeFacts RaftSteps RaftNodeThms RaftDurability RaftDelivery RaftSpecs.
From S2P Require Import RaftGroup RaftElection RaftProtocol RaftReplication RaftMoves RaftViews.
From S2P Require Import RaftSim RaftSimMoves RaftMembers.

Open Scope N_scope.

Section recovery.
Context (V : gset u64) (net : list VoteMsg).
Implicit Types (p : PState) (t u v w id T : u64) (l L h : Log) (i : nat) (c B : u64).
Implicit Types (M : list (u64 * u64)) (W : list (u64 * AppendEntriesResponse)).
Implicit Types (m : Member StagedMem) (n : RaftNode StagedMem) (lg : RaftLog StagedMem).

(** ** Marks *)

(** The last entry of a log that is durable. *)
Lemma log_mark_ok p id lg L :
  pinv V p → view lg L → ps_log p id = L → ps_dlog p id = L → mark_ok p id (log_mark lg).
Proof.
  intros Hp Hv Hl Hd. unfold mark_ok, log_mark. simpl.
  rewrite (view_last_index _ _ Hv), (view_last_term _ _ Hv), Nat2N.id.
  destruct (pi_dlog _ _ Hp id) as [Hco Hle]. rewrite Hd in Hco, Hle.
  destruct (last L) as [e|] eqn:He; [right|left; unfold log_term; by rewrite He].
  assert (log_term L = e_term e) as -> by (unfold log_term; by rewrite He).
  split; [by apply Hle, last_Some_elem_of|].
  rewrite last_lookup in He. pose proof (lookup_lt_Some _ _ _ He) as Hlen.
  destruct (Hco _ _ He) as (h & Hh & Hpre). rewrite take_ge in Hpre by lia.
  exists h. pose proof (prefix_length _ _ Hpre). split_and!; [done|lia|]. intros _ _.
  rewrite Hl, Hd, (take_prefix_take _ _ _ Hpre), take_ge by lia. done.
Qed.

Lemma restored_mark_log lg a :
  durable_ok (lg, a) → restored_mark (sm_mem (lg_storage lg)) = log_mark lg.
Proof.
  intros (_ & (_ & Hs & He) & _). simpl in *. injection Hs as Hs Ht.
  unfold restored_mark, log_mark, last_index, last_term. rewrite Hs, He, Ht.
  by destruct (last (lg_entries lg)).
Qed.

(** The node sees a reported mark. *)
Lemma member_mark p id M W m mk :
  mk ∈ M ∨ mk.2 = 0 → member_sim V net p id M W m →
  member_sim V net p id M W (m {{ mb_node ::= set_stable mk }}).
Proof.
  intros Hmk [Hn Hd Ho Hw [Hst []]]. split; try done. destruct Hn; split; try done.
  intros mk' [->|Hin]%elem_of_cons; [|apply ns_marks; by right].
  destruct Hmk as [?|?]; [apply ns_marks; by right|by left].
Qed.

(** ** Growing networks *)

Lemma node_sim_net net' p id M B o :
  (∀ x, x ∈ net → x ∈ net') → net_agrees net' →
  (∀ t h, ps_hist p t = Some h → ∃ j, elected_by V net t j) →
  node_sim V net p id M B o → node_sim V net' p id M B o.
Proof.
  intros Hsub Hag Hel []. split; try done.
  - intros Hr. destruct (ns_lead Hr) as (? & ? & ?). split_and!; [done|by eapply elected_mono|done].
  - intros Hr. destruct (ns_cand Hr) as (? & ? & Hv). split_and!; [done..|]. intros v Hin.
    destruct (Hv v Hin) as (resp & ? & ?). exists resp. auto.
  - intros t [h Hh] He. apply ns_tenure; [by exists h|]. destruct (Hel _ _ Hh) as [j Hj].
    assert (j = id) as <-; [|done]. eapply elected_unique; [done|by eapply elected_mono|done].
Qed.

Lemma member_sim_net net' p id M W m :
  (∀ x, x ∈ net → x ∈ net') → net_agrees net' →
  (∀ t h, ps_hist p t = Some h → ∃ j, elected_by V net t j) →
  member_sim V net p id M W m → member_sim V net' p id M W m.
Proof. intros Hsub Hag Hel []. split; [by eapply node_sim_net|done..]. Qed.

(** ** Flushing *)

(** [p] after [v] made its state durable, with term [st]. *)
Definition flushed p (v st : u64) : PState :=
  p {{ ps_dterm ::= <[v := st]>; ps_dlog ::= <[v := ps_log p v]>;
       ps_gleft ::= <[v := λ u l, ps_grants p v u l ∧ u ≤ st]>;
       ps_aleft ::= <[v := λ t k, ps_acks p v t k ∧ t ≤ st]> }}.

Lemma flush_local p id M B o :
  core_sim V net p → node_sim V net p id M B o →
  pinv V (flushed p id B) ∧ local V net id p (flushed p id B).
Proof.
  intros Hc []. assert (pstep V p (flushed p id B)) as Hstep.
  { apply p_flush; [|done]. rewrite ns_term. done. }
  split; [eapply pstep_ok; [done|apply Hc]|]. split; [by apply pstep_grow; [apply Hc|]| |by left].
  intros v Hv. split; simpl; rewrite ?fn_lookup_insert_ne by done; done.
Qed.

(** What waited is in the network. *)
Lemma flush_core p id B out :
  pinv V (flushed p id B) → grow V p (flushed p id B) → core_sim V net p → out_sim p id B out →
  core_sim V (net ++ out) (flushed p id B).
Proof.
  intros Hp Hg [] [Hq Hr].
  assert (∀ u l, ps_grants p id u l → u ≤ B → ps_gleft (flushed p id B) id u l) as Hown.
  { intros u l Hl Hu. simpl. rewrite fn_lookup_insert. done. }
  split; try done.
  - intros t h Hh. destruct (cs_hist t h Hh) as [? [j Hj]]. split; [done|]. exists j.
    eapply elected_mono; [|done]. intros x Hx. apply elem_of_app. by left.
  - intros to req [Hin|Hin]%elem_of_app.
    + destruct (cs_vreq _ _ Hin) as (l & ? & ?). exists l. split; [by apply (gw_gleft _ _ _ Hg)|done].
    + destruct (Hq _ _ Hin) as (-> & ? & l & ? & ?). exists l. split; [by apply Hown|done].
  - intros from to resp [Hin|Hin]%elem_of_app Hgr.
    + destruct (cs_vresp _ _ _ Hin Hgr) as (l & ? & ?). exists l. split; by apply (gw_gleft _ _ _ Hg).
    + destruct (Hr _ _ _ Hin Hgr) as (-> & ? & l & ? & ?). exists l.
      split; [by apply Hown|by apply (gw_gleft _ _ _ Hg)].
Qed.

Lemma commit_ok_below p B L c c' : c' ≤ c → commit_ok V p B L c → commit_ok V p B L c'.
Proof.
  intros Hle [->|(t & i & h & ? & ? & ? & ? & Hpre)]; [left; lia|right]. exists t, i, h.
  split_and!; [done..|lia|]. etrans; [|exact Hpre]. apply take_prefix_le. lia.
Qed.

Lemma flush_node p id M n :
  let B := staged_term n in let p' := flushed p id B in
  pinv V p' → grow V p p' → node_sim V net p id M B (obs n) →
  node_sim V net p' id (M ++ [log_mark (rn_log n)]) B (obs n).
Proof.
  intros B p' Hp Hg []. pose proof (gw_gleft _ _ _ Hg) as Hgl.
  assert (ps_dterm p' id = B) as Hdt by apply fn_lookup_insert.
  assert (ps_dlog p' id = ps_log p' id) as Hdl by apply fn_lookup_insert.
  assert (∀ hs, vote_ok p id hs → vote_ok p' id hs) as Hvote.
  { intros hs Hv. by eapply vote_ok_grow. }
  split; try done; eauto using certified_grow, ae_ok_grow.
  - rewrite Hdt. split; [done|apply ns_bound].
  - by eapply commit_ok_grow.
  - destruct ns_staged as (hst & ? & ? & ?). exists hst. auto.
  - intros mt Hmt. destruct (ns_match mt Hmt) as [? Hk]. split; [done|]. intros v.
    eapply promised_grow; [done| |apply Hk]. intros i. apply (gw_aleft _ _ _ Hg).
  - intros Hr. destruct (ns_lead Hr) as (? & ? & ?). split_and!; [done..|]. rewrite Hdt. lia.
  - intros t Hs He. destruct (ns_tenure t Hs He). rewrite Hdt. split; [lia|done].
  - intros mk Hmk.
    assert (mk ∈ sm_stable (lg_storage (ob_log (obs n))) :: M ∨ mk = log_mark (rn_log n)) as [Hin| ->].
    { apply elem_of_cons in Hmk as [->|[?|?%list_elem_of_singleton]%elem_of_app];
        [left; left|left; by right|by right]. }
    + destruct (ns_marks mk Hin) as [?|(Hle & h & Hh & Hlen & Hk)]; [by left|right].
      rewrite Hdt. split; [lia|]. exists h. split_and!; [done..|]. intros Ht Hs.
      destruct (Hk Ht Hs). by rewrite Hdl.
    + by eapply log_mark_ok.
Qed.

Lemma flush_disk p id M n :
  let B := staged_term n in let p' := flushed p id B in
  grow V p p' → node_sim V net p id M B (obs n) → disk_sim V p' id (node_storage n).
Proof.
  intros B p' Hg []. pose proof (gw_gleft _ _ _ Hg) as Hgl.
  assert (ps_dterm p' id = B) as Hdt by apply fn_lookup_insert.
  assert (ps_dlog p' id = ps_log p id) as Hdl by apply fn_lookup_insert.
  exists (rn_log n), (rn_durable_applied n). rewrite Hdt, Hdl. split_and!; try done.
  - eapply commit_ok_grow; [done..|]. by eapply commit_ok_below.
  - intros l Hl. assert (ps_grants p id B l) as Hgr.
    { revert Hl. simpl. rewrite fn_lookup_insert. by intros []. }
    destruct ns_staged as (hst & [= Heq] & Hv & _). rewrite <-Heq in Hv.
    destruct (Hv l Hgr) as [? [?|?]]; (split; [done|]); [by left|right; by apply Hgl].
Qed.

(** The member's answers that waited leave as durable promises. *)
Lemma flush_replies p id B W :
  grow V p (flushed p id B) → waiting_sim V p id B W →
  ∀ to resp, (to, resp) ∈ W → aer_success resp = true →
    promised V (flushed p id B) (ps_aleft (flushed p id B)) id (aer_term resp)
      (N.to_nat (aer_last_log_index resp)).
Proof.
  intros Hg Hw to resp Hin Hs. destruct (Hw to resp Hin Hs) as [Hle Hpr].
  eapply promised_grow; [done| |done]. intros k Hk. simpl. by rewrite fn_lookup_insert.
Qed.

(** ** Restarts *)

(** [p] after [v] lost what was not durable. *)
Definition crashed p (v : u64) : PState :=
  p {{ ps_term ::= <[v := ps_dterm p v]>; ps_log ::= <[v := ps_dlog p v]>;
       ps_grants ::= <[v := ps_gleft p v]>; ps_acks ::= <[v := ps_aleft p v]> }}.

Lemma crash_core p id :
  core_sim V net p → core_sim V net (crashed p id) ∧ local V net id p (crashed p id).
Proof.
  intros Hc. pose proof (cs_inv _ _ _ Hc) as Hp.
  assert (pstep V p (crashed p id)) as Hstep by apply p_crash. split.
  - destruct Hc. split; [by eapply pstep_ok|done|done| |done|done].
    intros v u l l'. simpl. destruct (decide (v = id)) as [->|Hne].
    + rewrite fn_lookup_insert. intros [? _]%(pi_gleft _ _ Hp) [? _]%(pi_gleft _ _ Hp). by eapply cs_unique.
    + rewrite fn_lookup_insert_ne by done. by apply cs_unique.
  - split; [by apply pstep_grow| |by left].
    intros v Hv. split; simpl; rewrite ?fn_lookup_insert_ne by done; done.
Qed.

Lemma boot_leader_state ev config (d : StagedMem) n :
  boot ev config d = (n, Ok tt) → rn_leader_state n = None.
Proof.
  unfold boot, node_restore, log_restore. simpl.
  by intros [= <-].
Qed.

(** The observed state of a node mounted from [lg]. *)
Definition mounted (config : RaftConfig) (role : NodeRole) lg (a : u64) : Obs StagedMem :=
  MkObs config role (ms_hard_state (sm_mem (lg_storage lg))) lg a a a None ∅ None [] [] [].

Lemma mounted_node p id M config role lg a :
  let hd := ms_hard_state (sm_mem (lg_storage lg)) in
  pinv V p → ps_term p id = ps_dterm p id → ps_log p id = ps_dlog p id →
  config_ok V id config → (is_voter_role role = true → id ∈ V) → role ≠ Leader → role ≠ Candidate →
  (∀ t, is_Some (ps_hist p t) → elected_by V net t id → t ≤ ps_dterm p id) →
  durable_ok (lg, a) → view lg (ps_dlog p id) → current_term hd = ps_dterm p id →
  lg_snapshot_index lg ≤ a → commit_ok V p (ps_dterm p id) (ps_dlog p id) a → vote_ok p id hd →
  (∀ mk, mk ∈ sm_stable (lg_storage lg) :: M → mk = log_mark lg) →
  node_sim V net p id M (ps_dterm p id) (mounted config role lg a).
Proof.
  intros hd Hp Htm Hlog Hcfg Hrole Hnl Hnc Hten Hdur Hv Ht Hsn Hcm Hvote Hmk.
  split; rewrite ?Hlog; try done; try (intros *; by intros []%elem_of_nil).
  - by rewrite Htm.
  - change (ps_dterm p id ≤ ps_dterm p id ∧ ps_dterm p id ≤ current_term hd). lia.
  - apply (pi_dlog _ _ Hp id).
  - by exists hd.
  - intros t Hs He. split; [by apply Hten|done].
  - intros mk ->%Hmk. by eapply log_mark_ok.
Qed.

(** What a node mounted from [lg] shows. *)
Lemma boot_mounted ev config lg a :
  durable_ok (lg, a) →
  ∃ n, boot ev config (lg_storage lg) = (n, Ok tt) ∧ rn_log n = lg ∧
    obs n = mounted config (rn_role n) lg a ∧ rn_role n ≠ Leader ∧ rn_role n ≠ Candidate.
Proof.
  intros Hdur.
  destruct (boot_recovers ev config lg (ms_hard_state (sm_mem (lg_storage lg))) a Hdur eq_refl)
    as (n & Hb & Hcfg & Hhs & Hrl & Hda & Hvol & Hvts & Hrd & _ & Hnl & Hnc).
  exists n. split_and!; try done. unfold obs, mounted, commit_of, applied_of.
  rewrite Hcfg, Hhs, Hrl, Hda, Hvol, Hvts, Hrd. by rewrite (boot_leader_state _ _ _ _ Hb).
Qed.

Lemma disk_boots p id (d : StagedMem) ev config :
  disk_sim V p id d → ∃ n, boot ev config d = (n, Ok tt).
Proof.
  intros (lg & a & Hs & (Hwf & (Hok & Hmeta & He) & Ha) & _). simpl in *. rewrite Hs in *.
  destruct (boot_mounted ev config (lg {{ lg_storage := d }}) a) as (n & Hb & _); [by split_and!|].
  by exists n.
Qed.

(** A member mounted from its disk, with the mark of what the disk holds. *)
Lemma member_crash p id M W m ev n :
  let d := remounted (mb_disk m) in
  core_sim V net p → boot ev (rn_config (mb_node m)) d = (n, Ok tt) →
  (is_voter_role (rn_role n) = true → id ∈ V) → member_sim V net p id M W m →
  member_sim V net (crashed p id) id [sm_stable d] [] (MkMember n d []).
Proof.
  intros d Hc Hb Hrole [Hn (lg & a & Hs & Hdur & Hv & Ht & Hsn & Hcm & Hvote) _ _ _].
  set (lg' := lg {{ lg_storage := d }}).
  assert (durable_ok (lg', a)) as Hdur'.
  { destruct Hdur as (? & (? & ? & ?) & ?). simpl in *. rewrite Hs in *. by split_and!. }
  assert (log_mark lg' = sm_stable d) as Hmk by (symmetry; apply (restored_mark_log lg' a Hdur')).
  destruct (boot_mounted ev (rn_config (mb_node m)) lg' a Hdur') as (n' & Hb' & Hrl & Hobs & Hnl & Hnc).
  change (lg_storage lg') with d in Hb'. rewrite Hb in Hb'. injection Hb' as <-.
  assert (staged_term n = ps_dterm p id) as HB.
  { unfold staged_term, node_storage. rewrite Hrl. exact Ht. }
  unfold member_sim. simpl. rewrite HB. split; simpl.
  - assert (ps_term (crashed p id) id = ps_dterm p id) as Htm by apply fn_lookup_insert.
    assert (ps_log (crashed p id) id = ps_dlog p id) as Hlog by apply fn_lookup_insert.
    rewrite Hobs. apply (mounted_node (crashed p id)); try done.
    + by apply crash_core.
    + apply Hn.
    + intros t Hs' He. by apply (ns_tenure _ _ _ _ _ _ _ Hn).
    + intros l Hl. revert Hl. simpl. rewrite fn_lookup_insert, Ht. apply Hvote.
    + rewrite Hmk. by intros mk [->|?%list_elem_of_singleton]%elem_of_cons.
  - by exists lg', a; split_and!.
  - split; intros *; by intros []%elem_of_nil.
  - intros to resp []%elem_of_nil.
  - unfold node_storage. by rewrite Hrl.
Qed.
End recovery.
