(* ===== verification/RaftSafety.v ===== *)
(** * Safety of a replicating group

    The group of [RaftReplication] implements the protocol of
    [RaftProtocol], so that what its nodes hand to their state machines
    agrees: at every time, on every node, over every run with message loss,
    duplication and reordering, crashes that lose what is not durable, and
    compaction. *)

From stdpp Require Import base option gmap functions relations list.
From S2P Require Import Prelude RaftState RaftLog RaftLogFacts RaftNode RaftOps RaftRpc.
From S2P Require Import RaftNodeFacts RaftSteps RaftNodeThms RaftDurability RaftDelivery RaftSpecs.
From S2P Require Import RaftGroup RaftElection RaftProtocol RaftReplication RaftMoves RaftViews.
From S2P Require Import RaftSim RaftSimMoves RaftMembers RaftAnswers RaftRecovery.

Open Scope N_scope.

Section safety.
Context (V : gset u64) (HV2 : (2 ≤ size V)%nat).
Implicit Types (g : RGroup) (p : PState) (id v w t : u64).
Implicit Types (m : Member StagedMem) (n : RaftNode StagedMem).

#[local] Abbreviation net g := (gr_net (rg_group g)).
#[local] Abbreviation members g := (gr_members (rg_group g)).

(** The group and the protocol state it implements. *)
Record rg_sim g p : Prop := MkRgSim {
  rs_group : group_inv V (rg_group g);
  rs_core : core_sim V (net g) p;
  rs_members : ∀ id m, members g !! id = Some m →
    member_sim V (net g) p id (rg_marks g !!! id) (rg_waiting g !!! id) m;
  rs_appends : ∀ to req, (to, req) ∈ rg_appends g → ae_ok V p req;
  rs_replies : ∀ from to resp, (from, to, resp) ∈ rg_replies g → aer_success resp = true →
    promised V p (ps_aleft p) from (aer_term resp) (N.to_nat (aer_last_log_index resp));
  rs_delivered : ∀ id e, (id, e) ∈ rg_delivered g → certified V p e;
}.

(** The protocol follows to [g']. *)
Definition rg_follows p g' : Prop := ∃ p', grow V p p' ∧ rg_sim g' p'.

Lemma rg_stay g p : rg_sim g p → rg_follows p g.
Proof. exists p. split; [apply grow_refl|done]. Qed.

Lemma rg_stored g p id m : rg_sim g p → members g !! id = Some m → hs_stored (mb_node m).
Proof.
  intros Hs Hm. destruct (gi_members _ _ (rs_group _ _ Hs) _ _ Hm) as (hd & hst & []).
  by exists hst.
Qed.

(** One member moved, over the same network. *)
Lemma rg_frame g p g' p' id m' :
  rg_sim g p → group_inv V (rg_group g') → net g' = net g → members g' = <[id := m']> (members g) →
  core_sim V (net g) p' → local V (net g) id p p' →
  member_sim V (net g) p' id (rg_marks g' !!! id) (rg_waiting g' !!! id) m' →
  (∀ w, w ≠ id → rg_marks g' !!! w = rg_marks g !!! w ∧ rg_waiting g' !!! w = rg_waiting g !!! w) →
  (∀ to req, (to, req) ∈ rg_appends g' → (to, req) ∈ rg_appends g ∨ ae_ok V p' req) →
  (∀ from to resp, (from, to, resp) ∈ rg_replies g' → aer_success resp = true →
    (from, to, resp) ∈ rg_replies g ∨
    promised V p' (ps_aleft p') from (aer_term resp) (N.to_nat (aer_last_log_index resp))) →
  (∀ w e, (w, e) ∈ rg_delivered g' → (w, e) ∈ rg_delivered g ∨ certified V p' e) →
  rg_follows p g'.
Proof.
  intros [Hgi Hc Hmem Hap Hre Hde] Hgi' Hnet Hms Hc' Hl Hm' Hoth Hap' Hre' Hde'.
  pose proof (lc_grow _ _ _ _ _ Hl) as Hg. exists p'. split; [done|]. split; rewrite ?Hnet; try done.
  - rewrite Hms. intros w m [[<- <-]|[Hne Hw]]%lookup_insert_Some; [done|].
    destruct (Hoth w) as [-> ->]; [done|]. eapply member_sim_other; [apply Hgi|done|done|by apply Hmem].
  - intros to req Hin. destruct (Hap' to req Hin) as [?|?]; [|done]. eauto using ae_ok_grow.
  - intros from to resp Hin Hs. destruct (Hre' from to resp Hin Hs) as [?|?]; [|done].
    eapply promised_grow; [done| |by eapply Hre]. intros k. apply (gw_aleft _ _ _ Hg).
  - intros w e Hin. destruct (Hde' w e Hin) as [?|?]; [|done]. eauto using certified_grow.
Qed.

(** An action of the group that sends nothing. *)
Lemma quiet_act g a m m' :
  members g !! action_id a = Some m → member_act (net g) a m = (m', []) →
  net (base_act a g) = net g ∧ members (base_act a g) = <[action_id a := m']> (members g).
Proof.
  intros Hm Ha. unfold base_act, group_act. simpl. rewrite Hm, Ha. simpl.
  by rewrite app_nil_r.
Qed.

Lemma rg_quiet g p a m m' :
  rg_sim g p → members g !! action_id a = Some m → member_act (net g) a m = (m', []) →
  member_follows V (net g) p (action_id a) (rg_marks g !!! action_id a)
    (rg_waiting g !!! action_id a) m' →
  rg_follows p (base_act a g).
Proof.
  intros Hs Hm Ha (p' & Hc' & Hl & Hm'). destruct (quiet_act g a m m' Hm Ha) as [Hnet Hms].
  eapply (rg_frame g p (base_act a g) p'); try done; try by left.
  by apply group_act_inv, Hs.
Qed.

Lemma absent_act g a : members g !! action_id a = None → base_act a g = g.
Proof.
  intros Hm. destruct g as [gr ap wa re ma de]. simpl in Hm.
  change (MkRGroup (group_act gr a) ap wa re ma de = MkRGroup gr ap wa re ma de).
  unfold group_act. by rewrite Hm.
Qed.

Lemma member_stay g p id m :
  rg_sim g p → members g !! id = Some m →
  member_follows V (net g) p id (rg_marks g !!! id) (rg_waiting g !!! id) m.
Proof. intros Hs Hm. exists p. split_and!; [apply Hs|apply local_refl|by apply Hs]. Qed.

(** ** The actions *)

Lemma tick_follows g p id ev : rg_sim g p → rg_follows p (rg_act g (RTick id ev)).
Proof.
  intros Hs. simpl. destruct (members g !! id) as [m|] eqn:Hm; [|by apply rg_stay].
  destruct (member_tick_sim V (net g) HV2 (gi_net _ _ (rs_group _ _ Hs)) p id (rg_marks g !!! id) (rg_waiting g !!! id) m ev)
    as (p' & r & Hr & Hc' & Hl & Hm' & Hap & Hde); [apply Hs|by eapply rg_stored|by apply Hs|].
  rewrite Hr. destruct (quiet_act g (ATick id ev) m (member_tick ev m) Hm eq_refl) as [Hnet Hms].
  eapply (rg_frame g p _ p' id); try done; simpl; try by left.
  - by apply group_act_inv, Hs.
  - intros to req [?|?]%elem_of_app; [by left|right; by eapply Hap].
  - intros w e [?|(e' & [= -> ->] & ?)%list_elem_of_fmap]%elem_of_app; [by left|right; by apply Hde].
Qed.

Lemma op_follows g p id ev op m :
  rg_sim g p → members g !! id = Some m → is_vote_op op = false → snapshot_op op = false →
  (∀ req, op ≠ OpAppendEntries req) →
  given_ok V (net g) p id (obs (mb_node m)) (op_given op) →
  rg_follows p (base_act (AOp id ev op) g).
Proof.
  intros Hs Hm Hv Hsn Hap HG. eapply (rg_quiet g p (AOp id ev op)); [done..| |].
  - simpl. by rewrite Hv.
  - apply (member_op V (net g) HV2 (gi_net _ _ (rs_group _ _ Hs)) p id _ _ m ev op); try done; by apply Hs.
Qed.

Lemma local_follows g p id ev op : rg_sim g p → rg_follows p (rg_act g (ROp id ev op)).
Proof.
  intros Hs. simpl. destruct (members g !! id) as [m|] eqn:Hm; [|by apply rg_stay].
  destruct (local_op _ _ _ _) eqn:Hop; [|by apply rg_stay].
  eapply op_follows; [done..|by destruct op|by destruct op|by destruct op|].
  split; simpl; try by destruct op.
  - intros a ->. simpl in Hop. by apply N.leb_le.
  - intros a ->. simpl in Hop. by apply N.leb_le.
  - intros e He. destruct op; try done. simpl in Hop. rewrite forallb_forall in Hop.
    eapply (rs_delivered _ _ Hs id). eapply bool_decide_eq_true, Hop. by apply list_elem_of_In.
Qed.

Lemma persist_follows g p id : rg_sim g p → rg_follows p (rg_act g (RPersist id)).
Proof.
  intros Hs. simpl. destruct (members g !! id) as [m|] eqn:Hm.
  2: { rewrite absent_act by done. by apply rg_stay. }
  eapply (rg_quiet g p (APersist id)); [done..|]. exists p. split_and!; [apply Hs|apply local_refl|].
  apply member_persist_sim; [apply Hs|by eapply rg_stored|by apply Hs].
Qed.

Lemma request_vote_follows g p id ev req : rg_sim g p → rg_follows p (rg_act g (RRequestVote id ev req)).
Proof.
  intros Hs. simpl. destruct (members g !! id) as [m|] eqn:Hm.
  2: { rewrite absent_act by done. by apply rg_stay. }
  eapply (rg_quiet g p (ARequestVote id ev req) m
    (if bool_decide (VReq id req ∈ net g) then member_request_vote ev id req m else m)); [done..| |].
  - simpl. by case_bool_decide.
  - simpl. case_bool_decide as Hin; [|by apply member_stay].
    apply member_vote_sim; try done; [apply Hs..|by eapply rg_stored|by apply Hs].
Qed.

Lemma vote_response_follows g p id ev from resp :
  rg_sim g p → rg_follows p (rg_act g (RVoteResponse id ev from resp)).
Proof.
  intros Hs. simpl. destruct (members g !! id) as [m|] eqn:Hm.
  2: { rewrite absent_act by done. by apply rg_stay. }
  eapply (rg_quiet g p (AVoteResponse id ev from resp) m
    (if bool_decide (VResp from id resp ∈ net g)
     then m {{ mb_node := handle_request_vote_response ev from resp (mb_node m) }} else m)); [done..| |].
  - simpl. by case_bool_decide.
  - simpl. case_bool_decide as Hin; [|by apply member_stay].
    apply (member_op V (net g) HV2 (gi_net _ _ (rs_group _ _ Hs)) p id _ _ m ev
      (OpRequestVoteResponse from resp)); try done; [apply Hs| |by apply Hs].
    split; try done. intros v t (-> & Ht & Hg). by exists resp.
Qed.

Lemma append_response_follows g p id ev from resp :
  rg_sim g p → rg_follows p (rg_act g (RAppendResponse id ev from resp)).
Proof.
  intros Hs. simpl. case_bool_decide as Hin; [|by apply rg_stay].
  set (a := AOp id ev (OpAppendEntriesResponse from resp)).
  assert (rg_follows p (base_act a g)) as (p' & Hg & Hs').
  { destruct (members g !! id) as [m|] eqn:Hm; [|rewrite absent_act by done; by apply rg_stay].
    eapply op_follows; [done..|]. split; try done. intros v t k (-> & <- & Hok & <-).
    by eapply (rs_replies _ _ Hs). }
  destruct (persist_follows _ _ id Hs') as (p2 & Hg2 & Hs2).
  exists p2. split; [by eapply grow_trans|done].
Qed.

(** The group after the handler ran and staged its hard state. *)
Lemma append_act g id ev req m :
  members g !! id = Some m →
  let n := (handle_append_entries ev req (mb_node m)).1 in
  let g' := base_act (APersist id) (base_act (AOp id ev (OpAppendEntries req)) g) in
  net g' = net g ∧
  members g' = <[id := m {{ mb_node := (persist_hard_state_if_dirty n).1 }}]> (members g).
Proof.
  intros Hm n g'. destruct (quiet_act g (AOp id ev (OpAppendEntries req)) m (m {{ mb_node := n }}) Hm eq_refl)
    as [Hnet Hms].
  destruct (quiet_act (base_act (AOp id ev (OpAppendEntries req)) g) (APersist id) (m {{ mb_node := n }})
    (m {{ mb_node := (persist_hard_state_if_dirty n).1 }})) as [Hnet' Hms'];
    [rewrite Hms; apply lookup_insert_eq|done|].
  unfold g'. rewrite Hnet', Hms', Hnet, Hms. split; [done|]. apply insert_insert_eq.
Qed.

Lemma append_follows g p id ev req : rg_sim g p → rg_follows p (rg_act g (RAppend id ev req)).
Proof.
  intros Hs. simpl. destruct (members g !! id) as [m|] eqn:Hm; [|by apply rg_stay].
  case_bool_decide as Hin; [|by apply rg_stay].
  pose proof (member_append_sim V (net g) HV2 (gi_net _ _ (rs_group _ _ Hs)) p id (rg_marks g !!! id)
    (rg_waiting g !!! id) m ev req) as Hsim.
  destruct (append_act g id ev req m Hm) as [Hnet Hms]. unfold rg_append.
  destruct (handle_append_entries ev req (mb_node m)) as [n resp]. simpl in Hms.
  set (g1 := base_act (APersist id) _) in *.
  assert (group_inv V (rg_group g1)) as Hgi by (by do 2 apply group_act_inv; apply Hs).
  destruct Hsim as (Hok & p' & Hc' & Hl & Hw);
    [apply Hs|by eapply rs_appends|by eapply rg_stored|by apply Hs|].
  destruct (persist_hard_state_if_dirty n) as [n' r]. simpl in Hok, Hms, Hw. subst r.
  assert (∀ from to resp', (from, to, resp') ∈ rg_replies g1 → (from, to, resp') ∈ rg_replies g) as Hre
    by done.
  destruct (reply_waits (mb_disk m) (mb_node m) n').
  - eapply (rg_frame g p _ p' id); try done; try by left.
    + simpl. by rewrite lookup_total_insert_eq.
    + intros w Hne. simpl. by rewrite lookup_total_insert_ne.
  - destruct Hw as [Hm' Hpr]. eapply (rg_frame g p _ p' id); try done; try by left.
    intros from to resp' [?|Hx%list_elem_of_singleton]%elem_of_app Hok'; [by left|right].
    injection Hx as -> -> ->. by apply Hpr.
Qed.

(** Durable marks do not matter to elections. *)
Lemma set_member_inv g id m' :
  group_inv V (rg_group g) → member_inv V (net g) id m' → group_inv V (rg_group (set_member id m' g)).
Proof.
  intros [] Hm. split; try done. simpl. intros w x [[<- <-]|[_ Hx]]%lookup_insert_Some; [done|].
  by apply gi_members.
Qed.

Lemma set_stable_inv g p id m mk :
  rg_sim g p → members g !! id = Some m →
  group_inv V (rg_group (set_member id (m {{ mb_node ::= set_stable mk }}) g)).
Proof.
  intros Hs Hm. apply set_member_inv; [apply Hs|].
  destruct (gi_members _ _ (rs_group _ _ Hs) _ _ Hm) as (hd & hst & [? ? ? ? ? ? ? ? []]).
  by exists hd, hst.
Qed.

Lemma set_disk_inv g p id m :
  rg_sim g p → members g !! id = Some m →
  group_inv V (rg_group (set_member id (m {{ mb_disk := remounted (mb_disk m) }}) g)).
Proof.
  intros Hs Hm. apply set_member_inv; [apply Hs|].
  destruct (gi_members _ _ (rs_group _ _ Hs) _ _ Hm) as (hd & hst & []).
  by exists hd, hst.
Qed.

Lemma mark_follows g p id mk : rg_sim g p → rg_follows p (rg_act g (RMark id mk)).
Proof.
  intros Hs. simpl. destruct (members g !! id) as [m|] eqn:Hm; [|by apply rg_stay].
  destruct (_ || _) eqn:Hb; [|by apply rg_stay].
  assert (mk ∈ rg_marks g !!! id ∨ mk.2 = 0) as Hmk.
  { apply orb_true_iff in Hb as [?%bool_decide_eq_true|?%N.eqb_eq]; auto. }
  eapply (rg_frame g p _ p id); try done; try by left.
  - by eapply set_stable_inv.
  - apply Hs.
  - apply local_refl.
  - apply member_mark; [done|by apply Hs].
Qed.

Lemma crash_follows g p id ev : rg_sim g p → rg_follows p (rg_act g (RCrash id ev)).
Proof.
  intros Hs. simpl. destruct (members g !! id) as [m|] eqn:Hm; [|by apply rg_stay].
  set (m1 := m {{ mb_disk := remounted (mb_disk m) }}).
  pose proof (set_disk_inv g p id m Hs Hm) as Hgi1. fold m1 in Hgi1.
  set (g1 := set_member id m1 g) in *.
  assert (group_inv V (rg_group (base_act (ACrash id ev) g1))) as Hgi2 by (by apply group_act_inv).
  pose proof (rs_members _ _ Hs id m Hm) as Hms.
  destruct (disk_boots V p id (mb_disk m1) ev (rn_config (mb_node m))) as [n Hb];
    [apply Hms|].
  assert (members g1 !! id = Some m1) as Hm1 by apply lookup_insert_eq.
  destruct (quiet_act g1 (ACrash id ev) m1 (MkMember n (mb_disk m1) [])) as [Hnet Hmem]; [done| |].
  { unfold member_act. change (mb_node m1) with (mb_node m). by rewrite Hb. }
  assert (is_voter_role (rn_role n) = true → id ∈ V) as Hrole.
  { destruct (gi_members _ _ Hgi2 id (MkMember n (mb_disk m1) [])) as (? & ? & Hi).
    - rewrite Hmem. apply lookup_insert_eq.
    - apply (vi_role _ _ _ _ _ (mi_voter _ _ _ _ _ _ Hi)). }
  destruct (crash_core V (net g) p id (rs_core _ _ Hs)) as [Hc' Hl].
  eapply (rg_frame g p _ (crashed p id) id); try done; try by left.
  - simpl. simpl in Hmem. rewrite Hmem. apply insert_insert_eq.
  - simpl. rewrite !lookup_total_insert_eq. eapply member_crash; [apply Hs|exact Hb|done|done].
  - intros w Hne. simpl. by rewrite !lookup_total_insert_ne.
Qed.

(** The flushed member itself. *)
Lemma member_flushed net' g p id m :
  let p' := flushed p id (staged_term (mb_node m)) in
  rg_sim g p → members g !! id = Some m → (∀ x, x ∈ net g → x ∈ net') → net_agrees net' →
  pinv V p' → grow V p p' →
  member_sim V net' p' id ((rg_marks g !!! id) ++ [log_mark (rn_log (mb_node m))]) []
    (MkMember (mb_node m) (node_storage (mb_node m)) []).
Proof.
  intros p' Hs Hm Hsub Hag Hp' Hg. pose proof (ms_node _ _ _ _ _ _ _ _ (rs_members _ _ Hs id m Hm)) as Hn.
  split; simpl.
  - eapply node_sim_net; [done|done| |by apply flush_node].
    intros t h Hh. by apply (cs_hist _ _ _ (rs_core _ _ Hs) t h).
  - by eapply flush_disk.
  - split; intros *; by intros []%elem_of_nil.
  - intros to resp []%elem_of_nil.
  - destruct (ms_staged _ _ _ _ _ _ _ _ (rs_members _ _ Hs id m Hm)) as [Hst Hlt].
    split; [by apply (lt_ok _ _ Hlt)|done].
Qed.

(** The group after a flush, part by part. *)
Lemma flush_act g id m :
  members g !! id = Some m →
  rg_act g (RFlush id) = MkRGroup
    (MkGroup (<[id := MkMember (mb_node m) (node_storage (mb_node m)) []]> (members g))
      (net g ++ mb_outbox m) (gr_elected (rg_group g) ++ leading id m))
    (rg_appends g) (<[id := []]> (rg_waiting g))
    (rg_replies g ++ ((λ x, (id, x.1, x.2)) <$> rg_waiting g !!! id))
    (<[id := (rg_marks g !!! id) ++ [log_mark (rn_log (mb_node m))]]> (rg_marks g))
    (rg_delivered g).
Proof.
  intros Hm. simpl. rewrite Hm. destruct g as [gr ap wa re ma de]. unfold base_act, upd. simpl in *.
  f_equal. unfold group_act. simpl. by rewrite Hm.
Qed.

Lemma flush_follows g p id : rg_sim g p → rg_follows p (rg_act g (RFlush id)).
Proof.
  intros Hs. destruct (members g !! id) as [m|] eqn:Hm; [|simpl; rewrite Hm; by apply rg_stay].
  pose proof (group_act_inv V _ (AFlush id) (rs_group _ _ Hs)) as Hgi.
  assert (group_act (rg_group g) (AFlush id) = rg_group (rg_act g (RFlush id))) as Hact.
  { simpl. by rewrite Hm. }
  rewrite Hact in Hgi. clear Hact. rewrite (flush_act g id m Hm) in Hgi |- *. simpl in Hgi.
  pose proof (rs_members _ _ Hs id m Hm) as Hms. pose proof (rs_core _ _ Hs) as Hc.
  destruct (flush_local V (net g) p id _ _ _ Hc (ms_node _ _ _ _ _ _ _ _ Hms)) as [Hp' Hl].
  set (p' := flushed p id (staged_term (mb_node m))) in *. pose proof (lc_grow _ _ _ _ _ Hl) as Hg.
  assert (∀ x, x ∈ net g → x ∈ net g ++ mb_outbox m) as Hsub by (intros; apply elem_of_app; auto).
  pose proof (gi_agree _ _ Hgi) as Hag. simpl in Hag.
  exists p'. split; [done|].
  split; cbn [rg_group gr_net gr_members rg_marks rg_waiting rg_appends rg_replies rg_delivered];
    [done|by apply flush_core; [..|apply Hms]| | | |].
  - intros w x [[<- <-]|[Hne Hx]]%lookup_insert_Some.
    + rewrite !lookup_total_insert_eq. by apply member_flushed.
    + rewrite !lookup_total_insert_ne by done. eapply member_sim_net; [done|done| |].
      * intros t h Hh. by apply (cs_hist _ _ _ Hc t h).
      * eapply member_sim_other; [apply Hs|done|done|by apply Hs].
  - intros to req Hin. eapply ae_ok_grow; [done|by eapply (rs_appends _ _ Hs)].
  - intros from to resp [Hin|([to' resp'] & [= -> -> ->] & Hin)%list_elem_of_fmap]%elem_of_app Hok.
    + eapply promised_grow; [done| |by eapply (rs_replies _ _ Hs)]. intros k. apply (gw_aleft _ _ _ Hg).
    + by eapply flush_replies; [|apply Hms|..].
  - intros w e Hin. eapply certified_grow; [done|by eapply (rs_delivered _ _ Hs)].
Qed.

(** Every action is a run of protocol steps. *)
Lemma rg_act_follows g p a : rg_sim g p → rg_follows p (rg_act g a).
Proof.
  destruct a; eauto using tick_follows, local_follows, persist_follows, request_vote_follows,
    vote_response_follows, append_follows, append_response_follows, flush_follows, mark_follows,
    crash_follows.
Qed.

Lemma rg_run_follows acts g p : rg_sim g p → rg_follows p (rg_run acts g).
Proof.
  revert g p. induction acts as [|a acts IH]; intros g p Hs; [by apply rg_stay|].
  destruct (rg_act_follows g p a Hs) as (p1 & Hg1 & Hs1). destruct (IH _ _ Hs1) as (p2 & Hg2 & Hs2).
  exists p2. split; [by eapply grow_trans|done].
Qed.

(** ** Start states *)

Definition start_terms g id : u64 :=
  match members g !! id with Some m => staged_term (mb_node m) | None => 0 end.

(** A member mounted from an empty disk. *)
Lemma fresh_member g id m :
  members g !! id = Some m → member_fresh V id m → empty_disk (mb_disk m) →
  (is_voter_role (rn_role (mb_node m)) = true → id ∈ V) →
  member_sim V [] (p_start (start_terms g)) id [] [] m.
Proof.
  intros Hm (ev & config & Hcfg & Hb & Hout) (hs & Hd) Hrole.
  set (lg := MkRaftLog [] 0 0 (mb_disk m)).
  assert (durable_ok (lg, 0)) as Hdur.
  { unfold lg. rewrite Hd. split_and!; [apply contiguous_nil| |done]. split_and!; [|done..].
    intros e []%elem_of_nil. }
  destruct (boot_mounted ev config lg 0 Hdur) as (n & Hb' & Hrl & Hobs & Hnl & Hnc).
  change (lg_storage lg) with (mb_disk m) in Hb'. rewrite Hb in Hb'. injection Hb' as <-.
  assert (ps_dterm (p_start (start_terms g)) id = staged_term (mb_node m)) as HB.
  { simpl. unfold start_terms. by rewrite Hm. }
  assert (staged_term (mb_node m) = current_term (ms_hard_state (sm_mem (mb_disk m)))) as HB'.
  { unfold staged_term, node_storage. by rewrite Hrl. }
  assert (view lg []) as Hv by (split_and!; [apply contiguous_nil|done..]).
  unfold member_sim. rewrite <-HB. split.
  - rewrite Hobs. apply mounted_node; try done; [apply p_start_ok|by intros t [? ?]|by rewrite HB|by left|].
    intros mk ->%list_elem_of_singleton. simpl. by rewrite Hd.
  - exists lg, 0. rewrite HB. split_and!; try done. by left.
  - rewrite Hout. split; intros *; by intros []%elem_of_nil.
  - intros to resp []%elem_of_nil.
  - unfold node_storage. rewrite Hrl. split; [by rewrite Hd|done].
Qed.

Lemma rg_fresh_sim g : rg_fresh V g → rg_sim g (p_start (start_terms g)).
Proof.
  intros (_ & Hf & Hd & Hap & Hwa & Hre & Hma & Hde). pose proof (group_fresh_inv V _ Hf) as Hgi.
  destruct Hf as (_ & Hmem & Hnet & _).
  split; rewrite ?Hap, ?Hre, ?Hde, ?Hnet; try (intros *; by intros []%elem_of_nil); [done|..].
  - split; try done; [apply p_start_ok|..]; intros *; by intros []%elem_of_nil.
  - rewrite Hma, Hwa. intros id m Hm. rewrite !lookup_total_empty.
    apply fresh_member; [done|by apply Hmem|by apply (Hd id)|].
    destruct (gi_members _ _ Hgi id m Hm) as (? & ? & Hi).
    apply (vi_role _ _ _ _ _ (mi_voter _ _ _ _ _ _ Hi)).
Qed.

(** Every run of a fresh group is a run of the protocol. *)
Lemma rg_run_sim acts g : rg_fresh V g → ∃ p, rg_sim (rg_run acts g) p.
Proof.
  intros Hf. destruct (rg_run_follows acts g _ (rg_fresh_sim g Hf)) as (p & _ & Hs). by exists p.
Qed.
End safety.

(** ** Theorems *)

Section theorems.
Context (V : gset u64).
Implicit Types (g : RGroup) (p : PState) (id v w t : u64) (acts : list RAction).
Implicit Types (m : Member StagedMem) (n : RaftNode StagedMem) (e : LogEntry).

(** Certified entries of one index are one entry. *)
Lemma certified_unique net p e e' :
  core_sim V net p → certified V p e → certified V p e' → e_index e = e_index e' → e = e'.
Proof.
  intros Hc (t & i & h & j & Hch & Hh & Hj & He) (t' & i' & h' & j' & Hch' & Hh' & Hj' & He') Heq.
  destruct (chosen_comparable V p t i t' i' h h') as (H & Hp & Hp'); [apply Hc|done..|].
  assert (H !! j = Some e) as Hej.
  { eapply prefix_lookup_Some; [|exact Hp]. by rewrite lookup_take_lt. }
  assert (H !! j' = Some e') as Hej'.
  { eapply prefix_lookup_Some; [|exact Hp']. by rewrite lookup_take_lt. }
  destruct (cs_hist _ _ _ Hc _ _ Hh) as [Hcon _], (cs_hist _ _ _ Hc _ _ Hh') as [Hcon' _].
  rewrite (Hcon _ _ He), (Hcon' _ _ He') in Heq. assert (j = j') as -> by lia. congruence.
Qed.

(** What a node knows committed is certified. *)
Lemma committed_certified g p id m i e :
  rg_sim V g p → gr_members (rg_group g) !! id = Some m →
  entry_at (rn_log (mb_node m)) i = Some e → i ≤ commit_of (mb_node m) →
  certified V p e ∧ e_index e = i.
Proof.
  intros Hs Hm He Hi. pose proof (ms_node _ _ _ _ _ _ _ _ (rs_members _ _ _ Hs id m Hm)) as [].
  destruct (view_entry_Some _ _ _ _ ns_log He) as [Hsn Hl]. pose proof ns_log as (Hcon & _).
  pose proof (Hcon _ _ Hl) as Hidx.
  split; [|lia]. simpl in ns_commit.
  destruct ns_commit as [Hz|(t & j & h & Hch & _ & Hh & Hj & Hpre)]; [lia|].
  exists t, j, h, (N.to_nat (i - 1)). split_and!; [done..|lia|].
  pose proof Hch as [(h' & Hh' & Hlen) _]. rewrite Hh in Hh'. injection Hh' as <-.
  rewrite <-Hl, <-(lookup_take_lt h (N.to_nat (commit_of (mb_node m)))) by lia.
  eapply prefix_lookup_lt; [|exact Hpre]. rewrite length_take. lia.
Qed.

(** Two points of one run. *)
Lemma rg_run_sim2 acts acts' g :
  rg_fresh V g → ∃ p p', rg_sim V (rg_run acts g) p ∧ rg_sim V (rg_run acts' (rg_run acts g)) p' ∧ grow V p p'.
Proof.
  intros Hf. pose proof Hf as [HV2 _]. destruct (rg_run_sim V HV2 acts g Hf) as [p Hs].
  destruct (rg_run_follows V HV2 acts' _ p Hs) as (p' & Hg & Hs'). by exists p, p'.
Qed.

(** C1. State machine safety: over every run of a group with two or more
    voters (ticks and timeouts, proposals, elections, message loss,
    duplication and reordering, crashes that lose every write that is not
    durable, restarts, compaction), two entries of the same index that were
    ever handed to a state machine, on any two nodes at any two times, are
    the same entry. *)
Theorem state_machine_safety g acts i j e e' :
  rg_fresh V g →
  (i, e) ∈ rg_delivered (rg_run acts g) → (j, e') ∈ rg_delivered (rg_run acts g) →
  e_index e = e_index e' → e = e'.
Proof.
  intros Hf Hi Hj. pose proof Hf as [HV2 _]. destruct (rg_run_sim V HV2 acts g Hf) as [p Hs].
  eapply certified_unique; [apply Hs|by eapply (rs_delivered _ _ _ Hs)..].
Qed.

(** A committed entry is never replaced: an entry some node holds at an
    index it knows committed, and an entry any node holds later at the same
    index and knows committed, are the same. *)
Theorem committed_agree g acts acts' id id' m m' i e e' :
  rg_fresh V g →
  gr_members (rg_group (rg_run acts g)) !! id = Some m →
  entry_at (rn_log (mb_node m)) i = Some e → i ≤ commit_of (mb_node m) →
  gr_members (rg_group (rg_run acts' (rg_run acts g))) !! id' = Some m' →
  entry_at (rn_log (mb_node m')) i = Some e' → i ≤ commit_of (mb_node m') →
  e = e'.
Proof.
  intros Hf Hm He Hi Hm' He' Hi'. destruct (rg_run_sim2 acts acts' g Hf) as (p & p' & Hs & Hs' & Hg).
  destruct (committed_certified _ _ _ _ _ _ Hs Hm He Hi) as [Hc Hx].
  destruct (committed_certified _ _ _ _ _ _ Hs' Hm' He' Hi') as [Hc' Hx'].
  eapply certified_unique; [apply Hs'|by eapply certified_grow|done|congruence].
Qed.

(** C2. Leader completeness: what a node knows committed at some time is in
    the log of every later leader of the same term or a later one: its log is
    at least as long, and its entries there are the committed ones. *)
Theorem leader_completeness g acts acts' id id' m m' :
  rg_fresh V g →
  gr_members (rg_group (rg_run acts g)) !! id = Some m →
  gr_members (rg_group (rg_run acts' (rg_run acts g))) !! id' = Some m' →
  rn_role (mb_node m') = Leader → term_of (mb_node m) ≤ term_of (mb_node m') →
  commit_of (mb_node m) ≤ last_index (rn_log (mb_node m')) ∧
  ∀ i e, entry_at (rn_log (mb_node m)) i = Some e → i ≤ commit_of (mb_node m) →
    lg_snapshot_index (rn_log (mb_node m')) < i → entry_at (rn_log (mb_node m')) i = Some e.
Proof.
  intros Hf Hm Hm' Hr Ht. destruct (rg_run_sim2 acts acts' g Hf) as (p & p' & Hs & Hs' & Hg).
  pose proof (ms_node _ _ _ _ _ _ _ _ (rs_members _ _ _ Hs' id' m' Hm')) as Hn'.
  destruct (ns_lead _ _ _ _ _ _ _ Hn' Hr) as (Hh & _). pose proof (ns_log _ _ _ _ _ _ _ Hn') as Hv'.
  pose proof (ms_node _ _ _ _ _ _ _ _ (rs_members _ _ _ Hs id m Hm)) as [].
  apply (commit_ok_grow _ p p' _ (term_of (mb_node m')) _ (ps_log p id)) in ns_commit;
    [|done|simpl in *; unfold ob_term, term_of in *; simpl in *; lia|done].
  destruct (commit_in_leader _ _ _ _ _ _ _ (cs_inv _ _ _ (rs_core _ _ _ Hs')) ns_commit (N.le_refl _) Hh)
    as [Hpre Hlen]. simpl in *.
  pose proof (prefix_length _ _ Hpre) as Hl. rewrite length_take in Hl.
  rewrite (view_last_index _ _ Hv'). split; [lia|]. intros i e He Hi Hsn.
  destruct (view_entry_Some _ _ _ _ ns_log He) as [Hsn' Hle]. rewrite (view_entry_at _ _ _ Hv').
  rewrite (proj2 (N.ltb_lt _ _) Hsn). eapply prefix_lookup_Some; [|exact Hpre].
  rewrite lookup_take_lt; [done|lia].
Qed.

(** C4. Log matching: when two nodes hold entries of the same index and term,
    they hold the same entry there and at every index below where both still
    hold one. *)
Theorem log_matching g acts id id' m m' i e e' :
  rg_fresh V g →
  gr_members (rg_group (rg_run acts g)) !! id = Some m →
  gr_members (rg_group (rg_run acts g)) !! id' = Some m' →
  entry_at (rn_log (mb_node m)) i = Some e → entry_at (rn_log (mb_node m')) i = Some e' →
  e_term e = e_term e' →
  e = e' ∧ ∀ j x x', j ≤ i → entry_at (rn_log (mb_node m)) j = Some x →
    entry_at (rn_log (mb_node m')) j = Some x' → x = x'.
Proof.
  intros Hf Hm Hm' He He' Ht. pose proof Hf as [HV2 _]. destruct (rg_run_sim V HV2 acts g Hf) as [p Hs].
  pose proof (ns_log _ _ _ _ _ _ _ (ms_node _ _ _ _ _ _ _ _ (rs_members _ _ _ Hs id m Hm))) as Hv.
  pose proof (ns_log _ _ _ _ _ _ _ (ms_node _ _ _ _ _ _ _ _ (rs_members _ _ _ Hs id' m' Hm'))) as Hv'.
  simpl in Hv, Hv'. pose proof (cs_inv _ _ _ (rs_core _ _ _ Hs)) as Hp.
  assert (∀ j x x', j ≤ i → entry_at (rn_log (mb_node m)) j = Some x →
    entry_at (rn_log (mb_node m')) j = Some x' → x = x') as Hall; [|by split; [eapply (Hall i)|]].
  apply (view_entry_Some _ _ _ _ Hv) in He as [Hsn He].
  apply (view_entry_Some _ _ _ _ Hv') in He' as [_ He'].
  destruct (pi_log _ _ Hp id) as [Hco _], (pi_log _ _ Hp id') as [Hco' _].
  destruct (Hco _ _ He) as (h & Hh & Hpre). destruct (Hco' _ _ He') as (h' & Hh' & Hpre').
  rewrite <-Ht, Hh in Hh'. injection Hh' as <-.
  intros j x x' Hj Hx Hx'. apply (view_entry_Some _ _ _ _ Hv) in Hx as [? Hx].
  apply (view_entry_Some _ _ _ _ Hv') in Hx' as [? Hx'].
  assert (h !! N.to_nat (j - 1) = Some x) as H1.
  { eapply prefix_lookup_Some; [|exact Hpre]. rewrite lookup_take_lt; [done|lia]. }
  assert (h !! N.to_nat (j - 1) = Some x') as H2.
  { eapply prefix_lookup_Some; [|exact Hpre']. rewrite lookup_take_lt; [done|lia]. }
  congruence.
Qed.
End theorems.
