(* ===== verification/RaftExamples.v ===== *)
(** * Raft on concrete groups

    A three-voter group on [MemStorage] that elects a leader, replicates,
    reads and compacts; each theorem with hypotheses applied to it. *)

From stdpp Require Import base list option gmap.
From S2P Require Import Prelude RaftState RaftLog RaftLogFacts RaftNode RaftOps RaftRpc.
From S2P Require Import RaftNodeFacts RaftSteps RaftNodeThms RaftDurability RaftDelivery.
From S2P Require Import RaftGroup RaftElection RaftSpecs RaftLeases RaftReads SnapshotFraming.

Open Scope N_scope.

Definition ms : N := 1000000.

Definition demo_config (id : u64) (ps : list u64) : RaftConfig := {|
  node_id := id;
  group_id := 1;
  peers := ps;
  learners := [];
  observers := [];
  starts_as_learner := false;
  starts_as_observer := false;
  election_timeout_min := 150 * ms;
  election_timeout_max := 300 * ms;
  heartbeat_interval := 50 * ms;
  log_compaction_threshold := Some 2;
|}.

Definition at_ms (t : N) : Env := MkEnv (t * ms) 0.

Definition demo_node (id : u64) (ps : list u64) : RaftNode MemStorage :=
  (boot (at_ms 0) (demo_config id ps) mem_storage_new).1.

Definition demo_member (id : u64) (ps : list u64) : Member MemStorage :=
  MkMember (demo_node id ps) mem_storage_new [].

Definition demo_voters : gset u64 := {[1; 2; 3]}.

Definition demo_group : Group MemStorage := {|
  gr_members := {[1 := demo_member 1 [2; 3]; 2 := demo_member 2 [1; 3]; 3 := demo_member 3 [1; 2]]};
  gr_net := [];
  gr_elected := [];
|}.

(** The vote request of node 1 in term 1. *)
Definition demo_request : RequestVoteRequest := MkRequestVoteRequest 1 1 0 0 1 false.

(** Node 1 probes, campaigns and wins with the vote of node 2; node 3
    crashes on the way. *)
Definition demo_acts : list Action := [
  ATick 1 (at_ms 400);
  AOp 1 (at_ms 401) (OpPreVoteResponse 2 (MkPreVoteResponse 0 true));
  ATick 1 (at_ms 402);
  AFlush 1;
  ACrash 3 (at_ms 403);
  ARequestVote 2 (at_ms 404) demo_request;
  AFlush 2;
  AVoteResponse 1 (at_ms 405) 2 (MkRequestVoteResponse 1 true)
].

Lemma demo_config_ok id ps :
  id ≠ 0 → id ∈ demo_voters → NoDup ps → (∀ p, p ∈ ps ↔ p ∈ demo_voters ∧ p ≠ id) →
  config_ok demo_voters id (demo_config id ps).
Proof. intros. by split_and!. Qed.

Lemma demo_peers a b c p :
  a ≠ b → a ≠ c → demo_voters = {[a; b; c]} → p ∈ [b; c] ↔ p ∈ demo_voters ∧ p ≠ a.
Proof. intros ?? ->. set_solver. Qed.

Lemma demo_member_fresh id ps :
  id ≠ 0 → id ∈ demo_voters → NoDup ps → (∀ p, p ∈ ps ↔ p ∈ demo_voters ∧ p ≠ id) →
  member_fresh demo_voters id (demo_member id ps).
Proof. intros. exists (at_ms 0), (demo_config id ps). split; [by apply demo_config_ok|done]. Qed.

Lemma demo_group_fresh : group_fresh demo_voters demo_group.
Proof.
  split_and!; [set_solver| |done|done].
  intros id m Hm. unfold demo_group in Hm. simpl in Hm.
  assert ((id = 1 ∧ m = demo_member 1 [2; 3]) ∨ (id = 2 ∧ m = demo_member 2 [1; 3]) ∨
    (id = 3 ∧ m = demo_member 3 [1; 2])) as Hcase.
  { apply lookup_insert_Some in Hm as [[<- <-]|[? Hm]]; [by auto|].
    apply lookup_insert_Some in Hm as [[<- <-]|[? Hm]]; [by auto|].
    apply lookup_singleton_Some in Hm as [<- <-]. auto. }
  destruct Hcase as [[-> ->]|[[-> ->]|[-> ->]]].
  - apply demo_member_fresh; [done|set_solver|by apply (bool_decide_unpack _)|].
    intros. by apply demo_peers.
  - apply demo_member_fresh; [done|set_solver|by apply (bool_decide_unpack _)|].
    intros. apply demo_peers; [done..|set_solver].
  - apply demo_member_fresh; [done|set_solver|by apply (bool_decide_unpack _)|].
    intros. apply demo_peers; [done..|set_solver].
Qed.

Lemma election_safety_witness :
  (1, 1) ∈ gr_elected (group_run demo_acts demo_group) ∧ 1 = 1.
Proof.
  assert ((1, 1) ∈ gr_elected (group_run demo_acts demo_group)) as Hin.
  { apply (bool_decide_unpack _). vm_compute. exact I. }
  split; [exact Hin|].
  exact (election_safety demo_voters demo_group demo_acts 1 1 1 demo_group_fresh Hin Hin).
Defined.

(** ** A single voter *)

Definition demo_single : RaftNode MemStorage := demo_node 1 [].

(** It elects itself, takes two proposals, hands one batch out, takes it
    back, and compacts. *)
Definition demo_ops : list (Env * DriverOp) := [
  (at_ms 400, DOp OpTick);
  (at_ms 401, DOp (OpPropose [7]));
  (at_ms 402, DOp (OpPropose [8; 9]));
  (at_ms 403, DPersist);
  (at_ms 404, DOp (OpAdvanceApplied 1));
  (at_ms 405, DOp (OpRequeue [MkLogEntry 1 1 []; MkLogEntry 1 2 [7]]));
  (at_ms 406, DOp (OpSaveDurable 1));
  (at_ms 407, DOp (OpCompact 1))
].

Lemma demo_node_wf id ps : node_wf (demo_node id ps).
Proof.
  split.
  - split_and!; [apply contiguous_nil| |done]. split_and!; [|done|done].
    intros e He. by apply elem_of_nil in He.
  - exists hard_state_new. split_and!; [done|right; auto|done].
  - exists [], []. split_and!; [done|constructor|apply contiguous_nil].
Qed.

Lemma demo_ops_wf : run_wf demo_ops demo_single.
Proof.
  simpl run_wf. unfold driver_op_wf, op_wf. simpl snd. split_and!; try exact I.
  exists 0. split; [|by vm_compute].
  intros [|[|[|i]]] e; simpl; intros [= <-]; done.
Qed.


Lemma delivery_gap_free_witness :
  undelivered (run demo_ops demo_single) = [MkLogEntry 1 2 [7]; MkLogEntry 1 3 [8; 9]] ∧
  contiguous (applied_of (run demo_ops demo_single)) (undelivered (run demo_ops demo_single)).
Proof.
  split; [by vm_compute|].
  exact (delivery_gap_free demo_ops demo_single (demo_node_wf 1 []) demo_ops_wf).
Defined.

(** ** The elected leader of the group *)

Definition demo_leader : RaftNode MemStorage :=
  match gr_members (group_run demo_acts demo_group) !! 1 with
  | Some m => mb_node m
  | None => demo_node 1 [2; 3]
  end.

Definition ack (index round : u64) : AppendEntriesResponse :=
  MkAppendEntriesResponse 1 true index round Whole.

(** Node 2 has matched the no-op of term 1, and the leader counts it. *)
Definition demo_table : LeaderState :=
  set_match_index 2 1 (leader_state_new [2; 3] [] 0).

Definition demo_counting : RaftNode MemStorage :=
  demo_leader {{ rn_leader_state := Some demo_table }}.

Lemma commit_rule_witness :
  commit_of (try_advance_commit_index demo_counting) = 1 ∧
  committable demo_counting demo_table 1 ∧ 1 ≤ commit_of (try_advance_commit_index demo_counting).
Proof.
  assert (committable demo_counting demo_table 1) as Hc by (split; by vm_compute).
  split; [by vm_compute|]. split; [exact Hc|].
  apply (proj2 (commit_rule demo_counting demo_table eq_refl) 1); [|exact Hc].
  split; by vm_compute.
Defined.

(** The first append of the leader, at node 2. *)
Definition demo_append : AppendEntriesRequest := {|
  ae_term := 1;
  ae_leader_id := 1;
  ae_prev_log_index := 0;
  ae_prev_log_term := 0;
  ae_entries := [MkLogEntry 1 1 []; MkLogEntry 1 2 [5]];
  ae_leader_commit := 1;
  ae_group_id := 1;
  ae_round := 1;
  ae_replicated_floor := 0;
|}.

Lemma demo_append_contiguous : contiguous 0 (ae_entries demo_append).
Proof. intros [|[|[|i]]] e; simpl; intros [= <-]; done. Qed.

Lemma append_entries_success_witness :
  commit_of (handle_append_entries (at_ms 410) demo_append (demo_node 2 [1; 3])).1 = 1 ∧
  aer_last_log_index (handle_append_entries (at_ms 410) demo_append (demo_node 2 [1; 3])).2 ≤ 2.
Proof.
  destruct (append_entries_success (at_ms 410) demo_append (demo_node 2 [1; 3])
    (handle_append_entries (at_ms 410) demo_append (demo_node 2 [1; 3])).1
    (handle_append_entries (at_ms 410) demo_append (demo_node 2 [1; 3])).2)
    as (_ & _ & _ & _ & _ & Hc & Hm).
  - apply contiguous_nil.
  - exact demo_append_contiguous.
  - apply surjective_pairing.
  - by vm_compute.
  - split; [exact Hc|exact Hm].
Defined.

Lemma log_append_entries_matches_witness :
  log_wf (log_append_entries 0 (ae_entries demo_append) (log_new mem_storage_new)).1 ∧
  term_at (log_append_entries 0 (ae_entries demo_append) (log_new mem_storage_new)).1 2 = Some 1.
Proof.
  destruct (log_append_entries_matches (log_new mem_storage_new) 0 (ae_entries demo_append)
    (log_append_entries 0 (ae_entries demo_append) (log_new mem_storage_new)).1 true
    (contiguous_nil 0) demo_append_contiguous) as (Hwf & _ & Hents & _).
  - by vm_compute.
  - reflexivity.
  - split; [exact Hwf|]. apply (Hents (MkLogEntry 1 2 [5])); [right; left|by vm_compute].
Defined.

(** ** Leases and reads *)

(** The leader once node 2 has answered its first round. *)
Definition demo_heard : RaftNode MemStorage :=
  handle_append_entries_response (at_ms 410) 2 (ack 1 1) demo_leader.

Definition demo_acked : RaftNode MemStorage :=
  record_lease_ack 2 1 (410 * ms) demo_leader.

Lemma lease_anchor_sound_witness :
  anchor (rn_lease (settle_lease demo_acked).1) = Some (405 * ms) ∧
  (anchor (rn_lease (settle_lease demo_acked).1) = anchor (rn_lease demo_acked) ∨
   ∃ round at_, anchor (rn_lease (settle_lease demo_acked).1) = Some at_ ∧
     (round, at_) ∈ sent (rn_lease demo_acked) ∧
     majority_with demo_acked (λ p, round <=? acked_round demo_acked p)).
Proof.
  split; [by vm_compute|].
  exact (proj1 (lease_anchor_sound demo_acked (settle_lease demo_acked).1
    (settle_lease demo_acked).2 (surjective_pairing _))).
Defined.

(** Node 2 heard the leader at 406 ms; node 3 asks for its vote at 500 ms. *)
Definition demo_follower : RaftNode MemStorage :=
  (handle_append_entries (at_ms 406) demo_append (demo_node 2 [1; 3])).1.

Definition demo_rival : RequestVoteRequest := MkRequestVoteRequest 2 3 9 1 1 false.

Lemma lease_blocks_votes_witness :
  handle_request_vote_at (at_ms 500) demo_rival (500 * ms) demo_follower =
    (demo_follower, MkRequestVoteResponse (term_of demo_follower) false).
Proof.
  apply (lease_blocks_votes (at_ms 500) demo_heard demo_follower (405 * ms)
    (MkLeaderContact 1 (406 * ms)) demo_rival (500 * ms) (500 * ms));
    by vm_compute.
Defined.

Lemma check_quorum_witness :
  rn_role (tick (at_ms 650) demo_heard) = Leader ∧
  rn_role (tick (at_ms 900) demo_heard) = Follower.
Proof.
  split.
  - apply (proj1 (check_quorum (at_ms 650) demo_heard (410 * ms)
      ltac:(by vm_compute) ltac:(by vm_compute) ltac:(by vm_compute))).
    left. by vm_compute.
  - apply (proj2 (check_quorum (at_ms 900) demo_heard (410 * ms)
      ltac:(by vm_compute) ltac:(by vm_compute) ltac:(by vm_compute))).
    by intros [Hlt|Hlt]; vm_compute in Hlt.
Defined.

(** A read on that leader; node 2 answers the round it sends. *)
Definition demo_probe : ReadIndexProbe := MkReadIndexProbe 1 1 [(2, 1); (3, 0)].

Definition demo_answers : list (Env * DriverOp) :=
  [(at_ms 420, DOp (OpAppendEntriesResponse 2 (ack 1 3)))].


(** ** Compaction, isolation, batches *)

Definition demo_grown : RaftNode MemStorage := run (take 7 demo_ops) demo_single.

Lemma compaction_bounded_witness :
  lg_snapshot_index (rn_log (compact_log_up_to 1 demo_grown).1) = 1 ∧
  entry_at (rn_log (compact_log_up_to 1 demo_grown).1) 2 = entry_at (rn_log demo_grown) 2.
Proof.
  assert (log_wf (rn_log demo_grown)) as Hwf.
  { intros [|[|[|i]]] e Hi; vm_compute in Hi; simplify_eq; done. }
  split; [by vm_compute|].
  apply (proj2 (compaction_bounded 1 demo_grown Hwf)). by vm_compute.
Defined.

Lemma isolated_term_stable_witness :
  rn_hard_state (run [(at_ms 400, DOp OpTick); (at_ms 800, DOp OpTick); (at_ms 801, DDrain)]
    (demo_node 1 [2; 3])) = rn_hard_state (demo_node 1 [2; 3]).
Proof. apply isolated_term_stable; [done|by repeat constructor]. Defined.

Definition demo_log : RaftLog MemStorage :=
  MkRaftLog [MkLogEntry 1 1 [1; 2; 3]; MkLogEntry 1 2 [4; 5]; MkLogEntry 1 3 [6]] 0 0
    mem_storage_new.

Lemma entries_within_batch_witness :
  entries_within demo_log 1 3 5 = Ok [MkLogEntry 1 1 [1; 2; 3]; MkLogEntry 1 2 [4; 5]] ∧
  5 < data_bytes (take 3 (lg_entries demo_log)).
Proof.
  split; [by vm_compute|].
  destruct (entries_within_batch demo_log 1 3 5 (lg_entries demo_log)
    [MkLogEntry 1 1 [1; 2; 3]; MkLogEntry 1 2 [4; 5]]) as (_ & _ & _ & Hnext).
  - by vm_compute.
  - by vm_compute.
  - by vm_compute.
  - apply Hnext. simpl. lia.
Defined.

(** ** Snapshot frames

    A checksum that sums the bytes, in place of CRC-32C. *)

Definition demo_crc (bs : bytes) : u32 := foldl N.add 0 bs mod 256 ^ 4.
Definition demo_crc_append (h : u32) (bs : bytes) : u32 := foldl N.add h bs mod 256 ^ 4.

Lemma decode_snapshot_chunk_iff_witness :
  decode_snapshot_chunk demo_crc demo_crc_append
    [78; 68; 83; 78; 0; 1; 0; 6; 0; 0; 0; 11; 2; 3] = Ok (KeyValue, [2; 3]).
Proof.
  apply (decode_snapshot_chunk_iff demo_crc demo_crc_append).
  - intros h p. by apply N.mod_lt.
  - by repeat constructor.
  - by vm_compute.
Defined.
