(* ===== verification/RaftSafetyExamples.v ===== *)
(** * Replication on concrete groups

    A three-voter group that elects a leader, replicates and delivers, loses
    the leader and elects another, with the safety theorems applied to the
    run; and a group with one voter and a learner, where a leader's entry
    that left before it was durable splits the learner from the leader. *)

From stdpp Require Import base list option gmap.
From S2P Require Import Prelude RaftState RaftLog RaftLogFacts RaftNode RaftOps RaftRpc.
From S2P Require Import RaftNodeFacts RaftSteps RaftNodeThms RaftDurability RaftDelivery.
From S2P Require Import RaftGroup RaftElection RaftSpecs RaftReplication RaftSafety RaftExamples.

Open Scope N_scope.

(** ** Scripts *)

(** An action chosen from what the group has sent so far. *)
Definition Script : Type := list (RGroup → RAction).

Definition act (a : RAction) : RGroup → RAction := λ _, a.

(** The [k]-th request that left a node reaches its receiver. *)
Definition deliver (k : nat) (t : N) : RGroup → RAction := λ g,
  match rg_appends g !! k with
  | Some (to, req) => RAppend to (at_ms t) req
  | None => RPersist 0
  end.

(** The [k]-th answer that left a node reaches its receiver. *)
Definition answer (k : nat) (t : N) : RGroup → RAction := λ g,
  match rg_replies g !! k with
  | Some (from, to, resp) => RAppendResponse to (at_ms t) from resp
  | None => RPersist 0
  end.

Fixpoint play (script : Script) (g : RGroup) : list RAction :=
  match script with
  | [] => []
  | f :: script => f g :: play script (rg_act g (f g))
  end.

(** ** A replicating group *)

Definition staged_disk : StagedMem := MkStagedMem mem_storage_new (0, 0) 0 0.

Definition staged_member (config : RaftConfig) : Member StagedMem :=
  MkMember (boot (at_ms 0) config staged_disk).1 staged_disk [].

Definition mount_group (members : gmap u64 (Member StagedMem)) : RGroup :=
  MkRGroup (MkGroup members [] []) [] ∅ [] ∅ [].

Definition replica_group : RGroup := mount_group
  {[1 := staged_member (demo_config 1 [2; 3]); 2 := staged_member (demo_config 2 [1; 3]);
    3 := staged_member (demo_config 3 [1; 2])]}.

(** Node 1 wins term 1 with the vote of node 2, proposes, commits with the
    answer of node 2, and all three deliver. *)
Definition replicate_script : Script := [
  act (RTick 1 (at_ms 400));
  act (ROp 1 (at_ms 401) (OpPreVoteResponse 2 (MkPreVoteResponse 0 true)));
  act (RTick 1 (at_ms 402));
  act (RFlush 1);
  act (RRequestVote 2 (at_ms 404) demo_request);
  act (RFlush 2);
  act (RVoteResponse 1 (at_ms 405) 2 (MkRequestVoteResponse 1 true));
  act (RTick 1 (at_ms 406));
  act (ROp 1 (at_ms 407) (OpPropose [7]));
  act (RTick 1 (at_ms 408));
  act (RFlush 1);
  act (RMark 1 (2, 1));
  deliver 4 409;
  act (RFlush 2);
  answer 0 410;
  act (RTick 1 (at_ms 470));
  deliver 6 471;
  act (RTick 2 (at_ms 472));
  deliver 7 471;
  act (RFlush 3);
  act (RTick 3 (at_ms 472))
].

(** Node 1 crashes, and node 3 wins term 2 with the vote of node 2. *)
Definition failover_script : Script := [
  act (RCrash 1 (at_ms 500));
  act (RTick 3 (at_ms 1000));
  act (ROp 3 (at_ms 1001) (OpPreVoteResponse 2 (MkPreVoteResponse 1 true)));
  act (RTick 3 (at_ms 1002));
  act (RFlush 3);
  act (RRequestVote 2 (at_ms 1003) (MkRequestVoteRequest 2 3 2 1 1 false));
  act (RFlush 2);
  act (RVoteResponse 3 (at_ms 1004) 2 (MkRequestVoteResponse 2 true))
].

Definition replicate_acts : list RAction := play replicate_script replica_group.

#[local] Abbreviation replicated := (rg_run replicate_acts replica_group).

Definition failover_acts : list RAction := play failover_script replicated.

#[local] Abbreviation failed_over := (rg_run failover_acts replicated).

Definition member_of (g : RGroup) (id : u64) : Member StagedMem :=
  default (staged_member (demo_config 0 [])) (gr_members (rg_group g) !! id).

Lemma member_of_lookup g id :
  bool_decide (is_Some (gr_members (rg_group g) !! id)) = true →
  gr_members (rg_group g) !! id = Some (member_of g id).
Proof. rewrite bool_decide_eq_true. intros [m Hm]. unfold member_of. by rewrite Hm. Qed.

Lemma staged_member_fresh V id config :
  config_ok V id config → member_fresh V id (staged_member config).
Proof. intros Hc. by exists (at_ms 0), config. Qed.

Lemma mount_group_mounted V (members : gmap u64 (Member StagedMem)) :
  (0 ∉ V) → map_Forall (λ id m, ∃ config, m = staged_member config ∧ config_ok V id config) members →
  rg_mounted V (mount_group members).
Proof.
  intros HV0 Hm. split; [|by split_and!; [|done..]; intros id m (c & -> & _)%Hm; exists hard_state_new].
  split_and!; try done. intros id m (c & -> & Hc)%Hm. by apply staged_member_fresh.
Qed.

Lemma replica_group_fresh : rg_fresh demo_voters replica_group.
Proof.
  split; [by vm_compute; lia|]. apply mount_group_mounted; [set_solver|].
  apply map_Forall_insert_2; [|apply map_Forall_insert_2; [|apply map_Forall_singleton]];
    eexists; (split; [done|]).
  all: apply demo_config_ok; [done|set_solver|by apply (bool_decide_unpack _)|].
  all: intros; apply demo_peers; [done..|set_solver].
Qed.

Lemma state_machine_safety_witness :
  let e := MkLogEntry 1 2 [7] in
  (1, e) ∈ rg_delivered replicated ∧ (3, e) ∈ rg_delivered replicated ∧ e = e.
Proof.
  intros e. assert ((1, e) ∈ rg_delivered replicated) as H1.
  { apply (bool_decide_unpack _). vm_compute. exact I. }
  assert ((3, e) ∈ rg_delivered replicated) as H3.
  { apply (bool_decide_unpack _). vm_compute. exact I. }
  split; [exact H1|]. split; [exact H3|].
  exact (state_machine_safety demo_voters replica_group replicate_acts 1 3 e e replica_group_fresh
    H1 H3 eq_refl).
Defined.

Lemma committed_agree_witness :
  let e := MkLogEntry 1 2 [7] in
  entry_at (rn_log (mb_node (member_of replicated 1))) 2 = Some e ∧
  entry_at (rn_log (mb_node (member_of failed_over 2))) 2 = Some e ∧ e = e.
Proof.
  intros e.
  assert (entry_at (rn_log (mb_node (member_of replicated 1))) 2 = Some e) as H1
    by (vm_compute; reflexivity).
  assert (entry_at (rn_log (mb_node (member_of failed_over 2))) 2 = Some e) as H2
    by (vm_compute; reflexivity).
  split; [exact H1|]. split; [exact H2|].
  apply (committed_agree demo_voters replica_group replicate_acts failover_acts 1 2
    (member_of replicated 1) (member_of failed_over 2) 2 e e replica_group_fresh);
    [|exact H1| | |exact H2|].
  - apply (member_of_lookup replicated 1). vm_compute. reflexivity.
  - vm_compute. discriminate.
  - apply (member_of_lookup failed_over 2). vm_compute. reflexivity.
  - vm_compute. discriminate.
Defined.

Lemma leader_completeness_witness :
  rn_role (mb_node (member_of failed_over 3)) = Leader ∧
  commit_of (mb_node (member_of replicated 1)) = 2 ∧
  commit_of (mb_node (member_of replicated 1)) ≤ last_index (rn_log (mb_node (member_of failed_over 3))).
Proof.
  assert (rn_role (mb_node (member_of failed_over 3)) = Leader) as Hr by (vm_compute; reflexivity).
  split; [exact Hr|]. split; [vm_compute; reflexivity|].
  apply (leader_completeness demo_voters replica_group replicate_acts failover_acts 1 3
    (member_of replicated 1) (member_of failed_over 3) replica_group_fresh); [| |exact Hr|].
  - apply (member_of_lookup replicated 1). vm_compute. reflexivity.
  - apply (member_of_lookup failed_over 3). vm_compute. reflexivity.
  - vm_compute. discriminate.
Defined.

Lemma log_matching_witness :
  let e := MkLogEntry 1 2 [7] in
  entry_at (rn_log (mb_node (member_of replicated 2))) 2 = Some e ∧
  entry_at (rn_log (mb_node (member_of replicated 3))) 2 = Some e ∧ e = e.
Proof.
  intros e.
  assert (entry_at (rn_log (mb_node (member_of replicated 2))) 2 = Some e) as H1
    by (vm_compute; reflexivity).
  assert (entry_at (rn_log (mb_node (member_of replicated 3))) 2 = Some e) as H2
    by (vm_compute; reflexivity).
  split; [exact H1|]. split; [exact H2|].
  apply (log_matching demo_voters replica_group replicate_acts 2 3
    (member_of replicated 2) (member_of replicated 3) 2 e e replica_group_fresh);
    [| |exact H1|exact H2|reflexivity].
  - apply (member_of_lookup replicated 2). vm_compute. reflexivity.
  - apply (member_of_lookup replicated 3). vm_compute. reflexivity.
Defined.

(** ** One voter and a learner *)

Definition lone_group : RGroup := mount_group
  {[1 := staged_member ((demo_config 1 []) {{ learners := [2] }});
    2 := staged_member ((demo_config 2 [1]) {{ starts_as_learner := true }})]}.

(** The leader of term 1 sends the learner an entry and crashes before its
    disk holds the term or the entry; it leads term 1 again, and commits
    another entry in the same place. *)
Definition split_script : Script := [
  act (RTick 1 (at_ms 400));
  act (ROp 1 (at_ms 401) (OpPropose [65]));
  act (RTick 1 (at_ms 402));
  deliver 2 403;
  act (RFlush 2);
  act (RCrash 1 (at_ms 404));
  act (RTick 1 (at_ms 800));
  act (ROp 1 (at_ms 801) (OpPropose [66]));
  act (RFlush 1);
  act (RMark 1 (2, 1));
  act (RTick 1 (at_ms 870));
  deliver 5 871;
  act (RTick 2 (at_ms 872))
].

Lemma lone_group_mounted : rg_mounted {[1]} lone_group.
Proof.
  apply mount_group_mounted; [set_solver|].
  apply map_Forall_insert_2; [|apply map_Forall_singleton]; eexists; (split; [done|]);
    split_and!; try done; try by apply (bool_decide_unpack _).
  - intros v. simpl. set_solver.
  - intros v. simpl. set_solver.
Qed.

(** C36. With a single voter the state machines can part: an
    [AppendEntries] leaves the leader before the leader's term and entry are
    durable, so a leader that crashes leads the same term again with another
    entry at the same index, and its learner, which keeps the first, hands a
    different entry to its state machine. *)
Theorem learner_diverges :
  ∃ g acts e e', rg_mounted {[1]} g ∧ (1, e) ∈ rg_delivered (rg_run acts g) ∧
    (2, e') ∈ rg_delivered (rg_run acts g) ∧ e_index e = e_index e' ∧ e ≠ e'.
Proof.
  exists lone_group, (play split_script lone_group), (MkLogEntry 1 2 [66]), (MkLogEntry 1 2 [65]).
  split_and!; [apply lone_group_mounted| | |done|done]; apply (bool_decide_unpack _); vm_compute; exact I.
Qed.
