(* ===== verification/BridgeRing.v ===== *)
(** * The SPSC ring between the planes

    [nodedb-bridge/src/buffer.rs]: the lock-free single-producer,
    single-consumer ring that carries requests and responses between the
    Tokio control plane and the thread-per-core data plane.

    Each operation is given twice. [try_push], [try_pop] and [drain_into] run
    it in one go. The machine [Ring] runs the same code one shared-memory
    access at a time, so that the two sides interleave at every access. A load
    of a location the other side writes may return an older value, as the
    memory model allows for a load that is not ordered by anything else: any
    value from the last one seen to the newest. Slot accesses need no such
    choice: a slot is read only after an acquire load of a counter whose
    release store follows the slot's write, and [ring_race_free] shows that
    the two sides never have an access to one slot pending together. *)

From stdpp Require Import base option list.
From S2P Require Import Prelude.

Open Scope N_scope.

Inductive Side : Type := ConsumerSide | ProducerSide.

(** [BridgeError] ([error.rs]); a [side: &'static str] is [Side]. *)
Inductive BridgeError : Type :=
  | Full (capacity pending : usize)
  | Empty
  | Disconnected (side : Side)
  | Backpressure (percent threshold : N)
  | DeadlineExceeded (request_id : u64).

(** ** [BridgeMetrics] ([metrics.rs]) *)

Record BridgeMetrics : Type := MkBridgeMetrics {
  push_count : u64;
  pop_count : u64;
  full_count : u64;
}.

#[export] Instance eta_BridgeMetrics : Eta BridgeMetrics := λ r,
  MkBridgeMetrics (push_count r) (pop_count r) (full_count r).

Definition bridge_metrics_new : BridgeMetrics := MkBridgeMetrics 0 0 0.

Definition record_push (m : BridgeMetrics) : BridgeMetrics :=
  m {{ push_count ::= λ n, wrap64 (n + 1) }}.

Definition record_pops (n : u64) (m : BridgeMetrics) : BridgeMetrics :=
  m {{ pop_count ::= λ c, wrap64 (c + n) }}.

Definition record_pop (m : BridgeMetrics) : BridgeMetrics := record_pops 1 m.

Definition record_full (m : BridgeMetrics) : BridgeMetrics :=
  m {{ full_count ::= λ n, wrap64 (n + 1) }}.

Definition in_flight (m : BridgeMetrics) : u64 := push_count m - pop_count m.

(** ** The ring *)

(** [u64::wrapping_sub]. *)
Definition wsub64 (a b : u64) : u64 := wrap64 (a + 2 ^ 64 - b).

Record Shared (T : Type) : Type := MkShared {
  sh_tail : u64;
  sh_head : u64;
  sh_slots : list (option T);
  sh_capacity : usize;
  sh_mask : usize;
  sh_disconnected : bool;
  sh_metrics : BridgeMetrics;
}.
Arguments MkShared {T}.
Arguments sh_tail {T}.
Arguments sh_head {T}.
Arguments sh_slots {T}.
Arguments sh_capacity {T}.
Arguments sh_mask {T}.
Arguments sh_disconnected {T}.
Arguments sh_metrics {T}.

#[export] Instance eta_Shared T : Eta (Shared T) := λ r,
  MkShared (sh_tail r) (sh_head r) (sh_slots r) (sh_capacity r) (sh_mask r)
    (sh_disconnected r) (sh_metrics r).

(** The producer's [cached_head] and the consumer's [cached_tail]. *)
Record Producer : Type := MkProducer { cached_head : u64 }.
Record Consumer : Type := MkConsumer { cached_tail : u64 }.

(** [usize::next_power_of_two] of a positive number; it panics (or wraps to
    0) above [2 ^ 63]. *)
Definition next_power_of_two (n : usize) : option usize :=
  if n <=? 2 ^ 63 then Some (2 ^ N.log2_up n) else None.

Section ops.
Context {T : Type}.
Implicit Types (sh : Shared T) (v : T).

(** [RingBuffer::channel]; [None] is the panic of the assertion or of the
    rounding. *)
Definition channel (capacity : usize) : option (Shared T * Producer * Consumer) :=
  if 0 <? capacity then
    match next_power_of_two capacity with
    | Some capacity =>
        Some (MkShared 0 0 (replicate (N.to_nat capacity) None) capacity (capacity - 1)
                false bridge_metrics_new,
              MkProducer 0, MkConsumer 0)
    | None => None
    end
  else None.

(** The slot of a counter. *)
Definition slot_of sh (counter : u64) : nat := N.to_nat (N.land counter (sh_mask sh)).

Definition set_slot sh (counter : u64) (s : option T) : Shared T :=
  sh {{ sh_slots ::= λ l, <[slot_of sh counter := s]> l }}.

(** [Option::take] on the slot of a counter. *)
Definition take_slot sh (counter : u64) : Shared T * option T :=
  (set_slot sh counter None, mjoin (sh_slots sh !! slot_of sh counter)).

Definition ring_full sh (tail head : u64) : bool := sh_capacity sh <=? wsub64 tail head.

(** [Producer::try_push]. *)
Definition try_push v (sh : Shared T) (p : Producer) :
    Shared T * Producer * result BridgeError unit :=
  if sh_disconnected sh then (sh, p, Err (Disconnected ConsumerSide))
  else
    let tail := sh_tail sh in
    let p := if ring_full sh tail (cached_head p) then MkProducer (sh_head sh) else p in
    if ring_full sh tail (cached_head p) then
      (sh {{ sh_metrics ::= record_full }}, p,
       Err (Full (sh_capacity sh) (wsub64 tail (cached_head p))))
    else
      let sh := set_slot sh tail (Some v) in
      let sh := sh {{ sh_tail := wrap64 (tail + 1) }} in
      (sh {{ sh_metrics ::= record_push }}, p, Ok tt).

(** [Consumer::try_pop]; [None] is the panic of [expect]. *)
Definition try_pop (sh : Shared T) (c : Consumer) :
    Shared T * Consumer * option (result BridgeError T) :=
  let head := sh_head sh in
  let c := if head =? cached_tail c then MkConsumer (sh_tail sh) else c in
  if head =? cached_tail c then
    (sh, c, Some (Err (if sh_disconnected sh then Disconnected ProducerSide else Empty)))
  else
    let '(sh, value) := take_slot sh head in
    let sh := sh {{ sh_head := wrap64 (head + 1) }} in
    let sh := sh {{ sh_metrics ::= record_pop }} in
    (sh, c, Ok <$> value).

(** The loop of [drain_into] from the [i]-th slot on, [count] iterations. *)
Fixpoint drain_loop (head : u64) (i : N) (count : nat) sh (buf : list T) :
    Shared T * option (list T) :=
  match count with
  | O => (sh, Some buf)
  | S count =>
      match take_slot sh (wrap64 (head + i)) with
      | (sh, Some v) => drain_loop head (i + 1) count sh (buf ++ [v])
      | (sh, None) => (sh, None)
      end
  end.

(** [Consumer::drain_into]: the new buffer, the count and the disconnect
    flag; [None] is the panic of [expect]. *)
Definition drain_into (buf : list T) (max : usize) (sh : Shared T) (c : Consumer) :
    Shared T * Consumer * option (list T * usize * bool) :=
  let head := sh_head sh in
  let c := MkConsumer (sh_tail sh) in
  let count := N.min (wsub64 (cached_tail c) head) max in
  match drain_loop head 0 (N.to_nat count) sh buf with
  | (sh, None) => (sh, c, None)
  | (sh, Some buf) =>
      let sh :=
        if 0 <? count then
          sh {{ sh_head := wrap64 (head + count); sh_metrics ::= record_pops count }}
        else sh in
      (sh, c, Some (buf, count, sh_disconnected sh))
  end.

(** [len], on either side. *)
Definition ring_len sh : usize := wsub64 (sh_tail sh) (sh_head sh).

Definition ring_is_empty sh : bool := ring_len sh =? 0.

(** [Producer::utilization], cast to [u8]. *)
Definition utilization sh : N := (ring_len sh * 100 / sh_capacity sh) mod 256.

(** The drop of either half. *)
Definition ring_drop sh : Shared T := sh {{ sh_disconnected := true }}.
End ops.

(** ** The interleaving machine *)

(** Where the producer is in [try_push]: the access it makes next. *)
Inductive ProdPc (T : Type) : Type :=
  | PIdle
  | PDropped
  | PLoadTail (v : T)
  | PLoadHead (v : T) (tail : u64)
  | PCountFull (tail : u64)
  | PWriteSlot (v : T) (tail : u64)
  | PStoreTail (v : T) (tail : u64)
  | PCountPush.
Arguments PIdle {T}.
Arguments PDropped {T}.
Arguments PLoadTail {T}.
Arguments PLoadHead {T}.
Arguments PCountFull {T}.
Arguments PWriteSlot {T}.
Arguments PStoreTail {T}.
Arguments PCountPush {T}.

(** Where the consumer is in [try_pop] ([C...]) or [drain_into] ([D...]). *)
Inductive ConsPc (T : Type) : Type :=
  | CIdle
  | CDropped
  | CPanicked
  | CLoadTail (head : u64)
  | CLoadDisc
  | CTakeSlot (head : u64)
  | CStoreHead (head : u64) (value : option T)
  | CCountPop (value : option T)
  | DLoadTail (head : u64) (max : usize)
  | DTakeSlot (head : u64) (count : N) (buf : list T)
  | DStoreHead (head : u64) (buf : list T)
  | DCountPops (buf : list T)
  | DLoadDisc (buf : list T).
Arguments CIdle {T}.
Arguments CDropped {T}.
Arguments CPanicked {T}.
Arguments CLoadTail {T}.
Arguments CLoadDisc {T}.
Arguments CTakeSlot {T}.
Arguments CStoreHead {T}.
Arguments CCountPop {T}.
Arguments DLoadTail {T}.
Arguments DTakeSlot {T}.
Arguments DStoreHead {T}.
Arguments DCountPops {T}.
Arguments DLoadDisc {T}.

(** What an observer of the two threads sees. *)
Inductive RingEvent (T : Type) : Type :=
  | Published (v : T)
  | Pushed (r : result BridgeError unit)
  | Taken (v : T)
  | Popped (r : result BridgeError T)
  | Drained (vs : list T) (disconnected : bool).
Arguments Published {T}.
Arguments Pushed {T}.
Arguments Taken {T}.
Arguments Popped {T}.
Arguments Drained {T}.

Record Ring (T : Type) : Type := MkRing {
  rg_sh : Shared T;
  rg_prod : Producer;
  rg_cons : Consumer;
  rg_ppc : ProdPc T;
  rg_cpc : ConsPc T;
  rg_events : list (RingEvent T);
}.
Arguments MkRing {T}.
Arguments rg_sh {T}.
Arguments rg_prod {T}.
Arguments rg_cons {T}.
Arguments rg_ppc {T}.
Arguments rg_cpc {T}.
Arguments rg_events {T}.

#[export] Instance eta_Ring T : Eta (Ring T) := λ r,
  MkRing (rg_sh r) (rg_prod r) (rg_cons r) (rg_ppc r) (rg_cpc r) (rg_events r).

(** One step of the two threads. [Push], [Pop] and [Drain] start a call with
    its first access; [PStep] and [CStep] make the next one, where [seen] and
    [disc] are what a load of the other side's location returns. *)
Inductive RingStep (T : Type) : Type :=
  | Push (v : T) (disc : bool)
  | PStep (seen : u64)
  | PDrop
  | Pop
  | Drain (max : usize)
  | CStep (seen : u64) (disc : bool)
  | CDrop.
Arguments Push {T}.
Arguments PStep {T}.
Arguments PDrop {T}.
Arguments Pop {T}.
Arguments Drain {T}.
Arguments CStep {T}.
Arguments CDrop {T}.

(** A load may return a counter value from [last], the newest one this thread
    has seen, to [now]. *)
Definition may_see (last seen now : u64) : bool :=
  (seen <? 2 ^ 64) && (wsub64 seen last <=? wsub64 now last).

(** The flag is set once: a load that returns [true] is never early. *)
Definition may_see_disc (disc now : bool) : bool := implb disc now.

Section machine.
Context {T : Type}.
Implicit Types (r : Ring T) (v : T).

Definition emit (e : RingEvent T) r : Ring T := r {{ rg_events ::= λ es, es ++ [e] }}.

Definition prod_step (seen : u64) r : Ring T :=
  let sh := rg_sh r in
  match rg_ppc r with
  | PIdle | PDropped => r
  | PLoadTail v =>
      let tail := sh_tail sh in
      if ring_full sh tail (cached_head (rg_prod r)) then r {{ rg_ppc := PLoadHead v tail }}
      else r {{ rg_ppc := PWriteSlot v tail }}
  | PLoadHead v tail =>
      if may_see (cached_head (rg_prod r)) seen (sh_head sh) then
        let r := r {{ rg_prod := MkProducer seen }} in
        if ring_full sh tail seen then r {{ rg_ppc := PCountFull tail }}
        else r {{ rg_ppc := PWriteSlot v tail }}
      else r
  | PCountFull tail =>
      let r := r {{ rg_sh -> sh_metrics ::= record_full; rg_ppc := PIdle }} in
      emit (Pushed (Err (Full (sh_capacity sh) (wsub64 tail (cached_head (rg_prod r)))))) r
  | PWriteSlot v tail =>
      r {{ rg_sh := set_slot sh tail (Some v); rg_ppc := PStoreTail v tail }}
  | PStoreTail v tail =>
      emit (Published v) (r {{ rg_sh -> sh_tail := wrap64 (tail + 1); rg_ppc := PCountPush }})
  | PCountPush =>
      emit (Pushed (Ok tt)) (r {{ rg_sh -> sh_metrics ::= record_push; rg_ppc := PIdle }})
  end.

Definition cons_step (seen : u64) (disc : bool) r : Ring T :=
  let sh := rg_sh r in
  match rg_cpc r with
  | CIdle | CDropped | CPanicked => r
  | CLoadTail head =>
      if may_see (cached_tail (rg_cons r)) seen (sh_tail sh) then
        let r := r {{ rg_cons := MkConsumer seen }} in
        if head =? seen then r {{ rg_cpc := CLoadDisc }} else r {{ rg_cpc := CTakeSlot head }}
      else r
  | CLoadDisc =>
      if may_see_disc disc (sh_disconnected sh) then
        emit (Popped (Err (if disc then Disconnected ProducerSide else Empty)))
          (r {{ rg_cpc := CIdle }})
      else r
  | CTakeSlot head =>
      let '(sh, value) := take_slot sh head in
      let r := r {{ rg_sh := sh; rg_cpc := CStoreHead head value }} in
      match value with Some v => emit (Taken v) r | None => r end
  | CStoreHead head value =>
      r {{ rg_sh -> sh_head := wrap64 (head + 1); rg_cpc := CCountPop value }}
  | CCountPop value =>
      let r := r {{ rg_sh -> sh_metrics ::= record_pop }} in
      match value with
      | Some v => emit (Popped (Ok v)) (r {{ rg_cpc := CIdle }})
      | None => r {{ rg_cpc := CPanicked }}
      end
  | DLoadTail head max =>
      if may_see (cached_tail (rg_cons r)) seen (sh_tail sh) then
        let count := N.min (wsub64 seen head) max in
        let r := r {{ rg_cons := MkConsumer seen }} in
        if 0 <? count then r {{ rg_cpc := DTakeSlot head count [] }}
        else r {{ rg_cpc := DLoadDisc [] }}
      else r
  | DTakeSlot head count buf =>
      let i := N.of_nat (length buf) in
      match take_slot sh (wrap64 (head + i)) with
      | (sh, Some v) =>
          let r := emit (Taken v) (r {{ rg_sh := sh }}) in
          let buf := buf ++ [v] in
          if i + 1 <? count then r {{ rg_cpc := DTakeSlot head count buf }}
          else r {{ rg_cpc := DStoreHead head buf }}
      | (sh, None) => r {{ rg_sh := sh; rg_cpc := CPanicked }}
      end
  | DStoreHead head buf =>
      r {{ rg_sh -> sh_head := wrap64 (head + N.of_nat (length buf));
           rg_cpc := DCountPops buf }}
  | DCountPops buf =>
      r {{ rg_sh -> sh_metrics ::= record_pops (N.of_nat (length buf)); rg_cpc := DLoadDisc buf }}
  | DLoadDisc buf =>
      if may_see_disc disc (sh_disconnected sh) then
        emit (Drained buf disc) (r {{ rg_cpc := CIdle }})
      else r
  end.

(** A step that is not enabled changes nothing. *)
Definition ring_step r (s : RingStep T) : Ring T :=
  match s with
  | Push v disc =>
      match rg_ppc r with
      | PIdle =>
          if may_see_disc disc (sh_disconnected (rg_sh r)) then
            if disc then emit (Pushed (Err (Disconnected ConsumerSide))) r
            else r {{ rg_ppc := PLoadTail v }}
          else r
      | _ => r
      end
  | PStep seen => prod_step seen r
  | PDrop =>
      match rg_ppc r with
      | PIdle => r {{ rg_sh ::= ring_drop; rg_ppc := PDropped }}
      | _ => r
      end
  | Pop =>
      match rg_cpc r with
      | CIdle =>
          let head := sh_head (rg_sh r) in
          if head =? cached_tail (rg_cons r) then r {{ rg_cpc := CLoadTail head }}
          else r {{ rg_cpc := CTakeSlot head }}
      | _ => r
      end
  | Drain max =>
      match rg_cpc r with
      | CIdle => r {{ rg_cpc := DLoadTail (sh_head (rg_sh r)) max }}
      | _ => r
      end
  | CStep seen disc => cons_step seen disc r
  | CDrop =>
      match rg_cpc r with
      | CIdle => r {{ rg_sh ::= ring_drop; rg_cpc := CDropped }}
      | _ => r
      end
  end.

Definition ring_run (steps : list (RingStep T)) r : Ring T := foldl ring_step r steps.

(** The machine on a new channel. *)
Definition ring_start (capacity : usize) : option (Ring T) :=
  match channel capacity with
  | Some (sh, p, c) => Some (MkRing sh p c PIdle CIdle [])
  | None => None
  end.

(** The values published, taken out of slots, and returned to the consumer's
    caller, in order. *)
Definition published r : list T :=
  omap (λ e, match e with Published v => Some v | _ => None end) (rg_events r).

Definition taken r : list T :=
  omap (λ e, match e with Taken v => Some v | _ => None end) (rg_events r).

Definition returned_by (e : RingEvent T) : list T :=
  match e with Popped (Ok v) => [v] | Drained vs _ => vs | _ => [] end.

Definition returned r : list T := mjoin (returned_by <$> rg_events r).

(** Values the consumer holds and has not returned yet. *)
Definition held (pc : ConsPc T) : list T :=
  match pc with
  | CStoreHead _ (Some v) | CCountPop (Some v) => [v]
  | DTakeSlot _ _ buf | DStoreHead _ buf | DCountPops buf | DLoadDisc buf => buf
  | _ => []
  end.
End machine.
