(* ===== verification/BridgeRingFacts.v ===== *)
(** * Correctness of the SPSC ring

    The invariant of the interleaving machine of [BridgeRing], with the
    counters read as the unbounded numbers they are the 64-bit remainders of,
    and what follows: values come out once, in order and unharmed, the two
    sides never touch one slot together, and each operation on its own
    behaves as on a bounded queue. *)

From Stdlib Require Import Lia.
From stdpp Require Import base option list.
From S2P Require Import Prelude BridgeRing.

Open Scope N_scope.

(** ** Counters modulo [2 ^ 64] *)

Lemma wrap64_add a b : wrap64 (wrap64 a + b) = wrap64 (a + b).
Proof. unfold wrap64. by rewrite N.Div0.add_mod_idemp_l. Qed.

Lemma wrap64_lt a : wrap64 a < 2 ^ 64.
Proof. by apply N.mod_lt. Qed.

Lemma wsub64_wrap a b : b ≤ a → a - b < 2 ^ 64 → wsub64 (wrap64 a) (wrap64 b) = a - b.
Proof.
  intros Hle Hlt. unfold wsub64. pose proof (wrap64_lt b) as Hb.
  assert (wrap64 a + 2 ^ 64 - wrap64 b = wrap64 a + (2 ^ 64 - wrap64 b)) as -> by lia.
  rewrite wrap64_add. unfold wrap64 in *.
  pose proof (N.Div0.div_mod b (2 ^ 64)) as Hdm.
  assert (a + (2 ^ 64 - b mod 2 ^ 64) = (a - b) + (b / 2 ^ 64 + 1) * 2 ^ 64) as -> by lia.
  by rewrite N.Div0.mod_add, N.mod_small.
Qed.

Lemma wrap64_inj a b : b ≤ a → a - b < 2 ^ 64 → wrap64 a = wrap64 b → a = b.
Proof.
  intros Hle Hlt Heq. pose proof (wsub64_wrap a b Hle Hlt) as Hs.
  rewrite Heq, wsub64_wrap in Hs by lia. lia.
Qed.

Lemma may_see_between last seen now :
  last ≤ now → now - last < 2 ^ 64 → may_see (wrap64 last) seen (wrap64 now) = true →
  ∃ s, last ≤ s ≤ now ∧ seen = wrap64 s.
Proof.
  intros Hle Hlt [Hs Hd]%andb_true_iff. apply N.ltb_lt in Hs. apply N.leb_le in Hd.
  rewrite wsub64_wrap in Hd by done.
  exists (last + wsub64 seen (wrap64 last)). split; [lia|].
  unfold wsub64. rewrite (N.add_comm last). rewrite wrap64_add.
  pose proof (wrap64_lt last) as Hl.
  pose proof (N.Div0.div_mod last (2 ^ 64)) as Hdm. unfold wrap64 in *.
  assert (seen + 2 ^ 64 - last mod 2 ^ 64 + last = seen + (last / 2 ^ 64 + 1) * 2 ^ 64) as -> by lia.
  by rewrite N.Div0.mod_add, N.mod_small.
Qed.

Lemma may_see_now last now :
  last ≤ now → now - last < 2 ^ 64 → may_see (wrap64 last) (wrap64 now) (wrap64 now) = true.
Proof.
  intros. unfold may_see. apply andb_true_iff. split; [apply N.ltb_lt, wrap64_lt|].
  apply N.leb_le. lia.
Qed.

Lemma mod_pow2_64 a k : k ≤ 64 → wrap64 a mod 2 ^ k = a mod 2 ^ k.
Proof.
  intros Hk. unfold wrap64. replace 64 with (k + (64 - k)) by lia.
  rewrite N.pow_add_r, N.Div0.mod_mul_r.
  rewrite N.mul_comm, N.Div0.mod_add, N.Div0.mod_mod. done.
Qed.

Lemma mod_distinct a b m : a < b → b - a < m → a mod m ≠ b mod m.
Proof.
  intros Hlt Hm Heq. pose proof (N.Div0.div_mod a m). pose proof (N.Div0.div_mod b m).
  assert (b - a = m * (b / m - a / m)) as Hd by nia.
  destruct (N.eq_0_gt_0_cases (b / m - a / m)) as [Hz|Hz]; nia.
Qed.

(** [next_power_of_two] rounds up to a power of two that fits. *)
Lemma next_power_of_two_spec n m :
  0 < n → next_power_of_two n = Some m →
  ∃ k, k ≤ 63 ∧ m = 2 ^ k ∧ n ≤ m ∧ (∀ j, n ≤ 2 ^ j → m ≤ 2 ^ j).
Proof.
  unfold next_power_of_two. intros Hn. destruct (N.leb_spec n (2 ^ 63)); [|done].
  intros [= <-]. exists (N.log2_up n).
  assert (∀ j, n ≤ 2 ^ j → N.log2_up n ≤ j) as Hup.
  { intros j Hj. apply N.log2_up_le_pow2; lia. }
  split_and!; [by apply Hup|done| |].
  - by apply N.log2_log2_up_spec.
  - intros j Hj. apply N.pow_le_mono_r; [done|]. by apply Hup.
Qed.

(** ** Slots *)

(** [sh] is the ring of a [channel] of capacity [2 ^ k]. *)
Record sized {T} (sh : Shared T) (k : N) : Prop := MkSized {
  sz_log : k ≤ 63;
  sz_capacity : sh_capacity sh = 2 ^ k;
  sz_mask : sh_mask sh = 2 ^ k - 1;
  sz_slots : length (sh_slots sh) = N.to_nat (2 ^ k);
}.

Lemma pow2_pos k : 0 < 2 ^ k.
Proof. apply N.neq_0_lt_0, N.pow_nonzero. lia. Qed.

Lemma pow2_63 k : k ≤ 63 → 2 ^ k ≤ 2 ^ 63.
Proof. intros. by apply N.pow_le_mono_r. Qed.

(** The slot of counter number [n]. *)
Definition slot_at (k n : N) : nat := N.to_nat (n mod 2 ^ k).

Section slots.
Context {T : Type}.
Implicit Types (sh : Shared T).

Lemma slot_of_wrap sh k n : sized sh k → slot_of sh (wrap64 n) = slot_at k n.
Proof.
  intros Hs. unfold slot_of, slot_at. rewrite (sz_mask _ _ Hs).
  replace (2 ^ k - 1) with (N.ones k) by (rewrite N.ones_equiv; lia).
  rewrite N.land_ones, mod_pow2_64; [done|]. pose proof (sz_log _ _ Hs). lia.
Qed.

Lemma slot_at_lt sh k n : sized sh k → (slot_at k n < length (sh_slots sh))%nat.
Proof.
  intros Hs. rewrite (sz_slots _ _ Hs). unfold slot_at.
  pose proof (N.mod_lt n (2 ^ k) ltac:(by apply N.pow_nonzero)). lia.
Qed.

Lemma slot_at_ne k a b : a < b → b - a < 2 ^ k → slot_at k a ≠ slot_at k b.
Proof. intros ?? ?%N2Nat.inj. by apply (mod_distinct a b (2 ^ k)). Qed.

(** The slots of the counters from [lo] on hold [vs], oldest first. *)
Definition holds sh (k lo : N) (vs : list T) : Prop :=
  ∀ i v, vs !! i = Some v → sh_slots sh !! slot_at k (lo + N.of_nat i) = Some (Some v).

Lemma holds_put sh k lo vs s n :
  holds sh k lo vs → lo + N.of_nat (length vs) ≤ n → n < lo + 2 ^ k →
  holds (sh {{ sh_slots ::= λ l, <[slot_at k n := s]> l }}) k lo vs.
Proof.
  intros Hh H1 H2 i v Hi. simpl. pose proof (lookup_lt_Some _ _ _ Hi).
  rewrite list_lookup_insert_ne; [by apply Hh|].
  apply not_eq_sym, slot_at_ne; lia.
Qed.

Lemma holds_drop sh k lo v vs s :
  holds sh k lo (v :: vs) → N.of_nat (length vs) < 2 ^ k →
  holds (sh {{ sh_slots ::= λ l, <[slot_at k lo := s]> l }}) k (lo + 1) vs.
Proof.
  intros Hh Hl i w Hi. simpl. pose proof (lookup_lt_Some _ _ _ Hi).
  rewrite list_lookup_insert_ne by (apply slot_at_ne; lia).
  replace (lo + 1 + N.of_nat i) with (lo + N.of_nat (S i)) by lia. by apply (Hh (S i)).
Qed.

Lemma holds_snoc sh k lo vs v :
  holds sh k lo vs → sh_slots sh !! slot_at k (lo + N.of_nat (length vs)) = Some (Some v) →
  holds sh k lo (vs ++ [v]).
Proof.
  intros Hh Hv i w. rewrite lookup_snoc_Some. intros [[_ Hi]|[-> <-]]; [by apply Hh|done].
Qed.

Lemma sized_put sh k i s : sized sh k → sized (sh {{ sh_slots ::= λ l, <[i := s]> l }}) k.
Proof. intros []. split; simpl; try done. by rewrite length_insert. Qed.
End slots.

(** ** The invariant *)

Section invariant.
Context {T : Type}.
Implicit Types (r : Ring T) (sh : Shared T) (q : list T).

(** What the producer knows before its next access; [P] numbers the next
    slot to publish and [room] says that it is free. *)
Definition prod_ok sh k (P : N) (room : Prop) (pc : ProdPc T) : Prop :=
  match pc with
  | PIdle | PDropped | PLoadTail _ | PCountPush => True
  | PLoadHead _ tail | PCountFull tail => tail = wrap64 P
  | PWriteSlot _ tail => tail = wrap64 P ∧ room
  | PStoreTail v tail =>
      tail = wrap64 P ∧ room ∧ sh_slots sh !! slot_at k P = Some (Some v)
  end.

(** What the consumer knows: [C] is the head it published, [K] the number of
    values it took, [Q] the tail it saw. *)
Definition cons_ok (C K Q : N) (pc : ConsPc T) : Prop :=
  match pc with
  | CIdle | CDropped | CLoadDisc | DCountPops _ | DLoadDisc _ => K = C
  | CPanicked => False
  | CLoadTail head | DLoadTail head _ => K = C ∧ head = wrap64 C
  | CTakeSlot head => K = C ∧ head = wrap64 C ∧ C < Q
  | CStoreHead head value => K = C + 1 ∧ head = wrap64 C ∧ is_Some value
  | CCountPop value => K = C ∧ is_Some value
  | DTakeSlot head count buf =>
      K = C + N.of_nat (length buf) ∧ head = wrap64 C ∧
      N.of_nat (length buf) < count ∧ C + count ≤ Q
  | DStoreHead head buf => K = C + N.of_nat (length buf) ∧ head = wrap64 C
  end.

(** [C], [K] and [P] number the values freed, taken and published, [H] and
    [Q] the cached head and tail, and [q] is what the ring holds. *)
Record ring_ok r (k C H Q : N) q : Prop := MkRingOk {
  ro_sized : sized (rg_sh r) k;
  ro_queue : published r = taken r ++ q;
  ro_holds : holds (rg_sh r) k (N.of_nat (length (taken r))) q;
  ro_tail : sh_tail (rg_sh r) = wrap64 (N.of_nat (length (published r)));
  ro_head : sh_head (rg_sh r) = wrap64 C;
  ro_cached_head : cached_head (rg_prod r) = wrap64 H;
  ro_cached_tail : cached_tail (rg_cons r) = wrap64 Q;
  ro_freed : H ≤ C ≤ N.of_nat (length (taken r));
  ro_seen : N.of_nat (length (taken r)) ≤ Q ≤ N.of_nat (length (published r));
  ro_room : N.of_nat (length (published r)) ≤ H + 2 ^ k;
  ro_prod : prod_ok (rg_sh r) k (N.of_nat (length (published r)))
              (N.of_nat (length (published r)) < H + 2 ^ k) (rg_ppc r);
  ro_cons : cons_ok C (N.of_nat (length (taken r))) Q (rg_cpc r);
  ro_returned : returned r ++ held (rg_cpc r) = taken r;
}.

Lemma published_emit e r :
  published (emit e r) = published r ++ match e with Published v => [v] | _ => [] end.
Proof. unfold published, emit. simpl. rewrite omap_app. by destruct e. Qed.

Lemma taken_emit e r :
  taken (emit e r) = taken r ++ match e with Taken v => [v] | _ => [] end.
Proof. unfold taken, emit. simpl. rewrite omap_app. by destruct e. Qed.

Lemma returned_emit e r : returned (emit e r) = returned r ++ returned_by e.
Proof. unfold returned, emit. simpl. by rewrite fmap_app, join_app; simpl; rewrite app_nil_r. Qed.

Lemma ring_start_ok cap r : ring_start cap = Some r → ∃ k, ring_ok r k 0 0 0 [].
Proof.
  unfold ring_start, channel. destruct (N.ltb_spec 0 cap) as [Hc|]; [|done].
  destruct (next_power_of_two cap) as [m|] eqn:Hm; [|done].
  apply next_power_of_two_spec in Hm as (k & Hk & -> & _); [|done].
  intros [= <-]. exists k. split; simpl; try done.
  - split; simpl; try done. by rewrite length_replicate.
  - lia.
Qed.

Lemma ring_full_wrap sh k P H :
  sized sh k → H ≤ P ≤ H + 2 ^ k →
  ring_full sh (wrap64 P) (wrap64 H) = (H + 2 ^ k <=? P).
Proof.
  intros [Hk Hc _ _] HP. pose proof (pow2_63 k Hk). unfold ring_full.
  rewrite Hc, wsub64_wrap by lia. apply eq_true_iff_eq. rewrite !N.leb_le. lia.
Qed.

(** A write that emits nothing keeps the histories of [r]. *)
Ltac same_history r :=
  repeat match goal with
  | |- context [published ?x] =>
      lazymatch x with r => fail | _ => change (published x) with (published r) end
  | |- context [taken ?x] =>
      lazymatch x with r => fail | _ => change (taken x) with (taken r) end
  | |- context [returned ?x] =>
      lazymatch x with r => fail | _ => change (returned x) with (returned r) end
  end.

(** *** The producer *)

Lemma prod_pc_ok r k C H Q q pc :
  ring_ok r k C H Q q →
  prod_ok (rg_sh r) k (N.of_nat (length (published r)))
    (N.of_nat (length (published r)) < H + 2 ^ k) pc →
  ring_ok (r {{ rg_ppc := pc }}) k C H Q q.
Proof. intros [] Hpc. by split. Qed.

Lemma load_head_ok r k C H Q q seen :
  ring_ok r k C H Q q →
  may_see (cached_head (rg_prod r)) seen (sh_head (rg_sh r)) = true →
  (∃ v, rg_ppc r = PLoadHead v (wrap64 (N.of_nat (length (published r))))) →
  ∃ H', seen = wrap64 H' ∧ ring_ok (r {{ rg_prod := MkProducer seen }}) k C H' Q q.
Proof.
  intros Hok Hsee [v Hv]. pose proof Hok as [Hs Hq Hh Ht Hhd Hch Hct Hf Hse Hr Hp Hc Hre].
  pose proof (pow2_63 k (sz_log _ _ Hs)).
  rewrite Hch, Hhd in Hsee. apply may_see_between in Hsee as (H' & HH & ->); [|lia..].
  exists H'. split; [done|]. split; same_history r; try done; simpl; try lia. by rewrite Hv.
Qed.

Lemma write_slot_ok r k C H Q q v tail :
  ring_ok r k C H Q q → rg_ppc r = PWriteSlot v tail →
  ring_ok (r {{ rg_sh := set_slot (rg_sh r) tail (Some v); rg_ppc := PStoreTail v tail }})
    k C H Q q.
Proof.
  intros [Hs Hq Hh Ht Hhd Hch Hct Hf Hse Hr Hp Hc Hre] Hpc.
  rewrite Hpc in Hp. destruct Hp as [-> Hroom].
  assert (length (published r) = (length (taken r) + length q)%nat) as HP
    by by rewrite Hq, length_app.
  split; same_history r; try done; simpl; unfold set_slot; rewrite ?(slot_of_wrap _ k) by done.
  - by apply sized_put.
  - apply holds_put; [done|lia..].
  - simpl. split_and!; [done..|]. apply list_lookup_insert_eq. by apply slot_at_lt.
Qed.

Lemma store_tail_ok r k C H Q q v tail :
  ring_ok r k C H Q q → rg_ppc r = PStoreTail v tail →
  ring_ok (emit (Published v)
    (r {{ rg_sh -> sh_tail := wrap64 (tail + 1); rg_ppc := PCountPush }})) k C H Q (q ++ [v]).
Proof.
  intros [Hs Hq Hh Ht Hhd Hch Hct Hf Hse Hr Hp Hc Hre] Hpc.
  rewrite Hpc in Hp. destruct Hp as (-> & Hroom & Hslot).
  assert (length (published r) = (length (taken r) + length q)%nat) as HP
    by by rewrite Hq, length_app.
  set (r' := r {{ rg_sh -> sh_tail := _; rg_ppc := _ }}).
  pose proof (published_emit (Published v) r') as Hpub.
  pose proof (taken_emit (Published v) r') as Htak.
  pose proof (returned_emit (Published v) r') as Hret.
  rewrite app_nil_r in Htak, Hret.
  split; rewrite ?Htak, ?Hpub, ?Hret, ?length_app; same_history r; simpl; try done; try lia.
  - by destruct Hs.
  - by rewrite Hq, app_assoc.
  - apply holds_snoc; [done|]. simpl. rewrite <-Nat2N.inj_add, <-HP. done.
  - rewrite wrap64_add. f_equal. lia.
Qed.

Lemma metrics_ok r k C H Q q f :
  ring_ok r k C H Q q → ring_ok (r {{ rg_sh -> sh_metrics ::= f }}) k C H Q q.
Proof. intros [[] ?????????? ??]. by split. Qed.

Lemma drop_ok r k C H Q q :
  ring_ok r k C H Q q → ring_ok (r {{ rg_sh ::= ring_drop }}) k C H Q q.
Proof. intros [[] ?????????? ??]. by split. Qed.

(** An answer to the producer changes nothing else. *)
Lemma pushed_ok r k C H Q q res :
  ring_ok r k C H Q q → ring_ok (emit (Pushed res) r) k C H Q q.
Proof.
  intros []. pose proof (published_emit (Pushed res) r) as Hp.
  pose proof (taken_emit (Pushed res) r) as Ht. pose proof (returned_emit (Pushed res) r) as Hr.
  rewrite app_nil_r in Hp, Ht, Hr. by split; rewrite ?Hp, ?Ht, ?Hr.
Qed.

#[local] Hint Resolve metrics_ok drop_ok pushed_ok write_slot_ok store_tail_ok : nodedb.

Lemma prod_step_ok seen r k C H Q q :
  ring_ok r k C H Q q → ∃ H' q', ring_ok (prod_step seen r) k C H' Q q'.
Proof.
  intros Hok. unfold prod_step.
  destruct (rg_ppc r) as [| |v|v tail|tail|v tail|v tail|] eqn:Hpc; try by eauto.
  - rewrite (ro_tail _ _ _ _ _ _ Hok), (ro_cached_head _ _ _ _ _ _ Hok).
    pose proof (ro_room _ _ _ _ _ _ Hok). pose proof (ro_freed _ _ _ _ _ _ Hok).
    pose proof (ro_seen _ _ _ _ _ _ Hok).
    rewrite (ring_full_wrap _ k) by (apply Hok || lia).
    exists H, q. destruct (N.leb_spec (H + 2 ^ k) (N.of_nat (length (published r))));
      by apply prod_pc_ok.
  - pose proof (ro_prod _ _ _ _ _ _ Hok) as Htail. rewrite Hpc in Htail. simpl in Htail. subst tail.
    destruct (may_see _ _ _) eqn:Hsee; [|by eauto].
    destruct (load_head_ok _ _ _ _ _ _ seen Hok Hsee ltac:(eauto)) as (H' & -> & Hok').
    exists H', q. pose proof (ro_room _ _ _ _ _ _ Hok'). pose proof (ro_freed _ _ _ _ _ _ Hok').
    pose proof (ro_seen _ _ _ _ _ _ Hok').
    change (published (upd rg_prod _ r)) with (published r) in *.
    change (taken (upd rg_prod _ r)) with (taken r) in *.
    rewrite (ring_full_wrap _ k) by (apply Hok || lia).
    destruct (N.leb_spec (H' + 2 ^ k) (N.of_nat (length (published r)))); by apply prod_pc_ok.
  - exists H, q. by apply pushed_ok, prod_pc_ok; [apply metrics_ok|].
  - by eauto with nodedb.
  - by eauto with nodedb.
  - exists H, q. by apply pushed_ok, prod_pc_ok; [apply metrics_ok|].
Qed.

(** *** The consumer *)

Lemma cons_pc_ok r k C H Q q pc :
  ring_ok r k C H Q q → cons_ok C (N.of_nat (length (taken r))) Q pc →
  held pc = held (rg_cpc r) → ring_ok (r {{ rg_cpc := pc }}) k C H Q q.
Proof.
  intros [] Hpc Hheld. split; same_history r; try done. simpl. by rewrite Hheld.
Qed.

(** An answer hands over what the consumer holds. *)
Lemma answered_ok r k C H Q q e :
  ring_ok r k C H Q q → match e with Published _ | Taken _ => False | _ => True end →
  returned_by e = held (rg_cpc r) → C = N.of_nat (length (taken r)) →
  ring_ok (emit e (r {{ rg_cpc := CIdle }})) k C H Q q.
Proof.
  intros [] He Hby HC. set (r' := r {{ rg_cpc := CIdle }}).
  assert (published (emit e r') = published r) as Hp
    by (rewrite published_emit; destruct e; try done; by rewrite app_nil_r).
  assert (taken (emit e r') = taken r) as Ht
    by (rewrite taken_emit; destruct e; try done; by rewrite app_nil_r).
  assert (returned (emit e r') = returned r ++ held (rg_cpc r)) as Hr
    by (rewrite returned_emit, Hby; done).
  split; rewrite ?Hp, ?Ht, ?Hr; try done. simpl. by rewrite app_nil_r.
Qed.

Lemma load_tail_ok r k C H Q q seen :
  ring_ok r k C H Q q → may_see (cached_tail (rg_cons r)) seen (sh_tail (rg_sh r)) = true →
  N.of_nat (length (taken r)) = C → held (rg_cpc r) = [] →
  ∃ Q', seen = wrap64 Q' ∧ Q ≤ Q' ∧
    ring_ok (r {{ rg_cons := MkConsumer seen; rg_cpc := CIdle }}) k C H Q' q.
Proof.
  intros Hok Hsee HC Hheld. pose proof Hok as [Hs Hq Hh Ht Hhd Hch Hct Hf Hse Hr Hp Hc Hre].
  pose proof (pow2_63 k (sz_log _ _ Hs)).
  rewrite Hct, Ht in Hsee. apply may_see_between in Hsee as (Q' & HQ & ->); [|lia..].
  exists Q'. split; [done|]. split; [lia|]. split; same_history r; try done; simpl; try lia.
  by rewrite <-Hheld.
Qed.

(** The next slot to take is full, and taking it moves its value to the
    consumer. *)
Lemma take_ok r k C H Q q :
  ring_ok r k C H Q q → N.of_nat (length (taken r)) < Q →
  ∃ v q' sh, q = v :: q' ∧
    take_slot (rg_sh r) (wrap64 (N.of_nat (length (taken r)))) = (sh, Some v) ∧
    ∀ pc, cons_ok C (N.of_nat (length (taken r)) + 1) Q pc →
      held pc = held (rg_cpc r) ++ [v] →
      ring_ok (emit (Taken v) (r {{ rg_sh := sh; rg_cpc := pc }})) k C H Q q'.
Proof.
  intros [Hs Hq Hh Ht Hhd Hch Hct Hf Hse Hr Hp Hc Hre] HK.
  assert (length (published r) = (length (taken r) + length q)%nat) as HP
    by by rewrite Hq, length_app.
  destruct q as [|v q']; [simpl in HP; lia|]. simpl in HP.
  pose proof (Hh 0%nat v eq_refl) as Hslot. rewrite N.add_0_r in Hslot.
  exists v, q', (set_slot (rg_sh r) (wrap64 (N.of_nat (length (taken r)))) None).
  split; [done|]. split.
  { unfold take_slot. by rewrite (slot_of_wrap _ k), Hslot by done. }
  intros pc Hpc Hheld. set (r' := r {{ rg_sh := _; rg_cpc := pc }}).
  pose proof (published_emit (Taken v) r') as Hpub. rewrite app_nil_r in Hpub.
  pose proof (taken_emit (Taken v) r') as Htak.
  pose proof (returned_emit (Taken v) r') as Hret. rewrite app_nil_r in Hret.
  split; rewrite ?Htak, ?Hpub, ?Hret, ?length_app, ?Nat2N.inj_add; same_history r; simpl;
    unfold set_slot; rewrite ?(slot_of_wrap _ k) by done; try done; try lia.
  - by apply sized_put.
  - by rewrite <-app_assoc, Hq.
  - eapply holds_drop; [done|lia].
  - destruct (rg_ppc r); try done. destruct Hp as (-> & Hroom & Hsl). split_and!; [done..|].
    simpl. rewrite list_lookup_insert_ne; [done|]. apply slot_at_ne; lia.
  - by rewrite Hheld, app_assoc, Hre.
Qed.

Lemma store_head_ok r k C H Q q pc :
  ring_ok r k C H Q q → held pc = held (rg_cpc r) →
  cons_ok (N.of_nat (length (taken r))) (N.of_nat (length (taken r))) Q pc →
  ring_ok (r {{ rg_sh -> sh_head := wrap64 (N.of_nat (length (taken r))); rg_cpc := pc }})
    k (N.of_nat (length (taken r))) H Q q.
Proof.
  intros [[] ???????????] Hheld Hpc. split; same_history r; try done; simpl; try lia.
  by rewrite Hheld.
Qed.

(** The pop path. *)
Lemma pop_step_ok seen disc r k C H Q q :
  ring_ok r k C H Q q →
  match rg_cpc r with
  | CLoadTail _ | CLoadDisc | CTakeSlot _ | CStoreHead _ _ | CCountPop _ => True
  | _ => False
  end → ∃ C' Q' q', ring_ok (cons_step seen disc r) k C' H Q' q'.
Proof.
  intros Hok Hat. unfold cons_step. pose proof (ro_cons _ _ _ _ _ _ Hok) as Hc.
  destruct (rg_cpc r) as [| | |head| |head|head value|value| | | | |] eqn:Hpc; try done;
    simpl in Hc.
  - destruct Hc as [HC ->]. destruct (may_see _ _ _) eqn:Hsee; [|by eauto].
    destruct (load_tail_ok _ _ _ _ _ _ _ Hok Hsee HC ltac:(by rewrite Hpc)) as (Q' & -> & HQ & Hok').
    exists C, Q', q. pose proof (ro_seen _ _ _ _ _ _ Hok') as HQ'.
    change (taken (upd rg_cpc _ (upd rg_cons _ r))) with (taken r) in HQ'.
    case_match eqn:Heq.
    + by apply (cons_pc_ok _ _ _ _ _ _ CLoadDisc) in Hok'.
    + apply (cons_pc_ok _ _ _ _ _ _ (CTakeSlot (wrap64 C))) in Hok'; [done| |done].
      apply N.eqb_neq in Heq. split_and!; [done..|].
      destruct (N.eq_dec C Q') as [->|]; [done|lia].
  - destruct (may_see_disc _ _); [|by eauto]. exists C, Q, q.
    apply answered_ok; try done. by rewrite Hpc.
  - destruct Hc as (HC & -> & HQ). rewrite <-HC in HQ.
    destruct (take_ok _ _ _ _ _ _ Hok HQ) as (v & q' & sh & -> & Htk & Hnext).
    rewrite HC in Htk. rewrite Htk. exists C, Q, q'. apply Hnext; [|by rewrite Hpc].
    simpl. split_and!; [lia|done|by eauto].
  - destruct Hc as (HC & -> & [v ->]). exists (N.of_nat (length (taken r))), Q, q.
    rewrite wrap64_add, <-HC. eapply store_head_ok; [done|by rewrite Hpc|].
    by split; [|eauto].
  - destruct Hc as (HC & [v ->]). exists C, Q, q.
    apply (answered_ok (r {{ rg_sh -> sh_metrics ::= record_pop }})); try done.
    + by apply metrics_ok.
    + simpl. by rewrite Hpc.
Qed.

(** The drain path. *)
Lemma drain_step_ok seen disc r k C H Q q :
  ring_ok r k C H Q q →
  match rg_cpc r with
  | DLoadTail _ _ | DTakeSlot _ _ _ | DStoreHead _ _ | DCountPops _ | DLoadDisc _ => True
  | _ => False
  end → ∃ C' Q' q', ring_ok (cons_step seen disc r) k C' H Q' q'.
Proof.
  intros Hok Hat. unfold cons_step. pose proof (ro_cons _ _ _ _ _ _ Hok) as Hc.
  destruct (rg_cpc r) as [| | |?| |?|? ?|?|head max|head count buf|head buf|buf|buf] eqn:Hpc;
    try done; simpl in Hc.
  - destruct Hc as [HC ->]. destruct (may_see _ _ _) eqn:Hsee; [|by eauto].
    destruct (load_tail_ok _ _ _ _ _ _ _ Hok Hsee HC ltac:(by rewrite Hpc)) as (Q' & -> & HQ & Hok').
    exists C, Q', q. pose proof (ro_seen _ _ _ _ _ _ Hok') as HQ'.
    change (taken (upd rg_cpc _ (upd rg_cons _ r))) with (taken r) in *.
    change (published (upd rg_cpc _ (upd rg_cons _ r))) with (published r) in *.
    pose proof (ro_room _ _ _ _ _ _ Hok). pose proof (ro_freed _ _ _ _ _ _ Hok).
    pose proof (pow2_63 k (sz_log _ _ (ro_sized _ _ _ _ _ _ Hok))).
    rewrite wsub64_wrap by lia. case_match eqn:Hpos.
    + apply N.ltb_lt in Hpos.
      apply (cons_pc_ok _ _ _ _ _ _ (DTakeSlot (wrap64 C) (N.min (Q' - C) max) [])) in Hok';
        [done| |done].
      split_and!; [|done|done|]; simpl; same_history r; lia.
    + by apply (cons_pc_ok _ _ _ _ _ _ (DLoadDisc [])) in Hok'.
  - destruct Hc as (HC & -> & Hlt & HQ).
    destruct (take_ok _ _ _ _ _ _ Hok ltac:(lia)) as (v & q' & sh & -> & Htk & Hnext).
    rewrite wrap64_add, <-HC, Htk. exists C, Q, q'. case_match eqn:Hcnt.
    + apply N.ltb_lt in Hcnt.
      apply (Hnext (DTakeSlot (wrap64 C) count (buf ++ [v]))); [|by rewrite Hpc].
      simpl. rewrite length_app. simpl. split_and!; [lia|done|lia|lia].
    + apply (Hnext (DStoreHead (wrap64 C) (buf ++ [v]))); [|by rewrite Hpc].
      simpl. rewrite length_app. simpl. split; [lia|done].
  - destruct Hc as [HC ->]. exists (N.of_nat (length (taken r))), Q, q.
    rewrite wrap64_add, <-HC. eapply store_head_ok; [done|by rewrite Hpc|done].
  - exists C, Q, q. apply cons_pc_ok; [by apply metrics_ok|done|]. simpl. by rewrite Hpc.
  - destruct (may_see_disc _ _); [|by eauto]. exists C, Q, q.
    apply answered_ok; try done. by rewrite Hpc.
Qed.

Lemma ring_step_ok r k C H Q q s :
  ring_ok r k C H Q q → ∃ C' H' Q' q', ring_ok (ring_step r s) k C' H' Q' q'.
Proof.
  intros Hok. pose proof (ro_cons _ _ _ _ _ _ Hok) as Hc.
  destruct s as [v disc|seen| | |max|seen disc|]; simpl.
  - destruct (rg_ppc r) eqn:Hpc; try by eauto 10. destruct (may_see_disc _ _); [|by eauto 10].
    destruct disc; [by eauto 10 with nodedb|]. exists C, H, Q, q. by apply prod_pc_ok.
  - destruct (prod_step_ok seen _ _ _ _ _ _ Hok) as (? & ? & ?). by eauto.
  - destruct (rg_ppc r) eqn:Hpc; try by eauto 10. exists C, H, Q, q.
    apply prod_pc_ok; [by apply drop_ok|done].
  - destruct (rg_cpc r) eqn:Hpc; try by eauto 10. exists C, H, Q, q.
    rewrite (ro_head _ _ _ _ _ _ Hok), (ro_cached_tail _ _ _ _ _ _ Hok). simpl in Hc.
    pose proof (ro_seen _ _ _ _ _ _ Hok). case_match eqn:Heq; apply cons_pc_ok; rewrite ?Hpc; try done.
    apply N.eqb_neq in Heq. split_and!; [done..|].
    destruct (N.eq_dec C Q) as [->|]; [done|lia].
  - destruct (rg_cpc r) eqn:Hpc; try by eauto 10. exists C, H, Q, q.
    apply cons_pc_ok; rewrite ?Hpc; [done| |done]. split; [done|by apply Hok].
  - destruct (rg_cpc r) eqn:Hpc; simpl in Hc; try done;
      try (by unfold cons_step; rewrite Hpc; eauto 10).
    1-5: destruct (pop_step_ok seen disc _ _ _ _ _ _ Hok ltac:(by rewrite Hpc)) as (? & ? & ? & ?);
      by eauto 10.
    all: destruct (drain_step_ok seen disc _ _ _ _ _ _ Hok ltac:(by rewrite Hpc)) as (? & ? & ? & ?);
      by eauto 10.
  - destruct (rg_cpc r) eqn:Hpc; try by eauto 10. exists C, H, Q, q.
    apply cons_pc_ok; [by apply drop_ok|done|simpl; by rewrite Hpc].
Qed.

(** Every state of every run from a new channel satisfies the invariant. *)
Lemma ring_run_ok cap r steps :
  ring_start cap = Some r → ∃ k C H Q q, ring_ok (ring_run steps r) k C H Q q.
Proof.
  intros (k & Hok)%ring_start_ok. exists k. unfold ring_run.
  revert Hok. generalize 0 at 1 as C. generalize 0 at 1 as H. generalize 0 as Q.
  generalize (@nil T) as q. revert r.
  induction steps as [|s steps IH]; intros r q Q H C Hok; [by eauto|].
  simpl. destruct (ring_step_ok _ _ _ _ _ _ s Hok) as (C' & H' & Q' & q' & Hok').
  by apply IH in Hok'.
Qed.

(** C29. Whatever the interleaving of the producer and the consumer, and
    however old the counter values their loads return: the values handed to
    the consumer's caller are a prefix of the values published, in order and
    each once; what was published and not yet taken never exceeds the
    capacity; and no pop or drain ever meets an empty slot (the [expect]s
    never panic). *)
Theorem ring_fifo cap r steps :
  ring_start cap = Some r →
  returned (ring_run steps r) `prefix_of` published (ring_run steps r) ∧
  taken (ring_run steps r) `prefix_of` published (ring_run steps r) ∧
  N.of_nat (length (published (ring_run steps r)) - length (taken (ring_run steps r)))
    ≤ sh_capacity (rg_sh (ring_run steps r)) ∧
  rg_cpc (ring_run steps r) ≠ CPanicked.
Proof.
  intros (k & C & H & Q & q & Hok)%(ring_run_ok _ _ steps).
  destruct Hok as [Hs Hq _ _ _ _ _ Hf Hse Hr _ Hc Hre]. rewrite (sz_capacity _ _ Hs).
  split_and!.
  - rewrite Hq, <-Hre, <-app_assoc. by apply prefix_app_r.
  - rewrite Hq. by apply prefix_app_r.
  - lia.
  - intros Hp. by rewrite Hp in Hc.
Qed.

(** The producer and the consumer are never both about to access one
    slot, so the unsynchronised slot accesses do not race. *)
Theorem ring_race_free cap r steps v tail head :
  ring_start cap = Some r →
  rg_ppc (ring_run steps r) = PWriteSlot v tail →
  (rg_cpc (ring_run steps r) = CTakeSlot head ∨
   ∃ h count buf, rg_cpc (ring_run steps r) = DTakeSlot h count buf ∧
     head = wrap64 (h + N.of_nat (length buf))) →
  slot_of (rg_sh (ring_run steps r)) tail ≠ slot_of (rg_sh (ring_run steps r)) head.
Proof.
  intros (k & C & H & Q & q & Hok)%(ring_run_ok _ _ steps) Hpp Hcp.
  destruct Hok as [Hs Hq _ _ _ _ _ Hf Hse Hr Hp Hc _].
  rewrite Hpp in Hp. destruct Hp as [-> Hroom].
  assert (head = wrap64 (N.of_nat (length (taken (ring_run steps r)))) ∧
    N.of_nat (length (taken (ring_run steps r))) < Q) as [-> HK].
  { destruct Hcp as [Hcp|(h & count & buf & Hcp & ->)]; rewrite Hcp in Hc.
    - destruct Hc as (-> & -> & ?). done.
    - destruct Hc as (-> & -> & ? & ?). rewrite wrap64_add. split; [done|lia]. }
  rewrite !(slot_of_wrap _ k) by done. apply not_eq_sym, slot_at_ne; lia.
Qed.
End invariant.
