(* ===== verification/BridgeRingSpec.v ===== *)
(** * The ring as a bounded queue

    The abstract contract of the ring, a bounded FIFO queue with a closed
    flag, and the refinement: run on its own, every call answers as the queue
    does. The one-go operations are tied to the interleaving machine by their
    solo runs, which also bound the number of accesses a call makes. *)

From Stdlib Require Import Lia.
From stdpp Require Import base option list.
From S2P Require Import Prelude BridgeRing BridgeRingFacts.

Open Scope N_scope.

(** ** The contract *)

Record BoundedQueue (T : Type) : Type := MkBoundedQueue {
  bq_capacity : usize;
  bq_items : list T;
  bq_closed : bool;
}.
Arguments MkBoundedQueue {T}.
Arguments bq_capacity {T}.
Arguments bq_items {T}.
Arguments bq_closed {T}.

#[export] Instance eta_BoundedQueue T : Eta (BoundedQueue T) := λ r,
  MkBoundedQueue (bq_capacity r) (bq_items r) (bq_closed r).

Inductive RingCall (T : Type) : Type :=
  | CallPush (v : T)
  | CallPop
  | CallDrain (buf : list T) (max : usize)
  | CallLen
  | CallDrop.
Arguments CallPush {T}.
Arguments CallPop {T}.
Arguments CallDrain {T}.
Arguments CallLen {T}.
Arguments CallDrop {T}.

(** The answer of a call; [AnsPanic] is a panic. *)
Inductive RingAnswer (T : Type) : Type :=
  | AnsPush (r : result BridgeError unit)
  | AnsPop (r : result BridgeError T)
  | AnsDrain (buf : list T) (count : usize) (disconnected : bool)
  | AnsLen (len : usize) (utilization : N)
  | AnsDrop
  | AnsPanic.
Arguments AnsPush {T}.
Arguments AnsPop {T}.
Arguments AnsDrain {T}.
Arguments AnsLen {T}.
Arguments AnsDrop {T}.
Arguments AnsPanic {T}.

Section spec.
Context {T : Type}.
Implicit Types (q : list T) (sh : Shared T).

Definition queue_call (b : BoundedQueue T) (c : RingCall T) : BoundedQueue T * RingAnswer T :=
  let n := N.of_nat (length (bq_items b)) in
  match c with
  | CallPush v =>
      if bq_closed b then (b, AnsPush (Err (Disconnected ConsumerSide)))
      else if n =? bq_capacity b then (b, AnsPush (Err (Full n n)))
      else (b {{ bq_items ::= λ q, q ++ [v] }}, AnsPush (Ok tt))
  | CallPop =>
      match bq_items b with
      | v :: q => (b {{ bq_items := q }}, AnsPop (Ok v))
      | [] => (b, AnsPop (Err (if bq_closed b then Disconnected ProducerSide else Empty)))
      end
  | CallDrain buf max =>
      let k := N.min n max in
      (b {{ bq_items ::= drop (N.to_nat k) }},
       AnsDrain (buf ++ take (N.to_nat k) (bq_items b)) k (bq_closed b))
  | CallLen => (b, AnsLen n (n * 100 / bq_capacity b))
  | CallDrop => (b {{ bq_closed := true }}, AnsDrop)
  end.

(** The ring's answer to the same call. *)
Definition ring_call (st : Shared T * Producer * Consumer) (c : RingCall T) :
    Shared T * Producer * Consumer * RingAnswer T :=
  let '(sh, p, co) := st in
  match c with
  | CallPush v => let '(sh, p, r) := try_push v sh p in (sh, p, co, AnsPush r)
  | CallPop =>
      let '(sh, co, r) := try_pop sh co in
      (sh, p, co, match r with Some r => AnsPop r | None => AnsPanic end)
  | CallDrain buf max =>
      let '(sh, co, r) := drain_into buf max sh co in
      (sh, p, co, match r with Some (buf, n, d) => AnsDrain buf n d | None => AnsPanic end)
  | CallLen => (sh, p, co, AnsLen (ring_len sh) (utilization sh))
  | CallDrop => (ring_drop sh, p, co, AnsDrop)
  end.

(** The answers to a sequence of calls. *)
Fixpoint answers_of {St} (call : St → RingCall T → St * RingAnswer T) (st : St)
    (calls : list (RingCall T)) : list (RingAnswer T) :=
  match calls with
  | [] => []
  | c :: calls => let '(st, a) := call st c in a :: answers_of call st calls
  end.

(** ** The simulation *)

(** The ring [sh] with the cached counters of its two halves holds the queue
    [b]: [C] values were popped so far, and the caches are at [H] and [Q]. *)
Record queue_at (st : Shared T * Producer * Consumer) (b : BoundedQueue T) (k C H Q : N) :
    Prop := MkQueueAt {
  qa_sized : sized st.1.1 k;
  qa_capacity : bq_capacity b = 2 ^ k;
  qa_closed : sh_disconnected st.1.1 = bq_closed b;
  qa_holds : holds st.1.1 k C (bq_items b);
  qa_tail : sh_tail st.1.1 = wrap64 (C + N.of_nat (length (bq_items b)));
  qa_head : sh_head st.1.1 = wrap64 C;
  qa_cached_head : cached_head st.1.2 = wrap64 H;
  qa_cached_tail : cached_tail st.2 = wrap64 Q;
  qa_caches : H ≤ C ≤ Q ∧ Q ≤ C + N.of_nat (length (bq_items b));
  qa_room : C + N.of_nat (length (bq_items b)) ≤ H + 2 ^ k;
}.

Definition simulates (st : Shared T * Producer * Consumer) (b : BoundedQueue T) : Prop :=
  ∃ k C H Q, queue_at st b k C H Q.

Lemma try_push_simulates v st b :
  simulates st b →
  simulates (ring_call st (CallPush v)).1 (queue_call b (CallPush v)).1 ∧
  (ring_call st (CallPush v)).2 = (queue_call b (CallPush v)).2.
Proof.
  intros (k & C & H & Q & Hq). destruct st as [[sh p] co].
  pose proof Hq as [Hs Hcap Hcl Hh Ht Hhd Hch Hct Hca Hro]. simpl in *.
  pose proof (pow2_63 k (sz_log _ _ Hs)). unfold try_push. rewrite Hcl.
  destruct (bq_closed b) eqn:Hb; [by split; [exists k, C, H, Q|]|].
  set (n := N.of_nat (length (bq_items b))) in *.
  set (p' := if ring_full sh (sh_tail sh) (cached_head p) then MkProducer (sh_head sh) else p).
  assert (∃ H', cached_head p' = wrap64 H' ∧ H ≤ H' ≤ C ∧
    ring_full sh (sh_tail sh) (cached_head p') = (n =? bq_capacity b) ∧
    (n = 2 ^ k → H' = C) ∧ (n ≠ 2 ^ k → C + n < H' + 2 ^ k)) as (H' & Hp' & HH & Hfull & HC & HC').
  { subst p'. rewrite Ht, Hch, (ring_full_wrap _ k) by (done || lia).
    destruct (N.leb_spec (H + 2 ^ k) (C + n)); simpl; rewrite ?Hhd, ?Hch.
    - exists C. rewrite (ring_full_wrap _ k) by (done || lia). split_and!; try done; try lia.
      apply eq_true_iff_eq. rewrite N.leb_le, N.eqb_eq. lia.
    - exists H. rewrite (ring_full_wrap _ k) by (done || lia). split_and!; try done; try lia.
      apply eq_true_iff_eq. rewrite N.leb_le, N.eqb_eq. lia. }
  rewrite Hfull. destruct (N.eqb_spec n (bq_capacity b)) as [Hn|Hn]; simpl.
  - specialize (HC ltac:(lia)). subst H'. split.
    { exists k, C, C, Q. split; simpl; rewrite ?Hb; try done; [by destruct Hs|fold n; lia..]. }
    rewrite Ht, Hp', (sz_capacity _ _ Hs), wsub64_wrap by lia.
    replace (C + n - C) with n by lia. by rewrite <-Hcap, <-Hn.
  - split; [|done]. exists k, C, H', Q.
    assert (n < 2 ^ k) as Hlt by lia. specialize (HC' ltac:(lia)).
    split; simpl; rewrite ?length_app, ?Hb; simpl; try done; try (fold n; lia).
    + destruct Hs. split; simpl; try done. by rewrite length_insert.
    + unfold set_slot. rewrite Ht, (slot_of_wrap _ k) by done. apply holds_snoc.
      * apply (holds_put sh k C (bq_items b) (Some v)); [done|done|lia].
      * simpl. apply list_lookup_insert_eq. by apply slot_at_lt.
    + rewrite Ht, wrap64_add. f_equal. fold n. lia.
Qed.

Lemma try_pop_simulates st b :
  simulates st b →
  simulates (ring_call st CallPop).1 (queue_call b CallPop).1 ∧
  (ring_call st CallPop).2 = (queue_call b CallPop).2.
Proof.
  intros (k & C & H & Q & Hq). destruct st as [[sh p] co].
  pose proof Hq as [Hs Hcap Hcl Hh Ht Hhd Hch Hct Hca Hro]. simpl in *.
  pose proof (pow2_63 k (sz_log _ _ Hs)). unfold try_pop.
  set (co' := if sh_head sh =? cached_tail co then MkConsumer (sh_tail sh) else co).
  assert (∃ Q', cached_tail co' = wrap64 Q' ∧ C ≤ Q' ∧ Q' ≤ C + N.of_nat (length (bq_items b)) ∧
    (sh_head sh =? cached_tail co') = bool_decide (bq_items b = [])) as (Q' & Hco & HQ & HQ' & He).
  { assert (∀ x, C ≤ x ≤ C + N.of_nat (length (bq_items b)) →
      (wrap64 C =? wrap64 x) = bool_decide (x = C)) as Hw.
    { intros x Hx. apply eq_true_iff_eq. rewrite N.eqb_eq, bool_decide_eq_true.
      split; [|by intros ->]. intros Hw. apply wrap64_inj; [lia|lia|done]. }
    subst co'. rewrite Hct, Hhd, Hw by lia. case_bool_decide as HQC; simpl.
    - exists (C + N.of_nat (length (bq_items b))). rewrite Ht, Hw by lia. split_and!; [done|lia|lia|].
      apply bool_decide_ext. destruct (bq_items b); simpl; split; intros; try done; lia.
    - exists Q. rewrite Hct, Hw by lia. rewrite bool_decide_false by done.
      split_and!; [done|lia|lia|]. symmetry. apply bool_decide_false. intros Hn.
      rewrite Hn in Hca. simpl in Hca. lia. }
  rewrite He. destruct (bq_items b) as [|v q] eqn:Hb.
  - rewrite bool_decide_true by done. simpl in *. rewrite Hcl. split; [|done].
    exists k, C, H, Q'. split; simpl; rewrite ?Hb; try done; simpl; lia.
  - rewrite bool_decide_false by done. simpl in *.
    pose proof (Hh 0%nat v eq_refl) as Hslot. rewrite N.add_0_r in Hslot.
    rewrite Hhd, (slot_of_wrap _ k), Hslot by done. split; [|done].
    assert (wrap64 C ≠ wrap64 Q') as HCQ.
    { rewrite Hhd, Hco in He. intros Heq. by rewrite Heq, N.eqb_refl in He. }
    exists k, (C + 1), H, Q'. split; simpl; try done; unfold set_slot;
      rewrite ?(slot_of_wrap _ k) by done.
    + destruct Hs. split; simpl; try done. by rewrite length_insert.
    + apply (holds_drop _ _ _ v); [done|lia].
    + rewrite Ht. f_equal. lia.
    + by rewrite wrap64_add.
    + assert (C ≠ Q') by (by intros ->). lia.
    + lia.
Qed.

(** The drain loop takes the next [n] values of the queue. *)
Lemma drain_loop_takes (k C : N) n : ∀ i sh buf q,
  sized sh k → holds sh k (C + i) q → (n ≤ length q)%nat → N.of_nat (length q) ≤ 2 ^ k →
  ∃ sh', drain_loop (wrap64 C) i n sh buf = (sh', Some (buf ++ take n q)) ∧
    sized sh' k ∧ holds sh' k (C + i + N.of_nat n) (drop n q) ∧
    sh_tail sh' = sh_tail sh ∧ sh_head sh' = sh_head sh ∧
    sh_disconnected sh' = sh_disconnected sh.
Proof.
  induction n as [|n IH]; intros i sh buf q Hs Hh Hn Hq; simpl.
  { exists sh. rewrite take_0, app_nil_r, N.add_0_r. done. }
  destruct q as [|v q]; simpl in *; [lia|].
  pose proof (Hh 0%nat v eq_refl) as Hslot. rewrite N.add_0_r in Hslot.
  rewrite wrap64_add, (slot_of_wrap _ k), Hslot by done. simpl.
  edestruct (IH (i + 1)) as (sh' & Hrun & Hs' & Hh' & Ht' & Hhd' & Hd').
  - by apply sized_put.
  - rewrite N.add_assoc. apply (holds_drop _ _ _ v); [done|lia].
  - lia.
  - lia.
  - exists sh'. unfold set_slot. rewrite (slot_of_wrap _ k) by done. rewrite Hrun, <-app_assoc.
    split_and!; try done. by replace (C + i + N.of_nat (S n)) with (C + (i + 1) + N.of_nat n) by lia.
Qed.

Lemma drain_simulates buf max st b :
  simulates st b →
  simulates (ring_call st (CallDrain buf max)).1 (queue_call b (CallDrain buf max)).1 ∧
  (ring_call st (CallDrain buf max)).2 = (queue_call b (CallDrain buf max)).2.
Proof.
  intros (k & C & H & Q & Hq). destruct st as [[sh p] co].
  pose proof Hq as [Hs Hcap Hcl Hh Ht Hhd Hch Hct Hca Hro]. simpl in *.
  pose proof (pow2_63 k (sz_log _ _ Hs)). unfold drain_into. simpl.
  set (n := N.of_nat (length (bq_items b))) in *.
  rewrite Ht, Hhd, wsub64_wrap by lia. replace (C + n - C) with n by lia.
  destruct (drain_loop_takes k C (N.to_nat (N.min n max)) 0 sh buf (bq_items b))
    as (sh' & Hrun & Hs' & Hh' & Ht' & Hhd' & Hd'); [done|by rewrite N.add_0_r|lia|lia|].
  rewrite Hrun. rewrite N.add_0_r, N2Nat.id in Hh'. split.
  - exists k, (C + N.min n max), H, (C + n).
    destruct (N.ltb_spec 0 (N.min n max)) as [Hpos|Hpos]; split; simpl;
      rewrite ?length_drop, ?wrap64_add, ?Ht', ?Hhd', ?Hd'; try done; try (fold n; lia).
    + by destruct Hs'.
    + rewrite Ht. f_equal. fold n. lia.
    + rewrite Ht. f_equal. fold n. lia.
    + rewrite Hhd. f_equal. lia.
  - simpl. by destruct (0 <? N.min n max); simpl; rewrite Hd', Hcl.
Qed.

Lemma len_simulates st b :
  simulates st b →
  simulates (ring_call st CallLen).1 (queue_call b CallLen).1 ∧
  (ring_call st CallLen).2 = (queue_call b CallLen).2.
Proof.
  intros (k & C & H & Q & Hq). destruct st as [[sh p] co].
  pose proof Hq as [Hs Hcap _ _ Ht Hhd _ _ Hca Hro]. simpl in *.
  split; [by exists k, C, H, Q|]. unfold utilization, ring_len.
  pose proof (pow2_63 k (sz_log _ _ Hs)).
  rewrite Ht, Hhd, wsub64_wrap, (sz_capacity _ _ Hs), Hcap by lia.
  replace (C + _ - C) with (N.of_nat (length (bq_items b))) by lia. f_equal.
  apply N.mod_small. apply (N.le_lt_trans _ 100); [|done].
  apply N.Div0.div_le_upper_bound. lia.
Qed.

Lemma call_simulates st b c :
  simulates st b →
  simulates (ring_call st c).1 (queue_call b c).1 ∧ (ring_call st c).2 = (queue_call b c).2.
Proof.
  destruct c as [v| |buf max| |];
    [apply try_push_simulates|apply try_pop_simulates|apply drain_simulates|apply len_simulates|].
  intros (k & C & H & Q & Hq). destruct st as [[sh p] co]. split; [|done].
  exists k, C, H, Q. by destruct Hq as [[] ?????????].
Qed.

Lemma channel_simulates cap st :
  channel cap = Some st →
  ∃ m, next_power_of_two cap = Some m ∧ simulates st (MkBoundedQueue m [] false).
Proof.
  unfold channel. destruct (N.ltb_spec 0 cap) as [Hc|]; [|done].
  destruct (next_power_of_two cap) as [m|] eqn:Hm; [|done]. intros [= <-]. exists m.
  split; [done|]. apply next_power_of_two_spec in Hm as (k & Hk & -> & _); [|done].
  exists k, 0, 0, 0. split; simpl; try done; try lia. split; simpl; try done.
  by rewrite length_replicate.
Qed.

(** C30. Used by one thread at a time the ring is a bounded FIFO queue: over
    any sequence of pushes, pops, drains, length queries and drops, every
    answer, errors and counts included, is the one the queue of the rounded-up
    capacity gives. No call panics. *)
Theorem ring_refines_queue cap st calls :
  channel cap = Some st →
  ∃ m, next_power_of_two cap = Some m ∧
    answers_of ring_call st calls = answers_of queue_call (MkBoundedQueue m [] false) calls.
Proof.
  intros (m & Hm & Hsim)%channel_simulates. exists m. split; [done|].
  revert st Hsim. generalize (@MkBoundedQueue T m [] false) as b.
  induction calls as [|c calls IH]; intros b st Hsim; [done|].
  simpl. destruct (call_simulates st b c Hsim) as [Hsim' Ha].
  destruct (ring_call st c) as [st' a], (queue_call b c) as [b' a']. simpl in *. subst a'.
  f_equal. by apply IH.
Qed.
End spec.

(** ** Solo runs *)

#[local] Arguments may_see : simpl never.
#[local] Arguments may_see_disc : simpl never.
#[local] Arguments ring_full : simpl never.

Section solo.
Context {T : Type}.
Implicit Types (r : Ring T).

Lemma may_see_fresh last now : now < 2 ^ 64 → may_see last now now = true.
Proof. intros. apply andb_true_iff. split; [by apply N.ltb_lt|by apply N.leb_le]. Qed.

Lemma implb_refl b : may_see_disc b b = true.
Proof. by destruct b. Qed.

(** One producer step on its own, by the access it makes. *)
Lemma solo_load_tail (sh : Shared T) p c v pc es seen :
  prod_step seen (MkRing sh p c (PLoadTail v) pc es) =
  MkRing sh p c
    (if ring_full sh (sh_tail sh) (cached_head p) then PLoadHead v (sh_tail sh)
     else PWriteSlot v (sh_tail sh)) pc es.
Proof. unfold prod_step. simpl. by case_match. Qed.

Lemma solo_load_head (sh : Shared T) p c v tail pc es :
  sh_head sh < 2 ^ 64 →
  prod_step (sh_head sh) (MkRing sh p c (PLoadHead v tail) pc es) =
  MkRing sh (MkProducer (sh_head sh)) c
    (if ring_full sh tail (sh_head sh) then PCountFull tail else PWriteSlot v tail) pc es.
Proof. intros. unfold prod_step. simpl. rewrite may_see_fresh by done. by case_match. Qed.

(** A push is wait-free: run on its own, its loads returning the newest
    values, it returns after at most six accesses of shared memory, with the
    answer and the memory of the one-go [try_push]. *)
Theorem push_wait_free r v sh p res :
  rg_ppc r = PIdle → sh_head (rg_sh r) < 2 ^ 64 →
  try_push v (rg_sh r) (rg_prod r) = (sh, p, res) →
  ring_run (Push v (sh_disconnected (rg_sh r)) :: replicate 5 (PStep (sh_head (rg_sh r)))) r =
  MkRing sh p (rg_cons r) PIdle (rg_cpc r)
    (rg_events r ++ (if is_ok res then [Published v] else []) ++ [Pushed res]).
Proof.
  intros Hpc Hhd. destruct r as [sh0 p0 c ppc cpc es]. simpl in *. subst ppc.
  unfold try_push, ring_run. cbn [replicate foldl ring_step]. simpl. rewrite implb_refl.
  destruct (sh_disconnected sh0) eqn:Hd; [by intros [= <- <- <-]|].
  change (upd rg_ppc _ _) with (MkRing sh0 p0 c (PLoadTail v) cpc es). rewrite solo_load_tail.
  destruct (ring_full sh0 (sh_tail sh0) (cached_head p0)) eqn:Hfull.
  - rewrite solo_load_head by done. cbn [cached_head].
    destruct (ring_full sh0 (sh_tail sh0) (sh_head sh0)); intros [= <- <- <-]; [done|].
    simpl is_ok. cbn iota. by rewrite app_assoc.
  - rewrite Hfull. intros [= <- <- <-]. simpl is_ok. cbn iota. by rewrite app_assoc.
Qed.
End solo.

(** ** A disconnect reported early *)

(** A drain and a pop load the tail before the disconnect flag, so a
    producer that publishes and drops between the two loads makes them report
    the disconnect while a published value still waits in the ring; only a
    later call delivers it. Every load in this run returns the newest value. *)
Theorem disconnect_before_last_value {T} (v : T) :
  ∃ r0, ring_start 4 = Some r0 ∧
    let publish_and_drop := [Push v false; PStep 0; PStep 0; PStep 0; PStep 0; PDrop] in
    let drained := ring_run ([Drain 16; CStep 0 false] ++ publish_and_drop ++ [CStep 1 true]) r0 in
    let popped := ring_run ([Pop; CStep 0 false] ++ publish_and_drop ++ [CStep 1 true]) r0 in
    published drained = [v] ∧ returned drained = [] ∧
    last (rg_events drained) = Some (Drained [] true) ∧
    published popped = [v] ∧ returned popped = [] ∧
    last (rg_events popped) = Some (Popped (Err (Disconnected ProducerSide))).
Proof. eexists. split; [reflexivity|]. by vm_compute. Qed.
