(* ===== verification/BridgeFlow.v ===== *)
(** * Flow control of the bridge

    [nodedb-bridge/src/wfq.rs] (the weighted-fair queue that orders requests
    of different databases), [backpressure.rs] (the three-state controller a
    ring's writer consults) and the control-plane send of [async_bridge.rs]
    that puts a push and the controller together. *)

From stdpp Require Import base option gmap fin_maps list.
From S2P Require Import Prelude BridgeRing.

Open Scope N_scope.

(** ** The weighted-fair queue ([wfq.rs]) *)

(** [nodedb_types::PriorityClass]; [Standard] is its default. *)
Inductive PriorityClass : Type := Critical | Standard | Bulk.

Definition priority_weight (cls : PriorityClass) : u32 :=
  match cls with Critical => 4 | Standard => 2 | Bulk => 1 end.

Record VirtualQueue (T : Type) : Type := MkVirtualQueue {
  vq_items : list T;
  vq_deficit : u32;
}.
Arguments MkVirtualQueue {T}.
Arguments vq_items {T}.
Arguments vq_deficit {T}.

#[export] Instance eta_VirtualQueue T : Eta (VirtualQueue T) := λ r,
  MkVirtualQueue (vq_items r) (vq_deficit r).

Record WeightedFairQueue (T : Type) : Type := MkWfq {
  wq_queues : gmap u64 (VirtualQueue T);
  wq_db_order : list u64;
  wq_total : usize;
  wq_capacity : usize;
  wq_priorities : gmap u64 PriorityClass;
  wq_touched_since_reap : gset u64;
  wq_pops_since_reap : usize;
  wq_reap_after_pops : usize;
}.
Arguments MkWfq {T}.
Arguments wq_queues {T}.
Arguments wq_db_order {T}.
Arguments wq_total {T}.
Arguments wq_capacity {T}.
Arguments wq_priorities {T}.
Arguments wq_touched_since_reap {T}.
Arguments wq_pops_since_reap {T}.
Arguments wq_reap_after_pops {T}.

#[export] Instance eta_Wfq T : Eta (WeightedFairQueue T) := λ r,
  MkWfq (wq_queues r) (wq_db_order r) (wq_total r) (wq_capacity r) (wq_priorities r)
    (wq_touched_since_reap r) (wq_pops_since_reap r) (wq_reap_after_pops r).

Section wfq.
Context {T : Type}.
Implicit Types (w : WeightedFairQueue T).

Definition wfq_new (capacity reap_after_pops : usize) : WeightedFairQueue T :=
  MkWfq ∅ [] 0 capacity ∅ ∅ 0 reap_after_pops.

(** [Err item] hands the item back. *)
Definition try_enqueue (database_id : u64) (item : T) w :
    WeightedFairQueue T * result T unit :=
  if wq_capacity w <=? wq_total w then (w, Err item)
  else
    let w :=
      match wq_queues w !! database_id with
      | Some _ => w
      | None => w {{ wq_queues ::= <[database_id := MkVirtualQueue [] 0]>;
                     wq_db_order ::= λ o, o ++ [database_id] }}
      end in
    (w {{ wq_queues ::= alter (λ vq, vq {{ vq_items ::= λ l, l ++ [item] }}) database_id;
          wq_total ::= N.succ }}, Ok tt).

Definition set_priority (database_id : u64) (cls : PriorityClass) w : WeightedFairQueue T :=
  w {{ wq_priorities ::= <[database_id := cls]>;
       wq_touched_since_reap ::= λ s, {[database_id]} ∪ s }}.

(** The databases whose virtual queue holds an item. *)
Definition backlogged (queues : gmap u64 (VirtualQueue T)) (id : u64) : bool :=
  match queues !! id with Some vq => negb (bool_decide (vq_items vq = [])) | None => false end.

(** [reap_empty_queues]: the ids removed from [db_order] are those of the
    empty queues; an id without a queue is left to [pop_next]. *)
Definition reap_empty_queues w : WeightedFairQueue T :=
  let empty_ids := filter (λ kv, vq_items kv.2 = []) (wq_queues w) in
  let w := w {{ wq_queues ::= filter (λ kv, vq_items kv.2 ≠ []);
                wq_db_order ::= filter (λ id, empty_ids !! id = None) }} in
  let touched := wq_touched_since_reap w in
  w {{ wq_touched_since_reap := ∅;
       wq_priorities ::=
         filter (λ kv, kv.1 ∈ touched ∨ is_Some (wq_queues w !! kv.1)) }}.

Definition weight_of w (db_id : u64) : u32 :=
  priority_weight (default Standard (wq_priorities w !! db_id)).

(** [db_order.pop_front(); db_order.push_back(db_id)]. *)
Definition rotate (db_id : u64) w : WeightedFairQueue T :=
  w {{ wq_db_order ::= λ o, tail o ++ [db_id] }}.

(** The count of a successful pop, and the reap it may start. *)
Definition count_pop w : WeightedFairQueue T :=
  let w := w {{ wq_pops_since_reap ::= N.succ }} in
  if wq_reap_after_pops w <=? wq_pops_since_reap w then
    (reap_empty_queues w) {{ wq_pops_since_reap := 0 }}
  else w.

(** One pass of the loop of [pop_next]: [inl] is an early return. *)
Definition pop_pass w : WeightedFairQueue T * (T + unit) :=
  match head (wq_db_order w) with
  | None => (w, inr tt)
  | Some db_id =>
      match wq_queues w !! db_id with
      | None => (w {{ wq_db_order ::= tail }}, inr tt)
      | Some vq =>
          let vq := if vq_deficit vq =? 0 then vq {{ vq_deficit := weight_of w db_id }} else vq in
          match vq_items vq with
          | item :: items =>
              let vq := MkVirtualQueue items (vq_deficit vq - 1) in
              let w := w {{ wq_queues ::= <[db_id := vq]>; wq_total ::= N.pred }} in
              let w := if vq_deficit vq =? 0 then rotate db_id w else w in
              (count_pop w, inl item)
          | [] =>
              (rotate db_id (w {{ wq_queues ::= <[db_id := MkVirtualQueue [] 0]> }}), inr tt)
          end
      end
  end.

(** The loop, [n] passes at most. The [break] on an empty [db_order] is a
    pass that changes nothing. *)
Fixpoint pop_scan (n : nat) w : WeightedFairQueue T * option T :=
  match n with
  | O => (w, None)
  | S n =>
      match pop_pass w with
      | (w, inl item) => (w, Some item)
      | (w, inr _) => pop_scan n w
      end
  end.

Definition pop_next w : WeightedFairQueue T * option T :=
  if wq_total w =? 0 then (w, None) else pop_scan (length (wq_db_order w)) w.

(** [drain]'s loop with fuel; [drain_fuel_enough] shows that [total + 1]
    iterations reach the end. *)
Fixpoint drain_fuel (fuel : nat) (out : list T) w : WeightedFairQueue T * list T :=
  match fuel with
  | O => (w, out)
  | S fuel =>
      match pop_next w with
      | (w, Some item) => drain_fuel fuel (out ++ [item]) w
      | (w, None) => (w, out)
      end
  end.

Definition wfq_drain w : WeightedFairQueue T * list T :=
  drain_fuel (S (N.to_nat (wq_total w))) [] w.

Definition depth_for w (database_id : u64) : usize :=
  match wq_queues w !! database_id with
  | Some vq => N.of_nat (length (vq_items vq))
  | None => 0
  end.

Definition active_database_count w : usize := N.of_nat (size (wq_queues w)).

Definition fair_share_slots w : usize :=
  let active := N.max (N.max (N.of_nat (size (wq_priorities w)))
                             (N.of_nat (size (wq_queues w)))) 1 in
  N.max (wq_capacity w / active) 1.

Definition is_throttled_for w (database_id : u64) : bool :=
  fair_share_slots w * 85 <=? depth_for w database_id * 100.

Definition is_suspended_for w (database_id : u64) : bool :=
  fair_share_slots w * 95 <=? depth_for w database_id * 100.
End wfq.

(** ** The backpressure controller ([backpressure.rs]) *)

Record BackpressureConfig : Type := MkBackpressureConfig {
  throttle_enter : N;
  throttle_exit : N;
  suspend_enter : N;
  suspend_exit : N;
}.

Definition backpressure_config_default : BackpressureConfig := MkBackpressureConfig 85 75 95 85.

Inductive PressureState : Type := Normal | Throttled | Suspended.

#[export] Instance pressure_state_eq_dec : EqDecision PressureState.
Proof. solve_decision. Defined.

(** [state as u8] and [PressureState::from_u8]. *)
Definition pressure_to_u8 (s : PressureState) : N :=
  match s with Normal => 0 | Throttled => 1 | Suspended => 2 end.

Definition pressure_from_u8 (v : N) : PressureState :=
  if v =? 0 then Normal else if v =? 1 then Throttled else Suspended.

Record BackpressureController : Type := MkController {
  bc_config : BackpressureConfig;
  bc_state : N;
  bc_throttle_count : u64;
  bc_suspend_count : u64;
}.

#[export] Instance eta_BackpressureController : Eta BackpressureController := λ r,
  MkController (bc_config r) (bc_state r) (bc_throttle_count r) (bc_suspend_count r).

Definition controller_new (config : BackpressureConfig) : BackpressureController :=
  MkController config (pressure_to_u8 Normal) 0 0.

Definition controller_default : BackpressureController :=
  controller_new backpressure_config_default.

Definition controller_state (b : BackpressureController) : PressureState :=
  pressure_from_u8 (bc_state b).

(** The transition [update] takes; [None] is its early return. *)
Definition next_pressure (c : BackpressureConfig) (current : PressureState) (util : N) :
    option PressureState :=
  match current with
  | Normal =>
      if suspend_enter c <=? util then Some Suspended
      else if throttle_enter c <=? util then Some Throttled
      else None
  | Throttled =>
      if suspend_enter c <=? util then Some Suspended
      else if util <? throttle_exit c then Some Normal
      else None
  | Suspended =>
      if util <? suspend_exit c then
        if util <? throttle_exit c then Some Normal else Some Throttled
      else None
  end.

Definition bp_update (utilization_percent : N) (b : BackpressureController) :
    BackpressureController * option PressureState :=
  match next_pressure (bc_config b) (controller_state b) utilization_percent with
  | None => (b, None)
  | Some new_state =>
      let b := b {{ bc_state := pressure_to_u8 new_state }} in
      let b :=
        match new_state with
        | Throttled => b {{ bc_throttle_count ::= λ n, wrap64 (n + 1) }}
        | Suspended => b {{ bc_suspend_count ::= λ n, wrap64 (n + 1) }}
        | Normal => b
        end in
      (b, Some new_state)
  end.

Definition should_throttle (b : BackpressureController) : bool :=
  match controller_state b with Throttled | Suspended => true | Normal => false end.

Definition should_suspend (b : BackpressureController) : bool :=
  bool_decide (controller_state b = Suspended).

(** [ControlHandle::try_send_request]: push, then update the controller from
    the new utilization. The returned flag says whether the consumer's
    eventfd is signalled. *)
Definition try_send_request {T} (req : T) (sh : Shared T) (p : Producer)
    (b : BackpressureController) :
    Shared T * Producer * BackpressureController * bool * result BridgeError unit :=
  let '(sh, p, r) := try_push req sh p in
  let b := (bp_update (utilization sh) b).1 in
  (sh, p, b, is_ok r, r).
