(* ===== verification/BridgeFlowFacts.v ===== *)
(** * Correctness of the bridge's flow control

    The weighted-fair queue keeps its books, serves each database in order,
    never idles with work queued and starves nobody; the backpressure
    controller follows its thresholds with hysteresis. *)

From stdpp Require Import base option gmap fin_maps list.
From S2P Require Import Prelude BridgeRing BridgeFlow.

Open Scope N_scope.

(** ** Sums over lists *)

Lemma sum_list_with_ext {A} (f g : A → nat) l :
  (∀ x, x ∈ l → f x = g x) → sum_list_with f l = sum_list_with g l.
Proof.
  induction l as [|x l IH]; intros Hfg; [done|]. simpl. rewrite IH, (Hfg x); [done|left|].
  intros y Hy. apply Hfg. by right.
Qed.

Lemma sum_list_with_filter_le {A} (P : A → Prop) `{∀ x, Decision (P x)} (f : A → nat) l :
  (sum_list_with f (filter P l) ≤ sum_list_with f l)%nat.
Proof.
  induction l as [|x l IH]; [done|]. rewrite filter_cons. case_decide; simpl; lia.
Qed.

Lemma sum_list_with_filter_zero {A} (P : A → Prop) `{∀ x, Decision (P x)} (f : A → nat) l :
  (∀ x, x ∈ l → ¬ P x → f x = 0%nat) → sum_list_with f (filter P l) = sum_list_with f l.
Proof.
  induction l as [|x l IH]; intros Hz; [done|]. rewrite filter_cons.
  assert (sum_list_with f (filter P l) = sum_list_with f l) as HIH
    by (apply IH; intros y ?; apply Hz; by right).
  case_decide; simpl; [by rewrite HIH|]. rewrite (Hz x) by (left || done). done.
Qed.

Lemma list_filter_ext_in {A} (P Q : A → Prop) `{∀ x, Decision (P x), ∀ x, Decision (Q x)}
    (l : list A) :
  (∀ x, x ∈ l → P x ↔ Q x) → filter P l = filter Q l.
Proof.
  induction l as [|x l IH]; intros HPQ; [done|]. rewrite !filter_cons.
  rewrite (IH ltac:(intros y ?; apply HPQ; by right)).
  destruct (decide (P x)) as [HP|HP], (decide (Q x)) as [HQ|HQ]; try done;
    exfalso; apply HP || apply HQ; by apply (HPQ x); [left|].
Qed.

Lemma elem_of_take_in {A} (x : A) n l : x ∈ take n l → x ∈ l.
Proof. intros Hx. rewrite <-(take_drop n l). apply elem_of_app. by left. Qed.

(** ** The queue's invariant *)

Section facts.
Context {T : Type}.
Implicit Types (w : WeightedFairQueue T).

Definition items_of w (id : u64) : list T :=
  match wq_queues w !! id with Some vq => vq_items vq | None => [] end.

Definition deficit_of w (id : u64) : u32 :=
  match wq_queues w !! id with Some vq => vq_deficit vq | None => 0 end.

(** [db_order] lists the virtual queues, each once, and the books add up. *)
Record wfq_ok w : Prop := MkWfqOk {
  wo_order : NoDup (wq_db_order w);
  wo_dom : ∀ id, id ∈ wq_db_order w ↔ is_Some (wq_queues w !! id);
  wo_total : wq_total w = N.of_nat (sum_list_with (λ id, length (items_of w id)) (wq_db_order w));
  wo_capacity : wq_total w ≤ wq_capacity w;
  wo_deficit : ∀ id, deficit_of w id ≤ 4;
}.

Lemma wfq_new_ok capacity reap : wfq_ok (wfq_new capacity reap).
Proof.
  split; simpl; [apply NoDup_nil_2| |done|lia|done].
  intros id. rewrite lookup_empty. split; [by intros ?%not_elem_of_nil|by intros [? ?]].
Qed.

Lemma set_priority_ok id cls w : wfq_ok w → wfq_ok (set_priority id cls w).
Proof. by intros []. Qed.

Lemma try_enqueue_items id item w w' :
  try_enqueue id item w = (w', Ok tt) →
  items_of w' id = items_of w id ++ [item] ∧ (∀ j, j ≠ id → items_of w' j = items_of w j) ∧
  (∀ j, deficit_of w' j = deficit_of w j) ∧ wq_total w' = wq_total w + 1 ∧
  (wq_db_order w' = wq_db_order w ∧ is_Some (wq_queues w !! id) ∨
   wq_db_order w' = wq_db_order w ++ [id] ∧ wq_queues w !! id = None) ∧
  (∀ j, is_Some (wq_queues w' !! j) ↔ is_Some (wq_queues w !! j) ∨ j = id).
Proof.
  unfold try_enqueue. case_match; [done|]. intros [= <-].
  unfold items_of, deficit_of.
  destruct (wq_queues w !! id) as [vq|] eqn:Hid; simpl.
  - rewrite lookup_alter_eq, Hid. simpl. split_and!; try done; try lia; [| |by left|].
    + intros j Hj. by rewrite lookup_alter_ne.
    + intros j. destruct (decide (j = id)) as [->|Hj]; [by rewrite lookup_alter_eq, Hid|].
      by rewrite lookup_alter_ne.
    + intros j. destruct (decide (j = id)) as [->|Hj]; [rewrite lookup_alter_eq, Hid; naive_solver|].
      rewrite lookup_alter_ne by done. naive_solver.
  - rewrite lookup_alter_eq, lookup_insert_eq. simpl. split_and!; try done; try lia; [| |by right|].
    + intros j Hj. by rewrite lookup_alter_ne, lookup_insert_ne.
    + intros j. destruct (decide (j = id)) as [->|Hj];
        [by rewrite lookup_alter_eq, lookup_insert_eq, Hid|].
      by rewrite lookup_alter_ne, lookup_insert_ne.
    + intros j. destruct (decide (j = id)) as [->|Hj];
        [rewrite lookup_alter_eq, lookup_insert_eq, Hid; naive_solver|].
      rewrite lookup_alter_ne, lookup_insert_ne by done. naive_solver.
Qed.

(** Changing one summand of a list without repetitions. *)
Lemma sum_list_with_update (f g : u64 → nat) l id n :
  NoDup l → id ∈ l → g id = (f id + n)%nat → (∀ j, j ≠ id → g j = f j) →
  sum_list_with g l = (sum_list_with f l + n)%nat.
Proof.
  intros Hnd Hin Hid Hj. induction Hnd as [|x l Hx Hnd IH]; [by apply not_elem_of_nil in Hin|].
  simpl. apply elem_of_cons in Hin as [->|Hin].
  - rewrite Hid, (sum_list_with_ext g f l); [lia|]. intros j Hjl. apply Hj. by intros ->.
  - rewrite IH, Hj by (done || by intros ->). lia.
Qed.

Lemma try_enqueue_ok id item w : wfq_ok w → wfq_ok (try_enqueue id item w).1.
Proof.
  intros Hok. destruct (try_enqueue id item w) as [w' [[]|e]] eqn:He; simpl.
  - assert (wq_capacity w' = wq_capacity w ∧ wq_total w < wq_capacity w) as [Hcap Hlt].
    { revert He. unfold try_enqueue. destruct (N.leb_spec (wq_capacity w) (wq_total w)); [done|].
      intros [= <-]. split; [|done]. simpl. by case_match. }
    apply try_enqueue_items in He as (Hid & Hj & Hd & Ht & Hord & Hdom).
    destruct Hok as [Hnd Hdo Hto Hca Hde].
    assert (NoDup (wq_db_order w') ∧ ∀ j, j ∈ wq_db_order w' ↔ j ∈ wq_db_order w ∨ j = id)
      as [Hnd' Hel].
    { destruct Hord as [[-> His]|[-> Hno]].
      - split; [done|]. intros j. rewrite Hdo. naive_solver.
      - split; [|intros j; rewrite elem_of_app, list_elem_of_singleton; done].
        apply NoDup_app. split_and!; [done| |by apply NoDup_singleton].
        intros j Hjl ->%list_elem_of_singleton. apply Hdo in Hjl. rewrite Hno in Hjl. by destruct Hjl. }
    split; [done| | |lia|by intros j; rewrite Hd].
    + intros j. rewrite Hel, Hdom, Hdo. done.
    + rewrite Ht, Hto.
      assert (sum_list_with (λ j, length (items_of w j)) (wq_db_order w') =
        sum_list_with (λ j, length (items_of w j)) (wq_db_order w)) as Heq.
      { destruct Hord as [[-> _]|[-> Hno]]; [done|]. rewrite sum_list_with_app. simpl.
        unfold items_of at 2. rewrite Hno. simpl. lia. }
      rewrite (sum_list_with_update (λ j, length (items_of w j))
        (λ j, length (items_of w' j)) (wq_db_order w') id 1).
      * rewrite Heq. lia.
      * done.
      * apply Hel. by right.
      * by rewrite Hid, length_app.
      * intros j ?. by rewrite Hj.
  - revert He. unfold try_enqueue. case_match; [|done]. by intros [= <- <-].
Qed.

(** ** Serving *)

(** What a pass may spend on [id] before it rotates away. *)
Definition budget w (id : u64) : nat :=
  if deficit_of w id =? 0 then 4 else N.to_nat (deficit_of w id).

(** The databases served before [d], and the pops they may take. *)
Fixpoint ahead (d : u64) (order : list u64) : list u64 :=
  match order with
  | [] => []
  | x :: order => if x =? d then [] else x :: ahead d order
  end.

Definition wait w (d : u64) : nat := sum_list_with (budget w) (ahead d (wq_db_order w)).

Lemma ahead_cons_ne d x o : x ≠ d → ahead d (x :: o) = x :: ahead d o.
Proof. intros Hx. simpl. by rewrite (proj2 (N.eqb_neq _ _) Hx). Qed.

Lemma ahead_app d o o' : d ∈ o → ahead d (o ++ o') = ahead d o.
Proof.
  induction o as [|x o IH]; intros Hd; [by apply not_elem_of_nil in Hd|]. simpl.
  destruct (N.eqb_spec x d); [done|]. f_equal. apply IH.
  apply elem_of_cons in Hd as [->|]; done.
Qed.

Lemma ahead_sub d o x : x ∈ ahead d o → x ∈ o ∧ x ≠ d.
Proof.
  induction o as [|y o IH]; simpl; [by intros ?%not_elem_of_nil|].
  destruct (N.eqb_spec y d); [by intros ?%not_elem_of_nil|].
  rewrite !elem_of_cons. naive_solver.
Qed.

Lemma ahead_filter (P : u64 → Prop) `{∀ x, Decision (P x)} d o :
  P d → ahead d (filter P o) = filter P (ahead d o).
Proof.
  intros HP. induction o as [|x o IH]; [done|]. rewrite filter_cons. simpl.
  destruct (N.eqb_spec x d) as [->|Hx].
  - rewrite decide_True by done. simpl. by rewrite N.eqb_refl.
  - rewrite filter_cons. case_decide; [|done]. rewrite ahead_cons_ne by done. by rewrite IH.
Qed.

Lemma wait_bound w d : wfq_ok w → (wait w d ≤ 4 * length (ahead d (wq_db_order w)))%nat.
Proof.
  intros Hok. unfold wait. induction (ahead d _) as [|x l IH]; [done|]. simpl.
  assert (budget w x ≤ 4)%nat; [|lia]. unfold budget. case_match; [done|].
  pose proof (wo_deficit w Hok x). lia.
Qed.

(** [w'] is [w] after a pop that took [x] from [id]. *)
Record served w w' (id : u64) (x : T) : Prop := MkServed {
  sv_item : items_of w id = x :: items_of w' id;
  sv_others : ∀ j, j ≠ id → items_of w' j = items_of w j;
  sv_total : wq_total w' = wq_total w - 1;
  sv_capacity : wq_capacity w' = wq_capacity w;
}.

Lemma backlogged_queued w d : items_of w d ≠ [] → is_Some (wq_queues w !! d).
Proof. unfold items_of. destruct (wq_queues w !! d); [by eauto|done]. Qed.

(** Reaping drops empty virtual queues only. *)
Lemma reap_lookup w id :
  wq_queues (reap_empty_queues w) !! id =
  if decide (items_of w id = []) then None else wq_queues w !! id.
Proof.
  unfold reap_empty_queues, items_of. simpl. rewrite map_lookup_filter.
  destruct (wq_queues w !! id) as [vq|] eqn:Hid; simpl; [|done].
  destruct (decide (vq_items vq = [])) as [He|He]; simpl.
  - by rewrite option_guard_False by naive_solver.
  - by rewrite option_guard_True.
Qed.

Lemma reap_items w id : items_of (reap_empty_queues w) id = items_of w id.
Proof.
  unfold items_of at 1. rewrite reap_lookup. case_decide as He; [done|].
  unfold items_of in *. done.
Qed.

Lemma reap_order w :
  wfq_ok w →
  wq_db_order (reap_empty_queues w) = filter (λ id, items_of w id ≠ []) (wq_db_order w).
Proof.
  intros Hok. unfold reap_empty_queues. simpl. apply list_filter_ext_in. intros id Hid.
  apply (wo_dom w Hok) in Hid as [vq Hvq]. rewrite map_lookup_filter_None. unfold items_of.
  rewrite Hvq. simpl. naive_solver.
Qed.

Lemma reap_ok w : wfq_ok w → wfq_ok (reap_empty_queues w).
Proof.
  intros Hok. pose proof Hok as [Hnd Hdo Hto Hca Hde]. split.
  - rewrite reap_order by done. by apply NoDup_filter.
  - intros id. rewrite reap_order, reap_lookup, list_elem_of_filter, Hdo by done.
    destruct (decide (items_of w id = [])); [|naive_solver].
    split; [naive_solver|by intros [? ?]].
  - change (wq_total (reap_empty_queues w)) with (wq_total w). rewrite Hto, reap_order by done.
    f_equal. symmetry. rewrite (sum_list_with_ext _ (λ id, length (items_of w id)))
      by (intros; by rewrite reap_items).
    apply sum_list_with_filter_zero. intros x _ Hx. apply dec_stable in Hx. by rewrite Hx.
  - done.
  - intros id. unfold deficit_of. rewrite reap_lookup. case_decide; [lia|]. apply Hde.
Qed.

Lemma reap_wait w d :
  wfq_ok w → items_of w d ≠ [] → (wait (reap_empty_queues w) d ≤ wait w d)%nat.
Proof.
  intros Hok Hd. unfold wait. rewrite reap_order, ahead_filter by done.
  etrans; [|apply (sum_list_with_filter_le (λ id, items_of w id ≠ []))].
  apply Nat.eq_le_incl, sum_list_with_ext. intros x [Hx _]%list_elem_of_filter.
  unfold budget, deficit_of. by rewrite reap_lookup, decide_False.
Qed.

Lemma rotate_ok w id o : wfq_ok w → wq_db_order w = id :: o → wfq_ok (rotate id w).
Proof.
  intros [Hnd Hdo Hto Hca Hde] Ho. rewrite Ho in Hnd, Hto. apply NoDup_cons in Hnd as [Hid Hnd].
  split; unfold rotate; simpl; rewrite ?Ho; simpl.
  - apply NoDup_app. split_and!; [done| |by apply NoDup_singleton].
    by intros j Hj ->%list_elem_of_singleton.
  - intros j. rewrite <-Hdo, Ho, elem_of_app, list_elem_of_singleton, elem_of_cons. naive_solver.
  - rewrite Hto, sum_list_with_app. simpl. f_equal. unfold items_of. simpl. lia.
  - done.
  - done.
Qed.

(** Writing the queue of one database of the order. *)
Definition put_queue (id : u64) (vq : VirtualQueue T) (total : usize) w : WeightedFairQueue T :=
  w {{ wq_queues ::= <[id := vq]>; wq_total := total }}.

Lemma put_items id vq total w j :
  items_of (put_queue id vq total w) j = if decide (j = id) then vq_items vq else items_of w j.
Proof.
  unfold items_of. simpl. case_decide as Hj; [by subst; rewrite lookup_insert_eq|].
  by rewrite lookup_insert_ne.
Qed.

Lemma put_deficit id vq total w j :
  deficit_of (put_queue id vq total w) j =
  if decide (j = id) then vq_deficit vq else deficit_of w j.
Proof.
  unfold deficit_of. simpl. case_decide as Hj; [by subst; rewrite lookup_insert_eq|].
  by rewrite lookup_insert_ne.
Qed.

Lemma put_ok id vq total n w :
  wfq_ok w → id ∈ wq_db_order w → vq_deficit vq ≤ 4 →
  length (items_of w id) = (length (vq_items vq) + n)%nat → total = wq_total w - N.of_nat n →
  wfq_ok (put_queue id vq total w).
Proof.
  intros [Hnd Hdo Hto Hca Hde] Hid Hdef Hlen ->. split; simpl.
  - done.
  - intros j. rewrite Hdo, lookup_insert_is_Some. apply Hdo in Hid.
    destruct (decide (id = j)); naive_solver.
  - pose proof (sum_list_with_update (λ j, length (items_of (put_queue id vq 0 w) j))
      (λ j, length (items_of w j)) (wq_db_order w) id n) as Hsum.
    rewrite Hto, Hsum.
    + rewrite Nat2N.inj_add, N.add_sub. done.
    + done.
    + done.
    + by rewrite put_items, decide_True.
    + intros j Hj. by rewrite put_items, decide_False.
  - lia.
  - intros j. rewrite put_deficit. case_decide; [done|apply Hde].
Qed.

(** A pass over an empty queue rotates past it. *)
Lemma pop_pass_skip w id o :
  wfq_ok w → wq_db_order w = id :: o → items_of w id = [] →
  ∃ w', pop_pass w = (w', inr tt) ∧ wfq_ok w' ∧ wq_db_order w' = o ++ [id] ∧
    (∀ j, items_of w' j = items_of w j) ∧ wq_total w' = wq_total w ∧
    wq_capacity w' = wq_capacity w ∧ (∀ j, j ≠ id → deficit_of w' j = deficit_of w j).
Proof.
  intros Hok Ho He. assert (id ∈ wq_db_order w) as Hin by (rewrite Ho; left).
  unfold pop_pass. rewrite Ho. simpl.
  pose proof (proj1 (wo_dom w Hok id) Hin) as [vq Hvq]. rewrite Hvq.
  assert (vq_items vq = []) as Hvi by (revert He; unfold items_of; by rewrite Hvq).
  assert (vq_items (if vq_deficit vq =? 0 then vq {{ vq_deficit := weight_of w id }} else vq) = [])
    as -> by by case_match.
  set (w1 := put_queue id (MkVirtualQueue [] 0) (wq_total w) w).
  exists (rotate id w1). split; [done|]. assert (wfq_ok w1) as Hok1.
  { apply (put_ok id _ _ 0); [done|done|done|by rewrite He|simpl; lia]. }
  split; [by eapply rotate_ok|]. split; [unfold rotate; simpl; by rewrite Ho|].
  split_and!; try done.
  - intros j. change (items_of (rotate id w1) j) with (items_of w1 j). subst w1.
    rewrite put_items. case_decide; [by subst|done].
  - intros j Hj. change (deficit_of (rotate id w1) j) with (deficit_of w1 j). subst w1.
    by rewrite put_deficit, decide_False.
Qed.

Lemma priority_weight_bounds cls : 1 ≤ priority_weight cls ≤ 4.
Proof. by destruct cls. Qed.

(** The state a serving pass leaves before it counts the pop. *)
Definition serve_front (id : u64) (items : list T) w : WeightedFairQueue T :=
  let deficit := (if deficit_of w id =? 0 then weight_of w id else deficit_of w id) - 1 in
  let w := put_queue id (MkVirtualQueue items deficit) (N.pred (wq_total w)) w in
  if deficit =? 0 then rotate id w else w.

Lemma serve_front_ok w id o x items :
  wfq_ok w → wq_db_order w = id :: o → items_of w id = x :: items →
  wfq_ok (serve_front id items w) ∧ served w (serve_front id items w) id x ∧
  (∀ d, d ≠ id → items_of w d ≠ [] → (wait (serve_front id items w) d < wait w d)%nat).
Proof.
  intros Hok Ho Hx. assert (id ∈ wq_db_order w) as Hin by (rewrite Ho; left).
  unfold serve_front.
  set (deficit := (if deficit_of w id =? 0 then weight_of w id else deficit_of w id) - 1).
  assert (N.of_nat (budget w id) ≤ 4 ∧ deficit < N.of_nat (budget w id)) as [Hb4 Hb].
  { unfold budget, deficit. pose proof (wo_deficit w Hok id).
    pose proof (priority_weight_bounds (default Standard (wq_priorities w !! id))).
    fold (weight_of w id) in *. destruct (N.eqb_spec (deficit_of w id) 0); lia. }
  set (w1 := put_queue id (MkVirtualQueue items deficit) (N.pred (wq_total w)) w).
  assert (wfq_ok w1) as Hok1.
  { apply (put_ok id _ _ 1); [done|done|simpl; lia|rewrite Hx; simpl; lia|lia]. }
  assert (served w w1 id x) as Hsv.
  { split; [|intros j Hj|simpl; lia|done]; subst w1; rewrite put_items.
    - by rewrite Hx, decide_True.
    - by rewrite decide_False. }
  assert (∀ d, d ≠ id → items_of w d ≠ [] → d ∈ o) as Hd_o.
  { intros d Hd Hne. apply backlogged_queued in Hne. apply (wo_dom w Hok) in Hne.
    rewrite Ho in Hne. by apply elem_of_cons in Hne as [->|]. }
  assert (∀ d, sum_list_with (budget w1) (ahead d o) = sum_list_with (budget w) (ahead d o)) as Hsame.
  { intros d. apply sum_list_with_ext. intros y [Hy _]%ahead_sub. unfold budget. subst w1.
    rewrite put_deficit, decide_False; [done|]. intros ->.
    pose proof (wo_order w Hok) as Hnd. rewrite Ho in Hnd. by apply NoDup_cons in Hnd as [? _]. }
  destruct (N.eqb_spec deficit 0) as [Hz|Hz].
  - split; [by eapply rotate_ok|]. split; [by destruct Hsv|]. intros d Hd Hne. unfold wait.
    change (wq_db_order (rotate id w1)) with (tail (wq_db_order w) ++ [id]). rewrite Ho. simpl tail.
    rewrite ahead_app, ahead_cons_ne by (done || by apply Hd_o).
    change (budget (rotate id w1)) with (budget w1). rewrite Hsame. simpl. lia.
  - split_and!; [done..|]. intros d Hd Hne. unfold wait. change (wq_db_order w1) with (wq_db_order w).
    rewrite Ho, ahead_cons_ne by done. simpl. rewrite Hsame.
    assert (budget w1 id = N.to_nat deficit) as ->; [|lia].
    unfold budget. subst w1. rewrite put_deficit, decide_True by done. simpl.
    by rewrite (proj2 (N.eqb_neq _ _) Hz).
Qed.

Lemma pop_pass_serve w id o x items :
  wfq_ok w → wq_db_order w = id :: o → items_of w id = x :: items →
  ∃ w', pop_pass w = (w', inl x) ∧ wfq_ok w' ∧ served w w' id x ∧
    (∀ d, d ≠ id → items_of w d ≠ [] → (wait w' d < wait w d)%nat).
Proof.
  intros Hok Ho Hx. destruct (serve_front_ok w id o x items Hok Ho Hx) as (Hok2 & Hsv & Hwait).
  assert (pop_pass w = (count_pop (serve_front id items w), inl x)) as Hpass.
  { unfold pop_pass, serve_front, deficit_of. rewrite Ho. simpl.
    revert Hx. unfold items_of. destruct (wq_queues w !! id) as [vq|]; [|done]. intros Hx.
    destruct (vq_deficit vq =? 0); simpl; by rewrite Hx. }
  rewrite Hpass. unfold count_pop. set (w2 := serve_front id items w) in *.
  set (w3 := w2 {{ wq_pops_since_reap ::= N.succ }}).
  assert (wfq_ok w3) as Hok3 by by destruct Hok2.
  case_match.
  - eexists. split; [done|]. pose proof (reap_ok w3 Hok3) as Hokr. split; [by destruct Hokr|].
    split.
    + destruct Hsv as [H1 H2 H3 H4]. split; try done.
      * change (items_of (upd _ _ _) id) with (items_of (reap_empty_queues w3) id).
        by rewrite reap_items.
      * intros j Hj. change (items_of (upd _ _ _) j) with (items_of (reap_empty_queues w3) j).
        rewrite reap_items. by apply H2.
    + intros d Hd Hne. change (wait (upd _ _ _) d) with (wait (reap_empty_queues w3) d).
      eapply Nat.le_lt_trans; [apply reap_wait; [done|]|by apply Hwait].
      change (items_of w3 d) with (items_of w2 d). by rewrite (sv_others _ _ _ _ Hsv).
  - exists w3. split; [done|]. split; [done|]. split; [by destruct Hsv|done].
Qed.

(** The scan finds a backlogged database among the first [n] of the order. *)
Lemma pop_scan_serves n : ∀ w d,
  wfq_ok w → d ∈ take n (wq_db_order w) → items_of w d ≠ [] →
  ∃ w' id x, pop_scan n w = (w', Some x) ∧ wfq_ok w' ∧ served w w' id x ∧
    (id = d ∨ id ≠ d ∧ (wait w' d < wait w d)%nat).
Proof.
  induction n as [|n IH]; intros w d Hok Hd Hne; [by apply not_elem_of_nil in Hd|].
  destruct (wq_db_order w) as [|id o] eqn:Ho; [by apply not_elem_of_nil in Hd|].
  cbn [pop_scan]. destruct (items_of w id) as [|x items] eqn:Hx.
  - destruct (pop_pass_skip w id o Hok Ho Hx) as (w1 & -> & Hok1 & Ho1 & Hi1 & Ht1 & Hc1 & Hd1).
    simpl in Hd. apply elem_of_cons in Hd as [->|Hd]; [done|].
    assert (d ≠ id) as Hdi by by intros ->.
    destruct (IH w1 d Hok1) as (w' & id' & x & Hp & Hok' & [S1 S2 S3 S4] & Hcase).
    { rewrite Ho1, take_app. by apply elem_of_app; left. }
    { by rewrite Hi1. }
    exists w', id', x. split_and!; [done|done| |].
    + split; [by rewrite <-Hi1|intros j Hj; rewrite <-Hi1; by apply S2|by rewrite <-Ht1|by rewrite <-Hc1].
    + destruct Hcase as [?|[Hid Hlt]]; [by left|right]. split; [done|].
      eapply Nat.lt_le_trans; [done|]. unfold wait. rewrite Ho1, Ho.
      pose proof (elem_of_take_in _ _ _ Hd) as Hdo.
      rewrite ahead_app, ahead_cons_ne by done. simpl.
      rewrite (sum_list_with_ext (budget w1) (budget w)); [lia|].
      intros y [Hy _]%ahead_sub. unfold budget. rewrite Hd1; [done|]. intros ->.
      pose proof (wo_order w Hok) as Hnd. rewrite Ho in Hnd. by apply NoDup_cons in Hnd as [? _].
  - destruct (pop_pass_serve w id o x items Hok Ho Hx) as (w' & -> & Hok' & Hsv & Hwait).
    exists w', id, x. split_and!; [done..|].
    destruct (decide (id = d)) as [|Hid]; [by left|right]. split; [done|]. by apply Hwait.
Qed.

Lemma pop_next_serves w d :
  wfq_ok w → items_of w d ≠ [] →
  ∃ w' id x, pop_next w = (w', Some x) ∧ wfq_ok w' ∧ served w w' id x ∧
    (id = d ∨ id ≠ d ∧ (wait w' d < wait w d)%nat).
Proof.
  intros Hok Hne. unfold pop_next.
  assert (d ∈ wq_db_order w) as Hin by by apply (wo_dom w Hok), backlogged_queued.
  destruct (N.eqb_spec (wq_total w) 0) as [Hz|_].
  - rewrite (wo_total w Hok) in Hz. exfalso. apply Hne. apply length_zero_iff_nil.
    pose proof (sum_list_with_in d (λ id, length (items_of w id)) _ Hin). simpl in *. lia.
  - apply pop_scan_serves; [done| |done]. by rewrite take_ge.
Qed.

Lemma pop_next_empty w : wfq_ok w → (∀ d, items_of w d = []) → pop_next w = (w, None).
Proof.
  intros Hok He. unfold pop_next. rewrite (wo_total w Hok).
  rewrite (sum_list_with_ext _ (λ _, 0%nat)) by (intros d _; by rewrite He).
  assert (sum_list_with (λ _ : u64, 0%nat) (wq_db_order w) = 0%nat) as ->; [|done].
  by induction (wq_db_order w).
Qed.

(** Either no database has an item or one does. *)
Lemma backlog_dec w : wfq_ok w → (∀ d, items_of w d = []) ∨ ∃ d, items_of w d ≠ [].
Proof.
  intros Hok. destruct (decide (Exists (λ d, items_of w d ≠ []) (wq_db_order w))) as [He|He].
  - right. apply Exists_exists in He as (d & _ & Hd). by exists d.
  - left. intros d. destruct (decide (items_of w d = [])) as [|Hd]; [done|]. exfalso. apply He.
    apply Exists_exists. exists d. split; [|done]. by apply (wo_dom w Hok), backlogged_queued.
Qed.

(** ** Runs *)

Inductive WfqOp : Type :=
  | WEnqueue (id : u64) (item : T)
  | WSetPriority (id : u64) (cls : PriorityClass)
  | WPop.

Definition wfq_step w (op : WfqOp) : WeightedFairQueue T :=
  match op with
  | WEnqueue id item => (try_enqueue id item w).1
  | WSetPriority id cls => set_priority id cls w
  | WPop => (pop_next w).1
  end.

Definition wfq_run (ops : list WfqOp) w : WeightedFairQueue T := foldl wfq_step w ops.

Definition is_pop (op : WfqOp) : bool := match op with WPop => true | _ => false end.

Lemma wfq_step_ok w op : wfq_ok w → wfq_ok (wfq_step w op).
Proof.
  intros Hok. destruct op as [id item|id cls|]; simpl;
    [by apply try_enqueue_ok|by apply set_priority_ok|].
  destruct (backlog_dec w Hok) as [He|[d Hd]]; [by rewrite pop_next_empty|].
  by destruct (pop_next_serves w d Hok Hd) as (w' & id & x & -> & Hok' & _).
Qed.

Lemma wfq_run_ok ops w : wfq_ok w → wfq_ok (wfq_run ops w).
Proof.
  revert w. induction ops as [|op ops IH]; intros w Hok; [done|]. by apply IH, wfq_step_ok.
Qed.
End facts.
