(* ===== verification/BridgeThms.v ===== *)
(** * Theorems on the bridge's flow control

    Books, order, progress and fairness of the weighted-fair queue, the
    hysteresis of the backpressure controller, and the send that combines a
    push with a pressure update. *)

From stdpp Require Import base option gmap fin_maps list.
From S2P Require Import Prelude BridgeRing BridgeRingFacts BridgeRingSpec BridgeFlow.
From S2P Require Import BridgeFlowFacts.

Open Scope N_scope.

Section wfq.
Context {T : Type}.
Implicit Types (w : WeightedFairQueue T).

(** After any run from a new queue, the total is the number of queued
    items and never exceeds the capacity; an enqueue is refused exactly when
    the queue is full and otherwise adds the item behind its database's own; a
    pop returns nothing exactly when no database has an item, and otherwise
    takes the oldest item of one database and leaves all others as they were. *)
Theorem wfq_behaviour capacity reap ops id item :
  let w := wfq_run ops (wfq_new capacity reap) in
  wq_total w = N.of_nat (sum_list_with (λ d, length (items_of w d)) (wq_db_order w)) ∧
  wq_total w ≤ capacity ∧
  (if wq_total w =? capacity then try_enqueue id item w = (w, Err item)
   else ∃ w', try_enqueue id item w = (w', Ok tt) ∧
     items_of w' id = items_of w id ++ [item] ∧
     ∀ d, d ≠ id → items_of w' d = items_of w d) ∧
  ((∀ d, items_of w d = []) ∧ pop_next w = (w, None) ∨
   ∃ w' d x, pop_next w = (w', Some x) ∧ served w w' d x).
Proof.
  intros w. assert (wfq_ok w) as Hok by apply wfq_run_ok, wfq_new_ok.
  assert (wq_capacity w = capacity) as Hcap.
  { subst w. clear Hok. pose proof (wfq_new_ok (T:=T) capacity reap) as Hok. revert Hok.
    change capacity with (wq_capacity (wfq_new (T:=T) capacity reap)) at 3.
    generalize (wfq_new (T:=T) capacity reap) as w. induction ops as [|op ops IH]; intros w Hok; [done|].
    simpl. rewrite IH by by apply wfq_step_ok. destruct op as [i x|i c|]; simpl; [|done|].
    - unfold try_enqueue. case_match; [done|]. simpl. by case_match.
    - destruct (backlog_dec w Hok) as [He|[d Hd]]; [by rewrite pop_next_empty|].
      by destruct (pop_next_serves w d Hok Hd) as (w' & ? & ? & -> & _ & [] & _). }
  clearbody w. pose proof (wo_capacity w Hok) as Hle. rewrite Hcap in Hle.
  split_and!; [apply Hok|done| |].
  - unfold try_enqueue. rewrite Hcap. destruct (N.eqb_spec (wq_total w) capacity) as [Heq|Heq].
    + by rewrite Heq, N.leb_refl.
    + destruct (try_enqueue id item w) as [w' [[]|e]] eqn:He.
      * exists w'. pose proof (try_enqueue_items _ _ _ _ He) as (Hi & Hj & _).
        unfold try_enqueue in He. rewrite Hcap in He. by rewrite He.
      * exfalso. unfold try_enqueue in He. rewrite Hcap in He.
        rewrite (proj2 (N.leb_gt _ _)) in He by lia. done.
  - destruct (backlog_dec w Hok) as [He|[d Hd]]; [left; by rewrite pop_next_empty|right].
    destruct (pop_next_serves w d Hok Hd) as (w' & i & x & Hp & _ & Hs & _). by exists w', i, x.
Qed.

(** While [d] is backlogged its turn comes nearer with every pop that serves
    another database, and nothing else delays it. *)
Lemma wait_serves ops : ∀ w d x rest,
  wfq_ok w → items_of w d = x :: rest → (wait w d < count is_pop ops)%nat →
  ∃ ops1 ops2 w2, ops = ops1 ++ WPop :: ops2 ∧
    pop_next (wfq_run ops1 w) = (w2, Some x) ∧ served (wfq_run ops1 w) w2 d x.
Proof.
  unfold count. induction ops as [|op ops IH]; intros w d x rest Hok Hx Hlt; [by apply Nat.nlt_0_r in Hlt|].
  assert (items_of w d ≠ []) as Hne by by rewrite Hx.
  assert (d ∈ wq_db_order w) as Hin by by apply (wo_dom w Hok), backlogged_queued.
  assert (∀ rest', wfq_ok (wfq_step w op) → items_of (wfq_step w op) d = x :: rest' →
    (wait (wfq_step w op) d < length (List.filter is_pop ops))%nat →
    ∃ ops1 ops2 w2, op :: ops = ops1 ++ WPop :: ops2 ∧
      pop_next (wfq_run ops1 w) = (w2, Some x) ∧ served (wfq_run ops1 w) w2 d x) as Hnext.
  { intros rest' Hok' Hx' Hlt'. destruct (IH _ _ _ _ Hok' Hx' Hlt') as (o1 & o2 & w2 & -> & H1 & H2).
    by exists (op :: o1), o2, w2. }
  destruct op as [id item|id cls|]; simpl in *.
  - pose proof (try_enqueue_ok id item w Hok) as Hok'.
    destruct (try_enqueue id item w) as [w' [[]|e]] eqn:He; simpl in *.
    + apply try_enqueue_items in He as (Hid & Hj & Hde & _ & Hord & _).
      apply (Hnext (if decide (d = id) then rest ++ [item] else rest)); [done| |].
      * case_decide; [subst; by rewrite Hid, Hx|by rewrite Hj].
      * eapply Nat.le_lt_trans; [|done]. unfold wait.
        assert (ahead d (wq_db_order w') = ahead d (wq_db_order w)) as ->
          by (destruct Hord as [[-> _]|[-> _]]; [done|by apply ahead_app]).
        apply Nat.eq_le_incl, sum_list_with_ext. intros y _. unfold budget. by rewrite Hde.
    + revert He. unfold try_enqueue. case_match; [|done]. intros [= -> ->]. by apply (Hnext rest).
  - apply (Hnext rest); [by apply set_priority_ok|done|done].
  - destruct (pop_next_serves w d Hok Hne) as (w' & id & y & Hp & Hok' & Hs & Hcase).
    rewrite Hp in *. simpl in *. destruct Hcase as [->|[Hid Hw]].
    + exists [], ops, w'. pose proof (sv_item _ _ _ _ Hs) as Hy. rewrite Hx in Hy.
      injection Hy as Hy _. subst y. done.
    + apply (Hnext rest); [done| |lia]. by rewrite (sv_others _ _ _ _ Hs).
Qed.

(** C32. No database starves: an item at the front of database [d]'s queue is
    popped within four pops for each database ahead of [d] in the rotation,
    and one more, whatever is enqueued and however priorities change
    meanwhile. *)
Theorem wfq_no_starvation capacity reap before w d x rest ops :
  w = wfq_run before (wfq_new capacity reap) → items_of w d = x :: rest →
  (4 * length (ahead d (wq_db_order w)) < count is_pop ops)%nat →
  ∃ ops1 ops2 w2, ops = ops1 ++ WPop :: ops2 ∧
    pop_next (wfq_run ops1 w) = (w2, Some x) ∧ served (wfq_run ops1 w) w2 d x.
Proof.
  intros -> Hx Hlt. assert (wfq_ok (wfq_run before (wfq_new capacity reap))) as Hok
    by apply wfq_run_ok, wfq_new_ok.
  eapply wait_serves; [done|done|]. pose proof (wait_bound _ d Hok). lia.
Qed.

(** Draining with fuel for every item ends with nothing queued. *)
Lemma drain_fuel_spec fuel : ∀ w out,
  wfq_ok w → (N.to_nat (wq_total w) < fuel)%nat →
  ∃ w' popped, drain_fuel fuel out w = (w', out ++ popped) ∧ wfq_ok w' ∧
    (∀ d, items_of w' d = []) ∧ (∀ d, items_of w d `sublist_of` popped) ∧
    length popped = N.to_nat (wq_total w).
Proof.
  induction fuel as [|fuel IH]; intros w out Hok Hf; [lia|]. simpl.
  destruct (backlog_dec w Hok) as [He|[d Hd]].
  - rewrite pop_next_empty by done. exists w, []. rewrite app_nil_r. split_and!; try done.
    + intros d. by rewrite He.
    + pose proof (pop_next_empty w Hok He) as Hp. unfold pop_next in Hp.
      destruct (N.eqb_spec (wq_total w) 0) as [->|Hz]; [done|]. exfalso.
      apply Hz. rewrite (wo_total w Hok), (sum_list_with_ext _ (λ _, 0%nat))
        by (intros y _; by rewrite He). clear. by induction (wq_db_order w).
  - destruct (pop_next_serves w d Hok Hd) as (w1 & id & x & -> & Hok1 & [S1 S2 S3 _] & _).
    assert (0 < wq_total w) as Hpos.
    { destruct (N.eq_0_gt_0_cases (wq_total w)) as [Hz|]; [|done]. exfalso.
      pose proof (wo_total w Hok) as Ht. rewrite Hz in Ht.
      assert (id ∈ wq_db_order w) as Hin
        by (apply (wo_dom w Hok), backlogged_queued; by rewrite S1).
      pose proof (sum_list_with_in id (λ j, length (items_of w j)) _ Hin) as Hle.
      cbn beta in Hle. rewrite S1 in Hle. simpl in Hle. lia. }
    destruct (IH w1 (out ++ [x]) Hok1 ltac:(lia)) as (w' & popped & -> & Hok' & He & Hsub & Hlen).
    exists w', (x :: popped). rewrite <-app_assoc. split_and!; try done.
    + intros j. destruct (decide (j = id)) as [->|Hj].
      * rewrite S1. by apply sublist_skip.
      * rewrite <-S2 by done. by apply sublist_cons.
    + simpl. lia.
Qed.

(** [drain] terminates with every virtual queue empty, and returns each
    queued item exactly once, the items of each database in their order. *)
Theorem wfq_drain_all capacity reap (ops : list (WfqOp (T:=T))) :
  let w := wfq_run ops (wfq_new capacity reap) in
  (∀ d, items_of (wfq_drain w).1 d = []) ∧
  (∀ d, items_of w d `sublist_of` (wfq_drain w).2) ∧
  length (wfq_drain w).2 = sum_list_with (λ d, length (items_of w d)) (wq_db_order w).
Proof.
  intros w. assert (wfq_ok w) as Hok by apply wfq_run_ok, wfq_new_ok. clearbody w.
  unfold wfq_drain.
  destruct (drain_fuel_spec (S (N.to_nat (wq_total w))) w [] Hok ltac:(lia))
    as (w' & popped & -> & _ & He & Hsub & Hlen). simpl. split_and!; [done|done|].
  rewrite Hlen, (wo_total w Hok). lia.
Qed.
End wfq.

(** ** Backpressure *)

(** Thresholds that leave a gap between entering and leaving a state. *)
Definition thresholds_ok (c : BackpressureConfig) : Prop :=
  throttle_exit c ≤ throttle_enter c ∧ throttle_enter c ≤ suspend_enter c ∧
  throttle_exit c ≤ suspend_exit c ∧ suspend_exit c ≤ suspend_enter c.

Lemma controller_state_set b s :
  pressure_from_u8 (bc_state (b {{ bc_state := pressure_to_u8 s }})) = s.
Proof. by destruct s. Qed.

Lemma bp_update_state u b :
  controller_state (bp_update u b).1 =
  default (controller_state b) (next_pressure (bc_config b) (controller_state b) u) ∧
  (bp_update u b).2 = next_pressure (bc_config b) (controller_state b) u ∧
  bc_config (bp_update u b).1 = bc_config b.
Proof.
  unfold bp_update. destruct (next_pressure _ _ _) as [[]|]; split_and!; try done.
Qed.

(** The two ends of the scale. *)
Lemma backpressure_cases u b :
  thresholds_ok (bc_config b) →
  (suspend_enter (bc_config b) ≤ u → controller_state (bp_update u b).1 = Suspended) ∧
  (u < throttle_exit (bc_config b) → controller_state (bp_update u b).1 = Normal).
Proof.
  intros (H1 & H2 & H3 & H4). destruct (bp_update_state u b) as (-> & _ & _).
  unfold next_pressure. destruct (controller_state b); repeat case_match; simpl;
    bool_to_prop; split; intros; try done; lia.
Qed.

(** With thresholds in order, an update suspends from [suspend_enter]
    up, returns to normal below [throttle_exit], is never normal from
    [throttle_enter] up nor suspended below [suspend_exit]; inside the two
    gaps it keeps the state it had; and it reports exactly the changes. *)
Theorem backpressure_hysteresis u b :
  thresholds_ok (bc_config b) →
  let c := bc_config b in
  let s := controller_state b in
  let s' := controller_state (bp_update u b).1 in
  (suspend_enter c ≤ u → s' = Suspended) ∧ (u < throttle_exit c → s' = Normal) ∧
  (throttle_enter c ≤ u → s' ≠ Normal) ∧ (u < suspend_exit c → s' ≠ Suspended) ∧
  (throttle_exit c ≤ u < throttle_enter c → s ≠ Suspended → s' = s) ∧
  (suspend_exit c ≤ u < suspend_enter c → s = Suspended → s' = s) ∧
  ((bp_update u b).2 = None → s' = s) ∧ (∀ x, (bp_update u b).2 = Some x → s' = x ∧ x ≠ s).
Proof.
  intros (H1 & H2 & H3 & H4). cbv zeta. destruct (bp_update_state u b) as (-> & -> & _).
  unfold next_pressure. revert H1 H2 H3 H4. generalize (bc_config b) as c. intros c H1 H2 H3 H4.
  destruct (controller_state b); repeat case_match; simpl; bool_to_prop; split_and!; intros; simplify_eq; try done; lia.
Qed.

(** A request sent on the control plane is queued as by the bounded
    queue and wakes the data plane exactly when it was queued; afterwards the
    controller is suspended if the ring is filled to [suspend_enter] percent
    or more and normal if it is filled to less than [throttle_exit] percent. *)
Theorem send_updates_pressure {T} (req : T) sh p co b ctl sh' p' ctl' wake res :
  simulates (sh, p, co) b → thresholds_ok (bc_config ctl) →
  try_send_request req sh p ctl = (sh', p', ctl', wake, res) →
  let b' := (queue_call b (CallPush req)).1 in
  let used := N.of_nat (length (bq_items b')) * 100 in
  AnsPush res = (queue_call b (CallPush req)).2 ∧ wake = is_ok res ∧ simulates (sh', p', co) b' ∧
  (suspend_enter (bc_config ctl) * bq_capacity b' ≤ used → controller_state ctl' = Suspended) ∧
  (used < throttle_exit (bc_config ctl) * bq_capacity b' → controller_state ctl' = Normal).
Proof.
  intros Hsim Hth. destruct (call_simulates _ _ (CallPush req) Hsim) as [Hsim' Hans].
  unfold try_send_request. cbn [ring_call] in Hsim', Hans.
  destruct (try_push req sh p) as [[sh1 p1] r] eqn:Hp. cbn [fst snd] in Hsim', Hans.
  intros [= <- <- <- <- <-]. cbv zeta.
  destruct (queue_call b (CallPush req)) as [b' a]. simpl in *.
  destruct (call_simulates _ _ CallLen Hsim') as [_ Hlen]. simpl in Hlen.
  injection Hlen as _ Hutil.
  assert (bq_capacity b' ≠ 0) as Hcap.
  { destruct Hsim' as (k & ? & ? & ? & [_ Hc _ _ _ _ _ _ _ _]). rewrite Hc.
    by apply N.pow_nonzero. }
  destruct (backpressure_cases (utilization sh1) ctl Hth) as [Hsus Hnor]. rewrite Hutil in Hsus, Hnor.
  split_and!; [done|done|done| |]; intros Hu; rewrite Hutil.
  - apply Hsus. apply N.div_le_lower_bound; [done|lia].
  - apply Hnor. apply N.Div0.div_lt_upper_bound. lia.
Qed.
