(* ===== verification/BridgeExamples.v ===== *)
(** * Bridge runs at concrete inputs

    Each lemma applies one theorem on the bridge to a small run in which its
    hypotheses hold. *)

From Stdlib Require Import Lia.
From stdpp Require Import base option gmap list.
From S2P Require Import Prelude BridgeRing BridgeRingFacts BridgeRingSpec BridgeFlow.
From S2P Require Import BridgeFlowFacts BridgeThms.

Open Scope N_scope.

(** One push of [v], from the first access to the return. *)
Definition demo_push (v : N) : list (RingStep N) := Push v false :: replicate 4 (PStep 0).

(** Two values published, the first popped. *)
Definition demo_run : list (RingStep N) :=
  demo_push 7 ++ demo_push 8 ++ [Pop; CStep 2 false; CStep 2 false; CStep 2 false; CStep 2 false].

Lemma ring_fifo_witness :
  ∃ r, ring_start 4 = Some r ∧
    returned (ring_run demo_run r) = [7] ∧ published (ring_run demo_run r) = [7; 8] ∧
    returned (ring_run demo_run r) `prefix_of` published (ring_run demo_run r).
Proof.
  eexists. split; [reflexivity|]. split; [reflexivity|]. split; [reflexivity|].
  refine (proj1 (ring_fifo 4 _ demo_run _)). reflexivity.
Defined.

(** The producer about to write slot 1 while the consumer is about to take
    slot 0. *)
Definition demo_overlap : list (RingStep N) :=
  demo_push 7 ++ [Push 8 false; PStep 0; Pop; CStep 1 false].

Lemma ring_race_free_witness :
  ∃ r, ring_start 4 = Some r ∧
    rg_ppc (ring_run demo_overlap r) = PWriteSlot 8 1 ∧
    rg_cpc (ring_run demo_overlap r) = CTakeSlot 0 ∧
    slot_of (rg_sh (ring_run demo_overlap r)) 1 ≠ slot_of (rg_sh (ring_run demo_overlap r)) 0.
Proof.
  eexists. split; [reflexivity|]. split; [reflexivity|]. split; [reflexivity|].
  refine (ring_race_free 4 _ demo_overlap 8 1 0 _ _ _).
  - reflexivity.
  - reflexivity.
  - left. reflexivity.
Defined.

(** Three pushes into a ring of two slots: the third is refused. *)
Definition demo_calls : list (RingCall N) := [CallPush 1; CallPush 2; CallPush 3; CallPop; CallLen].

Lemma ring_refines_queue_witness :
  ∃ st m, channel 2 = Some st ∧ next_power_of_two 2 = Some m ∧
    answers_of ring_call st demo_calls =
    answers_of queue_call (MkBoundedQueue m [] false) demo_calls.
Proof.
  assert (∃ st, channel (T:=N) 2 = Some st) as [st Hst] by (eexists; reflexivity).
  exists st. destruct (ring_refines_queue 2 st demo_calls Hst) as [m [Hm Ha]].
  exists m. split; [exact Hst|split; [exact Hm|exact Ha]].
Defined.

Lemma push_wait_free_witness :
  ∃ r sh p, ring_start 4 = Some r ∧ try_push 9 (rg_sh r) (rg_prod r) = (sh, p, Ok tt) ∧
    ring_run (Push 9 (sh_disconnected (rg_sh r)) :: replicate 5 (PStep (sh_head (rg_sh r)))) r =
    MkRing sh p (rg_cons r) PIdle (rg_cpc r) (rg_events r ++ [Published 9] ++ [Pushed (Ok tt)]).
Proof.
  eexists _, _, _. split; [reflexivity|]. split; [reflexivity|].
  refine (push_wait_free _ 9 _ _ (Ok tt) _ _ _).
  - reflexivity.
  - reflexivity.
  - reflexivity.
Defined.

(** Two databases with an item each; the second one's turn is behind the
    first's. *)
Definition demo_wfq : WeightedFairQueue N :=
  wfq_run [WEnqueue 1 10; WEnqueue 1 11; WEnqueue 2 20] (wfq_new 8 16).

Lemma wfq_no_starvation_witness :
  items_of demo_wfq 2 = [20] ∧
  ∃ ops1 ops2 w2, replicate 5 WPop = ops1 ++ WPop :: ops2 ∧
    pop_next (wfq_run ops1 demo_wfq) = (w2, Some 20) ∧ served (wfq_run ops1 demo_wfq) w2 2 20.
Proof.
  split; [reflexivity|].
  refine (wfq_no_starvation 8 16 [WEnqueue 1 10; WEnqueue 1 11; WEnqueue 2 20] demo_wfq 2 20 []
            (replicate 5 WPop) _ _ _).
  - reflexivity.
  - reflexivity.
  - apply Nat.ltb_lt. reflexivity.
Defined.

Lemma backpressure_hysteresis_witness :
  thresholds_ok (bc_config controller_default) ∧
  controller_state (bp_update 95 controller_default).1 = Suspended.
Proof.
  assert (thresholds_ok (bc_config controller_default)) as H by (unfold thresholds_ok; simpl; lia).
  split; [exact H|].
  refine (proj1 (backpressure_hysteresis 95 controller_default H) _). simpl. lia.
Defined.

(** One request fills a ring of one slot, which suspends the controller. *)
Lemma send_updates_pressure_witness :
  ∃ sh p co sh' p' ctl' wake res, channel 1 = Some (sh, p, co) ∧
    try_send_request 5 sh p controller_default = (sh', p', ctl', wake, res) ∧
    wake = is_ok res ∧ controller_state ctl' = Suspended.
Proof.
  assert (∃ st, channel (T:=N) 1 = Some st) as [[[sh p] co] Hst] by (eexists; reflexivity).
  destruct (channel_simulates 1 _ Hst) as [m [Hm Hsim]].
  injection Hm as Hm. destruct (try_send_request 5 sh p controller_default)
    as [[[[sh' p'] ctl'] wake] res] eqn:Hs.
  assert (thresholds_ok (bc_config controller_default)) as Hth
    by (unfold thresholds_ok; simpl; lia).
  destruct (send_updates_pressure 5 sh p co _ controller_default sh' p' ctl' wake res
              Hsim Hth Hs) as [_ [Hw [_ [Hsus _]]]].
  exists sh, p, co, sh', p', ctl', wake, res. split_and!; [done|done|done|].
  apply Hsus. subst m. vm_compute. discriminate.
Defined.
