(* ===== verification/WalRecord.v ===== *)
(** * WAL records

    [nodedb-wal/src/record]: the 63-byte record header ([header.rs]), the
    record types ([types.rs]), the record with its checksum and encryption
    ([wal_record.rs], [crypto.rs]), the segment preamble ([preamble.rs]) and
    the padding records of direct I/O ([padding.rs], [align.rs]).

    The [crc32c] and [aes_gcm] crates are not part of the repository: their
    functions are the operations of the classes [Crc32c] and [Aes256Gcm]. The
    texts and paths inside error values are left out. *)

From stdpp Require Import base option list.
From S2P Require Import Prelude.

Open Scope N_scope.

(** ** Errors ([error.rs]) *)

Inductive WalError : Type :=
  | WalIo
  | ChecksumMismatch (lsn : u64) (expected actual : u32)
  | CheckpointCorrupt
  | InvalidMagic (offset : u64) (expected actual : u32)
  | UnsupportedVersion (version supported : N)
  | SegmentFormatVersion (version supported : N)
  | UnknownRequiredRecordType (record_type : u32) (lsn : u64)
  | PayloadTooLarge (size max : usize)
  | Sealed
  | AlignmentViolation (required actual : usize)
  | LockPoisoned
  | EncryptionError
  | EncryptedRecordWithoutKey (lsn : u64)
  | DwbOffNotOpenable
  | CorruptRecord (lsn : u64)
  | InvalidPayload
  | DirectIoUnsupported
  | OutOfSpace
  | DurabilityLost
  | MidFileCorruption (offset resync_offset resync_lsn : u64)
  | SegmentLsnGap (previous_last_lsn expected_lsn found_lsn : u64)
  | SegmentOverlapsPrevious (first_lsn previous_last_lsn : u64)
  | RollCleanupFailed (roll cleanup : WalError)
  | ReplayBelowRetainedFloor (from_lsn retained_floor_lsn : u64).

(** [WalError::with_segment_path]. *)
Definition with_segment_path (e : WalError) : WalError :=
  match e with
  | UnsupportedVersion version supported => SegmentFormatVersion version supported
  | other => other
  end.

(** ** Record types ([types.rs]) *)

(** Bit 14 marks an encrypted payload, bit 15 a record that replay must
    understand. *)
Definition ENCRYPTED_FLAG : u32 := 16384.
Definition REQUIRED_FLAG : u32 := 32768.

Inductive RecordType : Type :=
  | Noop
  | Put
  | Delete
  | VectorPut
  | VectorDelete
  | VectorParams
  | VectorIndexDrop
  | VectorDirectUpsert
  | VectorDirectDelete
  | VectorDirectUpdate
  | VectorResolvedDirectWrite
  | VectorDirectTruncate
  | ColumnarTruncate
  | TimeseriesTruncate
  | SparseVectorPut
  | SparseVectorDelete
  | MultiVectorPut
  | MultiVectorDelete
  | CrdtDelta
  | CrdtListOp
  | CrdtDocOp
  | TimeseriesBatch
  | LogBatch
  | ArrayPut
  | ArrayDelete
  | ArrayFlush
  | Transaction
  | TransactionRedo
  | SurrogateAlloc
  | SurrogateBindBatch
  | Checkpoint
  | CollectionTombstoned
  | TimeAnchor
  | TemporalPurge
  | SyncSeqAdvance
  | FtsIndex
  | FtsDelete
  | SpatialPut
  | SpatialDelete
  | GraphNodeLabelSet
  | GraphNodeLabelRemove
  | WriteAborted
  | ProposalApplied
  | ChangePosition
  | RestorePoint
  | GraphNodeCascade
  | SnapshotInstalled
  | WriteGroup
  | GraphEdgeCut
  | RedoChunk.

#[export] Instance record_type_eq_dec : EqDecision RecordType.
Proof. solve_decision. Defined.

(** [kind as u32]. *)
Definition record_type_raw (t : RecordType) : u32 :=
  match t with
  | Noop => 0
  | Put => N.lor 1 REQUIRED_FLAG
  | Delete => N.lor 2 REQUIRED_FLAG
  | VectorPut => N.lor 10 REQUIRED_FLAG
  | VectorDelete => N.lor 11 REQUIRED_FLAG
  | VectorParams => N.lor 12 REQUIRED_FLAG
  | VectorIndexDrop => N.lor 18 REQUIRED_FLAG
  | VectorDirectUpsert => N.lor 13 REQUIRED_FLAG
  | VectorDirectDelete => N.lor 19 REQUIRED_FLAG
  | VectorDirectUpdate => N.lor 23 REQUIRED_FLAG
  | VectorResolvedDirectWrite => N.lor 24 REQUIRED_FLAG
  | VectorDirectTruncate => N.lor 25 REQUIRED_FLAG
  | ColumnarTruncate => N.lor 26 REQUIRED_FLAG
  | TimeseriesTruncate => N.lor 27 REQUIRED_FLAG
  | SparseVectorPut => N.lor 14 REQUIRED_FLAG
  | SparseVectorDelete => N.lor 15 REQUIRED_FLAG
  | MultiVectorPut => N.lor 16 REQUIRED_FLAG
  | MultiVectorDelete => N.lor 17 REQUIRED_FLAG
  | CrdtDelta => N.lor 20 REQUIRED_FLAG
  | CrdtListOp => N.lor 21 REQUIRED_FLAG
  | CrdtDocOp => N.lor 22 REQUIRED_FLAG
  | TimeseriesBatch => 30
  | LogBatch => 31
  | ArrayPut => N.lor 40 REQUIRED_FLAG
  | ArrayDelete => N.lor 41 REQUIRED_FLAG
  | ArrayFlush => N.lor 42 REQUIRED_FLAG
  | Transaction => N.lor 50 REQUIRED_FLAG
  | TransactionRedo => N.lor 58 REQUIRED_FLAG
  | SurrogateAlloc => N.lor 51 REQUIRED_FLAG
  | SurrogateBindBatch => N.lor 52 REQUIRED_FLAG
  | Checkpoint => N.lor 100 REQUIRED_FLAG
  | CollectionTombstoned => N.lor 101 REQUIRED_FLAG
  | TimeAnchor => 102
  | TemporalPurge => N.lor 103 REQUIRED_FLAG
  | SyncSeqAdvance => N.lor 53 REQUIRED_FLAG
  | FtsIndex => N.lor 54 REQUIRED_FLAG
  | FtsDelete => N.lor 55 REQUIRED_FLAG
  | SpatialPut => N.lor 56 REQUIRED_FLAG
  | SpatialDelete => N.lor 57 REQUIRED_FLAG
  | GraphNodeLabelSet => N.lor 59 REQUIRED_FLAG
  | GraphNodeLabelRemove => N.lor 60 REQUIRED_FLAG
  | WriteAborted => N.lor 61 REQUIRED_FLAG
  | ProposalApplied => N.lor 62 REQUIRED_FLAG
  | ChangePosition => 63
  | RestorePoint => 64
  | GraphNodeCascade => N.lor 65 REQUIRED_FLAG
  | SnapshotInstalled => N.lor 66 REQUIRED_FLAG
  | WriteGroup => N.lor 67 REQUIRED_FLAG
  | GraphEdgeCut => N.lor 68 REQUIRED_FLAG
  | RedoChunk => N.lor 69 REQUIRED_FLAG
  end.

(** [RecordType::is_required]. *)
Definition is_required (raw : u32) : bool := negb (N.land raw REQUIRED_FLAG =? 0).

(** [RecordType::from_raw], the arms in the source's order. *)
Definition from_raw (raw : u32) : option RecordType :=
  if raw =? 0 then Some Noop
  else if raw =? N.lor 1 REQUIRED_FLAG then Some Put
  else if raw =? N.lor 2 REQUIRED_FLAG then Some Delete
  else if raw =? N.lor 10 REQUIRED_FLAG then Some VectorPut
  else if raw =? N.lor 11 REQUIRED_FLAG then Some VectorDelete
  else if raw =? N.lor 12 REQUIRED_FLAG then Some VectorParams
  else if raw =? N.lor 13 REQUIRED_FLAG then Some VectorDirectUpsert
  else if raw =? N.lor 19 REQUIRED_FLAG then Some VectorDirectDelete
  else if raw =? N.lor 23 REQUIRED_FLAG then Some VectorDirectUpdate
  else if raw =? N.lor 24 REQUIRED_FLAG then Some VectorResolvedDirectWrite
  else if raw =? N.lor 25 REQUIRED_FLAG then Some VectorDirectTruncate
  else if raw =? N.lor 26 REQUIRED_FLAG then Some ColumnarTruncate
  else if raw =? N.lor 27 REQUIRED_FLAG then Some TimeseriesTruncate
  else if raw =? N.lor 14 REQUIRED_FLAG then Some SparseVectorPut
  else if raw =? N.lor 15 REQUIRED_FLAG then Some SparseVectorDelete
  else if raw =? N.lor 16 REQUIRED_FLAG then Some MultiVectorPut
  else if raw =? N.lor 17 REQUIRED_FLAG then Some MultiVectorDelete
  else if raw =? N.lor 18 REQUIRED_FLAG then Some VectorIndexDrop
  else if raw =? N.lor 20 REQUIRED_FLAG then Some CrdtDelta
  else if raw =? N.lor 21 REQUIRED_FLAG then Some CrdtListOp
  else if raw =? N.lor 22 REQUIRED_FLAG then Some CrdtDocOp
  else if raw =? N.lor 50 REQUIRED_FLAG then Some Transaction
  else if raw =? N.lor 58 REQUIRED_FLAG then Some TransactionRedo
  else if raw =? N.lor 51 REQUIRED_FLAG then Some SurrogateAlloc
  else if raw =? N.lor 52 REQUIRED_FLAG then Some SurrogateBindBatch
  else if raw =? 30 then Some TimeseriesBatch
  else if raw =? 31 then Some LogBatch
  else if raw =? N.lor 40 REQUIRED_FLAG then Some ArrayPut
  else if raw =? N.lor 41 REQUIRED_FLAG then Some ArrayDelete
  else if raw =? N.lor 42 REQUIRED_FLAG then Some ArrayFlush
  else if raw =? N.lor 100 REQUIRED_FLAG then Some Checkpoint
  else if raw =? N.lor 101 REQUIRED_FLAG then Some CollectionTombstoned
  else if raw =? 102 then Some TimeAnchor
  else if raw =? N.lor 103 REQUIRED_FLAG then Some TemporalPurge
  else if raw =? N.lor 53 REQUIRED_FLAG then Some SyncSeqAdvance
  else if raw =? N.lor 54 REQUIRED_FLAG then Some FtsIndex
  else if raw =? N.lor 55 REQUIRED_FLAG then Some FtsDelete
  else if raw =? N.lor 56 REQUIRED_FLAG then Some SpatialPut
  else if raw =? N.lor 57 REQUIRED_FLAG then Some SpatialDelete
  else if raw =? N.lor 59 REQUIRED_FLAG then Some GraphNodeLabelSet
  else if raw =? N.lor 60 REQUIRED_FLAG then Some GraphNodeLabelRemove
  else if raw =? N.lor 61 REQUIRED_FLAG then Some WriteAborted
  else if raw =? N.lor 62 REQUIRED_FLAG then Some ProposalApplied
  else if raw =? 63 then Some ChangePosition
  else if raw =? 64 then Some RestorePoint
  else if raw =? N.lor 65 REQUIRED_FLAG then Some GraphNodeCascade
  else if raw =? N.lor 66 REQUIRED_FLAG then Some SnapshotInstalled
  else if raw =? N.lor 67 REQUIRED_FLAG then Some WriteGroup
  else if raw =? N.lor 68 REQUIRED_FLAG then Some GraphEdgeCut
  else if raw =? N.lor 69 REQUIRED_FLAG then Some RedoChunk
  else None.

(** ** The header ([header.rs]) *)

(** "SYNW". *)
Definition WAL_MAGIC : u32 := 1398361687.
Definition WAL_FORMAT_VERSION : N := 1.
Definition MAX_WAL_PAYLOAD_SIZE : usize := 64 * 1024 * 1024.
Definition HEADER_SIZE : nat := 63.
Definition NO_EVENT_SOURCE : N := 0.

Record RecordHeader : Type := MkRecordHeader {
  rh_magic : u32;
  rh_format_version : N;
  rh_record_type : u32;
  rh_lsn : u64;
  rh_tenant_id : u64;
  rh_vshard_id : u32;
  rh_payload_len : u32;
  rh_database_id : u64;
  rh_apply_key : u64;
  rh_event_source : N;
  rh_commit_hlc : u64;
  rh_crc32c : u32;
}.

#[export] Instance eta_RecordHeader : Eta RecordHeader := λ r,
  MkRecordHeader (rh_magic r) (rh_format_version r) (rh_record_type r) (rh_lsn r)
    (rh_tenant_id r) (rh_vshard_id r) (rh_payload_len r) (rh_database_id r) (rh_apply_key r)
    (rh_event_source r) (rh_commit_hlc r) (rh_crc32c r).

(** [RecordHeader::to_bytes] up to the checksum field. *)
Definition header_prefix (h : RecordHeader) : bytes :=
  to_le 4 (rh_magic h) ++ to_le 2 (rh_format_version h) ++ to_le 4 (rh_record_type h) ++
  to_le 8 (rh_lsn h) ++ to_le 8 (rh_tenant_id h) ++ to_le 4 (rh_vshard_id h) ++
  to_le 4 (rh_payload_len h) ++ to_le 8 (rh_database_id h) ++ to_le 8 (rh_apply_key h) ++
  to_le 1 (rh_event_source h) ++ to_le 8 (rh_commit_hlc h).

Definition header_to_bytes (h : RecordHeader) : bytes :=
  header_prefix h ++ to_le 4 (rh_crc32c h).

(** [from_le_bytes] of [buf[lo..lo+n]]. *)
Definition le_at (lo n : nat) (buf : bytes) : N := from_le (take n (drop lo buf)).

Definition header_from_bytes (buf : bytes) : RecordHeader := {|
  rh_magic := le_at 0 4 buf;
  rh_format_version := le_at 4 2 buf;
  rh_record_type := le_at 6 4 buf;
  rh_lsn := le_at 10 8 buf;
  rh_tenant_id := le_at 18 8 buf;
  rh_vshard_id := le_at 26 4 buf;
  rh_payload_len := le_at 30 4 buf;
  rh_database_id := le_at 34 8 buf;
  rh_apply_key := le_at 42 8 buf;
  rh_event_source := le_at 50 1 buf;
  rh_commit_hlc := le_at 51 8 buf;
  rh_crc32c := le_at 59 4 buf;
|}.

(** [RecordHeader::validate]. *)
Definition header_validate (offset : u64) (h : RecordHeader) : result WalError unit :=
  if negb (rh_magic h =? WAL_MAGIC) then
    Err (InvalidMagic offset WAL_MAGIC (rh_magic h))
  else if negb (rh_format_version h =? WAL_FORMAT_VERSION) then
    Err (UnsupportedVersion (rh_format_version h) WAL_FORMAT_VERSION)
  else if MAX_WAL_PAYLOAD_SIZE <? rh_payload_len h then
    Err (PayloadTooLarge (rh_payload_len h) MAX_WAL_PAYLOAD_SIZE)
  else Ok tt.

(** [record_type & !ENCRYPTED_FLAG]. *)
Definition strip_encrypted (record_type : u32) : u32 := N.ldiff record_type ENCRYPTED_FLAG.

(** ** Checksums and records ([wal_record.rs]) *)

Class Crc32c : Type := {
  crc32c : bytes → u32;
  crc32c_append : u32 → bytes → u32;
}.

Record WalRecord : Type := MkWalRecord {
  wr_header : RecordHeader;
  wr_payload : bytes;
}.

#[export] Instance eta_WalRecord : Eta WalRecord := λ r, MkWalRecord (wr_header r) (wr_payload r).

Definition is_encrypted (r : WalRecord) : bool :=
  negb (N.land (rh_record_type (wr_header r)) ENCRYPTED_FLAG =? 0).

Definition logical_record_type (r : WalRecord) : u32 :=
  strip_encrypted (rh_record_type (wr_header r)).

Definition wire_size (r : WalRecord) : usize :=
  N.of_nat HEADER_SIZE + N.of_nat (length (wr_payload r)).

(** The bytes of a record on disk. *)
Definition record_to_bytes (r : WalRecord) : bytes := header_to_bytes (wr_header r) ++ wr_payload r.

Section checksum.
Context `{Crc32c}.

Definition compute_checksum (h : RecordHeader) (payload : bytes) : u32 :=
  crc32c_append (crc32c (take (HEADER_SIZE - 4) (header_to_bytes h))) payload.

Definition verify_checksum (r : WalRecord) : result WalError unit :=
  let expected := rh_crc32c (wr_header r) in
  let actual := compute_checksum (wr_header r) (wr_payload r) in
  if negb (expected =? actual) then
    Err (ChecksumMismatch (rh_lsn (wr_header r)) expected actual)
  else Ok tt.

(** [header.crc32c = header.compute_checksum(&payload)]. *)
Definition seal_record (r : WalRecord) : WalRecord :=
  r {{ wr_header -> rh_crc32c := compute_checksum (wr_header r) (wr_payload r) }}.

(** [is_format_gap] and [may_be_format_gap] ([foreign_version.rs]). *)
Definition may_be_format_gap (h : RecordHeader) (at_first_record : bool) : bool :=
  at_first_record && negb (rh_format_version h =? 0).

Definition is_format_gap (h : RecordHeader) (payload : option bytes) : bool :=
  match payload with
  | None => true
  | Some payload =>
      let restored := h {{ rh_format_version := WAL_FORMAT_VERSION }} in
      negb (compute_checksum restored payload =? rh_crc32c h)
  end.
End checksum.

(** ** The preamble ([preamble.rs]) *)

Definition PREAMBLE_SIZE : nat := 16.
Definition PREAMBLE_VERSION : N := 1.
Definition CIPHER_AES_256_GCM : N := 0.
(** "WALP". *)
Definition WAL_PREAMBLE_MAGIC : bytes := [87; 65; 76; 80].

Record SegmentPreamble : Type := MkSegmentPreamble {
  sp_magic : bytes;
  sp_version : N;
  sp_cipher_alg : N;
  sp_kid : N;
  sp_epoch : bytes;
}.

Definition preamble_new_wal (epoch : bytes) : SegmentPreamble :=
  MkSegmentPreamble WAL_PREAMBLE_MAGIC PREAMBLE_VERSION CIPHER_AES_256_GCM 0 epoch.

Definition preamble_to_bytes (p : SegmentPreamble) : bytes :=
  sp_magic p ++ to_le 2 (sp_version p) ++ [sp_cipher_alg p; sp_kid p] ++ sp_epoch p ++
  [0; 0; 0; 0].

Definition preamble_from_bytes (buf expected_magic : bytes) : result WalError SegmentPreamble :=
  let magic := take 4 buf in
  if negb (bool_decide (magic = expected_magic)) then Err EncryptionError
  else
    let version := le_at 4 2 buf in
    if negb (version =? PREAMBLE_VERSION) then Err (UnsupportedVersion version PREAMBLE_VERSION)
    else Ok (MkSegmentPreamble magic version (le_at 6 1 buf) (le_at 7 1 buf)
               (take 4 (drop 8 buf))).

Definition parse_leading_preamble (bs expected_magic : bytes) :
    result WalError (option SegmentPreamble) :=
  if (length bs <? PREAMBLE_SIZE)%nat then Ok None
  else if negb (bool_decide (take 4 bs = expected_magic)) then Ok None
  else
    let? p := preamble_from_bytes (take PREAMBLE_SIZE bs) expected_magic in
    Ok (Some p).

(** [read_leading_preamble] on a file's bytes: the preamble and the offset of
    the first record. *)
Definition read_leading_preamble (file expected_magic : bytes) :
    result WalError (option SegmentPreamble * u64) :=
  if (length file <? PREAMBLE_SIZE)%nat then Ok (None, 0)
  else
    let? p := parse_leading_preamble (take PREAMBLE_SIZE file) expected_magic in
    match p with
    | Some p => Ok (Some p, N.of_nat PREAMBLE_SIZE)
    | None => Ok (None, 0)
    end.

(** ** Encryption ([crypto.rs], [wal_record.rs]) *)

Definition AUTH_TAG_SIZE : usize := 16.

(** [Aes256Gcm::encrypt] and [decrypt] under a key, with nonce, AAD and
    message; [None] is an error. *)
Class Aes256Gcm : Type := {
  gcm_encrypt : bytes → bytes → bytes → bytes → option bytes;
  gcm_decrypt : bytes → bytes → bytes → bytes → option bytes;
}.

(** A key and the epoch it was created with. *)
Record WalEncryptionKey : Type := MkWalEncryptionKey {
  wk_key : bytes;
  wk_epoch : bytes;
}.

Record KeyRing : Type := MkKeyRing {
  kr_current : WalEncryptionKey;
  kr_previous : option WalEncryptionKey;
}.

Definition lsn_to_nonce (epoch : bytes) (lsn : u64) : bytes := epoch ++ to_le 8 lsn.

Definition build_aad (preamble_bytes : option bytes) (header_bytes : bytes) : bytes :=
  match preamble_bytes with Some p => p ++ header_bytes | None => header_bytes end.

Record RecordStamp : Type := MkRecordStamp {
  st_apply_key : u64;
  st_event_source : N;
  st_commit_hlc : u64;
}.

(** [RecordStamp::NONE]. *)
Definition STAMP_NONE : RecordStamp := MkRecordStamp 0 NO_EVENT_SOURCE 0.

Record WalRecordArgs : Type := MkWalRecordArgs {
  ra_record_type : u32;
  ra_lsn : u64;
  ra_tenant_id : u64;
  ra_vshard_id : u32;
  ra_database_id : u64;
  ra_payload : bytes;
  ra_encryption_key : option WalEncryptionKey;
  ra_preamble_bytes : option bytes;
}.

#[export] Instance eta_WalRecordArgs : Eta WalRecordArgs := λ r,
  MkWalRecordArgs (ra_record_type r) (ra_lsn r) (ra_tenant_id r) (ra_vshard_id r)
    (ra_database_id r) (ra_payload r) (ra_encryption_key r) (ra_preamble_bytes r).

Section crypto.
Context `{Crc32c, Aes256Gcm}.

Definition encrypt_aad (key : WalEncryptionKey) (lsn : u64) (aad plaintext : bytes) :
    result WalError bytes :=
  match gcm_encrypt (wk_key key) (lsn_to_nonce (wk_epoch key) lsn) aad plaintext with
  | Some ciphertext => Ok ciphertext
  | None => Err EncryptionError
  end.

Definition decrypt_aad (key : WalEncryptionKey) (epoch : bytes) (lsn : u64)
    (aad ciphertext : bytes) : result WalError bytes :=
  match gcm_decrypt (wk_key key) (lsn_to_nonce epoch lsn) aad ciphertext with
  | Some plaintext => Ok plaintext
  | None => Err EncryptionError
  end.

(** [KeyRing::decrypt_aad]: the current key, then the previous one. *)
Definition ring_decrypt_aad (ring : KeyRing) (epoch : bytes) (lsn : u64)
    (aad ciphertext : bytes) : result WalError bytes :=
  match decrypt_aad (kr_current ring) epoch lsn aad ciphertext, kr_previous ring with
  | Ok plaintext, _ => Ok plaintext
  | Err _, Some prev => decrypt_aad prev epoch lsn aad ciphertext
  | Err e, None => Err e
  end.

(** A header from its parts; the checksum is filled in later. *)
Definition args_header (args : WalRecordArgs) (stamp : RecordStamp) (record_type payload_len : u32) :
    RecordHeader := {|
  rh_magic := WAL_MAGIC;
  rh_format_version := WAL_FORMAT_VERSION;
  rh_record_type := record_type;
  rh_lsn := ra_lsn args;
  rh_tenant_id := ra_tenant_id args;
  rh_vshard_id := ra_vshard_id args;
  rh_payload_len := payload_len;
  rh_database_id := ra_database_id args;
  rh_apply_key := st_apply_key stamp;
  rh_event_source := st_event_source stamp;
  rh_commit_hlc := st_commit_hlc stamp;
  rh_crc32c := 0;
|}.

(** [WalRecord::new_stamped]. *)
Definition new_stamped (args : WalRecordArgs) (stamp : RecordStamp) : result WalError WalRecord :=
  let size := N.of_nat (length (ra_payload args)) in
  if MAX_WAL_PAYLOAD_SIZE <? size then Err (PayloadTooLarge size MAX_WAL_PAYLOAD_SIZE)
  else
    let? final :=
      match ra_encryption_key args with
      | Some key =>
          let header_bytes := header_to_bytes (args_header args stamp (ra_record_type args) 0) in
          let aad := build_aad (ra_preamble_bytes args) header_bytes in
          let? ciphertext := encrypt_aad key (ra_lsn args) aad (ra_payload args) in
          Ok (ciphertext, true)
      | None => Ok (ra_payload args, false)
      end in
    let '(final_payload, encrypted) := final in
    let record_type :=
      if (encrypted : bool) then N.lor (ra_record_type args) ENCRYPTED_FLAG
      else ra_record_type args in
    let payload_len := N.of_nat (length final_payload) mod 2 ^ 32 in
    Ok (seal_record (MkWalRecord (args_header args stamp record_type payload_len) final_payload)).

(** [WalRecord::new]. *)
Definition record_new (args : WalRecordArgs) : result WalError WalRecord :=
  new_stamped args STAMP_NONE.

(** [WalRecord::decrypt_payload_ring]. *)
Definition decrypt_payload_ring (epoch : bytes) (preamble_bytes : option bytes)
    (ring : option KeyRing) (r : WalRecord) : result WalError bytes :=
  if negb (is_encrypted r) then Ok (wr_payload r)
  else
    match ring with
    | None => Err EncryptionError
    | Some ring =>
        let aad_header := (wr_header r) {{ rh_record_type ::= strip_encrypted;
                                           rh_payload_len := 0; rh_crc32c := 0 }} in
        let aad := build_aad preamble_bytes (header_to_bytes aad_header) in
        ring_decrypt_aad ring epoch (rh_lsn (wr_header r)) aad (wr_payload r)
    end.

(** [WalRecord::into_decrypted]. *)
Definition into_decrypted (epoch : bytes) (preamble_bytes : option bytes)
    (ring : option KeyRing) (r : WalRecord) : result WalError WalRecord :=
  if negb (is_encrypted r) then Ok r
  else
    let? plaintext := decrypt_payload_ring epoch preamble_bytes ring r in
    let payload_len := N.of_nat (length plaintext) in
    if u32_max <? payload_len then Err (CorruptRecord (rh_lsn (wr_header r)))
    else
      Ok (seal_record (MkWalRecord
            ((wr_header r) {{ rh_record_type ::= strip_encrypted;
                              rh_payload_len := payload_len }}) plaintext)).

(** [SegmentDecryptor::decrypt_record] ([segment/decrypt.rs]) for a segment
    with the given preamble and key ring. *)
Definition decrypt_record (preamble : option SegmentPreamble) (ring : option KeyRing)
    (r : WalRecord) : result WalError WalRecord :=
  if negb (is_encrypted r) then Ok r
  else
    match ring, preamble with
    | None, _ => Err (EncryptedRecordWithoutKey (rh_lsn (wr_header r)))
    | Some _, None => Err (CorruptRecord (rh_lsn (wr_header r)))
    | Some ring, Some p =>
        into_decrypted (sp_epoch p) (Some (preamble_to_bytes p)) (Some ring) r
    end.
End crypto.

(** ** Padding ([padding.rs], [align.rs]) *)

(** [round_up] for a power of two: [(value + align - 1) & !(align - 1)]. *)
Definition round_up (value align : usize) : usize := N.ldiff (value + align - 1) (align - 1).

Definition MIN_PADDING_RECORD_SIZE : usize := N.of_nat HEADER_SIZE.

Definition padding_span (len alignment : usize) : option usize :=
  let gap := round_up len alignment - len in
  if gap =? 0 then None
  else if gap <? MIN_PADDING_RECORD_SIZE then Some (gap + alignment)
  else Some gap.

Definition padding_record `{Crc32c, Aes256Gcm} (total_size : usize) : result WalError WalRecord :=
  if total_size <? N.of_nat HEADER_SIZE then
    Err (AlignmentViolation (N.of_nat HEADER_SIZE) total_size)
  else
    record_new (MkWalRecordArgs (record_type_raw Noop) 0 0 0 0
      (replicate (N.to_nat total_size - HEADER_SIZE) 0) None None).
