(* ===== verification/WalRecordFacts.v ===== *)
(** * Facts on WAL records

    The header and preamble codecs are inverses; a record the constructors
    return is well formed ([record_wf]); decryption undoes encryption; padding
    spans end on a boundary and leave room for a header. *)

From Stdlib Require Import Lia.
From stdpp Require Import base option list.
From S2P Require Import Prelude WalRecord.

Open Scope N_scope.

(** ** Fields at fixed offsets *)

Lemma le_at_skip lo n a b :
  (length a ≤ lo)%nat → le_at lo n (a ++ b) = le_at (lo - length a) n b.
Proof. intros. unfold le_at. by rewrite drop_app_ge. Qed.

Lemma le_at_here n a b : length a = n → le_at 0 n (a ++ b) = from_le a.
Proof. intros <-. unfold le_at. by rewrite drop_0, take_app_length. Qed.

Lemma le_at_all n a : length a = n → le_at 0 n a = from_le a.
Proof. intros Hn. rewrite <-(app_nil_r a) at 1. by apply le_at_here. Qed.

(** Walks a concatenation of [to_le]s to the field at an offset. *)
Ltac le_field :=
  cbn [rh_magic rh_format_version rh_record_type rh_lsn rh_tenant_id rh_vshard_id rh_payload_len
    rh_database_id rh_apply_key rh_event_source rh_commit_hlc rh_crc32c] in *;
  repeat (rewrite le_at_skip by (rewrite !length_to_le; lia));
  rewrite ?length_to_le; cbn [Nat.sub];
  first [rewrite le_at_here by apply length_to_le | rewrite le_at_all by apply length_to_le];
  apply from_le_to_le.

(** [to_le] of a field that was read gives its bytes back. *)
Lemma to_le_le_at lo n bs :
  Forall (λ b, b < 256) bs → (lo + n ≤ length bs)%nat →
  to_le n (le_at lo n bs) = take n (drop lo bs).
Proof.
  intros Hb Hn. apply to_le_from_le.
  - rewrite length_take, length_drop. lia.
  - by apply Forall_take, Forall_drop.
Qed.

Lemma take_then_drop lo n (bs : bytes) :
  take n (drop lo bs) ++ drop (lo + n) bs = drop lo bs.
Proof. by rewrite <-drop_drop, take_drop. Qed.

(** ** Headers *)

(** The fields are within their widths. *)
Record header_fits (h : RecordHeader) : Prop := MkHeaderFits {
  hf_magic : rh_magic h < 2 ^ 32;
  hf_version : rh_format_version h < 2 ^ 16;
  hf_type : rh_record_type h < 2 ^ 32;
  hf_lsn : rh_lsn h < 2 ^ 64;
  hf_tenant : rh_tenant_id h < 2 ^ 64;
  hf_vshard : rh_vshard_id h < 2 ^ 32;
  hf_len : rh_payload_len h < 2 ^ 32;
  hf_database : rh_database_id h < 2 ^ 64;
  hf_apply_key : rh_apply_key h < 2 ^ 64;
  hf_source : rh_event_source h < 2 ^ 8;
  hf_hlc : rh_commit_hlc h < 2 ^ 64;
  hf_crc : rh_crc32c h < 2 ^ 32;
}.

Lemma length_header_prefix h : length (header_prefix h) = 59%nat.
Proof. unfold header_prefix. by rewrite !length_app, !length_to_le. Qed.

Lemma length_header_to_bytes h : length (header_to_bytes h) = HEADER_SIZE.
Proof. unfold header_to_bytes. by rewrite length_app, length_header_prefix, length_to_le. Qed.

Lemma header_from_to h : header_fits h → header_from_bytes (header_to_bytes h) = h.
Proof.
  destruct h as [f1 f2 f3 f4 f5 f6 f7 f8 f9 f10 f11 f12]. intros [H1 H2 H3 H4 H5 H6 H7 H8 H9 H10 H11 H12].
  unfold header_from_bytes, header_to_bytes, header_prefix. rewrite <-!app_assoc.
  f_equal; le_field; done.
Qed.

Lemma header_to_from bs :
  length bs = HEADER_SIZE → Forall (λ b, b < 256) bs →
  header_to_bytes (header_from_bytes bs) = bs.
Proof.
  unfold HEADER_SIZE. intros Hl Hb. unfold header_to_bytes, header_prefix, header_from_bytes.
  cbn [rh_magic rh_format_version rh_record_type rh_lsn rh_tenant_id rh_vshard_id rh_payload_len
    rh_database_id rh_apply_key rh_event_source rh_commit_hlc rh_crc32c].
  rewrite !to_le_le_at by (done || lia). rewrite <-!app_assoc.
  rewrite (take_ge (drop 59 bs)) by (rewrite length_drop; lia).
  rewrite (take_then_drop 51 8), (take_then_drop 50 1), (take_then_drop 42 8),
    (take_then_drop 34 8), (take_then_drop 30 4), (take_then_drop 26 4), (take_then_drop 18 8),
    (take_then_drop 10 8), (take_then_drop 6 4), (take_then_drop 4 2), (take_then_drop 0 4).
  apply drop_0.
Qed.

(** A field read from bytes is within its width. *)
Lemma le_at_lt lo n bs w :
  Forall (λ b, b < 256) bs → 256 ^ N.of_nat n = w → le_at lo n bs < w.
Proof.
  intros Hb <-. unfold le_at. eapply N.lt_le_trans.
  - apply from_le_lt. by apply Forall_take, Forall_drop.
  - apply N.pow_le_mono_r; [done|]. rewrite length_take. lia.
Qed.

Lemma header_from_bytes_fits bs : Forall (λ b, b < 256) bs → header_fits (header_from_bytes bs).
Proof. intros. split; simpl; by apply le_at_lt. Qed.

Lemma header_to_bytes_bytes h : Forall (λ b, b < 256) (header_to_bytes h).
Proof.
  unfold header_to_bytes, header_prefix. rewrite !Forall_app. split_and!; apply to_le_bytes.
Qed.

(** ** Record types *)

Lemma from_raw_record_type t : from_raw (record_type_raw t) = Some t.
Proof. by destruct t. Qed.

Lemma from_raw_inv raw t : from_raw raw = Some t → raw = record_type_raw t.
Proof.
  unfold from_raw. repeat (case_match; [intros [= <-]; by apply N.eqb_eq|]). done.
Qed.

(** No type uses the encryption bit, so stripping it loses nothing. *)
Lemma record_type_plain t : N.land (record_type_raw t) ENCRYPTED_FLAG = 0.
Proof. by destruct t. Qed.

Lemma strip_encrypted_plain t : strip_encrypted (record_type_raw t) = record_type_raw t.
Proof. by destruct t. Qed.

Lemma strip_encrypted_flagged t :
  strip_encrypted (N.lor (record_type_raw t) ENCRYPTED_FLAG) = record_type_raw t.
Proof. by destruct t. Qed.

Lemma is_encrypted_flagged r t :
  rh_record_type (wr_header r) = N.lor (record_type_raw t) ENCRYPTED_FLAG → is_encrypted r = true.
Proof. unfold is_encrypted. intros ->. by destruct t. Qed.

Lemma record_type_lt t : record_type_raw t < 2 ^ 16.
Proof. by destruct t. Qed.

(** ** Well-formed records *)

(** What the code relies on of the checksum crate: results are [u32]s. *)
Class Crc32cLaws `{Crc32c} : Prop := {
  crc32c_lt bs : crc32c bs < 2 ^ 32;
  crc32c_append_lt crc bs : crc32c_append crc bs < 2 ^ 32;
}.

Section records.
Context `{Crc32c}.

Record record_wf (r : WalRecord) : Prop := MkRecordWf {
  wf_fits : header_fits (wr_header r);
  wf_magic : rh_magic (wr_header r) = WAL_MAGIC;
  wf_version : rh_format_version (wr_header r) = WAL_FORMAT_VERSION;
  wf_len : rh_payload_len (wr_header r) = N.of_nat (length (wr_payload r));
  wf_max : N.of_nat (length (wr_payload r)) ≤ MAX_WAL_PAYLOAD_SIZE;
  wf_sum : rh_crc32c (wr_header r) = compute_checksum (wr_header r) (wr_payload r);
}.

Lemma compute_checksum_prefix h payload :
  compute_checksum h payload = crc32c_append (crc32c (header_prefix h)) payload.
Proof.
  unfold compute_checksum, header_to_bytes, HEADER_SIZE.
  by rewrite take_app_length' by by rewrite length_header_prefix.
Qed.

Lemma length_record_to_bytes r : N.of_nat (length (record_to_bytes r)) = wire_size r.
Proof. unfold record_to_bytes, wire_size. rewrite length_app, length_header_to_bytes. lia. Qed.

Lemma wf_validate off r : record_wf r → header_validate off (wr_header r) = Ok tt.
Proof.
  intros Hwf. unfold header_validate. destruct Hwf as [_ -> -> -> Hm _].
  simpl. by rewrite (proj2 (N.ltb_ge _ _)).
Qed.

Lemma wf_verify r : record_wf r → verify_checksum r = Ok tt.
Proof. intros [_ _ _ _ _ Hs]. unfold verify_checksum. by rewrite Hs, N.eqb_refl. Qed.
End records.

(** ** Records the constructors return *)

(** The caller's numbers are within their widths; the LSN, tenant and so on
    have these types in the source. *)
Record args_fit (args : WalRecordArgs) (stamp : RecordStamp) : Prop := MkArgsFit {
  af_type : ra_record_type args < 2 ^ 32;
  af_lsn : ra_lsn args < 2 ^ 64;
  af_tenant : ra_tenant_id args < 2 ^ 64;
  af_vshard : ra_vshard_id args < 2 ^ 32;
  af_database : ra_database_id args < 2 ^ 64;
  af_apply_key : st_apply_key stamp < 2 ^ 64;
  af_source : st_event_source stamp < 2 ^ 8;
  af_hlc : st_commit_hlc stamp < 2 ^ 64;
}.

Section seal.
Context `{Crc32c, !Crc32cLaws}.

Lemma compute_checksum_lt h payload : compute_checksum h payload < 2 ^ 32.
Proof. apply crc32c_append_lt. Qed.

(** The checksum does not cover its own field. *)
Lemma compute_checksum_crc h payload c :
  compute_checksum (h {{ rh_crc32c := c }}) payload = compute_checksum h payload.
Proof. by rewrite !compute_checksum_prefix. Qed.

Lemma seal_record_wf args stamp type payload :
  args_fit args stamp → type < 2 ^ 32 → N.of_nat (length payload) ≤ MAX_WAL_PAYLOAD_SIZE →
  record_wf (seal_record
    (MkWalRecord (args_header args stamp type (N.of_nat (length payload) mod 2 ^ 32)) payload)).
Proof.
  intros [] Ht Hm. unfold MAX_WAL_PAYLOAD_SIZE in Hm.
  assert (N.of_nat (length payload) mod 2 ^ 32 = N.of_nat (length payload)) as ->
    by (apply N.mod_small; lia).
  split; [|done|done|done|done|]; simpl.
  - split; simpl; try done; [lia|apply compute_checksum_lt].
  - symmetry. apply compute_checksum_crc.
Qed.
End seal.

Section construct.
Context `{Crc32c, !Crc32cLaws, Aes256Gcm}.

Lemma record_new_plain_wf args stamp r :
  args_fit args stamp → ra_encryption_key args = None → new_stamped args stamp = Ok r →
  record_wf r ∧ wr_payload r = ra_payload args ∧ rh_lsn (wr_header r) = ra_lsn args ∧
  rh_record_type (wr_header r) = ra_record_type args.
Proof.
  intros Hf Hk. unfold new_stamped. case_match eqn:Hm; [done|]. rewrite Hk. simpl.
  apply N.ltb_ge in Hm. intros [= <-]. split; [|done]. by apply seal_record_wf; [|apply Hf|].
Qed.
End construct.

(** ** Encryption *)

(** AES-GCM decrypts what it encrypted, and adds a tag. *)
Class Aes256GcmLaws `{Aes256Gcm} : Prop := {
  gcm_roundtrip key nonce aad msg c :
    gcm_encrypt key nonce aad msg = Some c → gcm_decrypt key nonce aad c = Some msg;
  gcm_length key nonce aad msg c :
    gcm_encrypt key nonce aad msg = Some c →
    N.of_nat (length c) = N.of_nat (length msg) + AUTH_TAG_SIZE;
}.

Section encryption.
Context `{Crc32c, !Crc32cLaws, Aes256Gcm, !Aes256GcmLaws}.

(** [key] opens records of [ring]: it is the current key, or the previous one
    and the current one does not open this ciphertext. *)
Definition ring_opens (ring : KeyRing) (key : WalEncryptionKey) (nonce aad c : bytes) : Prop :=
  wk_key (kr_current ring) = wk_key key ∨
  gcm_decrypt (wk_key (kr_current ring)) nonce aad c = None ∧
  ∃ prev, kr_previous ring = Some prev ∧ wk_key prev = wk_key key.

Lemma ring_decrypts ring key lsn aad msg c :
  encrypt_aad key lsn aad msg = Ok c →
  ring_opens ring key (lsn_to_nonce (wk_epoch key) lsn) aad c →
  ring_decrypt_aad ring (wk_epoch key) lsn aad c = Ok msg.
Proof.
  unfold encrypt_aad, ring_decrypt_aad, decrypt_aad.
  destruct (gcm_encrypt _ _ _ _) as [c'|] eqn:He; [|done]. intros [= <-].
  apply gcm_roundtrip in He.
  intros [-> | [-> (prev & -> & ->)]]; by rewrite He.
Qed.

(** The record encryption stores, before its checksum. *)
Definition encrypted_header (args : WalRecordArgs) (stamp : RecordStamp) (c : bytes) : RecordHeader :=
  args_header args stamp (N.lor (ra_record_type args) ENCRYPTED_FLAG)
    (N.of_nat (length c) mod 2 ^ 32).

Definition args_aad (args : WalRecordArgs) (stamp : RecordStamp) : bytes :=
  build_aad (ra_preamble_bytes args)
    (header_to_bytes (args_header args stamp (ra_record_type args) 0)).

Lemma new_stamped_encrypted args stamp key r :
  ra_encryption_key args = Some key → new_stamped args stamp = Ok r →
  N.of_nat (length (ra_payload args)) ≤ MAX_WAL_PAYLOAD_SIZE ∧
  ∃ c, encrypt_aad key (ra_lsn args) (args_aad args stamp) (ra_payload args) = Ok c ∧
    r = seal_record (MkWalRecord (encrypted_header args stamp c) c).
Proof.
  intros Hk. unfold new_stamped. destruct (N.ltb_spec MAX_WAL_PAYLOAD_SIZE
    (N.of_nat (length (ra_payload args)))) as [|Hm]; [done|]. rewrite Hk.
  fold (args_aad args stamp).
  destruct (encrypt_aad _ _ _ _) as [c|e] eqn:He; [|done]. simpl. intros [= <-].
  split; [done|]. by exists c.
Qed.

(** C28. Encryption is transparent: a record built with a key carries the
    encryption flag and its ciphertext, and a reader of the segment whose ring
    holds the key, as current or as previous key, turns it into exactly the
    record that the same call without a key builds, checksum included. *)
Theorem encryption_transparent args stamp t key p ring r :
  ra_record_type args = record_type_raw t →
  ra_encryption_key args = Some key → ra_preamble_bytes args = Some (preamble_to_bytes p) →
  sp_epoch p = wk_epoch key → new_stamped args stamp = Ok r →
  ring_opens ring key (lsn_to_nonce (wk_epoch key) (ra_lsn args)) (args_aad args stamp)
    (wr_payload r) →
  is_encrypted r = true ∧
  ∃ plain, decrypt_record (Some p) (Some ring) r = Ok plain ∧
    new_stamped (args {{ ra_encryption_key := None }}) stamp = Ok plain.
Proof.
  intros Ht Hk Hp He Hr Hopen. apply (new_stamped_encrypted _ _ _ _ Hk) in Hr as (Hm & c & Hc & ->).
  assert (is_encrypted (seal_record (MkWalRecord (encrypted_header args stamp c) c)) = true) as Henc
    by (apply (is_encrypted_flagged _ t); simpl; by rewrite Ht).
  split; [done|]. unfold decrypt_record, into_decrypted, decrypt_payload_ring. rewrite Henc. simpl.
  assert (strip_encrypted (N.lor (ra_record_type args) ENCRYPTED_FLAG) = ra_record_type args) as Hs
    by (rewrite Ht; apply strip_encrypted_flagged).
  pose proof (ring_decrypts _ _ _ _ _ _ Hc Hopen) as Hd. unfold args_aad in Hd.
  rewrite Hp in Hd. unfold build_aad in Hd. rewrite He.
  replace (upd rh_crc32c (λ _, 0) _) with (args_header args stamp (ra_record_type args) 0)
    by (rewrite <-Hs at 1; reflexivity).
  rewrite Hd. simpl. unfold MAX_WAL_PAYLOAD_SIZE in Hm.
  rewrite (proj2 (N.ltb_ge _ _)) by (unfold u32_max; lia). eexists. split; [done|].
  unfold new_stamped. simpl. rewrite (proj2 (N.ltb_ge _ _)) by (unfold MAX_WAL_PAYLOAD_SIZE; lia).
  rewrite N.mod_small by lia. rewrite <-Hs at 1. reflexivity.
Qed.
End encryption.

(** ** Padding *)

Lemma round_up_pow v k : round_up v (2 ^ k) = (v + 2 ^ k - 1) / 2 ^ k * 2 ^ k.
Proof.
  unfold round_up. replace (2 ^ k - 1) with (N.ones k) by (rewrite N.ones_equiv; lia).
  by rewrite N.ldiff_ones_r, N.shiftr_div_pow2, N.shiftl_mul_pow2.
Qed.

Lemma round_up_bounds v k : v ≤ round_up v (2 ^ k) < v + 2 ^ k.
Proof.
  rewrite round_up_pow. pose proof (N.pow_nonzero 2 k ltac:(done)) as Hk.
  pose proof (N.div_mod (v + 2 ^ k - 1) (2 ^ k) Hk) as Hd.
  pose proof (N.mod_lt (v + 2 ^ k - 1) (2 ^ k) Hk) as Hl. revert Hd Hl.
  generalize ((v + 2 ^ k - 1) / 2 ^ k) as q, ((v + 2 ^ k - 1) mod 2 ^ k) as m. intros q m. nia.
Qed.

Lemma round_up_aligned v k : round_up v (2 ^ k) mod 2 ^ k = 0.
Proof. rewrite round_up_pow. apply N.Div0.mod_mul. Qed.

Lemma round_up_fixed v k : v mod 2 ^ k = 0 → round_up v (2 ^ k) = v.
Proof.
  intros Hv. pose proof (N.pow_nonzero 2 k ltac:(done)) as Hk.
  apply N.Div0.mod_divides in Hv as [c ->]. rewrite round_up_pow.
  replace (2 ^ k * c + 2 ^ k - 1) with (2 ^ k - 1 + c * 2 ^ k) by lia.
  rewrite N.div_add by done. rewrite N.div_small by lia. lia.
Qed.

Lemma padding_span_none len k : padding_span len (2 ^ k) = None ↔ len mod 2 ^ k = 0.
Proof.
  unfold padding_span. pose proof (round_up_bounds len k) as Hb.
  pose proof (round_up_aligned len k) as Ha. split.
  - destruct (N.eqb_spec (round_up len (2 ^ k) - len) 0) as [Hz|]; [|by case_match].
    intros _. by replace len with (round_up len (2 ^ k)) by lia.
  - intros Hl. by rewrite round_up_fixed, N.sub_diag by done.
Qed.

(** A span ends on a boundary, holds a header and stays within the reserve. *)
Lemma padding_span_some len k span :
  6 ≤ k → padding_span len (2 ^ k) = Some span →
  (len + span) mod 2 ^ k = 0 ∧ MIN_PADDING_RECORD_SIZE ≤ span < 2 ^ k + MIN_PADDING_RECORD_SIZE.
Proof.
  intros Hk. unfold padding_span, MIN_PADDING_RECORD_SIZE. change (N.of_nat HEADER_SIZE) with 63.
  assert (2 ^ 6 ≤ 2 ^ k) as H6 by by apply N.pow_le_mono_r.
  pose proof (round_up_bounds len k) as Hb. pose proof (round_up_aligned len k) as Ha.
  destruct (N.eqb_spec (round_up len (2 ^ k) - len) 0); [done|].
  destruct (N.ltb_spec (round_up len (2 ^ k) - len) 63); intros [= <-].
  - split; [|lia]. replace (len + _) with (round_up len (2 ^ k) + 1 * 2 ^ k) by lia.
    by rewrite N.Div0.mod_add.
  - split; [|lia]. by replace (len + _) with (round_up len (2 ^ k)) by lia.
Qed.

#[global] Opaque header_to_bytes.
