(* ===== verification/WalReader.v ===== *)
(** * Reading a WAL segment

    The sequential reader ([nodedb-wal/src/reader.rs]), the slots of the
    double-write buffer it repairs torn records from ([double_write/layout.rs],
    [double_write/recover.rs]), the scan that tells a torn tail from a hole
    ([torn_tail.rs]) and recovery ([recovery.rs]).

    A file is its bytes. A read fails only at the end of the file or when its
    offset leaves the [u64] range; the reader's [offset] is also the cursor of
    its file. Loops that the source leaves by [return] run on fuel; the fuel
    each is given is shown to be enough in [WalReaderFacts]. *)

From stdpp Require Import base option list.
From S2P Require Import Prelude WalRecord.

Open Scope N_scope.

(** ** Files *)

Definition flen (file : bytes) : u64 := N.of_nat (length file).

(** [file[off..off + n]], shorter at the end of the file. *)
Definition slice (file : bytes) (off n : N) : bytes :=
  take (N.to_nat n) (drop (N.to_nat off) file).

Inductive ReadExact : Type :=
  | ReadOk (buf : bytes) (next_offset : u64)
  | UnexpectedEof
  | ReadErr (e : WalError).

Definition checked_offset_add (offset : u64) (len : usize) : result WalError u64 :=
  if offset + len <? 2 ^ 64 then Ok (offset + len) else Err WalIo.

(** [WalReader::read_exact]. *)
Definition read_exact (file : bytes) (offset : u64) (n : usize) : ReadExact :=
  match checked_offset_add offset n with
  | Err e => ReadErr e
  | Ok next_offset =>
      if offset + n <=? flen file then ReadOk (slice file offset n) next_offset
      else UnexpectedEof
  end.

(** ** The slots of the double-write buffer *)

Definition DWB_CAPACITY : nat := 64.
Definition DWB_SLOT_RECORD_MAX : usize := 64 * 1024.
(** "DWSB". *)
Definition DWB_SLOT_MAGIC : u32 := 1146573634.
Definition SLOT_PREFIX_SIZE : nat := 20.
Definition DEFAULT_ALIGNMENT : usize := 4096.
Definition DWB_SLOT_STRIDE : usize :=
  round_up (N.of_nat SLOT_PREFIX_SIZE + N.of_nat HEADER_SIZE + DWB_SLOT_RECORD_MAX)
    DEFAULT_ALIGNMENT.
Definition DWB_HEADER_STRIDE : usize := DEFAULT_ALIGNMENT.

Definition slot_offset (idx : u32) : u64 :=
  DWB_HEADER_STRIDE + (idx mod N.of_nat DWB_CAPACITY) * DWB_SLOT_STRIDE.

Record SlotPrefix : Type := MkSlotPrefix {
  slot_seq : u64;
  slot_total_size : usize;
}.

(** A record from the bytes a slot frames. *)
Definition decode_record (bs : bytes) : option WalRecord :=
  if (length bs <? HEADER_SIZE)%nat then None
  else
    let header := header_from_bytes (take HEADER_SIZE bs) in
    if negb (rh_magic header =? WAL_MAGIC) then None
    else Some (MkWalRecord header (drop HEADER_SIZE bs)).

Section dwb.
Context `{Crc32c}.

Definition slot_prefix_encode (p : SlotPrefix) : bytes :=
  let head := to_le 4 DWB_SLOT_MAGIC ++ to_le 8 (slot_seq p) ++
              to_le 4 (slot_total_size p mod 2 ^ 32) in
  head ++ to_le 4 (crc32c head).

Definition slot_prefix_decode (bs : bytes) : option SlotPrefix :=
  if (length bs <? SLOT_PREFIX_SIZE)%nat then None
  else if negb (le_at 0 4 bs =? DWB_SLOT_MAGIC) then None
  else if negb (le_at 16 4 bs =? crc32c (take 16 bs)) then None
  else
    let total_size := le_at 12 4 bs in
    if negb ((N.of_nat HEADER_SIZE <=? total_size) && (total_size <=? DWB_SLOT_RECORD_MAX))
    then None
    else Some (MkSlotPrefix (le_at 4 8 bs) total_size).

(** The record bytes slot [i] of a buffer file frames, with its prefix. *)
Definition slot_frame (dwb : bytes) (i : nat) : option (SlotPrefix * bytes) :=
  let bs := slice dwb (slot_offset (N.of_nat i)) DWB_SLOT_STRIDE in
  match slot_prefix_decode bs with
  | None => None
  | Some prefix =>
      let stop := (SLOT_PREFIX_SIZE + N.to_nat (slot_total_size prefix))%nat in
      if (length bs <? stop)%nat then None
      else Some (prefix, drop SLOT_PREFIX_SIZE (take stop bs))
  end.

(** The closure of [recover_record]: keep the copy with the highest sequence
    number. *)
Definition better_copy (target_lsn : u64) (best : option (u64 * WalRecord))
    (frame : option (SlotPrefix * bytes)) : option (u64 * WalRecord) :=
  match frame with
  | None => best
  | Some (prefix, record_bytes) =>
      match decode_record record_bytes with
      | None => best
      | Some record =>
          if negb (rh_lsn (wr_header record) =? target_lsn) || negb (is_ok (verify_checksum record))
          then best
          else
            match best with
            | None => Some (slot_seq prefix, record)
            | Some (seq, _) =>
                if seq <? slot_seq prefix then Some (slot_seq prefix, record) else best
            end
      end
  end.

(** [DoubleWriteBuffer::recover_record] on the buffer file's bytes. *)
Definition recover_record (target_lsn : u64) (dwb : bytes) : option WalRecord :=
  snd <$> foldl (better_copy target_lsn) None (slot_frame dwb <$> seq 0 DWB_CAPACITY).
End dwb.

(** ** The reader *)

Inductive StopReason : Type :=
  | Eof
  | Corruption (offset : u64).

Record WalReader : Type := MkWalReader {
  rd_file : bytes;
  rd_offset : u64;
  rd_records_start : u64;
  rd_segment_preamble : option SegmentPreamble;
  rd_double_write : option bytes;
  rd_stop_reason : option StopReason;
  rd_committed_end : u64;
  (** The key ring of the decryptor; [None] in raw mode. *)
  rd_decryptor : option (option KeyRing);
}.

#[export] Instance eta_WalReader : Eta WalReader := λ r,
  MkWalReader (rd_file r) (rd_offset r) (rd_records_start r) (rd_segment_preamble r)
    (rd_double_write r) (rd_stop_reason r) (rd_committed_end r) (rd_decryptor r).

(** [open_raw] on a segment and, when it exists and opens, the buffer file
    beside it. *)
Definition open_raw (file : bytes) (dwb : option bytes) : result WalError WalReader :=
  let? start := read_leading_preamble file WAL_PREAMBLE_MAGIC in
  let '(segment_preamble, start_offset) := start in
  Ok {| rd_file := file;
        rd_offset := start_offset;
        rd_records_start := start_offset;
        rd_segment_preamble := segment_preamble;
        rd_double_write := dwb;
        rd_stop_reason := None;
        rd_committed_end := start_offset;
        rd_decryptor := None |}.

(** [WalReader::open]. *)
Definition reader_open (file : bytes) (dwb : option bytes) (keys : option KeyRing) :
    result WalError WalReader :=
  let? reader := open_raw file dwb in
  Ok (reader {{ rd_decryptor := Some keys }}).

(** [read_declared_payload] ([foreign_version.rs]). *)
Definition read_declared_payload (file : bytes) (h : RecordHeader) (payload_start : u64) :
    option bytes :=
  let len := rh_payload_len h in
  if MAX_WAL_PAYLOAD_SIZE <? len then None
  else if (payload_start + len <? 2 ^ 64) && (payload_start + len <=? flen file) then
    Some (slice file payload_start len)
  else None.

(** One iteration of the loop of [next_record]. *)
Inductive ReadStep : Type :=
  | Continue
  | Return (r : result WalError (option WalRecord)).

(** [WalReader::stop]. *)
Definition rd_stop (reason : StopReason) (rd : WalReader) : WalReader * ReadStep :=
  (rd {{ rd_stop_reason := Some reason }}, Return (Ok None)).

Section reader.
Context `{Crc32c, Aes256Gcm}.

Definition deliver (rd : WalReader) (record : WalRecord) : result WalError (option WalRecord) :=
  match rd_decryptor rd with
  | Some ring =>
      let? r := decrypt_record (rd_segment_preamble rd) ring record in
      Ok (Some r)
  | None => Ok (Some record)
  end.

Definition repair_torn_record (h : RecordHeader) (header_offset : u64) (rd : WalReader) :
    WalReader * result WalError (option WalRecord) :=
  match rd_double_write rd with
  | None => (rd, Ok None)
  | Some dwb =>
      match recover_record (rh_lsn h) dwb with
      | None => (rd, Ok None)
      | Some recovered =>
          let resume :=
            let? after_header := checked_offset_add header_offset (N.of_nat HEADER_SIZE) in
            checked_offset_add after_header (N.of_nat (length (wr_payload recovered))) in
          match resume with
          | Err e => (rd, Err e)
          | Ok resume =>
              (rd {{ rd_offset := resume; rd_committed_end := resume }}, Ok (Some recovered))
          end
      end
  end.

(** The end of an iteration, once header and payload are read. *)
Definition judge_record (record : WalRecord) (header_offset : u64) (rd : WalReader) :
    WalReader * ReadStep :=
  let h := wr_header record in
  match verify_checksum record with
  | Err _ =>
      match repair_torn_record h header_offset rd with
      | (rd, Err e) => (rd, Return (Err e))
      | (rd, Ok (Some recovered)) => (rd, Return (deliver rd recovered))
      | (rd, Ok None) => rd_stop (Corruption header_offset) rd
      end
  | Ok _ =>
      let rd := rd {{ rd_committed_end := rd_offset rd }} in
      let logical_type := logical_record_type record in
      match from_raw logical_type with
      | None =>
          if is_required logical_type then
            (rd, Return (Err (UnknownRequiredRecordType (rh_record_type h) (rh_lsn h))))
          else (rd, Continue)
      | Some kind =>
          if bool_decide (kind = Noop) then (rd, Continue)
          else (rd, Return (deliver rd record))
      end
  end.

Definition read_step (rd : WalReader) : WalReader * ReadStep :=
  let record_offset := rd_offset rd in
  match read_exact (rd_file rd) record_offset (N.of_nat HEADER_SIZE) with
  | UnexpectedEof =>
      rd_stop (if record_offset =? flen (rd_file rd) then Eof else Corruption record_offset) rd
  | ReadErr e => (rd, Return (Err e))
  | ReadOk header_buf next_offset =>
      let rd := rd {{ rd_offset := next_offset }} in
      let h := header_from_bytes header_buf in
      let header_offset := rd_offset rd - N.of_nat HEADER_SIZE in
      match header_validate header_offset h with
      | Err (PayloadTooLarge size max) => (rd, Return (Err (PayloadTooLarge size max)))
      | Err (UnsupportedVersion version supported) =>
          if may_be_format_gap h (header_offset =? rd_records_start rd) &&
             is_format_gap h (read_declared_payload (rd_file rd) h (rd_offset rd))
          then (rd, Return (Err (UnsupportedVersion version supported)))
          else rd_stop (Corruption header_offset) rd
      | Err _ => rd_stop (Corruption header_offset) rd
      | Ok _ =>
          if rh_payload_len h =? 0 then judge_record (MkWalRecord h []) header_offset rd
          else
            match read_exact (rd_file rd) (rd_offset rd) (rh_payload_len h) with
            | UnexpectedEof => rd_stop (Corruption header_offset) rd
            | ReadErr e => (rd, Return (Err e))
            | ReadOk payload next_offset =>
                judge_record (MkWalRecord h payload) header_offset
                  (rd {{ rd_offset := next_offset }})
            end
      end
  end.

Fixpoint next_record_fuel (fuel : nat) (rd : WalReader) :
    option (WalReader * result WalError (option WalRecord)) :=
  match fuel with
  | O => None
  | S fuel =>
      match read_step rd with
      | (rd, Continue) => next_record_fuel fuel rd
      | (rd, Return r) => Some (rd, r)
      end
  end.

(** Each iteration consumes a header, so the file's length bounds them. *)
Definition next_record (rd : WalReader) :
    option (WalReader * result WalError (option WalRecord)) :=
  next_record_fuel (S (length (rd_file rd))) rd.

(** [records()] run to its end: the records it yields, the reader it leaves,
    and the error it ends with, if any. *)
Fixpoint records_fuel (fuel : nat) (rd : WalReader) :
    option (list WalRecord * WalReader * result WalError unit) :=
  match fuel with
  | O => None
  | S fuel =>
      match next_record rd with
      | None => None
      | Some (rd, Err e) => Some ([], rd, Err e)
      | Some (rd, Ok None) => Some ([], rd, Ok tt)
      | Some (rd, Ok (Some record)) =>
          match records_fuel fuel rd with
          | None => None
          | Some (rs, rd, e) => Some (record :: rs, rd, e)
          end
      end
  end.

Definition records (rd : WalReader) : option (list WalRecord * WalReader * result WalError unit) :=
  records_fuel (S (length (rd_file rd))) rd.
End reader.

(** ** Torn tails *)

Definition SCAN_CHUNK : usize := 2 ^ 20.

Inductive TailVerdict : Type :=
  | TornTail
  | HoleAt (resync_offset resync_lsn : u64).

Section torn_tail.
Context `{Crc32c}.

Definition intact_record_lsn (file : bytes) (offset : u64) : option u64 :=
  let header_end := offset + N.of_nat HEADER_SIZE in
  if negb ((header_end <? 2 ^ 64) && (header_end <=? flen file)) then None
  else
    let h := header_from_bytes (slice file offset (N.of_nat HEADER_SIZE)) in
    match header_validate offset h with
    | Err _ => None
    | Ok _ =>
        let payload_end := header_end + rh_payload_len h in
        if negb ((payload_end <? 2 ^ 64) && (payload_end <=? flen file)) then None
        else
          let record := MkWalRecord h (slice file header_end (rh_payload_len h)) in
          match verify_checksum record with
          | Err _ => None
          | Ok _ => Some (rh_lsn h)
          end
    end.

(** The [windows] loop over one chunk, from offset [candidate]. *)
Fixpoint scan_window (file : bytes) (last_lsn candidate : u64) (window : bytes) :
    option (u64 * u64) :=
  match window with
  | [] => None
  | _ :: rest =>
      let continue := scan_window file last_lsn (candidate + 1) rest in
      if negb (bool_decide (take 4 window = to_le 4 WAL_MAGIC)) then continue
      else
        match intact_record_lsn file candidate with
        | Some resync_lsn =>
            if last_lsn <? resync_lsn then Some (candidate, resync_lsn) else continue
        | None => continue
        end
  end.

(** The [while] loop; [chunk] is [SCAN_CHUNK]. *)
Fixpoint classify_fuel (fuel : nat) (chunk : usize) (file : bytes) (last_lsn base : u64) :
    option TailVerdict :=
  match fuel with
  | O => None
  | S fuel =>
      if base <? flen file then
        let want := N.min chunk (flen file - base) in
        let window := slice file base want in
        let filled := N.of_nat (length window) in
        if filled <? 4 then Some TornTail
        else
          match scan_window file last_lsn base window with
          | Some (resync_offset, resync_lsn) => Some (HoleAt resync_offset resync_lsn)
          | None => classify_fuel fuel chunk file last_lsn (sat_add64 base (filled - 3))
          end
      else Some TornTail
  end.

Definition classify (file : bytes) (corruption_offset last_lsn : u64) : option TailVerdict :=
  let start := sat_add64 corruption_offset 1 in
  if flen file <=? start then Some TornTail
  else classify_fuel (S (length file)) SCAN_CHUNK file last_lsn start.

(** [verify_committed_prefix]. *)
Definition verify_committed_prefix (file : bytes) (stop : option StopReason) (last_lsn : u64) :
    option (result WalError unit) :=
  match stop with
  | Some (Corruption offset) =>
      match classify file offset last_lsn with
      | None => None
      | Some TornTail => Some (Ok tt)
      | Some (HoleAt resync_offset resync_lsn) =>
          Some (Err (MidFileCorruption offset resync_offset resync_lsn))
      end
  | _ => Some (Ok tt)
  end.
End torn_tail.

(** ** Recovery *)

Record RecoveryInfo : Type := MkRecoveryInfo {
  ri_last_lsn : u64;
  ri_record_count : u64;
  ri_end_offset : u64;
}.

Definition ri_next_lsn (i : RecoveryInfo) : u64 := ri_last_lsn i + 1.

Section recovery.
Context `{Crc32c, Aes256Gcm}.

(** The loop of [recover]. *)
Fixpoint recover_fuel (fuel : nat) (rd : WalReader) (last_lsn record_count : u64) :
    option (result WalError (WalReader * u64 * u64)) :=
  match fuel with
  | O => None
  | S fuel =>
      match next_record rd with
      | None => None
      | Some (rd, Ok (Some record)) =>
          recover_fuel fuel rd (rh_lsn (wr_header record)) (record_count + 1)
      | Some (rd, Ok None) => Some (Ok (rd, last_lsn, record_count))
      | Some (_, Err e) => Some (Err (with_segment_path e))
      end
  end.

(** [recover] on the segment file, if there is one, and its buffer file. *)
Definition recover (file : option bytes) (dwb : option bytes) :
    option (result WalError RecoveryInfo) :=
  match file with
  | None => Some (Ok (MkRecoveryInfo 0 0 0))
  | Some file =>
      match open_raw file dwb with
      | Err e => Some (Err e)
      | Ok rd =>
          match recover_fuel (S (length file)) rd 0 0 with
          | None => None
          | Some (Err e) => Some (Err e)
          | Some (Ok (rd, last_lsn, record_count)) =>
              match verify_committed_prefix file (rd_stop_reason rd) last_lsn with
              | None => None
              | Some (Err e) => Some (Err e)
              | Some (Ok _) =>
                  Some (Ok (MkRecoveryInfo last_lsn record_count (rd_committed_end rd)))
              end
          end
      end
  end.
End recovery.
