(* ===== verification/WalReaderFacts.v ===== *)
(** * Facts on the WAL reader

    The reader and the scans terminate on every file; an intact record is read
    exactly as it was written; the chunked scan of [classify] finds what a scan
    of every offset finds; and recovery of a segment image is characterised in
    full. *)

From Stdlib Require Import Lia.
From stdpp Require Import base option list.
From S2P Require Import Prelude WalRecord WalRecordFacts WalReader.

Open Scope N_scope.

(** ** Slices *)

Lemma flen_app a b : flen (a ++ b) = flen a + flen b.
Proof. unfold flen. rewrite length_app. lia. Qed.

Lemma length_slice file off n :
  off + n ≤ flen file → N.of_nat (length (slice file off n)) = n.
Proof. unfold flen, slice. intros. rewrite length_take, length_drop. lia. Qed.

Lemma slice_here a b rest : slice (a ++ b ++ rest) (flen a) (flen b) = b.
Proof.
  unfold slice, flen. rewrite !Nat2N.id.
  rewrite drop_app_length. apply take_app_length.
Qed.

Lemma slice_bytes file off n :
  Forall (λ b, b < 256) file → Forall (λ b, b < 256) (slice file off n).
Proof. intros. by apply Forall_take, Forall_drop. Qed.

(** A file split at a slice. *)
Lemma slice_split file off n :
  off + n ≤ flen file →
  file = take (N.to_nat off) file ++ slice file off n ++ drop (N.to_nat (off + n)) file.
Proof.
  intros. unfold slice. replace (N.to_nat (off + n)) with (N.to_nat off + N.to_nat n)%nat by lia.
  by rewrite <-drop_drop, take_drop, take_drop.
Qed.

Lemma flen_take file off : off ≤ flen file → flen (take (N.to_nat off) file) = off.
Proof. unfold flen. intros. rewrite length_take. lia. Qed.

Lemma read_exact_here a b rest :
  flen (a ++ b ++ rest) < 2 ^ 64 →
  read_exact (a ++ b ++ rest) (flen a) (flen b) = ReadOk b (flen a + flen b).
Proof.
  rewrite !flen_app. intros. unfold read_exact, checked_offset_add.
  rewrite (proj2 (N.ltb_lt _ _)) by lia. rewrite (proj2 (N.leb_le _ _)) by (rewrite !flen_app; lia).
  by rewrite slice_here.
Qed.

Lemma read_exact_eof file off n :
  off + n < 2 ^ 64 → flen file < off + n → read_exact file off n = UnexpectedEof.
Proof.
  intros. unfold read_exact, checked_offset_add. rewrite (proj2 (N.ltb_lt _ _)) by lia.
  by rewrite (proj2 (N.leb_gt _ _)) by lia.
Qed.

Lemma read_exact_ok file off n buf next :
  read_exact file off n = ReadOk buf next →
  next = off + n ∧ off + n ≤ flen file ∧ off + n < 2 ^ 64 ∧ buf = slice file off n.
Proof.
  unfold read_exact, checked_offset_add. destruct (N.ltb_spec (off + n) (2 ^ 64)); [|done].
  destruct (N.leb_spec (off + n) (flen file)); [|done]. by intros [= <- <-].
Qed.

(** ** Progress and termination *)

(** What a step leaves alone. *)
Definition same_source (rd rd' : WalReader) : Prop :=
  rd_file rd' = rd_file rd ∧ rd_records_start rd' = rd_records_start rd ∧
  rd_segment_preamble rd' = rd_segment_preamble rd ∧ rd_double_write rd' = rd_double_write rd ∧
  rd_decryptor rd' = rd_decryptor rd.

(** A step that goes on, or delivers a record, has consumed a header. *)
Definition goes_on (s : ReadStep) : bool :=
  match s with Continue | Return (Ok (Some _)) => true | _ => false end.

Section progress.
Context `{Crc32c, Aes256Gcm}.

Lemma repair_same h off rd rd' r : repair_torn_record h off rd = (rd', r) → same_source rd rd'.
Proof. unfold repair_torn_record, same_source. repeat case_match; by intros [= <- <-]. Qed.

Lemma repair_progress h off rd rd' r :
  repair_torn_record h off rd = (rd', Ok (Some r)) → off + 63 ≤ rd_offset rd'.
Proof.
  unfold repair_torn_record. destruct (rd_double_write rd); [|done].
  destruct (recover_record _ _) as [rec|]; [|done].
  destruct (checked_offset_add off _) as [a|] eqn:Ha; simpl; [|done].
  destruct (checked_offset_add a _) as [b|] eqn:Hb; simpl; [|done].
  intros [= <- <-]. simpl. revert Ha Hb. unfold checked_offset_add.
  repeat case_match; try done. intros [= <-] [= <-]. change (N.of_nat HEADER_SIZE) with 63. lia.
Qed.

Lemma judge_same r off rd rd' s : judge_record r off rd = (rd', s) → same_source rd rd'.
Proof.
  unfold judge_record. destruct (verify_checksum r).
  - repeat case_match; by intros [= <- <-].
  - destruct (repair_torn_record _ _ _) as [rd1 x] eqn:Hr. apply repair_same in Hr.
    by destruct x as [[]|]; intros [= <- <-].
Qed.

Lemma judge_progress r off rd rd' s :
  judge_record r off rd = (rd', s) → goes_on s = true → off + 63 ≤ rd_offset rd →
  off + 63 ≤ rd_offset rd'.
Proof.
  unfold judge_record. destruct (verify_checksum r).
  - repeat case_match; by intros [= <- <-].
  - destruct (repair_torn_record _ _ _) as [rd1 x] eqn:Hr.
    destruct x as [[rec|]|]; [|by intros [= <- <-] ..].
    intros [= <- <-] _ _. by eapply repair_progress.
Qed.

Lemma read_step_same rd rd' s : read_step rd = (rd', s) → same_source rd rd'.
Proof.
  unfold read_step. repeat case_match; try (by intros [= <- <-]); intros Hj;
    apply judge_same in Hj; by destruct Hj as (? & ? & ? & ? & ?).
Qed.

Lemma read_step_progress rd rd' s :
  read_step rd = (rd', s) → goes_on s = true →
  rd_offset rd + 63 ≤ flen (rd_file rd) ∧ rd_offset rd + 63 ≤ rd_offset rd'.
Proof.
  unfold read_step. destruct (read_exact _ _ _) as [buf next| |e] eqn:Hx;
    [|by intros [= <- <-] ..].
  apply read_exact_ok in Hx as (-> & Hle & _ & _). change (N.of_nat HEADER_SIZE) with 63 in *.
  simpl. rewrite N.add_sub. intros Hs Hg. split; [done|]. revert Hs.
  repeat case_match; try (by intros [= <- <-]); intros Hj; eapply judge_progress; try done; simpl;
    repeat match goal with H : read_exact _ _ _ = ReadOk _ _ |- _ =>
      apply read_exact_ok in H as (-> & _) end; lia.
Qed.

Lemma read_step_left rd rd' s :
  read_step rd = (rd', s) → goes_on s = true →
  (length (rd_file rd') - N.to_nat (rd_offset rd') < length (rd_file rd) - N.to_nat (rd_offset rd))%nat.
Proof.
  intros Hs Hg. pose proof (read_step_progress _ _ _ Hs Hg) as [H1 H2].
  apply read_step_same in Hs as (-> & _). unfold flen in H1. lia.
Qed.

Lemma next_record_fuel_some fuel : ∀ rd,
  (length (rd_file rd) - N.to_nat (rd_offset rd) < fuel)%nat →
  ∃ rd' r, next_record_fuel fuel rd = Some (rd', r) ∧ same_source rd rd' ∧
    (∀ rec, r = Ok (Some rec) →
      (length (rd_file rd') - N.to_nat (rd_offset rd') <
       length (rd_file rd) - N.to_nat (rd_offset rd))%nat).
Proof.
  induction fuel as [|fuel IH]; intros rd Hf; [lia|]. simpl.
  destruct (read_step rd) as [rd1 s] eqn:Hs. pose proof (read_step_same _ _ _ Hs) as Hsame.
  destruct s as [|r].
  - pose proof (read_step_left _ _ _ Hs eq_refl) as Hl.
    destruct (IH rd1 ltac:(lia)) as (rd2 & r & -> & Hsame2 & Hleft). exists rd2, r.
    split; [done|]. split.
    + unfold same_source in *. destruct_and!. split_and!; congruence.
    + intros rec Hr. specialize (Hleft rec Hr). lia.
  - exists rd1, r. split; [done|]. split; [done|]. intros rec ->. by apply (read_step_left _ _ _ Hs).
Qed.

Lemma next_record_some rd :
  ∃ rd' r, next_record rd = Some (rd', r) ∧ same_source rd rd' ∧
    (∀ rec, r = Ok (Some rec) →
      (length (rd_file rd') - N.to_nat (rd_offset rd') <
       length (rd_file rd) - N.to_nat (rd_offset rd))%nat).
Proof. apply next_record_fuel_some. lia. Qed.

(** More fuel changes nothing. *)
Lemma next_record_fuel_mono fuel fuel' rd x :
  (fuel ≤ fuel')%nat → next_record_fuel fuel rd = Some x → next_record_fuel fuel' rd = Some x.
Proof.
  revert fuel' rd. induction fuel as [|fuel IH]; intros fuel' rd Hle; [done|].
  destruct fuel' as [|fuel']; [lia|]. simpl. destruct (read_step rd) as [rd1 [|r]]; [|done].
  apply IH. lia.
Qed.

Lemma records_fuel_some fuel : ∀ rd,
  (length (rd_file rd) - N.to_nat (rd_offset rd) < fuel)%nat → is_Some (records_fuel fuel rd).
Proof.
  induction fuel as [|fuel IH]; intros rd Hf; [lia|]. simpl.
  destruct (next_record_some rd) as (rd' & r & -> & _ & Hl).
  destruct r as [[rec|]|e]; [|done..].
  destruct (IH rd') as [[[] ] ->]; [|done]. specialize (Hl rec eq_refl). lia.
Qed.

Lemma recover_fuel_some fuel : ∀ rd lsn n,
  (length (rd_file rd) - N.to_nat (rd_offset rd) < fuel)%nat →
  is_Some (recover_fuel fuel rd lsn n).
Proof.
  induction fuel as [|fuel IH]; intros rd lsn n Hf; [lia|]. simpl.
  destruct (next_record_some rd) as (rd' & r & -> & _ & Hl).
  destruct r as [[rec|]|e]; [|done..]. apply IH. specialize (Hl rec eq_refl). lia.
Qed.

Lemma records_fuel_mono fuel fuel' rd x :
  (fuel ≤ fuel')%nat → records_fuel fuel rd = Some x → records_fuel fuel' rd = Some x.
Proof.
  revert fuel' rd x. induction fuel as [|fuel IH]; intros fuel' rd x Hle; [done|].
  destruct fuel' as [|fuel']; [lia|]. simpl.
  destruct (next_record rd) as [[rd1 [[rec|]|e]]|]; try done.
  destruct (records_fuel fuel rd1) as [y|] eqn:Hy; [|done].
  by rewrite (IH fuel' rd1 y) by (done || lia).
Qed.

Lemma recover_fuel_mono fuel fuel' rd lsn n x :
  (fuel ≤ fuel')%nat → recover_fuel fuel rd lsn n = Some x → recover_fuel fuel' rd lsn n = Some x.
Proof.
  revert fuel' rd lsn n. induction fuel as [|fuel IH]; intros fuel' rd lsn n Hle; [done|].
  destruct fuel' as [|fuel']; [lia|]. simpl.
  destruct (next_record rd) as [[rd1 [[rec|]|e]]|]; try done. apply IH. lia.
Qed.

(** The loops with the fuel they are given, as the source runs them. *)
Lemma next_record_unfold rd :
  next_record rd =
  match read_step rd with
  | (rd1, Continue) => next_record rd1
  | (rd1, Return r) => Some (rd1, r)
  end.
Proof.
  unfold next_record at 1. simpl. destruct (read_step rd) as [rd1 [|r]] eqn:Hs; [|done].
  pose proof (read_step_left _ _ _ Hs eq_refl) as Hl.
  destruct (next_record_fuel_some (length (rd_file rd)) rd1 ltac:(lia)) as (rd2 & r & Hr & _).
  rewrite Hr. symmetry. eapply next_record_fuel_mono; [|done].
  apply read_step_same in Hs as (-> & _). lia.
Qed.

Lemma records_unfold rd :
  records rd =
  match next_record rd with
  | None => None
  | Some (rd1, Err e) => Some ([], rd1, Err e)
  | Some (rd1, Ok None) => Some ([], rd1, Ok tt)
  | Some (rd1, Ok (Some rec)) =>
      match records rd1 with
      | None => None
      | Some (rs, rd2, e) => Some (rec :: rs, rd2, e)
      end
  end.
Proof.
  unfold records at 1. simpl.
  destruct (next_record_some rd) as (rd1 & r & -> & (Hf & _) & Hl).
  destruct r as [[rec|]|e]; [|done..]. specialize (Hl rec eq_refl).
  destruct (records_fuel_some (length (rd_file rd)) rd1 ltac:(lia)) as [x Hx].
  rewrite Hx. unfold records. by rewrite Hf, (records_fuel_mono (length (rd_file rd)) (S (length (rd_file rd))) _ _ ltac:(lia) Hx).
Qed.

Definition recover_run (rd : WalReader) (lsn n : u64) :
    option (result WalError (WalReader * u64 * u64)) :=
  recover_fuel (S (length (rd_file rd))) rd lsn n.

Lemma recover_run_unfold rd lsn n :
  recover_run rd lsn n =
  match next_record rd with
  | None => None
  | Some (rd1, Ok (Some rec)) => recover_run rd1 (rh_lsn (wr_header rec)) (n + 1)
  | Some (rd1, Ok None) => Some (Ok (rd1, lsn, n))
  | Some (_, Err e) => Some (Err (with_segment_path e))
  end.
Proof.
  unfold recover_run at 1. simpl.
  destruct (next_record_some rd) as (rd1 & r & -> & (Hf & _) & Hl).
  destruct r as [[rec|]|e]; [|done..]. specialize (Hl rec eq_refl).
  destruct (recover_fuel_some (length (rd_file rd)) rd1 (rh_lsn (wr_header rec)) (n + 1) ltac:(lia))
    as [x Hx].
  rewrite Hx. unfold recover_run.
  by rewrite Hf, (recover_fuel_mono (length (rd_file rd)) (S (length (rd_file rd))) _ _ _ _ ltac:(lia) Hx).
Qed.

(** ** Runs of the reader *)

(** [rd] delivers [out] and becomes [rd']. *)
Inductive reads : WalReader → list WalRecord → WalReader → Prop :=
  | reads_nil rd : reads rd [] rd
  | reads_skip rd rd1 out rd2 :
      read_step rd = (rd1, Continue) → reads rd1 out rd2 → reads rd out rd2
  | reads_deliver rd rd1 rec out rd2 :
      read_step rd = (rd1, Return (Ok (Some rec))) → reads rd1 out rd2 →
      reads rd (rec :: out) rd2.

Lemma reads_app rd out rd1 out' rd2 :
  reads rd out rd1 → reads rd1 out' rd2 → reads rd (out ++ out') rd2.
Proof. induction 1; simpl; eauto using reads. Qed.

(** What the loops make of a run: its records first, then the rest. *)
Lemma records_reads rd out rd1 :
  reads rd out rd1 →
  ∃ rs rd2 e, records rd1 = Some (rs, rd2, e) ∧ records rd = Some (out ++ rs, rd2, e).
Proof.
  induction 1 as [rd|rd rd1 out rd2 Hs _ IH|rd rd1 rec out rd2 Hs _ IH].
  - destruct (records_fuel_some (S (length (rd_file rd))) rd ltac:(lia)) as [[[rs rd2] e] Hr].
    eauto 10.
  - destruct IH as (rs & rd3 & e & H1 & H2). exists rs, rd3, e. split; [done|].
    rewrite records_unfold, next_record_unfold, Hs, <-records_unfold. done.
  - destruct IH as (rs & rd3 & e & H1 & H2). exists rs, rd3, e. split; [done|].
    by rewrite records_unfold, next_record_unfold, Hs, H2.
Qed.

Definition last_lsn_of (lsn : u64) (out : list WalRecord) : u64 :=
  default lsn ((λ r, rh_lsn (wr_header r)) <$> last out).

Lemma recover_reads rd out rd1 lsn n :
  reads rd out rd1 →
  recover_run rd lsn n = recover_run rd1 (last_lsn_of lsn out) (n + N.of_nat (length out)).
Proof.
  intros Hr. revert lsn n. induction Hr as [rd|rd rd1 out rd2 Hs _ IH|rd rd1 rec out rd2 Hs _ IH];
    intros lsn n.
  - by rewrite N.add_0_r.
  - rewrite <-IH, !recover_run_unfold, (next_record_unfold rd), Hs. done.
  - rewrite recover_run_unfold, next_record_unfold, Hs, IH. f_equal; [|simpl length; lia].
    unfold last_lsn_of. rewrite last_cons. by destruct (last out).
Qed.
End progress.

(** ** Intact records *)

Definition segment_bytes (rs : list WalRecord) : bytes := mjoin (record_to_bytes <$> rs).

(** Replay knows the type, or may skip it. *)
Definition readable (r : WalRecord) : bool :=
  match from_raw (logical_record_type r) with
  | Some _ => true
  | None => negb (is_required (logical_record_type r))
  end.

(** Replay hands the record out: a known type other than padding. *)
Definition surfaced (r : WalRecord) : bool :=
  match from_raw (logical_record_type r) with
  | Some kind => negb (bool_decide (kind = Noop))
  | None => false
  end.

(** The reader with everything before [pos] consumed. *)
Definition rd_at (rd : WalReader) (pos : u64) : WalReader :=
  rd {{ rd_offset := pos; rd_committed_end := pos }}.

Lemma segment_bytes_app rs rs' : segment_bytes (rs ++ rs') = segment_bytes rs ++ segment_bytes rs'.
Proof. unfold segment_bytes. by rewrite fmap_app, join_app. Qed.

Lemma flen_record r : flen (record_to_bytes r) = wire_size r.
Proof. apply length_record_to_bytes. Qed.

Section intact.
Context `{Crc32c, Aes256Gcm}.

Lemma read_step_record rd pre r rest :
  rd_file rd = pre ++ record_to_bytes r ++ rest → rd_offset rd = flen pre →
  flen (rd_file rd) < 2 ^ 64 → record_wf r →
  read_step rd = judge_record r (flen pre) (rd {{ rd_offset := flen pre + wire_size r }}).
Proof.
  intros Hf Ho Hlt Hwf. unfold read_step. rewrite Hf in *. rewrite Ho.
  unfold record_to_bytes in *. rewrite <-app_assoc in *.
  assert (flen (header_to_bytes (wr_header r)) = N.of_nat HEADER_SIZE) as Hh
    by (unfold flen; by rewrite length_header_to_bytes).
  pose proof (read_exact_here pre (header_to_bytes (wr_header r)) (wr_payload r ++ rest) Hlt) as Hr1.
  rewrite Hh in Hr1. rewrite Hr1. cbn [rd_offset upd].
  rewrite header_from_to by apply Hwf. simpl rd_offset. rewrite N.add_sub.
  rewrite wf_validate by done. rewrite (wf_len _ Hwf). simpl rd_file. rewrite Hf.
  unfold wire_size. destruct (N.eqb_spec (N.of_nat (length (wr_payload r))) 0) as [Hz|Hz].
  - assert (wr_payload r = []) as Hp by (destruct (wr_payload r); [done|simpl in Hz; lia]).
    rewrite Hp. simpl length. rewrite N.add_0_r. by destruct r; simpl in *; subst.
  - rewrite app_assoc in Hlt |- *.
    pose proof (read_exact_here _ _ _ Hlt) as Hr2. rewrite flen_app, Hh in Hr2.
    change (flen (wr_payload r)) with (N.of_nat (length (wr_payload r))) in Hr2.
    rewrite Hr2, N.add_assoc. by destruct r.
Qed.

Lemma judge_delivered r off rd :
  record_wf r → (surfaced r = true → deliver rd r = Ok (Some r)) → readable r = true →
  judge_record r off rd =
  (rd {{ rd_committed_end := rd_offset rd }},
   if surfaced r then Return (Ok (Some r)) else Continue).
Proof.
  unfold judge_record, readable, surfaced. intros Hwf Hd. rewrite wf_verify by done. simpl.
  change (deliver (rd {{ rd_committed_end := rd_offset rd }}) r) with (deliver rd r).
  destruct (from_raw _) as [k|].
  - intros _. destruct (bool_decide (k = Noop)); [done|]. by rewrite Hd.
  - by intros ->%negb_true_iff.
Qed.

Lemma judge_record_wf r off rd :
  record_wf r → rd_decryptor rd = None → readable r = true →
  judge_record r off rd =
  (rd {{ rd_committed_end := rd_offset rd }},
   if surfaced r then Return (Ok (Some r)) else Continue).
Proof. intros Hwf Hd. apply judge_delivered; [done|]. intros _. unfold deliver. by rewrite Hd. Qed.

(** Every record of an image is read, and those that carry data delivered. *)
Lemma reads_delivered rs : ∀ rd pre tail,
  rd_file rd = pre ++ segment_bytes rs ++ tail → flen (rd_file rd) < 2 ^ 64 →
  Forall (λ r, surfaced r = true → deliver rd r = Ok (Some r)) rs → Forall record_wf rs →
  Forall (λ r, readable r = true) rs →
  reads (rd_at rd (flen pre)) (List.filter surfaced rs)
    (rd_at rd (flen (pre ++ segment_bytes rs))).
Proof.
  induction rs as [|r rs IH]; intros rd pre tail Hf Hlt Hd Hwf Hrd.
  - change (segment_bytes []) with (@nil N). rewrite app_nil_r. constructor.
  - inversion_clear Hwf. inversion_clear Hrd. inversion_clear Hd.
    change (segment_bytes (r :: rs)) with (record_to_bytes r ++ segment_bytes rs) in *.
    rewrite <-app_assoc in Hf.
    assert (read_step (rd_at rd (flen pre)) =
      (rd_at rd (flen (pre ++ record_to_bytes r)),
       if surfaced r then Return (Ok (Some r)) else Continue)) as Hstep.
    { rewrite (read_step_record _ pre r (segment_bytes rs ++ tail)) by done.
      rewrite judge_delivered by done. unfold rd_at. simpl. by rewrite flen_app, flen_record. }
    rewrite app_assoc in Hf |- *. specialize (IH rd _ tail Hf Hlt ltac:(done) ltac:(done) ltac:(done)).
    simpl. destruct (surfaced r); [by eapply reads_deliver|by eapply reads_skip].
Qed.

Lemma raw_delivers rd rs :
  rd_decryptor rd = None → Forall (λ r, surfaced r = true → deliver rd r = Ok (Some r)) rs.
Proof. intros Hd. apply Forall_forall. intros r _ _. unfold deliver. by rewrite Hd. Qed.

Lemma reads_image rs rd pre tail :
  rd_file rd = pre ++ segment_bytes rs ++ tail → flen (rd_file rd) < 2 ^ 64 →
  rd_decryptor rd = None → Forall record_wf rs → Forall (λ r, readable r = true) rs →
  reads (rd_at rd (flen pre)) (List.filter surfaced rs)
    (rd_at rd (flen (pre ++ segment_bytes rs))).
Proof. intros Hf Hlt Hd. by apply (reads_delivered _ _ _ tail), raw_delivers. Qed.

(** ** Torn tails *)

(** A reader stopped at [off], with nothing after it consumed. *)
Definition stops (rd : WalReader) (off : u64) (reason : StopReason) : Prop :=
  ∃ rd', read_step (rd_at rd off) = (rd', Return (Ok None)) ∧
    rd_stop_reason rd' = Some reason ∧ rd_committed_end rd' = off.

(** The file ends where a record would start, or inside one. *)
Lemma stops_truncated rd pre r n :
  rd_file rd = pre ++ take n (record_to_bytes r) → flen (pre ++ record_to_bytes r) < 2 ^ 64 →
  record_wf r → (n < length (record_to_bytes r))%nat →
  stops rd (flen pre) (if decide (n = 0%nat) then Eof else Corruption (flen pre)).
Proof.
  intros Hf Hlt Hwf Hn. unfold stops, read_step. cbn [rd_at rd_offset rd_file upd]. simpl rd_file.
  simpl rd_offset. rewrite Hf. rewrite flen_app in Hlt. unfold flen at 2 in Hlt.
  pose proof (length_header_to_bytes (wr_header r)) as Hh. unfold record_to_bytes in *.
  rewrite length_app in Hn, Hlt.
  assert (flen (take n (header_to_bytes (wr_header r) ++ wr_payload r)) = N.of_nat n) as Hl
    by (unfold flen; rewrite length_take, length_app; lia).
  destruct (decide (n < HEADER_SIZE)%nat) as [Hs|Hs].
  - rewrite read_exact_eof by (rewrite ?flen_app, ?Hl; lia).
    eexists. split; [reflexivity|]. split; [|done]. simpl. f_equal.
    rewrite flen_app, Hl.
    case_decide as Hz; [subst; by rewrite N.add_0_r, N.eqb_refl|].
    by rewrite (proj2 (N.eqb_neq _ _)) by lia.
  - rewrite take_app_ge in * by lia. rewrite Hh in *.
    pose proof (read_exact_here pre (header_to_bytes (wr_header r))
      (take (n - HEADER_SIZE) (wr_payload r))) as Hr1.
    assert (flen (header_to_bytes (wr_header r)) = N.of_nat HEADER_SIZE) as Hh'
      by (unfold flen; by rewrite Hh). rewrite Hh' in Hr1.
    rewrite Hr1 by (rewrite !flen_app, Hh'; unfold flen in *; rewrite length_take; lia).
    simpl rd_offset. rewrite N.add_sub, header_from_to by apply Hwf. rewrite wf_validate by done.
    rewrite (wf_len _ Hwf).
    rewrite (proj2 (N.eqb_neq _ _)) by lia. simpl rd_file. rewrite ?Hf, read_exact_eof.
    + eexists. split; [reflexivity|]. split; [|done]. simpl. by rewrite decide_False by (unfold HEADER_SIZE in Hs; lia).
    + unfold flen in *. lia.
    + rewrite !flen_app, Hh'. unfold flen. rewrite length_take. lia.
Qed.
End intact.

(** ** The scan for a resync point *)

Section scan.
Context `{Crc32c}.

(** An intact record lies at [off]. *)
Definition intact_at (file : bytes) (off : u64) (r : WalRecord) : Prop :=
  record_wf r ∧ ∃ rest, drop (N.to_nat off) file = record_to_bytes r ++ rest.

Lemma intact_at_split file off r :
  intact_at file off r →
  ∃ rest, file = take (N.to_nat off) file ++ record_to_bytes r ++ rest ∧
    flen (take (N.to_nat off) file) = off.
Proof.
  intros [Hwf [rest Hd]]. exists rest. rewrite <-Hd, take_drop. split; [done|].
  apply flen_take. unfold flen. pose proof (f_equal length Hd) as Hl.
  rewrite length_drop, length_app in Hl. pose proof (length_record_to_bytes r) as Hw.
  unfold wire_size in Hw. change (N.of_nat HEADER_SIZE) with 63 in Hw. lia.
Qed.

Lemma header_validate_ok off h :
  header_validate off h = Ok tt →
  rh_magic h = WAL_MAGIC ∧ rh_format_version h = WAL_FORMAT_VERSION ∧
  rh_payload_len h ≤ MAX_WAL_PAYLOAD_SIZE.
Proof.
  unfold header_validate. destruct (N.eqb_spec (rh_magic h) WAL_MAGIC); [|done].
  destruct (N.eqb_spec (rh_format_version h) WAL_FORMAT_VERSION); [|done].
  by destruct (N.ltb_spec MAX_WAL_PAYLOAD_SIZE (rh_payload_len h)).
Qed.

Lemma verify_checksum_ok r :
  verify_checksum r = Ok tt → rh_crc32c (wr_header r) = compute_checksum (wr_header r) (wr_payload r).
Proof. unfold verify_checksum. by destruct (N.eqb_spec (rh_crc32c (wr_header r)) (compute_checksum (wr_header r) (wr_payload r))). Qed.

(** [intact_record_lsn] finds exactly the intact records. *)
Lemma intact_record_lsn_iff file off lsn :
  Forall (λ b, b < 256) file → flen file < 2 ^ 64 →
  intact_record_lsn file off = Some lsn ↔ ∃ r, intact_at file off r ∧ rh_lsn (wr_header r) = lsn.
Proof.
  intros Hb Hlt. unfold intact_record_lsn. change (N.of_nat HEADER_SIZE) with 63. split.
  - destruct (N.ltb_spec (off + 63) (2 ^ 64)); [|done].
    destruct (N.leb_spec (off + 63) (flen file)); [|done]. cbn [negb andb].
    set (h := header_from_bytes (slice file off 63)).
    destruct (header_validate off h) as [[]|] eqn:Hv; [|done].
    destruct (N.ltb_spec (off + 63 + rh_payload_len h) (2 ^ 64)); [|done].
    destruct (N.leb_spec (off + 63 + rh_payload_len h) (flen file)); [|done]. cbn [negb andb].
    destruct (verify_checksum _) as [[]|] eqn:Hs; [|done]. intros [= <-].
    exists (MkWalRecord h (slice file (off + 63) (rh_payload_len h))).
    split; [|reflexivity]. apply header_validate_ok in Hv as (Hm & Hver & Hmax).
    apply verify_checksum_ok in Hs. cbn [wr_header wr_payload] in Hs.
    assert (N.of_nat (length (slice file (off + 63) (rh_payload_len h))) = rh_payload_len h) as Hl
      by by apply length_slice.
    split.
    + split; cbn [wr_header wr_payload]; rewrite ?Hl; try done. apply header_from_bytes_fits. by apply slice_bytes.
    + exists (drop (N.to_nat (off + 63 + rh_payload_len h)) file). unfold record_to_bytes.
      cbn [wr_header wr_payload].
      unfold h at 1. rewrite header_to_from; [|unfold HEADER_SIZE|by apply slice_bytes].
      2:{ pose proof (length_slice file off 63 ltac:(done)). lia. }
      unfold slice. rewrite <-app_assoc.
      replace (N.to_nat (off + 63 + rh_payload_len h))
        with (N.to_nat (off + 63) + N.to_nat (rh_payload_len h))%nat by lia.
      rewrite take_then_drop. replace (N.to_nat (off + 63)) with (N.to_nat off + 63)%nat by lia.
      by rewrite take_then_drop.
  - intros (r & Hi & <-). destruct (intact_at_split _ _ _ Hi) as (rest & Hf & Ho).
    destruct Hi as [Hwf _]. set (pre := take (N.to_nat off) file) in *. clearbody pre. subst off.
    rewrite Hf in *. unfold record_to_bytes in *. rewrite <-app_assoc in *.
    assert (flen (header_to_bytes (wr_header r)) = 63) as Hh
      by (unfold flen; by rewrite length_header_to_bytes).
    pose proof Hlt as Hlt'. rewrite !flen_app, Hh in Hlt'.
    pose proof (slice_here pre (header_to_bytes (wr_header r)) (wr_payload r ++ rest)) as Hsl.
    rewrite Hh in Hsl. rewrite Hsl, header_from_to, wf_validate, (wf_len _ Hwf) by (done || apply Hwf).
    change (N.of_nat (length (wr_payload r))) with (flen (wr_payload r)). rewrite !flen_app, Hh.
    rewrite !(proj2 (N.ltb_lt _ _)), !(proj2 (N.leb_le _ _)) by lia. cbn [negb andb].
    replace (flen pre + 63) with (flen (pre ++ header_to_bytes (wr_header r)))
      by by rewrite flen_app, Hh.
    rewrite app_assoc, slice_here.
    replace (MkWalRecord (wr_header r) (wr_payload r)) with r by by destruct r.
    by rewrite wf_verify.
Qed.

(** Only a magic can start an intact record. *)
Lemma intact_magic file off r :
  intact_at file off r → take 4 (drop (N.to_nat off) file) = to_le 4 WAL_MAGIC.
Proof.
  intros [Hwf [rest ->]]. unfold record_to_bytes. Transparent header_to_bytes.
  unfold header_to_bytes, header_prefix. Opaque header_to_bytes.
  rewrite (wf_magic _ Hwf), <-!app_assoc. apply take_app_length'. by rewrite length_to_le.
Qed.

Lemma scan_short file last c w : (length w < 4)%nat → scan_window file last c w = None.
Proof.
  revert c. induction w as [|b w IH]; intros c Hl; [done|]. simpl in Hl. cbn [scan_window].
  rewrite bool_decide_false; [simpl; apply IH; lia|]. intros Hm. apply (f_equal length) in Hm.
  rewrite length_to_le, length_take in Hm. simpl length in Hm. lia.
Qed.

(** A window and what follows it, scanned with an overlap of three bytes. *)
Lemma scan_app file last w m : ∀ c,
  (3 ≤ length w)%nat →
  scan_window file last c (w ++ m) =
  match scan_window file last c w with
  | Some x => Some x
  | None =>
      scan_window file last (c + N.of_nat (length w - 3)) (drop (length w - 3) (w ++ m))
  end.
Proof.
  induction w as [|b w IH]; intros c Hl; [simpl in Hl; lia|].
  destruct (decide (length w = 2%nat)) as [Hw|Hw].
  - rewrite (scan_short _ _ _ (b :: w)) by (simpl; lia). simpl length. rewrite Hw. simpl.
    by rewrite N.add_0_r.
  - simpl length in *. assert (take 4 ((b :: w) ++ m) = take 4 (b :: w)) as Ht.
    { apply take_app_le. simpl. lia. }
    specialize (IH (c + 1) ltac:(lia)).
    replace (S (length w) - 3)%nat with (S (length w - 3)) by lia. cbn [scan_window].
    change ((b :: w) ++ m) with (b :: w ++ m) in *. cbn [scan_window drop]. rewrite Ht, IH.
    replace (c + N.of_nat (S (length w - 3))) with (c + 1 + N.of_nat (length w - 3)) by lia.
    destruct (bool_decide _); simpl; [|done].
    destruct (intact_record_lsn file c) as [l|]; [|done]. by destruct (last <? l).
Qed.

Definition verdict_of (x : option (u64 * u64)) : TailVerdict :=
  match x with Some (off, lsn) => HoleAt off lsn | None => TornTail end.

(** The chunked loop gives the verdict of one scan over the rest of the file,
    for every chunk that can hold a magic. *)
Lemma classify_fuel_scan fuel chunk file last : ∀ base,
  4 ≤ chunk → flen file < 2 ^ 64 → (length file - N.to_nat base < fuel)%nat →
  classify_fuel fuel chunk file last base =
  Some (verdict_of (scan_window file last base (drop (N.to_nat base) file))).
Proof.
  induction fuel as [|fuel IH]; intros base Hc Hlt Hf; [lia|]. simpl.
  destruct (N.ltb_spec base (flen file)) as [Hb|Hb]; unfold flen in Hb;
    [|by rewrite drop_ge by lia].
  set (want := N.min chunk (flen file - base)).
  assert (N.of_nat (length (slice file base want)) = want) as Hw
    by (apply length_slice; unfold want, flen in *; lia).
  rewrite Hw. destruct (N.ltb_spec want 4) as [H4|H4].
  - rewrite scan_short; [done|]. rewrite length_drop. unfold want, flen in *. lia.
  - rewrite <-(take_drop (N.to_nat want) (drop (N.to_nat base) file)) at 1.
    change (take (N.to_nat want) (drop (N.to_nat base) file)) with (slice file base want).
    rewrite scan_app by lia. destruct (scan_window file last base _) as [[p l]|] eqn:Hs; [done|].
    unfold slice at 2 3. rewrite take_drop.
    rewrite IH; [|done|done|unfold sat_add64, u64_max, want, flen in *; lia].
    assert (sat_add64 base (want - 3) = base + N.of_nat (length (slice file base want) - 3)) as ->
      by (unfold sat_add64, u64_max, want, flen in *; lia).
    do 3 f_equal. rewrite drop_drop. f_equal. fold (slice file base want). lia.
Qed.
End scan.
