(* ===== verification/WalRecovery.v ===== *)
(** * What recovery finds

    The verdict of the torn-tail scan, termination of recovery on every file,
    and the result of recovery and of replay on segment images: whole records
    followed by a record cut off at any byte, or by damage that hides a later
    record. *)

From Stdlib Require Import Lia.
From stdpp Require Import base option list.
From S2P Require Import Prelude WalRecord WalRecordFacts WalReader WalReaderFacts.

Open Scope N_scope.

Section verdict.
Context `{Crc32c}.

(** No record from [lo] on, and before [hi] if given, has an LSN above
    [last]. *)
Definition quiet (file : bytes) (last lo : u64) (hi : option u64) : Prop :=
  ∀ p r, lo ≤ p → (∀ h, hi = Some h → p < h) → intact_at file p r → rh_lsn (wr_header r) ≤ last.

Lemma intact_at_lt file p r : intact_at file p r → p < flen file.
Proof.
  intros (rest & Hf & Hl)%intact_at_split. rewrite Hf at 1. rewrite !flen_app, Hl, flen_record.
  unfold wire_size. change (N.of_nat HEADER_SIZE) with 63. lia.
Qed.

Lemma quiet_step file last c hi :
  quiet file last (c + 1) hi →
  (∀ r, intact_at file c r → rh_lsn (wr_header r) ≤ last) → quiet file last c hi.
Proof.
  intros Hq Hc p r Hp Hh Hi. destruct (N.eq_dec p c) as [->|]; [by apply Hc|].
  apply (Hq p r); [lia|done|done].
Qed.

Lemma scan_verdict file last w : ∀ c,
  Forall (λ b, b < 256) file → flen file < 2 ^ 64 → w = drop (N.to_nat c) file →
  match scan_window file last c w with
  | Some (p, l) =>
      c ≤ p ∧ last < l ∧ (∃ r, intact_at file p r ∧ rh_lsn (wr_header r) = l) ∧
      quiet file last c (Some p)
  | None => quiet file last c None
  end.
Proof.
  induction w as [|b w IH]; intros c Hb Hlt Hw.
  - intros p r Hp _ Hi%intact_at_lt. apply (f_equal length) in Hw. rewrite length_drop in Hw.
    simpl in Hw. unfold flen in *. lia.
  - assert (w = drop (N.to_nat (c + 1)) file) as Hw'.
    { replace (N.to_nat (c + 1)) with (N.to_nat c + 1)%nat by lia. by rewrite <-drop_drop, <-Hw. }
    specialize (IH _ Hb Hlt Hw').
    assert ((∀ r, intact_at file c r → rh_lsn (wr_header r) ≤ last) →
      match scan_window file last (c + 1) w with
      | Some (p, l) => c ≤ p ∧ last < l ∧ (∃ r, intact_at file p r ∧ rh_lsn (wr_header r) = l) ∧
          quiet file last c (Some p)
      | None => quiet file last c None
      end) as Hskip.
    { intros Hc. destruct (scan_window _ _ _ w) as [[p l]|]; [|by apply quiet_step].
      destruct IH as (? & ? & ? & ?). split_and!; [lia|done|done|by apply quiet_step]. }
    cbn [scan_window]. destruct (bool_decide _) eqn:Hm; cbn [negb].
    + destruct (intact_record_lsn file c) as [l|] eqn:Hi.
      * pose proof (proj1 (intact_record_lsn_iff file c l Hb Hlt) Hi) as Hr.
        destruct (N.ltb_spec last l) as [Hl|Hl].
        { split_and!; [lia|done|done|]. intros p r Hp Hh _. specialize (Hh c eq_refl). lia. }
        apply Hskip. intros r Hr'. pose proof (proj2 (intact_record_lsn_iff file c _ Hb Hlt)
          (ex_intro _ r (conj Hr' eq_refl))). by simplify_eq.
      * apply Hskip. intros r Hr'. pose proof (proj2 (intact_record_lsn_iff file c _ Hb Hlt)
          (ex_intro _ r (conj Hr' eq_refl))). congruence.
    + apply Hskip. intros r Hr%intact_magic. by rewrite <-Hw in Hr; apply bool_decide_eq_false in Hm.
Qed.

Lemma classify_scan file off last :
  flen file < 2 ^ 64 → off < 2 ^ 64 →
  classify file off last =
  Some (verdict_of (scan_window file last (off + 1) (drop (N.to_nat (off + 1)) file))).
Proof.
  intros Hlt Hoff. unfold classify.
  assert (sat_add64 off 1 = off + 1 ∨ off + 1 = 2 ^ 64 ∧ sat_add64 off 1 = u64_max) as [->|[Ho ->]]
    by (unfold sat_add64, u64_max; lia).
  - destruct (N.leb_spec (flen file) (off + 1)) as [Hle|Hle].
    + rewrite drop_ge by (unfold flen in Hle; lia). done.
    + apply classify_fuel_scan; [done|done|unfold flen in Hle; lia].
  - rewrite drop_ge by (unfold flen in Hlt; lia).
    rewrite (proj2 (N.leb_le _ _)) by (unfold u64_max; lia). done.
Qed.

(** C23. The torn-tail scan, done in overlapping chunks of the file, is exact:
    it calls the damage at [off] a torn tail exactly when no intact record
    after it has an LSN above [last], and otherwise reports the first such
    record, with its offset and LSN. *)
Theorem torn_tail_verdict file off last :
  Forall (λ b, b < 256) file → flen file < 2 ^ 64 → off < 2 ^ 64 →
  (classify file off last = Some TornTail ↔ quiet file last (off + 1) None) ∧
  (∀ p l, classify file off last = Some (HoleAt p l) ↔
     off < p ∧ last < l ∧ (∃ r, intact_at file p r ∧ rh_lsn (wr_header r) = l) ∧
     quiet file last (off + 1) (Some p)).
Proof.
  intros Hb Hlt Hoff. rewrite classify_scan by done.
  pose proof (scan_verdict file last _ (off + 1) Hb Hlt eq_refl) as Hs.
  destruct (scan_window _ _ _ _) as [[p l]|]; simpl; split.
  - split; [done|]. destruct Hs as (Hp & Hl & (r & Hr & <-) & _). intros Hq.
    specialize (Hq p r Hp ltac:(done) Hr). lia.
  - intros p' l'. destruct Hs as (Hp & Hl & (r & Hr & Hrl) & Hq). split.
    + intros [= <- <-]. split_and!; [lia|done|by exists r|done].
    + intros (Hp' & Hl' & (r' & Hr' & <-) & Hq').
      assert (p = p') as <-.
      { destruct (N.lt_trichotomy p p') as [Hc|[->|Hc]]; [|done|].
        - specialize (Hq' p r Hp ltac:(by intros ? [= <-]) Hr). lia.
        - specialize (Hq p' r' ltac:(lia) ltac:(by intros ? [= <-]) Hr'). lia. }
      pose proof (proj2 (intact_record_lsn_iff file p _ Hb Hlt) (ex_intro _ r (conj Hr Hrl))).
      pose proof (proj2 (intact_record_lsn_iff file p _ Hb Hlt) (ex_intro _ r' (conj Hr' eq_refl))).
      congruence.
  - done.
  - intros p l. split; [done|]. intros (Hp & Hl & (r & Hr & <-) & _).
    specialize (Hs p r ltac:(lia) ltac:(done) Hr). lia.
Qed.
End verdict.

(** ** Segment images *)

(** The bytes a segment starts with: a preamble when it is encrypted. *)
Definition seg_prefix (epoch : option bytes) : bytes :=
  match epoch with
  | Some e => preamble_to_bytes (preamble_new_wal e)
  | None => []
  end.

Definition epoch_ok (epoch : option bytes) : Prop := ∀ e, epoch = Some e → length e = 4%nat.

Section images.
Context `{Crc32c, Aes256Gcm}.

(** A reader of [file] at its first record. *)
Definition rd_start (file : bytes) (dwb : option bytes) (epoch : option bytes) : WalReader := {|
  rd_file := file;
  rd_offset := flen (seg_prefix epoch);
  rd_records_start := flen (seg_prefix epoch);
  rd_segment_preamble := preamble_new_wal <$> epoch;
  rd_double_write := dwb;
  rd_stop_reason := None;
  rd_committed_end := flen (seg_prefix epoch);
  rd_decryptor := None;
|}.

(** Nothing that could be taken for a preamble. *)
Definition starts_plain (body : bytes) : Prop :=
  (length body < PREAMBLE_SIZE)%nat ∨ take 4 body = to_le 4 WAL_MAGIC.

Lemma open_raw_start epoch body dwb :
  epoch_ok epoch → (epoch = None → starts_plain body) →
  open_raw (seg_prefix epoch ++ body) dwb = Ok (rd_start (seg_prefix epoch ++ body) dwb epoch).
Proof.
  intros He Hp. unfold open_raw, read_leading_preamble, parse_leading_preamble. destruct epoch as [e|].
  - specialize (He e eq_refl). by destruct e as [|a [|b [|c [|d [|]]]]].
  - specialize (Hp eq_refl). cbn [seg_prefix app].
    destruct (Nat.ltb_spec (length body) PREAMBLE_SIZE) as [|Hge]; [done|].
    destruct Hp as [?|Hm]; [lia|].
    assert (take 4 (take PREAMBLE_SIZE body) = to_le 4 WAL_MAGIC) as Ht
      by by rewrite take_take.
    rewrite length_take, Nat.min_l, Ht by lia. done.
Qed.

Lemma take_magic r rest : record_wf r → take 4 (record_to_bytes r ++ rest) = to_le 4 WAL_MAGIC.
Proof. intros Hwf. apply (intact_magic _ 0 r). split; [done|]. by exists rest. Qed.

Lemma starts_plain_records rs r n :
  Forall record_wf (rs ++ [r]) → starts_plain (segment_bytes rs ++ take n (record_to_bytes r)).
Proof.
  intros Hwf. destruct rs as [|r0 rs].
  - simpl in *. inversion_clear Hwf. destruct (decide (n < PREAMBLE_SIZE)%nat) as [Hn|Hn].
    + left. rewrite length_take. lia.
    + right. unfold PREAMBLE_SIZE in Hn. rewrite take_take, Nat.min_l by lia.
      rewrite <-(app_nil_r (record_to_bytes r)). by apply take_magic.
  - right. inversion_clear Hwf.
    change (segment_bytes (r0 :: rs)) with (record_to_bytes r0 ++ segment_bytes rs).
    rewrite <-app_assoc. by apply take_magic.
Qed.

(** The loops on whole records followed by a stop. *)
Lemma recover_stopped epoch rs tail reason :
  let pre := seg_prefix epoch ++ segment_bytes rs in
  let rd := rd_start (pre ++ tail) None epoch in
  epoch_ok epoch → (epoch = None → starts_plain (segment_bytes rs ++ tail)) →
  flen (pre ++ tail) < 2 ^ 64 → Forall record_wf rs → Forall (λ r, readable r = true) rs →
  stops rd (flen pre) reason →
  (∃ rd', records rd = Some (List.filter surfaced rs, rd', Ok tt)) ∧
  recover (Some (pre ++ tail)) None =
  match verify_committed_prefix (pre ++ tail) (Some reason)
          (last_lsn_of 0 (List.filter surfaced rs)) with
  | None => None
  | Some (Err e) => Some (Err e)
  | Some (Ok _) =>
      Some (Ok (MkRecoveryInfo (last_lsn_of 0 (List.filter surfaced rs))
        (N.of_nat (length (List.filter surfaced rs))) (flen pre)))
  end.
Proof.
  intros pre rd He Hp Hlt Hwf Hrd (rd' & Hstep & Hreason & Hend).
  assert (reads rd (List.filter surfaced rs) (rd_at rd (flen pre))) as Hr.
  { change rd with (rd_at rd (flen (seg_prefix epoch))) at 1.
    by apply (reads_image rs rd (seg_prefix epoch) tail); [unfold rd, pre; simpl; by rewrite app_assoc|..]. }
  assert (next_record (rd_at rd (flen pre)) = Some (rd', Ok None)) as Hn
    by by rewrite next_record_unfold, Hstep.
  split.
  - destruct (records_reads _ _ _ Hr) as (rs' & rd2 & e & H1 & ->).
    rewrite records_unfold, Hn in H1. injection H1 as <- <- <-. rewrite app_nil_r. by eexists.
  - unfold recover. unfold pre at 1 in |- *. rewrite <-app_assoc at 1.
    rewrite open_raw_start by done. rewrite app_assoc. fold pre. fold rd.
    change (recover_fuel _ rd 0 0) with (recover_run rd 0 0).
    rewrite (recover_reads _ _ _ 0 0 Hr), recover_run_unfold, Hn, Hreason, Hend. done.
Qed.

Lemma classify_some file off last : flen file < 2 ^ 64 → is_Some (classify file off last).
Proof.
  intros Hlt. unfold classify. case_match; [done|].
  rewrite classify_fuel_scan; [done|done|done|]. lia.
Qed.

Lemma verify_some file stop last :
  flen file < 2 ^ 64 → is_Some (verify_committed_prefix file stop last).
Proof.
  intros Hlt. destruct stop as [[|off]|]; simpl; [done| |done].
  destruct (classify_some file off last Hlt) as [v ->]. by destruct v.
Qed.

(** C24. Recovery and replay terminate on every file, whatever its bytes and
    whatever the double-write buffer beside it holds: the fuel of each loop is
    enough. *)
Theorem recovery_terminates file dwb keys :
  flen file < 2 ^ 64 →
  is_Some (recover (Some file) dwb) ∧
  (∀ rd, reader_open file dwb keys = Ok rd → is_Some (next_record rd) ∧ is_Some (records rd)).
Proof.
  intros Hlt. split.
  - unfold recover. destruct (open_raw file dwb) as [rd|e] eqn:Ho; [|done].
    assert (rd_file rd = file) as Hf.
    { revert Ho. unfold open_raw. destruct (read_leading_preamble _ _) as [[]|]; [|done].
      by intros [= <-]. }
    destruct (recover_fuel_some (S (length file)) rd 0 0) as [x ->]; [rewrite Hf; lia|].
    destruct x as [[[rd' lsn] n]|e]; [|done].
    destruct (verify_some file (rd_stop_reason rd') lsn Hlt) as [v ->]. by destruct v.
  - intros rd _. split.
    + destruct (next_record_some rd) as (rd' & r & -> & _). done.
    + apply records_fuel_some. lia.
Qed.

(** C22. A crash that cuts the segment off at any byte: replay yields exactly
    the records that are whole, in order, and recovery resumes at their end,
    with their count and their last LSN; unless the cut-off record's own bytes
    hold an intact record with a higher LSN, when it refuses the segment. *)
Theorem recover_truncated epoch rs r n :
  let stop := flen (seg_prefix epoch ++ segment_bytes rs) in
  let file := (seg_prefix epoch ++ segment_bytes rs) ++ take n (record_to_bytes r) in
  let kept := List.filter surfaced rs in
  epoch_ok epoch → Forall record_wf (rs ++ [r]) → Forall (λ r, readable r = true) rs →
  (n < length (record_to_bytes r))%nat → flen (seg_prefix epoch ++ segment_bytes (rs ++ [r])) < 2 ^ 64 →
  Forall (λ b, b < 256) file →
  (∃ rd rd', open_raw file None = Ok rd ∧ records rd = Some (kept, rd', Ok tt)) ∧
  (quiet file (last_lsn_of 0 kept) (stop + 1) None ∧
   recover (Some file) None =
     Some (Ok (MkRecoveryInfo (last_lsn_of 0 kept) (N.of_nat (length kept)) stop)) ∨
   ∃ p l r', recover (Some file) None = Some (Err (MidFileCorruption stop p l)) ∧
     stop < p ∧ last_lsn_of 0 kept < l ∧ intact_at file p r' ∧ rh_lsn (wr_header r') = l).
Proof.
  intros stop file kept He Hwf Hrd Hn Hlt Hb.
  assert (Forall record_wf rs ∧ record_wf r) as [Hwfs Hwfr]
    by (apply Forall_app in Hwf as [? Hr]; by inversion Hr).
  rewrite segment_bytes_app in Hlt. change (segment_bytes [r]) with (record_to_bytes r ++ []) in Hlt.
  rewrite app_nil_r, app_assoc in Hlt.
  assert (flen file < 2 ^ 64) as Hflt.
  { unfold file. rewrite flen_app in Hlt |- *. unfold flen in *. rewrite length_take. lia. }
  set (reason := if decide (n = 0%nat) then Eof else Corruption stop).
  assert (stops (rd_start file None epoch) stop reason) as Hs by (by apply (stops_truncated _ _ r)).
  assert (starts_plain (segment_bytes rs ++ take n (record_to_bytes r))) as Hsp
    by by apply starts_plain_records.
  destruct (recover_stopped epoch rs _ reason He ltac:(done) Hflt Hwfs Hrd Hs) as [(rd' & Hrec) Hrecover].
  split.
  { exists (rd_start file None epoch), rd'. split; [|done]. unfold file. rewrite <-app_assoc.
    by apply open_raw_start. }
  fold file kept stop in Hrecover. rewrite Hrecover. unfold reason.
  destruct (decide (n = 0%nat)) as [Hz|Hz]; simpl.
  - left. split; [|done]. intros p x Hp _ Hi%intact_at_lt. exfalso. revert Hi. unfold file.
    rewrite Hz, take_0, app_nil_r. fold stop. lia.
  - rewrite classify_scan by (done || unfold file in Hflt; rewrite flen_app in Hflt; lia).
    pose proof (scan_verdict file (last_lsn_of 0 kept) _ (stop + 1) Hb Hflt eq_refl) as Hv.
    destruct (scan_window _ _ _ _) as [[p l]|]; simpl; [right|by left].
    destruct Hv as (Hp & Hl & (x & Hx & Hxl) & _). exists p, l, x. split_and!; try done. lia.
Qed.
End images.
