(* ===== verification/WalWriter.v ===== *)
(** * Writing a WAL segment

    The aligned write buffer ([nodedb-wal/src/align.rs]), the padding of a
    direct-I/O batch ([record/padding.rs]), and the writer ([writer/core.rs],
    [flush.rs], [durability.rs], [anchor.rs], [dwb.rs], [config.rs]): append,
    flush, group commit with fsync, sealing, opening and resuming a segment.

    A segment file keeps what is in the page cache, what the last successful
    fsync made durable, and the ranges written since. The outcomes of [pwrite]
    and [fsync] and the time of an anchor are inputs of the operations. The
    double-write buffer is used through the interface [DoubleWriteBuffer]. The
    fault-injection points, which production builds leave out, are not
    modelled. *)

From stdpp Require Import base option list.
From S2P Require Import Prelude WalRecord WalReader.

Open Scope N_scope.

(** ** Segment files *)

Record SegFile : Type := MkSegFile {
  sf_bytes : bytes;
  sf_synced : bytes;
  (** Offset and length of each write since the last fsync. *)
  sf_dirty : list (N * N);
}.

#[export] Instance eta_SegFile : Eta SegFile := λ r,
  MkSegFile (sf_bytes r) (sf_synced r) (sf_dirty r).

(** [data] over [bs] at [off]; a gap reads as zeros. *)
Definition overwrite (off : N) (data bs : bytes) : bytes :=
  take (N.to_nat off) (bs ++ replicate (N.to_nat off - length bs) 0) ++ data ++
  drop (N.to_nat off + length data) bs.

Definition sf_pwrite (off : N) (data : bytes) (f : SegFile) : SegFile :=
  f {{ sf_bytes ::= overwrite off data; sf_dirty ::= λ d, d ++ [(off, flen data)] }}.

Definition sf_fsync (f : SegFile) : SegFile := f {{ sf_synced := sf_bytes f; sf_dirty := [] }}.

(** What one [pwrite] call returns: a count, or an error ([ENOSPC] or not). *)
Inductive PwriteOutcome : Type :=
  | Wrote (n : N)
  | WriteError (out_of_space : bool).

(** The [pwrite] loop of [flush_buffer]. Calls past the list write all that is
    left; a call never writes more than it was given. *)
Fixpoint pwrite_loop (os : list PwriteOutcome) (off : N) (remaining : bytes) (f : SegFile) :
    SegFile * result WalError unit :=
  match remaining, os with
  | [], _ => (f, Ok tt)
  | _, [] => (sf_pwrite off remaining f, Ok tt)
  | _, WriteError true :: _ => (f, Err OutOfSpace)
  | _, WriteError false :: _ => (f, Err WalIo)
  | _, Wrote n :: os =>
      let n := N.min n (flen remaining) in
      if n =? 0 then (f, Err WalIo)
      else
        pwrite_loop os (off + n) (drop (N.to_nat n) remaining)
          (sf_pwrite off (take (N.to_nat n) remaining) f)
  end.

(** ** The aligned buffer *)

Record AlignedBuf : Type := MkAlignedBuf {
  (** The allocation: [ab_capacity] bytes. *)
  ab_mem : bytes;
  ab_capacity : usize;
  ab_len : usize;
  ab_alignment : usize;
}.

#[export] Instance eta_AlignedBuf : Eta AlignedBuf := λ r,
  MkAlignedBuf (ab_mem r) (ab_capacity r) (ab_len r) (ab_alignment r).

(** [usize::is_power_of_two]. *)
Definition is_power_of_two (n : usize) : bool := negb (n =? 0) && (N.land n (n - 1) =? 0).

(** [AlignedBuf::new]; [None] is its assertion failing. *)
Definition aligned_buf_new (min_capacity alignment : usize) : option (result WalError AlignedBuf) :=
  if negb (is_power_of_two alignment) then None
  else
    let capacity := round_up (N.max min_capacity alignment) alignment in
    if 2 ^ 63 - 1 <? capacity then Some (Err (AlignmentViolation alignment min_capacity))
    else Some (Ok (MkAlignedBuf (replicate (N.to_nat capacity) 0) capacity 0 alignment)).

(** [AlignedBuf::write]; the callers ignore the count. *)
Definition ab_write (data : bytes) (b : AlignedBuf) : AlignedBuf :=
  let available := ab_capacity b - ab_len b in
  let to_write := N.min (flen data) available in
  b {{ ab_mem ::= overwrite (ab_len b) (take (N.to_nat to_write) data);
       ab_len ::= λ len, len + to_write }}.

Definition as_slice (b : AlignedBuf) : bytes := take (N.to_nat (ab_len b)) (ab_mem b).

Definition as_aligned_slice (b : AlignedBuf) : bytes :=
  take (N.to_nat (N.min (round_up (ab_len b) (ab_alignment b)) (ab_capacity b))) (ab_mem b).

Definition ab_clear (b : AlignedBuf) : AlignedBuf := b {{ ab_len := 0 }}.

Definition ab_is_empty (b : AlignedBuf) : bool := ab_len b =? 0.

Definition ab_remaining (b : AlignedBuf) : usize := ab_capacity b - ab_len b.

(** [pad_buffer_to_alignment]. *)
Definition pad_buffer_to_alignment `{Crc32c, Aes256Gcm} (alignment : usize) (b : AlignedBuf) :
    AlignedBuf * result WalError unit :=
  match padding_span (ab_len b) alignment with
  | None => (b, Ok tt)
  | Some span =>
      if ab_remaining b <? span then (b, Err (AlignmentViolation span (ab_remaining b)))
      else
        match padding_record span with
        | Err e => (b, Err e)
        | Ok padding =>
            (ab_write (wr_payload padding) (ab_write (header_to_bytes (wr_header padding)) b), Ok tt)
        end
  end.

(** ** Durability ([durability.rs]) *)

Inductive DurabilityState : Type :=
  | Synced
  | FlushedUnsynced
  | Poisoned.

#[export] Instance durability_eq_dec : EqDecision DurabilityState.
Proof. solve_decision. Defined.

Definition durability_check (d : DurabilityState) : result WalError unit :=
  match d with Poisoned => Err DurabilityLost | Synced | FlushedUnsynced => Ok tt end.

Definition needs_fsync (d : DurabilityState) : bool :=
  match d with FlushedUnsynced => true | _ => false end.

Definition should_skip_sync (buffer_empty : bool) (d : DurabilityState) : bool :=
  buffer_empty && negb (needs_fsync d).

Definition record_flush (d : DurabilityState) : DurabilityState :=
  match d with Synced => FlushedUnsynced | d => d end.

Definition record_sync_ok (d : DurabilityState) : DurabilityState :=
  match d with Poisoned => Poisoned | _ => Synced end.

(** [fsync_and_track]; [ok] is what the fsync returns. *)
Definition fsync_and_track (ok : bool) (f : SegFile) (d : DurabilityState) :
    SegFile * DurabilityState * result WalError unit :=
  if ok then (sf_fsync f, record_sync_ok d, Ok tt) else (f, Poisoned, Err DurabilityLost).

(** ** The double-write buffer as the writer uses it *)

Inductive DwbMode : Type := DwbOff | DwbBuffered | DwbDirect.

#[export] Instance dwb_mode_eq_dec : EqDecision DwbMode.
Proof. solve_decision. Defined.

Inductive DwbDegradation : Type := OpenFailed | WriteFailed | FlushFailed.

Inductive DwbProtection : Type := DwbActive | DwbProtectionOff | DwbDegraded (why : DwbDegradation).

Inductive DwbMirror : Type := Mirrored | SkippedTooLarge (size max : usize).

Definition is_degraded (p : DwbProtection) : bool :=
  match p with DwbDegraded _ => true | _ => false end.

Class DoubleWriteBuffer (D : Type) : Type := {
  write_record_deferred : WalRecord → D → D * result WalError DwbMirror;
  staged_slots : D → u32;
  write_staged : D → D * result WalError u32;
  dwb_flush : D → D * result WalError unit;
}.

(** ** The writer *)

Record WalWriterConfig : Type := MkWalWriterConfig {
  wc_write_buffer_size : usize;
  wc_alignment : usize;
  wc_use_direct_io : bool;
  wc_dwb_mode : option DwbMode;
  (** Whether commit-time anchors are kept. *)
  wc_time_anchors : bool;
}.

Record WalWriter (D : Type) : Type := MkWalWriter {
  ww_file : SegFile;
  ww_buffer : AlignedBuf;
  ww_file_offset : u64;
  ww_next_lsn : u64;
  ww_sealed : bool;
  ww_durability : DurabilityState;
  ww_config : WalWriterConfig;
  ww_encryption_ring : option KeyRing;
  ww_segment_preamble : option SegmentPreamble;
  ww_double_write : option D;
  ww_dwb_protection : DwbProtection;
  ww_dwb_unprotected_records : u64;
  ww_unanchored : bool;
  ww_pending_anchor : option (u64 * u64);
  (** The anchors handed to [TimeAnchors::record]. *)
  ww_anchors : list (u64 * u64);
}.
Arguments MkWalWriter {D}.
Arguments ww_file {D}.
Arguments ww_buffer {D}.
Arguments ww_file_offset {D}.
Arguments ww_next_lsn {D}.
Arguments ww_sealed {D}.
Arguments ww_durability {D}.
Arguments ww_config {D}.
Arguments ww_encryption_ring {D}.
Arguments ww_segment_preamble {D}.
Arguments ww_double_write {D}.
Arguments ww_dwb_protection {D}.
Arguments ww_dwb_unprotected_records {D}.
Arguments ww_unanchored {D}.
Arguments ww_pending_anchor {D}.
Arguments ww_anchors {D}.

#[export] Instance eta_WalWriter D : Eta (WalWriter D) := λ r,
  MkWalWriter (ww_file r) (ww_buffer r) (ww_file_offset r) (ww_next_lsn r) (ww_sealed r)
    (ww_durability r) (ww_config r) (ww_encryption_ring r) (ww_segment_preamble r)
    (ww_double_write r) (ww_dwb_protection r) (ww_dwb_unprotected_records r) (ww_unanchored r)
    (ww_pending_anchor r) (ww_anchors r).

Record RecordTarget : Type := MkRecordTarget {
  rt_record_type : u32;
  rt_tenant_id : u64;
  rt_vshard_id : u32;
  rt_database_id : u64;
  rt_event_source : N;
  rt_commit_hlc : u64;
}.

(** [resume_offset] ([config.rs]). *)
Definition resume_offset (end_offset : u64) (use_direct_io : bool) (alignment : usize) : u64 :=
  if negb use_direct_io then end_offset else end_offset - end_offset mod alignment.

Definition TIME_ANCHOR_PAYLOAD_SIZE : usize := 8.

(** What the system gives a [sync]: the time of the anchor, the outcomes of the
    writes of a flush the anchor forces and of the batch's own flush, and of
    the fsync. *)
Record SyncEnv : Type := MkSyncEnv {
  se_stamp : u64;
  se_anchor_writes : list PwriteOutcome;
  se_writes : list PwriteOutcome;
  se_fsync : bool;
}.

Section writer.
Context `{Crc32c, Aes256Gcm} {D : Type} `{DoubleWriteBuffer D}.
Implicit Types (w : WalWriter D).

(** *** The double-write buffer ([dwb.rs], [config.rs]) *)

Definition note_unprotected w : WalWriter D := w {{ ww_dwb_unprotected_records ::= λ n, sat_add64 n 1 }}.

Definition degrade_dwb (why : DwbDegradation) w : WalWriter D :=
  w {{ ww_dwb_protection := DwbDegraded why }}.

Definition mirror_into_dwb (record : WalRecord) w : WalWriter D :=
  match ww_double_write w with
  | Some dwb =>
      match write_record_deferred record dwb with
      | (dwb, Ok Mirrored) => w {{ ww_double_write := Some dwb }}
      | (dwb, Ok (SkippedTooLarge _ _)) => note_unprotected (w {{ ww_double_write := Some dwb }})
      | (_, Err _) =>
          note_unprotected (degrade_dwb WriteFailed (w {{ ww_double_write := None }}))
      end
  | None => if is_degraded (ww_dwb_protection w) then note_unprotected w else w
  end.

Definition flush_dwb w : WalWriter D :=
  match ww_double_write w with
  | None => w
  | Some dwb =>
      let staged := staged_slots dwb in
      match write_staged dwb with
      | (_, Err _) =>
          Nat.iter (N.to_nat staged) note_unprotected
            (degrade_dwb WriteFailed (w {{ ww_double_write := None }}))
      | (dwb, Ok _) =>
          match dwb_flush dwb with
          | (_, Err _) => degrade_dwb FlushFailed (w {{ ww_double_write := None }})
          | (dwb, Ok _) => w {{ ww_double_write := Some dwb }}
          end
      end
  end.

Definition resolve_dwb_mode (c : WalWriterConfig) : DwbMode :=
  default (if wc_use_direct_io c then DwbDirect else DwbBuffered) (wc_dwb_mode c).

(** [open_dwb_for]; [opened] is the buffer file opened in that mode, [None] if
    the open failed. *)
Definition open_dwb_for (c : WalWriterConfig) (opened : option D) : option D * DwbProtection :=
  if bool_decide (resolve_dwb_mode c = DwbOff) then (None, DwbProtectionOff)
  else
    match opened with
    | Some d => (Some d, DwbActive)
    | None => (None, DwbDegraded OpenFailed)
    end.

(** [reattach_double_write]. *)
Definition reattach_double_write (opened : option D) w : WalWriter D :=
  if bool_decide (resolve_dwb_mode (ww_config w) = DwbOff) then w
  else
    match opened with
    | Some d => w {{ ww_double_write := Some d; ww_dwb_protection := DwbActive }}
    | None => degrade_dwb OpenFailed w
    end.

(** *** Flushing ([flush.rs]) *)

Definition flush_buffer (os : list PwriteOutcome) w : WalWriter D * result WalError unit :=
  if ab_is_empty (ww_buffer w) then (w, Ok tt)
  else
    let? (w, data) :=
      if wc_use_direct_io (ww_config w) then
        let '(b, r) := pad_buffer_to_alignment (wc_alignment (ww_config w)) (ww_buffer w) in
        let w := w {{ ww_buffer := b }} in
        match r with
        | Ok _ => (w, Ok (as_aligned_slice b))
        | Err e => (w, Err e)
        end
      else (w, Ok (as_slice (ww_buffer w))) in
    let '(f, r) := pwrite_loop os (ww_file_offset w) data (ww_file w) in
    let w := w {{ ww_file := f }} in
    match r with
    | Err e => (w, Err e)
    | Ok _ =>
        (w {{ ww_file_offset ::= λ o, o + flen data;
              ww_buffer ::= ab_clear;
              ww_durability ::= record_flush }}, Ok tt)
    end.

(** *** Appending ([core.rs]) *)

Definition padding_reserve w : usize :=
  if wc_use_direct_io (ww_config w) then wc_alignment (ww_config w) + MIN_PADDING_RECORD_SIZE
  else 0.

Definition encryption_tag w : usize :=
  match ww_encryption_ring w with Some _ => AUTH_TAG_SIZE | None => 0 end.

(** [anchor_reserve] ([anchor.rs]). *)
Definition anchor_reserve w : usize :=
  if negb (wc_time_anchors (ww_config w)) then 0
  else N.of_nat HEADER_SIZE + TIME_ANCHOR_PAYLOAD_SIZE + encryption_tag w.

(** The record an append builds. *)
Definition append_args (target : RecordTarget) (payload : bytes) w : WalRecordArgs :=
  MkWalRecordArgs (rt_record_type target) (ww_next_lsn w) (rt_tenant_id target)
    (rt_vshard_id target) (rt_database_id target) payload
    (kr_current <$> ww_encryption_ring w) (preamble_to_bytes <$> ww_segment_preamble w).

Definition append_stamp (target : RecordTarget) (apply_key : u64) : RecordStamp :=
  MkRecordStamp apply_key (rt_event_source target) (rt_commit_hlc target).

(** [append_reserving]; [os] are the outcomes of the writes of a flush it
    forces. *)
Definition append_reserving (os : list PwriteOutcome) (target : RecordTarget) (payload : bytes)
    (apply_key : u64) (extra_reserve : usize) w : WalWriter D * result WalError u64 :=
  if ww_sealed w then (w, Err Sealed)
  else
    match durability_check (ww_durability w) with
    | Err e => (w, Err e)
    | Ok _ =>
        let lsn := ww_next_lsn w in
        match new_stamped (append_args target payload w) (append_stamp target apply_key) with
        | Err e => (w, Err e)
        | Ok record =>
            let total_size := N.of_nat HEADER_SIZE + flen (wr_payload record) in
            let reserve := padding_reserve w + extra_reserve in
            let usable := ab_capacity (ww_buffer w) - reserve in
            if usable <? total_size then
              (w, Err (PayloadTooLarge (flen (wr_payload record)) (usable - N.of_nat HEADER_SIZE)))
            else
              let? (w, _u) :=
                if ab_remaining (ww_buffer w) <? total_size + reserve then flush_buffer os w
                else (w, Ok tt) in
              let w := w {{ ww_buffer ::= ab_write (header_to_bytes (wr_header record)) }} in
              let w := w {{ ww_buffer ::= ab_write (wr_payload record) }} in
              let w := mirror_into_dwb record w in
              (w {{ ww_next_lsn := lsn + 1; ww_unanchored := true }}, Ok lsn)
        end
    end.

Definition append_keyed (os : list PwriteOutcome) (target : RecordTarget) (payload : bytes)
    (apply_key : u64) w : WalWriter D * result WalError u64 :=
  append_reserving os target payload apply_key (anchor_reserve w) w.

(** [WalWriter::append]. *)
Definition wal_append (os : list PwriteOutcome) (record_type : u32) (tenant_id : u64)
    (vshard_id : u32) (database_id : u64) (payload : bytes) w : WalWriter D * result WalError u64 :=
  append_keyed os
    (MkRecordTarget record_type tenant_id vshard_id database_id NO_EVENT_SOURCE 0) payload 0 w.

(** *** Group commit *)

(** [append_time_anchor] ([anchor.rs]). *)
Definition append_time_anchor (stamp : u64) (os : list PwriteOutcome) w :
    WalWriter D * result WalError unit :=
  if negb (ww_unanchored w) then (w, Ok tt)
  else if negb (wc_time_anchors (ww_config w)) then (w, Ok tt)
  else
    let target := MkRecordTarget (record_type_raw TimeAnchor) 0 0 0 NO_EVENT_SOURCE 0 in
    let? (w, lsn) := append_reserving os target (to_le 8 stamp) 0 0 w in
    (w {{ ww_unanchored := false; ww_pending_anchor := Some (lsn, stamp) }}, Ok tt).

Definition publish_time_anchor w : WalWriter D :=
  match ww_pending_anchor w with
  | None => w
  | Some anchor =>
      let w := w {{ ww_pending_anchor := None }} in
      if wc_time_anchors (ww_config w) then w {{ ww_anchors ::= λ l, l ++ [anchor] }} else w
  end.

(** [WalWriter::sync]. *)
Definition sync (env : SyncEnv) w : WalWriter D * result WalError unit :=
  match durability_check (ww_durability w) with
  | Err e => (w, Err e)
  | Ok _ =>
      if should_skip_sync (ab_is_empty (ww_buffer w)) (ww_durability w) then (w, Ok tt)
      else
        let? (w, _u) := append_time_anchor (se_stamp env) (se_anchor_writes env) w in
        let w := flush_dwb w in
        let? (w, _u) := flush_buffer (se_writes env) w in
        let '(f, d, r) := fsync_and_track (se_fsync env) (ww_file w) (ww_durability w) in
        let w := w {{ ww_file := f; ww_durability := d }} in
        match r with
        | Err e => (w, Err e)
        | Ok _ => (publish_time_anchor w, Ok tt)
        end
  end.

(** [WalWriter::seal]. *)
Definition seal (env : SyncEnv) w : WalWriter D * result WalError unit :=
  let? (w, _u) := sync env w in
  (w {{ ww_sealed := true }}, Ok tt).

Definition set_encryption_ring (ring : KeyRing) w : WalWriter D * result WalError unit :=
  if negb (ww_file_offset w =? 0) || negb (ab_is_empty (ww_buffer w)) then (w, Err EncryptionError)
  else
    let preamble := preamble_new_wal (wk_epoch (kr_current ring)) in
    (w {{ ww_buffer ::= ab_write (preamble_to_bytes preamble);
          ww_encryption_ring := Some ring;
          ww_segment_preamble := Some preamble }}, Ok tt).

Definition max_payload w : usize :=
  N.min (ab_capacity (ww_buffer w) - (padding_reserve w + anchor_reserve w)
         - (N.of_nat HEADER_SIZE + encryption_tag w)) MAX_WAL_PAYLOAD_SIZE.

(** *** Opening *)

(** A writer at [file_offset] and [next_lsn] of a segment file. *)
Definition writer_at (c : WalWriterConfig) (f : SegFile) (buffer : AlignedBuf)
    (file_offset next_lsn : u64) (opened : option D) : WalWriter D :=
  let '(dwb, protection) := open_dwb_for c opened in
  MkWalWriter f buffer file_offset next_lsn false Synced c None None dwb protection 0 false None [].

(** [WalWriter::open] on a segment file and the bytes of its buffer file. The
    outer [option] is the buffer's assertion. *)
Definition open_writer (c : WalWriterConfig) (f : SegFile) (dwb_file : option bytes)
    (opened : option D) : option (result WalError (WalWriter D)) :=
  match aligned_buf_new (wc_write_buffer_size c) (wc_alignment c) with
  | None => None
  | Some (Err e) => Some (Err e)
  | Some (Ok buffer) =>
      if 0 <? flen (sf_bytes f) then
        match recover (Some (sf_bytes f)) dwb_file with
        | None => None
        | Some (Err e) => Some (Err e)
        | Some (Ok info) =>
            let offset := resume_offset (ri_end_offset info) (wc_use_direct_io c) (wc_alignment c) in
            Some (Ok (writer_at c f buffer offset (ri_next_lsn info) opened))
        end
      else Some (Ok (writer_at c f buffer 0 1 opened))
  end.

(** [open_resuming]. *)
Definition open_resuming (c : WalWriterConfig) (f : SegFile) (dwb_file : option bytes)
    (opened : option D) (declared_first_lsn : u64) : option (result WalError (WalWriter D)) :=
  match open_writer c f dwb_file opened with
  | Some (Ok w) => Some (Ok (w {{ ww_next_lsn ::= N.max declared_first_lsn }}))
  | other => other
  end.

(** [open_with_start_lsn]. *)
Definition open_with_start_lsn (c : WalWriterConfig) (f : SegFile) (opened : option D)
    (start_lsn : u64) : option (result WalError (WalWriter D)) :=
  match aligned_buf_new (wc_write_buffer_size c) (wc_alignment c) with
  | None => None
  | Some (Err e) => Some (Err e)
  | Some (Ok buffer) => Some (Ok (writer_at c f buffer 0 start_lsn opened))
  end.
End writer.
