(* ===== verification/WalWriterFacts.v ===== *)
(** * Facts on the WAL writer

    Writes and the aligned buffer, and the invariant of a writer: what is in
    the file and the buffer is a sequence of well-formed records, and what was
    acknowledged is durable and out of reach of later writes. *)

From Stdlib Require Import Lia.
From stdpp Require Import base option list.
From S2P Require Import Prelude WalRecord WalRecordFacts WalReader WalReaderFacts WalRecovery.
From S2P Require Import WalWriter.

Open Scope N_scope.

(** ** Overwriting *)

Lemma length_overwrite off data bs :
  length (overwrite off data bs) = Nat.max (length bs) (N.to_nat off + length data).
Proof.
  unfold overwrite. rewrite !length_app, length_take, length_drop, length_app, length_replicate. lia.
Qed.

(** Bytes before the write stay. *)
Lemma take_overwrite k off data bs :
  (k ≤ N.to_nat off)%nat → (k ≤ length bs)%nat → take k (overwrite off data bs) = take k bs.
Proof.
  intros Hk Hb. unfold overwrite. rewrite take_app_le; [|rewrite length_take, length_app, length_replicate; lia].
  rewrite take_take, Nat.min_l by lia. by apply take_app_le.
Qed.

(** A write at the end of what counts extends it. *)
Lemma take_overwrite_end off data bs :
  (N.to_nat off ≤ length bs)%nat →
  take (N.to_nat off + length data) (overwrite off data bs) = take (N.to_nat off) bs ++ data.
Proof.
  intros Hb. unfold overwrite. replace (N.to_nat off - length bs)%nat with 0%nat by lia.
  rewrite app_nil_r, app_assoc. apply take_app_length'.
  rewrite length_app, length_take. lia.
Qed.

Lemma prefix_take {A} (l k : list A) : l `prefix_of` k → take (length l) k = l.
Proof. intros [t ->]. apply take_app_length. Qed.

Lemma prefix_of_take {A} n (l k : list A) :
  l `prefix_of` k → (length l ≤ n)%nat → l `prefix_of` take n k.
Proof.
  intros [t ->] Hn. exists (take (n - length l) t). by rewrite take_app_ge.
Qed.

(** ** Files *)

(** Ranges written since the last fsync start at or after [k]. *)
Definition dirty_from (k : N) (f : SegFile) : Prop := Forall (λ w, k ≤ w.1) (sf_dirty f).

(** A power loss: what the last fsync made durable and no later write touched
    is still there. *)
Definition crash_image (f : SegFile) (img : bytes) : Prop :=
  (length (sf_synced f) ≤ length img)%nat ∧
  ∀ i b, sf_synced f !! i = Some b →
    Forall (λ w, ¬ (w.1 ≤ N.of_nat i < w.1 + w.2)) (sf_dirty f) → img !! i = Some b.

Lemma crash_image_prefix f img base :
  crash_image f img → base `prefix_of` sf_synced f → dirty_from (flen base) f →
  base `prefix_of` img.
Proof.
  intros [Hl Hi] [t Hb] Hd. exists (drop (length base) img).
  rewrite <-(take_drop (length base) img) at 1. f_equal. apply list_eq. intros i.
  destruct (decide (i < length base)%nat) as [Hlt|Hge].
  - rewrite lookup_take_lt by done. destruct (lookup_lt_is_Some_2 base i Hlt) as [b Hbi].
    rewrite Hbi. apply Hi.
    + by rewrite Hb, lookup_app_l.
    + eapply Forall_impl; [exact Hd|]. intros w Hw. unfold flen in Hw. lia.
  - rewrite lookup_take_ge by lia. symmetry. apply lookup_ge_None_2. lia.
Qed.

(** The effect of the write loop: nothing before [off] changes, all ranges it
    dirties start there or later, and on success the data is in place. *)
Lemma pwrite_loop_spec os : ∀ off data f f' r,
  pwrite_loop os off data f = (f', r) → off ≤ flen (sf_bytes f) →
  sf_synced f' = sf_synced f ∧ (length (sf_bytes f) ≤ length (sf_bytes f'))%nat ∧
  take (N.to_nat off) (sf_bytes f') = take (N.to_nat off) (sf_bytes f) ∧
  (∀ k, k ≤ off → dirty_from k f → dirty_from k f') ∧
  (r = Ok tt → off + flen data ≤ flen (sf_bytes f') ∧
     take (N.to_nat (off + flen data)) (sf_bytes f') = take (N.to_nat off) (sf_bytes f) ++ data).
Proof.
  assert (∀ off d f k, k ≤ off → dirty_from k f → dirty_from k (sf_pwrite off d f)) as Hdirty.
  { intros off d f k Hk Hd. unfold dirty_from. simpl. apply Forall_app. split; [done|].
    by constructor. }
  induction os as [|o os IH]; intros off data f f' r; destruct data as [|b data]; simpl pwrite_loop.
  1, 3: intros [= <- <-] Ho; split_and!; try done; intros _; rewrite N.add_0_r, app_nil_r; done.
  - intros [= <- <-] Ho. unfold flen in *. simpl sf_synced. simpl sf_bytes.
    rewrite length_overwrite. split_and!; [done|lia| |by intros; apply Hdirty|].
    + apply take_overwrite; lia.
    + intros _. split; [lia|]. rewrite <-take_overwrite_end by lia. f_equal. lia.
  - destruct o as [n|[]]; [|by intros [= <- <-] Ho ..].
    set (m := N.min n (flen (b :: data))). destruct (N.eqb_spec m 0) as [|Hm];
      [by intros [= <- <-] Ho|].
    intros Hl Ho. assert (m ≤ flen (b :: data)) as Hmle by lia. unfold flen in Ho, Hmle.
    assert (length (take (N.to_nat m) (b :: data)) = N.to_nat m) as Htl
      by (rewrite length_take; lia).
    apply IH in Hl as (H1 & H2 & H3 & H4 & H5);
      [|unfold flen; simpl sf_bytes; rewrite length_overwrite, Htl; lia].
    simpl sf_synced in H1. simpl sf_bytes in *. rewrite length_overwrite in H2.
    split_and!; [done|lia| | |].
    + apply (f_equal (take (N.to_nat off))) in H3. rewrite !take_take in H3.
      rewrite !Nat.min_l in H3 by lia. rewrite H3. apply take_overwrite; lia.
    + intros k Hk Hd. apply H4; [lia|]. by apply Hdirty.
    + intros Hr. destruct (H5 Hr) as [H5a H5b]. unfold flen in *. rewrite length_drop in *.
      split; [lia|]. replace (off + N.of_nat (length (b :: data)))
        with (off + m + N.of_nat (length (b :: data) - N.to_nat m)) by lia.
      rewrite H5b. replace (N.to_nat (off + m)) with (N.to_nat off + N.to_nat m)%nat by lia.
      rewrite <-Htl at 1. rewrite take_overwrite_end by lia. by rewrite <-app_assoc, take_drop.
Qed.

(** ** The buffer *)

Record buf_ok (b : AlignedBuf) : Prop := MkBufOk {
  bo_mem : flen (ab_mem b) = ab_capacity b;
  bo_len : ab_len b ≤ ab_capacity b;
}.

Lemma flen_as_slice b : buf_ok b → flen (as_slice b) = ab_len b.
Proof. intros [Hm Hl]. unfold as_slice, flen in *. rewrite length_take. lia. Qed.

(** A write that fits appends. *)
Lemma ab_write_fits data b :
  buf_ok b → flen data ≤ ab_remaining b →
  buf_ok (ab_write data b) ∧ as_slice (ab_write data b) = as_slice b ++ data ∧
  ab_len (ab_write data b) = ab_len b + flen data ∧
  ab_capacity (ab_write data b) = ab_capacity b ∧ ab_alignment (ab_write data b) = ab_alignment b.
Proof.
  intros [Hm Hl] Hd. unfold ab_write, as_slice, ab_remaining, flen in *.
  rewrite N.min_l by lia. rewrite take_ge by lia. simpl. split_and!; try done.
  - split; simpl; [|lia]. unfold flen. rewrite length_overwrite. lia.
  - rewrite <-take_overwrite_end by lia. f_equal. lia.
Qed.

Lemma ab_write_record r b :
  buf_ok b → wire_size r ≤ ab_remaining b →
  let b' := ab_write (wr_payload r) (ab_write (header_to_bytes (wr_header r)) b) in
  buf_ok b' ∧ as_slice b' = as_slice b ++ record_to_bytes r ∧ ab_len b' = ab_len b + wire_size r ∧
  ab_capacity b' = ab_capacity b ∧ ab_alignment b' = ab_alignment b.
Proof.
  intros Hb Hd. unfold wire_size in Hd.
  assert (flen (header_to_bytes (wr_header r)) = N.of_nat HEADER_SIZE) as Hh
    by (unfold flen; by rewrite length_header_to_bytes).
  destruct (ab_write_fits (header_to_bytes (wr_header r)) b Hb ltac:(lia))
    as (H1 & H2 & H3 & H4 & H5).
  assert (flen (wr_payload r) ≤ ab_remaining (ab_write (header_to_bytes (wr_header r)) b)) as Hp
    by (unfold ab_remaining in *; rewrite H3, H4, Hh; unfold flen; lia).
  destruct (ab_write_fits _ _ H1 Hp) as (H6 & H7 & H8 & H9 & H10).
  split_and!; [done| | |by rewrite H9|by rewrite H10].
  - rewrite H7, H2. unfold record_to_bytes. by rewrite app_assoc.
  - rewrite H8, H3, Hh. unfold wire_size, flen. lia.
Qed.

Lemma as_aligned_slice_aligned b k :
  buf_ok b → ab_alignment b = 2 ^ k → ab_len b mod 2 ^ k = 0 → as_aligned_slice b = as_slice b.
Proof.
  intros [_ Hl] Ha Hm. unfold as_aligned_slice, as_slice. rewrite Ha, round_up_fixed by done.
  by rewrite N.min_l.
Qed.

Lemma is_power_of_two_iff n : is_power_of_two n = true → ∃ k, n = 2 ^ k.
Proof.
  unfold is_power_of_two. intros [Hn Hl]%andb_true_iff. apply negb_true_iff, N.eqb_neq in Hn.
  apply N.eqb_eq in Hl. exists (N.log2 n).
  pose proof (N.log2_spec n ltac:(lia)) as [Hlo Hhi].
  destruct (N.eq_dec n (2 ^ N.log2 n)) as [|Hne]; [done|exfalso].
  assert (N.testbit (N.land n (n - 1)) (N.log2 n) = true) as Hb; [|by rewrite Hl, N.bits_0 in Hb].
  rewrite N.land_spec, N.bit_log2 by lia. simpl.
  assert (N.log2 (n - 1) = N.log2 n) as <-; [|apply N.bit_log2; pose proof (N.pow_nonzero 2 (N.log2 n)); lia].
  apply N.log2_unique; [lia|]. pose proof (N.pow_nonzero 2 (N.log2 n)). lia.
Qed.

Lemma aligned_buf_new_ok size align b :
  aligned_buf_new size align = Some (Ok b) →
  buf_ok b ∧ as_slice b = [] ∧ ab_len b = 0 ∧ ab_alignment b = align ∧ (∃ k, align = 2 ^ k) ∧
  ab_capacity b = round_up (N.max size align) align ∧ align ≤ ab_capacity b.
Proof.
  unfold aligned_buf_new. destruct (is_power_of_two align) eqn:Hp; [|done]. simpl.
  case_match; [done|]. intros [= <-]. simpl. apply is_power_of_two_iff in Hp as [k Hk].
  split_and!; try done.
  - split; simpl; [unfold flen; rewrite length_replicate|]; lia.
  - by exists k.
  - rewrite Hk. pose proof (round_up_bounds (N.max size (2 ^ k)) k). lia.
Qed.

Section padding.
Context `{Crc32c, !Crc32cLaws, Aes256Gcm}.

(** A padding record is well formed, skipped by replay, and of the size asked
    for. *)
Lemma padding_record_ok span :
  N.of_nat HEADER_SIZE ≤ span → span ≤ MAX_WAL_PAYLOAD_SIZE →
  ∃ r, padding_record span = Ok r ∧ record_wf r ∧ readable r = true ∧ surfaced r = false ∧
    wire_size r = span.
Proof.
  intros Hs Hm. unfold padding_record. rewrite (proj2 (N.ltb_ge _ _)) by done.
  unfold record_new. destruct (new_stamped _ _) as [r|e] eqn:Hn.
  - pose proof Hn as Hok. apply record_new_plain_wf in Hok as (Hwf & Hp & _ & Ht); [|by split|done].
    exists r. assert (logical_record_type r = 0) as Hlog
      by (unfold logical_record_type; by rewrite Ht).
    unfold readable, surfaced, wire_size. rewrite Hlog, Hp. simpl ra_payload.
    rewrite length_replicate. unfold HEADER_SIZE in *. split_and!; try done. lia.
  - exfalso. revert Hn. unfold new_stamped. simpl ra_payload. rewrite length_replicate.
    rewrite (proj2 (N.ltb_ge _ _)) by (unfold HEADER_SIZE in *; lia). done.
Qed.

(** Padding either leaves the buffer alone or appends one padding record that
    ends on a boundary. *)
Lemma pad_buffer_spec k b b' r :
  buf_ok b → ab_alignment b = 2 ^ k → 6 ≤ k → ab_capacity b ≤ MAX_WAL_PAYLOAD_SIZE →
  pad_buffer_to_alignment (2 ^ k) b = (b', r) →
  buf_ok b' ∧ ab_capacity b' = ab_capacity b ∧ ab_alignment b' = ab_alignment b ∧
  (r = Ok tt → ab_len b' mod 2 ^ k = 0) ∧
  ∃ pads, as_slice b' = as_slice b ++ segment_bytes pads ∧ Forall record_wf pads ∧
    Forall (λ p, readable p = true) pads ∧ List.filter surfaced pads = [].
Proof.
  intros Hb Ha Hk Hc. unfold pad_buffer_to_alignment.
  assert (∀ x : Prop, x → buf_ok b ∧ ab_capacity b = ab_capacity b ∧ ab_alignment b = ab_alignment b ∧
    x ∧ ∃ pads, as_slice b = as_slice b ++ segment_bytes pads ∧ Forall record_wf pads ∧
    Forall (λ p, readable p = true) pads ∧ List.filter surfaced pads = []) as Hsame.
  { intros x Hx. split_and!; try done. exists []. rewrite app_nil_r. by split_and!. }
  destruct (padding_span (ab_len b) (2 ^ k)) as [span|] eqn:Hs.
  - destruct (N.ltb_spec (ab_remaining b) span) as [|Hr]; [intros [= <- <-]; by apply Hsame|].
    apply padding_span_some in Hs as (Hal & Hmin & _); [|done].
    destruct (padding_record_ok span) as (p & -> & Hwf & Hrd & Hsf & Hsz);
      [done|unfold ab_remaining in Hr; lia|].
    intros [= <- <-]. destruct (ab_write_record p b Hb ltac:(lia)) as (B1 & B2 & B3 & B4 & B5).
    split_and!; [done|done|done|by rewrite B3, Hsz|]. exists [p]. rewrite B2. simpl. rewrite Hsf.
    unfold segment_bytes. simpl. rewrite app_nil_r. split_and!; try done; by constructor.
  - intros [= <- <-]. apply Hsame. intros _. by apply padding_span_none.
Qed.
End padding.

(** ** The invariant of a writer *)

(** The bytes before the first record: none, or a preamble. *)
Definition valid_pre (pre : bytes) : Prop :=
  pre = [] ∨ length pre = PREAMBLE_SIZE ∧ take 4 pre = WAL_PREAMBLE_MAGIC ∧
    le_at 4 2 pre = PREAMBLE_VERSION.

(** Alignment is a power of two that holds a record header. *)
Definition config_ok (c : WalWriterConfig) : Prop := ∃ k, 6 ≤ k ∧ wc_alignment c = 2 ^ k.

(** The segment through its last acknowledged record. *)
Definition durable_base (pre : bytes) (rs : list WalRecord) : bytes :=
  match rs with [] => [] | _ => pre ++ segment_bytes rs end.

Lemma segment_bytes_nil rs : segment_bytes rs = [] → rs = [].
Proof.
  destruct rs as [|r rs]; [done|]. intros Hs. apply (f_equal flen) in Hs.
  change (segment_bytes (r :: rs)) with (record_to_bytes r ++ segment_bytes rs) in Hs.
  rewrite flen_app, flen_record in Hs. unfold wire_size, flen, HEADER_SIZE in Hs. simpl in Hs. lia.
Qed.

Definition lsn_of (r : WalRecord) : u64 := rh_lsn (wr_header r).

(** The LSNs count up from [start]. *)
Definition dense (start : u64) (rs : list WalRecord) : Prop :=
  ∀ i r, rs !! i = Some r → lsn_of r = start + N.of_nat i.

Lemma dense_nil start : dense start [].
Proof. done. Qed.

Lemma dense_one r : dense (lsn_of r) [r].
Proof. intros [|i] r'; [|done]. intros [= <-]. simpl. lia. Qed.

Lemma dense_app start a b :
  dense start (a ++ b) ↔ dense start a ∧ dense (start + N.of_nat (length a)) b.
Proof.
  unfold dense. split.
  - intros Hd. split; intros i r Hi.
    + apply Hd. by apply lookup_app_l_Some.
    + rewrite (Hd (length a + i)%nat r); [lia|]. rewrite lookup_app_r by lia. by rewrite Nat.add_comm, Nat.add_sub.
  - intros [Ha Hb] i r [Hi|[Hle Hi]]%lookup_app_Some; [by apply Ha|]. apply Hb in Hi. lia.
Qed.

Section inv.
Context `{Crc32c, !Crc32cLaws, Aes256Gcm} {D : Type} `{DoubleWriteBuffer D}.
Implicit Types (w : WalWriter D).

(** [rs] are the records of the file and the buffer, [rsF] those the file
    holds, [rsR] those that were there at the last open or sync, and [rsA]
    those a sync made durable; [acked], [recov] and [pending] are the records
    replay would hand out of them. *)
Record writer_inv w (acked recov pending : list WalRecord) (pre : bytes)
    (rs rsF rsR rsA : list WalRecord) : Prop := MkWriterInv {
  wi_config : config_ok (ww_config w);
  wi_buf : buf_ok (ww_buffer w);
  wi_capacity : ab_capacity (ww_buffer w) ≤ MAX_WAL_PAYLOAD_SIZE;
  wi_align : ab_alignment (ww_buffer w) = wc_alignment (ww_config w);
  wi_fits : wc_alignment (ww_config w) ≤ ab_capacity (ww_buffer w);
  wi_room : ww_file_offset w ≤ flen (sf_bytes (ww_file w));
  wi_log : take (N.to_nat (ww_file_offset w)) (sf_bytes (ww_file w)) ++ as_slice (ww_buffer w) =
    pre ++ segment_bytes rs;
  wi_file : ww_file_offset w = 0 ∧ rsF = [] ∨
    take (N.to_nat (ww_file_offset w)) (sf_bytes (ww_file w)) = pre ++ segment_bytes rsF;
  wi_pre : valid_pre pre;
  wi_wf : Forall record_wf rs;
  wi_readable : Forall (λ r, readable r = true) rs;
  wi_filed : rsF `prefix_of` rs;
  wi_opened : rsR `prefix_of` rsF;
  wi_durable : rsA `prefix_of` rsR;
  wi_acked : List.filter surfaced rsA = acked;
  wi_recov : List.filter surfaced rsR = acked ++ recov;
  wi_pending : List.filter surfaced rs = acked ++ recov ++ pending;
  wi_base : durable_base pre rsA `prefix_of` sf_synced (ww_file w);
  wi_dirty : dirty_from (flen (durable_base pre rsA)) (ww_file w);
  wi_synced : ww_durability w = Synced → rsR = rsF;
}.

(** What the invariant depends on. *)
Definition core w := (ww_file w, ww_buffer w, ww_file_offset w, ww_durability w, ww_config w).

Lemma writer_inv_core w w' acked recov pending pre rs rsF rsR rsA :
  core w' = core w → writer_inv w acked recov pending pre rs rsF rsR rsA →
  writer_inv w' acked recov pending pre rs rsF rsR rsA.
Proof.
  unfold core. intros [= E1 E2 E3 E4 E5] [].
  split; rewrite ?E1, ?E2, ?E3, ?E4, ?E5; done.
Qed.

(** What the operations besides append, flush and fsync keep. *)
Definition same_core w w' : Prop :=
  core w' = core w ∧ ww_next_lsn w' = ww_next_lsn w ∧ ww_sealed w' = ww_sealed w ∧
  ww_encryption_ring w' = ww_encryption_ring w ∧
  ww_segment_preamble w' = ww_segment_preamble w ∧ ww_unanchored w' = ww_unanchored w ∧
  ww_pending_anchor w' = ww_pending_anchor w.

#[local] Instance same_core_preorder : PreOrder same_core.
Proof.
  split; [by intros w; split_and!|]. intros w1 w2 w3 H12 H23. unfold same_core in *.
  destruct_and!. split_and!; by etrans.
Qed.

Lemma note_unprotected_core w : same_core w (note_unprotected w).
Proof. done. Qed.

Lemma mirror_core r w : same_core w (mirror_into_dwb r w).
Proof. unfold mirror_into_dwb. by repeat case_match. Qed.

Lemma flush_dwb_core w : same_core w (flush_dwb w).
Proof.
  unfold flush_dwb. repeat case_match; try done.
  induction (N.to_nat (staged_slots _)) as [|n IH]; [done|]. simpl.
  etrans; [exact IH|apply note_unprotected_core].
Qed.

(** The buffer reaches at most where the file's records end. *)
Lemma durable_base_le w acked recov pending pre rs rsF rsR rsA :
  writer_inv w acked recov pending pre rs rsF rsR rsA →
  flen (durable_base pre rsA) ≤ ww_file_offset w.
Proof.
  intros [_ _ _ _ _ Hroom _ Hfile _ _ _ _ Hop Hdu _ _ _ _ _ _].
  destruct (transitivity Hdu Hop) as [t Hd].
  destruct Hfile as [[-> ->]|Hfile].
  - destruct rsA; [done|]. discriminate.
  - apply (f_equal flen) in Hfile. rewrite flen_take, flen_app, Hd, segment_bytes_app, flen_app in Hfile
      by done.
    destruct rsA; [unfold flen; simpl; lia|]. unfold durable_base. rewrite flen_app. lia.
Qed.

(** An empty buffer: everything is in the file. *)
Lemma inv_empty w acked recov pending pre rs rsF rsR rsA :
  writer_inv w acked recov pending pre rs rsF rsR rsA → ab_len (ww_buffer w) = 0 → rsF = rs.
Proof.
  intros [_ Hb _ _ _ _ Hlog Hfile _ _ _ [t Ht] _ _ _ _ _ _ _ _] Hz.
  assert (as_slice (ww_buffer w) = []) as He by (unfold as_slice; by rewrite Hz).
  rewrite He, app_nil_r in Hlog. destruct Hfile as [[Ho ->]|Hfile].
  - rewrite Ho in Hlog. symmetry in Hlog. apply app_nil in Hlog as [_ Hs].
    symmetry. by apply segment_bytes_nil.
  - rewrite Hfile, Ht, segment_bytes_app in Hlog. apply app_inv_head in Hlog.
    rewrite <-(app_nil_r (segment_bytes rsF)) in Hlog at 1. apply app_inv_head in Hlog.
    rewrite Ht. symmetry in Hlog. apply segment_bytes_nil in Hlog as ->. by rewrite app_nil_r.
Qed.

(** *** Flushing *)

Lemma record_flush_poisoned d : record_flush d = Poisoned ↔ d = Poisoned.
Proof. by destruct d. Qed.

Definition flush_keeps w w' : Prop :=
  ww_next_lsn w' = ww_next_lsn w ∧ ww_sealed w' = ww_sealed w ∧ ww_config w' = ww_config w ∧
  ww_encryption_ring w' = ww_encryption_ring w ∧
  ww_segment_preamble w' = ww_segment_preamble w ∧ ww_unanchored w' = ww_unanchored w ∧
  ab_capacity (ww_buffer w') = ab_capacity (ww_buffer w) ∧
  (ww_durability w = Poisoned ↔ ww_durability w' = Poisoned).

(** The padding of a batch. *)
Lemma inv_pad w acked recov pending pre rs rsF rsR rsA b :
  writer_inv w acked recov pending pre rs rsF rsR rsA → buf_ok b →
  ab_capacity b = ab_capacity (ww_buffer w) → ab_alignment b = ab_alignment (ww_buffer w) →
  (∃ pads, as_slice b = as_slice (ww_buffer w) ++ segment_bytes pads ∧ Forall record_wf pads ∧
    Forall (λ p, readable p = true) pads ∧ List.filter surfaced pads = []) →
  ∃ rs', writer_inv (w {{ ww_buffer := b }}) acked recov pending pre rs' rsF rsR rsA.
Proof.
  intros [] Hb Hc Ha (pads & Hs & Hwf & Hrd & Hsf). exists (rs ++ pads).
  split; simpl; rewrite ?Hc, ?Ha; try done.
  - by rewrite Hs, app_assoc, wi_log0, segment_bytes_app, app_assoc.
  - by apply Forall_app.
  - by apply Forall_app.
  - by apply prefix_app_r.
  - by rewrite List.filter_app, Hsf, app_nil_r.
Qed.

(** Bytes a later write starts after stay durable and in place. *)
Lemma inv_write w acked recov pending pre rs rsF rsR rsA os data f r :
  writer_inv w acked recov pending pre rs rsF rsR rsA →
  pwrite_loop os (ww_file_offset w) data (ww_file w) = (f, r) →
  writer_inv (w {{ ww_file := f }}) acked recov pending pre rs rsF rsR rsA.
Proof.
  intros Hinv Hp. pose proof (durable_base_le _ _ _ _ _ _ _ _ _ Hinv) as Hle. destruct Hinv.
  apply pwrite_loop_spec in Hp as (Hsy & Hlen & Htk & Hdi & _); [|done].
  split; simpl; rewrite ?Htk, ?Hsy; try done.
  - unfold flen in *. lia.
  - by apply Hdi.
Qed.

Lemma inv_flushed w acked recov pending pre rs rsF rsR rsA os f :
  writer_inv w acked recov pending pre rs rsF rsR rsA →
  pwrite_loop os (ww_file_offset w) (as_slice (ww_buffer w)) (ww_file w) = (f, Ok tt) →
  writer_inv (w {{ ww_file := f }} {{ ww_file_offset ::= λ o, o + flen (as_slice (ww_buffer w));
    ww_buffer ::= ab_clear; ww_durability ::= record_flush }}) acked recov pending pre rs rs rsR rsA.
Proof.
  intros Hinv Hp. pose proof (inv_write _ _ _ _ _ _ _ _ _ _ _ _ _ Hinv Hp) as Hinv'.
  apply pwrite_loop_spec in Hp as (_ & _ & _ & _ & Hok); [|apply Hinv].
  destruct (Hok eq_refl) as [Hroom Hdata]. rewrite (wi_log _ _ _ _ _ _ _ _ _ Hinv) in Hdata.
  destruct Hinv'. split; simpl in *; try done.
  - destruct wi_buf0. split; simpl; [done|lia].
  - by rewrite app_nil_r.
  - by right.
  - by transitivity rsF.
  - by destruct (ww_durability w).
Qed.

Lemma flush_inv w acked recov pending pre rs rsF rsR rsA os w' r :
  writer_inv w acked recov pending pre rs rsF rsR rsA → flush_buffer os w = (w', r) →
  flush_keeps w w' ∧
  (∃ rs' rsF', writer_inv w' acked recov pending pre rs' rsF' rsR rsA) ∧
  (r = Ok tt → ab_len (ww_buffer w') = 0 ∧
    (ab_len (ww_buffer w) ≠ 0 → ww_durability w' ≠ Synced)).
Proof.
  intros Hinv. unfold flush_buffer, ab_is_empty.
  destruct (N.eqb_spec (ab_len (ww_buffer w)) 0) as [Hz|Hz].
  { intros [= <- <-]. split; [done|]. split; [by exists rs, rsF|done]. }
  set (prep := if wc_use_direct_io _ then _ else _).
  assert (∃ w1 res, prep = (w1, res) ∧ core w1 = core (w {{ ww_buffer := ww_buffer w1 }}) ∧
    flush_keeps w w1 ∧ (∃ rs', writer_inv w1 acked recov pending pre rs' rsF rsR rsA) ∧
    ∀ data, res = Ok data → data = as_slice (ww_buffer w1)) as
    (w1 & res & -> & Hcore & Hk1 & (rs1 & Hinv1) & Hdata).
  { unfold prep. destruct (wc_use_direct_io (ww_config w)).
    2:{ eexists w, _. split; [reflexivity|]. split_and!; try done; [by exists rs|].
        by intros data [= <-]. }
    destruct (wi_config _ _ _ _ _ _ _ _ _ Hinv) as (k & Hk & Hka).
    pose proof (wi_align _ _ _ _ _ _ _ _ _ Hinv) as Ha. rewrite Hka in *.
    destruct (pad_buffer_to_alignment (2 ^ k) (ww_buffer w)) as [b pr] eqn:Hp.
    apply pad_buffer_spec in Hp as (Hb & Hc & Hal & Hmod & Hpads); try done;
      [|by eapply wi_buf|by eapply wi_capacity].
    destruct (inv_pad _ _ _ _ _ _ _ _ _ b Hinv Hb Hc Hal Hpads) as [rs' Hinv'].
    exists (w {{ ww_buffer := b }}). destruct pr as [[]|e]; eexists; (split; [reflexivity|]);
      (split_and!; [done|done|by exists rs'|]); [|done].
    intros data [= <-]. apply (as_aligned_slice_aligned _ k); [done|by rewrite Hal|by apply Hmod]. }
  destruct res as [data|e].
  2:{ intros [= <- <-]. split; [done|]. split; [by exists rs1, rsF|done]. }
  rewrite (Hdata data eq_refl).
  destruct (pwrite_loop os (ww_file_offset w1) (as_slice (ww_buffer w1)) (ww_file w1))
    as [f [[]|e]] eqn:Hp; intros [= <- <-].
  - split; [|split].
    + unfold flush_keeps in *. simpl. destruct_and!. split_and!; try done. by rewrite record_flush_poisoned.
    + exists rs1, rs1. by apply (inv_flushed _ _ _ _ _ _ rsF _ _ os).
    + intros _. split; [done|]. intros _. simpl. by destruct (ww_durability w1).
  - split; [done|]. split; [|done]. exists rs1, rsF. by eapply inv_write.
Qed.

(** *** Appending *)

(** A record of a known type that carries data, its numbers within their
    widths. *)
Record target_ok (target : RecordTarget) (apply_key : u64) : Prop := MkTargetOk {
  to_type : ∃ t, rt_record_type target = record_type_raw t ∧ t ≠ Noop;
  to_tenant : rt_tenant_id target < 2 ^ 64;
  to_vshard : rt_vshard_id target < 2 ^ 32;
  to_database : rt_database_id target < 2 ^ 64;
  to_source : rt_event_source target < 2 ^ 8;
  to_hlc : rt_commit_hlc target < 2 ^ 64;
  to_key : apply_key < 2 ^ 64;
}.

Lemma target_args_fit target payload key w :
  target_ok target key → ww_next_lsn w < 2 ^ 64 →
  args_fit (append_args target payload w) (append_stamp target key).
Proof.
  intros [(t & Ht & _)] Hl. split; simpl; try done. rewrite Ht.
  pose proof (record_type_lt t). lia.
Qed.

Lemma flagged_lt t : N.lor (record_type_raw t) ENCRYPTED_FLAG < 2 ^ 32.
Proof. by destruct t. Qed.

(** Replay hands out a record by its type, flagged as encrypted or not. *)
Lemma typed_surfaced r t :
  t ≠ Noop → logical_record_type r = record_type_raw t → readable r = true ∧ surfaced r = true.
Proof.
  intros Ht Hl. unfold readable, surfaced. rewrite Hl, from_raw_record_type.
  by rewrite bool_decide_false.
Qed.

Lemma new_stamped_wf args stamp t r :
  args_fit args stamp → ra_record_type args = record_type_raw t → t ≠ Noop →
  new_stamped args stamp = Ok r → flen (wr_payload r) ≤ MAX_WAL_PAYLOAD_SIZE →
  record_wf r ∧ readable r = true ∧ surfaced r = true ∧ rh_lsn (wr_header r) = ra_lsn args.
Proof.
  intros Hf Ht Hn Hr Hm. destruct (ra_encryption_key args) as [key|] eqn:Hk.
  - apply (new_stamped_encrypted _ _ _ _ Hk) in Hr as (_ & c & _ & ->).
    destruct (typed_surfaced (seal_record (MkWalRecord (encrypted_header args stamp c) c)) t Hn)
      as [Hrd Hsf].
    { unfold logical_record_type. simpl. rewrite Ht. apply strip_encrypted_flagged. }
    split_and!; try done. apply seal_record_wf; [done|rewrite Ht; apply flagged_lt|exact Hm].
  - destruct (record_new_plain_wf _ _ _ Hf Hk Hr) as (Hwf & _ & Hl & Hty).
    destruct (typed_surfaced r t Hn) as [Hrd Hsf]; [|by split_and!].
    unfold logical_record_type. rewrite Hty, Ht. apply strip_encrypted_plain.
Qed.

(** A record that fits joins the log. *)
Lemma inv_append w acked recov pending pre rs rsF rsR rsA r :
  writer_inv w acked recov pending pre rs rsF rsR rsA → record_wf r → readable r = true →
  surfaced r = true → wire_size r ≤ ab_remaining (ww_buffer w) →
  writer_inv
    (w {{ ww_buffer ::= ab_write (header_to_bytes (wr_header r)) }}
       {{ ww_buffer ::= ab_write (wr_payload r) }})
    acked recov (pending ++ [r]) pre (rs ++ [r]) rsF rsR rsA.
Proof.
  intros [] Hwf Hrd Hsf Hsz.
  destruct (ab_write_record r (ww_buffer w) wi_buf0 Hsz) as (B1 & B2 & B3 & B4 & B5).
  split; simpl; rewrite ?B4, ?B5; try done.
  - rewrite B2, app_assoc, wi_log0, segment_bytes_app. unfold segment_bytes at 3. simpl.
    by rewrite app_nil_r, app_assoc.
  - apply Forall_app. split; [done|by constructor].
  - apply Forall_app. split; [done|by constructor].
  - by apply prefix_app_r.
  - rewrite List.filter_app, wi_pending0. simpl. by rewrite Hsf, !app_assoc.
Qed.

Definition append_keeps w w' : Prop :=
  ww_sealed w' = ww_sealed w ∧ ww_config w' = ww_config w ∧
  ww_encryption_ring w' = ww_encryption_ring w ∧
  ww_segment_preamble w' = ww_segment_preamble w ∧
  (ww_durability w = Poisoned ↔ ww_durability w' = Poisoned).

Lemma append_keeps_refl w : append_keeps w w.
Proof. done. Qed.

Lemma append_inv os target payload key extra w acked recov pending pre rs rsF rsR rsA w' res :
  writer_inv w acked recov pending pre rs rsF rsR rsA → target_ok target key → ww_next_lsn w < 2 ^ 64 →
  append_reserving os target payload key extra w = (w', res) →
  append_keeps w w' ∧
  match res with
  | Ok lsn => lsn = ww_next_lsn w ∧ ww_next_lsn w' = lsn + 1 ∧
      ∃ r rs' rsF', new_stamped (append_args target payload w) (append_stamp target key) = Ok r ∧
        writer_inv w' acked recov (pending ++ [r]) pre rs' rsF' rsR rsA
  | Err _ => ww_next_lsn w' = ww_next_lsn w ∧
      ∃ rs' rsF', writer_inv w' acked recov pending pre rs' rsF' rsR rsA
  end.
Proof.
  intros Hinv Ht Hl. unfold append_reserving.
  destruct (ww_sealed w) eqn:Hse; [intros [= <- <-]; eauto using append_keeps_refl|].
  destruct (durability_check _); [|intros [= <- <-]; eauto using append_keeps_refl].
  destruct (new_stamped _ _) as [r|e] eqn:Hr; [|intros [= <- <-]; eauto using append_keeps_refl].
  change (N.of_nat HEADER_SIZE + flen (wr_payload r)) with (wire_size r).
  case_match eqn:Hu; [intros [= <- <-]; eauto using append_keeps_refl|]. apply N.ltb_ge in Hu.
  assert (wire_size r ≤ ab_capacity (ww_buffer w) ∧ flen (wr_payload r) ≤ MAX_WAL_PAYLOAD_SIZE)
    as [Hcap Hmax].
  { pose proof (wi_capacity _ _ _ _ _ _ _ _ _ Hinv). unfold wire_size, flen in *. lia. }
  destruct Ht as [(t & Hty & Htn)] eqn:Hteq; clear Hteq.
  destruct (new_stamped_wf _ _ t _ (target_args_fit _ payload _ w Ht Hl) Hty Htn Hr Hmax)
    as (Hwf & Hrd & Hsf & _).
  set (flushed := if ab_remaining _ <? _ then _ else _).
  assert (∃ w1 u, flushed = (w1, u) ∧ flush_keeps w w1 ∧
    (∃ rs' rsF', writer_inv w1 acked recov pending pre rs' rsF' rsR rsA) ∧
    (u = Ok tt → wire_size r ≤ ab_remaining (ww_buffer w1))) as
    (w1 & u & -> & Hk & (rs1 & rsF1 & Hinv1) & Hfit).
  { unfold flushed. destruct (N.ltb_spec (ab_remaining (ww_buffer w))
      (wire_size r + (padding_reserve w + extra))) as [Hrem|Hrem].
    - destruct (flush_buffer os w) as [w1 u] eqn:Hfl.
      destruct (flush_inv _ _ _ _ _ _ _ _ _ _ _ _ Hinv Hfl) as (Hk & Hinv1 & Hok).
      exists w1, u. split_and!; try done. intros ->. destruct (Hok eq_refl) as [Hz _].
      unfold ab_remaining. rewrite Hz. destruct Hk as (_ & _ & _ & _ & _ & _ & -> & _). lia.
    - exists w, (Ok tt). split_and!; try done; [by eauto|]. intros _. lia. }
  destruct u as [[]|e].
  - intros [= <- <-]. pose proof (mirror_core r (w1 {{ ww_buffer ::= ab_write (header_to_bytes (wr_header r)) }}
      {{ ww_buffer ::= ab_write (wr_payload r) }})) as Hm.
    unfold flush_keeps, same_core, append_keeps in *. destruct_and!. simpl in *.
    match goal with E : core _ = _ |- _ => injection E as E1 E2 E3 E4 E5 end.
    split; [split_and!; congruence|]. split_and!; [done|done|]. exists r, (rs1 ++ [r]), rsF1.
    split; [done|]. eapply writer_inv_core; [|exact (inv_append w1 _ _ _ _ _ _ _ _ r Hinv1 Hwf Hrd Hsf (Hfit eq_refl))].
    unfold core. simpl. congruence.
  - intros [= <- <-]. unfold flush_keeps, append_keeps in *. destruct_and!. by eauto 10.
Qed.

(** *** Group commit *)

Definition is_time_anchor (r : WalRecord) : Prop :=
  logical_record_type r = record_type_raw TimeAnchor.

Lemma new_stamped_lsn args stamp r : new_stamped args stamp = Ok r → lsn_of r = ra_lsn args.
Proof.
  intros Hr. unfold lsn_of. destruct (ra_encryption_key args) as [key|] eqn:Hk.
  - destruct (new_stamped_encrypted _ _ _ _ Hk Hr) as (_ & c & _ & Hc). by rewrite Hc.
  - revert Hr. unfold new_stamped. rewrite Hk. destruct (_ <? _); [done|]. simpl. by intros [= <-].
Qed.

Lemma new_stamped_type args stamp t r :
  ra_record_type args = record_type_raw t → new_stamped args stamp = Ok r →
  logical_record_type r = record_type_raw t.
Proof.
  intros Ht Hr. unfold logical_record_type. destruct (ra_encryption_key args) as [key|] eqn:Hk.
  - destruct (new_stamped_encrypted _ _ _ _ Hk Hr) as (_ & c & _ & Hc). rewrite Hc. simpl. rewrite Ht.
    apply strip_encrypted_flagged.
  - revert Hr. unfold new_stamped. rewrite Hk. destruct (_ <? _); [done|]. simpl. intros [= <-]. simpl.
    rewrite Ht. apply strip_encrypted_plain.
Qed.

Lemma record_type_bits t : N.land (record_type_raw t) ENCRYPTED_FLAG = 0.
Proof. by destruct t. Qed.

Lemma new_stamped_plain args stamp r :
  ra_encryption_key args = None → N.land (ra_record_type args) ENCRYPTED_FLAG = 0 →
  new_stamped args stamp = Ok r → is_encrypted r = false.
Proof.
  intros Hk Ht. unfold new_stamped. rewrite Hk. destruct (_ <? _); [done|]. simpl. intros [= <-].
  unfold is_encrypted. simpl. by rewrite Ht.
Qed.

(** Records a writer issued one after the other: their LSNs count up from its
    next one, and without a key they are plaintext. *)
Definition issued w (rs : list WalRecord) : Prop :=
  dense (ww_next_lsn w) rs ∧ (ww_encryption_ring w = None → Forall (λ r, is_encrypted r = false) rs).

Lemma issued_nil w : issued w [].
Proof. by split. Qed.

Lemma anchor_inv os stamp w acked recov pending pre rs rsF rsR rsA w' res :
  writer_inv w acked recov pending pre rs rsF rsR rsA → ww_next_lsn w < 2 ^ 64 →
  append_time_anchor stamp os w = (w', res) →
  append_keeps w w' ∧ ∃ anchors rs' rsF', Forall is_time_anchor anchors ∧ issued w anchors ∧
    ww_next_lsn w' = ww_next_lsn w + N.of_nat (length anchors) ∧
    writer_inv w' acked recov (pending ++ anchors) pre rs' rsF' rsR rsA.
Proof.
  intros Hinv Hl. unfold append_time_anchor.
  assert (append_keeps w w ∧ ∃ anchors rs' rsF', Forall is_time_anchor anchors ∧ issued w anchors ∧
    ww_next_lsn w = ww_next_lsn w + N.of_nat (length anchors) ∧
    writer_inv w acked recov (pending ++ anchors) pre rs' rsF' rsR rsA) as Hsame.
  { split; [done|]. exists [], rs, rsF. rewrite app_nil_r, N.add_0_r. by split_and!. }
  destruct (negb (ww_unanchored w)); [by intros [= <- <-]|].
  destruct (negb (wc_time_anchors _)); [by intros [= <- <-]|].
  set (target := MkRecordTarget _ 0 0 0 _ 0).
  assert (target_ok target 0) as Ht by (split; try done; by exists TimeAnchor).
  destruct (append_reserving os target (to_le 8 stamp) 0 0 w) as [w1 u] eqn:Ha.
  destruct (append_inv _ _ _ _ _ _ _ _ _ _ _ _ _ _ _ _ Hinv Ht Hl Ha) as [Hk Hres].
  destruct u as [lsn|e]; intros [= <- <-].
  - destruct Hres as (-> & Hn & r & rs' & rsF' & Hr & Hinv'). split; [done|].
    exists [r], rs', rsF'. split_and!.
    + constructor; [|done]. by apply (new_stamped_type _ _ TimeAnchor _) in Hr.
    + split.
      * apply new_stamped_lsn in Hr. simpl in Hr. rewrite <-Hr. apply dense_one.
      * intros Hring. constructor; [|done]. refine (new_stamped_plain _ _ _ _ _ Hr);
          [simpl; by rewrite Hring|apply (record_type_bits TimeAnchor)].
    + exact Hn.
    + eapply writer_inv_core; [|exact Hinv']. done.
  - destruct Hres as (Hn & rs' & rsF' & Hinv'). split; [done|].
    exists [], rs', rsF'. rewrite app_nil_r, N.add_0_r. by split_and!.
Qed.

(** A successful fsync of an empty buffer acknowledges the log. *)
Lemma inv_synced w acked recov pending pre rs rsF rsR rsA :
  writer_inv w acked recov pending pre rs rsF rsR rsA → ab_len (ww_buffer w) = 0 →
  writer_inv (w {{ ww_file := sf_fsync (ww_file w); ww_durability ::= record_sync_ok }})
    (acked ++ recov ++ pending) [] [] pre rs rs rs rs.
Proof.
  intros Hinv Hz. pose proof (inv_empty _ _ _ _ _ _ _ _ _ Hinv Hz) as ->. destruct Hinv.
  split; simpl; rewrite ?app_nil_r; try done; [|constructor].
  destruct wi_file0 as [[_ ->]|Hf]; [apply prefix_nil|].
  destruct rs as [|r rs']; [apply prefix_nil|]. unfold durable_base. rewrite <-Hf.
  eexists. symmetry. apply take_drop.
Qed.

Lemma inv_poisoned w acked recov pending pre rs rsF rsR rsA :
  writer_inv w acked recov pending pre rs rsF rsR rsA →
  writer_inv (w {{ ww_durability := Poisoned }}) acked recov pending pre rs rsF rsR rsA.
Proof. intros []. by split. Qed.

Definition sync_keeps w w' : Prop :=
  ww_sealed w' = ww_sealed w ∧ ww_config w' = ww_config w ∧
  ww_encryption_ring w' = ww_encryption_ring w ∧
  ww_segment_preamble w' = ww_segment_preamble w.

Lemma publish_core w : core (publish_time_anchor w) = core w ∧ sync_keeps w (publish_time_anchor w) ∧
  ww_next_lsn (publish_time_anchor w) = ww_next_lsn w.
Proof. unfold publish_time_anchor. by repeat case_match. Qed.

(** Nothing is pending in a synced writer with an empty buffer. *)
Lemma inv_idle w acked recov pending pre rs rsF rsR rsA :
  writer_inv w acked recov pending pre rs rsF rsR rsA → ab_len (ww_buffer w) = 0 →
  ww_durability w = Synced → pending = [].
Proof.
  intros Hinv Hz Hs. pose proof (inv_empty _ _ _ _ _ _ _ _ _ Hinv Hz) as ->.
  destruct Hinv. rewrite <-(wi_synced0 Hs), wi_recov0, app_assoc in wi_pending0.
  rewrite <-(app_nil_r (acked ++ recov)) in wi_pending0 at 1. by apply app_inv_head in wi_pending0.
Qed.

(** An acknowledged sync leaves nothing pending; one that fails loses
    nothing. *)
Lemma sync_inv env w acked recov pending pre rs rsF rsR rsA w' res :
  writer_inv w acked recov pending pre rs rsF rsR rsA → ww_next_lsn w < 2 ^ 64 → sync env w = (w', res) →
  sync_keeps w w' ∧ ∃ anchors, Forall is_time_anchor anchors ∧ issued w anchors ∧
    ww_next_lsn w' = ww_next_lsn w + N.of_nat (length anchors) ∧
    match res with
    | Ok _ => (∃ rs', writer_inv w' (acked ++ recov ++ pending ++ anchors) [] [] pre rs' rs' rs' rs') ∨
        pending = [] ∧ anchors = [] ∧ w' = w
    | Err _ => ∃ rs' rsF', writer_inv w' acked recov (pending ++ anchors) pre rs' rsF' rsR rsA
    end.
Proof.
  intros Hinv Hl. unfold sync.
  destruct (durability_check (ww_durability w)) as [[]|e] eqn:Hc.
  2:{ intros [= <- <-]. split; [done|]. exists []. rewrite app_nil_r, N.add_0_r. split_and!; eauto using issued_nil. }
  destruct (should_skip_sync _ _) eqn:Hsk.
  { intros [= <- <-]. split; [done|]. exists []. rewrite N.add_0_r. split_and!; [done..|]. right.
    apply andb_prop in Hsk as [He Hd]. apply N.eqb_eq in He. split; [|done].
    apply (inv_idle _ _ _ _ _ _ _ _ _ Hinv He). by destruct (ww_durability w). }
  destruct (append_time_anchor _ _ w) as [w1 u] eqn:Ha.
  destruct (anchor_inv _ _ _ _ _ _ _ _ _ _ _ _ _ Hinv Hl Ha) as
    (Hk1 & anchors & rs1 & rsF1 & Han & Hde & Hn1 & Hinv1).
  destruct u as [[]|e].
  2:{ intros [= <- <-]. unfold append_keeps, sync_keeps in *. destruct_and!. split; [done|].
      exists anchors. split_and!; [done|done|done|]. by exists rs1, rsF1. }
  pose proof (flush_dwb_core w1) as Hd. set (w2 := flush_dwb w1) in *.
  assert (writer_inv w2 acked recov (pending ++ anchors) pre rs1 rsF1 rsR rsA) as Hinv2
    by (eapply writer_inv_core; [apply Hd|done]).
  destruct (flush_buffer (se_writes env) w2) as [w3 u3] eqn:Hf.
  destruct (flush_inv _ _ _ _ _ _ _ _ _ _ _ _ Hinv2 Hf) as (Hk3 & (rs3 & rsF3 & Hinv3) & Hok).
  assert (sync_keeps w w3 ∧ ww_next_lsn w3 = ww_next_lsn w + N.of_nat (length anchors)) as [Hk Hn].
  { assert (ww_config w2 = ww_config w1) by (by injection (proj1 Hd)).
    unfold append_keeps, flush_keeps, same_core, sync_keeps in *. destruct_and!.
    split; [split_and!|]; congruence. }
  destruct u3 as [[]|e].
  2:{ intros [= <- <-]. split; [done|]. exists anchors. split_and!; [done|done|done|]. by exists rs3, rsF3. }
  unfold fsync_and_track. destruct (se_fsync env); intros [= <- <-].
  - destruct (publish_core (w3 {{ ww_file := sf_fsync (ww_file w3);
      ww_durability := record_sync_ok (ww_durability w3) }})) as (Hc4 & Hk4 & Hn4).
    split; [by unfold sync_keeps in *; destruct_and!; split_and!; etrans|].
    exists anchors. split_and!; [done|done|by rewrite Hn4|]. left. exists rs3.
    eapply writer_inv_core; [exact Hc4|]. apply (inv_synced _ _ _ _ _ _ _ _ _ Hinv3). by apply Hok.
  - split; [done|]. exists anchors. split_and!; [done|done|done|]. exists rs3, rsF3.
    by apply (inv_poisoned w3).
Qed.

(** Encryption is switched on before the first record, behind a preamble. *)
Lemma preamble_valid epoch :
  length epoch = 4%nat → valid_pre (preamble_to_bytes (preamble_new_wal epoch)).
Proof. intros He. do 5 (destruct epoch as [|? epoch]; try done). by right. Qed.

Lemma encryption_inv ring w acked recov pending pre rs rsF rsR rsA w' res :
  writer_inv w acked recov pending pre rs rsF rsR rsA → length (wk_epoch (kr_current ring)) = 4%nat →
  set_encryption_ring ring w = (w', res) → ∃ pre', writer_inv w' acked recov pending pre' rs rsF rsR rsA.
Proof.
  intros Hinv He. unfold set_encryption_ring.
  destruct (negb _ || negb _) eqn:Hc; intros [= <- <-]; [by exists pre|].
  apply orb_false_elim in Hc as [Ho%negb_false_iff%N.eqb_eq Hz%negb_false_iff%N.eqb_eq].
  set (p := preamble_to_bytes _). pose proof (preamble_valid _ He) as Hv. fold p in Hv.
  assert (flen p = 16) as Hlen.
  { destruct Hv as [Hp|[Hp _]]; [by apply (f_equal length) in Hp|]. unfold flen. by rewrite Hp. }
  exists p. pose proof (inv_empty _ _ _ _ _ _ _ _ _ Hinv Hz) as ->. destruct Hinv.
  assert (rs = []) as ->.
  { unfold as_slice in wi_log0. rewrite Ho, Hz in wi_log0. symmetry in wi_log0.
    apply app_nil in wi_log0 as [_ Hs]. by apply segment_bytes_nil. }
  apply prefix_nil_inv in wi_opened0 as ->. apply prefix_nil_inv in wi_durable0 as ->. destruct wi_config0 as (k & Hk & Hka).
  assert (2 ^ 6 ≤ 2 ^ k) by (apply N.pow_le_mono_r; lia).
  destruct (ab_write_fits p (ww_buffer w)) as (B1 & B2 & B3 & B4 & B5);
    [done|unfold ab_remaining; lia|].
  split; simpl; rewrite ?B4, ?B5; try done; [by exists k| |by left].
  rewrite B2, Ho. unfold as_slice. rewrite Hz. simpl. by rewrite app_nil_r.
Qed.
End inv.
