(* ===== verification/WalDwb.v ===== *)
(** * The double-write buffer

    The buffer file that protects a segment against torn writes
    ([nodedb-wal/src/double_write/buffer.rs], [staging.rs], [raw_io.rs]): records
    are staged in memory, one slot image per ring index, and reach the file at
    the next flush. The slots and their reading are in [WalReader]. This file
    is an instance of the interface the writer uses ([WalWriter]).

    The outcomes of the system calls are part of the state: [db_io] gives the
    outcomes of each [pwrite_all] and of each fsync to come, and past its end
    every call succeeds. *)

From stdpp Require Import base option list.
From S2P Require Import Prelude WalRecord WalReader WalWriter.

Open Scope N_scope.

(** "DWBF". *)
Definition DWB_MAGIC : u32 := 1146569286.

(** ** Staged slots ([staging.rs]) *)

Record StagedRing : Type := MkStagedRing {
  sr_images : list AlignedBuf;
  sr_staged : u32;
}.

#[export] Instance eta_StagedRing : Eta StagedRing := λ r, MkStagedRing (sr_images r) (sr_staged r).

Definition ring_index (idx : u32) : nat := N.to_nat (idx mod N.of_nat DWB_CAPACITY).

(** [StagedRing::new]. The assertion of [AlignedBuf::new] holds: the alignment
    is a constant. *)
Definition staged_ring_new : result WalError StagedRing :=
  match aligned_buf_new DWB_SLOT_STRIDE DEFAULT_ALIGNMENT with
  | Some (Ok image) => Ok (MkStagedRing (replicate DWB_CAPACITY image) 0)
  | Some (Err e) => Err e
  | None => Err (AlignmentViolation DEFAULT_ALIGNMENT DWB_SLOT_STRIDE)
  end.

(** [image_mut] and an update through it. *)
Definition on_image (idx : u32) (f : AlignedBuf → AlignedBuf) (s : StagedRing) : StagedRing :=
  s {{ sr_images ::= alter f (ring_index idx) }}.

(** [cleared_image]. *)
Definition cleared_image (idx : u32) (s : StagedRing) : StagedRing := on_image idx ab_clear s.

Definition mark_staged (s : StagedRing) : StagedRing :=
  s {{ sr_staged ::= λ n, N.min (n + 1) u32_max }}.

Definition surviving (s : StagedRing) : u32 := N.min (sr_staged s) (N.of_nat DWB_CAPACITY).

Definition ring_clear (s : StagedRing) : StagedRing := s {{ sr_staged := 0 }}.

(** ** Raw I/O ([raw_io.rs]) *)

Definition zero_tail (b : AlignedBuf) : AlignedBuf :=
  if ab_len b <? ab_capacity b then
    b {{ ab_mem ::= λ m, take (N.to_nat (ab_len b)) m ++
           replicate (N.to_nat (ab_capacity b - ab_len b)) 0 }}
  else b.

Definition full_capacity_slice (b : AlignedBuf) : bytes := take (N.to_nat (ab_capacity b)) (ab_mem b).

(** [pwrite_all]. A call that writes nothing is tried again. *)
Fixpoint pwrite_all (os : list PwriteOutcome) (off : N) (remaining : bytes) (f : SegFile) :
    SegFile * result WalError unit :=
  match remaining, os with
  | [], _ => (f, Ok tt)
  | _, [] => (sf_pwrite off remaining f, Ok tt)
  | _, WriteError _ :: _ => (f, Err WalIo)
  | _, Wrote n :: os =>
      let n := N.min n (flen remaining) in
      if n =? 0 then pwrite_all os off remaining f
      else
        pwrite_all os (off + n) (drop (N.to_nat n) remaining)
          (sf_pwrite off (take (N.to_nat n) remaining) f)
  end.

(** [Write::write_all], which gives up on a call that writes nothing. *)
Definition file_write_all (os : list PwriteOutcome) (off : N) (data : bytes) (f : SegFile) :
    SegFile * result WalError unit :=
  let '(f, r) := pwrite_loop os off data f in
  (f, match r with Ok _ => Ok tt | Err _ => Err WalIo end).

(** ** The buffer *)

Record DwbIo : Type := MkDwbIo {
  io_writes : list (list PwriteOutcome);
  io_syncs : list bool;
}.

Record Dwb : Type := MkDwb {
  db_file : SegFile;
  db_mode : DwbMode;
  db_write_pos : u32;
  db_count : u32;
  db_next_seq : option u64;
  db_dirty : bool;
  db_stage : option StagedRing;
  db_slots_written : u64;
  db_header_buf : option AlignedBuf;
  db_io : DwbIo;
}.

#[export] Instance eta_DwbIo : Eta DwbIo := λ r, MkDwbIo (io_writes r) (io_syncs r).

#[export] Instance eta_Dwb : Eta Dwb := λ r,
  MkDwb (db_file r) (db_mode r) (db_write_pos r) (db_count r) (db_next_seq r) (db_dirty r)
    (db_stage r) (db_slots_written r) (db_header_buf r) (db_io r).

(** A [pwrite_all] to the buffer file. *)
Definition dwb_pwrite (off : N) (data : bytes) (d : Dwb) : Dwb * result WalError unit :=
  let '(f, r) := pwrite_all (hd [] (io_writes (db_io d))) off data (db_file d) in
  (d {{ db_file := f; db_io -> io_writes ::= tl }}, r).

(** [seek] to [off] and [write_all]. *)
Definition dwb_write_all (off : N) (data : bytes) (d : Dwb) : Dwb * result WalError unit :=
  let '(f, r) := file_write_all (hd [] (io_writes (db_io d))) off data (db_file d) in
  (d {{ db_file := f; db_io -> io_writes ::= tl }}, r).

(** [sync_all] on it. *)
Definition dwb_sync_all (d : Dwb) : Dwb * result WalError unit :=
  let ok := hd true (io_syncs (db_io d)) in
  let d := d {{ db_io -> io_syncs ::= tl }} in
  if ok then (d {{ db_file ::= sf_fsync }}, Ok tt) else (d, Err WalIo).

(** [DoubleWriteBuffer::open] on a file that opens. *)
Definition dwb_open (file : SegFile) (mode : DwbMode) (io : DwbIo) : result WalError Dwb :=
  if bool_decide (mode = DwbOff) then Err DwbOffNotOpenable
  else
    let? header_buf :=
      if bool_decide (mode = DwbDirect) then
        match aligned_buf_new DWB_HEADER_STRIDE DEFAULT_ALIGNMENT with
        | Some (Ok b) => Ok (Some b)
        | Some (Err e) => Err e
        | None => Err (AlignmentViolation DEFAULT_ALIGNMENT DWB_HEADER_STRIDE)
        end
      else Ok None in
    let dwb := MkDwb file mode 0 0 None false None 0 header_buf io in
    let block := take (N.to_nat DWB_HEADER_STRIDE) (sf_bytes file) in
    if (DWB_HEADER_STRIDE <=? flen (sf_bytes file)) && (le_at 0 4 block =? DWB_MAGIC) then
      Ok (dwb {{ db_count := le_at 4 4 block; db_write_pos := le_at 8 4 block }})
    else Ok dwb.

Section buffer.
Context `{Crc32c}.

Definition scan_max_seq (dwb : bytes) : u64 :=
  foldl (λ max frame, match frame with Some (p, _) => N.max max (slot_seq p) | None => max end) 0
    (slot_frame dwb <$> seq 0 DWB_CAPACITY).

Definition take_slot_seq (d : Dwb) : Dwb * u64 :=
  let seq :=
    match db_next_seq d with
    | Some seq => seq
    | None => sat_add64 (scan_max_seq (sf_bytes (db_file d))) 1
    end in
  (d {{ db_next_seq := Some (sat_add64 seq 1) }}, seq).

(** [write_record_deferred]. *)
Definition dwb_write_deferred (record : WalRecord) (d : Dwb) : Dwb * result WalError DwbMirror :=
  let total_size := wire_size record in
  if DWB_SLOT_RECORD_MAX <? total_size then (d, Ok (SkippedTooLarge total_size DWB_SLOT_RECORD_MAX))
  else if bool_decide (db_mode d = DwbOff) then (d, Err DwbOffNotOpenable)
  else
    let '(d, seq) := take_slot_seq d in
    let prefix := slot_prefix_encode (MkSlotPrefix seq total_size) in
    let header_bytes := header_to_bytes (wr_header record) in
    match (match db_stage d with Some stage => Ok stage | None => staged_ring_new end) with
    | Err e => (d {{ db_stage := None }}, Err e)
    | Ok stage =>
        let stage := cleared_image (db_write_pos d) stage in
        let stage := on_image (db_write_pos d) (ab_write prefix) stage in
        let stage := on_image (db_write_pos d) (ab_write header_bytes) stage in
        let stage := on_image (db_write_pos d) (ab_write (wr_payload record)) stage in
        (d {{ db_stage := Some (mark_staged stage);
              db_write_pos ::= λ p, (p + 1) mod 2 ^ 32;
              db_count ::= λ c, N.min (N.min (c + 1) u32_max) (N.of_nat DWB_CAPACITY);
              db_dirty := true }}, Ok Mirrored)
    end.

Definition dwb_staged_slots (d : Dwb) : u32 :=
  match db_stage d with Some stage => surviving stage | None => 0 end.

(** The image of slot [idx] and the bytes of it that are written. *)
Definition slot_bytes (mode : DwbMode) (image : AlignedBuf) : result WalError (AlignedBuf * bytes) :=
  match mode with
  | DwbOff => Err DwbOffNotOpenable
  | DwbBuffered => Ok (image, as_slice image)
  | DwbDirect => let image := zero_tail image in Ok (image, full_capacity_slice image)
  end.

(** The loop of [write_staged]: [steps] slots from [idx] on. There is an image
    for every ring index. *)
Fixpoint write_slots (steps : nat) (idx : u32) (stage : StagedRing) (d : Dwb) :
    Dwb * result WalError unit :=
  match steps with
  | O => (d {{ db_stage := Some stage }}, Ok tt)
  | S steps =>
      match sr_images stage !! ring_index idx with
      | None => (d, Ok tt)
      | Some image =>
          match slot_bytes (db_mode d) image with
          | Err e => (d {{ db_stage := Some stage }}, Err e)
          | Ok (image, bs) =>
              let stage := on_image idx (λ _, image) stage in
              match dwb_pwrite (slot_offset idx) bs d with
              | (d, Err e) => (d {{ db_stage := Some stage }}, Err e)
              | (d, Ok _) =>
                  write_slots steps ((idx + 1) mod 2 ^ 32) stage
                    (d {{ db_slots_written ::= λ n, sat_add64 n 1 }})
              end
          end
      end
  end.

(** [write_staged]. *)
Definition dwb_write_staged (d : Dwb) : Dwb * result WalError u32 :=
  match db_stage d with
  | None => (d, Ok 0)
  | Some stage =>
      let surviving := surviving stage in
      let first := (db_write_pos d + 2 ^ 32 - surviving) mod 2 ^ 32 in
      match write_slots (N.to_nat surviving) first stage d with
      | (d, Err e) => (d, Err e)
      | (d, Ok _) =>
          (d {{ db_stage ::= λ s, ring_clear <$> s }}, Ok surviving)
      end
  end.

(** [flush]. *)
Definition dwb_flush_all (d : Dwb) : Dwb * result WalError unit :=
  if negb (db_dirty d) then (d, Ok tt)
  else
    let? (d, _n) := dwb_write_staged d in
    let header := to_le 4 DWB_MAGIC ++ to_le 4 (db_count d) ++ to_le 4 (db_write_pos d) in
    let? (d, _u) :=
      match db_mode d with
      | DwbOff => (d, Err DwbOffNotOpenable)
      | DwbBuffered => dwb_write_all 0 header d
      | DwbDirect =>
          match db_header_buf d with
          | None => (d, Err (AlignmentViolation DWB_HEADER_STRIDE 0))
          | Some buf =>
              let buf := zero_tail (ab_write header (ab_clear buf)) in
              dwb_pwrite 0 (full_capacity_slice buf) (d {{ db_header_buf := Some buf }})
          end
      end in
    let? (d, _u) := dwb_sync_all d in
    (d {{ db_dirty := false }}, Ok tt).

(** [write_record]. *)
Definition dwb_write_record (record : WalRecord) (d : Dwb) : Dwb * result WalError DwbMirror :=
  let? (d, mirrored) := dwb_write_deferred record d in
  let? (d, _u) := dwb_flush_all d in
  (d, Ok mirrored).

#[export] Instance dwb_double_write : DoubleWriteBuffer Dwb := {|
  write_record_deferred := dwb_write_deferred;
  staged_slots := dwb_staged_slots;
  write_staged := dwb_write_staged;
  dwb_flush := dwb_flush_all;
|}.
End buffer.
