(* ===== verification/WalDwbFacts.v ===== *)
(** * Facts on the double-write buffer

    What the buffer file holds after any sequence of mirrored records, flushes
    and clean reopens: in each slot the newest record staged for it, whole. A
    search by LSN therefore finds the newest of the last 64 records mirrored
    with that LSN. *)

From Stdlib Require Import Lia.
From stdpp Require Import base option list.
From S2P Require Import Prelude WalRecord WalRecordFacts WalReader WalReaderFacts WalRecovery.
From S2P Require Import WalWriter WalWriterFacts WalDwb.

Open Scope N_scope.

(** ** Overwriting and slices *)

Lemma length_gap off (bs : bytes) :
  length (take (N.to_nat off) (bs ++ replicate (N.to_nat off - length bs) 0)) = N.to_nat off.
Proof. rewrite length_take, length_app, length_replicate. lia. Qed.

Lemma slice_overwrite_at off data bs n :
  flen data ≤ n → ∃ rest, slice (overwrite off data bs) off n = data ++ rest.
Proof.
  intros Hn. unfold slice, overwrite. rewrite drop_app_length' by by rewrite length_gap.
  unfold flen in Hn. rewrite take_app_ge by lia. eauto.
Qed.

(** A slice that a write misses keeps its bytes; a gap may zero-extend it. *)
Lemma slice_overwrite_other off data bs o n :
  o + n ≤ off ∨ off + flen data ≤ o →
  ∃ k, slice (overwrite off data bs) o n = slice bs o n ++ replicate k 0.
Proof.
  unfold flen. intros [Ho|Ho]; unfold slice, overwrite.
  - set (gap := take _ (bs ++ _)). pose proof (length_gap off bs) as Hg. fold gap in Hg.
    rewrite drop_app_le by lia. rewrite take_app_le by (rewrite length_drop; lia). unfold gap.
    rewrite take_drop_commute, take_take, Nat.min_l by lia.
    rewrite <-take_drop_commute, drop_app, take_app, drop_replicate, take_replicate. eauto.
  - exists 0%nat. rewrite app_nil_r. f_equal. rewrite app_assoc, drop_app_ge by (rewrite length_app, length_gap; lia).
    rewrite drop_drop, length_app, length_gap. f_equal. lia.
Qed.

Lemma overwrite_app off a b bs :
  overwrite (off + flen a) b (overwrite off a bs) = overwrite off (a ++ b) bs.
Proof.
  pose proof (length_gap off bs) as Hg. unfold overwrite at 1.
  rewrite length_overwrite. unfold flen.
  replace (N.to_nat (off + N.of_nat (length a))) with (N.to_nat off + length a)%nat by lia.
  replace (N.to_nat off + length a - _)%nat with 0%nat by lia. rewrite app_nil_r.
  unfold overwrite. set (gap := take _ (bs ++ _)) in *.
  rewrite !(app_assoc gap a), take_app_length', drop_app_ge, drop_drop
    by (rewrite length_app, Hg; lia).
  rewrite !length_app, Hg, <-!app_assoc. do 4 f_equal. lia.
Qed.

(** ** Whole writes *)

Lemma overwrite_nil off (bs : bytes) : off ≤ flen bs → overwrite off [] bs = bs.
Proof.
  unfold flen. intros Ho. unfold overwrite. replace (N.to_nat off - length bs)%nat with 0%nat by lia.
  rewrite app_nil_r. simpl. rewrite Nat.add_0_r. apply take_drop.
Qed.

(** One call of a write that goes on. *)
Lemma overwrite_step off m (data bs : bytes) :
  m ≤ flen data →
  overwrite (off + m) (drop (N.to_nat m) data) (overwrite off (take (N.to_nat m) data) bs) =
  overwrite off data bs.
Proof.
  intros Hm. rewrite <-(take_drop (N.to_nat m) data) at 3. rewrite <-overwrite_app. f_equal.
  by rewrite flen_take.
Qed.

Lemma flen_overwrite off data bs : off + flen data ≤ flen (overwrite off data bs).
Proof. unfold flen. rewrite length_overwrite. lia. Qed.

Lemma pwrite_all_ok os : ∀ off data f f',
  off ≤ flen (sf_bytes f) ∨ data ≠ [] → pwrite_all os off data f = (f', Ok tt) →
  sf_bytes f' = overwrite off data (sf_bytes f).
Proof.
  induction os as [|o os IH]; intros off data f f' Hne; destruct data as [|b data];
    try (destruct Hne as [Ho|]; [|done]; intros [= <-]; by rewrite overwrite_nil).
  { by intros [= <-]. }
  simpl pwrite_all. destruct o as [n|s]; [|done]. set (m := N.min n (flen (b :: data))).
  destruct (N.eqb_spec m 0) as [|Hm]; [by apply IH; right|].
  intros Hp%IH.
  - rewrite Hp. simpl sf_bytes. apply overwrite_step. unfold m. lia.
  - left. simpl sf_bytes. rewrite <-(flen_take (b :: data) m) at 1 by (unfold m; lia).
    apply flen_overwrite.
Qed.

Lemma pwrite_loop_ok os : ∀ off data f f',
  off ≤ flen (sf_bytes f) ∨ data ≠ [] → pwrite_loop os off data f = (f', Ok tt) →
  sf_bytes f' = overwrite off data (sf_bytes f).
Proof.
  induction os as [|o os IH]; intros off data f f' Hne; destruct data as [|b data];
    try (destruct Hne as [Ho|]; [|done]; intros [= <-]; by rewrite overwrite_nil).
  { by intros [= <-]. }
  simpl pwrite_loop. destruct o as [n|[]]; [|done..]. set (m := N.min n (flen (b :: data))).
  destruct (N.eqb_spec m 0) as [|Hm]; [done|].
  intros Hp%IH.
  - rewrite Hp. simpl sf_bytes. apply overwrite_step. unfold m. lia.
  - left. simpl sf_bytes. rewrite <-(flen_take (b :: data) m) at 1 by (unfold m; lia).
    apply flen_overwrite.
Qed.

(** ** Slots *)

Section slots.
Context `{Crc32c, !Crc32cLaws}.

(** The bytes of a slot that holds [r] with sequence number [s]. *)
Definition slot_image (s : u64) (r : WalRecord) : bytes :=
  slot_prefix_encode (MkSlotPrefix s (wire_size r)) ++ record_to_bytes r.

Definition mirrorable (r : WalRecord) : Prop := record_wf r ∧ wire_size r ≤ DWB_SLOT_RECORD_MAX.

Lemma length_slot_prefix p : length (slot_prefix_encode p) = SLOT_PREFIX_SIZE.
Proof. unfold slot_prefix_encode. by rewrite !length_app, !length_to_le. Qed.

Lemma flen_slot_image s r : flen (slot_image s r) = 20 + wire_size r.
Proof.
  unfold slot_image. rewrite flen_app, flen_record. unfold flen. by rewrite length_slot_prefix.
Qed.

Lemma slot_image_fits s r : mirrorable r → flen (slot_image s r) ≤ DWB_SLOT_STRIDE.
Proof.
  intros [_ Hs]. rewrite flen_slot_image. unfold DWB_SLOT_RECORD_MAX in Hs.
  change DWB_SLOT_STRIDE with 69632. lia.
Qed.

Lemma slot_prefix_decode_encode s size rest :
  s < 2 ^ 64 → N.of_nat HEADER_SIZE ≤ size ≤ DWB_SLOT_RECORD_MAX →
  slot_prefix_decode (slot_prefix_encode (MkSlotPrefix s size) ++ rest) = Some (MkSlotPrefix s size).
Proof.
  intros Hs [Hlo Hhi]. unfold slot_prefix_decode.
  rewrite (proj2 (Nat.ltb_ge _ _)) by (rewrite length_app, length_slot_prefix; lia).
  unfold slot_prefix_encode. cbn [slot_seq slot_total_size].
  set (head := to_le 4 DWB_SLOT_MAGIC ++ to_le 8 s ++ to_le 4 (size mod 2 ^ 32)).
  assert (length head = 16%nat) as Hh by (unfold head; by rewrite !length_app, !length_to_le).
  assert (size mod 2 ^ 32 = size) as Hm
    by (apply N.mod_small; unfold DWB_SLOT_RECORD_MAX in Hhi; lia).
  assert (le_at 16 4 ((head ++ to_le 4 (crc32c head)) ++ rest) = crc32c head) as Hc.
  { rewrite <-app_assoc, le_at_skip, Hh by lia. simpl Nat.sub.
    rewrite le_at_here by apply length_to_le. apply from_le_to_le, crc32c_lt. }
  rewrite Hc. rewrite <-!(app_assoc head). rewrite (take_app_length' head) by done.
  assert (le_at 0 4 (head ++ to_le 4 (crc32c head) ++ rest) = DWB_SLOT_MAGIC) as ->
    by (unfold head; rewrite <-!app_assoc; by le_field).
  assert (le_at 4 8 (head ++ to_le 4 (crc32c head) ++ rest) = s) as ->
    by (unfold head; rewrite <-!app_assoc; by le_field).
  assert (le_at 12 4 (head ++ to_le 4 (crc32c head) ++ rest) = size) as ->
    by (unfold head; rewrite <-!app_assoc, Hm; le_field; unfold DWB_SLOT_RECORD_MAX in Hhi; lia).
  rewrite !N.eqb_refl, (proj2 (N.leb_le _ _) Hlo), (proj2 (N.leb_le _ _) Hhi). done.
Qed.

(** What slot [i] of a buffer file holds. *)
Definition slot_holds (file : bytes) (i : nat) (s : u64) (r : WalRecord) : Prop :=
  ∃ rest, slice file (slot_offset (N.of_nat i)) DWB_SLOT_STRIDE = slot_image s r ++ rest.

Definition slot_blank (file : bytes) (i : nat) : Prop :=
  Forall (λ b, b = 0) (slice file (slot_offset (N.of_nat i)) DWB_SLOT_STRIDE).

Lemma slot_frame_holds file i s r :
  slot_holds file i s r → mirrorable r → s < 2 ^ 64 →
  slot_frame file i = Some (MkSlotPrefix s (wire_size r), record_to_bytes r).
Proof.
  intros [rest Hr] [Hwf Hsz] Hs. unfold slot_frame. rewrite Hr. unfold slot_image at 1.
  rewrite <-app_assoc, slot_prefix_decode_encode; [|done|unfold wire_size in *; lia].
  cbn [slot_total_size]. pose proof (flen_slot_image s r) as Hl. unfold flen in Hl.
  assert (SLOT_PREFIX_SIZE + N.to_nat (wire_size r) = length (slot_image s r))%nat as ->
    by (unfold SLOT_PREFIX_SIZE; lia).
  rewrite (proj2 (Nat.ltb_ge _ _)) by (rewrite length_app; lia).
  rewrite take_app_length. unfold slot_image.
  by rewrite drop_app_length' by by rewrite length_slot_prefix.
Qed.

Lemma zeros_le_at lo n bs : Forall (λ b, b = 0) bs → le_at lo n bs = 0.
Proof.
  intros Hz. unfold le_at. assert (Forall (λ b, b = 0) (take n (drop lo bs))) as Hf
    by by apply Forall_take, Forall_drop.
  induction Hf as [|b l Hb _ IH]; [done|]. unfold from_le in *. rewrite reverse_cons, from_be_snoc, IH, Hb. done.
Qed.

Lemma slot_frame_blank file i : slot_blank file i → slot_frame file i = None.
Proof.
  unfold slot_blank, slot_frame. set (bs := slice _ _ _). intros Hb.
  assert (slot_prefix_decode bs = None) as ->; [|done]. unfold slot_prefix_decode.
  destruct (length bs <? SLOT_PREFIX_SIZE)%nat; [done|]. by rewrite zeros_le_at.
Qed.

Lemma decode_record_to_bytes r : record_wf r → decode_record (record_to_bytes r) = Some r.
Proof.
  intros Hwf. unfold decode_record, record_to_bytes.
  rewrite (proj2 (Nat.ltb_ge _ _)) by (rewrite length_app, length_header_to_bytes; lia).
  rewrite take_app_length', drop_app_length' by by rewrite length_header_to_bytes.
  rewrite header_from_to by apply Hwf. rewrite (wf_magic _ Hwf), N.eqb_refl. by destruct r.
Qed.
End slots.

(** ** The ring of slots *)

Section ring.
Context `{Crc32c, !Crc32cLaws}.

Lemma ring_mod j : (j mod DWB_CAPACITY < DWB_CAPACITY)%nat.
Proof. apply Nat.mod_upper_bound. done. Qed.

Lemma slot_offset_mod j : slot_offset (N.of_nat (j mod DWB_CAPACITY)) = slot_offset (N.of_nat j).
Proof.
  unfold slot_offset. rewrite Nat2N.inj_mod. by rewrite N.Div0.mod_mod.
Qed.

Lemma slots_apart i j :
  (i < DWB_CAPACITY)%nat → (j < DWB_CAPACITY)%nat → i ≠ j →
  slot_offset (N.of_nat i) + DWB_SLOT_STRIDE ≤ slot_offset (N.of_nat j) ∨
  slot_offset (N.of_nat j) + DWB_SLOT_STRIDE ≤ slot_offset (N.of_nat i).
Proof.
  intros Hi Hj Hne. unfold slot_offset. rewrite !N.mod_small by lia.
  change DWB_SLOT_STRIDE with 69632. lia.
Qed.

(** A write to one region of the file leaves the slots elsewhere alone. *)
Lemma slot_holds_other off data bs i s r :
  slot_offset (N.of_nat i) + DWB_SLOT_STRIDE ≤ off ∨ off + flen data ≤ slot_offset (N.of_nat i) →
  slot_holds bs i s r → slot_holds (overwrite off data bs) i s r.
Proof.
  intros Hd [rest Hr]. destruct (slice_overwrite_other off data bs _ _ Hd) as [k Hk].
  exists (rest ++ replicate k 0). by rewrite Hk, Hr, app_assoc.
Qed.

Lemma slot_blank_other off data bs i :
  slot_offset (N.of_nat i) + DWB_SLOT_STRIDE ≤ off ∨ off + flen data ≤ slot_offset (N.of_nat i) →
  slot_blank bs i → slot_blank (overwrite off data bs) i.
Proof.
  intros Hd Hb. destruct (slice_overwrite_other off data bs _ _ Hd) as [k Hk].
  unfold slot_blank. rewrite Hk. apply Forall_app. split; [done|]. by apply Forall_replicate.
Qed.

(** Records [lo] to [hi] of [hist] are in their slots, and the slots past [hi]
    were never used. *)
Definition holds (file : bytes) (hist : list WalRecord) (lo hi : nat) : Prop :=
  (∀ j r, hist !! j = Some r → (lo ≤ j < hi)%nat →
     slot_holds file (j mod DWB_CAPACITY) (N.of_nat j + 1) r) ∧
  (∀ i, (hi ≤ i < DWB_CAPACITY)%nat → slot_blank file i).

Lemma holds_other off data file hist lo hi :
  (∀ i, (i < DWB_CAPACITY)%nat →
     slot_offset (N.of_nat i) + DWB_SLOT_STRIDE ≤ off ∨ off + flen data ≤ slot_offset (N.of_nat i)) →
  holds file hist lo hi → holds (overwrite off data file) hist lo hi.
Proof.
  intros Hd [Hh Hb]. split.
  - intros j r Hj Hr. apply slot_holds_other; [|by apply Hh]. apply Hd, ring_mod.
  - intros i Hi. apply slot_blank_other; [|by apply Hb]. apply Hd. lia.
Qed.

Lemma mod_apart (a b : nat) :
  (b < a)%nat → (a < b + DWB_CAPACITY)%nat → (a mod DWB_CAPACITY ≠ b mod DWB_CAPACITY)%nat.
Proof. unfold DWB_CAPACITY. intros H1 H2 He. pose proof (Nat.div_mod_eq a 64). pose proof (Nat.div_mod_eq b 64). lia. Qed.

(** The next record written to its slot. *)
Lemma holds_write file hist lo hi r rest :
  holds file hist lo hi → hist !! hi = Some r → (hi < lo + DWB_CAPACITY)%nat →
  flen (slot_image (N.of_nat hi + 1) r ++ rest) ≤ DWB_SLOT_STRIDE →
  holds (overwrite (slot_offset (N.of_nat hi)) (slot_image (N.of_nat hi + 1) r ++ rest) file)
    hist lo (S hi).
Proof.
  intros [Hh Hb] Hr Hlo Hfit. rewrite <-slot_offset_mod. set (data := _ ++ rest) in *.
  assert (∀ i, (i < DWB_CAPACITY)%nat → i ≠ (hi mod DWB_CAPACITY)%nat →
    slot_offset (N.of_nat i) + DWB_SLOT_STRIDE ≤ slot_offset (N.of_nat (hi mod DWB_CAPACITY)) ∨
    slot_offset (N.of_nat (hi mod DWB_CAPACITY)) + flen data ≤ slot_offset (N.of_nat i)) as Hother.
  { intros i Hi Hne. destruct (slots_apart i (hi mod DWB_CAPACITY)) as [|]; try done.
    - apply ring_mod.
    - by left.
    - right. lia. }
  split.
  - intros j r' Hj Hrange. destruct (decide (j = hi)) as [->|Hne].
    + rewrite Hr in Hj. injection Hj as <-. unfold slot_holds.
      destruct (slice_overwrite_at (slot_offset (N.of_nat (hi mod DWB_CAPACITY))) data file _ Hfit)
        as [rest' ->]. unfold data. rewrite <-app_assoc. eauto.
    + apply slot_holds_other; [|apply Hh; [done|lia]]. apply Hother; [apply ring_mod|].
      apply not_eq_sym, mod_apart; lia.
  - intros i Hi. apply slot_blank_other; [|apply Hb; lia]. apply Hother; [lia|].
    rewrite Nat.mod_small by lia. lia.
Qed.

(** The record a slot shows. *)
Definition occupant (n i : nat) (j : nat) : Prop := (n ≤ j + DWB_CAPACITY ∧ j < n ∧ j mod DWB_CAPACITY = i)%nat.

Lemma occupied n i : (i < DWB_CAPACITY)%nat → (i < n)%nat → ∃ j, occupant n i j.
Proof.
  unfold occupant, DWB_CAPACITY. intros Hi Hn. exists (64 * ((n - 1 - i) / 64) + i)%nat.
  pose proof (Nat.div_mod_eq (n - 1 - i) 64). pose proof (Nat.mod_upper_bound (n - 1 - i) 64 ltac:(lia)).
  split_and!; [lia|lia|]. rewrite Nat.add_comm, Nat.mul_comm, Nat.Div0.mod_add. by apply Nat.mod_small.
Qed.

Lemma holds_frame file hist i :
  let n := length hist in
  holds file hist (n - DWB_CAPACITY) n → Forall mirrorable hist → N.of_nat n < 2 ^ 64 - 1 →
  (i < DWB_CAPACITY)%nat →
  slot_frame file i = None ∧ (n ≤ i)%nat ∨
  ∃ j r, occupant n i j ∧ hist !! j = Some r ∧ mirrorable r ∧
    slot_frame file i = Some (MkSlotPrefix (N.of_nat j + 1) (wire_size r), record_to_bytes r).
Proof.
  intros n [Hh Hb] Hm Hn Hi. destruct (decide (n ≤ i)%nat) as [Hle|Hgt].
  - left. split; [|done]. by apply slot_frame_blank, Hb.
  - right. destruct (occupied n i Hi ltac:(lia)) as (j & Ho). pose proof Ho as (Hlo & Hhi & Hmod).
    destruct (lookup_lt_is_Some_2 hist j Hhi) as [r Hr]. exists j, r.
    assert (mirrorable r) as Hmr by by eapply Forall_lookup_1.
    split_and!; try done. apply slot_frame_holds; [|done|lia]. rewrite <-Hmod. apply Hh; [done|lia].
Qed.
End ring.

(** ** Reading back *)

(** The newest record of a list with an LSN. *)
Definition newest (lsn : u64) (l : list WalRecord) : option WalRecord :=
  last (filter (λ r, rh_lsn (wr_header r) = lsn) l).

(** It is the one at the last position with that LSN. *)
Lemma newest_some lsn l j r :
  l !! j = Some r → rh_lsn (wr_header r) = lsn →
  (∀ j' r', l !! j' = Some r' → rh_lsn (wr_header r') = lsn → (j' ≤ j)%nat) → newest lsn l = Some r.
Proof.
  unfold newest. induction l as [|x l IH] using rev_ind; [done|]. intros Hj Hr Hmax.
  rewrite filter_app. destruct (decide (rh_lsn (wr_header x) = lsn)) as [Hx|Hx].
  - rewrite filter_cons_True, filter_nil by done. rewrite last_snoc.
    assert (length l ≤ j)%nat as Hlen by (apply (Hmax _ x); [by apply list_lookup_middle|done]).
    rewrite lookup_app_r in Hj by done. apply list_lookup_singleton_Some in Hj as [_ ->]. done.
  - rewrite filter_cons_False by done. rewrite filter_nil, app_nil_r.
    apply IH; [|done|].
    + apply lookup_app_Some in Hj as [|[_ Hj]]; [done|].
      apply list_lookup_singleton_Some in Hj as [_ ->]. done.
    + intros j' r' Hj' Hr'. apply (Hmax j' r'); [|done]. by apply lookup_app_l_Some.
Qed.

Lemma newest_none lsn l :
  (∀ j r, l !! j = Some r → rh_lsn (wr_header r) ≠ lsn) → newest lsn l = None.
Proof.
  intros Hno. unfold newest. apply last_None.
  destruct (filter _ l) as [|r rest] eqn:Hf; [done|]. exfalso.
  assert (r ∈ filter (λ r, rh_lsn (wr_header r) = lsn) l) as Hin by (rewrite Hf; constructor).
  apply list_elem_of_filter in Hin as [Hr Hin]. apply list_elem_of_lookup in Hin as [j Hj]. by apply (Hno j r).
Qed.

Section recover.
Context `{Crc32c, !Crc32cLaws}.

(** The candidates among the first [k] slots. *)
Definition candidate (hist : list WalRecord) (lsn : u64) (k j : nat) (r : WalRecord) : Prop :=
  hist !! j = Some r ∧ (length hist ≤ j + DWB_CAPACITY)%nat ∧ rh_lsn (wr_header r) = lsn ∧
  (j mod DWB_CAPACITY < k)%nat.

Definition best_of (hist : list WalRecord) (lsn : u64) (k : nat) (best : option (u64 * WalRecord)) : Prop :=
  match best with
  | None => ∀ j r, ¬ candidate hist lsn k j r
  | Some (s, r) => ∃ j, s = N.of_nat j + 1 ∧ candidate hist lsn k j r ∧
      ∀ j' r', candidate hist lsn k j' r' → (j' ≤ j)%nat
  end.

Lemma candidate_S hist lsn k j r :
  candidate hist lsn (S k) j r ↔
  candidate hist lsn k j r ∨
  hist !! j = Some r ∧ occupant (length hist) k j ∧ rh_lsn (wr_header r) = lsn.
Proof.
  unfold candidate, occupant. split.
  - intros (Hj & Hl & Hr & Hk). pose proof (lookup_lt_Some _ _ _ Hj).
    destruct (decide (j mod DWB_CAPACITY = k)%nat); [right|left]; split_and!; (done || lia).
  - intros [(Hj & Hl & Hr & Hk)|(Hj & (Hl & Hlt & Hk) & Hr)]; split_and!; (done || lia).
Qed.

Lemma occupant_inj n i j j' : occupant n i j → occupant n i j' → j = j'.
Proof.
  intros (H1 & H2 & H3) (H4 & H5 & H6). destruct (Nat.lt_trichotomy j j') as [Hl|[->|Hl]]; [|done|].
  - destruct (mod_apart j' j); lia.
  - destruct (mod_apart j j'); lia.
Qed.

Lemma best_of_step file hist lsn k best :
  let n := length hist in
  holds file hist (n - DWB_CAPACITY) n → Forall mirrorable hist → N.of_nat n < 2 ^ 64 - 1 →
  (k < DWB_CAPACITY)%nat → best_of hist lsn k best →
  best_of hist lsn (S k) (better_copy lsn best (slot_frame file k)).
Proof.
  intros n Hh Hm Hn Hk Hb.
  destruct (holds_frame file hist k Hh Hm Hn Hk) as [[-> Hle]|(j & r & Ho & Hj & Hmr & ->)].
  - assert (∀ j r, candidate hist lsn (S k) j r ↔ candidate hist lsn k j r) as Hsame.
    { intros j r. rewrite candidate_S. split; [|by left]. intros [|(_ & (_ & Hlt & Hmod) & _)]; [done|].
      pose proof (Nat.Div0.mod_le j DWB_CAPACITY). lia. }
    simpl. destruct best as [[s r]|]; simpl in *.
    + destruct Hb as (j & -> & Hc & Hmax). exists j. split_and!; [done|by apply Hsame|].
      intros j' r' Hc'. eapply Hmax, Hsame, Hc'.
    + intros j r Hc%Hsame. by eapply Hb.
  - simpl. rewrite decode_record_to_bytes by apply Hmr. rewrite wf_verify by apply Hmr. simpl.
    rewrite orb_false_r. destruct (N.eqb_spec (rh_lsn (wr_header r)) lsn) as [Hl|Hl]; simpl.
    + assert (candidate hist lsn (S k) j r) as Hc by (apply candidate_S; right; by split_and!).
      assert (∀ j' r', candidate hist lsn (S k) j' r' → candidate hist lsn k j' r' ∨ j' = j) as Hor.
      { intros j' r' [Hc'|(_ & Ho' & _)]%candidate_S; [by left|right]. by eapply occupant_inj. }
      destruct best as [[s r0]|]; simpl in Hb.
      * destruct Hb as (j0 & -> & Hc0 & Hmax0). destruct (N.ltb_spec (N.of_nat j0 + 1) (N.of_nat j + 1)); simpl.
        -- exists j. split_and!; [done|done|]. intros j' r' [Hc'%Hmax0| ->]%Hor; lia.
        -- exists j0. split_and!; [done|apply candidate_S; by left|].
           intros j' r' [Hc'%Hmax0| ->]%Hor; lia.
      * exists j. split_and!; [done|done|]. intros j' r' [Hc'%Hb| ->]%Hor; [done|lia].
    + assert (∀ j' r', candidate hist lsn (S k) j' r' → candidate hist lsn k j' r') as Hor.
      { intros j' r' [Hc'|(Hj' & Ho' & Hr')]%candidate_S; [done|].
        rewrite (occupant_inj _ _ _ _ Ho' Ho), Hj in Hj'. by injection Hj' as <-. }
      destruct best as [[s r0]|]; simpl in *.
      * destruct Hb as (j0 & -> & Hc0 & Hmax0). exists j0. split_and!; [done|apply candidate_S; by left|].
        intros j' r' Hc'%Hor. by eapply Hmax0.
      * intros j' r' Hc'%Hor. by eapply Hb.
Qed.

Lemma best_of_all file hist lsn k :
  let n := length hist in
  holds file hist (n - DWB_CAPACITY) n → Forall mirrorable hist → N.of_nat n < 2 ^ 64 - 1 →
  (k ≤ DWB_CAPACITY)%nat →
  best_of hist lsn k (foldl (better_copy lsn) None (slot_frame file <$> seq 0 k)).
Proof.
  intros n Hh Hm Hn. induction k as [|k IH]; intros Hk.
  - intros j r (_ & _ & _ & Hlt). lia.
  - rewrite seq_S, fmap_app, foldl_app. simpl. apply best_of_step; [done..|lia|]. apply IH. lia.
Qed.

(** A search by LSN finds the newest copy in the ring. *)
Lemma recover_record_newest file hist lsn :
  let n := length hist in
  holds file hist (n - DWB_CAPACITY) n → Forall mirrorable hist → N.of_nat n < 2 ^ 64 - 1 →
  recover_record lsn file = newest lsn (drop (n - DWB_CAPACITY) hist).
Proof.
  intros n Hh Hm Hn. pose proof (best_of_all file hist lsn DWB_CAPACITY Hh Hm Hn (le_n _)) as Hb.
  unfold recover_record.
  assert (∀ i r, drop (n - DWB_CAPACITY) hist !! i = Some r → rh_lsn (wr_header r) = lsn →
    candidate hist lsn DWB_CAPACITY (n - DWB_CAPACITY + i) r) as Hcand.
  { intros i r Hi Hr. rewrite lookup_drop in Hi. split_and!; [done|unfold n; lia|done|apply ring_mod]. }
  destruct (foldl _ None _) as [[s r]|]; simpl.
  - destruct Hb as (j & _ & (Hj & Hl & Hr & _) & Hmax). symmetry.
    apply (newest_some _ _ (j - (n - DWB_CAPACITY))); [|done|].
    + rewrite lookup_drop. rewrite <-Hj. f_equal. unfold n. lia.
    + intros i r' Hi Hr'. specialize (Hmax _ _ (Hcand _ _ Hi Hr')). lia.
  - symmetry. apply newest_none. intros i r Hi Hr. by apply (Hb _ _ (Hcand _ _ Hi Hr)).
Qed.

(** The highest sequence number is that of the last record. *)
Lemma scan_max_seq_last file hist :
  let n := length hist in
  holds file hist (n - DWB_CAPACITY) n → Forall mirrorable hist → N.of_nat n < 2 ^ 64 - 1 →
  scan_max_seq file = N.of_nat n.
Proof.
  intros n Hh Hm Hn. unfold scan_max_seq.
  set (step := λ max frame, match frame with Some (p, _) => N.max max (slot_seq p) | None => max end).
  assert (∀ k, (k ≤ DWB_CAPACITY)%nat →
    foldl step 0 (slot_frame file <$> seq 0 k) ≤ N.of_nat n ∧
    ∀ j, (n ≤ j + DWB_CAPACITY)%nat → (j < n)%nat → (j mod DWB_CAPACITY < k)%nat →
      N.of_nat j + 1 ≤ foldl step 0 (slot_frame file <$> seq 0 k)) as Hall.
  { induction k as [|k IH]; intros Hk; [split; [simpl; lia|lia]|].
    destruct (IH ltac:(lia)) as [Hle Hge]. rewrite seq_S, fmap_app, foldl_app.
    change (foldl step ?a (slot_frame file <$> [?i])) with (step a (slot_frame file i)). rewrite Nat.add_0_l.
    destruct (holds_frame file hist k Hh Hm Hn ltac:(lia)) as [[-> Hb]|(j & r & Ho & Hj & Hmr & ->)];
      cbn [step slot_seq].
    - split; [done|]. intros j Hlo Hlt Hmod. apply Hge; [done|done|].
      pose proof (Nat.Div0.mod_le j DWB_CAPACITY). lia.
    - pose proof Ho as (Ho1 & Ho2 & Ho3). split; [fold n in Ho2; lia|]. intros j' Hlo Hlt Hmod.
      destruct (decide (j' mod DWB_CAPACITY = k)%nat) as [He|Hne].
      + assert (j' = j) as -> by (eapply occupant_inj; [by split_and!|done]). lia.
      + specialize (Hge j' Hlo Hlt ltac:(lia)). lia. }
  destruct (Hall DWB_CAPACITY (le_n _)) as [Hle Hge].
  change (foldl step 0 (slot_frame file <$> seq 0 DWB_CAPACITY) = N.of_nat n). destruct (decide (n = 0)%nat) as [Hz|Hz]; [lia|].
  specialize (Hge (n - 1)%nat ltac:(unfold DWB_CAPACITY; lia) ltac:(lia)
    ltac:(apply ring_mod)). lia.
Qed.
End recover.

(** ** The invariant of a buffer *)

Section inv.
Context `{Crc32c, !Crc32cLaws}.

Definition image_ok (b : AlignedBuf) : Prop := buf_ok b ∧ ab_capacity b = DWB_SLOT_STRIDE.

(** The staged images are those of the records from [n] on, as far as they
    still survive. *)
Record ring_ok (st : StagedRing) (hist : list WalRecord) (n : nat) : Prop := MkRingOk {
  ro_length : length (sr_images st) = DWB_CAPACITY;
  ro_images : Forall image_ok (sr_images st);
  ro_staged : sr_staged st = N.min (N.of_nat (length hist - n)) u32_max;
  ro_slots j r : hist !! j = Some r → (n ≤ j)%nat → (length hist ≤ j + DWB_CAPACITY)%nat →
    ∃ b, sr_images st !! (j mod DWB_CAPACITY)%nat = Some b ∧
      as_slice b = slot_image (N.of_nat j + 1) r;
}.

(** The header block, once it was written. *)
Definition header_ok (file : bytes) (len : nat) : Prop :=
  DWB_HEADER_STRIDE ≤ flen file ∧ le_at 0 4 file = DWB_MAGIC ∧
  le_at 8 4 file = N.of_nat len mod 2 ^ 32.

(** [hist] are the records mirrored, of which the file holds the first [n] as
    far as the ring keeps them. *)
Record dwb_inv (d : Dwb) (hist : list WalRecord) (n : nat) : Prop := MkDwbInv {
  di_mode : db_mode d ≠ DwbOff;
  di_hbuf : db_mode d = DwbDirect →
    ∃ b, db_header_buf d = Some b ∧ buf_ok b ∧ ab_capacity b = DWB_HEADER_STRIDE;
  di_all : Forall mirrorable hist;
  di_le : (n ≤ length hist)%nat;
  di_holds : holds (sf_bytes (db_file d)) hist (n - DWB_CAPACITY) n;
  di_pos : db_write_pos d = N.of_nat (length hist) mod 2 ^ 32;
  di_seq : db_next_seq d = Some (N.of_nat (length hist) + 1) ∨
    db_next_seq d = None ∧ n = length hist;
  di_stage : match db_stage d with None => n = length hist | Some st => ring_ok st hist n end;
  di_empty : hist = [] → sf_bytes (db_file d) = [] ∧ db_dirty d = false;
  di_dirty : db_dirty d = false →
    n = length hist ∧ sf_synced (db_file d) = sf_bytes (db_file d) ∧
    (hist = [] ∨ header_ok (sf_bytes (db_file d)) (length hist));
}.

Lemma ring_index_of m : ring_index (N.of_nat m mod 2 ^ 32) = (m mod DWB_CAPACITY)%nat.
Proof.
  unfold ring_index. change (2 ^ 32) with (N.of_nat DWB_CAPACITY * 67108864).
  rewrite N.Div0.mod_mul_r, (N.mul_comm (N.of_nat DWB_CAPACITY)), N.Div0.mod_add, N.Div0.mod_mod.
  rewrite <-Nat2N.inj_mod. lia.
Qed.

Lemma pos_succ m : (N.of_nat m mod 2 ^ 32 + 1) mod 2 ^ 32 = N.of_nat (S m) mod 2 ^ 32.
Proof. rewrite N.Div0.add_mod_idemp_l. f_equal. lia. Qed.

Lemma pos_back m s :
  (s ≤ m)%nat → (s ≤ 64)%nat →
  (N.of_nat m mod 2 ^ 32 + 2 ^ 32 - N.of_nat s) mod 2 ^ 32 = N.of_nat (m - s) mod 2 ^ 32.
Proof.
  intros Hs H64. pose proof (N.div_mod (N.of_nat m) (2 ^ 32) ltac:(lia)) as Hm.
  pose proof (N.mod_lt (N.of_nat m) (2 ^ 32) ltac:(lia)) as Hlt.
  set (q := N.of_nat m / 2 ^ 32) in *. set (w := N.of_nat m mod 2 ^ 32) in *.
  destruct (N.le_gt_cases (N.of_nat s) w).
  - replace (w + 2 ^ 32 - N.of_nat s) with (w - N.of_nat s + 1 * 2 ^ 32) by lia.
    rewrite N.Div0.mod_add. replace (N.of_nat (m - s)) with (w - N.of_nat s + q * 2 ^ 32) by lia.
    by rewrite N.Div0.mod_add.
  - replace (N.of_nat (m - s)) with (w + 2 ^ 32 - N.of_nat s + (q - 1) * 2 ^ 32) by lia.
    by rewrite N.Div0.mod_add.
Qed.

Lemma take_slot_seq_inv d hist n :
  dwb_inv d hist n → N.of_nat (length hist) < 2 ^ 64 - 1 →
  take_slot_seq d =
  (d {{ db_next_seq := Some (sat_add64 (N.of_nat (length hist) + 1) 1) }}, N.of_nat (length hist) + 1).
Proof.
  intros [] Hn. unfold take_slot_seq. destruct di_seq0 as [->|[-> Hl]]; [done|].
  rewrite Hl in di_holds0. rewrite (scan_max_seq_last _ _ di_holds0 di_all0 Hn).
  assert (sat_add64 (N.of_nat (length hist)) 1 = N.of_nat (length hist) + 1) as ->
    by (unfold sat_add64, u64_max; lia). done.
Qed.

Lemma staged_ring_new_ok hist :
  ∃ st, staged_ring_new = Ok st ∧ ring_ok st hist (length hist).
Proof.
  unfold staged_ring_new.
  destruct (aligned_buf_new DWB_SLOT_STRIDE DEFAULT_ALIGNMENT) as [[b|e]|] eqn:Hb.
  - apply aligned_buf_new_ok in Hb as (Hok & _ & _ & _ & _ & Hcap & _). eexists. split; [done|].
    split; cbn [sr_images sr_staged].
    + by rewrite length_replicate.
    + apply Forall_replicate. split; [done|]. by rewrite Hcap.
    + by rewrite Nat.sub_diag.
    + intros j r Hj Hn _. apply lookup_lt_Some in Hj. lia.
  - unfold aligned_buf_new in Hb. by repeat case_match.
  - unfold aligned_buf_new in Hb. by repeat case_match.
Qed.

(** *** Mirroring a record *)

Definition fill_image (s : u64) (r : WalRecord) (b : AlignedBuf) : AlignedBuf :=
  ab_write (wr_payload r) (ab_write (header_to_bytes (wr_header r))
    (ab_write (slot_prefix_encode (MkSlotPrefix s (wire_size r))) (ab_clear b))).

Lemma fill_image_ok s r b :
  image_ok b → mirrorable r →
  image_ok (fill_image s r b) ∧ as_slice (fill_image s r b) = slot_image s r.
Proof.
  intros [[Hm Hl] Hc] [Hwf Hs]. unfold fill_image. unfold wire_size, DWB_SLOT_RECORD_MAX in Hs.
  change (N.of_nat HEADER_SIZE) with 63 in Hs.
  assert (ab_capacity b = 69632) as Hcap by (rewrite Hc; reflexivity).
  assert (buf_ok (ab_clear b)) as H0' by (split; simpl; [done|lia]).
  assert (∀ p, flen (slot_prefix_encode p) = 20) as Hp
    by (intros p; unfold flen; by rewrite length_slot_prefix).
  assert (flen (header_to_bytes (wr_header r)) = 63) as Hh
    by (unfold flen; by rewrite length_header_to_bytes).
  assert (ab_remaining (ab_clear b) = 69632) as Hr0 by (unfold ab_remaining; simpl; lia).
  destruct (ab_write_fits (slot_prefix_encode (MkSlotPrefix s (wire_size r))) (ab_clear b) H0')
    as (B1 & S1 & L1 & C1 & _); [rewrite Hp, Hr0; lia|]. set (b1 := ab_write _ (ab_clear b)) in *.
  rewrite Hp in L1. change (ab_len (ab_clear b)) with 0 in L1.
  change (ab_capacity (ab_clear b)) with (ab_capacity b) in C1. clearbody b1.
  destruct (ab_write_fits (header_to_bytes (wr_header r)) b1 B1)
    as (B2 & S2 & L2 & C2 & _); [unfold ab_remaining; rewrite Hh; lia|]. set (b2 := ab_write _ b1) in *.
  rewrite Hh in L2. clearbody b2.
  destruct (ab_write_fits (wr_payload r) b2 B2)
    as (B3 & S3 & L3 & C3 & _); [unfold ab_remaining, flen; lia|].
  split; [split; [done|lia]|]. rewrite S3, S2, S1. unfold slot_image, record_to_bytes.
  by rewrite <-!app_assoc.
Qed.

Lemma ring_ok_stage st hist n r s :
  ring_ok st hist n → Forall mirrorable hist → (n ≤ length hist)%nat → mirrorable r →
  s = N.of_nat (length hist) + 1 →
  ring_ok (mark_staged (st {{ sr_images ::= alter (fill_image s r) (length hist mod DWB_CAPACITY)%nat }}))
    (hist ++ [r]) n.
Proof.
  intros [Hlen Him Hst Hsl] Hall Hn Hm ->. set (i := (length hist mod DWB_CAPACITY)%nat) in *.
  assert (i < DWB_CAPACITY)%nat as Hi by apply ring_mod.
  destruct (lookup_lt_is_Some_2 (sr_images st) i) as [b Hb]; [by rewrite Hlen|].
  assert (image_ok b) as Hbo by by eapply Forall_lookup_1.
  split; cbn [mark_staged sr_images sr_staged upd].
  - simpl. by rewrite length_alter.
  - simpl. apply Forall_alter; [done|]. intros x Hx _. rewrite Hb in Hx. injection Hx as <-.
    by apply fill_image_ok.
  - simpl. rewrite Hst, length_app. simpl. unfold u32_max. lia.
  - intros j r' Hj Hnj Hwin. simpl. rewrite length_app in Hwin. simpl in Hwin.
    destruct (decide (j = length hist)) as [->|Hne].
    + rewrite list_lookup_middle in Hj by done. injection Hj as <-. fold i.
      exists (fill_image (N.of_nat (length hist) + 1) r b). split; [rewrite list_lookup_alter_eq, Hb; reflexivity|].
      by apply fill_image_ok.
    + pose proof (lookup_lt_Some _ _ _ Hj) as Hlt. rewrite length_app in Hlt. simpl in Hlt.
      rewrite lookup_app_l in Hj by lia. rewrite list_lookup_alter_ne by (unfold i; apply mod_apart; lia).
      apply Hsl; [done|done|lia].
Qed.

Lemma stage_filled st idx s r :
  on_image idx (ab_write (wr_payload r)) (on_image idx (ab_write (header_to_bytes (wr_header r)))
    (on_image idx (ab_write (slot_prefix_encode (MkSlotPrefix s (wire_size r)))) (cleared_image idx st))) =
  st {{ sr_images ::= alter (fill_image s r) (ring_index idx) }}.
Proof.
  destruct st as [images n]. set (i := ring_index idx).
  change (MkStagedRing (alter (ab_write (wr_payload r)) i (alter (ab_write (header_to_bytes (wr_header r))) i
    (alter (ab_write (slot_prefix_encode (MkSlotPrefix s (wire_size r)))) i (alter ab_clear i images)))) n =
    MkStagedRing (alter (fill_image s r) i images) n).
  by rewrite !list_alter_alter_eq.
Qed.

Lemma write_deferred_inv d hist n r d' :
  dwb_inv d hist n → record_wf r → N.of_nat (S (length hist)) < 2 ^ 64 - 1 →
  dwb_write_deferred r d = (d', Ok Mirrored) → dwb_inv d' (hist ++ [r]) n.
Proof.
  intros Hinv Hwf Hn. unfold dwb_write_deferred.
  destruct (N.ltb_spec DWB_SLOT_RECORD_MAX (wire_size r)) as [|Hs]; [done|].
  assert (mirrorable r) as Hm by done.
  case_bool_decide as Hoff; [done|]. rewrite (take_slot_seq_inv _ _ _ Hinv) by lia.
  set (s := N.of_nat (length hist) + 1). cbn [db_stage upd]. simpl db_stage. simpl db_write_pos.
  assert (∃ st, match db_stage d with Some st => Ok st | None => staged_ring_new end = Ok st ∧
    ring_ok st hist n) as (st & -> & Hst).
  { pose proof (di_stage _ _ _ Hinv) as Hd. destruct (db_stage d) as [st|]; [by exists st|].
    destruct (staged_ring_new_ok hist) as (st & Hst & Hok). exists st. by rewrite Hd. }
  rewrite stage_filled. intros [= <-]. destruct Hinv. pose proof (ring_ok_stage _ _ _ _ s Hst di_all0 di_le0 Hm eq_refl) as Hring.
  assert (sat_add64 s 1 = N.of_nat (length (hist ++ [r])) + 1) as Hseq
    by (unfold sat_add64, u64_max, s; rewrite length_app; simpl; lia).
  split; simpl; try done.
  - apply Forall_app. by split; [|constructor].
  - rewrite length_app. simpl. lia.
  - destruct di_holds0 as [Hh Hb]. split; [|done]. intros j r' Hj Hr. apply Hh; [|done].
    rewrite lookup_app_l in Hj by lia. done.
  - rewrite di_pos0, pos_succ, length_app. do 2 f_equal. simpl. lia.
  - left. by rewrite Hseq.
  - by rewrite di_pos0, ring_index_of.
  - intros Hnil. by destruct hist.
Qed.

(** *** Writing the staged slots *)

Lemma zero_tail_ok b :
  buf_ok b →
  buf_ok (zero_tail b) ∧ ab_capacity (zero_tail b) = ab_capacity b ∧
  full_capacity_slice (zero_tail b) =
    as_slice b ++ replicate (N.to_nat (ab_capacity b - ab_len b)) 0.
Proof.
  intros [Hm Hl]. unfold zero_tail, full_capacity_slice, as_slice, flen in *.
  destruct (N.ltb_spec (ab_len b) (ab_capacity b)) as [Hlt|Hge].
  - simpl ab_capacity. simpl ab_mem. split_and!; [|done|].
    + split; simpl; [|lia]. unfold flen. rewrite length_app, length_take, length_replicate. lia.
    + apply take_ge. rewrite length_app, length_take, length_replicate. lia.
  - split_and!; [done|done|]. replace (ab_capacity b - ab_len b) with 0 by lia. simpl.
    rewrite app_nil_r. f_equal. lia.
Qed.

Lemma slot_bytes_ok mode b s r :
  mode ≠ DwbOff → image_ok b → mirrorable r → as_slice b = slot_image s r →
  ∃ b' rest, slot_bytes mode b = Ok (b', slot_image s r ++ rest) ∧ image_ok b' ∧
    flen (slot_image s r ++ rest) ≤ DWB_SLOT_STRIDE.
Proof.
  intros Hmode [Hb Hc] Hm Hs. destruct mode; [done| |]; cbn [slot_bytes].
  - exists b, []. rewrite app_nil_r, Hs. split_and!; [done|done|]. by apply slot_image_fits.
  - destruct (zero_tail_ok b Hb) as (Hb' & Hc' & Hf). rewrite Hf, Hs.
    eexists _, _. split_and!; [done|by split; [|rewrite Hc']|].
    rewrite <-Hs, flen_app, flen_as_slice by done. unfold flen. rewrite length_replicate.
    destruct Hb. lia.
Qed.

Definition same_fields (d d' : Dwb) : Prop :=
  db_mode d' = db_mode d ∧ db_write_pos d' = db_write_pos d ∧ db_count d' = db_count d ∧
  db_next_seq d' = db_next_seq d ∧ db_dirty d' = db_dirty d ∧ db_header_buf d' = db_header_buf d.

Lemma dwb_pwrite_ok off data d d' :
  data ≠ [] → dwb_pwrite off data d = (d', Ok tt) →
  sf_bytes (db_file d') = overwrite off data (sf_bytes (db_file d)) ∧ same_fields d d' ∧
  db_stage d' = db_stage d.
Proof.
  intros Hne. unfold dwb_pwrite. destruct (pwrite_all _ _ _ _) as [f r] eqn:Hp.
  intros [= <- ->]. apply pwrite_all_ok in Hp; [|by right]. simpl. by split_and!.
Qed.

Lemma dwb_write_all_ok off data d d' :
  data ≠ [] → dwb_write_all off data d = (d', Ok tt) →
  sf_bytes (db_file d') = overwrite off data (sf_bytes (db_file d)) ∧ same_fields d d' ∧
  db_stage d' = db_stage d.
Proof.
  intros Hne. unfold dwb_write_all, file_write_all.
  destruct (pwrite_loop _ _ _ _) as [f [[]|e]] eqn:Hp; intros [= <-].
  apply pwrite_loop_ok in Hp; [|by right]. simpl. by split_and!.
Qed.

Lemma slot_image_cons s r rest : slot_image s r ++ rest ≠ [].
Proof.
  intros Hn. apply (f_equal flen) in Hn. rewrite flen_app, flen_slot_image in Hn.
  unfold flen in Hn. simpl in Hn. lia.
Qed.

(** What the loop needs of the images from [m] on. *)
Definition images_from (st : StagedRing) (hist : list WalRecord) (m : nat) : Prop :=
  length (sr_images st) = DWB_CAPACITY ∧ Forall image_ok (sr_images st) ∧
  ∀ j r, hist !! j = Some r → (m ≤ j)%nat → ∃ b, sr_images st !! (j mod DWB_CAPACITY)%nat = Some b ∧
    as_slice b = slot_image (N.of_nat j + 1) r.

Lemma images_next st hist m b :
  images_from st hist m → (length hist ≤ m + DWB_CAPACITY)%nat → image_ok b →
  images_from (on_image (N.of_nat m mod 2 ^ 32) (λ _, b) st) hist (S m).
Proof.
  intros (Hl & Hi & Hs) Hm Hb. unfold on_image. rewrite ring_index_of. split_and!; simpl.
  - by rewrite length_alter.
  - by apply Forall_alter.
  - intros j r Hj Hle. pose proof (lookup_lt_Some _ _ _ Hj).
    rewrite list_lookup_alter_ne by (apply not_eq_sym, mod_apart; lia). apply Hs; [done|lia].
Qed.

Lemma slot_offset_pos m : slot_offset (N.of_nat m mod 2 ^ 32) = slot_offset (N.of_nat m).
Proof.
  pose proof (ring_index_of m) as Hr. unfold ring_index in Hr.
  rewrite <-(slot_offset_mod m), <-Hr, N2Nat.id. unfold slot_offset. by rewrite N.Div0.mod_mod.
Qed.

Lemma write_slots_inv hist steps : ∀ m st d d',
  (m + steps = length hist)%nat → (steps ≤ DWB_CAPACITY)%nat → Forall mirrorable hist →
  db_mode d ≠ DwbOff → images_from st hist m →
  holds (sf_bytes (db_file d)) hist (length hist - DWB_CAPACITY) m →
  write_slots steps (N.of_nat m mod 2 ^ 32) st d = (d', Ok tt) →
  holds (sf_bytes (db_file d')) hist (length hist - DWB_CAPACITY) (length hist) ∧ same_fields d d' ∧
  (∃ st', db_stage d' = Some st' ∧ images_from st' hist (length hist)) ∧
  (steps = 0%nat → db_file d' = db_file d).
Proof.
  induction steps as [|steps IH]; intros m st d d' Hlen Hcap Hall Hmode Hst Hh.
  { intros [= <-]. simpl. rewrite Nat.add_0_r in Hlen. subst m. split_and!; try done. by exists st. }
  destruct (lookup_lt_is_Some_2 hist m ltac:(lia)) as [r Hr].
  assert (mirrorable r) as Hm by by eapply Forall_lookup_1.
  pose proof Hst as (Hl & Hi & Hs). destruct (Hs m r Hr (le_n _)) as (b & Hb & Hbs).
  assert (image_ok b) as Hbo by by eapply Forall_lookup_1.
  destruct (slot_bytes_ok (db_mode d) b _ r Hmode Hbo Hm Hbs) as (b' & rest & Hsb & Hb' & Hfit).
  cbn [write_slots]. rewrite ring_index_of, Hb, Hsb, slot_offset_pos.
  destruct (dwb_pwrite _ _ d) as [d1 [[]|e]] eqn:Hp; [|done].
  apply dwb_pwrite_ok in Hp as (Hf & Hsame & Hstage); [|apply slot_image_cons].
  rewrite pos_succ. intros Hw. apply IH in Hw as (Hh' & Hsame' & Hst' & _); simpl; try done.
  - split_and!; [done| |done|done]. unfold same_fields in *. destruct_and!. simpl in *.
    split_and!; congruence.
  - lia.
  - lia.
  - by rewrite (proj1 Hsame).
  - apply images_next; [done|lia|done].
  - rewrite Hf. apply holds_write; [done|done|lia|done].
Qed.

Lemma write_staged_inv d hist n d' k :
  dwb_inv d hist n → dwb_write_staged d = (d', Ok k) →
  dwb_inv d' hist (length hist) ∧ same_fields d d'.
Proof.
  intros Hinv. unfold dwb_write_staged. destruct (db_stage d) as [st|] eqn:Hst.
  2:{ intros [= <- <-]. pose proof (di_stage _ _ _ Hinv) as Hn. rewrite Hst in Hn. by rewrite <-Hn. }
  pose proof Hinv as []. rewrite Hst in di_stage0. destruct di_stage0 as [Hl Hi Hcnt Hs].
  assert (surviving st = N.of_nat (Nat.min (length hist - n) DWB_CAPACITY)) as Hsv.
  { unfold surviving. rewrite Hcnt. unfold u32_max, DWB_CAPACITY. lia. }
  rewrite Hsv, Nat2N.id, di_pos0. set (s := Nat.min (length hist - n) DWB_CAPACITY).
  rewrite pos_back by (unfold s, DWB_CAPACITY; lia).
  destruct (write_slots _ _ _ _) as [d1 [[]|e]] eqn:Hw; [|done]. intros [= <- <-].
  apply (write_slots_inv hist) in Hw as (Hh & Hsame & (st' & Hst' & Himg) & Hz); try done.
  - split; [|done]. pose proof Hsame as (M1 & M2 & M3 & M4 & M5 & M6).
    split; simpl; rewrite ?M1, ?M2, ?M4, ?M5, ?M6; try done.
    + destruct di_seq0 as [|[]]; [by left|by right].
    + rewrite Hst'. simpl. destruct Himg as (? & ? & _). split; simpl; [done|done|by rewrite Nat.sub_diag|].
      intros j r Hj Hle _. apply lookup_lt_Some in Hj. lia.
    + intros Hnil. destruct (di_empty0 Hnil) as [Hf Hd]. rewrite Hz, Hf; [done|].
      unfold s. by rewrite Hnil.
    + intros Hd. destruct (di_dirty0 Hd) as (-> & Hsy & Hhd). rewrite Hz by (unfold s; lia). done.
  - unfold s. lia.
  - unfold s. lia.
  - split_and!; [done|done|]. intros j r Hj Hle. apply Hs; [done|unfold s in Hle; lia|].
    pose proof (lookup_lt_Some _ _ _ Hj). unfold s in Hle. lia.
  - destruct di_holds0 as [Hh Hb]. split.
    + intros j r Hj Hrange. apply Hh; [done|]. unfold s in Hrange. lia.
    + intros i Hrange. apply Hb. unfold s in Hrange. lia.
Qed.

(** *** Flushing and reopening *)

Lemma header_fields count pos rest bs :
  pos < 2 ^ 32 →
  let data := (to_le 4 DWB_MAGIC ++ to_le 4 count ++ to_le 4 pos) ++ rest in
  le_at 0 4 (overwrite 0 data bs) = DWB_MAGIC ∧ le_at 8 4 (overwrite 0 data bs) = pos.
Proof.
  intros Hp data. unfold overwrite, data. cbn [N.to_nat take app]. rewrite take_0, app_nil_l, <-!app_assoc.
  split; by le_field.
Qed.

Lemma slot_after_header i : DWB_HEADER_STRIDE ≤ slot_offset i.
Proof. unfold slot_offset. apply N.le_add_r. Qed.

Lemma holds_long file hist lo hi :
  holds file hist lo hi → (lo < hi)%nat → (hi ≤ length hist)%nat → DWB_HEADER_STRIDE ≤ flen file.
Proof.
  intros [Hh _] Hlo Hhi. destruct (lookup_lt_is_Some_2 hist lo ltac:(lia)) as [r Hr].
  destruct (Hh lo r Hr ltac:(lia)) as [rest Hs]. destruct (N.le_gt_cases DWB_HEADER_STRIDE (flen file)) as [|Hlt]; [done|].
  exfalso. unfold slice in Hs. rewrite drop_ge in Hs.
  - rewrite take_nil in Hs. by destruct (slot_image_cons (N.of_nat lo + 1) r rest).
  - pose proof (slot_after_header (N.of_nat (lo mod DWB_CAPACITY))). unfold flen in Hlt. lia.
Qed.

(** The header block that is written over the head of the file. *)
Lemma write_header_ok d hist d' :
  dwb_inv d hist (length hist) → hist ≠ [] →
  match db_mode d with
  | DwbOff => (d, Err DwbOffNotOpenable)
  | DwbBuffered =>
      dwb_write_all 0 (to_le 4 DWB_MAGIC ++ to_le 4 (db_count d) ++ to_le 4 (db_write_pos d)) d
  | DwbDirect =>
      match db_header_buf d with
      | None => (d, Err (AlignmentViolation DWB_HEADER_STRIDE 0))
      | Some buf =>
          let buf := zero_tail (ab_write (to_le 4 DWB_MAGIC ++ to_le 4 (db_count d) ++
            to_le 4 (db_write_pos d)) (ab_clear buf)) in
          dwb_pwrite 0 (full_capacity_slice buf) (d {{ db_header_buf := Some buf }})
      end
  end = (d', Ok tt) →
  dwb_inv (d' {{ db_dirty := true }}) hist (length hist) ∧
  header_ok (sf_bytes (db_file d')) (length hist).
Proof.
  intros Hinv Hne. set (header := to_le 4 DWB_MAGIC ++ to_le 4 (db_count d) ++ to_le 4 (db_write_pos d)).
  assert (flen header = 12) as Hh by (unfold header, flen; by rewrite !length_app, !length_to_le).
  assert (db_write_pos d < 2 ^ 32) as Hpos
    by (rewrite (di_pos _ _ _ Hinv); by apply N.mod_lt).
  intros Hw. assert (∃ rest, flen (header ++ rest) ≤ DWB_HEADER_STRIDE ∧
    sf_bytes (db_file d') = overwrite 0 (header ++ rest) (sf_bytes (db_file d)) ∧
    db_mode d' = db_mode d ∧ db_write_pos d' = db_write_pos d ∧ db_next_seq d' = db_next_seq d ∧
    db_stage d' = db_stage d ∧ (db_mode d' = DwbDirect →
      ∃ b, db_header_buf d' = Some b ∧ buf_ok b ∧ ab_capacity b = DWB_HEADER_STRIDE)) as
    (rest & Hfit & Hf & Em & Ep & Eq & Es & Eh).
  { pose proof (di_hbuf _ _ _ Hinv) as Hbuf. destruct (db_mode d) eqn:Hmode; [done| |].
    - apply dwb_write_all_ok in Hw as (Hf & (M1 & M2 & _ & M4 & _ & M6) & Hs); [|done].
      exists []. rewrite app_nil_r, Hh, M1, Hmode. by split_and!.
    - destruct (Hbuf eq_refl) as (b & Hb & Hbo & Hc). rewrite Hb in Hw.
      assert (buf_ok (ab_clear b)) as Hclr by (destruct Hbo; split; simpl; [done|lia]).
      destruct (ab_write_fits header (ab_clear b) Hclr) as (B1 & S1 & L1 & C1 & _).
      { rewrite Hh. unfold ab_remaining. change (ab_capacity (ab_clear b)) with (ab_capacity b).
        rewrite Hc. done. }
      destruct (zero_tail_ok _ B1) as (B2 & C2 & F2). rewrite S1 in F2.
      change (as_slice (ab_clear b)) with (@nil N) in F2. rewrite app_nil_l in F2.
      cbv zeta in Hw. rewrite F2 in Hw.
      apply dwb_pwrite_ok in Hw as (Hf & (M1 & M2 & _ & M4 & _ & M6) & Hs); [|done].
      exists (replicate (N.to_nat (ab_capacity (ab_write header (ab_clear b)) -
        ab_len (ab_write header (ab_clear b)))) 0).
      split_and!; try done; [|by rewrite M1|].
      + rewrite flen_app, Hh, L1, C1, Hh. change (ab_capacity (ab_clear b)) with (ab_capacity b).
        change (ab_len (ab_clear b)) with 0. unfold flen. rewrite length_replicate, Hc.
        unfold DWB_HEADER_STRIDE, DEFAULT_ALIGNMENT. lia.
      + intros _. rewrite M6. simpl. eexists. split_and!; [done|done|]. by rewrite C2, C1. }
  destruct Hinv. assert (holds (sf_bytes (db_file d')) hist (length hist - DWB_CAPACITY) (length hist)) as Hho.
  { rewrite Hf. apply holds_other; [|done]. intros i _. pose proof (slot_after_header (N.of_nat i)). right. lia. }
  split.
  - split; simpl; rewrite ?Em, ?Ep, ?Eq, ?Es; try done; by rewrite <-Em.
  - split_and!.
    + apply (holds_long _ _ _ _ Hho); [|done]. destruct hist; [done|]. unfold DWB_CAPACITY. simpl. lia.
    + rewrite Hf. by apply header_fields.
    + rewrite Hf, <-di_pos0. by apply header_fields.
Qed.

Lemma flush_all_inv d hist n d' :
  dwb_inv d hist n → dwb_flush_all d = (d', Ok tt) →
  dwb_inv d' hist (length hist) ∧ db_dirty d' = false.
Proof.
  intros Hinv. unfold dwb_flush_all. destruct (db_dirty d) eqn:Hd; simpl negb; cbv iota.
  2:{ intros [= <-]. destruct (di_dirty _ _ _ Hinv Hd) as [<- _]. done. }
  assert (hist ≠ []) as Hne.
  { intros Hnil. destruct (di_empty _ _ _ Hinv Hnil). congruence. }
  destruct (dwb_write_staged d) as [d1 [k|e]] eqn:Hs; [|done].
  apply (write_staged_inv _ _ _ _ _ Hinv) in Hs as [Hinv1 _].
  set (hdr := match db_mode d1 with DwbOff => _ | _ => _ end).
  destruct hdr as [d2 [[]|e]] eqn:Hh; [|done].
  apply (write_header_ok _ _ _ Hinv1 Hne) in Hh as [Hinv2 Hok]. unfold dwb_sync_all.
  destruct (hd true _); [|done]. intros [= <-]. split; [|done]. destruct Hinv2. simpl in *.
  split; simpl; try done. intros _. split_and!; [done|done|by right].
Qed.

Lemma le_at_take lo k n (bs : bytes) : (lo + k ≤ n)%nat → le_at lo k (take n bs) = le_at lo k bs.
Proof.
  intros Hn. unfold le_at. rewrite !take_drop_commute. by rewrite take_take, Nat.min_l by lia.
Qed.

(** A buffer opened on a file that was left clean. *)
Lemma open_inv f hist mode io d :
  dwb_open f mode io = Ok d → Forall mirrorable hist →
  holds (sf_bytes f) hist (length hist - DWB_CAPACITY) (length hist) → sf_synced f = sf_bytes f →
  hist = [] ∧ sf_bytes f = [] ∨ hist ≠ [] ∧ header_ok (sf_bytes f) (length hist) →
  dwb_inv d hist (length hist).
Proof.
  intros Ho Hall Hh Hsy Hc. unfold dwb_open in Ho. case_bool_decide as Hoff; [done|].
  set (hb := if bool_decide (mode = DwbDirect) then _ else _) in Ho.
  destruct hb as [b|e] eqn:Hhb; [|done].
  assert (mode = DwbDirect → ∃ b', b = Some b' ∧ buf_ok b' ∧ ab_capacity b' = DWB_HEADER_STRIDE) as Hbuf.
  { intros ->. unfold hb in Hhb. rewrite bool_decide_true in Hhb by done.
    destruct (aligned_buf_new _ _) as [[b'|]|] eqn:Hb; [|done..]. injection Hhb as <-.
    apply aligned_buf_new_ok in Hb as (Hok & _ & _ & _ & _ & Hcap & _). exists b'. split_and!; [done|done|].
    by rewrite Hcap. }
  clear Hhb hb. simpl in Ho. revert Ho. rewrite !le_at_take by (change (N.to_nat DWB_HEADER_STRIDE) with 4096%nat; lia).
  destruct Hc as [[-> Hf]|[Hne (Hlen & Hm & Hp)]].
  - rewrite Hf. simpl. intros [= <-]. split; simpl; try done; [by right|]. intros _. split_and!; [done|done|by left].
  - rewrite (proj2 (N.leb_le _ _) Hlen), Hm, N.eqb_refl. intros [= <-].
    split; simpl; try done; [by right|]. intros _. split_and!; [done|done|by right].
Qed.
End inv.
