(* ===== verification/WalCrash.v ===== *)
(** * Crash safety of a WAL segment

    Recovery is sound: what it reads is what the file holds, record by record.
    A writer, run through any sequence of appends, syncs, power losses, process
    crashes and reopens, implements an abstract log with a durable part, which
    only grows and which replay of every crash image yields first. *)

From Stdlib Require Import Lia.
From stdpp Require Import base option sets list.
From S2P Require Import Prelude WalRecord WalRecordFacts WalReader WalReaderFacts WalRecovery.
From S2P Require Import WalWriter WalWriterFacts.

Open Scope N_scope.

Definition file_ok (file : bytes) : Prop := Forall (λ b, b < 256) file ∧ flen file < 2 ^ 64.

(** ** What recovery reads *)

Section sound.
Context `{Crc32c, Aes256Gcm}.

(** A reader of raw records, with no buffer file to repair from. *)
Definition plain_reader (rd : WalReader) : Prop :=
  rd_double_write rd = None ∧ rd_decryptor rd = None ∧ file_ok (rd_file rd).

Lemma plain_same rd rd' : same_source rd rd' → plain_reader rd → plain_reader rd'.
Proof. intros (Hf & _ & _ & Hd & Hk) (? & ? & ?). unfold plain_reader. by rewrite Hf, Hd, Hk. Qed.

Lemma judge_goes_on r off rd rd' s :
  rd_double_write rd = None → judge_record r off rd = (rd', s) → goes_on s = true →
  verify_checksum r = Ok tt.
Proof.
  intros Hd. unfold judge_record, repair_torn_record. rewrite Hd.
  destruct (verify_checksum r) as [[]|]; [done|]. by intros [= <- <-].
Qed.

Lemma read_step_intact rd rd' s :
  rd_double_write rd = None → read_step rd = (rd', s) → goes_on s = true →
  is_Some (intact_record_lsn (rd_file rd) (rd_offset rd)).
Proof.
  intros Hd. unfold read_step, intact_record_lsn. change (N.of_nat HEADER_SIZE) with 63.
  destruct (read_exact _ _ 63) as [buf next| |e] eqn:Hx; [|by intros [= <- <-] ..].
  apply read_exact_ok in Hx as (-> & Hle & Hlt & ->).
  rewrite (proj2 (N.ltb_lt _ _)), (proj2 (N.leb_le _ _)) by done. cbn [negb andb].
  simpl rd_offset. simpl rd_file. rewrite N.add_sub.
  set (h := header_from_bytes _). destruct (header_validate (rd_offset rd) h) as [[]|e];
    [|destruct e; repeat case_match; by intros [= <- <-]].
  destruct (N.eqb_spec (rh_payload_len h) 0) as [Hz|Hz].
  - rewrite Hz, N.add_0_r. rewrite (proj2 (N.ltb_lt _ _)), (proj2 (N.leb_le _ _)) by done. cbn [negb andb].
    intros Hj Hg. change (slice (rd_file rd) (rd_offset rd + 63) 0) with (@nil N).
    apply judge_goes_on in Hj; [by rewrite Hj|done|done].
  - destruct (read_exact _ _ (rh_payload_len h)) as [buf next| |e] eqn:Hx; [|by intros [= <- <-] ..].
    apply read_exact_ok in Hx as (-> & Hle2 & Hlt2 & ->).
    rewrite (proj2 (N.ltb_lt _ _)), (proj2 (N.leb_le _ _)) by done. cbn [negb andb].
    intros Hj Hg. apply judge_goes_on in Hj; [by rewrite Hj|done|done].
Qed.

(** A step that goes on has read an intact record. *)
Lemma read_step_sound rd rd' s :
  plain_reader rd → read_step rd = (rd', s) → goes_on s = true →
  ∃ r, intact_at (rd_file rd) (rd_offset rd) r ∧ readable r = true ∧
    rd' = rd_at rd (rd_offset rd + wire_size r) ∧
    s = if surfaced r then Return (Ok (Some r)) else Continue.
Proof.
  intros (Hd & Hk & Hb & Hlt) Hs Hg. destruct (read_step_intact _ _ _ Hd Hs Hg) as [lsn Hi].
  apply (intact_record_lsn_iff _ _ _ Hb Hlt) in Hi as (r & Hi & _). exists r.
  destruct (intact_at_split _ _ _ Hi) as (rest & Hf & Ho). pose proof (proj1 Hi) as Hwf.
  rewrite (read_step_record rd _ r rest Hf (eq_sym Ho) Hlt Hwf) in Hs. rewrite Ho in Hs.
  destruct (readable r) eqn:Hr.
  - rewrite judge_record_wf in Hs by done. injection Hs as <- <-. by split_and!.
  - exfalso. revert Hs Hr. unfold judge_record, readable. rewrite wf_verify by done. simpl.
    destruct (from_raw _); [done|]. intros Hs Hq%negb_false_iff. rewrite Hq in Hs. injection Hs as <- <-. done.
Qed.

Lemma intact_at_drop file off r :
  intact_at file off r →
  drop (N.to_nat off) file = record_to_bytes r ++ drop (N.to_nat (off + wire_size r)) file ∧
  off + wire_size r ≤ flen file.
Proof.
  intros Hi. destruct (intact_at_split _ _ _ Hi) as (rest & Hf & Ho). destruct Hi as [_ [rest' Hd]].
  pose proof (flen_record r) as Hl. split.
  - rewrite Hd. f_equal. replace (N.to_nat (off + wire_size r)) with (N.to_nat off + N.to_nat (wire_size r))%nat by lia.
    rewrite <-drop_drop, Hd, <-Hl. unfold flen. by rewrite Nat2N.id, drop_app_length.
  - rewrite Hf, !flen_app, Ho, Hl. lia.
Qed.

Lemma reads_sound rd out rd1 :
  reads rd out rd1 → plain_reader rd → rd_committed_end rd = rd_offset rd →
  rd_offset rd ≤ flen (rd_file rd) →
  ∃ rs, Forall record_wf rs ∧ Forall (λ r, readable r = true) rs ∧ List.filter surfaced rs = out ∧
    drop (N.to_nat (rd_offset rd)) (rd_file rd) =
      segment_bytes rs ++ drop (N.to_nat (rd_offset rd1)) (rd_file rd) ∧
    rd_offset rd1 = rd_offset rd + flen (segment_bytes rs) ∧ rd_offset rd1 ≤ flen (rd_file rd) ∧
    rd_committed_end rd1 = rd_offset rd1 ∧ same_source rd rd1.
Proof.
  induction 1 as [rd|rd rd1 out rd2 Hs Hr IH|rd rd1 rec out rd2 Hs Hr IH]; intros Hp Hc Hle.
  { exists []. rewrite N.add_0_r. by split_and!. }
  all: destruct (read_step_sound _ _ _ Hp Hs eq_refl) as (r & Hi & Hrd & -> & Hsf).
  all: destruct (intact_at_drop _ _ _ Hi) as [Hd Hl].
  all: destruct IH as (rs & Hwf & Hrds & Ho & Hdr & Hoff & Hle2 & Hc2 & Hsame); [done|done|done|].
  all: exists (r :: rs); simpl in *.
  all: change (segment_bytes (r :: rs)) with (record_to_bytes r ++ segment_bytes rs).
  all: rewrite <-app_assoc, <-Hdr, flen_app, flen_record.
  all: destruct (surfaced r) eqn:Hss; try discriminate Hsf.
  all: try (injection Hsf as ->).
  all: split_and!; try done; try (by constructor; [apply Hi|]); try (by constructor); try lia.
  by f_equal.
Qed.

(** Every run of the reader ends. *)
Lemma run_ends rd :
  ∃ out rd1 rd2 r, reads rd out rd1 ∧ read_step rd1 = (rd2, Return r) ∧ ∀ rec, r ≠ Ok (Some rec).
Proof.
  remember (length (rd_file rd) - N.to_nat (rd_offset rd))%nat as n eqn:Hn.
  revert rd Hn. induction (lt_wf n) as [n _ IH]. intros rd ->.
  destruct (read_step rd) as [rd1 s] eqn:Hs. destruct (goes_on s) eqn:Hg.
  - destruct (IH _ (read_step_left _ _ _ Hs Hg) rd1 eq_refl) as (out & rd2 & rd3 & r & Hr & He & Hno).
    destruct s as [|[[rec|]|]]; try done.
    + exists out, rd2, rd3, r. split_and!; [by eapply reads_skip|done|done].
    + exists (rec :: out), rd2, rd3, r. split_and!; [by eapply reads_deliver|done|done].
  - destruct s as [|r]; [done|]. exists [], rd, rd1, r. split_and!; [constructor|done|].
    by intros rec ->.
Qed.

Lemma judge_stops r off rd rd' :
  rd_double_write rd = None → rd_decryptor rd = None →
  judge_record r off rd = (rd', Return (Ok None)) → rd_committed_end rd' = rd_committed_end rd.
Proof.
  intros Hd Hk. unfold judge_record, repair_torn_record, deliver. rewrite Hd.
  destruct (verify_checksum r); [|by intros [= <-]].
  destruct (from_raw _); repeat case_match; simpl in *; congruence.
Qed.

Lemma step_stops rd rd' :
  plain_reader rd → read_step rd = (rd', Return (Ok None)) →
  rd_committed_end rd' = rd_committed_end rd.
Proof.
  intros (Hd & Hk & _). unfold read_step.
  repeat case_match; try (by intros [= <-]); by intros Hj%judge_stops.
Qed.
End sound.

(** ** Opening an image *)

Section opening.
Context `{Crc32c, Aes256Gcm}.

(** What opening a reader yields. *)
Definition opened_at (file : bytes) (dwb : option bytes) (rd : WalReader) (pos : u64) : Prop :=
  rd_at rd pos = rd ∧ rd_file rd = file ∧ rd_double_write rd = dwb ∧ rd_decryptor rd = None.

Lemma open_raw_sound file dwb rd :
  open_raw file dwb = Ok rd →
  ∃ pre, pre `prefix_of` file ∧ valid_pre pre ∧ opened_at file dwb rd (flen pre).
Proof.
  unfold open_raw, read_leading_preamble, parse_leading_preamble, preamble_from_bytes.
  destruct (Nat.ltb_spec (length file) PREAMBLE_SIZE) as [Hs|Hs].
  { intros [= <-]. exists []. split; [apply prefix_nil|]. split; [by left|by unfold opened_at]. }
  rewrite length_take, Nat.min_l, Nat.ltb_irrefl by done. rewrite (take_take _ 16 16).
  change (16 `min` 16)%nat with 16%nat. case_bool_decide as Hm; simpl.
  2:{ intros [= <-]. exists []. split; [apply prefix_nil|]. split; [by left|by unfold opened_at]. }
  rewrite bool_decide_true by done. simpl.
  destruct (N.eqb_spec (le_at 4 2 (take 16 file)) PREAMBLE_VERSION) as [Hv|Hv]; [|done].
  intros [= <-]. exists (take 16 file). split_and!.
  - eexists. symmetry. apply take_drop.
  - right. rewrite length_take, Nat.min_l by done. done.
  - unfold opened_at, flen. by rewrite length_take, Nat.min_l by done.
Qed.

Lemma open_raw_valid pre body dwb :
  valid_pre pre → (pre = [] → starts_plain body) →
  ∃ rd, open_raw (pre ++ body) dwb = Ok rd ∧ opened_at (pre ++ body) dwb rd (flen pre).
Proof.
  intros [->|(Hl & Hm & Hv)] Hp.
  - eexists. split; [apply (open_raw_start None body dwb); [done|intros _; by apply Hp]|by unfold opened_at].
  - unfold open_raw, read_leading_preamble, parse_leading_preamble, preamble_from_bytes.
    rewrite (proj2 (Nat.ltb_ge _ _)) by (rewrite length_app; lia).
    rewrite (take_app_length' pre body) by done. rewrite Hl, Nat.ltb_irrefl.
    rewrite (take_ge pre PREAMBLE_SIZE) by lia. rewrite bool_decide_true by done. cbn [negb].
    eexists. split; [by rewrite Hv|].
    unfold opened_at, flen. by rewrite Hl.
Qed.

(** A reader of a file that starts with records reads them first. *)
Lemma open_reads file dwb rd pre0 rs0 :
  open_raw file dwb = Ok rd → flen file < 2 ^ 64 → valid_pre pre0 → Forall record_wf rs0 →
  Forall (λ r, readable r = true) rs0 → durable_base pre0 rs0 `prefix_of` file →
  ∃ pre tail, valid_pre pre ∧ (rs0 ≠ [] → pre = pre0) ∧ file = pre ++ segment_bytes rs0 ++ tail ∧
    opened_at file dwb rd (flen pre) ∧
    reads rd (List.filter surfaced rs0) (rd_at rd (flen (pre ++ segment_bytes rs0))).
Proof.
  intros Ho Hlt Hv Hwf Hrd Hb. destruct rs0 as [|r rs0].
  - destruct (open_raw_sound _ _ _ Ho) as (pre & [tail Hf] & Hpre & Hat).
    exists pre, tail. split_and!; try done. change (segment_bytes []) with (@nil N).
    rewrite app_nil_r. destruct Hat as (Ha & _). rewrite Ha. constructor.
  - destruct Hb as [tail Hf]. unfold durable_base in Hf. rewrite <-app_assoc in Hf.
    assert (pre0 = [] → starts_plain (segment_bytes (r :: rs0) ++ tail)) as Hsp.
    { intros _. right. inversion_clear Hwf.
      change (segment_bytes (r :: rs0)) with (record_to_bytes r ++ segment_bytes rs0).
      rewrite <-app_assoc. by apply take_magic. }
    destruct (open_raw_valid pre0 _ dwb Hv Hsp) as (rd' & Ho' & Hat). rewrite <-Hf, Ho in Ho'.
    injection Ho' as <-. rewrite <-Hf in Hat. exists pre0, tail. split_and!; try done.
    pose proof Hat as (Ha & Hff & _ & Hk). rewrite <-Ha at 1.
    eapply (reads_image (r :: rs0)); [by rewrite Hff|by rewrite Hff|done|done|done].
Qed.

Lemma image_opens file dwb pre r rs :
  flen file < 2 ^ 64 → valid_pre pre → Forall record_wf (r :: rs) →
  durable_base pre (r :: rs) `prefix_of` file → ∃ rd, open_raw file dwb = Ok rd.
Proof.
  intros Hlt Hv Hwf [tail ->]. unfold durable_base. rewrite <-app_assoc.
  destruct (open_raw_valid pre (segment_bytes (r :: rs) ++ tail) dwb Hv) as (rd & Ho & _); [|by eexists].
  intros _. right. inversion_clear Hwf.
  change (segment_bytes (r :: rs)) with (record_to_bytes r ++ segment_bytes rs).
  rewrite <-app_assoc. by apply take_magic.
Qed.

(** What a successful recovery says of the file: it holds whole records up to
    the offset recovery gives, among them those known to be there. *)
Lemma recover_sound file info pre0 rs0 :
  file_ok file → recover (Some file) None = Some (Ok info) → valid_pre pre0 →
  Forall record_wf rs0 → Forall (λ r, readable r = true) rs0 →
  durable_base pre0 rs0 `prefix_of` file →
  ∃ pre rs, valid_pre pre ∧ (rs0 ≠ [] → pre = pre0) ∧ rs0 `prefix_of` rs ∧ Forall record_wf rs ∧
    Forall (λ r, readable r = true) rs ∧ ri_end_offset info ≤ flen file ∧
    take (N.to_nat (ri_end_offset info)) file = pre ++ segment_bytes rs.
Proof.
  intros Hok Hrec Hv Hwf Hrd Hb. unfold recover in Hrec.
  destruct (open_raw file None) as [rd|e] eqn:Ho; [|done].
  destruct (open_reads file None rd pre0 rs0 Ho (proj2 Hok) Hv Hwf Hrd Hb)
    as (pre & tail & Hpre & Heq & Hf & (Hat & Hff & Hd & Hk) & Hr0).
  set (rd0 := rd_at rd _) in Hr0. destruct (run_ends rd0) as (out & rd1 & rd2 & r & Hr & Hs & Hno).
  assert (plain_reader rd0) as Hp by (unfold plain_reader, rd0; simpl; by rewrite Hd, Hk, Hff).
  destruct (reads_sound _ _ _ Hr Hp) as (rs & Hwf1 & Hrd1 & _ & Hdr & Hoff & Hle & Hc & Hsame);
    [done|unfold rd0; simpl; rewrite Hff, Hf, app_assoc, (flen_app (_ ++ _)); lia|].
  replace (S (length file)) with (S (length (rd_file rd))) in Hrec by by rewrite Hff.
  change (recover_fuel (S (length (rd_file rd))) rd 0 0) with (recover_run rd 0 0) in Hrec.
  rewrite (recover_reads _ _ _ 0 0 (reads_app _ _ _ _ _ Hr0 Hr)) in Hrec.
  rewrite recover_run_unfold, next_record_unfold, Hs in Hrec.
  destruct r as [[rec|]|e]; [by destruct (Hno rec)| |done].
  destruct (verify_committed_prefix _ _ _) as [[]|]; [|done..]. injection Hrec as <-. simpl.
  rewrite (step_stops _ _ (plain_same _ _ Hsame Hp) Hs), Hc.
  exists pre, (rs0 ++ rs). split_and!; try done; [by eexists|by apply Forall_app|by apply Forall_app| |].
  - revert Hle. unfold rd0. simpl. by rewrite Hff.
  - revert Hdr Hoff. unfold rd0. simpl. rewrite Hff. intros Hdr ->.
    set (base := pre ++ segment_bytes rs0) in *. rewrite Hf, app_assoc. fold base.
    rewrite Hf, app_assoc in Hdr. fold base in Hdr. unfold flen in Hdr at 1. rewrite Nat2N.id in Hdr.
    rewrite drop_app_length in Hdr. rewrite Hdr, segment_bytes_app.
    rewrite (app_assoc pre), (app_assoc _ (segment_bytes rs)). apply take_app_length'.
    rewrite length_app. fold base. unfold flen. lia.
Qed.
End opening.

(** ** The abstract log *)

(** Records in the order replay hands them out: those that are durable, those
    found by the last reopen, and those appended since the last sync. *)
Record WalLog : Type := MkWalLog {
  wl_durable : list WalRecord;
  wl_recovered : list WalRecord;
  wl_pending : list WalRecord;
}.

(** What a client of the writer sees of an operation. *)
Inductive WalEvent : Type :=
  | EvAppend (accepted : option WalRecord)
  | EvSync (ok : bool)
  | EvControl
  | EvRestart.

Inductive wlog_step : WalEvent → WalLog → WalLog → Prop :=
  | wlog_append d rc p r : wlog_step (EvAppend (Some r)) (MkWalLog d rc p) (MkWalLog d rc (p ++ [r]))
  | wlog_reject l : wlog_step (EvAppend None) l l
  | wlog_control l : wlog_step EvControl l l
  | wlog_sync d rc p anchors :
      Forall is_time_anchor anchors →
      wlog_step (EvSync true) (MkWalLog d rc p) (MkWalLog (d ++ rc ++ p ++ anchors) [] [])
  | wlog_sync_idle d rc : wlog_step (EvSync true) (MkWalLog d rc []) (MkWalLog d rc [])
  | wlog_sync_failed d rc p anchors :
      Forall is_time_anchor anchors →
      wlog_step (EvSync false) (MkWalLog d rc p) (MkWalLog d rc (p ++ anchors))
  | wlog_restart d rc p rc' : wlog_step EvRestart (MkWalLog d rc p) (MkWalLog d rc' []).

Inductive wlog_run : WalLog → list WalEvent → WalLog → Prop :=
  | wlog_run_nil l : wlog_run l [] l
  | wlog_run_snoc l es l1 e l2 : wlog_run l es l1 → wlog_step e l1 l2 → wlog_run l (es ++ [e]) l2.

(** The durable part only grows. *)
Lemma wlog_step_durable e l l' : wlog_step e l l' → wl_durable l `prefix_of` wl_durable l'.
Proof. destruct 1; simpl; try done. by apply prefix_app_r. Qed.

Lemma wlog_run_durable l es l' : wlog_run l es l' → wl_durable l `prefix_of` wl_durable l'.
Proof. induction 1; [done|]. etrans; [done|]. by eapply wlog_step_durable. Qed.

Lemma wlog_run_app l es1 es2 l2 :
  wlog_run l (es1 ++ es2) l2 → ∃ l1, wlog_run l es1 l1 ∧ wlog_run l1 es2 l2.
Proof.
  remember (es1 ++ es2) as es eqn:He. intros Hr. revert es2 He.
  induction Hr as [l|l es l1 e l2 Hr IH Hs]; intros es2 He.
  - symmetry in He. apply app_nil in He as [-> ->]. exists l. split; constructor.
  - destruct es2 as [|e' es2 _] using rev_ind.
    + rewrite app_nil_r in He. subst es1. exists l2. split; [by econstructor|constructor].
    + rewrite app_assoc in He. apply app_inj_tail in He as [-> <-].
      destruct (IH es2 eq_refl) as (lm & H1 & H2). exists lm. split; [done|by econstructor].
Qed.

(** A pending record stays pending until it is durable or the writer
    restarts. *)
Lemma wlog_pending_stays l es l' r :
  wlog_run l es l' → r ∈ wl_pending l → EvRestart ∉ es → r ∈ wl_durable l' ++ wl_pending l'.
Proof.
  induction 1 as [l|l es l1 e l2 Hr IH Hs]; intros Hp Hno; [set_solver|].
  specialize (IH Hp ltac:(set_solver)). destruct Hs; simpl in *; set_solver.
Qed.

(** An appended record is durable after a sync that succeeds. *)
Lemma wlog_synced l es1 r es2 es3 l' :
  wlog_run l (es1 ++ [EvAppend (Some r)] ++ es2 ++ [EvSync true] ++ es3) l' → EvRestart ∉ es2 →
  r ∈ wl_durable l'.
Proof.
  intros (l1 & _ & Hr)%wlog_run_app Hno.
  apply wlog_run_app in Hr as (l2 & Ha & Hr). apply wlog_run_app in Hr as (l3 & Hm & Hr).
  apply wlog_run_app in Hr as (l4 & Hsy & Hr).
  assert (∀ e a b, wlog_run a [e] b → wlog_step e a b) as Hone.
  { intros e a b Hab. remember [e] as es eqn:He. destruct Hab as [|a es a1 e' b Hab Hs]; [done|].
    apply (app_inj_tail es []) in He as [-> ->]. remember [] as es eqn:He. destruct Hab; [done|].
    by destruct es. }
  apply Hone in Ha, Hsy. assert (r ∈ wl_pending l2) as Hp by (inversion Ha; set_solver).
  pose proof (wlog_pending_stays _ _ _ _ Hm Hp Hno) as Hin.
  destruct (wlog_run_durable _ _ _ Hr) as [more ->]. apply elem_of_app. left.
  inversion Hsy; subst; simpl in *; set_solver.
Qed.

(** ** The writer and its crashes *)

(** What the next open finds of a file: everything after a process crash; after
    a power loss, at least what is durable. *)
Inductive crashed (f : SegFile) : SegFile → Prop :=
  | process_crash : crashed f f
  | power_loss img : crash_image f img → crashed f (MkSegFile img img []).

(** A configuration whose buffer no record outgrows. *)
Definition config_fits (c : WalWriterConfig) : Prop :=
  config_ok c ∧
  round_up (N.max (wc_write_buffer_size c) (wc_alignment c)) (wc_alignment c) ≤ MAX_WAL_PAYLOAD_SIZE.

Section system.
Context `{Crc32c, !Crc32cLaws, Aes256Gcm} {D : Type} `{DoubleWriteBuffer D}.
Implicit Types (w : WalWriter D).

Inductive wal_step : WalEvent → WalWriter D → WalWriter D → Prop :=
  | step_append os target payload key w w' lsn r :
      target_ok target key → ww_next_lsn w < 2 ^ 64 →
      append_keyed os target payload key w = (w', Ok lsn) →
      new_stamped (append_args target payload w) (append_stamp target key) = Ok r →
      wal_step (EvAppend (Some r)) w w'
  | step_reject os target payload key w w' e :
      target_ok target key → ww_next_lsn w < 2 ^ 64 →
      append_keyed os target payload key w = (w', Err e) →
      wal_step (EvAppend None) w w'
  | step_sync env w w' res :
      ww_next_lsn w < 2 ^ 64 → sync env w = (w', res) → wal_step (EvSync (is_ok res)) w w'
  | step_seal env w w' res :
      ww_next_lsn w < 2 ^ 64 → seal env w = (w', res) → wal_step (EvSync (is_ok res)) w w'
  | step_encrypt ring w w' res :
      length (wk_epoch (kr_current ring)) = 4%nat →
      set_encryption_ring ring w = (w', res) → wal_step EvControl w w'
  | step_reattach opened w : wal_step EvControl w (reattach_double_write opened w)
  | step_restart f c dwb_file opened first_lsn w w' :
      crashed (ww_file w) f → file_ok (sf_bytes f) → config_fits c →
      open_resuming c f dwb_file opened first_lsn = Some (Ok w') →
      recover (Some (sf_bytes f)) dwb_file = recover (Some (sf_bytes f)) None →
      (∀ info, recover (Some (sf_bytes f)) None = Some (Ok info) →
         ww_file_offset w' = ri_end_offset info) →
      wal_step EvRestart w w'.

(** A writer on a new segment file. *)
Definition fresh w : Prop := ∃ c opened start_lsn,
  config_fits c ∧ open_with_start_lsn c (MkSegFile [] [] []) opened start_lsn = Some (Ok w).

Inductive wal_run : WalWriter D → list WalEvent → WalWriter D → Prop :=
  | wal_run_nil w : wal_run w [] w
  | wal_run_snoc w es w1 e w2 : wal_run w es w1 → wal_step e w1 w2 → wal_run w (es ++ [e]) w2.

(** The writer implements the log. *)
Definition implements w (l : WalLog) : Prop := ∃ pre rs rsF rsR rsA,
  writer_inv w (wl_durable l) (wl_recovered l) (wl_pending l) pre rs rsF rsR rsA.

Lemma writer_at_inv c f buffer off lsn (opened : option D) acked recov pre rs rsA :
  config_fits c → aligned_buf_new (wc_write_buffer_size c) (wc_alignment c) = Some (Ok buffer) →
  off ≤ flen (sf_bytes f) → take (N.to_nat off) (sf_bytes f) = pre ++ segment_bytes rs →
  valid_pre pre → Forall record_wf rs → Forall (λ r, readable r = true) rs → rsA `prefix_of` rs →
  List.filter surfaced rsA = acked → List.filter surfaced rs = acked ++ recov →
  durable_base pre rsA `prefix_of` sf_synced f → dirty_from (flen (durable_base pre rsA)) f →
  writer_inv (writer_at c f buffer off lsn opened) acked recov [] pre rs rs rs rsA.
Proof.
  intros [Hc Hmax] Hb. apply aligned_buf_new_ok in Hb as (Hbo & Hsl & Hz & Ha & _ & Hcap & Hal).
  intros. unfold writer_at. destruct (open_dwb_for c opened).
  split; simpl; rewrite ?Hsl, ?app_nil_r; try done; [by rewrite Hcap|by right].
Qed.

Lemma inv_next_lsn w g acked recov pending pre rs rsF rsR rsA :
  writer_inv w acked recov pending pre rs rsF rsR rsA →
  writer_inv (w {{ ww_next_lsn ::= g }}) acked recov pending pre rs rsF rsR rsA.
Proof. by apply writer_inv_core. Qed.

Lemma fresh_implements w : fresh w → implements w (MkWalLog [] [] []).
Proof.
  intros (c & opened & lsn & Hc & Ho). unfold open_with_start_lsn in Ho.
  destruct (aligned_buf_new _ _) as [[b|]|] eqn:Hb; try done. injection Ho as <-.
  exists [], [], [], [], []. apply writer_at_inv; try done; [by left|constructor].
Qed.

(** Acknowledged records are where the next open looks. *)
Lemma crashed_base w acked recov pending pre rs rsF rsR rsA f :
  writer_inv w acked recov pending pre rs rsF rsR rsA → crashed (ww_file w) f →
  durable_base pre rsA `prefix_of` sf_bytes f ∧ durable_base pre rsA `prefix_of` sf_synced f ∧
  dirty_from (flen (durable_base pre rsA)) f.
Proof.
  intros [] Hcr. destruct Hcr as [|img Himg].
  - split_and!; try done. destruct rsA as [|r rsA]; [apply prefix_nil|].
    destruct (transitivity wi_durable wi_opened) as [more Hm].
    destruct wi_file as [[_ ->]|Hf]; [done|]. rewrite Hm, segment_bytes_app, app_assoc in Hf.
    exists (segment_bytes more ++ drop (N.to_nat (ww_file_offset w)) (sf_bytes (ww_file w))).
    unfold durable_base. rewrite app_assoc, <-Hf. by rewrite take_drop.
  - pose proof (crash_image_prefix _ _ _ Himg wi_base wi_dirty). split_and!; [done|done|constructor].
Qed.

Lemma restart_inv w acked recov pending pre rs rsF rsR rsA f c dwb_file opened first_lsn w' :
  writer_inv w acked recov pending pre rs rsF rsR rsA → crashed (ww_file w) f →
  file_ok (sf_bytes f) → config_fits c →
  open_resuming c f dwb_file opened first_lsn = Some (Ok w') →
  recover (Some (sf_bytes f)) dwb_file = recover (Some (sf_bytes f)) None →
  (∀ info, recover (Some (sf_bytes f)) None = Some (Ok info) →
     ww_file_offset w' = ri_end_offset info) →
  ∃ recov', implements w' (MkWalLog acked recov' []).
Proof.
  intros Hinv Hcr Hok Hc Ho Hdwb Hoff.
  destruct (crashed_base _ _ _ _ _ _ _ _ _ _ Hinv Hcr) as (Hby & Hsy & Hdi).
  unfold open_resuming, open_writer in Ho.
  destruct (aligned_buf_new _ _) as [[b|]|] eqn:Hb; [|done..].
  destruct (N.ltb_spec 0 (flen (sf_bytes f))) as [Hne|Hne].
  - rewrite Hdwb in Ho. destruct (recover (Some (sf_bytes f)) None) as [[info|]|] eqn:Hr; [|done..].
    injection Ho as <-. specialize (Hoff info eq_refl). destruct Hinv.
    assert (rsA `prefix_of` rs) as [rest Hrs] by (do 2 (etrans; [done|]); done).
    assert (Forall record_wf rsA ∧ Forall (λ r, readable r = true) rsA) as [HwA HrA]
      by (rewrite Hrs in wi_wf, wi_readable; by apply Forall_app in wi_wf as [? _], wi_readable as [? _]).
    destruct (recover_sound _ _ pre rsA Hok Hr wi_pre HwA HrA Hby)
      as (pre' & rs' & Hv & Hpre & [more Hpf] & Hwf & Hrd & Hle & Htk).
    assert (durable_base pre' rsA = durable_base pre rsA) as Hbase
      by (destruct rsA; [done|]; by rewrite Hpre).
    exists (List.filter surfaced more), pre', rs', rs', rs', rsA.
    apply inv_next_lsn. simpl wl_durable.
    unfold writer_at in Hoff. destruct (open_dwb_for c opened) eqn:Hdw. simpl in Hoff.
    apply writer_at_inv; rewrite ?Hbase, ?Hoff; try done; [by eexists|].
    by rewrite Hpf, List.filter_app, wi_acked.
  - injection Ho as <-. assert (sf_bytes f = []) as Hnil
      by (destruct (sf_bytes f); [done|unfold flen in Hne; simpl in Hne; lia]).
    rewrite Hnil in Hby. apply prefix_nil_inv in Hby.
    assert (rsA = []) as ->.
    { destruct rsA as [|r rsA]; [done|]. unfold durable_base in Hby. apply app_nil in Hby as [_ Hs].
      by apply segment_bytes_nil in Hs. }
    exists [], [], [], [], [], []. apply inv_next_lsn.
    apply writer_at_inv; simpl; try done; [lia|by left|by rewrite <-(wi_acked _ _ _ _ _ _ _ _ _ Hinv)..].
Qed.

Lemma append_refines os target payload key w w' res l :
  implements w l → target_ok target key → ww_next_lsn w < 2 ^ 64 →
  append_keyed os target payload key w = (w', res) →
  match res with
  | Ok _ => ∃ r, new_stamped (append_args target payload w) (append_stamp target key) = Ok r ∧
      implements w' (MkWalLog (wl_durable l) (wl_recovered l) (wl_pending l ++ [r]))
  | Err _ => implements w' l
  end.
Proof.
  intros (pre & rs & rsF & rsR & rsA & Hinv) Ht Hl Ha.
  destruct (append_inv _ _ _ _ _ _ _ _ _ _ _ _ _ _ _ _ Hinv Ht Hl Ha) as [_ Hres].
  destruct res as [lsn|e].
  - destruct Hres as (_ & _ & r & rs' & rsF' & Hr & Hinv'). exists r. split; [done|].
    by exists pre, rs', rsF', rsR, rsA.
  - destruct Hres as (_ & rs' & rsF' & Hinv'). by exists pre, rs', rsF', rsR, rsA.
Qed.

Lemma sync_refines env w w' res l :
  implements w l → ww_next_lsn w < 2 ^ 64 → sync env w = (w', res) →
  ∃ l', wlog_step (EvSync (is_ok res)) l l' ∧ implements w' l'.
Proof.
  intros (pre & rs & rsF & rsR & rsA & Hinv) Hl Hs.
  destruct (sync_inv _ _ _ _ _ _ _ _ _ _ _ _ Hinv Hl Hs) as (_ & anchors & Han & _ & _ & Hres).
  destruct l as [d rc p]; simpl in *. destruct res as [[]|e].
  - destruct Hres as [(rs' & Hinv')|(-> & -> & ->)].
    + exists (MkWalLog (d ++ rc ++ p ++ anchors) [] []). split; [by constructor|].
      by exists pre, rs', rs', rs', rs'.
    + exists (MkWalLog d rc []). split; [constructor|]. by exists pre, rs, rsF, rsR, rsA.
  - destruct Hres as (rs' & rsF' & Hinv'). exists (MkWalLog d rc (p ++ anchors)).
    split; [by constructor|]. by exists pre, rs', rsF', rsR, rsA.
Qed.

Lemma implements_core w w' l : core w' = core w → implements w l → implements w' l.
Proof.
  intros Hc (pre & rs & rsF & rsR & rsA & Hinv). exists pre, rs, rsF, rsR, rsA.
  by eapply writer_inv_core.
Qed.

Lemma step_refines e w w' l :
  implements w l → wal_step e w w' → ∃ l', wlog_step e l l' ∧ implements w' l'.
Proof.
  intros Hi Hs.
  destruct Hs as [os target payload key w w' lsn r Ht Hl Ha Hr|os target payload key w w' err Ht Hl Ha
    |env w w' res Hl Hs|env w w' res Hl Hs|ring w w' res He Hs|opened w
    |f c dwb_file opened first_lsn w w' Hcr Hok Hc Ho Hd Hoff].
  - apply (append_refines _ _ _ _ _ _ _ _ Hi Ht Hl) in Ha as (r' & Hr' & Hi').
    rewrite Hr in Hr'. injection Hr' as <-. destruct l as [d rc p]. eexists. split; [constructor|done].
  - apply (append_refines _ _ _ _ _ _ _ _ Hi Ht Hl) in Ha. exists l. split; [constructor|done].
  - by eapply sync_refines.
  - unfold seal in Hs. destruct (sync env w) as [w1 r1] eqn:Hsy.
    destruct (sync_refines _ _ _ _ _ Hi Hl Hsy) as (l' & Hstep & Hi'). exists l'.
    destruct r1 as [[]|e]; injection Hs as <- <-; (split; [done|]); by apply (implements_core w1).
  - exists l. split; [constructor|]. destruct Hi as (pre & rs & rsF & rsR & rsA & Hinv).
    destruct (encryption_inv _ _ _ _ _ _ _ _ _ _ _ _ Hinv He Hs) as [pre' Hinv'].
    by exists pre', rs, rsF, rsR, rsA.
  - exists l. split; [constructor|]. apply (implements_core w); [|done].
    unfold reattach_double_write, degrade_dwb. by repeat case_match.
  - destruct Hi as (pre & rs & rsF & rsR & rsA & Hinv). destruct l as [d rc p].
    destruct (restart_inv _ _ _ _ _ _ _ _ _ _ _ _ _ _ _ Hinv Hcr Hok Hc Ho Hd Hoff) as [rc' Hi'].
    exists (MkWalLog d rc' []). split; [constructor|done].
Qed.

Lemma run_refines w0 es w :
  fresh w0 → wal_run w0 es w → ∃ l, wlog_run (MkWalLog [] [] []) es l ∧ implements w l.
Proof.
  intros Hf. induction 1 as [w|w es w1 e w2 Hr IH Hs].
  - exists (MkWalLog [] [] []). split; [constructor|by apply fresh_implements].
  - destruct (IH Hf) as (l & Hl & Hi). destruct (step_refines _ _ _ _ Hi Hs) as (l' & Hs' & Hi').
    exists l'. split; [by econstructor|done].
Qed.

(** Replay of what a crash leaves yields the durable log first. *)
Lemma durable_replayed w l f dwb :
  implements w l → crashed (ww_file w) f → flen (sf_bytes f) < 2 ^ 64 → wl_durable l ≠ [] →
  ∃ rd more rd' e, open_raw (sf_bytes f) dwb = Ok rd ∧
    records rd = Some (wl_durable l ++ more, rd', e).
Proof.
  intros (pre & rs & rsF & rsR & rsA & Hinv) Hcr Hlt Hne.
  destruct (crashed_base _ _ _ _ _ _ _ _ _ _ Hinv Hcr) as (Hby & _). destruct Hinv.
  assert (rsA `prefix_of` rs) as [rest Hrs] by (do 2 (etrans; [done|]); done).
  assert (Forall record_wf rsA ∧ Forall (λ r, readable r = true) rsA) as [HwA HrA]
    by (rewrite Hrs in wi_wf, wi_readable; by apply Forall_app in wi_wf as [? _], wi_readable as [? _]).
  destruct rsA as [|r rsA]; [by rewrite <-wi_acked in Hne|].
  destruct (image_opens (sf_bytes f) dwb pre r rsA Hlt wi_pre HwA Hby) as [rd Ho].
  destruct (open_reads _ _ _ _ _ Ho Hlt wi_pre HwA HrA Hby) as (pre1 & tail1 & _ & _ & _ & _ & Hr).
  destruct (records_reads _ _ _ Hr) as (more & rd' & e & _ & Hrec). rewrite wi_acked in Hrec.
  by exists rd, more, rd', e.
Qed.


End system.

(** ** Failed fsyncs *)

(** The error that only a failed fsync raises. *)
Definition not_lost {A : Type} (r : result WalError A) : Prop := r ≠ Err DurabilityLost.

Section poison.
Context `{Crc32c, Aes256Gcm} {D : Type} `{DoubleWriteBuffer D}.
Implicit Types (w : WalWriter D).

Lemma pwrite_not_lost os (off : N) (data : bytes) (f : SegFile) : not_lost (pwrite_loop os off data f).2.
Proof.
  revert off data f. induction os as [|o os IH]; intros off data f; destruct data as [|x data]; try done.
  destruct o as [k|[]]; simpl; try done. by destruct (_ =? 0).
Qed.

Lemma new_stamped_not_lost args stamp : not_lost (new_stamped args stamp).
Proof. unfold new_stamped, encrypt_aad. by repeat case_match; simplify_eq. Qed.

Lemma pad_not_lost a b : not_lost (pad_buffer_to_alignment a b).2.
Proof.
  unfold pad_buffer_to_alignment. destruct (padding_span _ _) as [span|]; [|done].
  destruct (_ <? span); [done|]. assert (not_lost (padding_record span)) as Hn.
  { unfold padding_record. destruct (_ <? _); [done|]. apply new_stamped_not_lost. }
  destruct (padding_record span); simpl in *; congruence.
Qed.

Lemma flush_not_lost os w : not_lost (flush_buffer os w).2.
Proof.
  unfold flush_buffer. destruct (ab_is_empty _); [done|].
  destruct (wc_use_direct_io _).
  - pose proof (pad_not_lost (wc_alignment (ww_config w)) (ww_buffer w)) as Hp.
    destruct (pad_buffer_to_alignment _ _) as [b [[]|e]]; [|simpl in *; congruence]. simpl.
    pose proof (pwrite_not_lost os (ww_file_offset w) (as_aligned_slice b) (ww_file w)) as Hw.
    destruct (pwrite_loop _ _ _ _) as [f [[]|e]]; simpl in *; congruence.
  - pose proof (pwrite_not_lost os (ww_file_offset w) (as_slice (ww_buffer w)) (ww_file w)) as Hw.
    destruct (pwrite_loop _ _ _ _) as [f [[]|e]]; simpl in *; congruence.
Qed.

Lemma append_not_lost os target payload key extra w :
  durability_check (ww_durability w) = Ok tt →
  not_lost (append_reserving os target payload key extra w).2.
Proof.
  intros Hc. unfold append_reserving. rewrite Hc. destruct (ww_sealed w); [done|].
  pose proof (new_stamped_not_lost (append_args target payload w) (append_stamp target key)) as Hn.
  destruct (new_stamped _ _) as [r|e]; [|simpl; congruence]. destruct (_ <? _); [done|].
  destruct (_ <? _); [|done]. pose proof (flush_not_lost os w) as Hf.
  destruct (flush_buffer os w) as [w1 [[]|e]]; simpl in *; congruence.
Qed.

(** A sync that reports lost durability leaves the writer poisoned. *)
Lemma sync_lost env w w' : sync env w = (w', Err DurabilityLost) → ww_durability w' = Poisoned.
Proof.
  unfold sync. destruct (durability_check (ww_durability w)) as [[]|e] eqn:Hc.
  2:{ intros [= <- ->]. by destruct (ww_durability w). }
  destruct (should_skip_sync _ _); [done|]. unfold append_time_anchor.
  set (anchored := if negb (ww_unanchored w) then _ else _).
  assert (not_lost anchored.2) as Ha.
  { unfold anchored. destruct (negb _); [done|]. destruct (negb _); [done|].
    set (app := append_reserving _ _ _ _ _ _). assert (not_lost app.2) as Hn by by apply append_not_lost.
    destruct app as [w1 [lsn|e]]; simpl in *; congruence. }
  destruct anchored as [w1 [[]|e]]; [|simpl in *; congruence].
  pose proof (flush_not_lost (se_writes env) (flush_dwb w1)) as Hf.
  destruct (flush_buffer _ _) as [w2 [[]|e]]; [|simpl in *; congruence].
  unfold fsync_and_track. destruct (se_fsync env); [done|]. by intros [= <-].
Qed.

Definition refused (e : WalEvent) : Prop := match e with EvAppend (Some _) | EvSync true => False | _ => True end.

Lemma poisoned_step e w w' :
  wal_step e w w' → e ≠ EvRestart → ww_durability w = Poisoned →
  ww_durability w' = Poisoned ∧ refused e.
Proof.
  intros Hs Hne Hp.
  destruct Hs as [os target payload key w w' lsn r _ _ Ha _|os target payload key w w' err _ _ Ha
    |env w w' res _ Hs|env w w' res _ Hs|ring w w' res _ Hs|opened w|]; [..|done].
  - revert Ha. unfold append_keyed, append_reserving. rewrite Hp. by destruct (ww_sealed w).
  - revert Ha. unfold append_keyed, append_reserving. rewrite Hp.
    by destruct (ww_sealed w); intros [= <- <-].
  - revert Hs. unfold sync. rewrite Hp. by intros [= <- <-].
  - revert Hs. unfold seal, sync. rewrite Hp. by intros [= <- <-].
  - revert Hs. unfold set_encryption_ring. by destruct (_ || _); intros [= <- <-].
  - split; [|done]. unfold reattach_double_write, degrade_dwb. by repeat case_match.
Qed.

(** Once an fsync has failed, the writer acknowledges nothing more: until
    it is reopened it refuses every append and every sync, so no record is
    ever acknowledged on the strength of an fsync retried after a failure. *)
Theorem failed_fsync_is_final env w w1 es w2 :
  sync env w = (w1, Err DurabilityLost) → wal_run w1 es w2 → EvRestart ∉ es →
  ww_durability w2 = Poisoned ∧ Forall refused es.
Proof.
  intros Hs Hr. apply sync_lost in Hs.
  induction Hr as [w1|w1 es wm e w2 Hr IH Hstep]; intros Hno; [by split|].
  destruct (IH Hs ltac:(set_solver)) as [Hp Hall].
  destruct (poisoned_step _ _ _ Hstep ltac:(set_solver) Hp) as [Hp' He].
  split; [done|]. apply Forall_app. by split; [|constructor].
Qed.
End poison.
