(* ===== verification/WalRepair.v ===== *)
(** * Repair of torn records

    The double-write buffer keeps the newest copies of the records mirrored
    into it, and replay of a segment delivers a record whose payload was torn
    from its copy, in its place in the log. *)

From Stdlib Require Import Lia.
From stdpp Require Import base option list.
From S2P Require Import Prelude WalRecord WalRecordFacts WalReader WalReaderFacts WalRecovery.
From S2P Require Import WalWriter WalWriterFacts WalDwb WalDwbFacts WalCrash.

Open Scope N_scope.

Section mirror.
Context `{Crc32c, !Crc32cLaws}.

(** [d] after mirroring [hist] into [d0]: records staged, slots written,
    flushes and clean reopens, each successful. *)
Inductive mirrors (d0 : Dwb) : list WalRecord → Dwb → Prop :=
  | mirrors_none : mirrors d0 [] d0
  | mirrors_record hist d r d' :
      mirrors d0 hist d → record_wf r → dwb_write_deferred r d = (d', Ok Mirrored) →
      mirrors d0 (hist ++ [r]) d'
  | mirrors_skip hist d r size max d' :
      mirrors d0 hist d → dwb_write_deferred r d = (d', Ok (SkippedTooLarge size max)) →
      mirrors d0 hist d'
  | mirrors_staged hist d n d' :
      mirrors d0 hist d → dwb_write_staged d = (d', Ok n) → mirrors d0 hist d'
  | mirrors_flush hist d d' :
      mirrors d0 hist d → dwb_flush_all d = (d', Ok tt) → mirrors d0 hist d'
  | mirrors_reopen hist d mode io d' :
      mirrors d0 hist d → db_dirty d = false → dwb_open (db_file d) mode io = Ok d' →
      mirrors d0 hist d'.

Lemma mirrors_inv mode io d0 hist d :
  dwb_open (MkSegFile [] [] []) mode io = Ok d0 → mirrors d0 hist d →
  N.of_nat (length hist) < 2 ^ 64 - 1 → ∃ n, dwb_inv d hist n.
Proof.
  intros Ho Hm. induction Hm as [|hist d r d' Hm IH Hwf Hw|hist d r size max d' Hm IH Hw
    |hist d n d' Hm IH Hw|hist d d' Hm IH Hw|hist d mode' io' d' Hm IH Hd Hw]; intros Hn.
  - exists 0%nat. apply (open_inv _ [] _ _ _ Ho); try done; [|by left].
    split; [done|]. intros i _. unfold slot_blank, slice. simpl. rewrite drop_nil, take_nil. constructor.
  - rewrite length_app in Hn. simpl in Hn. destruct (IH ltac:(lia)) as [n Hinv]. exists n.
    eapply write_deferred_inv; [done|done|lia|done].
  - revert Hw. unfold dwb_write_deferred. destruct (_ <? _); [|by repeat case_match].
    intros [= <- _ _]. by apply IH.
  - destruct (IH Hn) as [k Hinv]. eexists. by eapply write_staged_inv.
  - destruct (IH Hn) as [k Hinv]. eexists. by eapply flush_all_inv.
  - destruct (IH Hn) as [k Hinv]. exists (length hist). pose proof Hinv as [].
    destruct (di_dirty Hd) as (-> & Hsy & Hh). apply (open_inv _ _ _ _ _ Hw); try done.
    destruct (decide (hist = [])) as [->|Hne]; [left; split; [done|by apply di_empty]|].
    right. by destruct Hh.
Qed.

Lemma flushed_holds mode io d0 hist d d' lsn :
  dwb_open (MkSegFile [] [] []) mode io = Ok d0 → mirrors d0 hist d →
  N.of_nat (length hist) < 2 ^ 64 - 1 → dwb_flush_all d = (d', Ok tt) →
  recover_record lsn (sf_synced (db_file d')) =
  newest lsn (drop (length hist - DWB_CAPACITY) hist).
Proof.
  intros Ho Hm Hn Hf. destruct (mirrors_inv _ _ _ _ _ Ho Hm Hn) as [n Hinv].
  destruct (flush_all_inv _ _ _ _ Hinv Hf) as [[] Hd]. destruct (di_dirty Hd) as (_ & -> & _).
  by apply recover_record_newest.
Qed.

(** After any sequence of mirrored records, slot writes, flushes and clean
    reopens, in either I/O mode and across the wraparound of its ring, a
    successful flush leaves on disk the last 64 records mirrored: a search by
    LSN finds the newest of them with that LSN, and nothing else. *)
Theorem dwb_recovers_newest mode io d0 hist d d' lsn :
  dwb_open (MkSegFile [] [] []) mode io = Ok d0 → mirrors d0 hist d →
  N.of_nat (length hist) < 2 ^ 64 - 1 → dwb_flush_all d = (d', Ok tt) →
  recover_record lsn (sf_synced (db_file d')) =
  newest lsn (drop (length hist - DWB_CAPACITY) hist).
Proof. apply flushed_holds. Qed.
End mirror.

Section repair.
Context `{Crc32c, !Crc32cLaws, Aes256Gcm}.

(** A record whose payload was torn and whose copy is found. *)
Lemma read_step_torn rd base r torn rest copy dwb e :
  rd_file rd = base ++ header_to_bytes (wr_header r) ++ torn ++ rest →
  flen (rd_file rd) < 2 ^ 64 → rd_double_write rd = Some dwb → rd_decryptor rd = None →
  record_wf r → length torn = length (wr_payload r) → torn ≠ [] →
  verify_checksum (MkWalRecord (wr_header r) torn) = Err e →
  recover_record (rh_lsn (wr_header r)) dwb = Some copy →
  length (wr_payload copy) = length (wr_payload r) →
  read_step (rd_at rd (flen base)) =
  (rd_at rd (flen (base ++ header_to_bytes (wr_header r) ++ torn)), Return (Ok (Some copy))).
Proof.
  intros Hf Hlt Hd Hk Hwf Hlen Hne Hbad Hcopy Hclen. unfold read_step.
  simpl rd_file. simpl rd_offset. rewrite Hf in *.
  assert (flen (header_to_bytes (wr_header r)) = N.of_nat HEADER_SIZE) as Hh
    by (unfold flen; by rewrite length_header_to_bytes).
  pose proof (read_exact_here base (header_to_bytes (wr_header r)) (torn ++ rest) Hlt) as Hr1.
  rewrite Hh in Hr1. rewrite Hr1. simpl rd_offset. rewrite N.add_sub, header_from_to by apply Hwf.
  rewrite wf_validate, (wf_len _ Hwf), <-Hlen by done.
  rewrite (proj2 (N.eqb_neq _ _)) by (destruct torn; [done|simpl; lia]). simpl rd_file. rewrite ?Hf.
  rewrite app_assoc in Hlt |- *. pose proof (read_exact_here _ _ _ Hlt) as Hr2.
  rewrite flen_app, Hh in Hr2. change (flen torn) with (N.of_nat (length torn)) in Hr2.
  rewrite Hr2. unfold judge_record, repair_torn_record, checked_offset_add. cbn [wr_header].
  rewrite Hbad. simpl rd_double_write. rewrite Hd, Hcopy. simpl.
  revert Hlt. rewrite !flen_app, Hh. intros Hlt.
  rewrite Hclen, <-Hlen. unfold flen in Hlt at 2. change (N.of_nat HEADER_SIZE) with 63 in *.
  rewrite (proj2 (N.ltb_lt _ _)) by lia. rewrite (proj2 (N.ltb_lt _ _)) by lia.
  unfold deliver. simpl. rewrite Hk. unfold rd_at. simpl. unfold flen at 3 4.
  by rewrite !N.add_assoc.
Qed.

Lemma torn_starts_plain rs r torn tail :
  Forall record_wf (rs ++ [r]) →
  starts_plain (segment_bytes rs ++ header_to_bytes (wr_header r) ++ torn ++ tail).
Proof.
  intros Hwf. right. destruct rs as [|r0 rs].
  - inversion_clear Hwf. simpl. pose proof (length_header_to_bytes (wr_header r)) as Hl.
    rewrite take_app_le by (unfold HEADER_SIZE in Hl; lia).
    rewrite <-(take_magic r [] ltac:(done)). unfold record_to_bytes. rewrite <-app_assoc.
    by rewrite take_app_le by (unfold HEADER_SIZE in Hl; lia).
  - inversion_clear Hwf. change (segment_bytes (r0 :: rs)) with (record_to_bytes r0 ++ segment_bytes rs).
    rewrite <-app_assoc. by apply take_magic.
Qed.

End repair.
