(* ===== verification/WalExamples.v ===== *)
(** * The WAL on concrete inputs

    CRC-32C as the [crc32c] crate computes it and a cipher with the interface
    of AES-GCM, and with them concrete runs of the writer, the reader and the
    double-write buffer, at which the theorems are applied; and two runs in which
    recovery refuses a segment. *)

From Stdlib Require Import Lia.
From stdpp Require Import base option list.
From S2P Require Import Prelude WalRecord WalRecordFacts WalReader WalReaderFacts WalRecovery.
From S2P Require Import WalWriter WalWriterFacts WalDwb WalDwbFacts WalCrash WalRepair.

Open Scope N_scope.

(** ** CRC-32C *)

Definition crc_bit (c : N) : N :=
  if N.testbit c 0 then N.lxor (N.shiftr c 1) 2197175160 else N.shiftr c 1.

Definition crc_byte (c b : N) : N := Nat.iter 8 crc_bit (N.lxor c b).

Definition crc_append (crc : u32) (bs : bytes) : u32 :=
  N.lxor (foldl crc_byte (N.lxor crc u32_max) bs) u32_max mod 2 ^ 32.

#[export] Instance example_crc : Crc32c := {| crc32c := crc_append 0; crc32c_append := crc_append |}.

#[export] Instance example_crc_laws : Crc32cLaws.
Proof. split; intros; by apply N.mod_lt. Qed.

(** The check value of the polynomial, on the digits 1 to 9. *)
Example crc_check : crc32c [49; 50; 51; 52; 53; 54; 55; 56; 57] = 3808858755.
Proof. vm_compute. reflexivity. Qed.

(** ** A cipher *)

Definition key_sum (key nonce aad : bytes) : N := foldl N.add 0 (key ++ nonce ++ aad) mod 256.

Definition example_tag (k : N) : bytes := replicate 16 k.

Definition example_encrypt (key nonce aad msg : bytes) : option bytes :=
  Some ((N.lxor (key_sum key nonce aad) <$> msg) ++ example_tag (key_sum key nonce aad)).

Definition example_decrypt (key nonce aad c : bytes) : option bytes :=
  let k := key_sum key nonce aad in
  if bool_decide (drop (length c - 16) c = example_tag k)
  then Some (N.lxor k <$> take (length c - 16) c) else None.

#[export] Instance example_gcm : Aes256Gcm :=
  {| gcm_encrypt := example_encrypt; gcm_decrypt := example_decrypt |}.

#[export] Instance example_gcm_laws : Aes256GcmLaws.
Proof.
  split; cbn [gcm_encrypt gcm_decrypt example_gcm]; unfold example_encrypt; intros key nonce aad msg c [= <-].
  - unfold example_decrypt. set (k := key_sum key nonce aad).
    rewrite length_app. change (length (example_tag k)) with 16%nat. rewrite Nat.add_sub.
    rewrite drop_app_length' by done. rewrite bool_decide_true by done.
    rewrite take_app_length' by done. f_equal. rewrite <-list_fmap_compose.
    rewrite <-(list_fmap_id msg) at 2. apply list_fmap_ext. intros i x _. simpl.
    by rewrite <-N.lxor_assoc, N.lxor_nilpotent, N.lxor_0_l.
  - rewrite length_app, length_fmap. unfold AUTH_TAG_SIZE. simpl. lia.
Qed.

(** ** A run of the writer *)

Definition ex_config : WalWriterConfig := MkWalWriterConfig 512 64 false (Some DwbOff) false.

Definition ex_direct_config : WalWriterConfig := MkWalWriterConfig 512 64 true (Some DwbOff) false.

Lemma ex_config_fits : config_fits ex_config ∧ config_fits ex_direct_config.
Proof. split; (split; [by exists 6|vm_compute; discriminate]). Qed.

Definition ex_target : RecordTarget := MkRecordTarget (record_type_raw Put) 1 2 3 0 0.

Lemma ex_target_ok : target_ok ex_target 0.
Proof. split; try done. by exists Put. Qed.

Definition ex_new (c : WalWriterConfig) (f : SegFile) : WalWriter Dwb :=
  match open_resuming c f None None 1 with
  | Some (Ok w) => w
  | _ => writer_at c f (MkAlignedBuf [] 0 0 64) 0 0 None
  end.

Definition ex_append (payload : bytes) (w : WalWriter Dwb) : WalWriter Dwb :=
  (append_keyed [] ex_target payload 0 w).1.

Definition ex_env : SyncEnv := MkSyncEnv 7 [] [] true.

Definition ex_sync (w : WalWriter Dwb) : WalWriter Dwb := (sync ex_env w).1.

Definition ex_record (lsn : u64) (payload : bytes) : WalRecord :=
  match new_stamped (MkWalRecordArgs (record_type_raw Put) lsn 1 2 3 payload None None)
    (MkRecordStamp 0 0 0) with
  | Ok r => r
  | Err _ => MkWalRecord (header_from_bytes []) []
  end.

Definition ex_r1 : WalRecord := Eval vm_compute in ex_record 1 [1; 2; 3].
Definition ex_r2 : WalRecord := Eval vm_compute in ex_record 2 [4; 5].
Definition ex_r3 : WalRecord := Eval vm_compute in ex_record 2 [6].

Definition ex_w0 : WalWriter Dwb := Eval vm_compute in ex_new ex_config (MkSegFile [] [] []).
Definition ex_w1 : WalWriter Dwb := Eval vm_compute in ex_append [1; 2; 3] ex_w0.
Definition ex_w2 : WalWriter Dwb := Eval vm_compute in ex_sync ex_w1.
Definition ex_w3 : WalWriter Dwb := Eval vm_compute in ex_append [4; 5] ex_w2.
(** A power loss drops the second record. *)
Definition ex_image : bytes := Eval vm_compute in sf_synced (ww_file ex_w3).
Definition ex_w4 : WalWriter Dwb :=
  Eval vm_compute in ex_new ex_config (MkSegFile ex_image ex_image []).
Definition ex_w5 : WalWriter Dwb := Eval vm_compute in ex_append [6] ex_w4.
Definition ex_w6 : WalWriter Dwb := Eval vm_compute in ex_sync ex_w5.

Definition ex_events : list WalEvent :=
  [EvAppend (Some ex_r1); EvSync true; EvAppend (Some ex_r2); EvRestart; EvAppend (Some ex_r3);
   EvSync true].

Lemma ex_fresh : fresh ex_w0.
Proof. exists ex_config, None, 1. split; [apply ex_config_fits|]. by vm_compute. Qed.

(** Everything since the last fsync is lost. *)
Lemma crash_image_synced f : crash_image f (sf_synced f).
Proof. by split. Qed.

Lemma ex_run : wal_run ex_w0 ex_events ex_w6.
Proof.
  refine (wal_run_snoc _ [_; _; _; _; _] ex_w5 _ _ (wal_run_snoc _ [_; _; _; _] ex_w4 _ _
    (wal_run_snoc _ [_; _; _] ex_w3 _ _ (wal_run_snoc _ [_; _] ex_w2 _ _ (wal_run_snoc _ [_] ex_w1 _ _
    (wal_run_snoc _ [] ex_w0 _ _ (wal_run_nil _) _) _) _) _) _) _).
  - eapply (step_append [] ex_target [1; 2; 3] 0); [apply ex_target_ok|by vm_compute..].
  - eapply (step_sync ex_env _ _ (Ok tt)); by vm_compute.
  - eapply (step_append [] ex_target [4; 5] 0); [apply ex_target_ok|by vm_compute..].
  - eapply (step_restart (MkSegFile ex_image ex_image []) ex_config None None 1).
    + apply power_loss, (crash_image_synced (ww_file ex_w3)).
    + split; [|done]. apply (bool_decide_unpack _). by vm_compute.
    + apply ex_config_fits.
    + by vm_compute.
    + done.
    + intros info Hi. vm_compute in Hi. injection Hi as <-. by vm_compute.
  - eapply (step_append [] ex_target [6] 0); [apply ex_target_ok|by vm_compute..].
  - eapply (step_sync ex_env _ _ (Ok tt)); by vm_compute.
Qed.



(** An fsync that fails, and an append and a sync after it. *)
Definition ex_bad_env : SyncEnv := MkSyncEnv 7 [] [] false.
Definition ex_p1 : WalWriter Dwb := Eval vm_compute in (sync ex_bad_env ex_w1).1.

Lemma ex_poisoned_run : wal_run ex_p1 [EvAppend None; EvSync false] ex_p1.
Proof.
  refine (wal_run_snoc _ [_] ex_p1 _ _ (wal_run_snoc _ [] ex_p1 _ _ (wal_run_nil _) _) _).
  - eapply (step_reject [] ex_target [9] 0); [apply ex_target_ok|by vm_compute..].
  - eapply (step_sync ex_env _ _ (Err DurabilityLost)); by vm_compute.
Qed.

Lemma failed_fsync_is_final_witness :
  sync ex_bad_env ex_w1 = (ex_p1, Err DurabilityLost) ∧
  ww_durability ex_p1 = Poisoned ∧ Forall refused [EvAppend None; EvSync false].
Proof.
  split; [by vm_compute|].
  apply (failed_fsync_is_final ex_bad_env ex_w1 ex_p1 _ ex_p1); [by vm_compute|apply ex_poisoned_run|].
  rewrite !not_elem_of_cons. split_and!; try done. apply not_elem_of_nil.
Defined.

(** ** Recovery of an image *)

(** A segment with two whole records and the head of a third. *)
Definition ex_torn : bytes :=
  Eval vm_compute in segment_bytes [ex_r1; ex_r2] ++ take 40 (record_to_bytes (ex_record 3 [7])).

Lemma ex_wf : Forall record_wf [ex_r1; ex_r2; ex_r3].
Proof. repeat constructor; by vm_compute. Qed.

Lemma ex_readable : Forall (λ r, readable r = true) [ex_r1; ex_r2; ex_r3].
Proof. repeat constructor; by vm_compute. Qed.

Lemma ex_torn_ok : Forall (λ b, b < 256) ex_torn ∧ flen ex_torn < 2 ^ 64.
Proof. split; [|done]. apply (bool_decide_unpack _). by vm_compute. Qed.

Lemma torn_tail_verdict_witness :
  classify ex_torn 0 0 = Some (HoleAt 66 2) ∧
  (classify ex_torn 0 0 = Some TornTail ↔ quiet ex_torn 0 (0 + 1) None) ∧
  (∀ p l, classify ex_torn 0 0 = Some (HoleAt p l) ↔
     0 < p ∧ 0 < l ∧ (∃ r, intact_at ex_torn p r ∧ rh_lsn (wr_header r) = l) ∧
     quiet ex_torn 0 (0 + 1) (Some p)).
Proof.
  split; [by vm_compute|]. apply (torn_tail_verdict ex_torn 0 0); [apply ex_torn_ok|apply ex_torn_ok|done].
Defined.

Lemma recovery_terminates_witness :
  flen ex_torn < 2 ^ 64 ∧ is_Some (recover (Some ex_torn) None) ∧
  (∀ rd, reader_open ex_torn None None = Ok rd → is_Some (next_record rd) ∧ is_Some (records rd)).
Proof. split; [done|]. apply (recovery_terminates ex_torn None None). done. Defined.

Lemma recover_truncated_witness :
  let kept := List.filter surfaced [ex_r1] in
  let file := (seg_prefix None ++ segment_bytes [ex_r1]) ++ take 40 (record_to_bytes ex_r2) in
  (∃ rd rd', open_raw file None = Ok rd ∧ records rd = Some (kept, rd', Ok tt)) ∧
  (quiet file (last_lsn_of 0 kept) (66 + 1) None ∧
   recover (Some file) None = Some (Ok (MkRecoveryInfo (last_lsn_of 0 kept) 1 66)) ∨
   ∃ p l r', recover (Some file) None = Some (Err (MidFileCorruption 66 p l)) ∧
     66 < p ∧ last_lsn_of 0 kept < l ∧ intact_at file p r' ∧ rh_lsn (wr_header r') = l).
Proof.
  apply (recover_truncated None [ex_r1] ex_r2 40).
  - intros e He. discriminate He.
  - pose proof ex_wf as Hw. inversion_clear Hw as [|? ? H1 Hw']. inversion_clear Hw' as [|? ? H2 _].
    by repeat constructor.
  - pose proof ex_readable as Hr. inversion_clear Hr. by repeat constructor.
  - vm_compute. lia.
  - by vm_compute.
  - apply (bool_decide_unpack _). by vm_compute.
Defined.

(** ** Encryption *)

Definition ex_key : WalEncryptionKey := MkWalEncryptionKey [11; 22; 33] [1; 2; 3; 4].
Definition ex_old_key : WalEncryptionKey := MkWalEncryptionKey [99] [9; 9; 9; 9].
Definition ex_ring : KeyRing := MkKeyRing ex_old_key (Some ex_key).

Definition ex_sealed_args : WalRecordArgs :=
  MkWalRecordArgs (record_type_raw Put) 5 1 2 3 [10; 20] (Some ex_key)
    (Some (preamble_to_bytes (preamble_new_wal [1; 2; 3; 4]))).

Definition ex_sealed : WalRecord :=
  Eval vm_compute in
    match new_stamped ex_sealed_args STAMP_NONE with Ok r => r | Err _ => ex_r1 end.

Lemma encryption_transparent_witness :
  is_encrypted ex_sealed = true ∧
  ∃ plain, decrypt_record (Some (preamble_new_wal [1; 2; 3; 4])) (Some ex_ring) ex_sealed = Ok plain ∧
    new_stamped (ex_sealed_args {{ ra_encryption_key := None }}) STAMP_NONE = Ok plain.
Proof.
  apply (encryption_transparent ex_sealed_args STAMP_NONE Put ex_key (preamble_new_wal [1; 2; 3; 4]) ex_ring
    ex_sealed); try (by vm_compute).
  right. split; [by vm_compute|]. by exists ex_key.
Defined.

(** ** The double-write buffer *)

Definition ex_io : DwbIo := MkDwbIo [[Wrote 5; Wrote 0]] [].

Definition ex_d0 : Dwb :=
  Eval vm_compute in
    match dwb_open (MkSegFile [] [] []) DwbBuffered ex_io with
    | Ok d => d
    | Err _ => MkDwb (MkSegFile [] [] []) DwbOff 0 0 None false None 0 None ex_io
    end.

Definition ex_d1 : Dwb := (dwb_write_deferred ex_r1 ex_d0).1.
Definition ex_d2 : Dwb := (dwb_write_deferred ex_r2 ex_d1).1.
Definition ex_d3 : Dwb := (dwb_flush_all ex_d2).1.

Lemma ex_d1_step : dwb_write_deferred ex_r1 ex_d0 = (ex_d1, Ok Mirrored).
Proof.
  unfold ex_d1. assert ((dwb_write_deferred ex_r1 ex_d0).2 = Ok Mirrored) as H by by vm_compute.
  by destruct (dwb_write_deferred ex_r1 ex_d0); simpl in *; subst.
Qed.

Lemma ex_d2_step : dwb_write_deferred ex_r2 ex_d1 = (ex_d2, Ok Mirrored).
Proof.
  unfold ex_d2. assert ((dwb_write_deferred ex_r2 ex_d1).2 = Ok Mirrored) as H by by vm_compute.
  by destruct (dwb_write_deferred ex_r2 ex_d1); simpl in *; subst.
Qed.

Lemma ex_d3_step : dwb_flush_all ex_d2 = (ex_d3, Ok tt).
Proof.
  unfold ex_d3. assert ((dwb_flush_all ex_d2).2 = Ok tt) as H by by vm_compute.
  by destruct (dwb_flush_all ex_d2); simpl in *; subst.
Qed.

Lemma ex_mirrors : mirrors ex_d0 [ex_r1; ex_r2] ex_d2.
Proof.
  pose proof ex_wf as Hw. inversion_clear Hw as [|? ? H1 Hw']. inversion_clear Hw' as [|? ? H2 _].
  refine (mirrors_record _ [ex_r1] ex_d1 ex_r2 _ (mirrors_record _ [] ex_d0 ex_r1 _ (mirrors_none _) H1 _) H2 _).
  - apply ex_d1_step.
  - apply ex_d2_step.
Qed.

Lemma dwb_recovers_newest_witness :
  recover_record 2 (sf_synced (db_file ex_d3)) = newest 2 (drop (2 - DWB_CAPACITY) [ex_r1; ex_r2]) ∧
  newest 2 (drop (2 - DWB_CAPACITY) [ex_r1; ex_r2]) = Some ex_r2.
Proof.
  split; [|by vm_compute].
  apply (dwb_recovers_newest DwbBuffered ex_io ex_d0 [ex_r1; ex_r2] ex_d2 ex_d3 2);
    [by vm_compute|apply ex_mirrors|done|apply ex_d3_step].
Defined.


(** ** Two ways a crash blocks recovery

    Runs in which a power loss, after which nothing acknowledged is missing,
    leaves a segment that recovery refuses: a batch whose later record reached
    the disk before its earlier one, and a reopen under direct I/O that resumes
    inside a recovered record. *)

(** A writer that flushed two records and lost power before the fsync: the
    first record's bytes did not reach the disk, the second's did. *)
Definition hole_w2 : WalWriter Dwb := Eval vm_compute in ex_append [4; 5] (ex_append [1; 2; 3] ex_w0).
Definition hole_w3 : WalWriter Dwb := Eval vm_compute in (flush_buffer [] hole_w2).1.
Definition hole_image : bytes :=
  Eval vm_compute in replicate 66 0 ++ drop 66 (sf_bytes (ww_file hole_w3)).

(** Recovery refuses a segment after a power loss that tore a batch no
    client was told about: nothing was ever synced, yet an intact second
    record behind the torn first one makes it report committed records hidden
    by corruption. *)
Theorem torn_batch_refused :
  ∃ img lsn1 lsn2 (w1 w2 w3 : WalWriter Dwb),
    append_keyed [] ex_target [1; 2; 3] 0 ex_w0 = (w1, Ok lsn1) ∧
    append_keyed [] ex_target [4; 5] 0 w1 = (w2, Ok lsn2) ∧
    flush_buffer [] w2 = (w3, Ok tt) ∧
    sf_synced (ww_file w3) = [] ∧ crash_image (ww_file w3) img ∧
    recover (Some img) None = Some (Err (MidFileCorruption 0 66 lsn2)).
Proof.
  exists hole_image, 1, 2, ex_w1, hole_w2, hole_w3.
  split; [by vm_compute|]. split; [by vm_compute|]. split; [by vm_compute|]. split; [by vm_compute|].
  split; [|by vm_compute]. split; [vm_compute; lia|]. intros i b Hi. by vm_compute in Hi.
Qed.

(** Direct I/O with blocks of 64 bytes: a batch of two records and padding, of
    which the first two blocks reached the disk before the power loss. *)
Definition torn_w2 : WalWriter Dwb :=
  Eval vm_compute in
    ex_append [11; 12; 13; 14; 15; 16; 17; 18; 19; 20]
      (ex_append [1; 2; 3; 4; 5; 6; 7; 8; 9; 10] (ex_new ex_direct_config (MkSegFile [] [] []))).
Definition torn_w3 : WalWriter Dwb := Eval vm_compute in (flush_buffer [] torn_w2).1.
Definition torn_image : bytes := Eval vm_compute in take 128 (sf_bytes (ww_file torn_w3)).
Definition torn_w4 : WalWriter Dwb :=
  Eval vm_compute in ex_new ex_direct_config (MkSegFile torn_image torn_image []).
Definition torn_w5 : WalWriter Dwb := Eval vm_compute in ex_append [99] torn_w4.
Definition torn_w6 : WalWriter Dwb := Eval vm_compute in ex_sync torn_w5.

