(* ===== verification/WalSegments.v ===== *)
(** * The segmented WAL

    A directory of segment files ([nodedb-wal/src/segment]: names, discovery,
    truncation, the boundaries between segments, the retained floor, the file a
    failed roll leaves), replay across the segments of a directory, and the
    log that appends to the last segment and rolls to a new one
    ([segmented.rs]).

    A directory maps file names to files. Listing it succeeds; removals, the
    creation of a file, the fsync of the directory and the epoch of a fresh key
    are inputs of the operations. The outer [option] of an operation that reads
    is the fuel of the reader's loops, shown to be enough in
    [WalReplay], or the assertion of the aligned buffer. *)

From stdpp Require Import base option strings gmap sorting list.
From S2P Require Import Prelude WalRecord WalReader WalWriter.

Open Scope N_scope.

(** ** File names ([meta.rs]) *)

(** The last [width] decimal digits of [n], before [acc]. *)
Fixpoint decimal_padded (width : nat) (n : N) (acc : string) : string :=
  match width with
  | O => acc
  | S width => decimal_padded width (n / 10) (String (Ascii.ascii_of_N (48 + n mod 10)) acc)
  end.

Fixpoint parse_digits (s : string) (acc : N) : option u64 :=
  match s with
  | EmptyString => Some acc
  | String c s =>
      let d := Ascii.N_of_ascii c in
      if (48 <=? d) && (d <=? 57) then
        let acc := acc * 10 + (d - 48) in
        if acc <? 2 ^ 64 then parse_digits s acc else None
      else None
  end.

(** [str::parse::<u64>]. *)
Definition parse_u64 (s : string) : option u64 :=
  match s with
  | EmptyString => None
  | String c rest =>
      if Ascii.N_of_ascii c =? 43 then
        if bool_decide (rest = EmptyString) then None else parse_digits rest 0
      else parse_digits s 0
  end.

Fixpoint strip_prefix (prefix s : string) : option string :=
  match prefix, s with
  | EmptyString, s => Some s
  | String c prefix, String c' s => if bool_decide (c = c') then strip_prefix prefix s else None
  | String _ _, EmptyString => None
  end.

Fixpoint strip_suffix (suffix s : string) : option string :=
  if bool_decide (s = suffix) then Some EmptyString
  else
    match s with
    | EmptyString => None
    | String c s => String c <$> strip_suffix suffix s
    end.

Definition DEFAULT_SEGMENT_TARGET_SIZE : u64 := 64 * 1024 * 1024.

Definition segment_filename (first_lsn : u64) : string :=
  ("wal-" +:+ decimal_padded 20 first_lsn ".seg")%string.

Definition parse_segment_filename (filename : string) : option u64 :=
  stem ← strip_prefix "wal-" filename;
  lsn_str ← strip_suffix ".seg" stem;
  parse_u64 lsn_str.

Record SegmentMeta : Type := MkSegmentMeta {
  sm_path : string;
  sm_first_lsn : u64;
  sm_file_size : u64;
}.

(** [with_extension] on the name of a segment. *)
Definition dwb_name (path : string) : string :=
  match strip_suffix ".seg" path with
  | Some stem => stem +:+ ".dwb"
  | None => path +:+ ".dwb"
  end%string.

(** [SegmentMeta::dwb_path]. *)
Definition dwb_path (seg : SegmentMeta) : string := dwb_name (sm_path seg).

(** ** Directories ([discovery.rs]) *)

Abbreviation WalDir := (gmap string SegFile) (only parsing).

Definition segment_meta (entry : string * SegFile) : option SegmentMeta :=
  first_lsn ← parse_segment_filename entry.1;
  Some (MkSegmentMeta entry.1 first_lsn (flen (sf_bytes entry.2))).

(** [Ord] of [SegmentMeta]. *)
Definition meta_le (a b : SegmentMeta) : Prop := sm_first_lsn a ≤ sm_first_lsn b.

#[export] Instance meta_le_dec a b : Decision (meta_le a b).
Proof. unfold meta_le. apply _. Defined.

Definition discover_segments (dir : WalDir) : list SegmentMeta :=
  merge_sort meta_le (omap segment_meta (map_to_list dir)).

(** What [remove_file] returns. *)
Inductive RemoveResult : Type := Removed | NotFound | RemoveFailed.

(** [remove_file]; [works] says which removals of existing files succeed. *)
Definition remove_file (works : string → bool) (path : string) (dir : WalDir) :
    WalDir * RemoveResult :=
  match dir !! path with
  | None => (dir, NotFound)
  | Some _ => if works path then (delete path dir, Removed) else (dir, RemoveFailed)
  end.

(** [fsync_directory]; [ok] is what the system returns. *)
Definition fsync_directory (ok : bool) : result WalError unit := if ok then Ok tt else Err WalIo.

(** ** Truncation ([truncate.rs]) *)

Record TruncateResult : Type := MkTruncateResult {
  tr_segments_deleted : u64;
  tr_bytes_reclaimed : u64;
}.

(** What the system does for a truncation. *)
Record TruncateEnv : Type := MkTruncateEnv {
  te_remove : string → bool;
  te_fsync : bool;
}.

(** The first LSN of the next segment, the largest integer if there is none. *)
Definition next_first_lsn (segments : list SegmentMeta) (seg : SegmentMeta) : u64 :=
  default (2 ^ 64 - 1)
    (sm_first_lsn <$> List.find (λ s, sm_first_lsn seg <? sm_first_lsn s) segments).

(** The loop of [truncate_segments] over what is left of [segments]. *)
Fixpoint truncate_loop (env : TruncateEnv) (segments : list SegmentMeta)
    (checkpoint_lsn active_segment_first_lsn : u64) (rest : list SegmentMeta)
    (deleted bytes : u64) (dir : WalDir) : WalDir * result WalError TruncateResult :=
  match rest with
  | [] => (dir, Ok (MkTruncateResult deleted bytes))
  | seg :: rest =>
      let go := truncate_loop env segments checkpoint_lsn active_segment_first_lsn rest in
      if sm_first_lsn seg =? active_segment_first_lsn then go deleted bytes dir
      else if next_first_lsn segments seg <=? checkpoint_lsn then
        match remove_file (te_remove env) (sm_path seg) dir with
        | (dir, Removed) =>
            match remove_file (te_remove env) (dwb_path seg) dir with
            | (dir, RemoveFailed) => (dir, Err WalIo)
            | (dir, _) => go (deleted + 1) (bytes + sm_file_size seg) dir
            end
        | (dir, _) => (dir, Err WalIo)
        end
      else go deleted bytes dir
  end.

Definition truncate_segments (env : TruncateEnv) (checkpoint_lsn active_segment_first_lsn : u64)
    (dir : WalDir) : WalDir * result WalError TruncateResult :=
  let segments := discover_segments dir in
  let? (dir, res) :=
    truncate_loop env segments checkpoint_lsn active_segment_first_lsn segments 0 0 dir in
  if 0 <? tr_segments_deleted res then
    match fsync_directory (te_fsync env) with
    | Ok _ => (dir, Ok res)
    | Err e => (dir, Err e)
    end
  else (dir, Ok res).

(** ** Boundaries between segments ([continuity.rs], [retained.rs]) *)

(** The highest LSN of the last segment that was read to its end and held a
    record. *)
Record SegmentContinuity : Type := MkSegmentContinuity {
  sc_previous : option u64;
}.

Definition continuity_new : SegmentContinuity := MkSegmentContinuity None.

(** [SegmentContinuity::check]. *)
Definition continuity_check (c : SegmentContinuity) (seg : SegmentMeta) : result WalError unit :=
  match sc_previous c with
  | None => Ok tt
  | Some previous_last_lsn =>
      let expected_lsn := sat_add64 previous_last_lsn 1 in
      if expected_lsn <? sm_first_lsn seg then
        Err (SegmentLsnGap previous_last_lsn expected_lsn (sm_first_lsn seg))
      else Ok tt
  end.

(** [SegmentContinuity::completed]. *)
Definition continuity_completed (last_lsn : u64) (c : SegmentContinuity) : SegmentContinuity :=
  if last_lsn =? 0 then c else MkSegmentContinuity (Some last_lsn).

Definition check_retained_floor (segments : list SegmentMeta) (from_lsn : u64) :
    result WalError unit :=
  if from_lsn =? 0 then Ok tt
  else
    match segments with
    | [] => Ok tt
    | earliest :: _ =>
        if sm_first_lsn earliest <=? from_lsn then Ok tt
        else Err (ReplayBelowRetainedFloor from_lsn (sm_first_lsn earliest))
    end.

(** ** Replay across segments ([segmented.rs]) *)

Section replay.
Context `{Crc32c, Aes256Gcm}.

(** The records kept so far, whether the limit was hit, and otherwise the
    reader at its end with the last LSN it delivered. *)
Record SegmentRead : Type := MkSegmentRead {
  sr_records : list WalRecord;
  sr_limit_hit : bool;
  sr_reader : WalReader;
  sr_last_lsn : u64;
}.

(** The loop over the records of one segment. *)
Fixpoint replay_reader_fuel (fuel : nat) (from_lsn : u64) (max_records : usize)
    (records : list WalRecord) (last_lsn : u64) (rd : WalReader) :
    option (result WalError SegmentRead) :=
  match fuel with
  | O => None
  | S fuel =>
      match next_record rd with
      | None => None
      | Some (_, Err e) => Some (Err (with_segment_path e))
      | Some (rd, Ok None) => Some (Ok (MkSegmentRead records false rd last_lsn))
      | Some (rd, Ok (Some record)) =>
          let last_lsn := rh_lsn (wr_header record) in
          if from_lsn <=? last_lsn then
            let records := records ++ [record] in
            if max_records <=? N.of_nat (length records) then
              Some (Ok (MkSegmentRead records true rd last_lsn))
            else replay_reader_fuel fuel from_lsn max_records records last_lsn rd
          else replay_reader_fuel fuel from_lsn max_records records last_lsn rd
      end
  end.

Definition replay_reader (from_lsn : u64) (max_records : usize) (records : list WalRecord)
    (rd : WalReader) : option (result WalError SegmentRead) :=
  replay_reader_fuel (S (length (rd_file rd))) from_lsn max_records records 0 rd.

(** The loop over the segments. *)
Fixpoint replay_segments (dir : WalDir) (from_lsn : u64) (max_records : usize)
    (keys : option KeyRing) (segments : list SegmentMeta) (records : list WalRecord)
    (continuity : SegmentContinuity) : option (result WalError (list WalRecord * bool)) :=
  match segments with
  | [] => Some (Ok (records, false))
  | seg :: segments =>
      match continuity_check continuity seg, dir !! sm_path seg with
      | Err e, _ => Some (Err e)
      | Ok _, None => Some (Err WalIo)
      | Ok _, Some file =>
          match reader_open (sf_bytes file) (sf_bytes <$> dir !! dwb_path seg) keys with
          | Err e => Some (Err e)
          | Ok reader =>
              match replay_reader from_lsn max_records records reader with
              | None => None
              | Some (Err e) => Some (Err e)
              | Some (Ok r) =>
                  if sr_limit_hit r then Some (Ok (sr_records r, true))
                  else
                    match verify_committed_prefix (sf_bytes file) (rd_stop_reason (sr_reader r))
                            (sr_last_lsn r) with
                    | None => None
                    | Some (Err e) => Some (Err e)
                    | Some (Ok _) =>
                        replay_segments dir from_lsn max_records keys segments (sr_records r)
                          (continuity_completed (sr_last_lsn r) continuity)
                    end
              end
          end
      end
  end.

Definition replay_from_limit_dir (dir : WalDir) (from_lsn : u64) (max_records : usize)
    (keys : option KeyRing) : option (result WalError (list WalRecord * bool)) :=
  let segments := discover_segments dir in
  match check_retained_floor segments from_lsn with
  | Err e => Some (Err e)
  | Ok _ => replay_segments dir from_lsn max_records keys segments [] continuity_new
  end.

(** [usize::MAX]. *)
Definition USIZE_MAX : usize := 2 ^ 64 - 1.

(** [SegmentedWal::replay_from]; [replay_all_segments] is this at LSN 0. *)
Definition replay_from_dir (dir : WalDir) (from_lsn : u64) (keys : option KeyRing) :
    option (result WalError (list WalRecord)) :=
  match replay_from_limit_dir dir from_lsn USIZE_MAX keys with
  | None => None
  | Some r => Some (let? x := r in Ok x.1)
  end.

Definition replay_all_segments (dir : WalDir) (keys : option KeyRing) :
    option (result WalError (list WalRecord)) :=
  replay_from_dir dir 0 keys.

(** ** The file of a failed roll ([orphan.rs]) *)

(** [discard_unused_segment]. *)
Definition discard_unused_segment (works : string → bool) (fsync_ok : bool) (path : string)
    (roll_err : WalError) (dir : WalDir) : WalDir * WalError :=
  let '(dir, removed) := remove_file works path dir in
  let cleanup :=
    match removed with
    | Removed | NotFound => fsync_directory fsync_ok
    | RemoveFailed => Err WalIo
    end in
  match cleanup with
  | Ok _ => (dir, roll_err)
  | Err cleanup_err => (dir, RollCleanupFailed roll_err cleanup_err)
  end.

(** The loop of [check_resume_above_previous] over the earlier segments, the
    nearest first. *)
Fixpoint check_resume_loop (dir : WalDir) (last : SegmentMeta) (resumed_next_lsn : u64)
    (earlier : list SegmentMeta) : option (result WalError unit) :=
  match earlier with
  | [] => Some (Ok tt)
  | previous :: earlier =>
      match recover (sf_bytes <$> dir !! sm_path previous) (sf_bytes <$> dir !! dwb_path previous) with
      | None => None
      | Some (Err e) => Some (Err e)
      | Some (Ok info) =>
          if ri_record_count info =? 0 then check_resume_loop dir last resumed_next_lsn earlier
          else if resumed_next_lsn <=? ri_last_lsn info then
            Some (Err (SegmentOverlapsPrevious (sm_first_lsn last) (ri_last_lsn info)))
          else Some (Ok tt)
      end
  end.

Definition check_resume_above_previous (dir : WalDir) (segments : list SegmentMeta)
    (resumed_next_lsn : u64) : option (result WalError unit) :=
  match rev segments with
  | [] => Some (Ok tt)
  | last :: earlier => check_resume_loop dir last resumed_next_lsn earlier
  end.
End replay.

(** ** The log ([segmented.rs]) *)

Record SegmentedWalConfig : Type := MkSegmentedWalConfig {
  swc_segment_target_size : u64;
  swc_writer_config : WalWriterConfig;
}.

(** The directory is split: the writer holds the active segment's file, which
    the directory names [sw_active_path] while it is linked, and [sw_dwb] is what
    the double-write buffer file beside it holds. *)
Record SegmentedWal (D : Type) : Type := MkSegmentedWal {
  sw_dir : WalDir;
  sw_active_path : string;
  sw_linked : bool;
  sw_dwb : option bytes;
  sw_writer : WalWriter D;
  sw_active_first_lsn : u64;
  sw_segment_target_size : u64;
  sw_writer_config : WalWriterConfig;
  sw_encryption_ring : option KeyRing;
}.
Arguments MkSegmentedWal {D}.
Arguments sw_dir {D}.
Arguments sw_active_path {D}.
Arguments sw_linked {D}.
Arguments sw_dwb {D}.
Arguments sw_writer {D}.
Arguments sw_active_first_lsn {D}.
Arguments sw_segment_target_size {D}.
Arguments sw_writer_config {D}.
Arguments sw_encryption_ring {D}.

#[export] Instance eta_SegmentedWal D : Eta (SegmentedWal D) := λ r,
  MkSegmentedWal (sw_dir r) (sw_active_path r) (sw_linked r) (sw_dwb r) (sw_writer r)
    (sw_active_first_lsn r) (sw_segment_target_size r) (sw_writer_config r) (sw_encryption_ring r).

(** The file of a buffer with content [bs], when there is one. *)
Definition set_dwb (path : string) (bs : option bytes) (dir : WalDir) : WalDir :=
  match bs with
  | Some bs => <[dwb_name path := MkSegFile bs bs []]> dir
  | None => delete (dwb_name path) dir
  end.

(** What opening a segment for writing finds on disk: the file, created empty
    when it is missing. *)
Definition open_segment_file (path : string) (dir : WalDir) : SegFile :=
  default (MkSegFile [] [] []) (dir !! path).

(** What the system does for a roll: the two syncs of the old segment, the
    epoch of the next key, the creation of the new file and of its double-write
    buffer with the content found there, the directory fsync, and the removal of
    the new file when the roll fails. *)
Record RollEnv (D : Type) : Type := MkRollEnv {
  re_epoch : option bytes;
  re_sync : SyncEnv;
  re_create : bool;
  re_opened : option D;
  re_dwb : option bytes;
  re_dir_fsync : bool;
  re_seal : SyncEnv;
  re_remove : string → bool;
  re_cleanup_fsync : bool;
}.
Arguments MkRollEnv {D}.
Arguments re_epoch {D}.
Arguments re_sync {D}.
Arguments re_create {D}.
Arguments re_opened {D}.
Arguments re_dwb {D}.
Arguments re_dir_fsync {D}.
Arguments re_seal {D}.
Arguments re_remove {D}.
Arguments re_cleanup_fsync {D}.

Section log.
Context `{Crc32c, Aes256Gcm} {D : Type} `{DoubleWriteBuffer D}.
Implicit Types (s : SegmentedWal D).

(** The directory as a reader finds it. *)
Definition wal_dir s : WalDir :=
  set_dwb (sw_active_path s) (sw_dwb s)
    (if sw_linked s then <[sw_active_path s := ww_file (sw_writer s)]> (sw_dir s) else sw_dir s).

(** [SegmentedWal::open]: the directory it leaves, and the log. *)
Definition swal_open (config : SegmentedWalConfig) (opened : option D) (dir_fsync : bool)
    (dir : WalDir) : WalDir * option (result WalError (SegmentedWal D)) :=
  let segments := discover_segments dir in
  let build path w first :=
    MkSegmentedWal dir path true (sf_bytes <$> dir !! dwb_name path) w first
      (swc_segment_target_size config) (swc_writer_config config) None in
  match last segments with
  | None =>
      let path := segment_filename 1 in
      let file := open_segment_file path dir in
      let dir := <[path := file]> dir in
      match open_writer (swc_writer_config config) file (sf_bytes <$> dir !! dwb_name path) opened with
      | Some (Ok w) =>
          match fsync_directory dir_fsync with
          | Ok _ => (dir, Some (Ok (build path w 1)))
          | Err e => (dir, Some (Err e))
          end
      | Some (Err e) => (dir, Some (Err e))
      | None => (dir, None)
      end
  | Some seg =>
      match open_resuming (swc_writer_config config) (open_segment_file (sm_path seg) dir)
              (sf_bytes <$> dir !! dwb_path seg) opened (sm_first_lsn seg) with
      | Some (Ok w) =>
          match check_resume_above_previous dir segments (ww_next_lsn w) with
          | Some (Ok _) => (dir, Some (Ok (build (sm_path seg) w (sm_first_lsn seg))))
          | Some (Err e) => (dir, Some (Err e))
          | None => (dir, None)
          end
      | Some (Err e) => (dir, Some (Err e))
      | None => (dir, None)
      end
  end.

(** [open_and_seal]: the new segment's file is in the directory from its
    creation on. The assertion of the buffer cannot fail here, since the old
    writer was built with the same configuration; it counts as an error. *)
Definition open_and_seal (env : RollEnv D) (new_path : string) (new_first_lsn : u64)
    (next_ring : option KeyRing) s : SegmentedWal D * result WalError (WalWriter D) :=
  if negb (re_create env) then (s, Err WalIo)
  else
    let file := open_segment_file new_path (wal_dir s) in
    let s := s {{ sw_dir ::= λ d, <[new_path := file]> d }} in
    match open_with_start_lsn (sw_writer_config s) file (re_opened env) new_first_lsn with
    | None => (s, Err WalIo)
    | Some (Err e) => (s, Err e)
    | Some (Ok new_writer) =>
        match fsync_directory (re_dir_fsync env) with
        | Err e => (s, Err e)
        | Ok _ =>
            let '(new_writer, r) :=
              match next_ring with
              | Some ring => set_encryption_ring ring new_writer
              | None => (new_writer, Ok tt)
              end in
            match r with
            | Err e => (s, Err e)
            | Ok _ =>
                let '(old, r) := seal (re_seal env) (sw_writer s) in
                let s := s {{ sw_writer := old }} in
                match r with
                | Err e => (s, Err e)
                | Ok _ => (s, Ok new_writer)
                end
            end
        end
    end.

(** [roll_segment_with_ring]. *)
Definition roll_segment_with_ring (env : RollEnv D) (next_ring : option KeyRing) s :
    SegmentedWal D * result WalError unit :=
  let '(w, r) := sync (re_sync env) (sw_writer s) in
  let s := s {{ sw_writer := w }} in
  match r with
  | Err e => (s, Err e)
  | Ok _ =>
      let new_first_lsn := ww_next_lsn (sw_writer s) in
      let new_path := segment_filename new_first_lsn in
      match open_and_seal env new_path new_first_lsn next_ring s with
      | (s, Err roll_err) =>
          let '(dir, e) :=
            discard_unused_segment (re_remove env) (re_cleanup_fsync env) new_path roll_err (wal_dir s) in
          (s {{ sw_dir := dir;
                sw_linked ::= λ linked, linked && bool_decide (is_Some (dir !! sw_active_path s)) }},
           Err e)
      | (s, Ok new_writer) =>
          (s {{ sw_dir := wal_dir s;
                sw_active_path := new_path;
                sw_linked := true;
                sw_dwb := re_dwb env;
                sw_encryption_ring := next_ring;
                sw_writer := new_writer;
                sw_active_first_lsn := new_first_lsn }}, Ok tt)
      end
  end.

(** [roll_segment]; [KeyRing::new] of the current key under a fresh epoch. *)
Definition roll_segment (env : RollEnv D) s : SegmentedWal D * result WalError unit :=
  match sw_encryption_ring s, re_epoch env with
  | None, _ => roll_segment_with_ring env None s
  | Some _, None => (s, Err EncryptionError)
  | Some ring, Some epoch =>
      let key := MkWalEncryptionKey (wk_key (kr_current ring)) epoch in
      roll_segment_with_ring env (Some (MkKeyRing key None)) s
  end.

(** [SegmentedWal::set_encryption_ring], [configure_encryption_ring] and
    [rotate_encryption_ring]. *)
Definition swal_set_encryption_ring (ring : KeyRing) s : SegmentedWal D * result WalError unit :=
  match set_encryption_ring ring (sw_writer s) with
  | (w, Ok _) => (s {{ sw_writer := w; sw_encryption_ring := Some ring }}, Ok tt)
  | (w, Err e) => (s {{ sw_writer := w }}, Err e)
  end.

Definition rotate_encryption_ring (env : RollEnv D) (ring : KeyRing) s :
    SegmentedWal D * result WalError unit :=
  roll_segment_with_ring env (Some ring) s.

Definition can_set_encryption_ring (w : WalWriter D) : bool :=
  (ww_file_offset w =? 0) && ab_is_empty (ww_buffer w).

Definition configure_encryption_ring (env : RollEnv D) (ring : KeyRing) s :
    SegmentedWal D * result WalError unit :=
  if can_set_encryption_ring (sw_writer s) then swal_set_encryption_ring ring s
  else rotate_encryption_ring env ring s.

(** [SegmentedWal::append_keyed]; [os] are the writes of a flush it forces. *)
Definition swal_append_keyed (env : RollEnv D) (os : list PwriteOutcome) (target : RecordTarget)
    (payload : bytes) (apply_key : u64) s : SegmentedWal D * result WalError u64 :=
  let? (s, _u) :=
    if sw_segment_target_size s <=? ww_file_offset (sw_writer s) then roll_segment env s
    else (s, Ok tt) in
  let '(w, r) := append_keyed os target payload apply_key (sw_writer s) in
  (s {{ sw_writer := w }}, r).

(** [SegmentedWal::append]. *)
Definition swal_append (env : RollEnv D) (os : list PwriteOutcome) (record_type : u32)
    (tenant_id : u64) (vshard_id : u32) (database_id : u64) (payload : bytes) s :
    SegmentedWal D * result WalError u64 :=
  swal_append_keyed env os
    (MkRecordTarget record_type tenant_id vshard_id database_id NO_EVENT_SOURCE 0) payload 0 s.

(** [SegmentedWal::sync]. *)
Definition swal_sync (env : SyncEnv) s : SegmentedWal D * result WalError unit :=
  let '(w, r) := sync env (sw_writer s) in (s {{ sw_writer := w }}, r).

Definition seal_active_segment (env : RollEnv D) s : SegmentedWal D * result WalError unit :=
  if ww_next_lsn (sw_writer s) =? sw_active_first_lsn s then (s, Ok tt)
  else roll_segment env s.

Definition truncate_before (env : TruncateEnv) (checkpoint_lsn : u64) s :
    SegmentedWal D * result WalError TruncateResult :=
  let '(dir, r) := truncate_segments env checkpoint_lsn (sw_active_first_lsn s) (wal_dir s) in
  (s {{ sw_dir := dir }}, r).

(** [SegmentedWal::replay_from]. *)
Definition swal_replay_from (from_lsn : u64) s : option (result WalError (list WalRecord)) :=
  replay_from_dir (wal_dir s) from_lsn (sw_encryption_ring s).
End log.
