(* ===== verification/WalSegmentsFacts.v ===== *)
(** * Segment names, directories and replay

    The name of a segment carries its first LSN, a directory's segments are
    listed in the order of their LSNs, and replay across them is the
    concatenation of the segments' records above the requested LSN, cut at the
    limit. *)

From stdpp Require Import base option strings gmap sorting list.
From S2P Require Import Prelude WalRecord WalReader WalReaderFacts WalRecovery WalWriter WalSegments.

Open Scope N_scope.

(** ** Names *)

Lemma string_app_cons c s t : (String c s +:+ t = String c (s +:+ t))%string.
Proof. done. Qed.

Lemma string_app_assoc (a b c : string) : ((a +:+ b) +:+ c = a +:+ (b +:+ c))%string.
Proof. induction a as [|x a IH]; [done|]. by rewrite !string_app_cons, IH. Qed.

Lemma string_app_length (a b : string) :
  String.length (a +:+ b)%string = (String.length a + String.length b)%nat.
Proof. induction a as [|x a IH]; [done|]. rewrite string_app_cons. simpl. by rewrite IH. Qed.

Lemma strip_prefix_app p s : strip_prefix p (p +:+ s)%string = Some s.
Proof.
  induction p as [|c p IH]; [by destruct s|]. rewrite string_app_cons. simpl.
  by rewrite bool_decide_true.
Qed.

Lemma strip_prefix_some p s t : strip_prefix p s = Some t → s = (p +:+ t)%string.
Proof.
  revert s. induction p as [|c p IH]; intros s; [by destruct s; intros [= <-]|].
  destruct s as [|c' s]; simpl; [done|]. case_bool_decide; [|done]. intros Hs. subst. by rewrite string_app_cons, (IH _ Hs).
Qed.

Lemma strip_suffix_app s t : strip_suffix t (s +:+ t)%string = Some s.
Proof.
  induction s as [|c s IH].
  - change (EmptyString +:+ t)%string with t. destruct t; [done|]. simpl. by rewrite bool_decide_true.
  - rewrite string_app_cons. simpl. rewrite bool_decide_false; [by rewrite IH|]. intros Heq.
    apply (f_equal String.length) in Heq. simpl in Heq. rewrite string_app_length in Heq. lia.
Qed.

Lemma strip_suffix_some s t u : strip_suffix t s = Some u → s = (u +:+ t)%string.
Proof.
  revert u. induction s as [|c s IH]; intros u; simpl.
  - case_bool_decide; [|done]. by intros [= <-].
  - case_bool_decide; [by intros [= <-]|]. destruct (strip_suffix t s) as [v|] eqn:Hs; [|done].
    intros [= <-]. by rewrite string_app_cons, (IH v eq_refl).
Qed.

Lemma decimal_padded_acc w n acc :
  decimal_padded w n acc = (decimal_padded w n EmptyString +:+ acc)%string.
Proof.
  revert n acc. induction w as [|w IH]; intros n acc; simpl; [done|].
  rewrite IH, (IH _ (String _ EmptyString)), string_app_assoc. done.
Qed.

Lemma digit_code n : Ascii.N_of_ascii (Ascii.ascii_of_N (48 + n mod 10)) = 48 + n mod 10.
Proof. apply Ascii.N_ascii_embedding. pose proof (N.mod_lt n 10). lia. Qed.

(** Digits read back. *)
Lemma parse_decimal w : ∀ n rest acc,
  acc * 10 ^ N.of_nat w + n mod 10 ^ N.of_nat w < 2 ^ 64 →
  parse_digits (decimal_padded w n rest) acc =
  parse_digits rest (acc * 10 ^ N.of_nat w + n mod 10 ^ N.of_nat w).
Proof.
  induction w as [|w IH]; intros n rest acc Hlt.
  - simpl. rewrite N.mod_1_r. f_equal. lia.
  - rewrite Nat2N.inj_succ, N.pow_succ_r' in *. simpl decimal_padded.
    assert (acc * (10 * 10 ^ N.of_nat w) + n mod (10 * 10 ^ N.of_nat w) =
      (acc * 10 ^ N.of_nat w + (n / 10) mod 10 ^ N.of_nat w) * 10 + n mod 10) as Heq.
    { rewrite N.Div0.mod_mul_r. lia. }
    rewrite Heq in Hlt |- *. clear Heq. pose proof (digit_code n) as Hc.
    pose proof (N.mod_lt n 10 ltac:(done)) as Hd. generalize dependent (n mod 10). intros d Hlt Hc Hd.
    rewrite IH; set (q := acc * _ + _) in *; clearbody q; [|lia].
    cbn [parse_digits]. rewrite Hc.
    rewrite (proj2 (N.leb_le 48 _)) by lia. rewrite (proj2 (N.leb_le _ 57)) by lia. cbn [andb].
    replace (48 + d - 48) with d by lia. by rewrite (proj2 (N.ltb_lt _ _)) by lia.
Qed.

Lemma decimal_head w : ∀ n acc,
  ∃ d s, decimal_padded (S w) n acc = String (Ascii.ascii_of_N (48 + d mod 10)) s.
Proof. induction w as [|w IH]; intros n acc; [by eexists _, _|apply (IH (n / 10))]. Qed.

Lemma parse_segment_name n : n < 2 ^ 64 → parse_segment_filename (segment_filename n) = Some n.
Proof.
  intros Hn. unfold parse_segment_filename, segment_filename. rewrite strip_prefix_app.
  cbn [mbind option_bind]. rewrite decimal_padded_acc, strip_suffix_app. cbn [mbind option_bind].
  assert (n mod 10 ^ N.of_nat 20 = n) as Hm.
  { apply N.mod_small. etrans; [exact Hn|]. by vm_compute. }
  pose proof (parse_decimal 20 n EmptyString 0) as Hp. rewrite Hm, N.mul_0_l, N.add_0_l in Hp.
  specialize (Hp Hn). cbn [parse_digits] in Hp. rewrite <-Hp.
  destruct (decimal_head 19 n EmptyString) as (d & s & ->).
  unfold parse_u64. rewrite digit_code. generalize (d mod 10). intros m.
  by rewrite (proj2 (N.eqb_neq _ _)) by lia.
Qed.

Lemma segment_filename_inj a b :
  a < 2 ^ 64 → b < 2 ^ 64 → segment_filename a = segment_filename b → a = b.
Proof. intros Ha Hb Heq. apply parse_segment_name in Ha, Hb. congruence. Qed.

(** The name of a double-write buffer is not one of a segment. *)
Lemma last_char_app (s : string) c : String.get (String.length s) (s +:+ String c EmptyString)%string = Some c.
Proof. by induction s as [|x s IH]. Qed.

Lemma suffix_last (s t : string) a b c x y z :
  (s +:+ String a (String b (String c EmptyString)) = t +:+ String x (String y (String z EmptyString)))%string → c = z.
Proof.
  assert (∀ (u : string) p q r, (u +:+ String p (String q (String r EmptyString)) =
    (u +:+ String p (String q EmptyString)) +:+ String r EmptyString)%string) as Hsplit
    by (intros; by rewrite string_app_assoc).
  rewrite !Hsplit. intros Heq.
  assert (String.length (s +:+ String a (String b EmptyString))%string =
    String.length (t +:+ String x (String y EmptyString))%string) as Hl.
  { apply (f_equal String.length) in Heq. rewrite !string_app_length in *. simpl in *. lia. }
  apply (f_equal (String.get (String.length (s +:+ String a (String b EmptyString))%string))) in Heq.
  rewrite last_char_app, Hl, last_char_app in Heq. by injection Heq.
Qed.

Lemma parse_segment_suffix name n :
  parse_segment_filename name = Some n → ∃ stem, strip_suffix ".seg" name = Some stem.
Proof.
  unfold parse_segment_filename. destruct (strip_prefix "wal-" name) as [s|] eqn:Hp; [|done].
  apply strip_prefix_some in Hp as ->. cbn [mbind option_bind].
  destruct (strip_suffix ".seg" s) as [t|] eqn:Hs; [|done]. intros _.
  apply strip_suffix_some in Hs as ->. exists ("wal-" +:+ t)%string.
  by rewrite <-string_app_assoc, strip_suffix_app.
Qed.

Lemma dwb_not_segment path : parse_segment_filename (dwb_name path) = None.
Proof.
  destruct (parse_segment_filename (dwb_name path)) as [n|] eqn:Hp; [|done]. exfalso.
  apply parse_segment_suffix in Hp as [t Ht]. apply strip_suffix_some in Ht. unfold dwb_name in Ht.
  assert (∀ u v : string, (u +:+ ".dwb" = v +:+ ".seg")%string → False) as Hno.
  { intros u v Heq.
    assert ((u +:+ ".") +:+ "dwb" = (v +:+ ".") +:+ "seg")%string as Hd by (by rewrite !string_app_assoc).
    by apply suffix_last in Hd. }
  destruct (strip_suffix ".seg" path); by apply Hno in Ht.
Qed.

Lemma dwb_name_inj p q m n :
  parse_segment_filename p = Some m → parse_segment_filename q = Some n →
  dwb_name p = dwb_name q → p = q.
Proof.
  intros Hp Hq. apply parse_segment_suffix in Hp as [s Hs], Hq as [t Ht].
  unfold dwb_name. rewrite Hs, Ht. intros Heq. apply (f_equal (strip_suffix ".dwb")) in Heq.
  rewrite !strip_suffix_app in Heq. injection Heq as ->.
  apply strip_suffix_some in Hs, Ht. congruence.
Qed.

(** ** Directories *)

(** No two names carry the same LSN. *)
Definition names_unique (dir : WalDir) : Prop := ∀ p q l,
  is_Some (dir !! p) → is_Some (dir !! q) → parse_segment_filename p = Some l →
  parse_segment_filename q = Some l → p = q.

Definition lsn_lt (a b : SegmentMeta) : Prop := sm_first_lsn a < sm_first_lsn b.

#[export] Instance lsn_lt_antisymm : AntiSymm (=) lsn_lt.
Proof. intros a b. unfold lsn_lt. lia. Qed.

#[export] Instance lsn_lt_trans : Transitive lsn_lt.
Proof. intros a b c. unfold lsn_lt. lia. Qed.

#[export] Instance meta_le_trans : Transitive meta_le.
Proof. intros a b c. unfold meta_le. lia. Qed.

#[export] Instance meta_le_total : Total meta_le.
Proof. intros a b. unfold meta_le. lia. Qed.

Lemma elem_of_discover dir m :
  m ∈ discover_segments dir ↔ ∃ f, dir !! sm_path m = Some f ∧
    parse_segment_filename (sm_path m) = Some (sm_first_lsn m) ∧ sm_file_size m = flen (sf_bytes f).
Proof.
  unfold discover_segments. rewrite merge_sort_Permutation, list_elem_of_omap. unfold segment_meta. split.
  - intros ([p f] & Hin & Hm). apply elem_of_map_to_list in Hin. simpl in Hm.
    destruct (parse_segment_filename p) as [l|] eqn:Hp; [|done]. injection Hm as <-. by exists f.
  - intros (f & Hf & Hp & Hs). exists (sm_path m, f). split; [by apply elem_of_map_to_list|].
    simpl. rewrite Hp. simpl. rewrite <-Hs. by destruct m.
Qed.

Lemma discover_path dir m : m ∈ discover_segments dir → is_Some (dir !! sm_path m) ∧
  parse_segment_filename (sm_path m) = Some (sm_first_lsn m).
Proof. intros (f & Hf & Hp & _)%elem_of_discover. by eauto. Qed.

Lemma discover_inj dir a b :
  names_unique dir → a ∈ discover_segments dir → b ∈ discover_segments dir →
  sm_first_lsn a = sm_first_lsn b → a = b.
Proof.
  intros Hu (f & Hf & Hp & Hs)%elem_of_discover (g & Hg & Hq & Ht)%elem_of_discover Heq.
  rewrite Heq in Hp. assert (sm_path a = sm_path b) as Hpath by (eapply Hu; eauto).
  rewrite Hpath in Hf. destruct a, b; simpl in *. congruence.
Qed.

(** Two entries of one name are the same entry. *)
Lemma NoDup_omap_keys {V B} (f : string * V → option B) (m : gmap string V) :
  (∀ p v q w b, f (p, v) = Some b → f (q, w) = Some b → p = q) → NoDup (omap f (map_to_list m)).
Proof.
  intros Hinj. pose proof (NoDup_fst_map_to_list m) as Hnd.
  induction (map_to_list m) as [|[p v] l IH]; simpl in *; [constructor|].
  apply NoDup_cons in Hnd as [Hp Hl].
  destruct (f (p, v)) as [b|] eqn:Hb; [|by apply IH]. constructor; [|by apply IH].
  intros ([q w] & Hy & Hf)%list_elem_of_omap. apply Hp.
  rewrite (Hinj _ _ _ _ _ Hb Hf). apply list_elem_of_fmap. by exists (q, w).
Qed.

Lemma discover_NoDup dir : NoDup (discover_segments dir).
Proof.
  unfold discover_segments. rewrite merge_sort_Permutation. apply NoDup_omap_keys.
  intros p v q w m. unfold segment_meta. simpl.
  destruct (parse_segment_filename p), (parse_segment_filename q); simpl; try done.
  by intros [= <-] [= ->].
Qed.

Lemma discover_sorted dir : names_unique dir → StronglySorted lsn_lt (discover_segments dir).
Proof.
  intros Hu. pose proof (discover_NoDup dir) as Hnd.
  assert (StronglySorted meta_le (discover_segments dir)) as Hs
    by (apply Sorted_StronglySorted; [apply _|]; apply Sorted_merge_sort; apply _).
  assert (∀ a b, a ∈ discover_segments dir → b ∈ discover_segments dir →
    sm_first_lsn a = sm_first_lsn b → a = b) as Hinj by (intros; by eapply discover_inj).
  induction Hs as [|m l Hs IH Hm]; constructor; apply NoDup_cons in Hnd as [Hx Hnd].
  - apply IH; [done|]. intros a b Ha Hb. apply Hinj; by right.
  - rewrite Forall_forall in Hm |- *. intros b Hb. specialize (Hm b Hb). unfold meta_le, lsn_lt in *.
    assert (sm_first_lsn m ≠ sm_first_lsn b); [|lia]. intros Heq.
    by rewrite (Hinj m b ltac:(left) ltac:(by right) Heq) in Hx.
Qed.

(** A sorted list of the segments is what discovery returns. *)
Lemma discover_unique dir l :
  names_unique dir → StronglySorted lsn_lt l → (∀ m, m ∈ l ↔ m ∈ discover_segments dir) →
  discover_segments dir = l.
Proof.
  intros Hu Hs Hl. apply (StronglySorted_unique lsn_lt); [by apply discover_sorted|done|].
  apply NoDup_Permutation; [apply discover_NoDup| |intros m; by rewrite Hl].
  clear Hl. induction Hs as [|m l Hs IH Hm]; constructor; [|done]. intros Hin.
  rewrite Forall_forall in Hm. specialize (Hm m Hin). unfold lsn_lt in Hm. lia.
Qed.

Lemma names_unique_sub dir dir' :
  names_unique dir → (∀ p, is_Some (dir' !! p) → is_Some (dir !! p)) → names_unique dir'.
Proof. intros Hu Hsub p q l Hp Hq. apply Hu; by apply Hsub. Qed.

(** Only the files with a segment's name matter. *)
Lemma discover_ext dir dir' :
  names_unique dir → names_unique dir' →
  (∀ p l, parse_segment_filename p = Some l → dir !! p = dir' !! p) →
  discover_segments dir = discover_segments dir'.
Proof.
  intros Hu Hu' Heq. apply discover_unique; [done|by apply discover_sorted|].
  intros m. rewrite !elem_of_discover.
  split; intros (f & Hf & Hp & Hs); exists f; rewrite (Heq _ _ Hp) in *; done.
Qed.

Lemma StronglySorted_filter {A} (R : A → A → Prop) (P : A → Prop) `{∀ x, Decision (P x)} l :
  StronglySorted R l → StronglySorted R (filter P l).
Proof.
  induction 1 as [|x l Hs IH Hx]; [constructor|]. rewrite filter_cons. case_decide; [|done].
  constructor; [done|]. rewrite Forall_forall in Hx |- *. intros y [_ Hy]%list_elem_of_filter. by apply Hx.
Qed.

Lemma discover_delete dir p :
  names_unique dir →
  discover_segments (delete p dir) = filter (λ m, sm_path m ≠ p) (discover_segments dir).
Proof.
  intros Hu. apply discover_unique.
  - apply (names_unique_sub dir); [done|]. intros q. rewrite lookup_delete_is_Some. by intros [].
  - apply StronglySorted_filter. by apply discover_sorted.
  - intros m. rewrite list_elem_of_filter, !elem_of_discover. split.
    + intros (Hne & f & Hf & Hr). exists f. by rewrite lookup_delete_ne by done.
    + intros (f & (Hne & Hf)%lookup_delete_Some & Hr). split; [done|]. by exists f.
Qed.

Lemma names_unique_insert dir p l f :
  names_unique dir → parse_segment_filename p = Some l →
  (∀ m, m ∈ discover_segments dir → sm_first_lsn m < l) → names_unique (<[p := f]> dir).
Proof.
  intros Hu Hp Hlt.
  assert (∀ q, is_Some (dir !! q) → parse_segment_filename q = Some l → False) as Hno.
  { intros q [g Hg] Hq. specialize (Hlt (MkSegmentMeta q l (flen (sf_bytes g)))).
    simpl in Hlt. rewrite elem_of_discover in Hlt. assert (l < l); [|lia]. apply Hlt. by exists g. }
  intros a b k Ha Hb Hka Hkb. rewrite !lookup_insert_is_Some in *.
  destruct Ha as [<-|[_ Ha]], Hb as [<-|[_ Hb]]; [done| | |by eapply Hu].
  - exfalso. apply (Hno b); [done|]. congruence.
  - exfalso. apply (Hno a); [done|]. congruence.
Qed.

(** A file named above all others comes last. *)
Lemma discover_snoc dir p l f :
  names_unique dir → parse_segment_filename p = Some l →
  (∀ m, m ∈ discover_segments dir → sm_first_lsn m < l) →
  discover_segments (<[p := f]> dir) =
  discover_segments dir ++ [MkSegmentMeta p l (flen (sf_bytes f))].
Proof.
  intros Hu Hp Hlt. apply discover_unique; [by eapply names_unique_insert| |].
  - apply StronglySorted_app. split_and!; [|by apply discover_sorted|repeat constructor].
    intros a b Ha ->%list_elem_of_singleton. by apply Hlt.
  - intros m. rewrite elem_of_app, list_elem_of_singleton, !elem_of_discover. split.
    + intros [(g & Hg & Hq & Hs)| -> ]; [|exists f; simpl; by rewrite lookup_insert_eq].
      exists g. rewrite lookup_insert_ne; [done|]. intros ->.
      assert (sm_first_lsn m < l); [|by rewrite Hp in Hq; injection Hq as ->; lia].
      apply Hlt, elem_of_discover. by exists g.
    + intros (g & [[Hpm <-]|[Hne Hg]]%lookup_insert_Some & Hq & Hs); [right|left; by exists g].
      rewrite <-Hpm, Hp in Hq. destruct m; simpl in *. congruence.
Qed.
