(* ===== verification/WalReplay.v ===== *)
(** * Replay across segments

    What replay of a directory returns: the records of its segments from the
    requested LSN on, cut at the limit. Truncation, also when it is interrupted,
    leaves the replay from the checkpoint as it was; a segment that went missing
    from the middle of the log is reported and never passed over. *)

From stdpp Require Import base option strings gmap sorting list.
From S2P Require Import Prelude WalRecord WalReader WalReaderFacts WalRecovery WalWriter WalWriterFacts.
From S2P Require Import WalSegments WalSegmentsFacts.

Open Scope N_scope.

(** The records from an LSN on. *)
Definition from_on (from_lsn : u64) (rs : list WalRecord) : list WalRecord :=
  filter (λ r, from_lsn ≤ lsn_of r) rs.

(** What a limit leaves of [rs], and whether it was hit; a limit of zero counts
    as one. *)
Definition cut (max_records : usize) (rs : list WalRecord) : list WalRecord * bool :=
  if N.max 1 max_records <=? N.of_nat (length rs) then (take (N.to_nat (N.max 1 max_records)) rs, true)
  else (rs, false).

Lemma from_on_app from a b : from_on from (a ++ b) = from_on from a ++ from_on from b.
Proof. apply filter_app. Qed.

Lemma from_on_below from rs : Forall (λ r, lsn_of r < from) rs → from_on from rs = [].
Proof.
  unfold from_on. induction 1 as [|r rs Hr _ IH]; [done|]. by rewrite filter_cons_False by lia.
Qed.

Lemma from_on_cons from r rs :
  from_on from (r :: rs) = if from <=? lsn_of r then r :: from_on from rs else from_on from rs.
Proof.
  unfold from_on. destruct (N.leb_spec from (lsn_of r)).
  - by rewrite filter_cons_True.
  - by rewrite filter_cons_False by lia.
Qed.

Lemma from_on_zero rs : from_on 0 rs = rs.
Proof. induction rs as [|r rs IH]; [done|]. by rewrite from_on_cons, IH, (proj2 (N.leb_le 0 _)) by lia. Qed.

Lemma cut_hit max rs : N.max 1 max ≤ N.of_nat (length rs) →
  cut max rs = (take (N.to_nat (N.max 1 max)) rs, true).
Proof. intros Hl. unfold cut. by rewrite (proj2 (N.leb_le _ _)). Qed.

Lemma cut_short max rs : N.of_nat (length rs) < N.max 1 max → cut max rs = (rs, false).
Proof. intros Hl. unfold cut. by rewrite (proj2 (N.leb_gt _ _)). Qed.

(** A limit hit early is hit. *)
Lemma cut_app_hit max a b : N.max 1 max ≤ N.of_nat (length a) → cut max (a ++ b) = cut max a.
Proof.
  intros Hl. rewrite !cut_hit by (rewrite ?length_app; lia). by rewrite take_app_le by lia.
Qed.

Section replay.
Context `{Crc32c, Aes256Gcm}.

(** The loop over one segment, on the records its reader delivers. *)
Lemma replay_reader_short fuel from max : ∀ recs lsn rd rs rd' e,
  records_fuel fuel rd = Some (rs, rd', e) →
  N.of_nat (length (recs ++ from_on from rs)) < N.max 1 max →
  replay_reader_fuel fuel from max recs lsn rd =
    Some (match e with
          | Ok _ => Ok (MkSegmentRead (recs ++ from_on from rs) false rd' (last_lsn_of lsn rs))
          | Err e => Err (with_segment_path e)
          end).
Proof.
  induction fuel as [|fuel IH]; intros recs lsn rd rs rd' e; [done|]. simpl.
  destruct (next_record rd) as [[rd1 [[r|]|e1]]|] eqn:Hn; [| | |done].
  2, 3: intros [= <- <- <-] _; by rewrite ?app_nil_r.
  destruct (records_fuel fuel rd1) as [[[rs1 rd2] e2]|] eqn:Hr; [|done]. intros [= <- <- <-] Hl.
  rewrite from_on_cons in *. change (rh_lsn (wr_header r)) with (lsn_of r).
  assert (∀ l, last_lsn_of l (r :: rs1) = last_lsn_of (lsn_of r) rs1) as Hlast
    by (intros l; unfold last_lsn_of; rewrite last_cons; by destruct (last rs1)).
  rewrite Hlast. destruct (from <=? lsn_of r); [|by apply IH].
  rewrite (cons_middle r recs (from_on from rs1)), app_assoc in Hl |- *. rewrite (proj2 (N.leb_gt _ _)); [by apply IH|].
  rewrite length_app, (length_app recs [r]) in Hl. rewrite (length_app recs [r]). simpl length in *. lia.
Qed.

Lemma replay_reader_hit fuel from max : ∀ recs lsn rd rs rd' e,
  records_fuel fuel rd = Some (rs, rd', e) → N.of_nat (length recs) < N.max 1 max →
  N.max 1 max ≤ N.of_nat (length (recs ++ from_on from rs)) →
  ∃ rd'' last'', replay_reader_fuel fuel from max recs lsn rd =
    Some (Ok (MkSegmentRead (take (N.to_nat (N.max 1 max)) (recs ++ from_on from rs)) true rd'' last'')).
Proof.
  induction fuel as [|fuel IH]; intros recs lsn rd rs rd' e; [done|]. simpl.
  destruct (next_record rd) as [[rd1 [[r|]|e1]]|] eqn:Hn; [| | |done].
  2, 3: intros [= <- <- <-] Hr Hl; rewrite app_nil_r in Hl; lia.
  destruct (records_fuel fuel rd1) as [[[rs1 rd2] e2]|] eqn:Hr; [|done]. intros [= <- <- <-] Hs Hl.
  rewrite from_on_cons in *. change (rh_lsn (wr_header r)) with (lsn_of r).
  destruct (from <=? lsn_of r); [|by eapply IH].
  rewrite (cons_middle r recs (from_on from rs1)), app_assoc in Hl |- *.
  assert (N.of_nat (length (recs ++ [r])) = N.of_nat (length recs) + 1) as Hlen
    by (rewrite length_app; simpl; lia).
  destruct (N.leb_spec max (N.of_nat (length (recs ++ [r])))) as [Hm|Hm].
  - eexists _, _. do 3 f_equal. rewrite take_app_le, take_ge by lia. done.
  - eapply IH; [done|lia|done].
Qed.

(** ** Directories *)

(** The reader of a segment delivers [rs] and ends as a committed prefix
    should. *)
Definition seg_read (dir : WalDir) (keys : option KeyRing) (seg : SegmentMeta)
    (rs : list WalRecord) : Prop := ∃ f rd rd',
  dir !! sm_path seg = Some f ∧
  reader_open (sf_bytes f) (sf_bytes <$> dir !! dwb_path seg) keys = Ok rd ∧
  records rd = Some (rs, rd', Ok tt) ∧
  verify_committed_prefix (sf_bytes f) (rd_stop_reason rd') (last_lsn_of 0 rs) = Some (Ok tt).

(** The boundaries of segments with those records pass the check. *)
Fixpoint linked (c : SegmentContinuity) (segs : list SegmentMeta) (rss : list (list WalRecord)) :
    Prop :=
  match segs, rss with
  | seg :: segs, rs :: rss =>
      continuity_check c seg = Ok tt ∧ linked (continuity_completed (last_lsn_of 0 rs) c) segs rss
  | _, _ => True
  end.

Lemma replay_segments_cons dir from max keys seg segs recs c rs :
  continuity_check c seg = Ok tt → seg_read dir keys seg rs → N.of_nat (length recs) < N.max 1 max →
  replay_segments dir from max keys (seg :: segs) recs c =
  if N.max 1 max <=? N.of_nat (length (recs ++ from_on from rs)) then
    Some (Ok (cut max (recs ++ from_on from rs)))
  else
    replay_segments dir from max keys segs (recs ++ from_on from rs)
      (continuity_completed (last_lsn_of 0 rs) c).
Proof.
  intros Hc (f & rd & rd' & Hf & Ho & Hr & Hv) Hl. simpl. rewrite Hc, Hf, Ho. unfold replay_reader.
  destruct (N.leb_spec (N.max 1 max) (N.of_nat (length (recs ++ from_on from rs)))) as [Hm|Hm].
  - destruct (replay_reader_hit _ from max recs 0 _ _ _ _ Hr Hl Hm) as (rd'' & l & ->). simpl.
    by rewrite cut_hit.
  - rewrite (replay_reader_short _ from max recs 0 _ _ _ _ Hr Hm). simpl. by rewrite Hv.
Qed.

(** Replay of segments that can all be read. *)
Lemma replay_segments_ok dir from max keys segs rss : ∀ recs c,
  Forall2 (seg_read dir keys) segs rss → linked c segs rss → N.of_nat (length recs) < N.max 1 max →
  replay_segments dir from max keys segs recs c =
  Some (Ok (cut max (recs ++ from_on from (mjoin rss)))).
Proof.
  revert rss. induction segs as [|seg segs IH]; intros rss recs c Hrs Hk Hl; inversion Hrs; subst.
  - simpl. by rewrite app_nil_r, cut_short.
  - destruct Hk as [Hc Hk]. rewrite (replay_segments_cons _ _ _ _ _ _ _ _ _ Hc ltac:(done) Hl).
    simpl mjoin. rewrite from_on_app, app_assoc.
    destruct (N.leb_spec (N.max 1 max) (N.of_nat (length (recs ++ from_on from y)))).
    + by rewrite (cut_app_hit _ (recs ++ _)).
    + by apply IH.
Qed.

(** The next segment of a replay that succeeds was read, unless the limit was
    hit in it. *)
Lemma replay_segments_inv dir from max keys seg segs recs c x :
  N.of_nat (length recs) < N.max 1 max →
  replay_segments dir from max keys (seg :: segs) recs c = Some (Ok x) →
  continuity_check c seg = Ok tt ∧ ∃ f rd rs rd' e, dir !! sm_path seg = Some f ∧
    reader_open (sf_bytes f) (sf_bytes <$> dir !! dwb_path seg) keys = Ok rd ∧
    records rd = Some (rs, rd', e) ∧
    (N.max 1 max ≤ N.of_nat (length (recs ++ from_on from rs)) ∧
       x = cut max (recs ++ from_on from rs) ∨
     N.of_nat (length (recs ++ from_on from rs)) < N.max 1 max ∧ seg_read dir keys seg rs ∧
       replay_segments dir from max keys segs (recs ++ from_on from rs)
         (continuity_completed (last_lsn_of 0 rs) c) = Some (Ok x)).
Proof.
  intros Hl. simpl. destruct (continuity_check c seg) as [[]|] eqn:Hc; [|done].
  destruct (dir !! sm_path seg) as [f|] eqn:Hf; [|done].
  destruct (reader_open _ _ keys) as [rd|] eqn:Ho; [|done]. unfold replay_reader.
  destruct (records_fuel_some (S (length (rd_file rd))) rd ltac:(lia)) as [[[rs rd'] e] Hr].
  destruct (N.le_gt_cases (N.max 1 max) (N.of_nat (length (recs ++ from_on from rs)))) as [Hm|Hm].
  - destruct (replay_reader_hit _ from max recs 0 _ _ _ _ Hr Hl Hm) as (rd'' & l & ->). simpl.
    intros [= <-]. split; [done|]. exists f, rd, rs, rd', e. split_and!; try done. left.
    by rewrite cut_hit.
  - rewrite (replay_reader_short _ from max recs 0 _ _ _ _ Hr Hm). destruct e as [[]|e]; [|done]. simpl.
    destruct (verify_committed_prefix _ _ _) as [[[]|]|] eqn:Hv; [|done..]. intros Hx.
    split; [done|]. exists f, rd, rs, rd', (Ok tt). split_and!; try done. right.
    split_and!; try done. by exists f, rd, rd'.
Qed.

(** A replay that hits no limit read every segment. *)
Lemma replay_segments_all dir from max keys segs : ∀ recs c out,
  N.of_nat (length recs) < N.max 1 max →
  replay_segments dir from max keys segs recs c = Some (Ok (out, false)) →
  ∃ rss, Forall2 (seg_read dir keys) segs rss ∧ linked c segs rss ∧
    out = recs ++ from_on from (mjoin rss).
Proof.
  induction segs as [|seg segs IH]; intros recs c out Hl Hx.
  - simpl in Hx. injection Hx as <-. exists []. split_and!; [constructor|done|by rewrite app_nil_r].
  - apply replay_segments_inv in Hx as (Hc & f & rd & rs & rd' & e & Hf & Ho & Hr & [[Hm Hx]|(Hm & Hs & Hx)]);
      [by rewrite cut_hit in Hx| |done].
    apply IH in Hx as (rss & Hrs & Hk & ->); [|done]. exists (rs :: rss).
    split_and!; [by constructor|by split|]. simpl mjoin. by rewrite from_on_app, app_assoc.
Qed.

(** Replay returns: the fuel of its loops is enough. *)
Lemma replay_segments_some dir from max keys segs : ∀ recs c,
  map_Forall (λ _ f, flen (sf_bytes f) < 2 ^ 64) dir → N.of_nat (length recs) < N.max 1 max →
  is_Some (replay_segments dir from max keys segs recs c).
Proof.
  induction segs as [|seg segs IH]; intros recs c Hsz Hl; [done|]. simpl.
  destruct (continuity_check c seg) as [[]|]; [|done].
  destruct (dir !! sm_path seg) as [f|] eqn:Hf; [|done].
  destruct (reader_open _ _ keys) as [rd|]; [|done]. unfold replay_reader.
  destruct (records_fuel_some (S (length (rd_file rd))) rd ltac:(lia)) as [[[rs rd'] e] Hr].
  destruct (N.le_gt_cases (N.max 1 max) (N.of_nat (length (recs ++ from_on from rs)))) as [Hm|Hm].
  - by destruct (replay_reader_hit _ from max recs 0 _ _ _ _ Hr Hl Hm) as (rd'' & l & ->).
  - rewrite (replay_reader_short _ from max recs 0 _ _ _ _ Hr Hm). destruct e as [[]|e]; [|done]. simpl.
    destruct (verify_some (sf_bytes f) (rd_stop_reason rd') (last_lsn_of 0 rs) (Hsz _ _ Hf)) as [[[]|] ->];
      [by apply IH|done].
Qed.

Lemma replay_some dir from max keys :
  map_Forall (λ _ f, flen (sf_bytes f) < 2 ^ 64) dir →
  is_Some (replay_from_limit_dir dir from max keys).
Proof.
  intros Hsz. unfold replay_from_limit_dir. destruct (check_retained_floor _ _); [|done].
  apply replay_segments_some; [done|simpl; lia].
Qed.


(** A segment whose records all lie below the requested LSN adds nothing. *)
Lemma replay_skip dir from max keys seg segs c x :
  (∀ f rd rs rd' e, dir !! sm_path seg = Some f →
     reader_open (sf_bytes f) (sf_bytes <$> dir !! dwb_path seg) keys = Ok rd →
     records rd = Some (rs, rd', e) → Forall (λ r, lsn_of r < from) rs) →
  replay_segments dir from max keys (seg :: segs) [] c = Some (Ok x) →
  ∃ c', replay_segments dir from max keys segs [] c' = Some (Ok x).
Proof.
  intros Hb Hx.
  apply replay_segments_inv in Hx as (_ & f & rd & rs & rd' & e & Hf & Ho & Hr & Hx); [|simpl; lia].
  rewrite (from_on_below from rs) in Hx by by eapply Hb. simpl in Hx.
  destruct Hx as [[Hm _]|(_ & _ & Hx)]; [lia|by eexists].
Qed.

(** With fewer segments before it a segment passes the check all the more. *)
Lemma replay_weaken dir from max keys segs : ∀ recs c c' x,
  N.of_nat (length recs) < N.max 1 max → c' = c ∨ sc_previous c' = None →
  replay_segments dir from max keys segs recs c = Some (Ok x) →
  replay_segments dir from max keys segs recs c' = Some (Ok x).
Proof.
  induction segs as [|seg segs IH]; intros recs c c' x Hl Hc; [done|]. intros Hx.
  apply replay_segments_inv in Hx as (Hk & f & rd & rs & rd' & e & Hf & Ho & Hr & Hx); [|done].
  assert (continuity_check c' seg = Ok tt) as Hk'.
  { destruct Hc as [->|Hn]; [done|]. unfold continuity_check. by rewrite Hn. }
  destruct Hx as [[Hm ->]|(Hm & Hs & Hx)].
  - simpl. rewrite Hk', Hf, Ho. unfold replay_reader.
    destruct (replay_reader_hit _ from max recs 0 _ _ _ _ Hr Hl Hm) as (rd'' & l & ->). simpl.
    by rewrite cut_hit.
  - rewrite (replay_segments_cons _ _ _ _ _ _ _ _ _ Hk' Hs Hl), (proj2 (N.leb_gt _ _)) by done.
    eapply (IH _ _ _ _ Hm); [|exact Hx].
    unfold continuity_completed. destruct (_ =? 0); [done|by left].
Qed.

Lemma replay_segments_ext dir dir' from max keys segs : ∀ recs c,
  (∀ m, m ∈ segs → dir !! sm_path m = dir' !! sm_path m ∧ dir !! dwb_path m = dir' !! dwb_path m) →
  replay_segments dir from max keys segs recs c = replay_segments dir' from max keys segs recs c.
Proof.
  induction segs as [|seg segs IH]; intros recs c Heq; [done|]. simpl.
  destruct (Heq seg ltac:(left)) as [-> ->]. repeat case_match; try done.
  apply IH. intros m Hm. apply Heq. by right.
Qed.

(** ** Truncation *)

Lemma parse_digits_lt s : ∀ acc n, acc < 2 ^ 64 → parse_digits s acc = Some n → n < 2 ^ 64.
Proof.
  induction s as [|c s IH]; intros acc n Hacc; simpl; [by intros [= <-]|].
  destruct (_ && _); [|done]. destruct (N.ltb_spec (acc * 10 + (Ascii.N_of_ascii c - 48)) (2 ^ 64)); [|done].
  by apply IH.
Qed.

Lemma parse_segment_lt p n : parse_segment_filename p = Some n → n < 2 ^ 64.
Proof.
  unfold parse_segment_filename. destruct (strip_prefix _ _) as [s|]; [|done]. cbn [mbind option_bind].
  destruct (strip_suffix _ s) as [t|]; [|done]. cbn [mbind option_bind]. unfold parse_u64.
  destruct t as [|c t]; [done|]. repeat case_match; try done; by apply parse_digits_lt.
Qed.

(** The next segment in LSN order. *)
Lemma next_first_spec before seg rest :
  StronglySorted lsn_lt (before ++ seg :: rest) →
  next_first_lsn (before ++ seg :: rest) seg = default (2 ^ 64 - 1) (sm_first_lsn <$> head rest).
Proof.
  intros Hs. unfold next_first_lsn. f_equal. f_equal.
  induction before as [|m before IH]; simpl in *; inversion Hs as [|? ? Hs' Hm]; subst.
  - rewrite N.ltb_irrefl. destruct rest as [|m rest]; [done|]. simpl. inversion Hm; subst.
    unfold lsn_lt in *. by rewrite (proj2 (N.ltb_lt _ _)).
  - apply Forall_app in Hm as [_ Hm]. inversion Hm; subst. unfold lsn_lt in *.
    rewrite (proj2 (N.ltb_ge _ _)) by lia. by apply IH.
Qed.

Lemma next_first_le before seg rest m :
  StronglySorted lsn_lt (before ++ seg :: rest) → m ∈ rest →
  next_first_lsn (before ++ seg :: rest) seg ≤ sm_first_lsn m.
Proof.
  intros Hs Hm. rewrite next_first_spec by done. apply StronglySorted_app in Hs as (_ & _ & Hs).
  apply StronglySorted_cons in Hs as [_ Hs]. destruct rest as [|m' rest]; [set_solver|]. simpl.
  apply StronglySorted_cons in Hs as [Hr _]. apply elem_of_cons in Hm as [->|Hm]; [done|].
  rewrite Forall_forall in Hr. specialize (Hr m Hm). unfold lsn_lt in Hr. lia.
Qed.

Lemma next_first_ge all m : sm_first_lsn m < 2 ^ 64 → sm_first_lsn m ≤ next_first_lsn all m.
Proof.
  intros Hm. unfold next_first_lsn. destruct (List.find _ all) as [x|] eqn:Hf; simpl; [|lia].
  apply List.find_some in Hf as [_ Hf%N.ltb_lt]. lia.
Qed.

(** [dir'] is [dir] without the segments [gone]; of their double-write buffers
    any may be left. *)
Definition without (dir dir' : WalDir) (gone : list SegmentMeta) : Prop :=
  (∀ m, m ∈ gone → dir' !! sm_path m = None) ∧
  (∀ p, (∀ m, m ∈ gone → p ≠ sm_path m ∧ p ≠ dwb_path m) → dir' !! p = dir !! p) ∧
  (∀ p, is_Some (dir' !! p) → is_Some (dir !! p)).

Lemma without_nil dir : without dir dir [].
Proof. split_and!; [set_solver|done|done]. Qed.

(** One segment removed with its buffer or without it, then others. *)
Lemma without_cons dir dir' seg gone (rm : bool) :
  without (if rm then delete (dwb_path seg) (delete (sm_path seg) dir) else delete (sm_path seg) dir)
    dir' gone → without dir dir' (seg :: gone).
Proof.
  intros (Hno & Hsame & Hsub). set (dir1 := if rm then _ else _) in *.
  assert (∀ p, is_Some (dir1 !! p) → p ≠ sm_path seg ∧ is_Some (dir !! p)) as Hd1.
  { intros p. unfold dir1. destruct rm; rewrite !lookup_delete_is_Some; naive_solver. }
  split_and!.
  - intros m [->|Hm]%elem_of_cons; [|by apply Hno].
    destruct (dir' !! sm_path seg) as [f|] eqn:Hf; [|done].
    by destruct (Hd1 (sm_path seg) (Hsub _ ltac:(by eexists))).
  - intros p Hp. rewrite Hsame by (intros m Hm; apply Hp; by right).
    destruct (Hp seg ltac:(left)) as [H1 H2]. unfold dir1.
    destruct rm; by rewrite !lookup_delete_ne by done.
  - intros p Hp. by apply Hd1, Hsub.
Qed.

Lemma truncate_rest_kept env all cp active rest : ∀ n b dir,
  (∀ m, m ∈ rest → cp < next_first_lsn all m) →
  truncate_loop env all cp active rest n b dir = (dir, Ok (MkTruncateResult n b)).
Proof.
  induction rest as [|seg rest IH]; intros n b dir Hr; [done|]. simpl.
  rewrite (proj2 (N.leb_gt _ _)) by (apply Hr; left).
  rewrite IH by (intros m Hm; apply Hr; by right). by destruct (_ =? _).
Qed.

(** However the removals end, an oldest part of the segments is gone. *)
Lemma truncate_loop_spec env all cp active : ∀ rest before n b dir dir' r,
  all = before ++ rest → StronglySorted lsn_lt all →
  (∀ m, m ∈ all → sm_first_lsn m < 2 ^ 64 ∧ sm_first_lsn m ≤ active) →
  truncate_loop env all cp active rest n b dir = (dir', r) →
  ∃ gone kept, rest = gone ++ kept ∧
    Forall (λ m, next_first_lsn all m ≤ cp ∧ sm_first_lsn m ≠ active) gone ∧ without dir dir' gone.
Proof.
  induction rest as [|seg rest IH]; intros before n b dir dir' r Hall Hs Hle.
  { intros [= <- <-]. exists [], []. split_and!; [done|constructor|apply without_nil]. }
  assert (StronglySorted lsn_lt (seg :: rest)) as Hsr
    by (rewrite Hall in Hs; by apply StronglySorted_app in Hs as (_ & _ & ?)).
  apply StronglySorted_cons in Hsr as [Hlt Hsr]. rewrite Forall_forall in Hlt. simpl.
  destruct (N.eqb_spec (sm_first_lsn seg) active) as [Ha|Ha].
  { destruct rest as [|m rest].
    - intros [= <- <-]. exists [], [seg]. split_and!; [done|constructor|apply without_nil].
    - exfalso. specialize (Hlt m ltac:(left)). unfold lsn_lt in Hlt.
      destruct (Hle m); [rewrite Hall; set_solver|lia]. }
  destruct (N.leb_spec (next_first_lsn all seg) cp) as [Hn|Hn].
  - unfold remove_file at 1. destruct (dir !! sm_path seg) as [f|].
    2:{ intros [= <- <-]. exists [], (seg :: rest). split_and!; [done|constructor|apply without_nil]. }
    destruct (te_remove env (sm_path seg)).
    2:{ intros [= <- <-]. exists [], (seg :: rest). split_and!; [done|constructor|apply without_nil]. }
    unfold remove_file. destruct (delete (sm_path seg) dir !! dwb_path seg) as [g|].
    1: destruct (te_remove env (dwb_path seg)).
    + intros Ht. apply (IH (before ++ [seg])) in Ht as (gone & kept & -> & Hg & Hw);
        [|by rewrite <-app_assoc|done|done].
      exists (seg :: gone), kept. split_and!; [done|by constructor|by apply (without_cons _ _ _ _ true)].
    + intros [= <- <-]. exists [seg], rest. split_and!; [done|by repeat constructor|].
      apply (without_cons _ _ _ _ false), without_nil.
    + intros Ht. apply (IH (before ++ [seg])) in Ht as (gone & kept & -> & Hg & Hw);
        [|by rewrite <-app_assoc|done|done].
      exists (seg :: gone), kept. split_and!; [done|by constructor|by apply (without_cons _ _ _ _ false)].
  - rewrite truncate_rest_kept.
    { intros [= <- <-]. exists [], (seg :: rest). split_and!; [done|constructor|apply without_nil]. }
    intros m Hm. eapply N.lt_le_trans; [exact Hn|]. etrans.
    + rewrite Hall. apply (next_first_le before seg rest m); [by rewrite <-Hall|done].
    + apply next_first_ge. apply Hle. rewrite Hall. set_solver.
Qed.

Lemma without_discover dir dir' gone kept :
  names_unique dir → discover_segments dir = gone ++ kept → without dir dir' gone →
  discover_segments dir' = kept ∧
  ∀ m, m ∈ kept → dir !! sm_path m = dir' !! sm_path m ∧ dir !! dwb_path m = dir' !! dwb_path m.
Proof.
  intros Hu Hd (Hno & Hsame & Hsub).
  pose proof (discover_sorted dir Hu) as Hs. rewrite Hd in Hs. apply StronglySorted_app in Hs as (Hlt & _ & Hs).
  assert (∀ m, m ∈ kept → dir !! sm_path m = dir' !! sm_path m ∧ dir !! dwb_path m = dir' !! dwb_path m)
    as Heq.
  { intros m Hm. destruct (discover_path dir m) as [_ Hp]; [rewrite Hd; set_solver|].
    assert (∀ g, g ∈ gone → sm_path m ≠ sm_path g ∧ sm_path m ≠ dwb_path g ∧
      dwb_path m ≠ sm_path g ∧ dwb_path m ≠ dwb_path g) as Hne.
    { intros g Hg. destruct (discover_path dir g) as [_ Hq]; [rewrite Hd; set_solver|].
      specialize (Hlt g m Hg Hm). unfold lsn_lt in Hlt.
      assert (sm_path m ≠ sm_path g) as Hmg
        by (intros Heq; rewrite Heq, Hq in Hp; injection Hp as Hp; lia).
      split_and!; [done| | |].
      - intros Heq. pose proof (dwb_not_segment (sm_path g)) as Hn. unfold dwb_path in Heq. congruence.
      - intros Heq. pose proof (dwb_not_segment (sm_path m)) as Hn. unfold dwb_path in Heq. congruence.
      - intros Heq. apply Hmg. by eapply dwb_name_inj. }
    rewrite !Hsame; [done|..]; intros g Hg; specialize (Hne g Hg); naive_solver. }
  split; [|done]. apply discover_unique; [by eapply names_unique_sub|done|].
  intros m. rewrite elem_of_discover. split.
  - intros Hm. rewrite <-(proj1 (Heq m Hm)). apply elem_of_discover. rewrite Hd. set_solver.
  - intros (f & Hf & Hp & Hz). destruct (Hsub (sm_path m)) as [g Hg]; [by eexists|].
    assert (MkSegmentMeta (sm_path m) (sm_first_lsn m) (flen (sf_bytes g)) ∈ gone ++ kept) as Hin
      by (rewrite <-Hd; apply elem_of_discover; by exists g).
    apply elem_of_app in Hin as [Hin|Hin].
    { pose proof (Hno _ Hin) as Hn. simpl in Hn. congruence. }
    pose proof (proj1 (Heq _ Hin)) as Hfg. simpl in Hfg. rewrite Hg, Hf in Hfg. injection Hfg as ->.
    rewrite <-Hz in Hin. by destruct m.
Qed.

(** Every record of a segment lies below the first LSN of the next one. *)
Definition segments_ordered (dir : WalDir) (keys : option KeyRing) : Prop :=
  ∀ seg f rd rs rd' e, seg ∈ discover_segments dir → dir !! sm_path seg = Some f →
    reader_open (sf_bytes f) (sf_bytes <$> dir !! dwb_path seg) keys = Ok rd →
    records rd = Some (rs, rd', e) →
    Forall (λ r, lsn_of r < next_first_lsn (discover_segments dir) seg) rs.

(** Replay passes over an oldest part of the segments below the requested
    LSN. *)
Lemma replay_skip_all dir from max keys gone kept x : ∀ c,
  (∀ seg f rd rs rd' e, seg ∈ gone → dir !! sm_path seg = Some f →
     reader_open (sf_bytes f) (sf_bytes <$> dir !! dwb_path seg) keys = Ok rd →
     records rd = Some (rs, rd', e) → Forall (λ r, lsn_of r < from) rs) →
  replay_segments dir from max keys (gone ++ kept) [] c = Some (Ok x) →
  ∃ c', replay_segments dir from max keys kept [] c' = Some (Ok x).
Proof.
  induction gone as [|seg gone IH]; intros c Hb Hx; [by eexists|].
  apply replay_skip in Hx as [c' Hx]; [|intros; eapply Hb; eauto; left].
  apply (IH c'); [|done]. intros seg' f rd rs rd' e Hin. apply Hb. by right.
Qed.

(** C12. Truncation at a checkpoint, complete or stopped by a removal or a
    directory fsync that fails, leaves every replay from the checkpoint on as it
    was: what it returned before it still returns, page by page. The active
    segment is the newest one, and each segment's records lie below the first LSN
    of the next. *)
Theorem truncation_keeps_suffix dir env cp active keys from max x :
  names_unique dir → segments_ordered dir keys →
  (∀ m, m ∈ discover_segments dir → sm_first_lsn m ≤ active) → cp ≤ from →
  replay_from_limit_dir dir from max keys = Some (Ok x) →
  replay_from_limit_dir (truncate_segments env cp active dir).1 from max keys = Some (Ok x).
Proof.
  intros Hu Ho Ha Hcp Hx. set (segs := discover_segments dir) in *.
  destruct (truncate_loop env segs cp active segs 0 0 dir) as [dir' r] eqn:Ht.
  assert ((truncate_segments env cp active dir).1 = dir') as ->.
  { unfold truncate_segments. fold segs. rewrite Ht. by repeat case_match. }
  apply (truncate_loop_spec _ _ _ _ _ []) in Ht as (gone & kept & Hd & Hg & Hw);
    [|done|by apply discover_sorted|].
  2:{ intros m Hm. split; [|by apply Ha]. by eapply parse_segment_lt, discover_path. }
  destruct (without_discover _ _ _ _ Hu Hd Hw) as [Hd' Heq]. revert Hx.
  unfold replay_from_limit_dir. fold segs. rewrite Hd'.
  destruct (check_retained_floor segs from) as [[]|] eqn:Hf; [|done]. intros Hx.
  assert (check_retained_floor kept from = Ok tt) as ->.
  { unfold check_retained_floor in *. destruct (from =? 0); [done|]. destruct kept as [|k kept]; [done|].
    destruct gone as [|g gone _] using rev_ind; [by rewrite Hd in Hf|].
    apply Forall_app in Hg as [_ Hg]. inversion Hg as [|? ? [Hn _]]; subst.
    rewrite Hd, <-app_assoc in Hn. simpl in Hn. rewrite next_first_spec in Hn. 
    - simpl in Hn. by rewrite (proj2 (N.leb_le _ _)) by lia.
    - pose proof (discover_sorted dir Hu) as Hs. fold segs in Hs. by rewrite Hd, <-app_assoc in Hs. }
  rewrite Hd in Hx. apply replay_skip_all in Hx as [c Hx].
  - rewrite <-(replay_segments_ext dir) by done.
    eapply replay_weaken; [simpl; lia| |exact Hx]. by right.
  - intros seg f rd rs rd' e Hin Hl Hr Hrs. rewrite Forall_forall in Hg. destruct (Hg seg Hin) as [Hn _].
    assert (seg ∈ segs) as Hseg by (rewrite Hd; set_solver).
    eapply Forall_impl; [exact (Ho _ _ _ _ _ _ Hseg Hl Hr Hrs)|]. fold segs. simpl. intros. lia.
Qed.

(** ** Holes *)

(** Each segment starts where the one before it ends. *)
Fixpoint lsn_chain (start : u64) (segs : list SegmentMeta) (rss : list (list WalRecord)) : Prop :=
  match segs, rss with
  | seg :: segs, rs :: rss =>
      sm_first_lsn seg = start ∧ dense start rs ∧ lsn_chain (start + N.of_nat (length rs)) segs rss
  | [], [] => True
  | _, _ => False
  end.

Lemma dense_last start rs l :
  dense start rs → rs ≠ [] → last_lsn_of l rs + 1 = start + N.of_nat (length rs).
Proof.
  intros Hd Hne. destruct rs as [|r rs _] using rev_ind; [done|]. unfold last_lsn_of.
  rewrite last_snoc, length_app. simpl. fold (lsn_of r). rewrite (Hd (length rs) r); [lia|].
  by rewrite lookup_app_r, Nat.sub_diag by lia.
Qed.

Lemma dense_below start rs from :
  dense start rs → start + N.of_nat (length rs) ≤ from → Forall (λ r, lsn_of r < from) rs.
Proof.
  intros Hd Hle. apply Forall_lookup. intros i r Hi. rewrite (Hd i r Hi).
  apply lookup_lt_Some in Hi. lia.
Qed.

(** Where the check stands: at the end of a segment, or before the first. *)
Definition stands (from : u64) (c : SegmentContinuity) (start : u64) (recs : list WalRecord)
    (segs : list SegmentMeta) : Prop :=
  match sc_previous c with
  | Some l => l + 1 = start
  | None => recs = [] ∧ ∀ m, head segs = Some m → sm_first_lsn m ≤ from
  end.

Lemma last_cons_sublist {A} (x : A) (l k : list A) :
  x ∉ l → k `sublist_of` l → last (x :: k) = last (x :: l) → last k = last l.
Proof.
  intros Hx Hs. rewrite !last_cons. destruct (last l) as [y|] eqn:Hl, (last k) as [z|] eqn:Hk; try done.
  - intros [= ->]. apply last_Some in Hl as [l' ->]. set_solver.
  - apply last_None in Hl as ->. apply sublist_nil_r in Hs as ->. done.
Qed.

(** The segments that follow in a chain start at its end or later. *)
Lemma chain_next_le start segs rss m :
  lsn_chain start segs rss → StronglySorted lsn_lt segs → m ∈ segs → start ≤ sm_first_lsn m.
Proof.
  destruct segs as [|m' segs], rss as [|rs rss]; [set_solver|done..|]. intros [Hm' _].
  intros [Hgt _]%StronglySorted_cons. rewrite Forall_forall in Hgt.
  intros [->|Hm]%elem_of_cons; [lia|]. specialize (Hgt m Hm). unfold lsn_lt in Hgt. lia.
Qed.

Lemma replay_holes dir keys from max : ∀ segs rss segs' recs c start x,
  Forall2 (seg_read dir keys) segs rss → lsn_chain start segs rss → StronglySorted lsn_lt segs →
  (∀ m, m ∈ segs → sm_first_lsn m < 2 ^ 64) → 0 < start →
  segs' `sublist_of` segs → last segs' = last segs → stands from c start recs segs' →
  N.of_nat (length recs) < N.max 1 max →
  replay_segments dir from max keys segs' recs c = Some (Ok x) →
  x = cut max (recs ++ from_on from (mjoin rss)).
Proof.
  induction segs as [|seg segs IH]; intros rss segs' recs c start x Hrs Hc Hso Hlt Hst Hsub Hlast Hs Hl;
    inversion Hrs as [|? rs ? rss1 Hr Hrs1]; subst.
  { apply sublist_nil_r in Hsub as ->. intros [= <-]. simpl. by rewrite app_nil_r, cut_short. }
  destruct Hc as (Hf & Hd & Hc). apply StronglySorted_cons in Hso as [Hgt Hso].
  rewrite Forall_forall in Hgt. unfold lsn_lt in Hgt.
  assert (rs = [] → segs = []) as Hempty.
  { intros ->. destruct segs as [|m segs]; [done|]. specialize (Hgt m ltac:(left)).
    destruct rss1; [done|]. destruct Hc as [Hm _]. simpl in Hm. lia. }
  simpl mjoin. rewrite from_on_app, app_assoc. inversion Hsub as [|? k ? Hsub'|? k ? Hsub']; subst.
  - intros Hx. pose proof (replay_segments_inv _ _ _ _ _ _ _ _ _ Hl Hx) as [Hk _].
    rewrite (replay_segments_cons _ _ _ _ _ _ _ _ _ Hk Hr Hl) in Hx.
    destruct (N.leb_spec (N.max 1 max) (N.of_nat (length (recs ++ from_on from rs)))) as [Hm|Hm].
    { injection Hx as <-. by rewrite (cut_app_hit _ (recs ++ _)). }
    assert (last k = last segs) as Hlk.
    { eapply last_cons_sublist; [|exact Hsub'|exact Hlast]. intros Hin. specialize (Hgt _ Hin). lia. }
    destruct (decide (rs = [])) as [->|Hne].
    + rewrite (Hempty eq_refl) in *. inversion Hrs1; subst. apply sublist_nil_r in Hsub' as ->.
      injection Hx as <-. simpl. rewrite !app_nil_r. by rewrite cut_short.
    + eapply IH; try done; [|lia|]. 1: intros m Hin; apply Hlt; by right.
      unfold stands, continuity_completed. pose proof (dense_last _ _ 0 Hd Hne) as Hdl.
      assert (length rs ≠ 0%nat) by by destruct rs. by rewrite (proj2 (N.eqb_neq _ _)) by lia.
  - destruct segs' as [|m k]; [by rewrite last_cons in Hlast; destruct (last segs)|].
    assert (m ∈ segs) as Hm by (eapply elem_of_submseteq; [left|by apply sublist_submseteq]).
    pose proof (chain_next_le _ _ _ _ Hc Hso Hm) as Hle.
    specialize (Hgt m Hm). unfold stands in Hs. destruct (sc_previous c) as [l|] eqn:Hp.
    + intros Hx. apply replay_segments_inv in Hx as [Hk _]; [|done]. unfold continuity_check in Hk.
      rewrite Hp, (proj2 (N.ltb_lt _ _)) in Hk; [done|]. unfold sat_add64. lia.
    + destruct Hs as [-> Hh]. rewrite (from_on_below from rs)
        by (eapply dense_below; [done|]; specialize (Hh m eq_refl); lia).
      eapply IH; try done; [by intros m' Hin; apply Hlt; right|lia| |].
      * rewrite Hlast. destruct segs; [set_solver|done].
      * unfold stands. by rewrite Hp.
Qed.

Lemma chain_linked segs : ∀ rss c start,
  lsn_chain start segs rss → 0 < start → (∀ l, sc_previous c = Some l → l + 1 = start) →
  (∀ m, m ∈ segs → sm_first_lsn m < 2 ^ 64) → linked c segs rss.
Proof.
  induction segs as [|seg segs IH]; intros rss c start Hc Hst Hp Hlt; [done|].
  destruct rss as [|rs rss]; [done|]. destruct Hc as (Hf & Hd & Hc). split.
  - unfold continuity_check. destruct (sc_previous c) as [l|]; [|done].
    specialize (Hp l eq_refl). specialize (Hlt seg ltac:(left)). unfold sat_add64, u64_max.
    by rewrite (proj2 (N.ltb_ge _ _)) by lia.
  - apply (IH _ _ (start + N.of_nat (length rs))); [done|lia| |by intros; apply Hlt; right].
    intros l. unfold continuity_completed. destruct (decide (rs = [])) as [->|Hne].
    + simpl. rewrite N.add_0_r. apply Hp.
    + pose proof (dense_last _ _ 0 Hd Hne). assert (length rs ≠ 0%nat) by by destruct rs.
      rewrite (proj2 (N.eqb_neq _ _)) by lia. by intros [= <-].
Qed.

(** [dir'] is [dir] with segment files missing. *)
Definition segments_missing (dir dir' : WalDir) : Prop := ∀ p,
  dir' !! p = dir !! p ∨ dir' !! p = None ∧ is_Some (parse_segment_filename p).

Lemma missing_discover dir dir' :
  names_unique dir → segments_missing dir dir' →
  discover_segments dir' `sublist_of` discover_segments dir ∧
  ∀ m, m ∈ discover_segments dir' →
    dir !! sm_path m = dir' !! sm_path m ∧ dir !! dwb_path m = dir' !! dwb_path m.
Proof.
  intros Hu Hm. split.
  - assert (discover_segments dir' = filter (λ m, is_Some (dir' !! sm_path m)) (discover_segments dir))
      as ->; [|apply sublist_filter].
    apply discover_unique.
    + apply (names_unique_sub dir); [done|]. intros p [f Hf]. destruct (Hm p) as [<-|[Hn _]]; [by eexists|].
      congruence.
    + apply StronglySorted_filter. by apply discover_sorted.
    + intros m. rewrite list_elem_of_filter, !elem_of_discover. destruct (Hm (sm_path m)) as [->|[Hn _]].
      * naive_solver.
      * rewrite Hn. split; [intros [[] _]; done|intros (f & ? & _); done].
  - intros m [[f Hf] Hp]%discover_path. split.
    + destruct (Hm (sm_path m)) as [->|[Hn _]]; [done|congruence].
    + destruct (Hm (dwb_path m)) as [->|[_ [l Hl]]]; [done|]. unfold dwb_path in Hl.
      by rewrite dwb_not_segment in Hl.
Qed.


(** ** A chain of segments is in order *)

Lemma lsn_chain_app start l1 l2 r1 r2 :
  length l1 = length r1 → lsn_chain start (l1 ++ l2) (r1 ++ r2) →
  lsn_chain (start + N.of_nat (length (mjoin r1))) l2 r2.
Proof.
  revert start r1. induction l1 as [|m l1 IH]; intros start [|rs r1] Hl; try done; simpl.
  - by rewrite N.add_0_r.
  - intros (_ & _ & Hc). apply IH in Hc; [|by injection Hl]. rewrite length_app.
    by replace (start + N.of_nat (length rs + length (mjoin r1)))
      with (start + N.of_nat (length rs) + N.of_nat (length (mjoin r1))) by lia.
Qed.

Lemma chain_ordered dir keys start rss :
  names_unique dir → Forall2 (seg_read dir keys) (discover_segments dir) rss →
  lsn_chain start (discover_segments dir) rss → start + N.of_nat (length (mjoin rss)) < 2 ^ 64 →
  segments_ordered dir keys.
Proof.
  intros Hu Hrs Hc Hb seg f rd rs rd' e Hin Hf Ho Hr. pose proof (discover_sorted dir Hu) as Hs.
  apply list_elem_of_split in Hin as (l1 & l2 & Heq). rewrite Heq in *.
  apply Forall2_app_inv_l in Hrs as (r1 & r2 & Hr1 & Hr2 & ->).
  apply Forall2_cons_inv_l in Hr2 as (rs' & r2' & (f' & rd1 & rd2 & Hf' & Ho' & Hr' & _) & _ & ->).
  rewrite Hf in Hf'. injection Hf' as <-. rewrite Ho in Ho'. injection Ho' as <-.
  rewrite Hr in Hr'. injection Hr' as <- _ _. apply lsn_chain_app in Hc; [|by eapply Forall2_length]. destruct Hc as (Hfst & Hd & Hc).
  rewrite next_first_spec by done. eapply dense_below; [exact Hd|].
  rewrite join_app, length_app in Hb. simpl in Hb. rewrite length_app in Hb.
  destruct l2 as [|m l2]; simpl; [lia|]. destruct r2'; [done|]. destruct Hc as [-> _]. done.
Qed.
End replay.
