(* ===== verification/WalSegmented.v ===== *)
(** * The segmented WAL keeps what it acknowledged

    A log that appends, rolls, syncs and truncates, whatever its system calls
    return, as long as a failed roll removes the file it created: after a sync
    replay from any LSN at or above the checkpoints returns exactly the records
    accepted from there on, in the order of their LSNs. Encryption is off. *)

From stdpp Require Import base option strings gmap sorting list.
From S2P Require Import Prelude WalRecord WalRecordFacts WalReader WalReaderFacts WalRecovery WalWriter.
From S2P Require Import WalWriterFacts WalCrash WalSegments WalSegmentsFacts WalReplay.

Open Scope N_scope.

(** ** Nothing past the buffer *)

Lemma pwrite_loop_end os : ∀ off data f f' r,
  pwrite_loop os off data f = (f', r) → off ≤ flen (sf_bytes f) →
  flen (sf_bytes f') ≤ N.max (flen (sf_bytes f)) (off + flen data).
Proof.
  induction os as [|o os IH]; intros off data f f' r; destruct data as [|b data]; simpl pwrite_loop.
  1, 3: intros [= <- <-]; lia.
  - intros [= <- <-] Ho. unfold flen in *. simpl sf_bytes. rewrite length_overwrite. lia.
  - destruct o as [n|[]]; [|by intros [= <- <-]; lia ..].
    set (m := N.min n (flen (b :: data))). destruct (N.eqb_spec m 0) as [|Hm]; [by intros [= <- <-]; lia|].
    intros Hl Ho. assert (m ≤ flen (b :: data)) as Hmle by lia. clearbody m.
    assert (length (take (N.to_nat m) (b :: data)) = N.to_nat m) as Htl
      by (rewrite length_take; unfold flen in *; lia).
    assert (flen (sf_bytes (sf_pwrite off (take (N.to_nat m) (b :: data)) f)) =
      N.max (flen (sf_bytes f)) (off + m)) as Hf.
    { unfold flen in *. simpl sf_bytes. rewrite length_overwrite, Htl. lia. }
    apply IH in Hl; [|rewrite Hf; lia]. rewrite Hf in Hl.
    assert (flen (drop (N.to_nat m) (b :: data)) = flen (b :: data) - m) as Hd
      by (unfold flen; rewrite length_drop; lia).
    rewrite Hd in Hl. lia.
Qed.

Section tail.
Context `{Crc32c, !Crc32cLaws, Aes256Gcm} {D : Type} `{DoubleWriteBuffer D}.
Implicit Types (w : WalWriter D).

(** The file ends at the latest where the buffer, written there, would end. *)
Definition no_tail w : Prop :=
  flen (sf_bytes (ww_file w)) ≤ ww_file_offset w + ab_len (ww_buffer w).

(** Nothing was written or buffered. *)
Definition idle w : Prop := ww_file_offset w = 0 ∧ ab_len (ww_buffer w) = 0.

Lemma core_tail w w' : core w' = core w → no_tail w → no_tail w'.
Proof. unfold core, no_tail. by intros [= -> -> -> _ _]. Qed.

Lemma core_idle w w' : core w' = core w → idle w → idle w'.
Proof. unfold core, idle. by intros [= _ -> -> _ _]. Qed.

Lemma flush_empty os w : ab_len (ww_buffer w) = 0 → flush_buffer os w = (w, Ok tt).
Proof. intros Hz. unfold flush_buffer, ab_is_empty. by rewrite Hz. Qed.

Lemma flush_ok_empty os w w' : flush_buffer os w = (w', Ok tt) → ab_len (ww_buffer w') = 0.
Proof.
  unfold flush_buffer, ab_is_empty. destruct (N.eqb_spec (ab_len (ww_buffer w)) 0) as [Hz|Hz];
    [by intros [= <-]|].
  destruct (if wc_use_direct_io _ then _ else _) as [w1 [data|e]]; [|done].
  destruct (pwrite_loop _ _ data _) as [f [[]|e]]; [|done]. by intros [= <-].
Qed.

Lemma flush_tail os w acked recov pending pre rs rsF rsR rsA w' r :
  writer_inv w acked recov pending pre rs rsF rsR rsA → flush_buffer os w = (w', r) →
  no_tail w → no_tail w'.
Proof.
  intros Hinv. unfold flush_buffer, ab_is_empty.
  destruct (N.eqb_spec (ab_len (ww_buffer w)) 0) as [Hz|Hz]; [by intros [= <- <-]|].
  set (prep := if wc_use_direct_io _ then _ else _).
  assert (∃ b res, prep = (w {{ ww_buffer := b }}, res) ∧ ab_len (ww_buffer w) ≤ ab_len b ∧
    ∀ data, res = Ok data → flen data = ab_len b) as (b & res & -> & Hle & Hdata).
  { unfold prep. destruct (wc_use_direct_io (ww_config w)).
    2:{ eexists (ww_buffer w), _. split; [by destruct w|]. split; [done|]. intros data [= <-].
        apply flen_as_slice. by eapply wi_buf. }
    destruct (wi_config _ _ _ _ _ _ _ _ _ Hinv) as (k & Hk & Hka).
    pose proof (wi_align _ _ _ _ _ _ _ _ _ Hinv) as Ha. rewrite Hka in *.
    destruct (pad_buffer_to_alignment (2 ^ k) (ww_buffer w)) as [b pr] eqn:Hp.
    pose proof (wi_buf _ _ _ _ _ _ _ _ _ Hinv) as Hb0.
    apply pad_buffer_spec in Hp as (Hb & Hc & Hal & Hmod & pads & Hs & _); try done;
      [|by eapply wi_capacity].
    assert (ab_len (ww_buffer w) ≤ ab_len b) as Hle.
    { rewrite <-(flen_as_slice b), <-(flen_as_slice (ww_buffer w)), Hs, flen_app by done. lia. }
    exists b. destruct pr as [[]|e]; eexists; (split; [reflexivity|]); (split; [done|]); [|done].
    intros data [= <-]. rewrite (as_aligned_slice_aligned _ k); [by apply flen_as_slice|done|by rewrite Hal|by apply Hmod]. }
  destruct res as [data|e]; [|intros [= <- <-]; unfold no_tail; simpl; lia].
  specialize (Hdata data eq_refl). unfold no_tail. simpl.
  destruct (pwrite_loop os (ww_file_offset w) data (ww_file w)) as [f r1] eqn:Hp.
  apply pwrite_loop_end in Hp; [|by eapply wi_room].
  destruct r1 as [[]|e]; intros [= <- <-] Ht; simpl; lia.
Qed.

(** Flushing uses no LSN and does not poison. *)
Lemma flush_next os w w' r :
  flush_buffer os w = (w', r) → ww_next_lsn w' = ww_next_lsn w ∧
  (ww_durability w ≠ Poisoned → ww_durability w' ≠ Poisoned).
Proof.
  unfold flush_buffer. intros Hf. repeat case_match; simplify_eq; split; try done;
    simpl; match goal with |- context [record_flush (ww_durability ?x)] => by destruct (ww_durability x) end.
Qed.

Lemma append_next os target payload key extra w w' r :
  append_reserving os target payload key extra w = (w', r) →
  ww_next_lsn w' = ww_next_lsn w + (if is_ok r then 1 else 0) ∧
  (ww_durability w ≠ Poisoned → ww_durability w' ≠ Poisoned).
Proof.
  unfold append_reserving. destruct (ww_sealed w); [intros [= <- <-]; simpl; split; [lia|done]|].
  destruct (durability_check _); [|intros [= <- <-]; simpl; split; [lia|done]].
  destruct (new_stamped _ _) as [rec|e]; [|intros [= <- <-]; simpl; split; [lia|done]].
  case_match; [intros [= <- <-]; simpl; split; [lia|done]|].
  set (flushed := if ab_remaining _ <? _ then _ else _). intros Ha.
  assert (ww_next_lsn flushed.1 = ww_next_lsn w ∧
    (ww_durability w ≠ Poisoned → ww_durability flushed.1 ≠ Poisoned)) as [Hn Hd].
  { unfold flushed. destruct (ab_remaining _ <? _); [|done].
    destruct (flush_buffer os w) as [w1 u] eqn:Hf. by apply flush_next in Hf. }
  destruct flushed as [w1 [u|e]]; simpl in Hn, Hd; injection Ha as <- <-; simpl; [|split; [lia|done]].
  split; [done|]. intros Hp. specialize (Hd Hp).
  pose proof (mirror_core rec (w1 {{ ww_buffer ::= ab_write (header_to_bytes (wr_header rec)) }}
    {{ ww_buffer ::= ab_write (wr_payload rec) }})) as [Hc _].
  injection Hc as _ _ _ Hdur _. simpl in Hdur. congruence.
Qed.

Lemma anchor_next os stamp w w' r :
  append_time_anchor stamp os w = (w', r) →
  ww_next_lsn w' ≤ ww_next_lsn w + 1 ∧ (ww_durability w ≠ Poisoned → ww_durability w' ≠ Poisoned).
Proof.
  unfold append_time_anchor. destruct (negb _); [intros [= <- <-]; split; [lia|done]|].
  destruct (negb _); [intros [= <- <-]; split; [lia|done]|].
  destruct (append_reserving _ _ _ _ _ w) as [w1 u] eqn:Ha. apply append_next in Ha as [Hn Hd].
  destruct u; intros [= <- <-]; simpl in *; (split; [lia|done]).
Qed.

Lemma append_tail os target payload key extra w acked recov pending pre rs rsF rsR rsA w' res :
  writer_inv w acked recov pending pre rs rsF rsR rsA →
  append_reserving os target payload key extra w = (w', res) → no_tail w → no_tail w'.
Proof.
  intros Hinv. unfold append_reserving.
  destruct (ww_sealed w); [by intros [= <- <-]|]. destruct (durability_check _); [|by intros [= <- <-]].
  destruct (new_stamped _ _) as [r|e]; [|by intros [= <- <-]]. case_match; [by intros [= <- <-]|].
  set (flushed := if ab_remaining _ <? _ then _ else _). intros Ha Ht.
  assert (no_tail flushed.1) as Hf.
  { unfold flushed. destruct (ab_remaining _ <? _); [|done]. destruct (flush_buffer os w) as [w1 u] eqn:Hfl.
    by eapply flush_tail. }
  destruct flushed as [w1 [u|e]]; simpl in Hf; [|by injection Ha as <- <-]. injection Ha as <- <-.
  match goal with |- no_tail ?x => apply (core_tail (mirror_into_dwb r (w1
    {{ ww_buffer ::= ab_write (header_to_bytes (wr_header r)) }} {{ ww_buffer ::= ab_write (wr_payload r) }})) x) end;
    [done|].
  eapply core_tail; [apply mirror_core|]. unfold no_tail in *. simpl. unfold ab_write. simpl. lia.
Qed.

Lemma append_idle os target payload key extra w w' e :
  append_reserving os target payload key extra w = (w', Err e) → idle w → idle w'.
Proof.
  unfold append_reserving. destruct (ww_sealed w); [by intros [= <- <-]|].
  destruct (durability_check _); [|by intros [= <- <-]].
  destruct (new_stamped _ _) as [r|err]; [|by intros [= <- <-]]. case_match; [by intros [= <- <-]|].
  intros Ha [Ho Hz]. rewrite flush_empty in Ha by done. revert Ha. by destruct (ab_remaining _ <? _).
Qed.

Lemma anchor_tail os stamp w acked recov pending pre rs rsF rsR rsA w' res :
  writer_inv w acked recov pending pre rs rsF rsR rsA →
  append_time_anchor stamp os w = (w', res) → no_tail w → no_tail w'.
Proof.
  intros Hinv. unfold append_time_anchor. destruct (negb _); [by intros [= <- <-]|].
  destruct (negb _); [by intros [= <- <-]|].
  destruct (append_reserving _ _ _ _ _ w) as [w1 u] eqn:Ha. intros Hs Ht.
  assert (no_tail w1) by by eapply append_tail. by destruct u; injection Hs as <- <-.
Qed.

(** A sync in its steps: nothing to do, or an anchor, a flush and an fsync. *)
Lemma sync_steps env w w' r :
  sync env w = (w', r) →
  w' = w ∧ (r = Ok tt → should_skip_sync (ab_is_empty (ww_buffer w)) (ww_durability w) = true) ∨
  ∃ w1 u1, append_time_anchor (se_stamp env) (se_anchor_writes env) w = (w1, u1) ∧
    (w' = w1 ∧ u1 ≠ Ok tt ∧ r ≠ Ok tt ∨
     ∃ w3 u3, flush_buffer (se_writes env) (flush_dwb w1) = (w3, u3) ∧
       sf_bytes (ww_file w') = sf_bytes (ww_file w3) ∧ ww_buffer w' = ww_buffer w3 ∧
       ww_file_offset w' = ww_file_offset w3 ∧ ww_next_lsn w' = ww_next_lsn w3 ∧
       (r = Ok tt → u3 = Ok tt ∧ ww_durability w' = record_sync_ok (ww_durability w3))).
Proof.
  unfold sync. destruct (durability_check _) as [[]|e]; [|intros [= <- <-]; by left].
  destruct (should_skip_sync _ _) eqn:Hsk; [intros [= <- <-]; by left|].
  destruct (append_time_anchor _ _ w) as [w1 [[]|e]]; intros Hs; right; eexists _, _; (split; [reflexivity|]).
  2:{ injection Hs as <- <-. by left. }
  right. destruct (flush_buffer _ (flush_dwb w1)) as [w3 [[]|e]]; eexists _, _; (split; [reflexivity|]).
  2:{ injection Hs as <- <-. by split_and!. }
  unfold fsync_and_track in Hs. destruct (se_fsync env); injection Hs as <- <-; [|by split_and!].
  unfold publish_time_anchor. by repeat case_match.
Qed.

Lemma sync_tail env w acked recov pending pre rs rsF rsR rsA w' r :
  writer_inv w acked recov pending pre rs rsF rsR rsA → ww_next_lsn w < 2 ^ 64 →
  sync env w = (w', r) → no_tail w → no_tail w'.
Proof.
  intros Hinv Hl Hs Ht. apply sync_steps in Hs as [[-> _]|(w1 & u1 & Ha & Hs)]; [done|].
  pose proof (anchor_tail _ _ _ _ _ _ _ _ _ _ _ _ _ Hinv Ha Ht) as Ht1.
  destruct (anchor_inv _ _ _ _ _ _ _ _ _ _ _ _ _ Hinv Hl Ha) as
    (_ & anchors & rs1 & rsF1 & _ & _ & _ & Hinv1).
  destruct Hs as [[-> _]|(w3 & u3 & Hf & Hb & Hbuf & Ho & _)]; [done|].
  pose proof (flush_dwb_core w1) as [Hd _].
  apply (flush_tail _ _ _ _ _ _ _ _ _ _ _ _ (writer_inv_core _ _ _ _ _ _ _ _ _ _ Hd Hinv1)) in Hf.
  - unfold no_tail in *. by rewrite Hb, Hbuf, Ho.
  - by apply (core_tail w1).
Qed.

(** After a sync that succeeded the next one has nothing to do. *)
Lemma sync_again env w w' : sync env w = (w', Ok tt) → ∀ env', sync env' w' = (w', Ok tt).
Proof.
  intros Hs. assert (ww_durability w ≠ Poisoned) as Hp
    by (intros Hp; revert Hs; unfold sync; by rewrite Hp).
  apply sync_steps in Hs as [[-> Hz]|(w1 & u1 & Ha & [(_ & _ & Hn)|(w3 & u3 & Hf & _ & Hb & _ & _ & Hu)])];
    intros env'; [|done|].
  { unfold sync. rewrite (Hz eq_refl). by destruct (ww_durability w). }
  destruct (Hu eq_refl) as [-> Hd].
  assert (ww_durability w' = Synced) as Hsy.
  { apply anchor_next in Ha as [_ Ha]. specialize (Ha Hp).
    pose proof (flush_dwb_core w1) as [Hc _]. injection Hc as _ _ _ Hc _.
    pose proof (flush_next _ _ _ _ Hf) as [_ Hf3]. rewrite Hc in Hf3. specialize (Hf3 Ha).
    rewrite Hd. by destruct (ww_durability w3). }
  unfold sync, ab_is_empty. by rewrite Hsy, Hb, (flush_ok_empty _ _ _ Hf).
Qed.

Lemma sync_ok_empty env w w' : sync env w = (w', Ok tt) → ab_len (ww_buffer w') = 0.
Proof.
  intros [[-> Hz]|(w1 & u1 & _ & [(_ & _ & Hn)|(w3 & u3 & Hf & _ & Hb & _ & _ & Hu)])]%sync_steps; [|done|].
  - by apply andb_prop in Hz as [He%N.eqb_eq _].
  - rewrite Hb. rewrite (proj1 (Hu eq_refl)) in Hf. by eapply flush_ok_empty.
Qed.

Lemma sync_next env w w' r : sync env w = (w', r) → ww_next_lsn w' ≤ ww_next_lsn w + 1.
Proof.
  intros [[-> _]|(w1 & u1 & Ha & Hs)]%sync_steps; [lia|]. apply anchor_next in Ha as [Ha _].
  destruct Hs as [[-> _]|(w3 & u3 & Hf & _ & _ & _ & Hn & _)]; [done|].
  apply flush_next in Hf as [Hf _]. pose proof (flush_dwb_core w1) as (_ & Hd & _). lia.
Qed.

(** A sync that uses no LSN leaves an idle writer idle. *)
Lemma sync_idle env w w' r :
  sync env w = (w', r) → ww_next_lsn w' = ww_next_lsn w → idle w → idle w'.
Proof.
  intros Hs Hn Hi. apply sync_steps in Hs as [[-> _]|(w1 & u1 & Ha & Hs)]; [done|].
  assert (ww_next_lsn w1 = ww_next_lsn w → idle w1) as Hi1.
  { revert Ha. unfold append_time_anchor. destruct (negb _); [by intros [= <- <-]|].
    destruct (negb _); [by intros [= <- <-]|].
    destruct (append_reserving _ _ _ _ _ w) as [w2 [lsn|e]] eqn:Ha; intros [= <- <-]; simpl.
    - intros Hw. apply append_next in Ha as [Hn' _]. simpl in Hn'. lia.
    - intros _. by eapply append_idle. }
  destruct Hs as [[-> _]|(w3 & u3 & Hf & _ & Hb & Ho & Hn3 & _)]; [by apply Hi1|].
  pose proof (flush_dwb_core w1) as (Hd & Hdn & _).
  pose proof (proj1 (flush_next _ _ _ _ Hf)) as Hf3.
  assert (idle (flush_dwb w1)) as Hi2 by (eapply core_idle; [done|]; apply Hi1; congruence).
  rewrite flush_empty in Hf by apply Hi2. injection Hf as <- <-. unfold idle. by rewrite Hb, Ho.
Qed.
End tail.

(** ** Whole segments *)

Definition plain (r : WalRecord) : Prop := is_encrypted r = false.

(** Bytes that are records, of which [rs] carry data, and nothing else. *)
Definition holds `{Crc32c} (bs : bytes) (rs : list WalRecord) : Prop := ∃ rs0,
  bs = segment_bytes rs0 ∧ List.filter surfaced rs0 = rs ∧ Forall record_wf rs0 ∧
  Forall (λ r, readable r = true) rs0 ∧ Forall plain rs.

Section segment.
Context `{Crc32c, !Crc32cLaws, Aes256Gcm} {D : Type} `{DoubleWriteBuffer D}.
Implicit Types (w : WalWriter D).

Lemma reads_eof rd : rd_offset rd = flen (rd_file rd) → flen (rd_file rd) < 2 ^ 63 →
  records rd = Some ([], rd {{ rd_stop_reason := Some Eof }}, Ok tt).
Proof.
  intros Ho Hlt. rewrite records_unfold, next_record_unfold. unfold read_step.
  rewrite Ho, read_exact_eof by (unfold HEADER_SIZE; lia). by rewrite N.eqb_refl.
Qed.

(** Whatever the double-write buffer beside it holds, such a file is read as
    its records. *)
Lemma holds_read dir seg f rs :
  dir !! sm_path seg = Some f → holds (sf_bytes f) rs → flen (sf_bytes f) < 2 ^ 63 →
  seg_read dir None seg rs.
Proof.
  intros Hf (rs0 & Hb & Hs & Hwf & Hrd & Hp) Hlt.
  destruct (open_raw_valid [] (sf_bytes f) (sf_bytes <$> dir !! dwb_path seg)) as
    (rd & Ho & Hat & Hff & _ & _); [by left| |].
  { intros _. rewrite Hb. destruct rs0 as [|r rs0]; [left; simpl; unfold PREAMBLE_SIZE; lia|]. right. inversion_clear Hwf.
    change (segment_bytes (r :: rs0)) with (record_to_bytes r ++ segment_bytes rs0).
    by apply take_magic. }
  set (rdk := rd {{ rd_decryptor := Some None }}). simpl in Ho.
  assert (rd_file rdk = [] ++ segment_bytes rs0 ++ []) as Hfk by (simpl; by rewrite Hff, app_nil_r).
  assert (Forall (λ r, surfaced r = true → deliver rdk r = Ok (Some r)) rs0) as Hd.
  { apply Forall_forall. intros r Hr Hsr. unfold deliver. simpl. unfold decrypt_record.
    rewrite Forall_forall in Hp. rewrite (Hp r); [done|]. rewrite <-Hs.
    apply list_elem_of_In, List.filter_In. split; [by apply list_elem_of_In|done]. }
  pose proof (reads_delivered rs0 rdk [] [] Hfk) as Hreads.
  rewrite Hfk in Hreads. simpl app in Hreads. rewrite app_nil_r, <-Hb in Hreads.
  specialize (Hreads ltac:(lia) Hd Hwf Hrd). rewrite Hs in Hreads.
  apply records_reads in Hreads as (more & rd2 & e & He1 & He2).
  rewrite reads_eof in He1; [|by simpl; rewrite Hff|by simpl; rewrite Hff]. injection He1 as <- <- <-.
  exists f, rdk. eexists. split_and!; [done| | |].
  - unfold reader_open. by rewrite Ho.
  - rewrite app_nil_r in He2. replace (rd_at rdk (flen [])) with rdk in He2; [exact He2|].
    unfold rdk. rewrite <-Hat at 1. by destruct rd.
  - done.
Qed.

(** The record a client's append becomes. *)
Definition client_record (target : RecordTarget) (payload : bytes) (apply_key lsn : u64) :
    result WalError WalRecord :=
  new_stamped (MkWalRecordArgs (rt_record_type target) lsn (rt_tenant_id target)
    (rt_vshard_id target) (rt_database_id target) payload None None) (append_stamp target apply_key).

(** A writer of a segment that starts at [first] and has been given [log]. *)
Record seg_inv (first : u64) w (log : list WalRecord) : Prop := MkSegInv {
  sg_inv : ∃ acked pending rs rsF rsR rsA,
    writer_inv w acked [] pending [] rs rsF rsR rsA ∧ log = acked ++ pending;
  sg_dense : dense first log;
  sg_next : ww_next_lsn w = first + N.of_nat (length log);
  sg_plain : Forall plain log;
  sg_tail : no_tail w;
  sg_idle : log = [] → idle w;
  sg_ring : ww_encryption_ring w = None;
  sg_preamble : ww_segment_preamble w = None;
}.

Lemma seg_fresh c opened lsn w :
  config_fits c → open_with_start_lsn c (MkSegFile [] [] []) opened lsn = Some (Ok w) →
  seg_inv lsn w [].
Proof.
  intros Hc. unfold open_with_start_lsn.
  destruct (aligned_buf_new _ _) as [[b|]|] eqn:Hb; try done. intros [= <-].
  pose proof (aligned_buf_new_ok _ _ _ Hb) as (_ & Hsl & Hz & _).
  split; unfold writer_at, no_tail, idle; destruct (open_dwb_for c opened) as [dwb prot] eqn:Hd;
    simpl; try done; try (unfold flen; simpl; lia).
  exists [], [], [], [], [], []. split; [|done].
  pose proof (writer_at_inv c (MkSegFile [] [] []) b 0 lsn opened [] [] [] [] []) as Hw.
  unfold writer_at in Hw. rewrite Hd in Hw. apply Hw; try done; [by left|constructor].
Qed.

Lemma seg_core first w w' log :
  core w' = core w → ww_next_lsn w' = ww_next_lsn w → ww_encryption_ring w' = ww_encryption_ring w →
  ww_segment_preamble w' = ww_segment_preamble w → seg_inv first w log → seg_inv first w' log.
Proof.
  intros Hc Hn Hr Hp []. split; try done; try congruence.
  - destruct sg_inv0 as (acked & pending & rs & rsF & rsR & rsA & Hi & ->).
    exists acked, pending, rs, rsF, rsR, rsA. split; [|done]. by eapply writer_inv_core.
  - by apply (core_tail w).
  - intros Hl. apply (core_idle w); [done|by apply sg_idle0].
Qed.

Lemma seg_append first w log os target payload key w' res :
  seg_inv first w log → target_ok target key → ww_next_lsn w < 2 ^ 64 →
  append_keyed os target payload key w = (w', res) →
  match res with
  | Ok lsn => ∃ r, client_record target payload key lsn = Ok r ∧ seg_inv first w' (log ++ [r])
  | Err _ => seg_inv first w' log
  end.
Proof.
  intros [(acked & pending & rs & rsF & rsR & rsA & Hi & ->) Hde Hne Hpl Hta Hid Hri Hpr] Ht Hl Ha.
  unfold append_keyed in Ha.
  pose proof (append_tail _ _ _ _ _ _ _ _ _ _ _ _ _ _ _ _ Hi Ha Hta) as Hta'.
  destruct (append_inv _ _ _ _ _ _ _ _ _ _ _ _ _ _ _ _ Hi Ht Hl Ha) as [Hk Hres].
  unfold append_keeps in Hk. destruct_and!. destruct res as [lsn|e].
  - destruct Hres as (-> & Hn & r & rs' & rsF' & Hr & Hi').
    unfold append_args in Hr. rewrite Hri, Hpr in Hr. exists r. split; [exact Hr|].
    split; try done; try congruence.
    + exists acked, (pending ++ [r]), rs', rsF', rsR, rsA. split; [done|by rewrite app_assoc].
    + apply dense_app. split; [done|]. rewrite <-Hne. apply new_stamped_lsn in Hr. simpl in Hr.
      rewrite <-Hr. apply dense_one.
    + rewrite Hn, Hne, (length_app (acked ++ pending)). simpl length. lia.
    + apply Forall_app. split; [done|]. constructor; [|done].
      destruct Ht as [(t & Hty & _)]. refine (new_stamped_plain _ _ _ _ _ Hr); [done|]. simpl.
      rewrite Hty. apply record_type_bits.
    + by destruct (acked ++ pending).
  - destruct Hres as (Hn & rs' & rsF' & Hi'). split; try done; try congruence.
    + by exists acked, pending, rs', rsF', rsR, rsA.
    + intros Hlog. eapply append_idle; [exact Ha|by apply Hid].
Qed.

(** A synced writer's file is its log. *)
Lemma seg_synced first w log :
  seg_inv first w log → ab_len (ww_buffer w) = 0 → holds (sf_bytes (ww_file w)) log.
Proof.
  intros [(acked & pending & rs & rsF & rsR & rsA & Hi & ->) _ _ Hpl Hta _ _ _] Hz.
  unfold no_tail in Hta. rewrite Hz, N.add_0_r in Hta. destruct Hi.
  unfold as_slice in wi_log. rewrite Hz in wi_log. simpl in wi_log. rewrite app_nil_r in wi_log.
  rewrite take_ge in wi_log by (unfold flen in *; lia).
  exists rs. split_and!; try done.
Qed.

Lemma seg_sync first w log env w' res :
  seg_inv first w log → ww_next_lsn w < 2 ^ 64 → sync env w = (w', res) →
  ∃ anchors, Forall is_time_anchor anchors ∧ seg_inv first w' (log ++ anchors) ∧
    (res = Ok tt → holds (sf_bytes (ww_file w')) (log ++ anchors)).
Proof.
  intros Hsg Hl Hs. destruct Hsg as [(acked & pending & rs & rsF & rsR & rsA & Hi & ->) Hde Hne Hpl Hta Hid Hri Hpr].
  pose proof (sync_tail _ _ _ _ _ _ _ _ _ _ _ _ Hi Hl Hs Hta) as Hta'.
  destruct (sync_inv _ _ _ _ _ _ _ _ _ _ _ _ Hi Hl Hs) as (Hk & anchors & Han & [Hda Hpa] & Hn & Hres).
  unfold sync_keeps in Hk. destruct_and!. exists anchors. split; [done|].
  assert (seg_inv first w' ((acked ++ pending) ++ anchors)) as Hsg.
  { split; try done; try congruence.
    - destruct res as [[]|e]; [destruct Hres as [(rs' & Hi')|(-> & -> & ->)]|destruct Hres as (rs' & rsF' & Hi')].
      + eexists _, [], _, _, _, _. split; [exact Hi'|]. by rewrite app_nil_r, <-app_assoc.
      + exists acked, [], rs, rsF, rsR, rsA. by rewrite !app_nil_r.
      + exists acked, (pending ++ anchors), rs', rsF', rsR, rsA. by rewrite app_assoc.
    - apply dense_app. by rewrite <-Hne.
    - rewrite Hn, Hne, (length_app (acked ++ pending)). lia.
    - apply Forall_app. by split; [|apply Hpa].
    - intros [Hlog ->]%app_nil. eapply sync_idle; [exact Hs| |by apply Hid]. rewrite Hn. simpl. lia. }
  split; [done|]. intros ->. eapply seg_synced; [done|]. by eapply sync_ok_empty.
Qed.
End segment.
