(* ===== verification/WalSegmentedThms.v ===== *)
(** * Runs of the segmented WAL

    The log across its segments: what every operation keeps, and what replay
    returns after any run of them. *)

From stdpp Require Import base option strings gmap sorting list.
From S2P Require Import Prelude WalRecord WalRecordFacts WalReader WalReaderFacts WalRecovery WalWriter.
From S2P Require Import WalWriterFacts WalCrash WalSegments WalSegmentsFacts WalReplay WalSegmented.

Open Scope N_scope.

(** Sealed segments by first LSN, each with its records, up to the active
    segment. *)
Fixpoint sealed_chain (start : u64) (sealed : list (u64 * list WalRecord)) (active : u64) : Prop :=
  match sealed with
  | [] => start = active
  | (l, rs) :: sealed =>
      l = start ∧ dense start rs ∧ rs ≠ [] ∧ sealed_chain (start + N.of_nat (length rs)) sealed active
  end.

Lemma sealed_chain_app start a b active :
  sealed_chain start (a ++ b) active ↔
  ∃ mid, sealed_chain start a mid ∧ sealed_chain mid b active.
Proof.
  revert start. induction a as [|[l rs] a IH]; intros start; simpl; [naive_solver|].
  rewrite IH. naive_solver.
Qed.

(** Where a chain ends. *)
Lemma sealed_chain_end start sealed active :
  sealed_chain start sealed active →
  active = start + N.of_nat (length (mjoin sealed.*2)) ∧ dense start (mjoin sealed.*2).
Proof.
  revert start. induction sealed as [|[l rs] sealed IH]; intros start; csimpl.
  - intros <-. split; [lia|done].
  - intros (-> & Hd & _ & Hc). apply IH in Hc as [-> Hd']. rewrite length_app. split; [lia|].
    by apply dense_app.
Qed.

Lemma sealed_chain_lt start sealed active :
  sealed_chain start sealed active → ∀ l, l ∈ sealed.*1 → start ≤ l ∧ l < active.
Proof.
  revert start. induction sealed as [|[l' rs] sealed IH]; intros start; csimpl; [set_solver|].
  intros (-> & _ & Hne & Hc) l. pose proof (proj1 (sealed_chain_end _ _ _ Hc)) as He.
  assert (length rs ≠ 0%nat) by by destruct rs.
  intros [->|Hl]%elem_of_cons; [lia|]. specialize (IH _ Hc l Hl). lia.
Qed.

(** What a client of the log sees of an operation. *)
Inductive SwalEvent : Type :=
  | SwAppend (accepted : option WalRecord)
  | SwTruncate (checkpoint : u64)
  | SwControl.

(** The records accepted. *)
Definition appended (evs : list SwalEvent) : list WalRecord :=
  omap (λ e, match e with SwAppend r => r | _ => None end) evs.

(** The highest checkpoint. *)
Definition truncated_at (evs : list SwalEvent) : u64 :=
  foldr (λ e c, match e with SwTruncate cp => N.max c cp | _ => c end) 0 evs.

(** A client's record and not an anchor of the log. *)
Definition of_client (r : WalRecord) : bool := negb (logical_record_type r =? record_type_raw TimeAnchor).

Section system.
Context `{Crc32c, !Crc32cLaws, Aes256Gcm} {D : Type} `{DoubleWriteBuffer D}.
Implicit Types (s : SegmentedWal D).

(** [gone] are the records of the segments that truncation removed, [alog]
    those of the active segment. *)
Record swal_inv s (floor : u64) (gone : list WalRecord) (sealed : list (u64 * list WalRecord))
    (alog : list WalRecord) : Prop := MkSwalInv {
  si_linked : sw_linked s = true;
  si_ring : sw_encryption_ring s = None;
  si_path : sw_active_path s = segment_filename (sw_active_first_lsn s);
  si_bound : sw_active_first_lsn s < 2 ^ 64;
  si_config : config_fits (sw_writer_config s);
  si_target : 0 < sw_segment_target_size s;
  si_active : seg_inv (sw_active_first_lsn s) (sw_writer s) alog;
  si_chain : sealed_chain (1 + N.of_nat (length gone)) sealed (sw_active_first_lsn s);
  si_files : Forall (λ x, ∃ f, wal_dir s !! segment_filename x.1 = Some f ∧ holds (sf_bytes f) x.2) sealed;
  si_names : ∀ p l, parse_segment_filename p = Some l → is_Some (wal_dir s !! p) →
    p = segment_filename l ∧ (l = sw_active_first_lsn s ∨ l ∈ sealed.*1);
  si_gone : dense 1 gone;
  si_floor : gone = [] ∨ 1 + N.of_nat (length gone) ≤ floor;
}.

(** The segments of the directory, by name. *)
Lemma wal_dir_seg s p l :
  sw_linked s = true → parse_segment_filename p = Some l →
  wal_dir s !! p =
  if bool_decide (p = sw_active_path s) then Some (ww_file (sw_writer s)) else sw_dir s !! p.
Proof.
  intros Hl Hp. unfold wal_dir. rewrite Hl.
  assert (∀ d, set_dwb (sw_active_path s) (sw_dwb s) d !! p = d !! p) as ->.
  { intros d. unfold set_dwb. pose proof (dwb_not_segment (sw_active_path s)).
    destruct (sw_dwb s); [rewrite lookup_insert_ne|rewrite lookup_delete_ne]; congruence. }
  case_bool_decide as Hc; [subst; by rewrite lookup_insert_eq|by rewrite lookup_insert_ne].
Qed.

(** A step that leaves the sealed segments in place. *)
Lemma swal_inv_keep s s' floor gone sealed alog alog' :
  swal_inv s floor gone sealed alog →
  sw_linked s' = true → sw_encryption_ring s' = None → sw_active_path s' = sw_active_path s →
  sw_active_first_lsn s' = sw_active_first_lsn s → sw_writer_config s' = sw_writer_config s →
  sw_segment_target_size s' = sw_segment_target_size s →
  seg_inv (sw_active_first_lsn s) (sw_writer s') alog' →
  (∀ p l, parse_segment_filename p = Some l → p ≠ sw_active_path s → sw_dir s' !! p = wal_dir s !! p) →
  swal_inv s' floor gone sealed alog'.
Proof.
  intros [] Hl Hr Hp Ha Hc Ht Hsg Hd.
  assert (∀ p l, parse_segment_filename p = Some l → p ≠ sw_active_path s →
    wal_dir s' !! p = wal_dir s !! p) as Hdir.
  { intros p l Hpl Hne. rewrite (wal_dir_seg s' p l Hl Hpl), Hp, bool_decide_false by done. by eapply Hd. }
  split; rewrite ?Hp, ?Ha, ?Hc, ?Ht; try done.
  - rewrite Forall_forall in si_files0 |- *. intros x Hx. destruct (si_files0 x Hx) as (f & Hf & Hh).
    destruct (sealed_chain_lt _ _ _ si_chain0 x.1) as [_ Hlt]; [by apply list_elem_of_fmap_2|].
    exists f. split; [|done]. rewrite <-Hf. eapply Hdir; [apply parse_segment_name; lia|].
    rewrite si_path0. intros Heq%segment_filename_inj; lia.
  - intros p l Hpl Hs. destruct (decide (p = sw_active_path s)) as [->|Hne].
    + rewrite si_path0, parse_segment_name in Hpl by done. injection Hpl as <-. split; [done|by left].
    + rewrite (Hdir p l) in Hs by done. by apply si_names0.
Qed.

Lemma swal_inv_writer s w floor gone sealed alog alog' :
  swal_inv s floor gone sealed alog → seg_inv (sw_active_first_lsn s) w alog' →
  swal_inv (s {{ sw_writer := w }}) floor gone sealed alog'.
Proof.
  intros Hi Hs. pose proof Hi as []. eapply swal_inv_keep; try done. intros p l Hp Hne. simpl.
  by rewrite (wal_dir_seg s p l), bool_decide_false by done.
Qed.

(** *** Rolling *)

(** The clean-up of a failed roll worked. *)
Definition cleaned (e : WalError) : Prop := match e with RollCleanupFailed _ _ => False | _ => True end.

Lemma name_free s floor gone sealed alog n :
  swal_inv s floor gone sealed alog → sw_active_first_lsn s < n → n < 2 ^ 64 →
  segment_filename n ≠ sw_active_path s ∧ wal_dir s !! segment_filename n = None.
Proof.
  intros [] Hlt Hn. rewrite si_path0. split; [intros Heq%segment_filename_inj; lia|].
  destruct (wal_dir s !! segment_filename n) as [f|] eqn:Hf; [|done].
  destruct (si_names0 _ _ (parse_segment_name n Hn) ltac:(by eexists)) as [_ [Ha|Hin]]; [lia|].
  apply (sealed_chain_lt _ _ _ si_chain0) in Hin. lia.
Qed.

(** What [open_and_seal] does after a sync that succeeded. *)
Lemma open_and_seal_spec (env : RollEnv D) path n s s2 r :
  (∀ env', sync env' (sw_writer s) = (sw_writer s, Ok tt)) →
  open_and_seal env path n None s = (s2, r) →
  let file := open_segment_file path (wal_dir s) in
  match r with
  | Ok w =>
      open_with_start_lsn (sw_writer_config s) file (re_opened env) n = Some (Ok w) ∧
      s2 = s {{ sw_dir ::= λ d, <[path := file]> d; sw_writer ::= λ w, w {{ ww_sealed := true }} }}
  | Err _ => s2 = s ∨ s2 = s {{ sw_dir ::= λ d, <[path := file]> d }}
  end.
Proof.
  intros Hs. unfold open_and_seal. destruct (re_create env); simpl; [|intros [= <- <-]; by left].
  destruct (open_with_start_lsn _ _ _ _) as [[w|e]|]; [|intros [= <- <-]; by right..].
  destruct (fsync_directory _); [|intros [= <- <-]; by right].
  unfold seal. rewrite Hs. by intros [= <- <-].
Qed.

(** A failed roll whose clean-up worked leaves the directory as it was. *)
Lemma discard_cleaned works ok path err (dir dir' : WalDir) e :
  discard_unused_segment works ok path err dir = (dir', e) → cleaned e → dir' = delete path dir.
Proof.
  unfold discard_unused_segment, remove_file. destruct (dir !! path) as [f|] eqn:Hf.
  - destruct (works path); simpl; [destruct ok; by intros [= <- <-]|]. by intros [= <- <-] Hc.
  - simpl. rewrite delete_id by done. destruct ok; by intros [= <- <-].
Qed.

Lemma roll_failed s s2 floor gone sealed alog path n works ok err dir e :
  swal_inv s floor gone sealed alog → sw_active_first_lsn s < n → n < 2 ^ 64 →
  path = segment_filename n → (∃ f, s2 = s ∨ s2 = s {{ sw_dir ::= λ d, <[path := f]> d }}) →
  discard_unused_segment works ok path err (wal_dir s2) = (dir, e) → cleaned e →
  swal_inv (s2 {{ sw_dir := dir;
    sw_linked ::= λ linked, linked && bool_decide (is_Some (dir !! sw_active_path s2)) }})
    floor gone sealed alog.
Proof.
  intros Hi Hlt Hn -> [f Hs2] Hd Hc. destruct (name_free _ _ _ _ _ _ Hi Hlt Hn) as [Hne Hfree].
  apply discard_cleaned in Hd as ->; [|done]. pose proof Hi as [].
  assert (sw_linked s2 = true ∧ sw_active_path s2 = sw_active_path s ∧ sw_writer s2 = sw_writer s ∧
    sw_encryption_ring s2 = None ∧ sw_active_first_lsn s2 = sw_active_first_lsn s ∧
    sw_writer_config s2 = sw_writer_config s ∧ sw_segment_target_size s2 = sw_segment_target_size s ∧
    ∀ p, p ≠ segment_filename n → sw_dir s2 !! p = sw_dir s !! p)
    as (Hl & Hp & Hw & Hr & Ha & Hcf & Ht & Hdir).
  { destruct Hs2 as [->| ->]; [by split_and!|]. simpl. split_and!; try done.
    intros p Hpn. by rewrite lookup_insert_ne. }
  assert (∀ p l, parse_segment_filename p = Some l → p ≠ segment_filename n →
    wal_dir s2 !! p = wal_dir s !! p) as Hsame.
  { intros p l Hpl Hpn. by rewrite (wal_dir_seg s2 p l), (wal_dir_seg s p l), Hp, Hw, Hdir. }
  eapply (swal_inv_keep s); try done; simpl; [|by rewrite Hw|].
  - rewrite Hl. simpl. apply bool_decide_true. rewrite Hp, lookup_delete_ne by done.
    pose proof (parse_segment_name _ si_bound0) as Hpa. rewrite <-si_path0 in Hpa.
    rewrite (Hsame _ _ Hpa) by done. rewrite (wal_dir_seg s _ _ si_linked0 Hpa).
    rewrite bool_decide_true by done. by eexists.
  - intros p l Hpl Hpa. destruct (decide (p = segment_filename n)) as [->|Hpn].
    + by rewrite lookup_delete_eq, Hfree.
    + rewrite lookup_delete_ne by done. by eapply Hsame.
Qed.

(** A roll that succeeds seals the active segment, with its whole log on disk,
    and goes on in an empty one. *)
Lemma roll_installed (env : RollEnv D) s s2 floor gone sealed alog n w :
  let path := segment_filename n in
  swal_inv s floor gone sealed alog → n = sw_active_first_lsn s + N.of_nat (length alog) →
  n < 2 ^ 64 → alog ≠ [] → holds (sf_bytes (ww_file (sw_writer s))) alog →
  open_with_start_lsn (sw_writer_config s) (open_segment_file path (wal_dir s)) (re_opened env) n =
    Some (Ok w) →
  s2 = s {{ sw_dir ::= λ d, <[path := open_segment_file path (wal_dir s)]> d;
            sw_writer ::= λ w, w {{ ww_sealed := true }} }} →
  swal_inv (s2 {{ sw_dir := wal_dir s2; sw_active_path := path; sw_linked := true;
                  sw_dwb := re_dwb env; sw_encryption_ring := None; sw_writer := w;
                  sw_active_first_lsn := n }}) floor gone (sealed ++ [(sw_active_first_lsn s, alog)]) [].
Proof.
  intros path Hi Hn Hlt Hne Hh Ho Hs2. assert (length alog ≠ 0%nat) as Hlen by by destruct alog.
  destruct (name_free _ _ _ _ _ n Hi ltac:(lia) Hlt) as [Hpne Hfree]. fold path in Hpne, Hfree.
  unfold open_segment_file in *. rewrite Hfree in *. simpl default in *.
  pose proof (parse_segment_name n Hlt) as Hpn. fold path in Hpn.
  match goal with |- swal_inv ?x _ _ _ _ => set (s3 := x) end. pose proof Hi as [].
  assert (∀ p l, parse_segment_filename p = Some l → p ≠ path → wal_dir s3 !! p = wal_dir s !! p) as Hdir.
  { intros p l Hpl Hpp. rewrite (wal_dir_seg s3 p l eq_refl Hpl). unfold s3. simpl sw_active_path.
    simpl sw_dir. rewrite bool_decide_false by done.
    rewrite (wal_dir_seg s2 p l), (wal_dir_seg s p l) by (rewrite ?Hs2; done). rewrite Hs2. simpl.
    by rewrite lookup_insert_ne. }
  pose proof (parse_segment_name _ si_bound0) as Hpa.
  split; try done; [by unfold s3; rewrite Hs2..|by eapply seg_fresh| | |].
  - apply sealed_chain_app. exists (sw_active_first_lsn s). split; [done|]. simpl.
    split_and!; [done|by eapply sg_dense|done|]. by rewrite Hn.
  - apply Forall_app. split.
    + rewrite Forall_forall in si_files0 |- *. intros x Hx. destruct (si_files0 x Hx) as (f & Hf & Hhf).
      destruct (sealed_chain_lt _ _ _ si_chain0 x.1) as [_ Hlx]; [by apply list_elem_of_fmap_2|].
      exists f. split; [|done]. rewrite <-Hf. eapply Hdir; [apply parse_segment_name; lia|].
      intros Heq%segment_filename_inj; lia.
    + constructor; [|done]. exists (ww_file (sw_writer s)). split; [|done]. simpl fst.
      rewrite (Hdir _ _ Hpa) by (rewrite <-si_path0; done).
      rewrite (wal_dir_seg s _ _ si_linked0 Hpa). by rewrite <-si_path0, bool_decide_true.
  - intros p l Hpl Hs. rewrite fmap_app. destruct (decide (p = path)) as [->|Hpp].
    + rewrite Hpn in Hpl. injection Hpl as <-. split; [done|by left].
    + rewrite (Hdir p l) in Hs by done. destruct (si_names0 _ _ Hpl Hs) as [Hp Hl]. split; [done|].
      right. set_solver.
Qed.

(** Rolling moves no record: the log gains at most a time anchor. *)
Lemma roll_spec env s floor gone sealed alog s' res :
  swal_inv s floor gone sealed alog → ww_next_lsn (sw_writer s) + 1 < 2 ^ 64 → alog ≠ [] →
  roll_segment env s = (s', res) → (∀ e, res = Err e → cleaned e) →
  ∃ sealed' alog' anchors, swal_inv s' floor gone sealed' alog' ∧ Forall is_time_anchor anchors ∧
    mjoin sealed'.*2 ++ alog' = mjoin sealed.*2 ++ alog ++ anchors ∧
    ww_next_lsn (sw_writer s') < 2 ^ 64.
Proof.
  intros Hi Hb Hne. unfold roll_segment. rewrite (si_ring _ _ _ _ _ Hi). unfold roll_segment_with_ring.
  destruct (sync (re_sync env) (sw_writer s)) as [w r] eqn:Hs.
  pose proof (sync_next _ _ _ _ Hs) as Hnext. pose proof (si_active _ _ _ _ _ Hi) as Hsg.
  destruct (seg_sync _ _ _ _ _ _ Hsg ltac:(lia) Hs) as (anchors & Han & Hsg1 & Hh).
  pose proof (swal_inv_writer _ _ _ _ _ _ _ Hi Hsg1) as Hi1. set (s1 := s {{ sw_writer := w }}) in *.
  destruct r as [[]|e].
  2:{ intros [= <- <-] _. exists sealed, (alog ++ anchors), anchors. split_and!; [done|done|done|simpl; lia]. }
  specialize (Hh eq_refl). simpl sw_writer. set (n := ww_next_lsn w).
  assert (n = sw_active_first_lsn s1 + N.of_nat (length (alog ++ anchors))) as Hn by by eapply sg_next.
  assert (alog ++ anchors ≠ []) as Hne1 by by destruct alog.
  assert (length (alog ++ anchors) ≠ 0%nat) as Hlen by by destruct (alog ++ anchors).
  destruct (open_and_seal env (segment_filename n) n None s1) as [s2 r] eqn:Hos.
  apply open_and_seal_spec in Hos; [|by eapply sync_again]. destruct r as [w2|e].
  - destruct Hos as [Ho Hs2]. intros [= <- <-] _.
    exists (sealed ++ [(sw_active_first_lsn s1, alog ++ anchors)]), [], anchors. split_and!.
    + eapply (roll_installed env s1); try done. unfold n. lia.
    + done.
    + rewrite fmap_app, join_app, !app_nil_r. simpl. by rewrite app_nil_r.
    + simpl. assert (ww_next_lsn w2 = n) as ->; [|unfold n; lia]. revert Ho. unfold open_with_start_lsn.
      repeat case_match; try done. unfold writer_at. repeat case_match. by intros [= <-].
  - destruct (discard_unused_segment _ _ _ _ _) as [dir e'] eqn:Hd. intros [= <- <-] Hc.
    exists sealed, (alog ++ anchors), anchors. split_and!; [|done|done|].
    + eapply (roll_failed s1 s2 _ _ _ _ _ n); [done|lia|unfold n; lia|done|by eexists|exact Hd|by apply Hc].
    + destruct Hos as [->| ->]; simpl; lia.
Qed.

(** *** Truncating *)

Definition meta_of (dir : WalDir) (l : u64) : SegmentMeta :=
  MkSegmentMeta (segment_filename l) l
    (flen (default [] (sf_bytes <$> dir !! segment_filename l))).

Lemma metas_sorted dir start sealed active :
  sealed_chain start sealed active → StronglySorted lsn_lt (meta_of dir <$> sealed.*1 ++ [active]).
Proof.
  revert start. induction sealed as [|[l rs] sealed IH]; intros start; csimpl; [by repeat constructor|].
  intros (-> & _ & Hne & Hc). constructor; [by eapply IH|]. assert (length rs ≠ 0%nat) by by destruct rs.
  apply Forall_fmap, Forall_app. pose proof (proj1 (sealed_chain_end _ _ _ Hc)) as He.
  split; [|constructor; [|done]; unfold lsn_lt; simpl; lia].
  apply Forall_forall. intros l Hl. apply (sealed_chain_lt _ _ _ Hc) in Hl. unfold lsn_lt. simpl. lia.
Qed.

Lemma swal_unique s floor gone sealed alog :
  swal_inv s floor gone sealed alog → names_unique (wal_dir s).
Proof.
  intros [] p q l Hp Hq Hlp Hlq. destruct (si_names0 p l Hlp Hp) as [-> _].
  by destruct (si_names0 q l Hlq Hq) as [-> _].
Qed.

Lemma swal_lookup s floor gone sealed alog l :
  swal_inv s floor gone sealed alog → l ∈ sealed.*1 ++ [sw_active_first_lsn s] →
  l < 2 ^ 64 ∧ is_Some (wal_dir s !! segment_filename l).
Proof.
  intros [] [Hl|Hl]%elem_of_app.
  - pose proof (sealed_chain_lt _ _ _ si_chain0 l Hl). split; [lia|].
    apply list_elem_of_fmap in Hl as (x & -> & Hx). rewrite Forall_forall in si_files0.
    destruct (si_files0 x Hx) as (f & Hf & _). by eexists.
  - apply list_elem_of_singleton in Hl as ->. split; [done|].
    rewrite (wal_dir_seg s _ _ si_linked0 (parse_segment_name _ si_bound0)).
    rewrite <-si_path0, bool_decide_true by done. by eexists.
Qed.

Lemma swal_discover s floor gone sealed alog :
  swal_inv s floor gone sealed alog →
  discover_segments (wal_dir s) = meta_of (wal_dir s) <$> sealed.*1 ++ [sw_active_first_lsn s].
Proof.
  intros Hi. apply discover_unique; [by eapply swal_unique|by eapply metas_sorted, si_chain|].
  intros m. rewrite elem_of_discover, list_elem_of_fmap. split.
  - intros (l & -> & Hl). destruct (swal_lookup _ _ _ _ _ _ Hi Hl) as [Hlt [f Hf]]. exists f. simpl.
    rewrite Hf. split_and!; [done|by apply parse_segment_name|done].
  - intros (f & Hf & Hp & Hz). destruct (si_names _ _ _ _ _ Hi _ _ Hp ltac:(by eexists)) as [Hpath Hl].
    exists (sm_first_lsn m). split; [|apply elem_of_app; rewrite list_elem_of_singleton; tauto].
    unfold meta_of. rewrite <-Hpath, Hf. simpl. rewrite <-Hz. by destruct m.
Qed.

(** An oldest part of the listed segments that leaves out the active one. *)
Lemma split_sealed dir (sealed : list (u64 * list WalRecord)) active (gone kept : list SegmentMeta) :
  (meta_of dir <$> sealed.*1 ++ [active]) = gone ++ kept →
  Forall (λ m, sm_first_lsn m ≠ active) gone →
  ∃ sgone skept, sealed = sgone ++ skept ∧ gone = (meta_of dir <$> sgone.*1) ∧
    kept = (meta_of dir <$> skept.*1 ++ [active]).
Proof.
  revert sealed. induction gone as [|g gone IH]; intros sealed Heq Hg.
  - exists [], sealed. by split_and!.
  - inversion Hg; subst. destruct sealed as [|x sealed]; csimpl in *.
    + injection Heq as <- _. simpl in *. done.
    + injection Heq as <- Heq. destruct (IH sealed Heq) as (sgone & skept & -> & -> & ->); [done|].
      exists (x :: sgone), skept. by split_and!.
Qed.

(** A truncation removes the oldest sealed segments, those that end at the
    checkpoint or before it. *)
Lemma truncate_shape env cp s floor gone sealed alog s' res :
  swal_inv s floor gone sealed alog → truncate_before env cp s = (s', res) →
  ∃ dir' sgone skept mid, s' = s {{ sw_dir := dir' }} ∧ sealed = sgone ++ skept ∧
    sealed_chain (1 + N.of_nat (length gone)) sgone mid ∧
    sealed_chain mid skept (sw_active_first_lsn s) ∧
    without (wal_dir s) dir' (meta_of (wal_dir s) <$> sgone.*1) ∧ (sgone = [] ∨ mid ≤ cp).
Proof.
  intros Hi. unfold truncate_before, truncate_segments. rewrite (swal_discover _ _ _ _ _ Hi).
  set (dir := wal_dir s) in *. set (metas := _ <$> _).
  destruct (truncate_loop env metas cp _ metas 0 0 dir) as [dir' r] eqn:Ht.
  assert (∃ r', (let? (dir, res) := (dir', r) in
    if 0 <? tr_segments_deleted res then
      match fsync_directory (te_fsync env) with Ok _ => (dir, Ok res) | Err e => (dir, Err e) end
    else (dir, Ok res)) = (dir', r')) as [r' ->] by (repeat case_match; by eexists).
  intros [= <- <-]. pose proof Hi as [].
  pose proof (metas_sorted dir _ _ _ si_chain0) as Hso. fold metas in Hso.
  apply (truncate_loop_spec _ _ _ _ _ []) in Ht as (g & k & Heq & Hg & Hw); [|done|done|].
  2:{ intros m (l & -> & Hl)%list_elem_of_fmap. simpl.
      split; [by eapply swal_lookup|]. apply elem_of_app in Hl as [Hl|Hl%list_elem_of_singleton]; [|lia].
      apply (sealed_chain_lt _ _ _ si_chain0) in Hl. lia. }
  destruct (split_sealed _ _ _ _ _ Heq) as (sgone & skept & -> & -> & ->);
    [by eapply Forall_impl; [exact Hg|]; intros m []|].
  apply sealed_chain_app in si_chain0 as (mid & Hc1 & Hc2).
  exists dir', sgone, skept, mid. split_and!; try done.
  destruct sgone as [|x sgone _] using rev_ind; [by left|right].
  rewrite fmap_app, fmap_app in Hg. apply Forall_app in Hg as [_ Hg]. inversion Hg as [|? ? [Hn _]]; subst.
  rewrite Heq, !fmap_app, <-app_assoc in Hn. simpl in Hn.
  rewrite next_first_spec in Hn by (revert Hso; by rewrite Heq, !fmap_app, <-app_assoc).
  destruct skept as [|[l rs] skept]; simpl in Hc2, Hn; [lia|]. destruct Hc2 as [-> _]. done.
Qed.

Lemma truncate_inv env cp s floor gone sealed alog s' res :
  swal_inv s floor gone sealed alog → truncate_before env cp s = (s', res) →
  ∃ sgone skept, sealed = sgone ++ skept ∧ sw_writer s' = sw_writer s ∧
    swal_inv s' (N.max floor cp) (gone ++ mjoin sgone.*2) skept alog.
Proof.
  intros Hi Ht. destruct (truncate_shape _ _ _ _ _ _ _ _ _ Hi Ht)
    as (dir' & sgone & skept & mid & -> & -> & Hc1 & Hc2 & (Hno & Hsame & Hsub) & Hcp).
  exists sgone, skept. split_and!; [done|done|]. pose proof Hi as [].
  pose proof (sealed_chain_end _ _ _ Hc1) as [Hmid Hd1].
  assert (∀ l, l ∈ skept.*1 → dir' !! segment_filename l = wal_dir s !! segment_filename l ∧
    segment_filename l ≠ sw_active_path s ∧ l < 2 ^ 64) as Hkept.
  { intros l Hl. apply (sealed_chain_lt _ _ _ Hc2) in Hl. split_and!; [|rewrite si_path0; intros Hn%segment_filename_inj; lia|lia].
    apply Hsame. intros m (l' & -> & Hl')%list_elem_of_fmap. simpl.
    apply (sealed_chain_lt _ _ _ Hc1) in Hl'. split; [intros Hn%segment_filename_inj; lia|]. intros Hn.
    pose proof (dwb_not_segment (segment_filename l')) as Hd. unfold dwb_path in Hn. simpl in Hn.
    rewrite <-Hn, parse_segment_name in Hd; [done|lia]. }
  set (s' := s {{ sw_dir := dir' }}).
  assert (∀ p l, parse_segment_filename p = Some l → p ≠ sw_active_path s → wal_dir s' !! p = dir' !! p) as Hdir.
  { intros p l Hpl Hpa. by rewrite (wal_dir_seg s' p l si_linked0 Hpl), bool_decide_false. }
  split; try done.
  - rewrite length_app. by replace (1 + N.of_nat _) with mid by lia.
  - apply Forall_app in si_files0 as [_ Hf]. rewrite Forall_forall in Hf |- *. intros x Hx.
    destruct (Hf x Hx) as (f & Hfx & Hh). exists f. split; [|done].
    destruct (Hkept x.1) as (Hk & Hpa & Hlt); [by apply list_elem_of_fmap_2|].
    by rewrite (Hdir _ _ (parse_segment_name _ Hlt) Hpa), Hk.
  - intros p l Hpl Hs. destruct (decide (p = sw_active_path s)) as [->|Hpa].
    + rewrite si_path0, parse_segment_name in Hpl by done. injection Hpl as <-. split; [done|by left].
    + rewrite (Hdir p l) in Hs by done. destruct (si_names0 p l Hpl (Hsub _ Hs)) as [-> Hl].
      split; [done|]. rewrite fmap_app, elem_of_app in Hl. destruct Hl as [Hl|[Hl|Hl]]; [by left| |by right].
      exfalso. destruct Hs as [f Hf].
      pose proof (Hno _ (list_elem_of_fmap_2 (meta_of (wal_dir s)) _ _ Hl)) as Hn. simpl in Hn. congruence.
  - apply dense_app. split; [done|]. done.
  - destruct Hcp as [->|Hcp]; [|right; rewrite length_app; lia].
    simpl. rewrite app_nil_r. destruct si_floor0; [by left|right; lia].
Qed.

(** ** Runs *)

(** An append of a client, its LSN and the one of an anchor within 64 bits. *)
Definition client_ok (target : RecordTarget) (apply_key : u64) : Prop :=
  target_ok target apply_key ∧ rt_record_type target ≠ record_type_raw TimeAnchor.

Definition has_room s : Prop := ww_next_lsn (sw_writer s) + 1 < 2 ^ 64.

Inductive swal_step : SwalEvent → SegmentedWal D → SegmentedWal D → Prop :=
  | sw_append env os target payload key s s' lsn r :
      client_ok target key → has_room s →
      swal_append_keyed env os target payload key s = (s', Ok lsn) →
      client_record target payload key lsn = Ok r → swal_step (SwAppend (Some r)) s s'
  | sw_reject env os target payload key s s' e :
      client_ok target key → has_room s →
      swal_append_keyed env os target payload key s = (s', Err e) → cleaned e →
      swal_step (SwAppend None) s s'
  | sw_sync env s s' res : has_room s → swal_sync env s = (s', res) → swal_step SwControl s s'
  | sw_seal env s s' res :
      has_room s → seal_active_segment env s = (s', res) → (∀ e, res = Err e → cleaned e) →
      swal_step SwControl s s'
  | sw_truncate env cp s s' res :
      truncate_before env cp s = (s', res) → swal_step (SwTruncate cp) s s'
  | sw_mirror bs s : swal_step SwControl s (s {{ sw_dwb := bs }}).

Inductive swal_run : SegmentedWal D → list SwalEvent → SegmentedWal D → Prop :=
  | swal_run_nil s : swal_run s [] s
  | swal_run_snoc s evs s1 e s2 : swal_run s evs s1 → swal_step e s1 s2 → swal_run s (evs ++ [e]) s2.

(** The whole log, in order. *)
Definition swal_log (gone : list WalRecord) (sealed : list (u64 * list WalRecord))
    (alog : list WalRecord) : list WalRecord := gone ++ mjoin sealed.*2 ++ alog.

Lemma anchors_not_client anchors :
  Forall is_time_anchor anchors → List.filter of_client anchors = [].
Proof.
  induction 1 as [|r rs Hr _ IH]; [done|]. simpl. unfold of_client at 1.
  unfold is_time_anchor in Hr. by rewrite Hr, N.eqb_refl.
Qed.

Lemma client_of_client target payload key lsn r :
  client_ok target key → client_record target payload key lsn = Ok r → of_client r = true.
Proof.
  intros [[(t & Ht & _)] Hne] Hr. unfold of_client.
  assert (logical_record_type r = record_type_raw t) as ->
    by (eapply new_stamped_type; [|exact Hr]; exact Ht).
  rewrite <-Ht. by apply negb_true_iff, N.eqb_neq.
Qed.

(** Appending to a segment the log need not leave, or to the next one. *)
Lemma swal_append_inv env os target payload key s floor gone sealed alog s' res :
  swal_inv s floor gone sealed alog → client_ok target key → has_room s →
  swal_append_keyed env os target payload key s = (s', res) → (∀ e, res = Err e → cleaned e) →
  ∃ sealed' alog' anchors, swal_inv s' floor gone sealed' alog' ∧ Forall is_time_anchor anchors ∧
    match res with
    | Ok lsn => ∃ r, client_record target payload key lsn = Ok r ∧
        swal_log gone sealed' alog' = swal_log gone sealed alog ++ anchors ++ [r]
    | Err _ => swal_log gone sealed' alog' = swal_log gone sealed alog ++ anchors
    end.
Proof.
  intros Hi [Ht _] Hr. unfold swal_append_keyed.
  set (rolled := if _ <=? _ then _ else _). intros Ha Hc.
  assert ((∀ e, rolled.2 = Err e → cleaned e) → ∃ sealed' alog' anchors,
    swal_inv rolled.1 floor gone sealed' alog' ∧ Forall is_time_anchor anchors ∧
    mjoin sealed'.*2 ++ alog' = mjoin sealed.*2 ++ alog ++ anchors ∧
    ww_next_lsn (sw_writer rolled.1) < 2 ^ 64) as Hroll.
  { intros Hcl. unfold rolled in *. destruct (N.leb_spec (sw_segment_target_size s) (ww_file_offset (sw_writer s))).
    - destruct (roll_segment env s) as [s1 r1] eqn:Hrs. eapply roll_spec; [done|done| |done|done].
      intros ->. destruct (sg_idle _ _ _ (si_active _ _ _ _ _ Hi) eq_refl) as [Hz _].
      pose proof (si_target _ _ _ _ _ Hi). lia.
    - exists sealed, alog, []. unfold has_room in Hr.
      split_and!; [done|constructor|by rewrite !app_nil_r|simpl; lia]. }
  destruct rolled as [s1 [[]|e]]; simpl in Hroll.
  2:{ injection Ha as <- <-. destruct Hroll as (sealed' & alog' & anchors & Hi' & Han & Heq & _);
        [intros e' [= <-]; by apply Hc|].
      exists sealed', alog', anchors. split_and!; [done|done|]. unfold swal_log.
      by rewrite Heq, <-!app_assoc. }
  destruct Hroll as (sealed' & alog' & anchors & Hi' & Han & Heq & Hlt); [done|].
  destruct (append_keyed os target payload key (sw_writer s1)) as [w r1] eqn:Hap. injection Ha as <- <-.
  pose proof (seg_append _ _ _ _ _ _ _ _ _ (si_active _ _ _ _ _ Hi') Ht Hlt Hap) as Hw.
  destruct r1 as [lsn|e].
  - destruct Hw as (r & Hcr & Hsg). exists sealed', (alog' ++ [r]), anchors.
    split_and!; [by eapply swal_inv_writer|done|]. exists r. split; [done|]. unfold swal_log.
    by rewrite (app_assoc (mjoin sealed'.*2)), Heq, <-!app_assoc.
  - exists sealed', alog', anchors. split_and!; [by eapply swal_inv_writer|done|]. unfold swal_log.
    by rewrite Heq, <-!app_assoc.
Qed.

Lemma swal_log_clients gone sealed alog sealed' alog' anchors :
  Forall is_time_anchor anchors →
  mjoin sealed'.*2 ++ alog' = mjoin sealed.*2 ++ alog ++ anchors →
  List.filter of_client (swal_log gone sealed' alog') = List.filter of_client (swal_log gone sealed alog).
Proof.
  intros Han Heq. unfold swal_log. rewrite Heq, !List.filter_app, (anchors_not_client anchors) by done.
  by rewrite app_nil_r.
Qed.

(** Every step keeps the invariant, and the log gains what it accepted. *)
Lemma swal_step_inv e s s' floor gone sealed alog :
  swal_inv s floor gone sealed alog → swal_step e s s' →
  ∃ gone' sealed' alog', swal_inv s' (N.max floor (truncated_at [e])) gone' sealed' alog' ∧
    List.filter of_client (swal_log gone' sealed' alog') =
    List.filter of_client (swal_log gone sealed alog) ++ appended [e].
Proof.
  intros Hi Hs. destruct Hs as [env os target payload key s s' lsn r Hc Hr Ha Hcr
    |env os target payload key s s' e Hc Hr Ha He|env s s' res Hr Hs|env s s' res Hr Hs He
    |env cp s s' res Ht|bs s]; simpl truncated_at; rewrite ?N.max_0_r; simpl appended; rewrite ?app_nil_r.
  - destruct (swal_append_inv _ _ _ _ _ _ _ _ _ _ _ _ Hi Hc Hr Ha) as (sealed' & alog' & anchors & Hi' & Han & r' & Hcr' & Heq);
      [done|]. rewrite Hcr in Hcr'. injection Hcr' as <-. exists gone, sealed', alog'. split; [done|].
    rewrite Heq, !List.filter_app, (anchors_not_client anchors) by done. simpl.
    by rewrite (client_of_client _ _ _ _ _ Hc Hcr).
  - destruct (swal_append_inv _ _ _ _ _ _ _ _ _ _ _ _ Hi Hc Hr Ha) as (sealed' & alog' & anchors & Hi' & Han & Heq);
      [by intros e' [= <-]|]. exists gone, sealed', alog'. split; [done|].
    rewrite Heq, List.filter_app, (anchors_not_client anchors) by done. by rewrite app_nil_r.
  - unfold swal_sync in Hs. destruct (sync env (sw_writer s)) as [w r] eqn:Hsy. injection Hs as <- <-.
    destruct (seg_sync _ _ _ _ _ _ (si_active _ _ _ _ _ Hi) ltac:(unfold has_room in Hr; lia) Hsy)
      as (anchors & Han & Hsg & _).
    exists gone, sealed, (alog ++ anchors). split; [by eapply swal_inv_writer|]. by eapply swal_log_clients.
  - unfold seal_active_segment in Hs.
    destruct (N.eqb_spec (ww_next_lsn (sw_writer s)) (sw_active_first_lsn s)) as [Heq|Hne].
    { injection Hs as <- <-. by exists gone, sealed, alog. }
    assert (alog ≠ []) as Hlog.
    { intros ->. pose proof (sg_next _ _ _ (si_active _ _ _ _ _ Hi)) as Hn. simpl in Hn. lia. }
    destruct (roll_spec _ _ _ _ _ _ _ _ Hi Hr Hlog Hs He) as (sealed' & alog' & anchors & Hi' & Han & Heq & _).
    exists gone, sealed', alog'. split; [done|]. by eapply swal_log_clients.
  - destruct (truncate_inv _ _ _ _ _ _ _ _ _ Hi Ht) as (sgone & skept & -> & _ & Hi').
    exists (gone ++ mjoin sgone.*2), skept, alog. split; [by rewrite N.max_0_l|]. unfold swal_log.
    by rewrite fmap_app, join_app, <-!app_assoc.
  - exists gone, sealed, alog. split; [|done]. pose proof Hi as []. eapply swal_inv_keep; try done.
    intros p l Hp Hne. simpl. by rewrite (wal_dir_seg s p l), bool_decide_false by done.
Qed.

Lemma swal_inv_floor s floor floor' gone sealed alog :
  floor ≤ floor' → swal_inv s floor gone sealed alog → swal_inv s floor' gone sealed alog.
Proof. intros Hle []. split; try done. destruct si_floor0; [by left|right; lia]. Qed.

Lemma truncated_at_app a b : truncated_at (a ++ b) = N.max (truncated_at a) (truncated_at b).
Proof. unfold truncated_at. induction a as [|[] a IH]; simpl; rewrite ?IH; lia. Qed.

(** A log opened on an empty directory. *)
Lemma open_fresh config opened ok dir0 s0 :
  config_fits (swc_writer_config config) → 0 < swc_segment_target_size config →
  swal_open config opened ok ∅ = (dir0, Some (Ok s0)) → swal_inv s0 0 [] [] [].
Proof.
  intros Hc Ht. unfold swal_open. assert (discover_segments (∅ : WalDir) = []) as -> by done.
  cbn [last]. unfold open_segment_file. rewrite lookup_empty. cbn [default from_option].
  change (default (MkSegFile [] [] []) None) with (MkSegFile [] [] []). unfold open_writer.
  destruct (aligned_buf_new _ _) as [[b|]|] eqn:Hb; [|done..]. simpl flen.
  destruct (fsync_directory ok); [|done]. intros [= _ <-].
  assert (∀ p l, parse_segment_filename p = Some l →
    (wal_dir (MkSegmentedWal (∅ : WalDir) (segment_filename 1) true
       (sf_bytes <$> (∅ : WalDir) !! dwb_name (segment_filename 1))
       (writer_at (swc_writer_config config) (MkSegFile [] [] []) b 0 1 opened) 1
       (swc_segment_target_size config) (swc_writer_config config) None)) !! p =
    if bool_decide (p = segment_filename 1)
    then Some (ww_file (writer_at (swc_writer_config config) (MkSegFile [] [] []) b 0 1 opened))
    else None) as Hdir.
  { intros p l Hp. by rewrite (wal_dir_seg _ p l) by done. }
  split; try done.
  - eapply (seg_fresh (swc_writer_config config)); [done|]. unfold open_with_start_lsn. by rewrite Hb.
  - intros p l Hp. rewrite (Hdir p l Hp). case_bool_decide as Hpp; [|by intros []]. intros _.
    subst p. rewrite parse_segment_name in Hp by done. injection Hp as <-. split; [done|by left].
  - by left.
Qed.

Lemma swal_run_inv s0 evs s :
  swal_inv s0 0 [] [] [] → swal_run s0 evs s →
  ∃ gone sealed alog, swal_inv s (truncated_at evs) gone sealed alog ∧
    List.filter of_client (swal_log gone sealed alog) = appended evs.
Proof.
  intros Hi. induction 1 as [s|s evs s1 e s2 Hr IH Hs]; [by exists [], [], []|].
  destruct (IH Hi) as (gone & sealed & alog & Hi1 & Hl).
  destruct (swal_step_inv _ _ _ _ _ _ _ Hi1 Hs) as (gone' & sealed' & alog' & Hi' & Hl').
  exists gone', sealed', alog'. rewrite truncated_at_app. split; [done|].
  rewrite Hl', Hl. unfold appended. by rewrite omap_app.
Qed.

(** ** Replay *)

Lemma chain_metas dir start sealed active alog :
  sealed_chain start sealed active → dense active alog →
  lsn_chain start (meta_of dir <$> sealed.*1 ++ [active]) (sealed.*2 ++ [alog]).
Proof.
  revert start. induction sealed as [|[l rs] sealed IH]; intros start; csimpl; [by intros -> Hd|].
  intros (-> & Hd & _ & Hc) Ha. split_and!; [done|done|by apply IH].
Qed.

(** The directory of a log that is synced: every segment can be read, and they
    follow on each other. *)
Lemma swal_reads s floor gone sealed alog :
  swal_inv s floor gone sealed alog → holds (sf_bytes (ww_file (sw_writer s))) alog →
  map_Forall (λ _ f, flen (sf_bytes f) < 2 ^ 63) (wal_dir s) →
  Forall2 (seg_read (wal_dir s) None) (discover_segments (wal_dir s)) (sealed.*2 ++ [alog]) ∧
  lsn_chain (1 + N.of_nat (length gone)) (discover_segments (wal_dir s)) (sealed.*2 ++ [alog]).
Proof.
  intros Hi Hh Hsz. pose proof Hi as []. rewrite (swal_discover _ _ _ _ _ Hi).
  split; [|apply chain_metas; [done|by eapply sg_dense]].
  assert (∀ l f rs, wal_dir s !! segment_filename l = Some f → holds (sf_bytes f) rs →
    seg_read (wal_dir s) None (meta_of (wal_dir s) l) rs) as Hread.
  { intros l f rs Hf Hr. eapply holds_read; [exact Hf|done|]. by eapply (Hsz (segment_filename l)). }
  rewrite fmap_app. apply Forall2_app.
  - rewrite Forall2_fmap_l, Forall2_fmap_l, Forall2_fmap_r. apply Forall_Forall2_diag.
    eapply Forall_impl; [exact si_files0|]. intros x (f & Hf & Hr). by eapply Hread.
  - constructor; [|done]. eapply Hread; [|exact Hh].
    rewrite (wal_dir_seg s _ _ si_linked0 (parse_segment_name _ si_bound0)).
    by rewrite <-si_path0, bool_decide_true.
Qed.

(** It is replayed as the log. *)
Lemma swal_replayed s floor gone sealed alog from max :
  swal_inv s floor gone sealed alog → holds (sf_bytes (ww_file (sw_writer s))) alog →
  map_Forall (λ _ f, flen (sf_bytes f) < 2 ^ 63) (wal_dir s) → floor ≤ from → 0 < from →
  replay_from_limit_dir (wal_dir s) from max None =
    Some (Ok (cut max (from_on from (swal_log gone sealed alog)))).
Proof.
  intros Hi Hh Hsz Hfl Hfrom. destruct (swal_reads _ _ _ _ _ Hi Hh Hsz) as [Hrs Hc].
  assert (1 + N.of_nat (length gone) ≤ from) as Hgone
    by (destruct (si_floor _ _ _ _ _ Hi) as [->|]; simpl; lia).
  unfold replay_from_limit_dir.
  assert (check_retained_floor (discover_segments (wal_dir s)) from = Ok tt) as ->.
  { unfold check_retained_floor. destruct (from =? 0); [done|].
    destruct (discover_segments (wal_dir s)) as [|m metas]; [done|].
    destruct (sealed.*2 ++ [alog]); [done|]. destruct Hc as [-> _]. by rewrite (proj2 (N.leb_le _ _)). }
  rewrite (replay_segments_ok _ _ _ _ _ (sealed.*2 ++ [alog])); [|done| |simpl; lia].
  - simpl. do 3 f_equal. unfold swal_log. rewrite join_app. simpl. rewrite app_nil_r, !from_on_app.
    rewrite (from_on_below from gone); [done|]. eapply dense_below; [by eapply si_gone|done].
  - eapply chain_linked; [exact Hc|lia|done|]. intros m Hm. by eapply parse_segment_lt, discover_path.
Qed.

(** Its directory meets what truncation and the check for holes rely on. *)
Lemma swal_ordered s floor gone sealed alog :
  swal_inv s floor gone sealed alog → holds (sf_bytes (ww_file (sw_writer s))) alog →
  map_Forall (λ _ f, flen (sf_bytes f) < 2 ^ 63) (wal_dir s) → ww_next_lsn (sw_writer s) < 2 ^ 64 →
  segments_ordered (wal_dir s) None.
Proof.
  intros Hi Hh Hsz Hn. destruct (swal_reads _ _ _ _ _ Hi Hh Hsz) as [Hrs Hc].
  eapply chain_ordered; [by eapply swal_unique|exact Hrs|exact Hc|].
  rewrite join_app, length_app. simpl. rewrite app_nil_r.
  pose proof (proj1 (sealed_chain_end _ _ _ (si_chain _ _ _ _ _ Hi))) as He.
  pose proof (sg_next _ _ _ (si_active _ _ _ _ _ Hi)) as Hx. lia.
Qed.

(** C11. The segmented log loses nothing it acknowledged and adds nothing. It is
    opened on an empty directory and run through appends that roll to new
    segments, syncs, seals and truncations, whatever writes, fsyncs, file
    creations and removals return, as long as a failed roll removes the file it
    created. After a sync that succeeds there is a log whose LSNs count up from 1
    without a gap and whose records, time anchors apart, are those that were
    accepted, in order; and replay from any LSN not below a checkpoint returns
    that log from there on, cut at the limit. *)
Theorem segmented_replay_exact config opened ok dir0 s0 evs s env s' from max :
  config_fits (swc_writer_config config) → 0 < swc_segment_target_size config →
  swal_open config opened ok ∅ = (dir0, Some (Ok s0)) → swal_run s0 evs s →
  has_room s → swal_sync env s = (s', Ok tt) →
  map_Forall (λ _ f, flen (sf_bytes f) < 2 ^ 63) (wal_dir s') →
  truncated_at evs ≤ from → 0 < from →
  ∃ log, dense 1 log ∧ List.filter of_client log = appended evs ∧
    replay_from_limit_dir (wal_dir s') from max None = Some (Ok (cut max (from_on from log))).
Proof.
  intros Hc Ht Ho Hr Hroom Hs Hsz Hfl Hfrom. apply open_fresh in Ho; [|done..].
  destruct (swal_run_inv _ _ _ Ho Hr) as (gone & sealed & alog & Hi & Hl).
  unfold swal_sync in Hs. destruct (sync env (sw_writer s)) as [w r] eqn:Hsy. injection Hs as <- ->.
  destruct (seg_sync _ _ _ _ _ _ (si_active _ _ _ _ _ Hi) ltac:(unfold has_room in Hroom; lia) Hsy)
    as (anchors & Han & Hsg & Hh).
  pose proof (swal_inv_writer _ _ _ _ _ _ _ Hi Hsg) as Hi'.
  exists (swal_log gone sealed (alog ++ anchors)). split_and!.
  - pose proof Hi' as []. apply dense_app. split; [done|]. apply dense_app.
    apply sealed_chain_end in si_chain0 as [He Hd]. split; [done|]. rewrite <-He. by eapply sg_dense.
  - rewrite <-Hl. by eapply swal_log_clients.
  - eapply swal_replayed; try done. by apply Hh.
Qed.
End system.
