(* ===== verification/WalSegmentedExamples.v ===== *)
(** * The segmented WAL on concrete runs

    A log that rolls, seals and truncates, at which the theorems are applied;
    and two runs in which a roll that fails costs acknowledged records. *)

From stdpp Require Import base option strings gmap sorting list.
From S2P Require Import Prelude WalRecord WalReader WalReaderFacts WalWriter WalWriterFacts WalDwb.
From S2P Require Import WalCrash WalExamples WalSegments WalSegmentsFacts WalReplay WalSegmented.
From S2P Require Import WalSegmentedThms.

Open Scope N_scope.

(** ** A run *)

Definition sx_config : SegmentedWalConfig := MkSegmentedWalConfig 100 ex_config.

(** A system in which everything works. *)
Definition sx_env : RollEnv Dwb :=
  MkRollEnv (Some [5; 6; 7; 8]) ex_env true None None true ex_env (λ _, true) true.

Definition sx_open : SegmentedWal Dwb :=
  match (swal_open sx_config None true ∅).2 with
  | Some (Ok s) => s
  | _ => MkSegmentedWal ∅ EmptyString false None ex_w0 0 0 ex_config None
  end.

Definition sx_append (payload : bytes) (s : SegmentedWal Dwb) : SegmentedWal Dwb :=
  (swal_append_keyed sx_env [] ex_target payload 0 s).1.

Definition sx_sync (s : SegmentedWal Dwb) : SegmentedWal Dwb := (swal_sync ex_env s).1.

Definition sx_truncate (cp : u64) (s : SegmentedWal Dwb) : SegmentedWal Dwb :=
  (truncate_before (MkTruncateEnv (λ _, true) true) cp s).1.

Definition sx_s0 : SegmentedWal Dwb := Eval vm_compute in sx_open.
Definition sx_s1 : SegmentedWal Dwb := Eval vm_compute in sx_append [1; 2; 3] sx_s0.
Definition sx_s2 : SegmentedWal Dwb := Eval vm_compute in sx_append [4; 5] sx_s1.
Definition sx_s3 : SegmentedWal Dwb := Eval vm_compute in sx_sync sx_s2.
(** The first segment is above its target size: this append rolls. *)
Definition sx_s4 : SegmentedWal Dwb := Eval vm_compute in sx_append [6] sx_s3.
Definition sx_s5 : SegmentedWal Dwb := Eval vm_compute in (seal_active_segment sx_env sx_s4).1.
Definition sx_s6 : SegmentedWal Dwb := Eval vm_compute in sx_append [7; 8] sx_s5.
Definition sx_s7 : SegmentedWal Dwb := Eval vm_compute in sx_truncate 3 sx_s6.
Definition sx_s8 : SegmentedWal Dwb := Eval vm_compute in sx_sync sx_s7.
(** The same without the truncation. *)
Definition sx_full : SegmentedWal Dwb := Eval vm_compute in sx_sync sx_s6.

Definition sx_r1 : WalRecord := Eval vm_compute in ex_record 1 [1; 2; 3].
Definition sx_r2 : WalRecord := Eval vm_compute in ex_record 2 [4; 5].
Definition sx_r3 : WalRecord := Eval vm_compute in ex_record 3 [6].
Definition sx_r4 : WalRecord := Eval vm_compute in ex_record 4 [7; 8].

Example sx_segments :
  sm_first_lsn <$> discover_segments (wal_dir sx_full) = [1; 3; 4] ∧
  sm_first_lsn <$> discover_segments (wal_dir sx_s8) = [3; 4].
Proof. by vm_compute. Qed.

Definition sx_events : list SwalEvent :=
  [SwAppend (Some sx_r1); SwAppend (Some sx_r2); SwControl; SwAppend (Some sx_r3); SwControl;
   SwAppend (Some sx_r4)].

Lemma sx_client_ok : client_ok ex_target 0.
Proof. split; [apply ex_target_ok|by vm_compute]. Qed.

Definition sx_dir0 : WalDir := Eval vm_compute in (swal_open (D := Dwb) sx_config None true ∅).1.

Lemma sx_opened : swal_open sx_config None true ∅ = (sx_dir0, Some (Ok sx_s0)).
Proof. vm_compute. reflexivity. Qed.

Lemma sx_run : swal_run sx_s0 sx_events sx_s6.
Proof.
  refine (swal_run_snoc _ [_; _; _; _; _] sx_s5 _ _ (swal_run_snoc _ [_; _; _; _] sx_s4 _ _
    (swal_run_snoc _ [_; _; _] sx_s3 _ _ (swal_run_snoc _ [_; _] sx_s2 _ _ (swal_run_snoc _ [_] sx_s1 _ _
    (swal_run_snoc _ [] sx_s0 _ _ (swal_run_nil _) _) _) _) _) _) _).
  - eapply (sw_append sx_env [] ex_target [1; 2; 3] 0); [apply sx_client_ok|by vm_compute..].
  - eapply (sw_append sx_env [] ex_target [4; 5] 0); [apply sx_client_ok|by vm_compute..].
  - eapply (sw_sync ex_env _ _ (Ok tt)); by vm_compute.
  - eapply (sw_append sx_env [] ex_target [6] 0); [apply sx_client_ok|by vm_compute..].
  - eapply (sw_seal sx_env _ _ (Ok tt)); [by vm_compute..|done].
  - eapply (sw_append sx_env [] ex_target [7; 8] 0); [apply sx_client_ok|by vm_compute..].
Qed.

Lemma sx_run_truncated : swal_run sx_s0 (sx_events ++ [SwTruncate 3]) sx_s7.
Proof.
  eapply swal_run_snoc; [apply sx_run|].
  eapply (sw_truncate (MkTruncateEnv (λ _, true) true) 3 _ _ (Ok (MkTruncateResult 1 131))).
  by vm_compute.
Qed.

(** Files of a concrete directory are small. *)
Ltac small_files :=
  apply (bool_decide_unpack _); vm_compute; reflexivity.

Lemma segmented_replay_exact_witness :
  swal_run sx_s0 (sx_events ++ [SwTruncate 3]) sx_s7 ∧
  ∃ log, dense 1 log ∧ List.filter of_client log = [sx_r1; sx_r2; sx_r3; sx_r4] ∧
    replay_from_limit_dir (wal_dir sx_s8) 3 10 None = Some (Ok (cut 10 (from_on 3 log))).
Proof.
  split; [apply sx_run_truncated|].
  apply (segmented_replay_exact sx_config None true _ sx_s0 (sx_events ++ [SwTruncate 3]) sx_s7 ex_env sx_s8 3 10
    (proj1 ex_config_fits) eq_refl sx_opened sx_run_truncated); [by vm_compute..| |done|done].
  small_files.
Defined.

Lemma sx_full_inv : ∃ gone sealed alog,
  swal_inv sx_full 0 gone sealed alog ∧ holds (sf_bytes (ww_file (sw_writer sx_full))) alog ∧
  map_Forall (λ _ f, flen (sf_bytes f) < 2 ^ 63) (wal_dir sx_full).
Proof.
  pose proof (open_fresh sx_config None true sx_dir0 sx_s0 (proj1 ex_config_fits) eq_refl sx_opened) as H0.
  destruct (swal_run_inv _ _ _ H0 sx_run) as (gone & sealed & alog & Hi & _).
  assert (sync ex_env (sw_writer sx_s6) = (sw_writer sx_full, Ok tt)) as Hs by (vm_compute; reflexivity).
  destruct (seg_sync _ _ _ _ _ _ (si_active _ _ _ _ _ Hi) ltac:(vm_compute; reflexivity) Hs)
    as (anchors & _ & Hsg & Hh).
  exists gone, sealed, (alog ++ anchors). split_and!; [|by apply Hh|small_files].
  exact (swal_inv_writer _ _ _ _ _ _ _ Hi Hsg).
Qed.


(** The directory fsync fails. *)
Lemma truncation_keeps_suffix_witness :
  sm_first_lsn <$> discover_segments (truncate_segments (MkTruncateEnv (λ _, true) false) 4 4 (wal_dir sx_full)).1 =
    [4] ∧
  replay_from_limit_dir (truncate_segments (MkTruncateEnv (λ _, true) false) 4 4 (wal_dir sx_full)).1 4 10 None =
    Some (Ok ([sx_r4], false)).
Proof.
  split; [vm_compute; reflexivity|].
  destruct sx_full_inv as (gone & sealed & alog & Hi & Hh & Hsz).
  apply (truncation_keeps_suffix (wal_dir sx_full) _ 4 4 None 4 10).
  - by eapply swal_unique.
  - eapply swal_ordered; [exact Hi|exact Hh|exact Hsz|vm_compute; reflexivity].
  - intros m Hm. assert (Forall (λ m, sm_first_lsn m ≤ 4) (discover_segments (wal_dir sx_full))) as Hall
      by (apply (bool_decide_unpack _); vm_compute; reflexivity).
    rewrite Forall_forall in Hall. by apply Hall.
  - done.
  - vm_compute. reflexivity.
Defined.


(** A hole is an error. *)
Example hole_reported :
  replay_from_limit_dir (delete (segment_filename 3) (wal_dir sx_full)) 1 10 None =
    Some (Err (SegmentLsnGap 2 3 4)).
Proof. vm_compute. reflexivity. Qed.

(** ** A roll whose clean-up fails *)

Definition orphan_config : SegmentedWalConfig := MkSegmentedWalConfig 1000 ex_config.

(** The directory fsync fails and so does the removal of the new file. *)
Definition orphan_env : RollEnv Dwb :=
  MkRollEnv None ex_env true None None false ex_env (λ _, false) true.

Definition or_open : SegmentedWal Dwb :=
  match (swal_open orphan_config None true ∅).2 with Some (Ok s) => s | _ => sx_s0 end.

Definition or_s0 : SegmentedWal Dwb := Eval vm_compute in or_open.
Definition or_s1 : SegmentedWal Dwb := Eval vm_compute in sx_sync (sx_append [1; 2; 3] or_s0).
Definition or_s2 : SegmentedWal Dwb := Eval vm_compute in (seal_active_segment orphan_env or_s1).1.
Definition or_s3 : SegmentedWal Dwb := Eval vm_compute in sx_append [4; 5] or_s2.
Definition or_s4 : SegmentedWal Dwb := Eval vm_compute in sx_sync or_s3.
Definition or_s5 : SegmentedWal Dwb := Eval vm_compute in (seal_active_segment sx_env or_s4).1.
Definition or_s6 : SegmentedWal Dwb := Eval vm_compute in sx_sync (sx_append [6] or_s5).
Definition or_s7 : SegmentedWal Dwb := Eval vm_compute in sx_truncate 2 or_s6.


(** ** A key rotation that fails on an empty segment *)

Definition rotation_ring : KeyRing := MkKeyRing (MkWalEncryptionKey [1] [1; 2; 3; 4]) None.

(** The new segment's file cannot be opened. *)
Definition rotation_env : RollEnv Dwb :=
  MkRollEnv None ex_env false None None true ex_env (λ _, true) true.

Definition ro_s1 : SegmentedWal Dwb :=
  Eval vm_compute in (rotate_encryption_ring rotation_env rotation_ring or_s0).1.
Definition ro_s2 : SegmentedWal Dwb := Eval vm_compute in sx_append [1; 2; 3] ro_s1.
Definition ro_s3 : SegmentedWal Dwb := Eval vm_compute in sx_sync ro_s2.

