(* ===== verification/WalFilters.v ===== *)
(** * Replay filters

    What a replay must know before it applies its first record
    ([nodedb-wal/src/replay], [tombstone.rs], [record/aborted.rs]): which
    collections were dropped and up to which LSN, and which writes were refused
    after their record was appended; the names of collections in both forms
    ([nodedb-types/src/id]); and the filter over a replay stream
    ([nodedb/src/wal/manager/replay.rs]).

    A Rust [String] is a Rocq [string] of its UTF-8 bytes; a [HashMap] is a
    [gmap], a [HashSet] a [gset]. *)

From stdpp Require Import base option strings pretty gmap list.
From S2P Require Import Prelude WalRecord WalReader WalWriter WalWriterFacts WalSegments WalSegmentsFacts WalReplay.

Open Scope N_scope.

(** ** Strings and bytes *)

Definition string_bytes (s : string) : bytes := Ascii.N_of_ascii <$> String.list_ascii_of_string s.
Definition bytes_string (bs : bytes) : string := String.string_of_list_ascii (Ascii.ascii_of_N <$> bs).

(** A continuation byte. *)
Definition utf8_cont (b : N) : bool := (0x80 <=? b) && (b <=? 0xBF).

(** [str::from_utf8] accepts the bytes. *)
Fixpoint utf8_valid (bs : bytes) : bool :=
  match bs with
  | [] => true
  | b :: bs1 =>
      if b <? 0x80 then utf8_valid bs1
      else
        match bs1 with
        | [] => false
        | c :: bs2 =>
            if (0xC2 <=? b) && (b <=? 0xDF) then utf8_cont c && utf8_valid bs2
            else
              match bs2 with
              | [] => false
              | d :: bs3 =>
                  if (0xE0 <=? b) && (b <=? 0xEF) then
                    utf8_cont c && (negb (b =? 0xE0) || (0xA0 <=? c)) &&
                    (negb (b =? 0xED) || (c <=? 0x9F)) && utf8_cont d && utf8_valid bs3
                  else
                    match bs3 with
                    | [] => false
                    | e :: bs4 =>
                        (0xF0 <=? b) && (b <=? 0xF4) &&
                        utf8_cont c && (negb (b =? 0xF0) || (0x90 <=? c)) &&
                        (negb (b =? 0xF4) || (c <=? 0x8F)) && utf8_cont d && utf8_cont e &&
                        utf8_valid bs4
                    end
              end
        end
  end.

(** ** Collection names ([database.rs], [qualified_collection.rs], [collection_key.rs]) *)

(** [DatabaseId::DEFAULT]. *)
Definition DEFAULT_DATABASE : u64 := 0.

Record CollectionKey : Type := MkCollectionKey {
  ck_database_id : u64;
  ck_name : string;
}.

(** [QualifiedCollection::new]. *)
Definition qualified_new (database_id : u64) (collection : string) : string :=
  if database_id =? DEFAULT_DATABASE then collection
  else (pretty database_id +:+ "/" +:+ collection)%string.

(** [CollectionKey::qualified]. *)
Definition key_qualified (key : CollectionKey) : string :=
  qualified_new (ck_database_id key) (ck_name key).

(** [str::split_once] at a slash. *)
Fixpoint split_once_slash (s : string) : option (string * string) :=
  match s with
  | EmptyString => None
  | String c s =>
      if Ascii.N_of_ascii c =? 47 then Some (EmptyString, s)
      else
        match split_once_slash s with
        | Some (head, bare) => Some (String c head, bare)
        | None => None
        end
  end.

Definition is_ascii_digit (b : N) : bool := (48 <=? b) && (b <=? 57).

Definition starts_with_zero (s : string) : bool :=
  match s with String c _ => Ascii.N_of_ascii c =? 48 | EmptyString => false end.

Inductive CollectionKeyError : Type :=
  | NotQualified (database_id : u64) (name : string).

(** [CollectionKey::from_qualified_str]. *)
Definition from_qualified_str (database_id : u64) (qualified : string) :
    result CollectionKeyError CollectionKey :=
  if (database_id =? DEFAULT_DATABASE) || bool_decide (qualified = EmptyString) then
    Ok (MkCollectionKey database_id qualified)
  else
    match split_once_slash qualified with
    | None => Err (NotQualified database_id qualified)
    | Some (head, bare) =>
        if bool_decide (head = EmptyString) || negb (forallb is_ascii_digit (string_bytes head)) then
          Err (NotQualified database_id qualified)
        else
          match parse_u64 head with
          | Some raw =>
              if (raw =? database_id) && negb (starts_with_zero head) then
                Ok (MkCollectionKey database_id bare)
              else Err (NotQualified database_id qualified)
          | None => Err (NotQualified database_id qualified)
          end
    end.

(** ** Payloads ([tombstone.rs], [record/aborted.rs]) *)

Definition MAX_COLLECTION_NAME_LEN : usize := 255.

Record CollectionTombstonePayload : Type := MkCollectionTombstonePayload {
  tp_collection : string;
  tp_purge_lsn : u64;
}.

Definition tombstone_to_bytes (p : CollectionTombstonePayload) : result WalError bytes :=
  let name_bytes := string_bytes (tp_collection p) in
  if MAX_COLLECTION_NAME_LEN <? flen name_bytes then
    Err (PayloadTooLarge (flen name_bytes) MAX_COLLECTION_NAME_LEN)
  else Ok (to_le 4 (flen name_bytes) ++ name_bytes ++ to_le 8 (tp_purge_lsn p)).

Definition tombstone_from_bytes (buf : bytes) : result WalError CollectionTombstonePayload :=
  if flen buf <? 4 then Err (CorruptRecord 0)
  else
    let name_len := from_le (take 4 buf) in
    if MAX_COLLECTION_NAME_LEN <? name_len then Err (CorruptRecord 0)
    else
      let need := 4 + name_len + 8 in
      if flen buf <? need then Err (CorruptRecord 0)
      else
        let name := take (N.to_nat name_len) (drop 4 buf) in
        if negb (utf8_valid name) then Err (CorruptRecord 0)
        else
          Ok (MkCollectionTombstonePayload (bytes_string name)
                (from_le (take 8 (drop (N.to_nat (4 + name_len)) buf)))).

Definition WRITE_ABORTED_PAYLOAD_SIZE : usize := 8.

(** [WriteAbortedPayload::to_bytes] and [from_bytes]; the payload is its LSN. *)
Definition aborted_to_bytes (aborted_lsn : u64) : bytes := to_le 8 aborted_lsn.

Definition aborted_from_bytes (buf : bytes) : result WalError u64 :=
  if negb (flen buf =? WRITE_ABORTED_PAYLOAD_SIZE) then Err InvalidPayload
  else Ok (from_le (take 8 buf)).

(** ** The sets ([replay/filter.rs], [replay/aborted.rs]) *)

Record Tombstone : Type := MkTombstone {
  ts_bare_name : string;
  ts_purge_lsn : u64;
}.

Abbreviation TombstoneSlot := (N * N * string)%type (only parsing).
Abbreviation TombstoneSet := (gmap (N * N * string) Tombstone) (only parsing).
Abbreviation AbortedWrites := (gset N) (only parsing).

(** [TombstoneSet::merge]. *)
Definition tombstone_merge (slot : TombstoneSlot) (tombstone : Tombstone) (set : TombstoneSet) :
    TombstoneSet :=
  match set !! slot with
  | Some existing =>
      if ts_purge_lsn existing <? ts_purge_lsn tombstone then
        <[slot := MkTombstone (ts_bare_name existing) (ts_purge_lsn tombstone)]> set
      else set
  | None => <[slot := tombstone]> set
  end.

(** The slot of a collection of a tenant. *)
Definition slot_of_key (key : CollectionKey) (tenant_id : u64) : TombstoneSlot :=
  (ck_database_id key, tenant_id, key_qualified key).

(** [TombstoneSet::insert]. *)
Definition tombstone_insert (key : CollectionKey) (tenant_id purge_lsn : u64) (set : TombstoneSet) :
    TombstoneSet :=
  tombstone_merge (slot_of_key key tenant_id) (MkTombstone (ck_name key) purge_lsn) set.

(** [TombstoneSet::is_tombstoned]. *)
Definition is_tombstoned (set : TombstoneSet) (database_id tenant_id : u64) (storage_name : string)
    (lsn : u64) : bool :=
  match set !! (database_id, tenant_id, storage_name) with
  | Some tombstone => lsn <? ts_purge_lsn tombstone
  | None => false
  end.

(** [TombstoneSet::is_key_tombstoned]. *)
Definition is_key_tombstoned (set : TombstoneSet) (key : CollectionKey) (tenant_id lsn : u64) : bool :=
  is_tombstoned set (ck_database_id key) tenant_id (key_qualified key) lsn.

(** [TombstoneSet::purge_lsn]. *)
Definition purge_lsn (set : TombstoneSet) (key : CollectionKey) (tenant_id : u64) : option u64 :=
  ts_purge_lsn <$> set !! slot_of_key key tenant_id.

(** [TombstoneSet::extend]; the order of the other map does not matter. *)
Definition tombstones_extend (other set : TombstoneSet) : TombstoneSet :=
  foldr (λ entry, tombstone_merge entry.1 entry.2) set (map_to_list other).

Record ReplayFilters : Type := MkReplayFilters {
  rf_tombstones : TombstoneSet;
  rf_aborted : AbortedWrites;
}.

#[export] Instance eta_ReplayFilters : Eta ReplayFilters := λ r,
  MkReplayFilters (rf_tombstones r) (rf_aborted r).

(** [reject_if_encrypted]. *)
Definition reject_if_encrypted (record : WalRecord) : result WalError unit :=
  if negb (is_encrypted record) then Ok tt
  else Err (EncryptedRecordWithoutKey (rh_lsn (wr_header record))).

(** The body of the loop of [extract_replay_filters]. *)
Definition extract_record (record : WalRecord) (filters : ReplayFilters) :
    result WalError ReplayFilters :=
  match from_raw (logical_record_type record) with
  | Some CollectionTombstoned =>
      let? _u := reject_if_encrypted record in
      let? payload := tombstone_from_bytes (wr_payload record) in
      Ok (filters {{ rf_tombstones ::=
            tombstone_insert
              (MkCollectionKey (rh_database_id (wr_header record)) (tp_collection payload))
              (rh_tenant_id (wr_header record)) (tp_purge_lsn payload) }})
  | Some WriteAborted =>
      let? _u := reject_if_encrypted record in
      let? aborted_lsn := aborted_from_bytes (wr_payload record) in
      Ok (filters {{ rf_aborted ::= λ lsns, {[aborted_lsn]} ∪ lsns }})
  | _ => Ok filters
  end.

Fixpoint extract_loop (records : list WalRecord) (filters : ReplayFilters) :
    result WalError ReplayFilters :=
  match records with
  | [] => Ok filters
  | record :: records => let? filters := extract_record record filters in extract_loop records filters
  end.

Definition extract_replay_filters (records : list WalRecord) : result WalError ReplayFilters :=
  extract_loop records (MkReplayFilters ∅ ∅).

Definition extract_tombstones (records : list WalRecord) : result WalError TombstoneSet :=
  let? filters := extract_replay_filters records in Ok (rf_tombstones filters).

Definition drop_aborted_records (records : list WalRecord) (aborted : AbortedWrites) :
    list WalRecord :=
  if decide (aborted = ∅) then records
  else List.filter (λ record, negb (bool_decide (rh_lsn (wr_header record) ∈ aborted))) records.

(** ** The replay stream ([nodedb/src/wal/manager/replay.rs]) *)

(** [WalManager::without_aborted_writes]. *)
Definition without_aborted_writes (records : list WalRecord) : result WalError (list WalRecord) :=
  let? filters := extract_replay_filters records in
  if decide (rf_aborted filters = ∅) then Ok records
  else Ok (drop_aborted_records records (rf_aborted filters)).
