(* ===== verification/WalFiltersFacts.v ===== *)
(** * What the replay filters let through

    Names of collections and payloads come back from their encodings; the
    filters hold exactly what the markers of a stream say, in any order; and a
    refused write is dropped from a replay that starts at any LSN. *)

From stdpp Require Import base option strings pretty gmap list.
From S2P Require Import Prelude WalRecord WalReader WalWriter WalWriterFacts WalSegments WalSegmentsFacts WalReplay WalFilters.

Open Scope N_scope.

(** ** Strings and bytes *)

Lemma bytes_string_bytes s : bytes_string (string_bytes s) = s.
Proof.
  unfold bytes_string, string_bytes. induction s as [|c s IH]; [done|]. csimpl.
  by rewrite IH, Ascii.ascii_N_embedding.
Qed.

Lemma string_bytes_cons c s : string_bytes (String c s) = Ascii.N_of_ascii c :: string_bytes s.
Proof. done. Qed.

(** ** Names of collections *)

(** A database's names are told apart. *)
Lemma qualified_new_inj db a b : qualified_new db a = qualified_new db b → a = b.
Proof.
  unfold qualified_new. destruct (db =? DEFAULT_DATABASE); [done|].
  intros Heq. by do 2 apply (inj _) in Heq.
Qed.

Lemma pretty_char d : d < 10 → Ascii.N_of_ascii (pretty_N_char d) = 48 + d.
Proof.
  intros Hd.
  assert (d = 0 ∨ d = 1 ∨ d = 2 ∨ d = 3 ∨ d = 4 ∨ d = 5 ∨ d = 6 ∨ d = 7 ∨ d = 8 ∨ d = 9) as Hc by lia.
  by destruct_or! Hc; subst.
Qed.

(** The digits of a number, parsed from the left. *)
Lemma parse_pretty_go x : ∀ s, x < 2 ^ 64 → parse_digits (pretty_N_go x s) 0 = parse_digits s x.
Proof.
  induction (N.lt_wf_0 x) as [x _ IH]; intros s Hx.
  destruct (N.eq_dec x 0) as [->|Hne]; [done|].
  assert (x / 10 < x) as Hd by (apply N.div_lt; lia).
  pose proof (N.mod_lt x 10 ltac:(lia)) as Hm. pose proof (N.div_mod x 10 ltac:(lia)) as Hdm.
  rewrite pretty_N_go_step, IH by lia. simpl. rewrite pretty_char by done.
  revert Hm Hdm. generalize (x mod 10) (x / 10). intros d q Hm Hdm.
  rewrite !(proj2 (N.leb_le _ _)) by lia. simpl.
  replace (q * 10 + (48 + d - 48)) with x by lia. by rewrite (proj2 (N.ltb_lt _ _)).
Qed.

Lemma pretty_go_digits x : ∀ s,
  forallb is_ascii_digit (string_bytes (pretty_N_go x s)) = forallb is_ascii_digit (string_bytes s).
Proof.
  induction (N.lt_wf_0 x) as [x _ IH]; intros s.
  destruct (N.eq_dec x 0) as [->|Hne]; [done|].
  pose proof (N.mod_lt x 10 ltac:(lia)) as Hm.
  rewrite pretty_N_go_step, IH by (lia || by apply N.div_lt; lia).
  rewrite string_bytes_cons. simpl. rewrite pretty_char by done. unfold is_ascii_digit at 1.
  revert Hm. generalize (x mod 10). intros d Hm. by rewrite !(proj2 (N.leb_le _ _)) by lia.
Qed.

(** The first digit is not a zero. *)
Lemma pretty_go_head x : ∀ s, 0 < x →
  ∃ d t, pretty_N_go x s = String (pretty_N_char d) t ∧ 0 < d < 10.
Proof.
  induction (N.lt_wf_0 x) as [x _ IH]; intros s Hx. rewrite pretty_N_go_step by done.
  pose proof (N.div_mod x 10 ltac:(lia)) as Hdm. pose proof (N.mod_lt x 10 ltac:(lia)) as Hm.
  destruct (N.eq_dec (x / 10) 0) as [Hz|Hz].
  - rewrite Hz in *. rewrite pretty_N_go_0. exists (x mod 10), s. split; [done|].
    revert Hdm Hm. generalize (x mod 10). lia.
  - apply IH; [apply N.div_lt|]; lia.
Qed.

Lemma split_digits p t : forallb is_ascii_digit (string_bytes p) = true →
  split_once_slash (p +:+ "/" +:+ t) = Some (p, t).
Proof.
  induction p as [|c p IH]; [done|]. rewrite string_bytes_cons, string_app_cons. simpl.
  intros [Hd Hp]%andb_prop. unfold is_ascii_digit in Hd. apply andb_prop in Hd as [Hd _].
  apply N.leb_le in Hd. rewrite (proj2 (N.eqb_neq _ _)) by lia. by rewrite IH.
Qed.

(** A qualified name is read back as the collection it names. *)
Lemma qualified_roundtrip db name : db < 2 ^ 64 →
  from_qualified_str db (qualified_new db name) = Ok (MkCollectionKey db name).
Proof.
  intros Hdb. unfold from_qualified_str, qualified_new, DEFAULT_DATABASE.
  destruct (N.eqb_spec db 0) as [|Hne]; [done|]. simpl.
  assert (pretty db = pretty_N_go db EmptyString) as ->
    by (unfold pretty, pretty_N; by rewrite decide_False).
  destruct (pretty_go_head db EmptyString ltac:(lia)) as (d & t & Hp & Hd).
  rewrite split_digits by by rewrite pretty_go_digits.
  rewrite (pretty_go_digits db EmptyString).
  pose proof (parse_pretty_go db EmptyString Hdb) as Hparse.
  rewrite Hp in *. rewrite string_app_cons. simpl. simpl in Hparse. 
  rewrite pretty_char in * by lia.
  rewrite !(proj2 (N.eqb_neq _ _)) by lia. by rewrite Hparse, N.eqb_refl.
Qed.

(** ** Payloads *)

Lemma string_bytes_byte s : Forall (λ b, b < 256) (string_bytes s).
Proof.
  induction s as [|c s IH]; [done|]. rewrite string_bytes_cons. constructor; [|done].
  apply Ascii.N_ascii_bounded.
Qed.

(** A tombstone comes back, whatever bytes follow it. *)
Lemma tombstone_roundtrip p bs rest :
  utf8_valid (string_bytes (tp_collection p)) = true → tp_purge_lsn p < 2 ^ 64 →
  tombstone_to_bytes p = Ok bs → tombstone_from_bytes (bs ++ rest) = Ok p.
Proof.
  destruct p as [name lsn]. unfold tombstone_to_bytes, tombstone_from_bytes. cbn [tp_collection tp_purge_lsn]. intros Hu Hl.
  set (nb := string_bytes name) in *. destruct (N.ltb_spec MAX_COLLECTION_NAME_LEN (flen nb)) as [|Hn]; [done|].
  intros Hbs. assert (bs = to_le 4 (flen nb) ++ nb ++ to_le 8 lsn) as -> by congruence.
  unfold MAX_COLLECTION_NAME_LEN, flen in *.
  assert (take 4 ((to_le 4 (N.of_nat (length nb)) ++ nb ++ to_le 8 lsn) ++ rest) =
    to_le 4 (N.of_nat (length nb))) as ->
    by (rewrite <-app_assoc, take_app_le, take_ge; rewrite ?length_to_le; done || lia).
  rewrite from_le_to_le by (simpl; lia). rewrite !length_app, !length_to_le.
  rewrite !(proj2 (N.ltb_ge _ _)) by lia.
  rewrite <-!app_assoc, drop_app_length' by by rewrite length_to_le.
  rewrite take_app_length' by lia. rewrite Hu. cbn [negb]. unfold nb at 1. rewrite bytes_string_bytes.
  rewrite N2Nat.inj_add, Nat2N.id, (app_assoc (to_le 4 _)).
  rewrite drop_app_length' by (rewrite length_app, length_to_le; lia).
  rewrite take_app_length' by by rewrite length_to_le. by rewrite from_le_to_le.
Qed.

(** ** What the markers of a stream say *)

(** The record is a tombstone of the collection that purges below [purge]. *)
Definition tombstones_at (r : WalRecord) (key : CollectionKey) (tenant purge : u64) : Prop :=
  from_raw (logical_record_type r) = Some CollectionTombstoned ∧ is_encrypted r = false ∧
  tombstone_from_bytes (wr_payload r) = Ok (MkCollectionTombstonePayload (ck_name key) purge) ∧
  rh_database_id (wr_header r) = ck_database_id key ∧ rh_tenant_id (wr_header r) = tenant.

(** The record is the marker of a refused write at [lsn]. *)
Definition aborts (r : WalRecord) (lsn : u64) : Prop :=
  from_raw (logical_record_type r) = Some WriteAborted ∧ is_encrypted r = false ∧
  aborted_from_bytes (wr_payload r) = Ok lsn.

(** A marker that is plaintext and decodes; every other record is readable. *)
Definition readable (r : WalRecord) : bool :=
  match from_raw (logical_record_type r) with
  | Some CollectionTombstoned =>
      negb (is_encrypted r) && match tombstone_from_bytes (wr_payload r) with Ok _ => true | Err _ => false end
  | Some WriteAborted =>
      negb (is_encrypted r) && match aborted_from_bytes (wr_payload r) with Ok _ => true | Err _ => false end
  | _ => true
  end.

(** What a set shadows after a merge. *)
Lemma merge_shadows (slot : N * N * string) (t : Tombstone) set (db tenant : N) name lsn :
  is_tombstoned (tombstone_merge slot t set) db tenant name lsn =
  bool_decide (slot = (db, tenant, name)) && (lsn <? ts_purge_lsn t) || is_tombstoned set db tenant name lsn.
Proof.
  unfold is_tombstoned, tombstone_merge. case_bool_decide as Hs; simpl.
  - rewrite Hs. destruct (set !! (db, tenant, name)) as [old|] eqn:Hl.
    + destruct (N.ltb_spec (ts_purge_lsn old) (ts_purge_lsn t)).
      * rewrite lookup_insert_eq. simpl. destruct (N.ltb_spec lsn (ts_purge_lsn t)); [done|].
        by rewrite (proj2 (N.ltb_ge _ _)) by lia.
      * rewrite Hl. destruct (N.ltb_spec lsn (ts_purge_lsn t)); [|done].
        by rewrite (proj2 (N.ltb_lt _ _)) by lia.
    + rewrite lookup_insert_eq. simpl. by rewrite orb_false_r.
  - destruct (set !! slot); [destruct (_ <? _)|]; by rewrite ?lookup_insert_ne.
Qed.

Lemma slot_of_key_inj key key' tenant tenant' :
  slot_of_key key tenant = slot_of_key key' tenant' → key = key' ∧ tenant = tenant'.
Proof.
  destruct key as [db name], key' as [db' name']. unfold slot_of_key, key_qualified. simpl.
  intros [= -> -> Hn%qualified_new_inj]. by subst.
Qed.

(** Every collection of the other set or of this one is shadowed. *)
Lemma extend_shadows other set (db tenant : N) name lsn :
  is_tombstoned (tombstones_extend other set) db tenant name lsn =
  is_tombstoned other db tenant name lsn || is_tombstoned set db tenant name lsn.
Proof.
  unfold tombstones_extend. rewrite <-(list_to_map_to_list other) at 2.
  generalize (NoDup_fst_map_to_list other). generalize (map_to_list other).
  induction l as [|[slot t] l IH]; intros Hnd; [by unfold is_tombstoned|].
  apply NoDup_cons in Hnd as [Hni Hnd]. simpl. rewrite merge_shadows, IH by done. rewrite orb_assoc. f_equal.
  unfold is_tombstoned. case_bool_decide as Hs.
  - subst. rewrite lookup_insert_eq, not_elem_of_list_to_map_1 by done. by rewrite orb_false_r.
  - by rewrite lookup_insert_ne.
Qed.

(** What one record adds to the filters. *)
Lemma extract_record_spec r f :
  match extract_record r f with
  | Ok f' => readable r = true ∧
      (∀ key tenant lsn, is_key_tombstoned (rf_tombstones f') key tenant lsn = true ↔
         (∃ purge, tombstones_at r key tenant purge ∧ lsn < purge) ∨
         is_key_tombstoned (rf_tombstones f) key tenant lsn = true) ∧
      (∀ lsn, lsn ∈ rf_aborted f' ↔ aborts r lsn ∨ lsn ∈ rf_aborted f)
  | Err _ => readable r = false
  end.
Proof.
  unfold extract_record, readable, tombstones_at, aborts, reject_if_encrypted.
  destruct (from_raw (logical_record_type r)) as [[]|] eqn:Ht;
    try (split_and!; [done|naive_solver|naive_solver]).
  - destruct (is_encrypted r); [done|]. simpl.
    destruct (tombstone_from_bytes (wr_payload r)) as [[name purge]|] eqn:Hp; [|done]. simpl.
    split_and!; [done| |naive_solver]. intros key tenant lsn. unfold is_key_tombstoned, tombstone_insert.
    rewrite merge_shadows, orb_true_iff, andb_true_iff, bool_decide_eq_true, N.ltb_lt. simpl. f_equiv. split.
    + intros [[Hk <-]%slot_of_key_inj Hl]. exists purge. by rewrite <-Hk.
    + intros (purge' & (_ & _ & [= Hn ->] & Hdb & <-) & Hl). split; [|done].
      destruct key as [db name']. simpl in *. by subst.
  - destruct (is_encrypted r); [done|]. simpl.
    destruct (aborted_from_bytes (wr_payload r)) as [a|] eqn:Hp; [|done]. simpl.
    split_and!; [done|naive_solver|]. intros lsn. rewrite elem_of_union, elem_of_singleton. naive_solver.
Qed.

Lemma extract_loop_spec rs : ∀ f,
  match extract_loop rs f with
  | Ok f' => Forall (λ r, readable r = true) rs ∧
      (∀ key tenant lsn, is_key_tombstoned (rf_tombstones f') key tenant lsn = true ↔
         (∃ r purge, r ∈ rs ∧ tombstones_at r key tenant purge ∧ lsn < purge) ∨
         is_key_tombstoned (rf_tombstones f) key tenant lsn = true) ∧
      (∀ lsn, lsn ∈ rf_aborted f' ↔ (∃ r, r ∈ rs ∧ aborts r lsn) ∨ lsn ∈ rf_aborted f)
  | Err _ => ∃ r, r ∈ rs ∧ readable r = false
  end.
Proof.
  induction rs as [|r rs IH]; intros f; simpl.
  { split_and!; [done| |]; intros; set_solver. }
  pose proof (extract_record_spec r f) as Hr. destruct (extract_record r f) as [f1|]; simpl; [|set_solver].
  specialize (IH f1). destruct (extract_loop rs f1) as [f2|]; [|set_solver].
  destruct Hr as (Hok & Ht & Ha), IH as (Hoks & Hts & Has). split_and!; [by constructor| |].
  - intros. rewrite Hts, Ht. setoid_rewrite elem_of_cons. naive_solver.
  - intros. rewrite Has, Ha. setoid_rewrite elem_of_cons. naive_solver.
Qed.

(** C27. The filters a replay is given say exactly what the markers in its
    stream say, wherever they stand in it. A write to a collection is shadowed if
    and only if some tombstone of that collection, database and tenant has a purge
    boundary above it, and an LSN is refused if and only if some abort marker
    names it; the tombstones a checkpoint kept add theirs. Extraction fails exactly
    when a marker is still encrypted or does not decode. *)
Theorem replay_filters_exact rs :
  match extract_replay_filters rs with
  | Ok f => Forall (λ r, readable r = true) rs ∧
      (∀ kept key tenant lsn,
         is_key_tombstoned (tombstones_extend kept (rf_tombstones f)) key tenant lsn = true ↔
           is_key_tombstoned kept key tenant lsn = true ∨
           ∃ r purge, r ∈ rs ∧ tombstones_at r key tenant purge ∧ lsn < purge) ∧
      (∀ lsn, lsn ∈ rf_aborted f ↔ ∃ r, r ∈ rs ∧ aborts r lsn)
  | Err _ => ∃ r, r ∈ rs ∧ readable r = false
  end.
Proof.
  pose proof (extract_loop_spec rs (MkReplayFilters ∅ ∅)) as Hs. unfold extract_replay_filters.
  destruct (extract_loop rs _) as [f|]; [|done]. destruct Hs as (Hr & Ht & Ha). split_and!; [done| |].
  - intros kept key tenant lsn. specialize (Ht key tenant lsn). unfold is_key_tombstoned in *.
    rewrite extend_shadows, orb_true_iff, Ht. f_equiv. split; [by intros [?|?]|by left].
  - intros lsn. rewrite Ha. set_solver.
Qed.

(** ** The stream without refused writes *)

Lemma filter_true {A} (p : A → bool) l : (∀ x, x ∈ l → p x = true) → List.filter p l = l.
Proof.
  induction l as [|x l IH]; intros Hp; [done|]. simpl. rewrite Hp, IH; [done| |left].
  intros y Hy. apply Hp. by right.
Qed.

Lemma without_aborted_spec rs :
  without_aborted_writes rs =
  let? f := extract_replay_filters rs in
  Ok (List.filter (λ r, negb (bool_decide (lsn_of r ∈ rf_aborted f))) rs).
Proof.
  unfold without_aborted_writes, drop_aborted_records. destruct (extract_replay_filters rs) as [f|]; [|done].
  simpl. destruct (decide (rf_aborted f = ∅)) as [He|]; [|done]. rewrite filter_true; [done|].
  intros r _. rewrite bool_decide_false; [done|set_solver].
Qed.

Lemma readable_extract rs : Forall (λ r, readable r = true) rs → ∃ f, extract_replay_filters rs = Ok f.
Proof.
  intros Hr. pose proof (extract_loop_spec rs (MkReplayFilters ∅ ∅)) as Hs. unfold extract_replay_filters.
  destruct (extract_loop rs _) as [f|]; [by eexists|]. destruct Hs as (r & Hin & Hf).
  rewrite Forall_forall in Hr. by rewrite Hr in Hf.
Qed.

Lemma extract_aborted rs f : extract_replay_filters rs = Ok f →
  Forall (λ r, readable r = true) rs ∧ ∀ lsn, lsn ∈ rf_aborted f ↔ ∃ r, r ∈ rs ∧ aborts r lsn.
Proof.
  intros Hf. pose proof (extract_loop_spec rs (MkReplayFilters ∅ ∅)) as Hs.
  unfold extract_replay_filters in Hf. rewrite Hf in Hs. destruct Hs as (Hr & _ & Ha). split; [done|].
  intros lsn. rewrite Ha. set_solver.
Qed.

Lemma elem_of_from_on from rs r : r ∈ from_on from rs ↔ r ∈ rs ∧ from ≤ lsn_of r.
Proof. unfold from_on. rewrite list_elem_of_filter. tauto. Qed.

(** Two filters on one list, in either order. *)
Lemma from_on_filter from (p q : WalRecord → bool) rs :
  (∀ r, r ∈ rs → from ≤ lsn_of r → p r = q r) →
  List.filter p (from_on from rs) = from_on from (List.filter q rs).
Proof.
  induction rs as [|r rs IH]; intros Hpq; [done|]. rewrite from_on_cons. simpl.
  specialize (IH ltac:(intros x ?; apply Hpq; by right)). specialize (Hpq r (list_elem_of_here _ _)).
  destruct (q r); rewrite ?from_on_cons; destruct (N.leb_spec from (lsn_of r)) as [Hl|Hl]; simpl; try done.
  - by rewrite Hpq, IH.
  - by rewrite Hpq.
Qed.

(** C26. No replay hands a refused write to an engine. A marker comes after the
    write it names. Then replay from any LSN drops the same writes as a replay of
    the whole log does: what is left is the whole filtered stream from that LSN
    on. And of the whole log exactly the records that no marker names are left,
    in order. *)
Theorem refused_writes_dropped all kept from :
  (∀ m lsn, m ∈ all → aborts m lsn → lsn < lsn_of m) →
  without_aborted_writes all = Ok kept →
  without_aborted_writes (from_on from all) = Ok (from_on from kept) ∧
  kept `sublist_of` all ∧
  ∀ r, r ∈ kept ↔ r ∈ all ∧ ¬ ∃ m, m ∈ all ∧ aborts m (lsn_of r).
Proof.
  rewrite !without_aborted_spec. intros Hm.
  destruct (extract_replay_filters all) as [f|] eqn:Hf; simpl; [|done]. intros [= <-].
  apply extract_aborted in Hf as [Hr Ha].
  destruct (readable_extract (from_on from all)) as [f' Hf'].
  { rewrite Forall_forall in *. intros r [Hin _]%elem_of_from_on. by apply Hr. }
  rewrite Hf'. apply extract_aborted in Hf' as [_ Ha']. simpl. split_and!.
  - f_equal. apply from_on_filter. intros r Hin Hl. f_equal. apply bool_decide_ext. rewrite Ha, Ha'.
    setoid_rewrite elem_of_from_on. split; [naive_solver|]. intros (m & Hmi & Hab). exists m.
    specialize (Hm m _ Hmi Hab). split; [split; [done|lia]|done].
  - clear. induction all as [|r all IH]; [done|]. simpl. destruct (negb _); by constructor.
  - intros r. rewrite <-Ha, list_elem_of_In, filter_In, <-list_elem_of_In, negb_true_iff, bool_decide_eq_false.
    done.
Qed.

(** ** An example *)

(** A plaintext record of a type with a payload. *)
Definition plain_record (ty : RecordType) (lsn : u64) (payload : bytes) : WalRecord :=
  MkWalRecord
    (MkRecordHeader WAL_MAGIC WAL_FORMAT_VERSION (record_type_raw ty) lsn 1 0 (flen payload) 0 0 0 0 0)
    payload.

(** Two writes, and the marker that the first was refused. *)
Definition refused_stream : list WalRecord :=
  [plain_record Put 1 [7]; plain_record Put 2 [8]; plain_record WriteAborted 3 (aborted_to_bytes 1)].

Lemma refused_writes_dropped_witness :
  without_aborted_writes (from_on 1 refused_stream) =
    Ok (from_on 1 [plain_record Put 2 [8]; plain_record WriteAborted 3 (aborted_to_bytes 1)]) ∧
  without_aborted_writes (from_on 2 refused_stream) =
    Ok (from_on 2 [plain_record Put 2 [8]; plain_record WriteAborted 3 (aborted_to_bytes 1)]).
Proof.
  assert (∀ m lsn, m ∈ refused_stream → aborts m lsn → lsn < lsn_of m) as Hm.
  { intros m lsn Hin (Ht & _ & Hp). unfold refused_stream in Hin.
    repeat (apply elem_of_cons in Hin as [->|Hin]; [vm_compute in Ht, Hp; simplify_eq; done|]).
    by apply not_elem_of_nil in Hin. }
  split; apply (refused_writes_dropped refused_stream _ _ Hm); vm_compute; reflexivity.
Defined.
