(* ===== verification/Codec.v ===== *)
(** * Codec: limits, bit streams and the integer codecs

    Model of [nodedb-codec]: the framing limits ([bounds.rs]), the delta
    codec ([delta.rs]), and the bit writer and reader and the double-delta
    codec ([double_delta.rs]); the other codecs build on it.

    An [i64] is a [Z] between [-2^63] and [2^63 - 1], a [u64], [usize] or [u8]
    an [N]. An [f64] enters the Gorilla codec through [to_bits] and leaves it
    through [from_bits], so a sample carries the 64-bit pattern. A
    [Vec::with_capacity] only reserves memory and leaves no trace here.
    Operations that can fail half-way return the state they leave beside
    their result. *)

From Stdlib Require Import Lia ZArith.
From stdpp Require Import base option list.
From S2P Require Import Prelude.

(** ** Errors, [error.rs] *)

(** [CodecError]; the message strings are left out. *)
Inductive CodecError :=
  | Truncated (expected actual : usize)
  | Corrupt
  | DecompressFailed
  | CompressFailed
  | ResourceLimit (requested limit : usize)
  | CodecMismatch
  | LayoutError
  | UnresolvedAuto
  | UnknownCodec.

(** ** Framing limits, [bounds.rs] *)

Definition MAX_DECODED_BYTES : usize := 64 * 1024 * 1024.

(** A [u32] always fits the 64-bit [usize]. *)
Definition u32_to_usize (value : u32) : result CodecError usize :=
  if value <=? u64_max then Ok value else Err Corrupt.

Definition checked_add (left right : usize) : result CodecError usize :=
  if left + right <=? u64_max then Ok (left + right) else Err Corrupt.

Definition checked_mul (left right : usize) : result CodecError usize :=
  if left * right <=? u64_max then Ok (left * right) else Err Corrupt.

(** [data.get(start..end)] is [None] when the range leaves the slice. *)
Definition checked_range (data : bytes) (start len : usize) : result CodecError bytes :=
  let? end_ := checked_add start len in
  if end_ <=? N.of_nat (length data)
  then Ok (take (N.to_nat len) (drop (N.to_nat start) data))
  else Err (Truncated end_ (N.of_nat (length data))).

Definition decoded_len (value : usize) : result CodecError usize :=
  if MAX_DECODED_BYTES <? value
  then Err (ResourceLimit value MAX_DECODED_BYTES)
  else Ok value.

Definition checked_capacity (count element_size : usize) : result CodecError usize :=
  let? bytes_ := checked_mul count element_size in
  let? _len := decoded_len bytes_ in
  Ok count.

Definition encode_u32_len (value : usize) : result CodecError u32 :=
  if value <=? u32_max then Ok value else Err (ResourceLimit value u32_max).

Definition encode_input_len (value : usize) : result CodecError u32 :=
  let? _len := decoded_len value in
  encode_u32_len value.

(** ** Machine integers *)

Abbreviation i64 := Z (only parsing).
Abbreviation u8 := N (only parsing).

Definition is_i64 (z : Z) : Prop := (- 2 ^ 63 ≤ z < 2 ^ 63)%Z.

(** [z as u64] of an [i64], and [n as i64] of a [u64]. *)
Definition to_u64 (z : i64) : u64 := Z.to_N (z mod 2 ^ 64)%Z.
Definition to_i64 (n : u64) : i64 :=
  if (Z.of_N n <? 2 ^ 63)%Z then Z.of_N n else (Z.of_N n - 2 ^ 64)%Z.

(** The [i64] a mathematical result wraps to. *)
Definition iwrap (z : Z) : i64 := to_i64 (to_u64 z).

Definition wrapping_add (a b : i64) : i64 := iwrap (a + b)%Z.
Definition wrapping_sub (a b : i64) : i64 := iwrap (a - b)%Z.

(** [i64::to_le_bytes] and [i64::from_le_bytes]. *)
Definition i64_to_le (z : i64) : bytes := to_le 8 (to_u64 z).
Definition i64_from_le (bs : bytes) : i64 := to_i64 (from_le bs).

(** [data[lo..lo + n]] of a slice already known to be long enough. *)
Definition field (lo n : nat) (data : bytes) : bytes := take n (drop lo data).

(** [u64::leading_zeros] and [u64::trailing_zeros]. *)
Definition leading_zeros (x : u64) : u8 := 64 - N.size x.

Fixpoint pos_trailing_zeros (p : positive) : N :=
  match p with
  | xO p => N.succ (pos_trailing_zeros p)
  | _ => 0
  end.

Definition trailing_zeros (x : u64) : u8 :=
  match x with N0 => 64 | Npos p => pos_trailing_zeros p end.

(** Both integer codecs bound a frame by its decoded size. *)
Definition validate_value_count (count : usize) : result CodecError () :=
  let? bytes_ := checked_mul count 8 in
  let? _len := decoded_len bytes_ in
  Ok ().

Definition encode_value_count (len : usize) : result CodecError u32 :=
  let? _ok := validate_value_count len in
  encode_input_len len.

(** ** The delta codec, [delta.rs] *)

Definition zigzag_encode (v : i64) : u64 :=
  to_u64 (Z.lxor (iwrap (Z.shiftl v 1)) (Z.shiftr v 63)).

Definition zigzag_decode (v : u64) : i64 :=
  Z.lxor (to_i64 (N.shiftr v 1)) (- to_i64 (N.land v 1)).

(** The [loop] of [write_varint]; each round drops seven bits, so ten rounds
    finish every [u64]. *)
Fixpoint write_varint_loop (fuel : nat) (buf : bytes) (value : u64) : bytes :=
  match fuel with
  | O => buf
  | S fuel =>
      let byte := N.land value 0x7F in
      let value := N.shiftr value 7 in
      let byte := if negb (value =? 0) then N.lor byte 0x80 else byte in
      let buf := buf ++ [byte] in
      if value =? 0 then buf else write_varint_loop fuel buf value
  end.

Definition write_varint (buf : bytes) (value : u64) : bytes := write_varint_loop 10 buf value.

(** The [for] of [read_varint]: [data] is what is left from [index] on, [len]
    the length of the whole slice. *)
Fixpoint read_varint_loop (len : usize) (data : bytes) (index : N) (value : u64)
    : result CodecError (u64 * usize) :=
  match data with
  | [] =>
      let? expected := checked_add len 1 in
      Err (Truncated expected len)
  | byte :: rest =>
      if 10 <=? index then Err Corrupt
      else
        let payload := N.land byte 0x7f in
        if (index =? 9) && (negb (N.land byte 0x80 =? 0) || (1 <? payload)) then Err Corrupt
        else
          let value := N.lor value (wrap64 (N.shiftl payload (index * 7))) in
          if N.land byte 0x80 =? 0 then
            if (0 <? index) && (payload =? 0) then Err Corrupt
            else Ok (value, index + 1)
          else read_varint_loop len rest (index + 1) value
  end.

Definition read_varint (data : bytes) : result CodecError (u64 * usize) :=
  read_varint_loop (N.of_nat (length data)) data 0 0.

(** The [for i in 1..values.len()] of [encode]: [prev] is [values[i - 1]]. *)
Fixpoint encode_deltas (out : bytes) (prev : i64) (values : list i64) : bytes :=
  match values with
  | [] => out
  | v :: rest => encode_deltas (write_varint out (zigzag_encode (wrapping_sub v prev))) v rest
  end.

Definition delta_encode (values : list i64) : result CodecError bytes :=
  let? count := encode_value_count (N.of_nat (length values)) in
  let? doubled := checked_mul (N.of_nat (length values)) 2 in
  let? _estimated := checked_add 12 doubled in
  let out := to_le 4 count in
  match values with
  | [] => Ok out
  | first :: rest => Ok (encode_deltas (out ++ i64_to_le first) first rest)
  end.

(** The [for _ in 1..count] of [decode]; [n] is the number of rounds left.
    Returns the values and the final offset. *)
Fixpoint decode_deltas (n : nat) (data : bytes) (values : list i64) (offset : usize)
    : result CodecError (list i64 * usize) :=
  match n with
  | O => Ok (values, offset)
  | S n =>
      if N.of_nat (length data) <=? offset then
        let? expected := checked_add offset 1 in
        Err (Truncated expected (N.of_nat (length data)))
      else
        let? read := read_varint (drop (N.to_nat offset) data) in
        let '(encoded_delta, consumed) := read in
        let delta := zigzag_decode encoded_delta in
        let value := wrapping_add (default 0%Z (last values)) delta in
        let? offset := checked_add offset consumed in
        decode_deltas n data (values ++ [value]) offset
  end.

Definition delta_decode (data : bytes) : result CodecError (list i64) :=
  if N.of_nat (length data) <? 4 then Err (Truncated 4 (N.of_nat (length data)))
  else
    let? count := u32_to_usize (from_le (field 0 4 data)) in
    let? _ok := validate_value_count count in
    if count =? 0 then
      if negb (N.of_nat (length data) =? 4) then Err Corrupt else Ok []
    else if N.of_nat (length data) <? 12 then Err (Truncated 12 (N.of_nat (length data)))
    else
      let first_value := i64_from_le (field 4 8 data) in
      let? _cap := checked_capacity count 8 in
      let? decoded := decode_deltas (N.to_nat count - 1) data [first_value] 12 in
      let '(values, offset) := decoded in
      if negb (offset =? N.of_nat (length data)) then Err Corrupt
      else Ok values.

(** ** Bit input and output, [double_delta.rs] *)

Record BitWriter := { bw_buf : bytes; bw_bit_pos : usize }.

Record BitReader := { br_buf : bytes; br_bit_pos : usize }.

Definition bit_writer_new : BitWriter := {| bw_buf := []; bw_bit_pos := 0 |}.

(** [buf[i] |= mask]. *)
Definition or_at (i : usize) (mask : u8) (buf : bytes) : bytes :=
  alter (λ b, N.lor b mask) (N.to_nat i) buf.

Definition write_bit (w : BitWriter) (bit : bool) : BitWriter :=
  let byte_idx := bw_bit_pos w / 8 in
  let bit_idx := 7 - bw_bit_pos w mod 8 in
  let buf := if N.of_nat (length (bw_buf w)) <=? byte_idx then bw_buf w ++ [0] else bw_buf w in
  let buf := if bit then or_at byte_idx (N.shiftl 1 bit_idx) buf else buf in
  {| bw_buf := buf; bw_bit_pos := bw_bit_pos w + 1 |}.

(** The bits [num_bits - 1, ..., 0], most significant first. *)
Fixpoint write_bits (w : BitWriter) (value : u64) (num_bits : nat) : BitWriter :=
  match num_bits with
  | O => w
  | S i => write_bits (write_bit w (N.land (N.shiftr value (N.of_nat i)) 1 =? 1)) value i
  end.

Definition try_write_bit (w : BitWriter) (bit : bool) : result CodecError BitWriter :=
  let? _end := checked_add (bw_bit_pos w) 1 in
  Ok (write_bit w bit).

Definition try_write_bits (w : BitWriter) (value : u64) (num_bits : nat)
    : result CodecError BitWriter :=
  let? _end := checked_add (bw_bit_pos w) (N.of_nat num_bits) in
  Ok (write_bits w value num_bits).

Definition as_bytes (w : BitWriter) : bytes := bw_buf w.

Definition bit_len (w : BitWriter) : usize := bw_bit_pos w.

Definition bit_reader_new (buf : bytes) : BitReader := {| br_buf := buf; br_bit_pos := 0 |}.

Definition div_ceil8 (n : usize) : usize := (n + 7) / 8.

Definition read_bit (r : BitReader) : BitReader * result CodecError bool :=
  let byte_idx := br_bit_pos r / 8 in
  match br_buf r !! N.to_nat byte_idx with
  | None =>
      (r, let? expected := checked_add byte_idx 1 in
          Err (Truncated expected (N.of_nat (length (br_buf r)))))
  | Some byte =>
      let bit_idx := 7 - br_bit_pos r mod 8 in
      let bit := N.land (N.shiftr byte bit_idx) 1 =? 1 in
      match checked_add (br_bit_pos r) 1 with
      | Ok pos => ({| br_buf := br_buf r; br_bit_pos := pos |}, Ok bit)
      | Err e => (r, Err e)
      end
  end.

(** The [while pos < end] of [read_bits]: each round takes the rest of a byte
    or the rest of the field. The rounds are at most the bits asked for. *)
Fixpoint read_run (fuel : nat) (buf : bytes) (pos end_ : usize) (value : u64) : u64 :=
  match fuel with
  | O => value
  | S fuel =>
      if pos <? end_ then
        let byte := default 0 (buf !! N.to_nat (pos / 8)) in
        let offset := pos mod 8 in
        let available := 8 - offset in
        let take := N.min available (end_ - pos) in
        let bits := N.land (N.shiftr byte (available - take)) (N.shiftl 1 take - 1) in
        let value := N.lor (wrap64 (N.shiftl value take)) bits in
        read_run fuel buf (pos + take) end_ value
      else value
  end.

Definition read_bits (r : BitReader) (num_bits : usize) : BitReader * result CodecError u64 :=
  if num_bits =? 0 then (r, Ok 0)
  else if 64 <? num_bits then (r, Err Corrupt)
  else
    match checked_add (br_bit_pos r) num_bits with
    | Err e => (r, Err e)
    | Ok end_ =>
        let bytes_needed := div_ceil8 end_ in
        if N.of_nat (length (br_buf r)) <? bytes_needed then
          (r, Err (Truncated bytes_needed (N.of_nat (length (br_buf r)))))
        else
          let value := read_run (N.to_nat num_bits) (br_buf r) (br_bit_pos r) end_ 0 in
          ({| br_buf := br_buf r; br_bit_pos := end_ |}, Ok value)
    end.

(** [i64 << shift >> shift]. *)
Definition sign_extend (value : i64) (bits : u32) : i64 :=
  let shift := Z.of_N (64 - bits) in
  Z.shiftr (iwrap (Z.shiftl value shift)) shift.

(** ** The double-delta codec, [double_delta.rs] *)

Definition encode_dod (bs : BitWriter) (dod : i64) : result CodecError BitWriter :=
  if (dod =? 0)%Z then try_write_bit bs false
  else if ((-64 <=? dod) && (dod <=? 63))%Z then
    let? bs := try_write_bits bs 2 2 in
    try_write_bits bs (N.land (to_u64 dod) 0x7F) 7
  else if ((-256 <=? dod) && (dod <=? 255))%Z then
    let? bs := try_write_bits bs 6 3 in
    try_write_bits bs (N.land (to_u64 dod) 0x1FF) 9
  else if ((-2048 <=? dod) && (dod <=? 2047))%Z then
    let? bs := try_write_bits bs 14 4 in
    try_write_bits bs (N.land (to_u64 dod) 0xFFF) 12
  else
    let? bs := try_write_bits bs 15 4 in
    try_write_bits bs (to_u64 dod) 64.

Definition decode_dod (reader : BitReader) : BitReader * result CodecError i64 :=
  let? (reader, bit) := read_bit reader in
  if negb bit then (reader, Ok 0%Z)
  else
    let? (reader, bit2) := read_bit reader in
    if negb bit2 then
      let? (reader, raw) := read_bits reader 7 in
      (reader, Ok (sign_extend (to_i64 raw) 7))
    else
      let? (reader, bit3) := read_bit reader in
      if negb bit3 then
        let? (reader, raw) := read_bits reader 9 in
        (reader, Ok (sign_extend (to_i64 raw) 9))
      else
        let? (reader, bit4) := read_bit reader in
        if negb bit4 then
          let? (reader, raw) := read_bits reader 12 in
          (reader, Ok (sign_extend (to_i64 raw) 12))
        else
          let? (reader, raw) := read_bits reader 64 in
          (reader, Ok (to_i64 raw)).

(** The [for i in 2..values.len()] of [encode]: [prev] is [values[i - 1]]. *)
Fixpoint encode_dods (bs : BitWriter) (prev prev_delta : i64) (values : list i64)
    : result CodecError BitWriter :=
  match values with
  | [] => Ok bs
  | v :: rest =>
      let delta := wrapping_sub v prev in
      let dod := wrapping_sub delta prev_delta in
      let? bs := encode_dod bs dod in
      encode_dods bs v delta rest
  end.

Definition double_delta_encode (values : list i64) : result CodecError bytes :=
  let? count := encode_value_count (N.of_nat (length values)) in
  let? _estimated := checked_add 20 (N.of_nat (length values) / 4) in
  let out := to_le 4 count in
  match values with
  | [] => Ok out
  | [v0] => Ok (out ++ i64_to_le v0)
  | v0 :: v1 :: rest =>
      let first_delta := wrapping_sub v1 v0 in
      let out := (out ++ i64_to_le v0) ++ i64_to_le first_delta in
      match rest with
      | [] => Ok out
      | _ =>
          let? bs := encode_dods bit_writer_new v1 first_delta rest in
          Ok (out ++ as_bytes bs)
      end
  end.

(** The [for _ in 2..count] of [decode]. *)
Fixpoint decode_dods (n : nat) (reader : BitReader) (values : list i64) (prev_delta : i64)
    : result CodecError (list i64 * BitReader) :=
  match n with
  | O => Ok (values, reader)
  | S n =>
      match decode_dod reader with
      | (_, Err e) => Err e
      | (reader, Ok dod) =>
          let delta := wrapping_add prev_delta dod in
          let value := wrapping_add (default 0%Z (last values)) delta in
          decode_dods n reader (values ++ [value]) delta
      end
  end.

(** The checks after the loop: no byte past the last one used, and zeros in
    the unused bits of that one. *)
Definition check_padding (reader : BitReader) : result CodecError () :=
  let used_bytes := div_ceil8 (br_bit_pos reader) in
  if negb (used_bytes =? N.of_nat (length (br_buf reader))) then Err Corrupt
  else if negb (br_bit_pos reader mod 8 =? 0) then
    let unused_bits := 8 - br_bit_pos reader mod 8 in
    let padding_mask := N.shiftl 1 unused_bits - 1 in
    if negb (N.land (default 0 (br_buf reader !! N.to_nat (used_bytes - 1))) padding_mask =? 0)
    then Err Corrupt
    else Ok ()
  else Ok ().

Definition double_delta_decode (data : bytes) : result CodecError (list i64) :=
  let len := N.of_nat (length data) in
  if len <? 4 then Err (Truncated 4 len)
  else
    let? count := u32_to_usize (from_le (field 0 4 data)) in
    let? _ok := validate_value_count count in
    if count =? 0 then
      if negb (len =? 4) then Err Corrupt else Ok []
    else if len <? 12 then Err (Truncated 12 len)
    else
      let first_value := i64_from_le (field 4 8 data) in
      let? _cap := checked_capacity count 8 in
      if count =? 1 then
        if negb (len =? 12) then Err Corrupt else Ok [first_value]
      else if len <? 20 then Err (Truncated 20 len)
      else
        let first_delta := i64_from_le (field 12 8 data) in
        let values := [first_value; wrapping_add first_value first_delta] in
        if count =? 2 then
          if negb (len =? 20) then Err Corrupt else Ok values
        else
          let? decoded :=
            decode_dods (N.to_nat count - 2) (bit_reader_new (drop 20 data)) values first_delta in
          let '(values, reader) := decoded in
          let? _ok := check_padding reader in
          Ok values.


(** ** Streaming encoders and decoders *)

(** [DeltaEncoder] and [DoubleDeltaEncoder]: both hold the values pushed so
    far and refuse a push past the frame limit. *)
Record StreamEncoder := { se_values : list i64 }.

Definition stream_encoder_new : StreamEncoder := {| se_values := [] |}.

Definition stream_push (enc : StreamEncoder) (value : i64)
    : StreamEncoder * result CodecError () :=
  match (let? next := checked_add (N.of_nat (length (se_values enc))) 1 in
         validate_value_count next) with
  | Err e => (enc, Err e)
  | Ok _ => ({| se_values := se_values enc ++ [value] |}, Ok ())
  end.

Definition stream_push_batch (enc : StreamEncoder) (values : list i64)
    : StreamEncoder * result CodecError () :=
  match (let? next := checked_add (N.of_nat (length (se_values enc))) (N.of_nat (length values)) in
         validate_value_count next) with
  | Err e => (enc, Err e)
  | Ok _ => ({| se_values := se_values enc ++ values |}, Ok ())
  end.

Definition delta_finish (enc : StreamEncoder) : result CodecError bytes :=
  delta_encode (se_values enc).

Definition double_delta_finish (enc : StreamEncoder) : result CodecError bytes :=
  double_delta_encode (se_values enc).

(** [DeltaDecoder] and [DoubleDeltaDecoder]: the decoded values and a cursor. *)
Record StreamDecoder := { sd_values : list i64; sd_pos : usize }.

Definition delta_decoder_new (data : bytes) : result CodecError StreamDecoder :=
  let? values := delta_decode data in
  Ok {| sd_values := values; sd_pos := 0 |}.

Definition double_delta_decoder_new (data : bytes) : result CodecError StreamDecoder :=
  let? values := double_delta_decode data in
  Ok {| sd_values := values; sd_pos := 0 |}.

Definition next_value (d : StreamDecoder) : StreamDecoder * option i64 :=
  match sd_values d !! N.to_nat (sd_pos d) with
  | Some v => ({| sd_values := sd_values d; sd_pos := sd_pos d + 1 |}, Some v)
  | None => (d, None)
  end.

Definition remaining (d : StreamDecoder) : usize := N.of_nat (length (sd_values d)) - sd_pos d.
