(* ===== verification/Gorilla.v ===== *)
(** * Gorilla: the XOR codec for time-series samples

    Model of [nodedb-codec/src/gorilla.rs]. A sample is a timestamp and the
    64-bit pattern of its value. The encoder's [prev_leading] starts at
    [u8::MAX], which means that no window has been written yet. *)

From Stdlib Require Import Lia ZArith.
From stdpp Require Import base option list.
From S2P Require Import Prelude Codec.

Definition u8_max : u8 := 255.

(** ** Encoder *)

Record GorillaEncoder := {
  ge_buf : BitWriter;
  ge_prev_ts : i64;
  ge_prev_delta : i64;
  ge_prev_value : u64;
  ge_prev_leading : u8;
  ge_prev_trailing : u8;
  ge_count : u64;
}.

#[export] Instance eta_gorilla_encoder : Eta GorillaEncoder :=
  λ r, Build_GorillaEncoder (ge_buf r) (ge_prev_ts r) (ge_prev_delta r) (ge_prev_value r)
    (ge_prev_leading r) (ge_prev_trailing r) (ge_count r).

Definition gorilla_encoder_new : GorillaEncoder := {|
  ge_buf := bit_writer_new;
  ge_prev_ts := 0%Z;
  ge_prev_delta := 0%Z;
  ge_prev_value := 0;
  ge_prev_leading := u8_max;
  ge_prev_trailing := 0;
  ge_count := 0;
|}.

Definition encode_timestamp_dod (e : GorillaEncoder) (dod : i64) : GorillaEncoder :=
  let buf := ge_buf e in
  let buf :=
    if (dod =? 0)%Z then write_bit buf false
    else if ((-64 <=? dod) && (dod <=? 63))%Z then
      write_bits (write_bits buf 2 2) (N.land (to_u64 dod) 0x7F) 7
    else if ((-256 <=? dod) && (dod <=? 255))%Z then
      write_bits (write_bits buf 6 3) (N.land (to_u64 dod) 0x1FF) 9
    else if ((-2048 <=? dod) && (dod <=? 2047))%Z then
      write_bits (write_bits buf 14 4) (N.land (to_u64 dod) 0xFFF) 12
    else
      write_bits (write_bits buf 15 4) (to_u64 dod) 64 in
  e {{ ge_buf := buf }}.

Definition encode_value_xor (e : GorillaEncoder) (xor : u64) : GorillaEncoder :=
  if xor =? 0 then e {{ ge_buf := write_bit (ge_buf e) false }}
  else
    let buf := write_bit (ge_buf e) true in
    let leading := leading_zeros xor in
    let trailing := trailing_zeros xor in
    if negb (ge_prev_leading e =? u8_max)
       && (ge_prev_leading e <=? leading) && (ge_prev_trailing e <=? trailing) then
      let buf := write_bit buf false in
      let meaningful_bits := 64 - ge_prev_leading e - ge_prev_trailing e in
      e {{ ge_buf := write_bits buf (N.shiftr xor (ge_prev_trailing e)) (N.to_nat meaningful_bits) }}
    else
      let buf := write_bit buf true in
      let buf := write_bits buf leading 6 in
      let meaningful_bits := 64 - leading - trailing in
      let buf := write_bits buf (meaningful_bits - 1) 6 in
      e {{ ge_buf := write_bits buf (N.shiftr xor trailing) (N.to_nat meaningful_bits);
           ge_prev_leading := leading;
           ge_prev_trailing := trailing }}.

(** [GorillaEncoder::encode]; [value_bits] is [value.to_bits()]. *)
Definition gorilla_encode (e : GorillaEncoder) (timestamp_ms : i64) (value_bits : u64)
    : GorillaEncoder :=
  if ge_count e =? 0 then
    let buf := write_bits (ge_buf e) (to_u64 timestamp_ms) 64 in
    let buf := write_bits buf value_bits 64 in
    e {{ ge_buf := buf; ge_prev_ts := timestamp_ms; ge_prev_value := value_bits; ge_count := 1 }}
  else
    let delta := wrapping_sub timestamp_ms (ge_prev_ts e) in
    let dod := wrapping_sub delta (ge_prev_delta e) in
    let e := encode_timestamp_dod e dod in
    let e := e {{ ge_prev_ts := timestamp_ms; ge_prev_delta := delta }} in
    let xor := N.lxor (ge_prev_value e) value_bits in
    let e := encode_value_xor e xor in
    e {{ ge_prev_value := value_bits; ge_count := ge_count e + 1 }}.

(** The count is cast to 32 bits. *)
Definition gorilla_finish (e : GorillaEncoder) : bytes :=
  to_le 4 (ge_count e mod 2 ^ 32) ++ as_bytes (ge_buf e).

Definition compressed_size (e : GorillaEncoder) : usize := div_ceil8 (bit_len (ge_buf e)).

(** ** Decoder *)

Record GorillaDecoder := {
  gd_reader : BitReader;
  gd_prev_ts : i64;
  gd_prev_delta : i64;
  gd_prev_value : u64;
  gd_prev_leading : u8;
  gd_prev_trailing : u8;
  gd_count : u64;
  gd_total : u64;
  gd_first : bool;
}.

#[export] Instance eta_gorilla_decoder : Eta GorillaDecoder :=
  λ r, Build_GorillaDecoder (gd_reader r) (gd_prev_ts r) (gd_prev_delta r) (gd_prev_value r)
    (gd_prev_leading r) (gd_prev_trailing r) (gd_count r) (gd_total r) (gd_first r).

Definition gorilla_decoder_new (buf : bytes) : GorillaDecoder :=
  let short := N.of_nat (length buf) <? 4 in {|
  gd_reader := bit_reader_new (if short then [] else drop 4 buf);
  gd_prev_ts := 0%Z;
  gd_prev_delta := 0%Z;
  gd_prev_value := 0;
  gd_prev_leading := 0;
  gd_prev_trailing := 0;
  gd_count := 0;
  gd_total := if short then 0 else from_le (field 0 4 buf);
  gd_first := true;
|}.

(** A read through the decoder's [reader] field. *)
Definition on_reader {A} (op : BitReader → BitReader * result CodecError A) (d : GorillaDecoder)
    : GorillaDecoder * result CodecError A :=
  let '(r, res) := op (gd_reader d) in (d {{ gd_reader := r }}, res).

Definition next_bit := on_reader read_bit.
Definition next_bits (n : usize) := on_reader (λ r, read_bits r n).

(** The dod the timestamp bits spell. *)
Definition decode_timestamp_dod (d : GorillaDecoder) : GorillaDecoder * result CodecError i64 :=
  let? (d, bit) := next_bit d in
  if negb bit then (d, Ok 0%Z)
  else
    let? (d, bit2) := next_bit d in
    if negb bit2 then
      let? (d, raw) := next_bits 7 d in
      (d, Ok (sign_extend (to_i64 raw) 7))
    else
      let? (d, bit3) := next_bit d in
      if negb bit3 then
        let? (d, raw) := next_bits 9 d in
        (d, Ok (sign_extend (to_i64 raw) 9))
      else
        let? (d, bit4) := next_bit d in
        if negb bit4 then
          let? (d, raw) := next_bits 12 d in
          (d, Ok (sign_extend (to_i64 raw) 12))
        else
          let? (d, raw) := next_bits 64 d in
          (d, Ok (to_i64 raw)).

Definition decode_timestamp (d : GorillaDecoder) : GorillaDecoder * result CodecError i64 :=
  let? (d, dod) := decode_timestamp_dod d in
  let delta := wrapping_add (gd_prev_delta d) dod in
  let ts := wrapping_add (gd_prev_ts d) delta in
  (d {{ gd_prev_ts := ts; gd_prev_delta := delta }}, Ok ts).

(** The xor the value bits spell; a new window is stored once its bits are
    read. *)
Definition decode_value_xor (d : GorillaDecoder) : GorillaDecoder * result CodecError u64 :=
  let? (d, bit2) := next_bit d in
  if negb bit2 then
    let meaningful_bits := 64 - gd_prev_leading d - gd_prev_trailing d in
    let? (d, bits) := next_bits meaningful_bits d in
    (d, Ok (wrap64 (N.shiftl bits (gd_prev_trailing d))))
  else
    let? (d, leading) := next_bits 6 d in
    let? (d, raw) := next_bits 6 d in
    let meaningful_bits := raw + 1 in
    let window_bits := leading + meaningful_bits in
    if 64 <? window_bits then (d, Err Corrupt)
    else
      let trailing := 64 - window_bits in
      let? (d, bits) := next_bits meaningful_bits d in
      (d {{ gd_prev_leading := leading; gd_prev_trailing := trailing }},
       Ok (wrap64 (N.shiftl bits trailing))).

Definition decode_value (d : GorillaDecoder) : GorillaDecoder * result CodecError u64 :=
  let? (d, bit) := next_bit d in
  if negb bit then (d, Ok (gd_prev_value d))
  else
    let? (d, xor) := decode_value_xor d in
    let val := N.lxor (gd_prev_value d) xor in
    (d {{ gd_prev_value := val }}, Ok val).

(** [next_sample]; a failed read ends the iteration with [None]. *)
Definition next_sample (d : GorillaDecoder) : GorillaDecoder * option (i64 * u64) :=
  if gd_total d <=? gd_count d then (d, None)
  else if gd_first d then
    let d := d {{ gd_first := false }} in
    match next_bits 64 d with
    | (d, Err _) => (d, None)
    | (d, Ok raw) =>
        let ts := to_i64 raw in
        match next_bits 64 d with
        | (d, Err _) => (d, None)
        | (d, Ok val) =>
            (d {{ gd_prev_ts := ts; gd_prev_value := val; gd_count := 1 }}, Some (ts, val))
        end
    end
  else
    match decode_timestamp d with
    | (d, Err _) => (d, None)
    | (d, Ok ts) =>
        match decode_value d with
        | (d, Err _) => (d, None)
        | (d, Ok val) => (d {{ gd_count := gd_count d + 1 }}, Some (ts, val))
        end
    end.

(** The [while let] of [decode_all]: every sample returned raises the count
    towards [total]. *)
Fixpoint decode_all_loop (fuel : nat) (d : GorillaDecoder) (samples : list (i64 * u64))
    : GorillaDecoder * list (i64 * u64) :=
  match fuel with
  | O => (d, samples)
  | S fuel =>
      match next_sample d with
      | (d, None) => (d, samples)
      | (d, Some s) => decode_all_loop fuel d (samples ++ [s])
      end
  end.

Definition decode_all (d : GorillaDecoder) : GorillaDecoder * list (i64 * u64) :=
  decode_all_loop (S (N.to_nat (gd_total d - gd_count d))) d [].

(** ** Columns *)

Definition encode_samples (samples : list (i64 * u64)) : GorillaEncoder :=
  foldl (λ e s, gorilla_encode e s.1 s.2) gorilla_encoder_new samples.

Definition encode_f64 (values : list u64) : bytes :=
  gorilla_finish (encode_samples (imap (λ i v, (to_i64 (N.of_nat i), v)) values)).

Definition decode_samples (data : bytes) : result CodecError (list (i64 * u64)) :=
  let '(dec, samples) := decode_all (gorilla_decoder_new data) in
  if negb (N.of_nat (length samples) =? gd_total dec)
  then Err (Truncated (gd_total dec) (N.of_nat (length samples)))
  else Ok samples.

Definition decode_f64 (data : bytes) : result CodecError (list u64) :=
  let? samples := decode_samples data in Ok (samples.*2).

(** [0.0] has the bit pattern zero. *)
Definition encode_timestamps (timestamps : list i64) : bytes :=
  gorilla_finish (encode_samples ((λ ts, (ts, 0)) <$> timestamps)).

Definition decode_timestamps (data : bytes) : result CodecError (list i64) :=
  let? samples := decode_samples data in Ok (samples.*1).
