(* ===== verification/CodecBits.v ===== *)
(** * CodecBits: machine integers and bit streams

    The laws of the [i64] casts and wrapping operations, of the zigzag map,
    and the meaning of the bit writer and reader of [double_delta.rs]: a
    writer holds a list of bits padded with zeros to whole bytes, and a read
    takes the next bits of that list. *)

From Stdlib Require Import Lia ZArith.
From stdpp Require Import base option list.
From S2P Require Import Prelude Codec.

#[local] Arguments Nat.div : simpl never.
#[local] Arguments Nat.modulo : simpl never.
#[local] Arguments Nat.mul : simpl never.

(** ** Machine integers *)

Lemma to_u64_lt z : to_u64 z < 2 ^ 64.
Proof. unfold to_u64. pose proof (Z.mod_pos_bound z (2 ^ 64)). lia. Qed.

(** [iwrap] differs from its argument by a multiple of [2^64] and is in
    range; both determine it. *)
Lemma iwrap_spec z : is_i64 (iwrap z) ∧ ∃ k, iwrap z = (z + k * 2 ^ 64)%Z.
Proof.
  unfold iwrap, to_i64, is_i64. pose proof (to_u64_lt z) as Hlt.
  assert (∃ k, Z.of_N (to_u64 z) = (z + k * 2 ^ 64)%Z) as [k Hk].
  { unfold to_u64. exists (- (z / 2 ^ 64))%Z.
    pose proof (Z.mod_pos_bound z (2 ^ 64)). pose proof (Z.div_mod z (2 ^ 64)). lia. }
  destruct (Z.ltb_spec (Z.of_N (to_u64 z)) (2 ^ 63)).
  - split; [lia|by exists k].
  - split; [lia|]. exists (k - 1)%Z. lia.
Qed.

Lemma iwrap_unique z y k : is_i64 y → y = (z + k * 2 ^ 64)%Z → iwrap z = y.
Proof. unfold is_i64. intros. destruct (iwrap_spec z) as [? [j Hj]]. unfold is_i64 in *. lia. Qed.

Lemma iwrap_i64 z : is_i64 (iwrap z).
Proof. apply iwrap_spec. Qed.

Lemma iwrap_id z : is_i64 z → iwrap z = z.
Proof. intros. apply (iwrap_unique _ _ 0); [done|lia]. Qed.

Lemma to_i64_i64 n : n < 2 ^ 64 → is_i64 (to_i64 n).
Proof. unfold to_i64, is_i64. intros. destruct (Z.ltb_spec (Z.of_N n) (2 ^ 63)); lia. Qed.

Lemma to_i64_to_u64 z : is_i64 z → to_i64 (to_u64 z) = z.
Proof. apply iwrap_id. Qed.

Lemma to_u64_to_i64 n : n < 2 ^ 64 → to_u64 (to_i64 n) = n.
Proof.
  unfold to_u64, to_i64. intros. destruct (Z.ltb_spec (Z.of_N n) (2 ^ 63)).
  - rewrite Z.mod_small; lia.
  - rewrite <-(Z_mod_plus_full _ 1), Z.mod_small; lia.
Qed.

Lemma wrapping_add_sub a b : is_i64 b → wrapping_add a (wrapping_sub b a) = b.
Proof.
  intros Hb. unfold wrapping_add, wrapping_sub. destruct (iwrap_spec (b - a)) as [_ [k ->]].
  apply (iwrap_unique _ _ (- k)); [done|lia].
Qed.

Lemma wrapping_sub_add a d : is_i64 d → wrapping_sub (wrapping_add a d) a = d.
Proof.
  intros Hd. unfold wrapping_add, wrapping_sub. destruct (iwrap_spec (a + d)) as [_ [k ->]].
  apply (iwrap_unique _ _ (- k)); [done|lia].
Qed.

Lemma i64_from_to_le z : is_i64 z → i64_from_le (i64_to_le z) = z.
Proof.
  intros. unfold i64_from_le, i64_to_le. rewrite from_le_to_le, to_i64_to_u64; [done..|].
  apply to_u64_lt.
Qed.

Lemma i64_to_from_le bs :
  length bs = 8%nat → Forall (λ b, b < 256) bs → i64_to_le (i64_from_le bs) = bs.
Proof.
  intros Hlen Hb. unfold i64_from_le, i64_to_le. pose proof (from_le_lt bs Hb) as Hlt.
  rewrite Hlen in Hlt. by rewrite to_u64_to_i64, to_le_from_le.
Qed.

Lemma i64_from_le_i64 bs :
  length bs = 8%nat → Forall (λ b, b < 256) bs → is_i64 (i64_from_le bs).
Proof.
  intros Hlen Hb. pose proof (from_le_lt bs Hb) as Hlt. rewrite Hlen in Hlt.
  by apply to_i64_i64.
Qed.

Lemma length_i64_to_le z : length (i64_to_le z) = 8%nat.
Proof. apply length_to_le. Qed.

Lemma leading_zeros_spec x : x < 2 ^ 64 → leading_zeros x ≤ 64 ∧ x < 2 ^ (64 - leading_zeros x).
Proof.
  intros Hx. unfold leading_zeros. pose proof (N.size_gt x). split; [lia|].
  assert (N.size x ≤ 64); [|by replace (64 - (64 - N.size x)) with (N.size x) by lia].
  destruct (decide (x = 0)) as [->|]; [done|].
  rewrite N.size_log2 by done. apply N.le_succ_l, N.log2_lt_pow2; [lia|done].
Qed.

Lemma to_u64_iwrap z : to_u64 (iwrap z) = to_u64 z.
Proof. apply to_u64_to_i64, to_u64_lt. Qed.

Lemma to_u64_small z : (0 ≤ z < 2 ^ 64)%Z → to_u64 z = Z.to_N z.
Proof. intros. unfold to_u64. by rewrite Z.mod_small. Qed.

(** ** Zigzag *)

Lemma zigzag_encode_eq v :
  is_i64 v → zigzag_encode v = Z.to_N (if (v <? 0)%Z then - 2 * v - 1 else 2 * v)%Z.
Proof.
  intros Hv. unfold zigzag_encode. rewrite Z.shiftl_mul_pow2, Z.shiftr_div_pow2 by done.
  destruct (iwrap_spec (v * 2 ^ 1)) as [_ [k Hk]]. rewrite Hk. unfold is_i64 in Hv.
  unfold to_u64. destruct (Z.ltb_spec v 0) as [Hn|Hn].
  - rewrite <-(Z.div_unique v (2 ^ 63) (-1) (v + 2 ^ 63)) by lia.
    rewrite Z.lxor_m1_r. unfold Z.lnot. f_equal.
    rewrite <-(Z_mod_plus_full _ k), Z.mod_small; lia.
  - rewrite Z.div_small by lia. rewrite Z.lxor_0_r. f_equal.
    rewrite <-(Z_mod_plus_full _ (- k)), Z.mod_small; lia.
Qed.

Lemma zigzag_decode_eq n :
  n < 2 ^ 64 →
  zigzag_decode n = (if N.odd n then - Z.of_N (n / 2) - 1 else Z.of_N (n / 2))%Z.
Proof.
  intros Hn. unfold zigzag_decode. rewrite N.shiftr_div_pow2. change (2 ^ 1) with 2.
  pose proof (half_bounds n). change 1 with (N.ones 1) at 1. rewrite N.land_ones.
  change (2 ^ 1) with 2. rewrite <-N.bit0_mod, N.bit0_odd.
  unfold to_i64 at 1. destruct (Z.ltb_spec (Z.of_N (n / 2)) (2 ^ 63)); [|lia].
  destruct (N.odd n); cbn [N.b2n].
  - change (- to_i64 1)%Z with (-1)%Z. rewrite Z.lxor_m1_r. unfold Z.lnot. lia.
  - change (- to_i64 0)%Z with 0%Z. by rewrite Z.lxor_0_r.
Qed.

Lemma zigzag_lt v : zigzag_encode v < 2 ^ 64.
Proof. apply to_u64_lt. Qed.

Lemma zigzag_decode_encode v : is_i64 v → zigzag_decode (zigzag_encode v) = v.
Proof.
  intros Hv. rewrite zigzag_decode_eq by apply zigzag_lt. rewrite zigzag_encode_eq by done.
  unfold is_i64 in Hv. destruct (Z.ltb_spec v 0).
  - replace (Z.to_N (-2 * v - 1)) with (1 + 2 * Z.to_N (- v - 1)) by lia.
    rewrite N.odd_add_mul_2. change (N.odd 1) with true. cbv match. pose proof (half_bounds (1 + 2 * Z.to_N (- v - 1))). lia.
  - replace (Z.to_N (2 * v)) with (0 + 2 * Z.to_N v) by lia.
    rewrite N.odd_add_mul_2. change (N.odd 0) with false. cbv match. pose proof (half_bounds (0 + 2 * Z.to_N v)). lia.
Qed.

Lemma zigzag_decode_i64 n : n < 2 ^ 64 → is_i64 (zigzag_decode n).
Proof.
  intros Hn. rewrite zigzag_decode_eq by done. pose proof (half_bounds n). unfold is_i64.
  destruct (N.odd n); lia.
Qed.

Lemma zigzag_encode_decode n : n < 2 ^ 64 → zigzag_encode (zigzag_decode n) = n.
Proof.
  intros Hn. rewrite zigzag_encode_eq by by apply zigzag_decode_i64.
  rewrite zigzag_decode_eq by done. pose proof (N.div_mod' n 2) as Hd.
  rewrite <-N.bit0_mod, N.bit0_odd in Hd. destruct (N.odd n); cbn [N.b2n] in Hd.
  - destruct (Z.ltb_spec (- Z.of_N (n / 2) - 1) 0); lia.
  - destruct (Z.ltb_spec (Z.of_N (n / 2)) 0); lia.
Qed.

(** ** Bits of a byte string *)

(** The bits of a byte and of a byte string, most significant first. *)
Definition byte_bits (b : u8) : list bool :=
  (λ i, N.testbit b (7 - N.of_nat i)) <$> seq 0 8.

Definition bits_of (bs : bytes) : list bool := bs ≫= byte_bits.

(** The [n] low bits of [v], most significant first, and the number a list of
    bits spells. *)
Definition msb_bits (n : nat) (v : N) : list bool :=
  (λ i, N.testbit v (N.of_nat (n - 1 - i))) <$> seq 0 n.

Definition msb_value (bits : list bool) : N :=
  foldl (λ acc b, 2 * acc + N.b2n b) 0 bits.

Lemma length_bits_of bs : length (bits_of bs) = (8 * length bs)%nat.
Proof. unfold bits_of. induction bs as [|b bs IH]; [done|]. cbn [mbind list_bind]. rewrite length_app, IH. simpl. lia. Qed.

Lemma bits_of_app bs bs' : bits_of (bs ++ bs') = bits_of bs ++ bits_of bs'.
Proof. apply bind_app. Qed.

Lemma length_msb_bits n v : length (msb_bits n v) = n.
Proof. unfold msb_bits. by rewrite length_fmap, length_seq. Qed.

Lemma msb_value_snoc bits b : msb_value (bits ++ [b]) = 2 * msb_value bits + N.b2n b.
Proof. unfold msb_value. by rewrite foldl_app. Qed.

Lemma msb_value_app xs ys :
  msb_value (xs ++ ys) = msb_value xs * 2 ^ N.of_nat (length ys) + msb_value ys.
Proof.
  induction ys as [|y ys IH] using rev_ind.
  - rewrite app_nil_r. cbn. lia.
  - rewrite app_assoc, !msb_value_snoc, IH, length_app, Nat2N.inj_add, N.pow_add_r.
    change (2 ^ N.of_nat (length [y])) with 2. lia.
Qed.

Lemma msb_value_lt bits : msb_value bits < 2 ^ N.of_nat (length bits).
Proof.
  induction bits as [|b bits IH] using rev_ind; [done|].
  rewrite msb_value_snoc, length_app, Nat2N.inj_add, N.pow_add_r.
  change (2 ^ N.of_nat (length [b])) with 2. destruct b; cbn [N.b2n]; lia.
Qed.

Lemma msb_bits_succ n v : msb_bits (S n) v = N.testbit v (N.of_nat n) :: msb_bits n v.
Proof.
  unfold msb_bits. simpl seq. rewrite fmap_cons. f_equal; [f_equal; lia|].
  rewrite <-fmap_S_seq, <-list_fmap_compose. apply list_fmap_ext. intros i x _. simpl. do 2 f_equal. lia.
Qed.

Lemma msb_value_bits n v : msb_value (msb_bits n v) = v mod 2 ^ N.of_nat n.
Proof.
  induction n as [|n IH]; [by rewrite N.mod_1_r|].
  rewrite msb_bits_succ. change (?b :: ?l) with ([b] ++ l).
  rewrite msb_value_app, IH, length_msb_bits, Nat2N.inj_succ, N.pow_succ_r'.
  rewrite (N.mul_comm 2), N.Div0.mod_mul_r. unfold msb_value. cbn [foldl].
  rewrite <-N.shiftr_div_pow2, <-N.bit0_mod, N.shiftr_spec by lia.
  rewrite (N.add_0_l (N.of_nat n)). lia.
Qed.

Lemma msb_value_bits_id n v : v < 2 ^ N.of_nat n → msb_value (msb_bits n v) = v.
Proof. intros. by rewrite msb_value_bits, N.mod_small. Qed.

Lemma byte_bits_lookup b i :
  (i < 8)%nat → byte_bits b !! i = Some (N.testbit b (7 - N.of_nat i)).
Proof. intros Hi. unfold byte_bits. by rewrite list_lookup_fmap, lookup_seq_lt. Qed.

Lemma bits_of_lookup bs k :
  bits_of bs !! k = (λ b, N.testbit b (7 - N.of_nat (k mod 8))) <$> bs !! (k / 8)%nat.
Proof.
  revert k. induction bs as [|b bs IH]; intros k; [done|].
  change (bits_of (b :: bs)) with (byte_bits b ++ bits_of bs).
  destruct (decide (k < 8)%nat) as [Hk|Hk].
  - rewrite lookup_app_l, byte_bits_lookup by (simpl; lia).
    by rewrite Nat.div_small, Nat.mod_small.
  - rewrite lookup_app_r by (simpl; lia). change (length (byte_bits b)) with 8%nat.
    rewrite IH. pose proof (Nat.Div0.mod_add (k - 8) 1 8) as Hm.
    pose proof (Nat.div_add (k - 8) 1 8 ltac:(done)) as Hd.
    replace (k - 8 + 1 * 8)%nat with k in Hm, Hd by lia. by rewrite Hm, Hd, Nat.add_1_r.
Qed.

(** ** Writing *)

(** The writer [w] holds the bits [bits]. *)
Record writer_ok (w : BitWriter) (bits : list bool) : Prop := {
  wo_bytes : Forall (λ b, b < 256) (bw_buf w);
  wo_pos : bw_bit_pos w = N.of_nat (length bits);
  wo_len : length (bw_buf w) = ((length bits + 7) / 8)%nat;
  wo_bits k : (k < 8 * length (bw_buf w))%nat →
    bits_of (bw_buf w) !! k = Some (default false (bits !! k));
}.

Lemma writer_new_ok : writer_ok bit_writer_new [].
Proof. constructor; [constructor|done|done|]. intros k Hk. simpl in Hk. lia. Qed.

Lemma of_nat_div8 n : N.of_nat n / 8 = N.of_nat (n / 8).
Proof. by rewrite Nat2N.inj_div. Qed.

Lemma of_nat_mod8 n : N.of_nat n mod 8 = N.of_nat (n mod 8).
Proof. by rewrite Nat2N.inj_mod. Qed.

Lemma div_ceil8_spec (n : nat) : (8 * ((n + 7) / 8) < n + 8 ∧ n ≤ 8 * ((n + 7) / 8))%nat.
Proof.
  pose proof (Nat.div_mod (n + 7) 8 ltac:(done)). pose proof (Nat.mod_upper_bound (n + 7) 8 ltac:(done)). lia.
Qed.

Lemma lor_lt n a b : a < 2 ^ n → b < 2 ^ n → N.lor a b < 2 ^ n.
Proof.
  intros Ha Hb. rewrite <-(N.mod_small a (2 ^ n)), <-(N.mod_small b (2 ^ n)) by done.
  rewrite <-!N.land_ones, <-N.land_lor_distr_l, N.land_ones. apply N.mod_lt. lia.
Qed.

Lemma or_at_lookup i mask buf k :
  or_at i mask buf !! k = (λ b, if decide (k = N.to_nat i) then N.lor b mask else b) <$> buf !! k.
Proof.
  unfold or_at. case_decide as Hk.
  - subst k. by rewrite list_lookup_alter_eq.
  - rewrite list_lookup_alter_ne by done. by destruct (buf !! k).
Qed.

Lemma shiftl_1_testbit j i : N.testbit (N.shiftl 1 j) i = bool_decide (i = j).
Proof.
  rewrite N.shiftl_1_l. case_bool_decide as H; [subst; apply N.pow2_bits_true|].
  by apply N.pow2_bits_false.
Qed.

(** [buf] starts with [bits], and every later bit is zero. *)
Definition padded (buf : bytes) (bits : list bool) : Prop :=
  ∀ k, (k < 8 * length buf)%nat → bits_of buf !! k = Some (default false (bits !! k)).

Lemma padded_push buf bits :
  (length bits ≤ 8 * length buf)%nat → padded buf bits → padded (buf ++ [0]) bits.
Proof.
  intros Hlen Hp k. rewrite length_app, bits_of_app. simpl. intros Hk.
  destruct (decide (k < 8 * length buf)%nat).
  - rewrite lookup_app_l by (rewrite length_bits_of; lia). by apply Hp.
  - rewrite lookup_app_r, length_bits_of by (rewrite length_bits_of; lia).
    rewrite (lookup_ge_None_2 bits) by lia.
    apply (lookup_replicate_2 8 false). lia.
Qed.

Lemma padded_set buf bits (b : bool) :
  let p := length bits in
  (p < 8 * length buf)%nat → padded buf bits →
  padded (if b then or_at (N.of_nat (p / 8)) (N.shiftl 1 (7 - N.of_nat (p mod 8))) buf else buf)
    (bits ++ [b]).
Proof.
  intros p Hlt Hp k Hk.
  assert (default false ((bits ++ [b]) !! k) = default false (bits !! k) || (bool_decide (k = p) && b)) as ->.
  { destruct (decide (k < p)%nat).
    - rewrite lookup_app_l, bool_decide_false by lia. by rewrite orb_false_r.
    - rewrite lookup_app_r, (lookup_ge_None_2 bits) by lia. destruct (decide (k = p)) as [->|].
      + rewrite Nat.sub_diag. by rewrite bool_decide_true.
      + rewrite lookup_ge_None_2, bool_decide_false by (simpl; lia). done. }
  destruct b; [|rewrite andb_false_r, orb_false_r; by apply Hp].
  unfold or_at in Hk. rewrite length_alter in Hk. specialize (Hp k Hk). rewrite andb_true_r.
  rewrite bits_of_lookup in Hp |- *. rewrite or_at_lookup, Nat2N.id.
  destruct (buf !! (k / 8)%nat) as [x|]; [|done]. cbn [fmap option_fmap option_map] in Hp |- *. apply (inj Some) in Hp. f_equal.
  pose proof (Nat.div_mod k 8 ltac:(done)). pose proof (Nat.mod_upper_bound k 8 ltac:(done)).
  pose proof (Nat.div_mod p 8 ltac:(done)). pose proof (Nat.mod_upper_bound p 8 ltac:(done)).
  case_decide as Hd.
  - rewrite N.lor_spec, shiftl_1_testbit, Hp. f_equal. apply bool_decide_ext. lia.
  - rewrite bool_decide_false by (intros ->; done). by rewrite orb_false_r.
Qed.

Lemma or_at_bytes i mask buf :
  mask < 256 → Forall (λ b, b < 256) buf → Forall (λ b, b < 256) (or_at i mask buf).
Proof. intros Hm Hb. apply Forall_alter; [done|]. intros x _ Hx. by apply (lor_lt 8). Qed.

Lemma shiftl_1_lt j n : j < n → N.shiftl 1 j < 2 ^ n.
Proof. intros. rewrite N.shiftl_1_l. by apply N.pow_lt_mono_r. Qed.

Lemma write_bit_ok w bits b : writer_ok w bits → writer_ok (write_bit w b) (bits ++ [b]).
Proof.
  intros [Hb Hpos Hlen Hbits]. pose proof (div_ceil8_spec (length bits)).
  pose proof (div_ceil8_spec (length bits + 1)). pose proof (Nat.div_mod (length bits) 8 ltac:(done)).
  pose proof (Nat.mod_upper_bound (length bits) 8 ltac:(done)).
  unfold write_bit. rewrite Hpos, of_nat_div8, of_nat_mod8.
  set (buf := if _ <=? _ then _ else _).
  assert (Forall (λ b, b < 256) buf ∧ padded buf bits ∧ length buf = ((length bits + 1 + 7) / 8)%nat)
    as (Hb1 & Hp1 & Hl1).
  { unfold buf. destruct (N.leb_spec (N.of_nat (length (bw_buf w))) (N.of_nat (length bits / 8))).
    - split_and!; [apply Forall_app; by repeat constructor|apply padded_push; [lia|done]|].
      rewrite length_app. simpl. lia.
    - split_and!; [done|done|lia]. }
  clearbody buf. constructor; cbn [bw_buf bw_bit_pos].
  - destruct b; [|done]. apply or_at_bytes; [|done]. apply (shiftl_1_lt _ 8). lia.
  - rewrite length_app. simpl. lia.
  - rewrite length_app. change (length [b]) with 1%nat. rewrite <-Hl1. destruct b; [apply length_alter|done].
  - apply padded_set; [lia|done].
Qed.

Lemma write_bits_ok w bits v n :
  writer_ok w bits → writer_ok (write_bits w v n) (bits ++ msb_bits n v).
Proof.
  revert w bits. induction n as [|n IH]; intros w bits Hw; [by rewrite app_nil_r|].
  simpl. rewrite msb_bits_succ. change (?b :: ?l) with ([b] ++ l). rewrite app_assoc.
  apply IH. replace (N.land _ 1 =? 1) with (N.testbit v (N.of_nat n)); [by apply write_bit_ok|].
  change 1 with (N.ones 1) at 1. rewrite N.land_ones. change (2 ^ 1) with 2.
  rewrite <-N.bit0_mod, N.shiftr_spec by lia. rewrite (N.add_0_l (N.of_nat n)).
  by destruct (N.testbit v _).
Qed.

(** Everything the bytes of a writer hold: its bits and zeros. *)
Lemma writer_bits w bits :
  writer_ok w bits → ∃ pad, (pad < 8)%nat ∧ bits_of (as_bytes w) = bits ++ replicate pad false.
Proof.
  intros [_ _ Hlen Hbits]. pose proof (div_ceil8_spec (length bits)).
  exists (8 * length (bw_buf w) - length bits)%nat. split; [lia|].
  apply list_eq. intros k. unfold as_bytes. destruct (decide (k < 8 * length (bw_buf w))%nat).
  - rewrite Hbits by done. destruct (decide (k < length bits)%nat) as [Hk|Hk].
    + rewrite lookup_app_l by done. destruct (lookup_lt_is_Some_2 _ _ Hk) as [b ->]. done.
    + rewrite lookup_app_r, (lookup_ge_None_2 bits), lookup_replicate_2 by lia. done.
  - rewrite !lookup_ge_None_2; [done|rewrite length_app, length_replicate; lia|].
    rewrite length_bits_of. lia.
Qed.

(** ** Reading *)

(** The bits one round of [read_run] takes from a byte are the next bits of
    the buffer. *)
Lemma run_bits buf (p t : nat) byte :
  buf !! (p / 8)%nat = Some byte → (p mod 8 + t ≤ 8)%nat →
  msb_bits t (N.shiftr byte (N.of_nat (8 - p mod 8 - t))) = take t (drop p (bits_of buf)).
Proof.
  intros Hbyte Ht. apply list_eq. intros i. destruct (decide (i < t)%nat) as [Hi|Hi].
  - rewrite lookup_take_lt, lookup_drop, bits_of_lookup by done.
    pose proof (Nat.div_mod p 8 ltac:(done)).
    assert ((p + i) / 8 = p / 8 ∧ (p + i) mod 8 = p mod 8 + i)%nat as [-> ->].
    { split; [symmetry; apply (Nat.div_unique _ _ _ (p mod 8 + i))|
        symmetry; apply (Nat.mod_unique _ _ (p / 8))]; lia. }
    rewrite Hbyte. unfold msb_bits. rewrite list_lookup_fmap, lookup_seq_lt by done.
    cbn [fmap option_fmap option_map]. f_equal. rewrite N.shiftr_spec by lia. f_equal. lia.
  - rewrite lookup_ge_None_2 by (rewrite length_msb_bits; lia).
    by rewrite lookup_take_ge by lia.
Qed.

Lemma lor_shiftl v b t : b < 2 ^ t → N.lor (N.shiftl v t) b = v * 2 ^ t + b.
Proof.
  intros Hb. assert (N.land (N.shiftl v t) b = 0) as Hz.
  { apply N.bits_inj. intros i. rewrite N.land_spec, N.bits_0. destruct (N.lt_ge_cases i t) as [Hi|Hi].
    - by rewrite N.shiftl_spec_low.
    - destruct (decide (b = 0)) as [->|]; [by rewrite N.bits_0, andb_false_r|].
      rewrite (N.bits_above_log2 b), andb_false_r; [done|].
      apply N.log2_lt_pow2; [lia|]. eapply N.lt_le_trans; [done|]. by apply N.pow_le_mono_r. }
  rewrite <-N.lxor_lor, <-N.add_nocarry_lxor by done. by rewrite N.shiftl_mul_pow2.
Qed.

Lemma ones_shiftl t : N.shiftl 1 t - 1 = N.ones t.
Proof. rewrite N.shiftl_1_l, N.ones_equiv. lia. Qed.

Lemma read_run_ok fuel buf (p e : nat) pre :
  (p ≤ e)%nat → (e - p ≤ fuel)%nat → (e ≤ 8 * length buf)%nat → (length pre + (e - p) ≤ 64)%nat →
  read_run fuel buf (N.of_nat p) (N.of_nat e) (msb_value pre) =
  msb_value (pre ++ take (e - p) (drop p (bits_of buf))).
Proof.
  revert p pre. induction fuel as [|fuel IH]; intros p pre Hpe Hfuel He Hlen; cbn [read_run].
  { replace (e - p)%nat with 0%nat by lia. by rewrite take_0, app_nil_r. }
  destruct (N.ltb_spec (N.of_nat p) (N.of_nat e)).
  2: { replace (e - p)%nat with 0%nat by lia. by rewrite take_0, app_nil_r. }
  pose proof (Nat.div_mod p 8 ltac:(done)). pose proof (Nat.mod_upper_bound p 8 ltac:(done)).
  rewrite of_nat_div8, of_nat_mod8, Nat2N.id.
  destruct (lookup_lt_is_Some_2 buf (p / 8)) as [byte Hbyte]; [lia|]. rewrite Hbyte. cbn [default].
  set (t := Nat.min (8 - p mod 8) (e - p)).
  replace (N.min (8 - N.of_nat (p mod 8)) (N.of_nat e - N.of_nat p)) with (N.of_nat t) by lia.
  replace (8 - N.of_nat (p mod 8) - N.of_nat t) with (N.of_nat (8 - p mod 8 - t)) by lia.
  rewrite ones_shiftl, N.land_ones, <-msb_value_bits, (run_bits _ _ _ _ Hbyte) by lia.
  assert (length (take t (drop p (bits_of buf))) = t) as Htl.
  { rewrite length_take, length_drop, length_bits_of. lia. }
  pose proof (msb_value_lt (take t (drop p (bits_of buf)))) as Hv. rewrite Htl in Hv.
  assert (msb_value pre * 2 ^ N.of_nat t < 2 ^ 64) as Hsh.
  { eapply N.lt_le_trans; [apply N.mul_lt_mono_pos_r; [lia|apply msb_value_lt]|].
    rewrite <-N.pow_add_r. apply N.pow_le_mono_r; lia. }
  unfold wrap64. rewrite N.mod_small by by rewrite N.shiftl_mul_pow2.
  rewrite lor_shiftl by done. rewrite <-Htl at 2. rewrite <-msb_value_app.
  rewrite <-Nat2N.inj_add, IH; [|rewrite ?length_app; lia..].
  rewrite <-app_assoc. do 2 f_equal. replace (e - p)%nat with (t + (e - (p + t)))%nat by lia.
  by rewrite <-take_take_drop, drop_drop.
Qed.

(** The reader [r] has the bits [bits] ahead of it; the buffer is small enough
    for every bit offset to fit a [usize]. *)
Record reader_ok (r : BitReader) (bits : list bool) : Prop := {
  ro_pos : (N.to_nat (br_bit_pos r) ≤ 8 * length (br_buf r))%nat;
  ro_left : drop (N.to_nat (br_bit_pos r)) (bits_of (br_buf r)) = bits;
  ro_small : 8 * N.of_nat (length (br_buf r)) + 64 ≤ u64_max;
}.

(** The reader [n] bits further on. *)
Definition advance (r : BitReader) (n : N) : BitReader :=
  {| br_buf := br_buf r; br_bit_pos := br_bit_pos r + n |}.

Lemma reader_new_ok buf :
  8 * N.of_nat (length buf) + 64 ≤ u64_max → reader_ok (bit_reader_new buf) (bits_of buf).
Proof. intros. constructor; [simpl; lia|done|done]. Qed.

Lemma reader_length r bits :
  reader_ok r bits → (N.to_nat (br_bit_pos r) + length bits = 8 * length (br_buf r))%nat.
Proof. intros [Hp <- _]. rewrite length_drop, length_bits_of. lia. Qed.

Lemma advance_ok r xs ys n :
  reader_ok r (xs ++ ys) → n = N.of_nat (length xs) → reader_ok (advance r n) ys.
Proof.
  intros Hr ->. pose proof (reader_length _ _ Hr) as Hl. rewrite length_app in Hl.
  destruct Hr as [Hp Hleft Hs]. constructor; cbn [advance br_buf br_bit_pos]; [lia| |done].
  rewrite N2Nat.inj_add, Nat2N.id, <-drop_drop, Hleft. apply drop_app_length.
Qed.

Lemma checked_add_ok a b : a + b ≤ u64_max → checked_add a b = Ok (a + b).
Proof. intros H. unfold checked_add. by rewrite (proj2 (N.leb_le _ _) H). Qed.

Lemma read_bit_ok r b bits : reader_ok r (b :: bits) → read_bit r = (advance r 1, Ok b).
Proof.
  intros Hr. pose proof (reader_length _ _ Hr) as Hl. destruct Hr as [Hp Hleft Hs]. simpl in Hl.
  assert (bits_of (br_buf r) !! N.to_nat (br_bit_pos r) = Some b) as Hb.
  { by rewrite <-(Nat.add_0_r (N.to_nat _)), <-lookup_drop, Hleft. }
  rewrite bits_of_lookup in Hb. unfold read_bit.
  rewrite N2Nat.inj_div. change (N.to_nat 8) with 8%nat.
  destruct (br_buf r !! _) as [byte|]; [|done]. apply (inj Some) in Hb.
  rewrite checked_add_ok by lia. unfold advance. do 3 f_equal.
  rewrite <-Hb. change 1 with (N.ones 1) at 1. rewrite N.land_ones. change (2 ^ 1) with 2.
  rewrite <-N.bit0_mod, N.shiftr_spec by lia.
  replace (N.of_nat (N.to_nat (br_bit_pos r) mod 8)) with (br_bit_pos r mod 8)
    by (rewrite <-of_nat_mod8, N2Nat.id; done).
  rewrite (N.add_0_l (7 - _)). destruct (N.testbit byte (7 - br_bit_pos r mod 8)); reflexivity.
Qed.

Lemma read_bit_empty r : reader_ok r [] → ∃ e, read_bit r = (r, Err e).
Proof.
  intros Hr. pose proof (reader_length _ _ Hr) as Hl. simpl in Hl. unfold read_bit.
  assert (br_buf r !! N.to_nat (br_bit_pos r / 8) = None) as ->.
  { apply lookup_ge_None_2. rewrite N2Nat.inj_div. change (N.to_nat 8) with 8%nat.
    replace (N.to_nat (br_bit_pos r)) with (length (br_buf r) * 8)%nat by lia.
    by rewrite Nat.div_mul. }
  destruct (checked_add _ _); by eexists.
Qed.

Lemma div_ceil8_le n m : (div_ceil8 n <=? m) = (n <=? 8 * m).
Proof.
  unfold div_ceil8. pose proof (N.div_mod' (n + 7) 8) as Hd.
  pose proof (N.mod_lt (n + 7) 8 ltac:(done)) as Hm. apply eq_true_iff_eq. rewrite !N.leb_le.
  revert Hd Hm. generalize ((n + 7) / 8) ((n + 7) mod 8). lia.
Qed.

Lemma read_bits_ok r xs bits n :
  reader_ok r (xs ++ bits) → n = N.of_nat (length xs) → (length xs ≤ 64)%nat →
  read_bits r n = (advance r n, Ok (msb_value xs)).
Proof.
  intros Hr -> Hn. pose proof (reader_length _ _ Hr) as Hl. destruct Hr as [Hp Hleft Hs].
  rewrite length_app in Hl. unfold read_bits.
  destruct (N.eqb_spec (N.of_nat (length xs)) 0) as [Hz|Hz].
  { destruct xs; [|simpl in Hz; lia]. unfold advance. destruct r. simpl. by rewrite N.add_0_r. }
  destruct (N.ltb_spec 64 (N.of_nat (length xs))); [lia|].
  rewrite checked_add_ok by lia.
  rewrite N.ltb_antisym, div_ceil8_le, (proj2 (N.leb_le _ _)) by lia. cbn [negb].
  unfold advance. do 2 f_equal. rewrite <-(N2Nat.id (br_bit_pos r)) at 1 2.
  rewrite <-Nat2N.inj_add, Nat2N.id. change 0 with (msb_value []).
  rewrite read_run_ok; [|simpl; lia..].
  rewrite Hleft. simpl. f_equal. rewrite Nat.add_comm, Nat.add_sub. apply take_app_length.
Qed.

Lemma read_bits_short r bits n :
  reader_ok r bits → n ≤ 64 → (length bits < N.to_nat n)%nat →
  read_bits r n =
  (r, Err (Truncated (div_ceil8 (br_bit_pos r + n)) (N.of_nat (length (br_buf r))))).
Proof.
  intros Hr Hn Hs. pose proof (reader_length _ _ Hr) as Hl. destruct Hr as [Hp Hleft Hsm].
  unfold read_bits. rewrite (proj2 (N.eqb_neq n 0)), (proj2 (N.ltb_ge 64 n)) by lia.
  rewrite checked_add_ok by lia.
  by rewrite N.ltb_antisym, div_ceil8_le, (proj2 (N.leb_gt _ _)) by lia.
Qed.

(** ** Delta-of-delta fields *)

Lemma sign_extend_ok z n :
  0 < n < 64 → (- 2 ^ (Z.of_N n - 1) ≤ z < 2 ^ (Z.of_N n - 1))%Z →
  sign_extend (to_i64 (N.land (to_u64 z) (N.ones n))) n = z.
Proof.
  intros Hn Hz. rewrite N.land_ones.
  assert (Hp : (2 ^ Z.of_N n = 2 * 2 ^ (Z.of_N n - 1))%Z).
  { rewrite <-Z.pow_succ_r by lia. f_equal. lia. }
  assert (H64 : (2 ^ Z.of_N (64 - n) * 2 ^ (Z.of_N n - 1) = 2 ^ 63)%Z).
  { rewrite <-Z.pow_add_r by lia. f_equal. lia. }
  assert (0 < 2 ^ Z.of_N (64 - n))%Z as Hs by (apply Z.pow_pos_nonneg; lia).
  assert (Z.of_N (to_u64 z mod 2 ^ n) = z mod 2 ^ Z.of_N n)%Z as Hm.
  { rewrite N2Z.inj_mod, N2Z.inj_pow. unfold to_u64. rewrite Z2N.id by (apply Z.mod_pos_bound; lia).
    change (Z.of_N 2) with 2%Z. rewrite Z.mod_mod_divide; [done|].
    exists (2 ^ Z.of_N (64 - n))%Z. rewrite <-Z.pow_add_r by lia. f_equal. lia. }
  assert (2 ^ (Z.of_N n - 1) ≤ 2 ^ 62)%Z by (apply Z.pow_le_mono_r; lia).
  pose proof (Z.mod_pos_bound z (2 ^ Z.of_N n) ltac:(lia)) as Hb.
  unfold to_i64. rewrite Hm. destruct (Z.ltb_spec (z mod 2 ^ Z.of_N n) (2 ^ 63)); [|lia].
  unfold sign_extend. rewrite Z.shiftl_mul_pow2, Z.shiftr_div_pow2 by lia.
  rewrite (iwrap_unique _ (z * 2 ^ Z.of_N (64 - n)) (z / 2 ^ Z.of_N n)).
  - apply Z.div_mul. lia.
  - unfold is_i64. nia.
  - pose proof (Z.div_mod z (2 ^ Z.of_N n) ltac:(lia)) as Hd.
    assert (2 ^ 64 = 2 ^ Z.of_N (64 - n) * 2 ^ Z.of_N n)%Z as ->.
    { rewrite <-Z.pow_add_r by lia. f_equal. lia. }
    rewrite Hd at 1. ring.
Qed.

(** The bits a dod is written as, by both time-series codecs. *)
Definition dod_bits (dod : i64) : list bool :=
  if (dod =? 0)%Z then [false]
  else if ((-64 <=? dod) && (dod <=? 63))%Z then [true; false] ++ msb_bits 7 (N.land (to_u64 dod) 0x7F)
  else if ((-256 <=? dod) && (dod <=? 255))%Z then [true; true; false] ++ msb_bits 9 (N.land (to_u64 dod) 0x1FF)
  else if ((-2048 <=? dod) && (dod <=? 2047))%Z then
    [true; true; true; false] ++ msb_bits 12 (N.land (to_u64 dod) 0xFFF)
  else [true; true; true; true] ++ msb_bits 64 (to_u64 dod).

Lemma length_dod_bits dod : (1 ≤ length (dod_bits dod) ≤ 68)%nat.
Proof. unfold dod_bits. repeat case_match; rewrite ?length_app, ?length_msb_bits; simpl; lia. Qed.

Lemma advance_advance r n m : advance (advance r n) m = advance r (n + m).
Proof. unfold advance. simpl. f_equal. lia. Qed.

(** A field of [n] bits that holds [v], [n] at most 64. *)
Lemma read_field r num n v bits :
  reader_ok r (msb_bits n v ++ bits) → num = N.of_nat n → (n ≤ 64)%nat → v < 2 ^ N.of_nat n →
  read_bits r num = (advance r num, Ok v) ∧ reader_ok (advance r num) bits.
Proof.
  intros Hr -> Hn Hv. split.
  - rewrite (read_bits_ok _ _ _ _ Hr); rewrite ?length_msb_bits; [|lia..]. by rewrite msb_value_bits_id.
  - apply (advance_ok _ _ _ _ Hr). by rewrite length_msb_bits.
Qed.

Lemma read_bit_cons r b bits :
  reader_ok r (b :: bits) → read_bit r = (advance r 1, Ok b) ∧ reader_ok (advance r 1) bits.
Proof. intros Hr. split; [by eapply read_bit_ok|by eapply (advance_ok _ [b])]. Qed.

(** Reads the next bit, or the next [n]-bit field, of the list a reader has
    ahead. *)
Ltac read_step Hr :=
  let Hread := fresh in
  lazymatch type of Hr with
  | reader_ok _ (_ :: _) => destruct (read_bit_cons _ _ _ Hr) as [Hread Hr']
  | reader_ok ?r (msb_bits _ _ ++ _) =>
      match goal with
      | |- context [read_bits r ?num] =>
          destruct (read_field _ num _ _ _ Hr) as [Hread Hr'];
            [lia|lia|first [assumption|apply to_u64_lt|lia]|]
      end
  end;
  rewrite Hread; clear Hread Hr; rename Hr' into Hr; rewrite ?advance_advance in Hr;
  rewrite ?advance_advance; cbn [negb].

Lemma land_ones_lt v n : N.land v (N.ones n) < 2 ^ n.
Proof. rewrite N.land_ones. by apply N.mod_lt, N.pow_nonzero. Qed.

Lemma decode_dod_ok r dod bits :
  is_i64 dod → reader_ok r (dod_bits dod ++ bits) →
  decode_dod r = (advance r (N.of_nat (length (dod_bits dod))), Ok dod) ∧
  reader_ok (advance r (N.of_nat (length (dod_bits dod)))) bits.
Proof.
  intros Hdod Hr. split; [|by eapply advance_ok]. revert Hr. unfold dod_bits, decode_dod.
  change 0x7F with (N.ones 7). change 0x1FF with (N.ones 9). change 0xFFF with (N.ones 12).
  pose proof (land_ones_lt (to_u64 dod)) as Hones.
  pose proof (Hones 7). pose proof (Hones 9). pose proof (Hones 12).
  destruct (Z.eqb_spec dod 0) as [->|]; [intros Hr; cbn [app] in Hr; by read_step Hr|].
  destruct (_ && _)%Z eqn:H7; [|destruct ((-256 <=? dod) && _)%Z eqn:H9; [|destruct ((-2048 <=? dod) && _)%Z eqn:H12]];
    intros Hr; cbn [app] in Hr; repeat read_step Hr.
  - by rewrite sign_extend_ok by lia.
  - by rewrite sign_extend_ok by lia.
  - by rewrite sign_extend_ok by lia.
  - by rewrite to_i64_to_u64.
Qed.
