(* ===== verification/CodecFacts.v ===== *)
(** * CodecFacts: round trips of the integer codecs

    The delta codec is a bijection between value lists and the frames its
    decoder accepts; the double-delta codec decodes what it encodes; a
    multi-bit read agrees with reading bit by bit. *)

From Stdlib Require Import Lia ZArith.
From stdpp Require Import base option list.
From S2P Require Import Prelude Codec CodecBits.

(** A Rust byte slice: bytes, and no longer than [isize::MAX]. *)
Record is_slice (data : bytes) : Prop := {
  is_bytes : Forall (λ b, b < 256) data;
  is_short : N.of_nat (length data) < 2 ^ 63;
}.

(** ** Varints *)

Lemma byte_forall (P : N → bool) :
  forallb P (N.of_nat <$> seq 0 256) = true → ∀ b, b < 256 → P b = true.
Proof.
  intros H b Hb. rewrite forallb_forall in H. apply H, list_elem_of_In, list_elem_of_fmap.
  exists (N.to_nat b). split; [lia|]. apply elem_of_seq. lia.
Qed.

Lemma land_7f b : N.land b 0x7f = b mod 128.
Proof. apply (N.land_ones b 7). Qed.

Lemma land_80 b : b < 256 → (N.land b 0x80 =? 0) = (b <? 128).
Proof.
  intros Hb. apply eqb_prop. revert b Hb.
  apply (byte_forall (λ b, Bool.eqb (N.land b 0x80 =? 0) (b <? 128))). by vm_compute.
Qed.

Lemma lor_80 b : b < 128 → N.lor b 0x80 = 128 + b.
Proof. intros Hb. rewrite N.lor_comm. exact (lor_shiftl 1 b 7 Hb). Qed.

Lemma write_varint_loop_app fuel buf v :
  write_varint_loop fuel buf v = buf ++ write_varint_loop fuel [] v.
Proof.
  revert buf v. induction fuel as [|fuel IH]; intros buf v; simpl; [by rewrite app_nil_r|].
  destruct (N.shiftr v 7 =? 0); [done|]. rewrite IH, (IH [_]). by rewrite app_assoc.
Qed.

(** One round of [write_varint]. *)
Lemma varint_step fuel v :
  write_varint_loop (S fuel) [] v =
  if v <? 128 then [v] else (128 + v mod 128) :: write_varint_loop fuel [] (v / 128).
Proof.
  simpl. rewrite N.shiftr_div_pow2, land_7f. change (2 ^ 7) with 128.
  destruct (N.ltb_spec v 128).
  - rewrite N.div_small, N.mod_small by done. done.
  - destruct (N.eqb_spec (v / 128) 0) as [Hz|]; [apply N.div_small_iff in Hz; lia|].
    simpl. rewrite write_varint_loop_app, lor_80 by by apply N.mod_lt. done.
Qed.

(** One round of [read_varint], at index [i] of the varint. *)
Lemma read_varint_step len byte rest (i : nat) value :
  (i ≤ 9)%nat → byte < 256 → value < 2 ^ (7 * N.of_nat i) →
  read_varint_loop len (byte :: rest) (N.of_nat i) value =
  if (i =? 9)%nat && (2 <=? byte) then Err Corrupt
  else if byte <? 128 then
    if negb (i =? 0)%nat && (byte =? 0) then Err Corrupt
    else Ok (value + byte * 2 ^ (7 * N.of_nat i), N.of_nat (S i))
  else read_varint_loop len rest (N.of_nat (S i)) (value + byte mod 128 * 2 ^ (7 * N.of_nat i)).
Proof.
  intros Hi Hb Hv. cbn [read_varint_loop]. rewrite land_80, land_7f by done.
  destruct (N.leb_spec 10 (N.of_nat i)) as [|_]; [lia|].
  pose proof (N.mod_lt byte 128 ltac:(done)) as Hm.
  assert ((N.of_nat i =? 9) && (negb (byte <? 128) || (1 <? byte mod 128)) = ((i =? 9)%nat && (2 <=? byte)))
    as ->.
  { apply eq_true_iff_eq. rewrite !andb_true_iff, orb_true_iff, negb_true_iff, N.eqb_eq, Nat.eqb_eq,
      N.ltb_ge, N.ltb_lt, N.leb_le. destruct (N.lt_ge_cases byte 128); [|lia].
    rewrite N.mod_small by done. lia. }
  destruct ((i =? 9)%nat && (2 <=? byte)) eqn:H9; [done|].
  assert (byte mod 128 * 2 ^ (7 * N.of_nat i) < 2 ^ 64) as H64.
  { apply andb_false_iff in H9 as [H9|H9].
    - apply Nat.eqb_neq in H9. eapply N.lt_le_trans; [apply N.mul_lt_mono_pos_r; [lia|exact Hm]|].
      change 128 with (2 ^ 7). rewrite <-N.pow_add_r. apply N.pow_le_mono_r; lia.
    - apply N.leb_gt in H9. rewrite N.mod_small by lia.
      eapply N.le_lt_trans; [apply N.mul_le_mono_r; apply (N.lt_succ_r byte 1); lia|].
      rewrite N.mul_1_l. apply N.pow_lt_mono_r; lia. }
  assert (N.lor value (wrap64 (N.shiftl (byte mod 128) (N.of_nat i * 7))) =
    value + byte mod 128 * 2 ^ (7 * N.of_nat i)) as ->.
  { rewrite N.lor_comm, N.mul_comm. unfold wrap64. rewrite N.mod_small by by rewrite N.shiftl_mul_pow2.
    rewrite lor_shiftl by done. lia. }
  replace (N.of_nat i + 1) with (N.of_nat (S i)) by lia.
  destruct (N.ltb_spec byte 128); [|done]. rewrite N.mod_small by done.
  replace (0 <? N.of_nat i) with (negb (i =? 0)%nat); [done|]. by destruct i.
Qed.

(** The varint of [w] is read back, whatever follows it. *)
Lemma read_varint_complete len (i : nat) w rest value :
  (i ≤ 9)%nat → value < 2 ^ (7 * N.of_nat i) → w < 2 ^ (64 - 7 * N.of_nat i) →
  (i ≠ 0%nat → w ≠ 0) →
  let bs := write_varint_loop (10 - i) [] w in
  read_varint_loop len (bs ++ rest) (N.of_nat i) value =
  Ok (value + w * 2 ^ (7 * N.of_nat i), N.of_nat (i + length bs)).
Proof.
  remember (10 - i)%nat as f eqn:Hf. revert i w value Hf.
  induction f as [|f IH]; intros i w value Hf Hi Hv Hw Hne; [lia|]. cbv zeta.
  rewrite varint_step. assert (Hw9 : i = 9%nat → w < 2) by (intros ->; exact Hw).
  destruct (N.ltb_spec w 128) as [Hs|Hs]; cbn [app length].
  - rewrite read_varint_step by lia. rewrite (proj2 (N.ltb_lt _ _)) by done.
    destruct (Nat.eqb_spec i 9), (N.leb_spec 2 w); try (exfalso; by auto with lia); cbn [andb];
      (destruct (Nat.eqb_spec i 0), (N.eqb_spec w 0); [..|by destruct Hne|]; cbn [negb andb]; do 2 f_equal; lia).
  - pose proof (N.mod_lt w 128 ltac:(done)). rewrite read_varint_step by lia.
    rewrite (proj2 (N.ltb_ge (128 + w mod 128) 128)) by apply N.le_add_r. destruct (Nat.eqb_spec i 9); [specialize (Hw9 ltac:(done)); lia|]. cbn [andb].
    replace (128 + w mod 128) with (w mod 128 + 1 * 128) by lia.
    rewrite N.Div0.mod_add, N.Div0.mod_mod. rewrite IH.
    + f_equal. f_equal; [|lia]. replace (7 * N.of_nat (S i)) with (7 + 7 * N.of_nat i) by lia.
      rewrite N.pow_add_r. change (2 ^ 7) with 128. pose proof (N.div_mod' w 128). nia.
    + lia.
    + lia.
    + replace (7 * N.of_nat (S i)) with (7 + 7 * N.of_nat i) by lia. rewrite N.pow_add_r. change (2 ^ 7) with 128. nia.
    + apply N.Div0.div_lt_upper_bound. change 128 with (2 ^ 7). rewrite <-N.pow_add_r.
      eapply N.lt_le_trans; [exact Hw|]. apply N.pow_le_mono_r; lia.
    + intros _ Hz. apply N.div_small_iff in Hz; lia.
Qed.

(** Whatever [read_varint] accepts is the varint of what it returns. *)
Lemma read_varint_sound len (i : nat) data value r c :
  (i ≤ 10)%nat → Forall (λ b, b < 256) data → value < 2 ^ (7 * N.of_nat i) →
  read_varint_loop len data (N.of_nat i) value = Ok (r, c) →
  ∃ w rest, data = write_varint_loop (10 - i) [] w ++ rest ∧
    r = value + w * 2 ^ (7 * N.of_nat i) ∧
    c = N.of_nat (i + length (write_varint_loop (10 - i) [] w)) ∧
    w < 2 ^ (64 - 7 * N.of_nat i) ∧ (i ≠ 0%nat → w ≠ 0) ∧ (i < 10)%nat.
Proof.
  revert i value. induction data as [|byte rest IH]; intros i value Hi Hb Hv Hr.
  { cbn [read_varint_loop] in Hr. by destruct (checked_add len 1). }
  apply Forall_cons_1 in Hb as [Hbyte Hb].
  destruct (decide (i = 10%nat)) as [->|Hi10]; [done|].
  rewrite read_varint_step in Hr by (done || lia).
  destruct (_ && _) eqn:H9 in Hr; [done|].
  replace (10 - i)%nat with (S (9 - i)) by lia.
  destruct (N.ltb_spec byte 128) as [Hs|Hs].
  - destruct (negb _ && _) eqn:Hz in Hr; [done|]. simplify_eq. exists byte, rest.
    rewrite varint_step, (proj2 (N.ltb_lt _ _)) by done. split_and!; [done|done| | | |lia].
    + simpl. lia.
    + destruct (decide (i = 9%nat)) as [->|].
      * apply N.leb_gt in H9. change (2 ^ (64 - 7 * N.of_nat 9)) with 2. lia.
      * eapply N.lt_le_trans; [exact Hs|]. change 128 with (2 ^ 7). apply N.pow_le_mono_r; lia.
    + intros Hi0 ->. apply Nat.eqb_neq in Hi0. by rewrite Hi0 in Hz.
  - assert (i ≠ 9%nat) as Hi9.
    { intros ->. apply N.leb_gt in H9. lia. }
    pose proof (N.mod_lt byte 128 ltac:(done)) as Hm.
    assert (Hpow : 2 ^ (7 * N.of_nat (S i)) = 128 * 2 ^ (7 * N.of_nat i)).
    { replace (7 * N.of_nat (S i)) with (7 + 7 * N.of_nat i) by lia. by rewrite N.pow_add_r. }
    apply IH in Hr as (w & rest' & -> & -> & -> & Hw & Hne & _); [|lia|done|rewrite Hpow; nia].
    exists (byte mod 128 + w * 128), rest'. replace (10 - S i)%nat with (9 - i)%nat by lia.
    rewrite varint_step. specialize (Hne ltac:(done)). rewrite (proj2 (N.ltb_ge (byte mod 128 + w * 128) 128)) by (generalize (byte mod 128); lia).
    rewrite N.Div0.mod_add, N.div_add, (N.div_small (byte mod 128)), N.Div0.mod_mod, N.add_0_l by done.
    replace (128 + byte mod 128) with byte.
    2: { rewrite (N.div_mod' byte 128) at 1. rewrite <-(N.div_unique byte 128 1 (byte - 128)); lia. }
    revert Hm. generalize (byte mod 128). intros m Hm.
    split_and!; [done|rewrite Hpow; lia|simpl; lia| |lia|lia].
    assert (2 ^ (64 - 7 * N.of_nat i) = 128 * 2 ^ (64 - 7 * N.of_nat (S i))) as ->; [|lia].
    change 128 with (2 ^ 7). rewrite <-N.pow_add_r. f_equal. lia.
Qed.

Lemma write_varint_app buf v : write_varint buf v = buf ++ write_varint [] v.
Proof. apply write_varint_loop_app. Qed.

Lemma read_varint_write v rest :
  v < 2 ^ 64 → read_varint (write_varint [] v ++ rest) = Ok (v, N.of_nat (length (write_varint [] v))).
Proof.
  intros Hv. unfold read_varint, write_varint. rewrite (read_varint_complete _ 0); [|done||lia..].
  do 2 f_equal. lia.
Qed.

Lemma read_varint_inv data v c :
  Forall (λ b, b < 256) data → read_varint data = Ok (v, c) →
  v < 2 ^ 64 ∧ c = N.of_nat (length (write_varint [] v)) ∧
  ∃ rest, data = write_varint [] v ++ rest.
Proof.
  intros Hb Hr. apply (read_varint_sound _ 0) in Hr as (w & rest & Hd & -> & -> & Hw & _); [|lia|done..].
  change (2 ^ (7 * N.of_nat 0)) with 1. rewrite N.mul_1_r, N.add_0_l. split_and!; [done|done|by exists rest].
Qed.

Lemma length_varint v : (length (write_varint [] v) ≤ 10)%nat.
Proof.
  unfold write_varint. generalize 10%nat. intros n. revert v. induction n as [|n IH]; intros v; [done|].
  rewrite varint_step. destruct (v <? 128); simpl; [lia|]. specialize (IH (v / 128)). lia.
Qed.

Lemma varint_bytes v : Forall (λ b, b < 256) (write_varint [] v).
Proof.
  unfold write_varint. generalize 10%nat. intros n. revert v. induction n as [|n IH]; intros v; [constructor|].
  rewrite varint_step. destruct (N.ltb_spec v 128); constructor; try done; [lia|].
  pose proof (N.mod_lt v 128 ltac:(done)). lia.
Qed.

Lemma varint_nonempty v : write_varint [] v ≠ [].
Proof. unfold write_varint. rewrite varint_step. by destruct (v <? 128). Qed.

(** ** Frame limits *)

(** The values a 64 MiB frame can hold. *)
Definition MAX_VALUES : N := 2 ^ 23.

Lemma validate_value_count_ok c : validate_value_count c = Ok () ↔ c ≤ MAX_VALUES.
Proof.
  unfold validate_value_count, checked_mul, decoded_len, MAX_VALUES, MAX_DECODED_BYTES, u64_max.
  destruct (N.leb_spec (c * 8) (2 ^ 64 - 1)); [|split; [done|lia]].
  destruct (N.ltb_spec (64 * 1024 * 1024) (c * 8)); split; done || lia.
Qed.

Lemma encode_value_count_ok c : c ≤ MAX_VALUES → encode_value_count c = Ok c.
Proof.
  intros Hc. unfold encode_value_count. rewrite (proj2 (validate_value_count_ok c) Hc).
  unfold encode_input_len, decoded_len, encode_u32_len, MAX_VALUES, MAX_DECODED_BYTES, u32_max in *.
  destruct (N.ltb_spec (64 * 1024 * 1024) c); [lia|].
  destruct (N.leb_spec c (2 ^ 32 - 1)); [done|lia].
Qed.

Lemma encode_value_count_inv c n : encode_value_count c = Ok n → c ≤ MAX_VALUES ∧ n = c.
Proof.
  intros Hn. assert (c ≤ MAX_VALUES) as Hc.
  { apply validate_value_count_ok. unfold encode_value_count in Hn. by destruct (validate_value_count c) as [[]|]. }
  rewrite encode_value_count_ok in Hn by done. by simplify_eq.
Qed.

Lemma checked_capacity_ok c : c ≤ MAX_VALUES → checked_capacity c 8 = Ok c.
Proof.
  unfold MAX_VALUES, checked_capacity, checked_mul, decoded_len, MAX_DECODED_BYTES, u64_max. intros Hc.
  destruct (N.leb_spec (c * 8) (2 ^ 64 - 1)); [|lia].
  destruct (N.ltb_spec (64 * 1024 * 1024) (c * 8)); [lia|done].
Qed.

Lemma field_app lo n a b c : length a = lo → length b = n → field lo n (a ++ b ++ c) = b.
Proof. intros <- <-. unfold field. by rewrite drop_app_length, take_app_length. Qed.

Lemma count_field c rest :
  c ≤ MAX_VALUES → u32_to_usize (from_le (field 0 4 (to_le 4 c ++ rest))) = Ok c.
Proof.
  intros Hc. unfold MAX_VALUES in Hc. change (to_le 4 c ++ rest) with ([] ++ to_le 4 c ++ rest).
  rewrite field_app by (done || apply length_to_le).
  rewrite from_le_to_le by (simpl; lia). unfold u32_to_usize, u64_max.
  destruct (N.leb_spec c (2 ^ 64 - 1)); [done|lia].
Qed.

Lemma read_words off (pre : bytes) l post :
  length pre = off → Forall (λ x, x < 2 ^ 32) l →
  (λ i, from_le (field (off + i * 4) 4 (pre ++ (l ≫= to_le 4) ++ post))) <$> seq 0 (length l) = l.
Proof.
  intros Hpre Hl. revert off pre Hpre. induction Hl as [|x l Hx Hl IH]; intros off pre Hpre; [done|].
  cbn [length seq mbind list_bind]. rewrite fmap_cons. f_equal.
  - rewrite Nat.add_0_r, <-app_assoc, field_app by (done || apply length_to_le). by apply from_le_to_le.
  - rewrite <-fmap_S_seq, <-list_fmap_compose, <-app_assoc, app_assoc.
    etrans; [|apply (IH (off + 4)%nat (pre ++ to_le 4 x))]; [|by rewrite length_app, length_to_le, Hpre].
    apply list_fmap_ext. intros i y _. cbn [compose]. do 2 f_equal. lia.
Qed.

Lemma length_words l : length (l ≫= to_le 4) = (4 * length l)%nat.
Proof. induction l as [|x l IH]; [done|]. cbn [mbind list_bind]. rewrite length_app, length_to_le, IH. cbn [length]. lia. Qed.

Lemma u32_to_usize_ok v : v ≤ u32_max → u32_to_usize v = Ok v.
Proof. intros. unfold u32_to_usize, u32_max, u64_max in *. by rewrite (proj2 (N.leb_le _ _)) by lia. Qed.

Lemma decoded_len_ok n : n ≤ MAX_DECODED_BYTES → decoded_len n = Ok n.
Proof. intros Hn. unfold decoded_len. by rewrite (proj2 (N.ltb_ge _ _)) by done. Qed.

Lemma slice_field lo n data :
  is_slice data → (lo + n ≤ length data)%nat →
  Forall (λ b, b < 256) (field lo n data) ∧ length (field lo n data) = n ∧
  data = take lo data ++ field lo n data ++ drop (lo + n) data.
Proof.
  intros [Hb _] Hlen. unfold field. split_and!.
  - by apply Forall_take, Forall_drop.
  - rewrite length_take, length_drop. lia.
  - by rewrite <-drop_drop, (take_drop n), take_drop.
Qed.

Lemma checked_range_app pre bs post :
  N.of_nat (length (pre ++ bs ++ post)) ≤ u64_max →
  checked_range (pre ++ bs ++ post) (N.of_nat (length pre)) (N.of_nat (length bs)) = Ok bs.
Proof.
  intros Hmax. unfold checked_range. rewrite !length_app in Hmax. rewrite checked_add_ok by lia.
  rewrite (proj2 (N.leb_le _ _)) by (rewrite !length_app; lia).
  by rewrite !Nat2N.id, drop_app_length, take_app_length.
Qed.

(** ** The delta codec *)

Lemma encode_deltas_app out prev vs :
  encode_deltas out prev vs = out ++ encode_deltas [] prev vs.
Proof.
  revert out prev. induction vs as [|v vs IH]; intros out prev; simpl; [by rewrite app_nil_r|].
  rewrite IH, (IH (write_varint [] _)), (write_varint_app out). by rewrite app_assoc.
Qed.

Lemma encode_deltas_cons prev v vs :
  encode_deltas [] prev (v :: vs) =
  write_varint [] (zigzag_encode (wrapping_sub v prev)) ++ encode_deltas [] v vs.
Proof. cbn [encode_deltas]. apply encode_deltas_app. Qed.

Lemma decode_deltas_complete data values prev ws rest offset :
  is_slice data → last values = Some prev → Forall is_i64 ws →
  drop (N.to_nat offset) data = encode_deltas [] prev ws ++ rest → offset ≤ N.of_nat (length data) →
  decode_deltas (length ws) data values offset =
  Ok (values ++ ws, offset + N.of_nat (length (encode_deltas [] prev ws))).
Proof.
  intros [_ Hs]. revert values prev offset. induction ws as [|w ws IH]; intros values prev offset Hlast Hws Hd Ho.
  { simpl. by rewrite app_nil_r, N.add_0_r. }
  apply Forall_cons_1 in Hws as [Hw Hws]. rewrite encode_deltas_cons, <-app_assoc in Hd.
  cbn [decode_deltas length]. pose proof (f_equal length Hd) as Hl.
  rewrite length_drop, !length_app in Hl.
  set (vb := write_varint [] (zigzag_encode (wrapping_sub w prev))) in *.
  assert (length vb ≠ 0%nat) by (intros H%nil_length_inv; by apply varint_nonempty in H).
  destruct (N.leb_spec (N.of_nat (length data)) offset); [lia|].
  rewrite Hd. unfold vb at 1. rewrite read_varint_write by apply zigzag_lt. fold vb.
  rewrite zigzag_decode_encode, Hlast by apply iwrap_i64. cbn [default].
  rewrite wrapping_add_sub by done.
  rewrite checked_add_ok by (unfold u64_max; lia).
  rewrite (IH _ w); [|by rewrite last_snoc|done| |lia].
  - rewrite encode_deltas_cons, length_app, <-app_assoc. do 2 f_equal. fold vb. lia.
  - rewrite N2Nat.inj_add, Nat2N.id, <-drop_drop, Hd. apply drop_app_length.
Qed.

Lemma decode_deltas_sound n data values prev vals offset offset' :
  is_slice data → last values = Some prev → offset ≤ N.of_nat (length data) →
  decode_deltas n data values offset = Ok (vals, offset') →
  ∃ ws rest, vals = values ++ ws ∧ length ws = n ∧ Forall is_i64 ws ∧
    drop (N.to_nat offset) data = encode_deltas [] prev ws ++ rest ∧
    offset' = offset + N.of_nat (length (encode_deltas [] prev ws)).
Proof.
  intros Hsl. revert values prev offset. induction n as [|n IH]; intros values prev offset Hlast Ho Hd.
  { simpl in Hd. simplify_eq. exists [], (drop (N.to_nat offset') data).
    rewrite app_nil_r. split_and!; [done..|simpl; lia]. }
  cbn [decode_deltas] in Hd. destruct (N.leb_spec (N.of_nat (length data)) offset).
  { by destruct (checked_add offset 1). }
  destruct (read_varint (drop (N.to_nat offset) data)) as [[e c]|] eqn:Hr; [|done].
  apply read_varint_inv in Hr as (He & -> & rest & Hdrop); [|apply Forall_drop, Hsl].
  pose proof (f_equal length Hdrop) as Hl. rewrite length_drop, length_app in Hl.
  destruct Hsl as [Hb Hs]. rewrite checked_add_ok in Hd by (unfold u64_max; lia).
  rewrite Hlast in Hd. cbn [default] in Hd.
  apply (IH _ (wrapping_add prev (zigzag_decode e))) in Hd as (ws & rest' & -> & <- & Hws & Hd & ->);
    [|by rewrite last_snoc|lia].
  rewrite N2Nat.inj_add, Nat2N.id, <-drop_drop, Hdrop, drop_app_length in Hd. subst rest.
  exists (wrapping_add prev (zigzag_decode e) :: ws), rest'. rewrite encode_deltas_cons.
  rewrite wrapping_sub_add, zigzag_encode_decode by (done || by apply zigzag_decode_i64).
  rewrite length_app, <-!app_assoc. split_and!; [done|done| |done|lia].
  constructor; [apply iwrap_i64|done].
Qed.

(** The frame of a list of values. *)
Definition delta_frame (vs : list i64) : bytes :=
  to_le 4 (N.of_nat (length vs)) ++
  match vs with
  | [] => []
  | v :: rest => i64_to_le v ++ encode_deltas [] v rest
  end.

Lemma checked_estimate a b c :
  a ≤ MAX_VALUES → b ≤ 4 → c ≤ 32 → checked_mul a b = Ok (a * b) ∧ checked_add c (a * b) = Ok (c + a * b).
Proof.
  unfold MAX_VALUES, checked_mul, checked_add, u64_max. intros Ha Hb Hc.
  assert (a * b ≤ 2 ^ 23 * 4) by (by apply N.mul_le_mono).
  destruct (N.leb_spec (a * b) (2 ^ 64 - 1)); [|lia].
  destruct (N.leb_spec (c + a * b) (2 ^ 64 - 1)); [done|lia].
Qed.

Lemma delta_encode_ok vs data :
  delta_encode vs = Ok data ↔ N.of_nat (length vs) ≤ MAX_VALUES ∧ data = delta_frame vs.
Proof.
  unfold delta_encode. split.
  - intros H. destruct (encode_value_count _) as [n|] eqn:Hn; [|done].
    apply encode_value_count_inv in Hn as [Hc ->]. split; [done|].
    destruct (checked_estimate (N.of_nat (length vs)) 2 12) as [Hm Ha]; [done..|].
    rewrite Hm, Ha in H. destruct vs as [|v vs]; simplify_eq; [by rewrite <-(app_nil_r (to_le _ _))|].
    rewrite encode_deltas_app. unfold delta_frame. by rewrite app_assoc.
  - intros [Hc ->]. rewrite encode_value_count_ok by done.
    destruct (checked_estimate (N.of_nat (length vs)) 2 12) as [-> ->]; [done..|].
    destruct vs as [|v vs]; [by rewrite <-(app_nil_r (to_le _ _))|].
    rewrite encode_deltas_app. unfold delta_frame. by rewrite app_assoc.
Qed.

Lemma delta_decode_frame vs :
  is_slice (delta_frame vs) → Forall is_i64 vs → N.of_nat (length vs) ≤ MAX_VALUES →
  delta_decode (delta_frame vs) = Ok vs.
Proof.
  intros Hsl Hvs Hc. unfold delta_decode. set (data := delta_frame vs) in *.
  assert (length data = 4 + length (match vs with [] => [] | v :: rest => i64_to_le v ++ encode_deltas [] v rest end))%nat
    as Hlen by (unfold data, delta_frame; by rewrite length_app, length_to_le).
  destruct (N.ltb_spec (N.of_nat (length data)) 4); [lia|].
  unfold data at 1, delta_frame. rewrite count_field by done.
  rewrite (proj2 (validate_value_count_ok _) Hc). destruct vs as [|v vs].
  { change (4 + length [])%nat with 4%nat in Hlen. by rewrite Hlen. }
  rewrite length_app, length_i64_to_le in Hlen.
  destruct (N.eqb_spec (N.of_nat (length (v :: vs))) 0); [simpl in *; lia|].
  destruct (N.ltb_spec (N.of_nat (length data)) 12); [lia|].
  rewrite checked_capacity_ok by done. rewrite Nat2N.id. replace (length (v :: vs) - 1)%nat with (length vs) by (simpl; lia).
  apply Forall_cons_1 in Hvs as [Hv Hvs].
  assert (field 4 8 data = i64_to_le v) as ->.
  { unfold data, delta_frame. apply field_app; [apply length_to_le|apply length_i64_to_le]. }
  rewrite i64_from_to_le by done.
  rewrite (decode_deltas_complete _ _ v _ []); [|done|done|done| |lia].
  - rewrite (proj2 (N.eqb_eq _ _)) by lia. done.
  - unfold data, delta_frame. rewrite app_nil_r, app_assoc.
    apply drop_app_length'. by rewrite length_app, length_to_le, length_i64_to_le.
Qed.

Lemma delta_decode_inv data vs :
  is_slice data → delta_decode data = Ok vs →
  Forall is_i64 vs ∧ N.of_nat (length vs) ≤ MAX_VALUES ∧ data = delta_frame vs.
Proof.
  intros Hsl Hd. unfold delta_decode in Hd.
  destruct (N.ltb_spec (N.of_nat (length data)) 4); [done|].
  destruct (slice_field 0 4 data Hsl ltac:(lia)) as (Hcb & Hcl & Hdata).
  set (c := from_le (field 0 4 data)) in *.
  assert (field 0 4 data = to_le 4 c) as Hc by (unfold c; by rewrite to_le_from_le).
  unfold u32_to_usize in Hd. destruct (c <=? u64_max); [|done].
  destruct (validate_value_count c) as [[]|] eqn:Hval; [|done]. apply validate_value_count_ok in Hval.
  rewrite Hc in Hdata. clearbody c. destruct (N.eqb_spec c 0) as [->|Hc0].
  - destruct (N.eqb_spec (N.of_nat (length data)) 4); [|done]. cbn [negb] in Hd. injection Hd as <-.
    rewrite (drop_ge data), app_nil_r in Hdata by lia. split_and!; [constructor|done|].
    change (delta_frame []) with (to_le 4 0 ++ []). by rewrite app_nil_r.
  - destruct (N.ltb_spec (N.of_nat (length data)) 12); [done|].
    rewrite checked_capacity_ok in Hd by done.
    destruct (slice_field 4 8 data Hsl ltac:(lia)) as (Hvb & Hvl & Hdata').
    destruct (decode_deltas _ _ _ _) as [[vals off]|] eqn:Hdec; [|done].
    apply (decode_deltas_sound _ _ _ (i64_from_le (field 4 8 data))) in Hdec
      as (ws & rest & -> & Hn & Hws & Hdrop & ->); [|done|done|lia].
    destruct (N.eqb_spec (12 + N.of_nat (length (encode_deltas [] (i64_from_le (field 4 8 data)) ws)))
      (N.of_nat (length data))) as [He|]; [|done]. cbn [negb] in Hd. injection Hd as <-.
    pose proof (f_equal length Hdrop) as Hl. rewrite length_drop, length_app in Hl.
    change (N.to_nat 12) with 12%nat in Hl, Hdrop.
    destruct rest; [|simpl in Hl; lia]. rewrite app_nil_r in Hdrop.
    assert (N.of_nat (length (i64_from_le (field 4 8 data) :: ws)) = c) as Hlen by (simpl; lia).
    split_and!; [|by rewrite Hlen|].
    + constructor; [by apply i64_from_le_i64|done].
    + unfold delta_frame. rewrite Hlen, i64_to_from_le by done. rewrite <-Hdrop.
      assert (take 4 data = to_le 4 c) as Ht by exact Hc.
      rewrite <-Ht. exact Hdata'.
Qed.

Lemma encode_deltas_length prev vs : (length (encode_deltas [] prev vs) ≤ 10 * length vs)%nat.
Proof.
  revert prev. induction vs as [|v vs IH]; intros prev; [done|].
  rewrite encode_deltas_cons, length_app. specialize (IH v).
  pose proof (length_varint (zigzag_encode (wrapping_sub v prev))). cbn [length]. lia.
Qed.

Lemma encode_deltas_bytes prev vs : Forall (λ b, b < 256) (encode_deltas [] prev vs).
Proof.
  revert prev. induction vs as [|v vs IH]; intros prev; [constructor|].
  rewrite encode_deltas_cons. apply Forall_app. split; [apply varint_bytes|done].
Qed.

Lemma delta_frame_slice vs : N.of_nat (length vs) ≤ MAX_VALUES → is_slice (delta_frame vs).
Proof.
  intros Hc. unfold MAX_VALUES in Hc. constructor.
  - apply Forall_app. split; [apply to_le_bytes|]. destruct vs; [constructor|].
    apply Forall_app. split; [apply to_le_bytes|apply encode_deltas_bytes].
  - unfold delta_frame. rewrite length_app, length_to_le. destruct vs as [|v vs]; [simpl; lia|].
    rewrite length_app, length_i64_to_le. pose proof (encode_deltas_length v vs). simpl length in Hc. lia.
Qed.

(** Every list of up to 2^23 values encodes to a delta frame that decodes
    to exactly those values, and that frame is the only byte slice the
    decoder maps to them: overlong varints, trailing bytes and miscounted
    frames are all refused. *)
Theorem delta_roundtrip vs :
  Forall is_i64 vs → N.of_nat (length vs) ≤ MAX_VALUES →
  ∃ data, delta_encode vs = Ok data ∧ is_slice data ∧
    ∀ data', is_slice data' → (delta_decode data' = Ok vs ↔ data' = data).
Proof.
  intros Hvs Hc. exists (delta_frame vs). split_and!.
  - by apply delta_encode_ok.
  - by apply delta_frame_slice.
  - intros data' Hsl. split.
    + intros Hd. by apply delta_decode_inv in Hd as (_ & _ & ->).
    + intros ->. by apply delta_decode_frame.
Qed.

(** ** Reading bit by bit *)

(** [num_bits] calls of [read_bit], most significant bit first. *)
Fixpoint read_bitwise (num_bits : nat) (r : BitReader) (value : N) : BitReader * result CodecError N :=
  match num_bits with
  | O => (r, Ok value)
  | S n => let? (r, b) := read_bit r in read_bitwise n r (2 * value + N.b2n b)
  end.

Lemma read_bitwise_ok r xs bits value :
  reader_ok r (xs ++ bits) →
  read_bitwise (length xs) r value =
  (advance r (N.of_nat (length xs)), Ok (value * 2 ^ N.of_nat (length xs) + msb_value xs)).
Proof.
  revert r value. induction xs as [|x xs IH]; intros r value Hr.
  { simpl. destruct r. unfold advance. simpl. do 2 f_equal; [f_equal; lia|]. unfold msb_value. simpl. f_equal. lia. }
  cbn [read_bitwise length app] in *. rewrite (read_bit_ok _ _ _ Hr).
  rewrite IH by (by eapply (advance_ok _ [x])). f_equal.
  - unfold advance. cbn [br_buf br_bit_pos]. f_equal. lia.
  - change (x :: xs) with ([x] ++ xs). rewrite msb_value_app, Nat2N.inj_succ, N.pow_succ_r'.
    change (msb_value [x]) with (2 * 0 + N.b2n x). f_equal. lia.
Qed.

Lemma read_bitwise_short r bits n value :
  reader_ok r bits → (length bits < n)%nat → ∃ r' e, read_bitwise n r value = (r', Err e).
Proof.
  revert r n value. induction bits as [|b bits IH]; intros r n value Hr Hn; (destruct n as [|n]; [simpl in Hn; lia|]).
  - cbn [read_bitwise]. destruct (read_bit_empty r Hr) as [e ->]. by eexists _, _.
  - cbn [read_bitwise]. rewrite (read_bit_ok _ _ _ Hr). apply IH; [by eapply (advance_ok _ [b])|simpl in Hn; lia].
Qed.

(** [read_bits], which takes whole byte runs, reads what bit-by-bit
    reading reads and stops where it stops; when the buffer is too short for
    the field it fails without moving the reader. *)
Theorem read_bits_bitwise r n :
  br_bit_pos r ≤ 8 * N.of_nat (length (br_buf r)) →
  8 * N.of_nat (length (br_buf r)) + 64 ≤ u64_max → n ≤ 64 →
  match read_bitwise (N.to_nat n) r 0 with
  | (r', Ok v) => read_bits r n = (r', Ok v)
  | (_, Err _) =>
      read_bits r n =
      (r, Err (Truncated (div_ceil8 (br_bit_pos r + n)) (N.of_nat (length (br_buf r)))))
  end.
Proof.
  intros Hpos Hsmall Hn. set (bits := drop (N.to_nat (br_bit_pos r)) (bits_of (br_buf r))).
  assert (reader_ok r bits) as Hr by (constructor; [lia|done|done]).
  destruct (decide (length bits < N.to_nat n)%nat) as [Hlt|Hge].
  - destruct (read_bitwise_short r bits (N.to_nat n) 0 Hr Hlt) as (r' & e & ->).
    by apply (read_bits_short r bits).
  - rewrite <-(take_drop (N.to_nat n) bits) in Hr.
    assert (length (take (N.to_nat n) bits) = N.to_nat n) as Hl by (rewrite length_take; lia).
    pose proof (read_bitwise_ok _ _ _ 0 Hr) as Hb. rewrite Hl, N2Nat.id in Hb. rewrite Hb.
    rewrite N.mul_0_l, N.add_0_l. apply (read_bits_ok _ _ _ _ Hr); lia.
Qed.

(** ** The double-delta codec *)

Lemma try_write_bits_ok w bits v n :
  writer_ok w bits → N.of_nat (length bits + n) ≤ u64_max →
  try_write_bits w v n = Ok (write_bits w v n).
Proof.
  intros Hw Hn. unfold try_write_bits. rewrite (wo_pos _ _ Hw), checked_add_ok by lia. done.
Qed.

Lemma encode_dod_ok w bits dod :
  writer_ok w bits → N.of_nat (length bits + 68) ≤ u64_max →
  ∃ w', encode_dod w dod = Ok w' ∧ writer_ok w' (bits ++ dod_bits dod).
Proof.
  intros Hw Hn. unfold encode_dod, dod_bits.
  assert (∀ p n v m, (n + m ≤ 68)%nat → ∃ w',
    (let? bs := try_write_bits w p n in try_write_bits bs v m) = Ok w' ∧
    writer_ok w' (bits ++ msb_bits n p ++ msb_bits m v)) as Hfield.
  { intros p n v m Hnm. rewrite (try_write_bits_ok _ bits) by (done || lia).
    pose proof (write_bits_ok _ _ p n Hw) as Hw1.
    rewrite (try_write_bits_ok _ _ _ _ Hw1) by (rewrite length_app, length_msb_bits; lia).
    eexists. split; [done|]. rewrite app_assoc. by apply write_bits_ok. }
  destruct (dod =? 0)%Z.
  { unfold try_write_bit. rewrite (wo_pos _ _ Hw), checked_add_ok by lia.
    eexists. split; [done|]. by apply write_bit_ok. }
  destruct (_ && _)%Z; [by apply (Hfield 2 2%nat); lia|].
  destruct (_ && _)%Z; [by apply (Hfield 6 3%nat); lia|].
  destruct (_ && _)%Z; [by apply (Hfield 14 4%nat); lia|by apply (Hfield 15 4%nat); lia].
Qed.

(** The bits of a run of values, after [prev] with delta [prev_delta]. *)
Fixpoint dods_bits (prev prev_delta : i64) (vs : list i64) : list bool :=
  match vs with
  | [] => []
  | v :: vs =>
      let delta := wrapping_sub v prev in
      dod_bits (wrapping_sub delta prev_delta) ++ dods_bits v delta vs
  end.

Lemma length_dods_bits prev pd vs : (length (dods_bits prev pd vs) ≤ 68 * length vs)%nat.
Proof.
  revert prev pd. induction vs as [|v vs IH]; intros prev pd; [done|].
  cbn [dods_bits length]. rewrite length_app. specialize (IH v (wrapping_sub v prev)).
  pose proof (length_dod_bits (wrapping_sub (wrapping_sub v prev) pd)). lia.
Qed.

Lemma encode_dods_ok w bits prev pd vs :
  writer_ok w bits → N.of_nat (length bits + 68 * length vs) ≤ u64_max →
  ∃ w', encode_dods w prev pd vs = Ok w' ∧ writer_ok w' (bits ++ dods_bits prev pd vs).
Proof.
  revert w bits prev pd. induction vs as [|v vs IH]; intros w bits prev pd Hw Hn.
  { exists w. by rewrite app_nil_r. }
  cbn [encode_dods dods_bits length] in *.
  destruct (encode_dod_ok w bits (wrapping_sub (wrapping_sub v prev) pd)) as (w1 & -> & Hw1); [done|lia|].
  pose proof (length_dod_bits (wrapping_sub (wrapping_sub v prev) pd)).
  destruct (IH _ _ v (wrapping_sub v prev) Hw1) as (w2 & -> & Hw2); [rewrite length_app; lia|].
  exists w2. by rewrite app_assoc.
Qed.

Lemma decode_dods_ok r values prev pd vs tail :
  reader_ok r (dods_bits prev pd vs ++ tail) → last values = Some prev → Forall is_i64 vs →
  decode_dods (length vs) r values pd =
  Ok (values ++ vs, advance r (N.of_nat (length (dods_bits prev pd vs)))).
Proof.
  revert r values prev pd. induction vs as [|v vs IH]; intros r values prev pd Hr Hlast Hvs.
  { rewrite app_nil_r. unfold advance. simpl. rewrite N.add_0_r. by destruct r. }
  apply Forall_cons_1 in Hvs as [Hv Hvs]. cbn [decode_dods dods_bits length] in *.
  rewrite <-app_assoc in Hr. apply decode_dod_ok in Hr as [-> Hr]; [|apply iwrap_i64].
  rewrite (wrapping_add_sub pd) by apply iwrap_i64. rewrite Hlast. cbn [default].
  rewrite wrapping_add_sub by done. rewrite (IH _ _ v); [|done|by rewrite last_snoc|done].
  rewrite <-app_assoc, advance_advance, length_app. do 3 f_equal. lia.
Qed.

Lemma check_padding_ok r bits pad :
  bits_of (br_buf r) = bits ++ replicate pad false → (pad < 8)%nat →
  br_bit_pos r = N.of_nat (length bits) → check_padding r = Ok ().
Proof.
  intros Hbits Hpad Hpos. pose proof (f_equal length Hbits) as Hl.
  rewrite length_bits_of, length_app, length_replicate in Hl. set (p := length bits) in *.
  assert (Hused : div_ceil8 (br_bit_pos r) = N.of_nat (length (br_buf r))).
  { unfold div_ceil8. symmetry. apply (N.div_unique _ _ _ (7 - N.of_nat pad)); lia. }
  unfold check_padding. rewrite Hused, N.eqb_refl, Hpos, of_nat_mod8. cbn [negb].
  destruct (N.eqb_spec (N.of_nat (p mod 8)) 0) as [|Hm]; [done|]. cbn [negb].
  pose proof (Nat.div_mod p 8 ltac:(done)). pose proof (Nat.mod_upper_bound p 8 ltac:(done)).
  destruct (lookup_lt_is_Some_2 (br_buf r) (p / 8)) as [byte Hbyte]; [lia|].
  replace (N.to_nat (N.of_nat (length (br_buf r)) - 1)) with (p / 8)%nat by lia.
  rewrite Hbyte, ones_shiftl, N.land_ones. cbn [default from_option id].
  pose proof (run_bits _ p pad byte Hbyte ltac:(lia)) as Hrun.
  replace (8 - p mod 8 - pad)%nat with 0%nat in Hrun by lia. rewrite N.shiftr_0_r, Hbits in Hrun.
  rewrite drop_app_length', take_ge in Hrun by (done || rewrite length_replicate; lia).
  replace (8 - N.of_nat (p mod 8)) with (N.of_nat pad) by lia. rewrite <-msb_value_bits, Hrun.
  assert (∀ n, msb_value (replicate n false) = 0) as ->; [|done].
  intros n. induction n as [|n IHn]; [done|]. rewrite replicate_S_end, msb_value_snoc, IHn. done.
Qed.

Lemma writer_bytes w bits : writer_ok w bits → Forall (λ b, b < 256) (as_bytes w).
Proof. by intros [Hb _ _ _]. Qed.

Lemma writer_length w bits : writer_ok w bits → (8 * length (as_bytes w) ≤ length bits + 7)%nat.
Proof. intros [_ _ Hl _]. unfold as_bytes. rewrite Hl. pose proof (div_ceil8_spec (length bits)). lia. Qed.

(** The frame of a list of values; [bs] holds the bits after the second. *)
Definition double_delta_frame (vs : list i64) (bs : bytes) : bytes :=
  to_le 4 (N.of_nat (length vs)) ++
  match vs with
  | [] => []
  | [v0] => i64_to_le v0
  | v0 :: v1 :: _ => i64_to_le v0 ++ i64_to_le (wrapping_sub v1 v0) ++ bs
  end.

Lemma double_delta_encode_ok vs :
  N.of_nat (length vs) ≤ MAX_VALUES →
  ∃ bs, double_delta_encode vs = Ok (double_delta_frame vs bs) ∧
    match vs with
    | v0 :: v1 :: ws =>
        (ws = [] ∧ bs = []) ∨
        (ws ≠ [] ∧ ∃ w, bs = as_bytes w ∧ writer_ok w (dods_bits v1 (wrapping_sub v1 v0) ws))
    | _ => bs = []
    end.
Proof.
  intros Hc. unfold double_delta_encode. rewrite encode_value_count_ok by done.
  assert (N.of_nat (length vs) / 4 ≤ N.of_nat (length vs)) by (apply N.Div0.div_le_upper_bound; lia).
  unfold MAX_VALUES in Hc. rewrite checked_add_ok by (unfold u64_max; lia). unfold double_delta_frame.
  destruct vs as [|v0 [|v1 [|v2 ws]]].
  - exists []. by rewrite app_nil_r.
  - by exists [].
  - exists []. rewrite app_nil_r, <-app_assoc. eauto.
  - destruct (encode_dods_ok bit_writer_new [] v1 (wrapping_sub v1 v0) (v2 :: ws)) as (w & -> & Hw).
    { apply writer_new_ok. }
    { simpl length in *. unfold u64_max. lia. }
    exists (as_bytes w). rewrite <-!app_assoc. split; [done|]. right. split; [done|]. by exists w.
Qed.

Lemma double_delta_decode_head vs bs :
  N.of_nat (length vs) ≤ MAX_VALUES →
  let data := double_delta_frame vs bs in
  let count := N.of_nat (length vs) in
  (N.of_nat (length data) <? 4) = false ∧
  u32_to_usize (from_le (field 0 4 data)) = Ok count ∧ validate_value_count count = Ok () ∧
  checked_capacity count 8 = Ok count.
Proof.
  intros Hc data count. split_and!.
  - apply N.ltb_ge. unfold data, double_delta_frame. rewrite length_app, length_to_le. lia.
  - unfold data, double_delta_frame. by apply count_field.
  - by apply validate_value_count_ok.
  - by apply checked_capacity_ok.
Qed.

Lemma double_delta_decode_bits v0 v1 ws w :
  Forall is_i64 ws → N.of_nat (length ws) ≤ MAX_VALUES →
  writer_ok w (dods_bits v1 (wrapping_sub v1 v0) ws) →
  ∃ r, decode_dods (length ws) (bit_reader_new (as_bytes w)) [v0; v1] (wrapping_sub v1 v0) =
    Ok (v0 :: v1 :: ws, r) ∧ check_padding r = Ok ().
Proof.
  intros Hws Hc Hw. destruct (writer_bits _ _ Hw) as (pad & Hpad & Hbits).
  pose proof (writer_length _ _ Hw). pose proof (length_dods_bits v1 (wrapping_sub v1 v0) ws).
  assert (reader_ok (bit_reader_new (as_bytes w)) (bits_of (as_bytes w))) as Hr.
  { apply reader_new_ok. unfold MAX_VALUES in Hc. unfold u64_max. lia. }
  rewrite Hbits in Hr. rewrite (decode_dods_ok _ _ _ _ _ _ Hr) by done.
  eexists. split; [done|]. by apply (check_padding_ok _ (dods_bits v1 (wrapping_sub v1 v0) ws) pad).
Qed.

Lemma double_delta_decode_frame vs bs :
  Forall is_i64 vs → N.of_nat (length vs) ≤ MAX_VALUES →
  match vs with
  | v0 :: v1 :: ws =>
      (ws = [] ∧ bs = []) ∨
      (ws ≠ [] ∧ ∃ w, bs = as_bytes w ∧ writer_ok w (dods_bits v1 (wrapping_sub v1 v0) ws))
  | _ => bs = []
  end →
  double_delta_decode (double_delta_frame vs bs) = Ok vs.
Proof.
  intros Hvs Hc Hbs. pose proof (double_delta_decode_head vs bs Hc) as Hhead. cbv zeta in Hhead.
  destruct Hhead as (H4 & Hcount & Hval & Hcap).
  unfold double_delta_decode. rewrite H4, Hcount, Hval, Hcap. clear H4 Hcount Hval Hcap.
  destruct vs as [|v0 [|v1 ws]]; [by subst bs|..].
  { subst bs. apply Forall_cons_1 in Hvs as [Hv0 _]. unfold double_delta_frame.
    rewrite length_app, length_to_le, length_i64_to_le. cbn [N.of_nat Nat.add N.ltb N.eqb negb length].
    rewrite <-(app_nil_r (i64_to_le v0)).
    rewrite field_app by apply length_to_le || apply length_i64_to_le. by rewrite i64_from_to_le. }
  apply Forall_cons_1 in Hvs as [Hv0 Hvs]. apply Forall_cons_1 in Hvs as [Hv1 Hws].
  set (data := double_delta_frame _ _).
  assert (length data = 20 + length bs)%nat as Hlen.
  { unfold data, double_delta_frame. rewrite !length_app, length_to_le, !length_i64_to_le. lia. }
  assert (field 4 8 data = i64_to_le v0) as ->.
  { apply field_app; [apply length_to_le|apply length_i64_to_le]. }
  assert (field 12 8 data = i64_to_le (wrapping_sub v1 v0)) as ->.
  { unfold data, double_delta_frame. rewrite app_assoc.
    apply field_app; [by rewrite length_app, length_to_le, length_i64_to_le|apply length_i64_to_le]. }
  assert (drop 20 data = bs) as ->.
  { unfold data, double_delta_frame. rewrite !app_assoc. apply drop_app_length'.
    by rewrite !length_app, length_to_le, !length_i64_to_le. }
  rewrite !i64_from_to_le, wrapping_add_sub by (done || apply iwrap_i64). rewrite Hlen. clearbody data.
  cbn [length] in *.
  rewrite (proj2 (N.eqb_neq (N.of_nat (S (S (length ws)))) 0)) by lia.
  rewrite (proj2 (N.eqb_neq (N.of_nat (S (S (length ws)))) 1)) by lia.
  rewrite (proj2 (N.ltb_ge (N.of_nat (20 + length bs)) 12)) by lia.
  rewrite (proj2 (N.ltb_ge (N.of_nat (20 + length bs)) 20)) by lia.
  destruct Hbs as [[-> ->]|[Hne (w & -> & Hw)]]; [done|].
  rewrite (proj2 (N.eqb_neq (N.of_nat (S (S (length ws)))) 2)) by (destruct ws; simpl; [done|lia]).
  replace (N.to_nat (N.of_nat (S (S (length ws)))) - 2)%nat with (length ws) by lia.
  destruct (double_delta_decode_bits v0 v1 ws w) as (r & -> & ->); [done|lia|done|done].
Qed.

(** Every list of up to 2^23 values encodes to a double-delta frame, and
    that frame decodes to exactly those values. *)
Theorem double_delta_roundtrip vs :
  Forall is_i64 vs → N.of_nat (length vs) ≤ MAX_VALUES →
  ∃ data, double_delta_encode vs = Ok data ∧ double_delta_decode data = Ok vs.
Proof.
  intros Hvs Hc. destruct (double_delta_encode_ok vs Hc) as (bs & He & Hbs).
  exists (double_delta_frame vs bs). split; [done|]. by apply double_delta_decode_frame.
Qed.

(** ** Streaming *)

Lemma stream_push_ok enc v :
  N.of_nat (length (se_values enc)) < MAX_VALUES →
  stream_push enc v = ({| se_values := se_values enc ++ [v] |}, Ok ()).
Proof.
  intros Hl. unfold stream_push. rewrite checked_add_ok by (unfold MAX_VALUES, u64_max in *; lia).
  by rewrite (proj2 (validate_value_count_ok _)) by lia.
Qed.

(** A push past the frame limit is refused and changes nothing. *)
Lemma stream_push_full enc v :
  MAX_VALUES ≤ N.of_nat (length (se_values enc)) → ∃ e, stream_push enc v = (enc, Err e).
Proof.
  intros Hl. unfold stream_push. destruct (checked_add _ 1) as [next|e] eqn:Hn; [|by exists e].
  assert (next = N.of_nat (length (se_values enc)) + 1) as ->.
  { revert Hn. unfold checked_add. by destruct (_ <=? _); intros [= <-]. }
  destruct (validate_value_count _) as [[]|e] eqn:Hv; [|by exists e].
  apply validate_value_count_ok in Hv. lia.
Qed.

(** Calls [next_value] until it returns [None]. *)
Fixpoint stream_drain (fuel : nat) (d : StreamDecoder) : list i64 :=
  match fuel with
  | O => []
  | S fuel => match next_value d with (d, Some v) => v :: stream_drain fuel d | (_, None) => [] end
  end.

Lemma stream_drain_ok fuel vs pos :
  (length vs - pos < fuel)%nat → stream_drain fuel {| sd_values := vs; sd_pos := N.of_nat pos |} = drop pos vs.
Proof.
  revert pos. induction fuel as [|fuel IH]; intros pos Hf; [lia|].
  cbn [stream_drain]. unfold next_value. cbn [sd_values sd_pos]. rewrite Nat2N.id.
  destruct (vs !! pos) as [v|] eqn:Hv.
  - rewrite (drop_S vs v pos Hv). replace (N.of_nat pos + 1) with (N.of_nat (S pos)) by lia.
    apply lookup_lt_Some in Hv. by rewrite IH by lia.
  - apply lookup_ge_None in Hv. by rewrite drop_ge.
Qed.

Lemma stream_push_all vs enc :
  N.of_nat (length (se_values enc) + length vs) ≤ MAX_VALUES →
  foldl (λ e v, (stream_push e v).1) enc vs = {| se_values := se_values enc ++ vs |}.
Proof.
  revert enc. induction vs as [|v vs IH]; intros enc Hl; cbn [foldl length] in *.
  { rewrite app_nil_r. by destruct enc. }
  rewrite stream_push_ok by lia. rewrite IH; cbn [se_values fst]; [by rewrite <-app_assoc|].
  rewrite length_app. cbn [length]. lia.
Qed.

(** Values pushed one by one come out of the streaming decoder in order. *)
Lemma delta_stream_roundtrip vs :
  Forall is_i64 vs → N.of_nat (length vs) ≤ MAX_VALUES →
  ∃ data d, delta_finish (foldl (λ e v, (stream_push e v).1) stream_encoder_new vs) = Ok data ∧
    delta_decoder_new data = Ok d ∧ stream_drain (S (length vs)) d = vs.
Proof.
  intros Hvs Hc. rewrite stream_push_all by done. unfold delta_finish. cbn [se_values app stream_encoder_new].
  exists (delta_frame vs). rewrite (proj2 (delta_encode_ok vs _)) by done.
  unfold delta_decoder_new. rewrite delta_decode_frame by (done || by apply delta_frame_slice).
  eexists. split_and!; [done|done|]. apply (stream_drain_ok _ _ 0). lia.
Qed.
