(* ===== verification/GorillaFacts.v ===== *)
(** * GorillaFacts: the Gorilla codec decodes what it encodes

    The decoder follows the encoder sample by sample: after each one the two
    agree on the previous timestamp, delta and value and on the window. On
    arbitrary bytes the decoder keeps its window inside 64 bits, stops, and
    returns no more samples than the header announces. *)

From Stdlib Require Import Lia ZArith.
From stdpp Require Import base option list.
From S2P Require Import Prelude Codec Gorilla CodecBits CodecFacts.

(** ** Leading and trailing zeros *)

Lemma trailing_zeros_spec x : x ≠ 0 → N.shiftl (N.shiftr x (trailing_zeros x)) (trailing_zeros x) = x ∧
  N.shiftr x (trailing_zeros x) ≠ 0.
Proof.
  destruct x as [|p]; [done|]. intros _. cbn [trailing_zeros].
  induction p as [p IH|p IH|]; [by rewrite N.shiftr_0_r, N.shiftl_0_r| |done].
  cbn [pos_trailing_zeros]. destruct IH as [IH1 IH2].
  assert (N.shiftr (N.pos p~0) (N.succ (pos_trailing_zeros p)) = N.shiftr (N.pos p) (pos_trailing_zeros p)) as ->.
  { rewrite <-N.add_1_l, <-N.shiftr_shiftr. done. }
  split; [|done]. rewrite <-N.add_1_r, <-N.shiftl_shiftl, IH1. done.
Qed.

(** The bits of a nonzero word between its leading and trailing zeros. *)
Lemma window_spec x :
  x ≠ 0 → x < 2 ^ 64 →
  leading_zeros x + trailing_zeros x < 64 ∧
  ∀ l t, l ≤ leading_zeros x → t ≤ trailing_zeros x →
    N.shiftr x t < 2 ^ (64 - l - t) ∧ wrap64 (N.shiftl (N.shiftr x t) t) = x.
Proof.
  intros Hx0 Hx. destruct (trailing_zeros_spec x Hx0) as [Hsh Hnz].
  destruct (leading_zeros_spec x Hx) as [Hl Hlt].
  assert (leading_zeros x + trailing_zeros x < 64) as Hsum.
  { rewrite N.shiftl_mul_pow2 in Hsh. assert (2 ^ trailing_zeros x ≤ x) by nia.
    assert (2 ^ trailing_zeros x < 2 ^ (64 - leading_zeros x)) as Hp%N.pow_lt_mono_r_iff by lia; lia. }
  split; [done|]. intros l t Hl' Ht'. split.
  - rewrite N.shiftr_div_pow2. apply N.Div0.div_lt_upper_bound. rewrite <-N.pow_add_r.
    eapply N.lt_le_trans; [exact Hlt|]. apply N.pow_le_mono_r; lia.
  - assert (N.shiftl (N.shiftr x t) t = x) as Heq; [|rewrite Heq; unfold wrap64; by apply N.mod_small].
    rewrite <-Hsh. replace (trailing_zeros x) with ((trailing_zeros x - t) + t) by lia.
    rewrite <-N.shiftl_shiftl, N.shiftr_shiftl_l, N.sub_diag, N.shiftl_0_r by lia. done.
Qed.

(** ** Reading through the decoder *)

Definition skip (d : GorillaDecoder) (n : N) : GorillaDecoder :=
  d {{ gd_reader := advance (gd_reader d) n }}.

Lemma skip_skip d n m : skip (skip d n) m = skip d (n + m).
Proof. unfold skip. simpl. by rewrite advance_advance. Qed.

Lemma decode_timestamp_dod_eq d : decode_timestamp_dod d = on_reader decode_dod d.
Proof.
  unfold decode_timestamp_dod, next_bit, next_bits, on_reader, decode_dod. destruct d. simpl.
  repeat (match goal with
  | |- context [read_bit ?r] => destruct (read_bit r) as [? [[]|]]; simpl; try done
  | |- context [read_bits ?r ?n] => destruct (read_bits r n) as [? [?|]]; simpl; try done
  end).
Qed.

Lemma next_bit_ok d b bits :
  reader_ok (gd_reader d) (b :: bits) →
  next_bit d = (skip d 1, Ok b) ∧ reader_ok (gd_reader (skip d 1)) bits.
Proof.
  intros Hr. destruct (read_bit_cons _ _ _ Hr) as [Hread Hr']. split; [|done].
  unfold next_bit, on_reader. by rewrite Hread.
Qed.

Lemma next_bits_ok d num n v bits :
  reader_ok (gd_reader d) (msb_bits n v ++ bits) → num = N.of_nat n → (n ≤ 64)%nat → v < 2 ^ N.of_nat n →
  next_bits num d = (skip d num, Ok v) ∧ reader_ok (gd_reader (skip d num)) bits.
Proof.
  intros Hr Hnum Hn Hv. destruct (read_field _ num _ _ _ Hr Hnum Hn Hv) as [Hread Hr']. split; [|done].
  unfold next_bits, on_reader. by rewrite Hread.
Qed.

(** ** One sample *)

(** The bits of a value's xor, given the encoder's window. *)
Definition xor_bits (e : GorillaEncoder) (xor : u64) : list bool :=
  if xor =? 0 then [false]
  else
    let lead := leading_zeros xor in
    let trail := trailing_zeros xor in
    if negb (ge_prev_leading e =? u8_max) && (ge_prev_leading e <=? lead) && (ge_prev_trailing e <=? trail)
    then [true; false] ++
      msb_bits (N.to_nat (64 - ge_prev_leading e - ge_prev_trailing e)) (N.shiftr xor (ge_prev_trailing e))
    else [true; true] ++ msb_bits 6 lead ++ msb_bits 6 (64 - lead - trail - 1) ++
      msb_bits (N.to_nat (64 - lead - trail)) (N.shiftr xor trail).

Lemma length_xor_bits e xor : (length (xor_bits e xor) ≤ 78)%nat.
Proof. unfold xor_bits. repeat case_match; rewrite ?length_app, ?length_msb_bits; simpl; lia. Qed.

Lemma encode_value_xor_ok e bits xor :
  writer_ok (ge_buf e) bits → writer_ok (ge_buf (encode_value_xor e xor)) (bits ++ xor_bits e xor).
Proof.
  intros Hw. unfold encode_value_xor, xor_bits. destruct (xor =? 0); [by apply write_bit_ok|].
  destruct (negb _ && _ && _); cbn [ge_buf upd app].
  - change (true :: false :: ?l) with ([true] ++ [false] ++ l). rewrite !app_assoc.
    by apply write_bits_ok, write_bit_ok, write_bit_ok.
  - change (true :: true :: ?l) with ([true] ++ [true] ++ l). rewrite !app_assoc.
    by apply write_bits_ok, write_bits_ok, write_bits_ok, write_bit_ok, write_bit_ok.
Qed.

Lemma encode_timestamp_dod_ok e bits dod :
  writer_ok (ge_buf e) bits → writer_ok (ge_buf (encode_timestamp_dod e dod)) (bits ++ dod_bits dod).
Proof.
  intros Hw. unfold encode_timestamp_dod, dod_bits. cbn [ge_buf].
  assert (∀ p n pre v m, msb_bits n p = pre →
    writer_ok (write_bits (write_bits (ge_buf e) p n) v m) (bits ++ pre ++ msb_bits m v)) as Hfield.
  { intros p n pre v m <-. rewrite app_assoc. by apply write_bits_ok, write_bits_ok. }
  destruct (dod =? 0)%Z; [by apply write_bit_ok|].
  destruct (_ && _)%Z; [by apply Hfield|]. destruct (_ && _)%Z; [by apply Hfield|].
  destruct (_ && _)%Z; by apply Hfield.
Qed.

Lemma decode_timestamp_ok d ts bits :
  let delta := wrapping_sub ts (gd_prev_ts d) in
  let dod := wrapping_sub delta (gd_prev_delta d) in
  is_i64 ts → reader_ok (gd_reader d) (dod_bits dod ++ bits) →
  let d' := skip d (N.of_nat (length (dod_bits dod))) in
  decode_timestamp d = (d' {{ gd_prev_ts := ts; gd_prev_delta := delta }}, Ok ts) ∧
  reader_ok (gd_reader d') bits.
Proof.
  intros delta dod Hts Hr d'. apply decode_dod_ok in Hr as [Hdec Hr]; [|apply iwrap_i64]. split; [|done].
  unfold decode_timestamp. rewrite decode_timestamp_dod_eq. unfold on_reader. rewrite Hdec.
  cbn [gd_prev_delta gd_prev_ts]. unfold dod.
  rewrite (wrapping_add_sub (gd_prev_delta d)) by apply iwrap_i64. unfold delta.
  by rewrite wrapping_add_sub.
Qed.

(** The window of the encoder, when it has one, is the decoder's. *)
Definition same_window (e : GorillaEncoder) (d : GorillaDecoder) : Prop :=
  ge_prev_leading e = u8_max ∨
  (gd_prev_leading d = ge_prev_leading e ∧ gd_prev_trailing d = ge_prev_trailing e ∧
   ge_prev_leading e + ge_prev_trailing e < 64).

Lemma lxor_lt n a b : a < 2 ^ n → b < 2 ^ n → N.lxor a b < 2 ^ n.
Proof.
  intros Ha Hb. rewrite <-(N.mod_small a (2 ^ n)), <-(N.mod_small b (2 ^ n)) by done.
  rewrite <-!N.land_ones, !(N.land_comm _ (N.ones n)).
  assert (N.lxor (N.land (N.ones n) a) (N.land (N.ones n) b) = N.land (N.lxor a b) (N.ones n)) as ->.
  { apply N.bits_inj. intros i. rewrite N.lxor_spec, !N.land_spec, N.lxor_spec.
    by destruct (N.testbit a i), (N.testbit b i), (N.testbit (N.ones n) i). }
  rewrite N.land_ones. apply N.mod_lt. by apply N.pow_nonzero.
Qed.

Lemma decode_value_xor_ok e d xor bits :
  same_window e d → xor ≠ 0 → xor < 2 ^ 64 →
  reader_ok (gd_reader d) (drop 1 (xor_bits e xor) ++ bits) →
  ∃ n l t, decode_value_xor d =
      ((skip d n) {{ gd_prev_leading := l; gd_prev_trailing := t }}, Ok xor) ∧
    reader_ok (gd_reader (skip d n)) bits ∧
    same_window (encode_value_xor e xor) ((skip d n) {{ gd_prev_leading := l; gd_prev_trailing := t }}).
Proof.
  intros Hwin Hx0 Hx Hr. destruct (window_spec xor Hx0 Hx) as [Hlt Hw].
  unfold xor_bits in Hr. unfold encode_value_xor, decode_value_xor.
  rewrite (proj2 (N.eqb_neq _ _) Hx0) in Hr |- *. cbv zeta in Hr.
  destruct (negb _ && _ && _) eqn:Hfit; cbn [app drop skipn] in Hr.
  - bool_to_prop. destruct Hwin as [|(Hl & Ht & Hlt')]; [done|].
    destruct (Hw (ge_prev_leading e) (ge_prev_trailing e)) as [Hbits Hval]; [done..|].
    apply next_bit_ok in Hr as [-> Hr]. cbn [negb].
    change (gd_prev_leading (skip d 1)) with (gd_prev_leading d).
    change (gd_prev_trailing (skip d 1)) with (gd_prev_trailing d). rewrite Hl, Ht.
    eapply (next_bits_ok _ (64 - ge_prev_leading e - ge_prev_trailing e)) in Hr as [-> Hr]; [|lia|lia|].
    2: { by rewrite N2Nat.id. }
    rewrite !skip_skip in *.
    change (gd_prev_trailing (skip d ?n)) with (gd_prev_trailing d). rewrite Ht, Hval.
    eexists _, (gd_prev_leading d), (gd_prev_trailing d). split; [|split; [exact Hr|]].
    + unfold skip. by destruct d.
    + right. cbn. split_and!; done.
  - destruct (Hw (leading_zeros xor) (trailing_zeros xor)) as [Hbits Hval]; [lia..|].
    apply next_bit_ok in Hr as [-> Hr]. cbn [negb]. rewrite <-!app_assoc in Hr.
    apply (next_bits_ok _ 6) in Hr as [-> Hr]; [|done|lia|simpl; lia].
    apply (next_bits_ok _ 6) in Hr as [-> Hr]; [|done|lia|simpl; lia].
    set (m := 64 - leading_zeros xor - trailing_zeros xor) in *.
    replace (m - 1 + 1) with m by lia.
    destruct (N.ltb_spec 64 (leading_zeros xor + m)); [lia|].
    eapply (next_bits_ok _ m) in Hr as [-> Hr]; [|lia|lia|by rewrite N2Nat.id].
    rewrite !skip_skip in *.
    replace (64 - (leading_zeros xor + m)) with (trailing_zeros xor) by lia. rewrite Hval.
    eexists _, _, _. split; [done|split; [exact Hr|]]. right. by cbn.
Qed.

Lemma decode_value_ok e d v bits :
  same_window e d → gd_prev_value d < 2 ^ 64 → v < 2 ^ 64 →
  let xor := N.lxor (gd_prev_value d) v in
  reader_ok (gd_reader d) (xor_bits e xor ++ bits) →
  ∃ d', decode_value d = (d', Ok v) ∧ reader_ok (gd_reader d') bits ∧
    same_window (encode_value_xor e xor) d' ∧ gd_prev_value d' = v ∧
    gd_prev_ts d' = gd_prev_ts d ∧ gd_prev_delta d' = gd_prev_delta d ∧
    gd_count d' = gd_count d ∧ gd_total d' = gd_total d ∧ gd_first d' = gd_first d.
Proof.
  intros Hwin Hpv Hv xor Hr. unfold decode_value.
  assert (Hxv : N.lxor (gd_prev_value d) xor = v).
  { unfold xor. by rewrite <-N.lxor_assoc, N.lxor_nilpotent, N.lxor_0_l. }
  destruct (decide (xor = 0)) as [Hx|Hx].
  - rewrite Hx in Hr, Hxv. rewrite N.lxor_0_r in Hxv. cbn [xor_bits N.eqb app] in Hr.
    apply next_bit_ok in Hr as [-> Hr]. exists (skip d 1).
    cbn [negb]. rewrite <-Hxv. split_and!; [done|exact Hr| |done..]. rewrite Hx. exact Hwin.
  - assert (xor < 2 ^ 64) by by apply lxor_lt.
    assert (∃ b bs, xor_bits e xor = b :: bs ∧ b = true) as (b & bs & Hbs & ->).
    { unfold xor_bits. rewrite (proj2 (N.eqb_neq _ _) Hx). destruct (_ && _ && _); by eexists _, _. }
    rewrite Hbs in Hr. apply next_bit_ok in Hr as [-> Hr]. cbn [negb].
    destruct (decode_value_xor_ok e (skip d 1) xor bits) as (n & l & t & -> & Hr' & Hwin'); [done..|by rewrite Hbs|].
    match goal with |- context [N.lxor ?a xor] => change a with (gd_prev_value d) end.
    rewrite Hxv. eexists. split; [done|]. split_and!; [exact Hr'|exact Hwin'|done..].
Qed.

(** ** A run of samples *)

(** A sample the codec is given: an [i64] and a 64-bit pattern. *)
Definition sample_ok (s : i64 * u64) : Prop := is_i64 s.1 ∧ s.2 < 2 ^ 64.

(** The decoder [d] has decoded exactly what the encoder [e] has encoded. *)
Record synced (e : GorillaEncoder) (d : GorillaDecoder) : Prop := {
  sy_ts : gd_prev_ts d = ge_prev_ts e;
  sy_delta : gd_prev_delta d = ge_prev_delta e;
  sy_value : gd_prev_value d = ge_prev_value e;
  sy_value_lt : ge_prev_value e < 2 ^ 64;
  sy_window : same_window e d;
  sy_first : gd_first d = (ge_count e =? 0);
  sy_count : gd_count d = ge_count e;
  sy_start : ge_count e = 0 → ge_prev_leading e = u8_max ∧ ge_prev_delta e = 0%Z ∧ gd_prev_delta d = 0%Z;
}.

(** The bits [gorilla_encode] writes for a sample. *)
Definition sample_bits (e : GorillaEncoder) (s : i64 * u64) : list bool :=
  if ge_count e =? 0 then msb_bits 64 (to_u64 s.1) ++ msb_bits 64 s.2
  else
    dod_bits (wrapping_sub (wrapping_sub s.1 (ge_prev_ts e)) (ge_prev_delta e)) ++
    xor_bits e (N.lxor (ge_prev_value e) s.2).

Lemma length_sample_bits e s : (length (sample_bits e s) ≤ 146)%nat.
Proof.
  unfold sample_bits. destruct (_ =? _); rewrite length_app, ?length_msb_bits; [lia|].
  pose proof (length_xor_bits e (N.lxor (ge_prev_value e) s.2)).
  pose proof (length_dod_bits (wrapping_sub (wrapping_sub s.1 (ge_prev_ts e)) (ge_prev_delta e))). lia.
Qed.

Lemma encode_value_xor_fields e xor :
  ge_prev_ts (encode_value_xor e xor) = ge_prev_ts e ∧
  ge_prev_delta (encode_value_xor e xor) = ge_prev_delta e ∧
  ge_count (encode_value_xor e xor) = ge_count e.
Proof. unfold encode_value_xor. destruct (xor =? 0); [done|]. by destruct (_ && _ && _). Qed.

(** The encoder between a sample's timestamp and its value. *)
Definition after_ts (e : GorillaEncoder) (ts : i64) : GorillaEncoder :=
  let delta := wrapping_sub ts (ge_prev_ts e) in
  (encode_timestamp_dod e (wrapping_sub delta (ge_prev_delta e)))
    {{ ge_prev_ts := ts; ge_prev_delta := delta }}.

Lemma gorilla_encode_next e ts v :
  ge_count e ≠ 0 →
  gorilla_encode e ts v =
  (encode_value_xor (after_ts e ts) (N.lxor (ge_prev_value e) v))
    {{ ge_prev_value := v; ge_count := ge_count e + 1 }}.
Proof.
  intros Hc. unfold gorilla_encode. rewrite (proj2 (N.eqb_neq _ _) Hc). fold (after_ts e ts).
  change (ge_prev_value (after_ts e ts)) with (ge_prev_value e).
  destruct (encode_value_xor_fields (after_ts e ts) (N.lxor (ge_prev_value e) v)) as (_ & _ & ->). done.
Qed.

Lemma gorilla_encode_ok e bits s :
  writer_ok (ge_buf e) bits →
  writer_ok (ge_buf (gorilla_encode e s.1 s.2)) (bits ++ sample_bits e s).
Proof.
  intros Hw. unfold sample_bits. destruct (N.eqb_spec (ge_count e) 0) as [Hc|Hc].
  - unfold gorilla_encode. rewrite (proj2 (N.eqb_eq _ _) Hc). rewrite app_assoc.
    by apply write_bits_ok, write_bits_ok.
  - rewrite gorilla_encode_next, app_assoc by done. apply (encode_value_xor_ok (after_ts e s.1)).
    by apply encode_timestamp_dod_ok.
Qed.

Lemma next_sample_ok e d s bits :
  synced e d → sample_ok s → gd_count d < gd_total d →
  reader_ok (gd_reader d) (sample_bits e s ++ bits) →
  ∃ d', next_sample d = (d', Some s) ∧ synced (gorilla_encode e s.1 s.2) d' ∧
    reader_ok (gd_reader d') bits ∧ gd_total d' = gd_total d.
Proof.
  intros [Hts Hdelta Hval Hvlt Hwin Hfirst Hcount Hstart] [Hs1 Hs2] Hlt Hr.
  unfold next_sample, sample_bits in *. rewrite (proj2 (N.leb_gt _ _) Hlt), Hfirst.
  destruct (N.eqb_spec (ge_count e) 0) as [Hc0|Hc0].
  - rewrite <-app_assoc in Hr. unfold gorilla_encode. rewrite (proj2 (N.eqb_eq _ _) Hc0).
    change (gd_reader d) with (gd_reader (d {{ gd_first := false }})) in Hr.
    apply (next_bits_ok _ 64) in Hr as [-> Hr]; [|done|lia|apply to_u64_lt].
    apply (next_bits_ok _ 64) in Hr as [-> Hr]; [|done|lia|done].
    rewrite to_i64_to_u64 by done. destruct Hstart as (Hl & He & Hd); [done|].
    destruct s as [ts v]. eexists. split; [done|]. split; [|split; [exact Hr|done]].
    constructor; cbn; [done|by rewrite Hd|done|done|by left|done|done|done].
  - rewrite <-app_assoc, <-Hts, <-Hdelta in Hr. rewrite gorilla_encode_next by done.
    apply decode_timestamp_ok in Hr as [-> Hr]; [|done].
    rewrite <-Hval in Hr, Hvlt |- *. set (d1 := upd _ _ _).
    destruct (decode_value_ok (after_ts e s.1) d1 s.2 bits)
      as (d2 & -> & Hr2 & Hwin2 & Hv2 & Hts2 & Hdelta2 & Hcount2 & Htotal2 & Hfirst2); [done..|].
    destruct (encode_value_xor_fields (after_ts e s.1) (N.lxor (gd_prev_value d) s.2)) as (Hf1 & Hf2 & _).
    destruct s as [ts v]. eexists. split; [done|]. split; [|split; [exact Hr2|exact Htotal2]].
    cbn [fst snd] in *. set (e1 := encode_value_xor _ _) in *. clearbody e1.
    constructor.
    + etrans; [exact Hts2|]. symmetry. exact Hf1.
    + etrans; [exact Hdelta2|]. etrans; [|symmetry; exact Hf2]. cbn. by rewrite Hts.
    + done.
    + done.
    + exact Hwin2.
    + cbn. rewrite Hfirst2. cbn. rewrite Hfirst. by destruct (ge_count e).
    + cbn. rewrite Hcount2. cbn. by rewrite Hcount.
    + intros Hz. cbn in Hz. lia.
Qed.

(** The bits of a run of samples, and the encoder after it. *)
Fixpoint samples_bits (e : GorillaEncoder) (samples : list (i64 * u64)) : list bool :=
  match samples with
  | [] => []
  | s :: rest => sample_bits e s ++ samples_bits (gorilla_encode e s.1 s.2) rest
  end.

Definition encode_run (e : GorillaEncoder) (samples : list (i64 * u64)) : GorillaEncoder :=
  foldl (λ e s, gorilla_encode e s.1 s.2) e samples.

Lemma length_samples_bits e samples : (length (samples_bits e samples) ≤ 146 * length samples)%nat.
Proof.
  revert e. induction samples as [|s samples IH]; intros e; [done|].
  cbn [samples_bits length]. rewrite length_app. specialize (IH (gorilla_encode e s.1 s.2)).
  pose proof (length_sample_bits e s). lia.
Qed.

Lemma encode_run_ok e bits samples :
  writer_ok (ge_buf e) bits →
  writer_ok (ge_buf (encode_run e samples)) (bits ++ samples_bits e samples).
Proof.
  revert e bits. induction samples as [|s samples IH]; intros e bits Hw; [by rewrite app_nil_r|].
  cbn [samples_bits]. rewrite app_assoc. apply (IH (gorilla_encode e s.1 s.2)). by apply gorilla_encode_ok.
Qed.

Lemma gorilla_encode_count e ts v : ge_count (gorilla_encode e ts v) = ge_count e + 1.
Proof.
  destruct (decide (ge_count e = 0)) as [Hc|Hc].
  - unfold gorilla_encode. by rewrite (proj2 (N.eqb_eq _ _) Hc), Hc.
  - by rewrite gorilla_encode_next.
Qed.

Lemma encode_run_count e samples : ge_count (encode_run e samples) = ge_count e + N.of_nat (length samples).
Proof.
  revert e. induction samples as [|s samples IH]; intros e; [simpl; lia|].
  cbn [encode_run foldl length]. fold (encode_run (gorilla_encode e s.1 s.2) samples).
  rewrite IH, gorilla_encode_count. lia.
Qed.

Lemma decode_all_ok fuel e d samples acc bits :
  synced e d → Forall sample_ok samples → (length samples < fuel)%nat →
  gd_total d = gd_count d + N.of_nat (length samples) →
  reader_ok (gd_reader d) (samples_bits e samples ++ bits) →
  ∃ d', decode_all_loop fuel d acc = (d', acc ++ samples) ∧ gd_total d' = gd_total d.
Proof.
  revert fuel e d acc. induction samples as [|s samples IH]; intros fuel e d acc Hsy Hs Hfuel Htot Hr;
    (destruct fuel as [|fuel]; [simpl in Hfuel; lia|]).
  - exists d. cbn [decode_all_loop length] in *. unfold next_sample.
    rewrite (proj2 (N.leb_le _ _)) by lia. by rewrite app_nil_r.
  - apply Forall_cons_1 in Hs as [Hs1 Hs]. cbn [decode_all_loop samples_bits length] in *.
    rewrite <-app_assoc in Hr.
    destruct (next_sample_ok e d s _ Hsy Hs1 ltac:(lia) Hr) as (d1 & -> & Hsy1 & Hr1 & Htot1).
    destruct (IH fuel _ d1 (acc ++ [s]) Hsy1 Hs) as (d2 & -> & Htot2); [lia| |done|].
    { pose proof (sy_count _ _ Hsy1). pose proof (sy_count _ _ Hsy).
      rewrite gorilla_encode_count in *. lia. }
    exists d2. rewrite <-app_assoc. split; [done|congruence].
Qed.

Lemma decode_samples_ok samples :
  Forall sample_ok samples → N.of_nat (length samples) < 2 ^ 32 →
  decode_samples (gorilla_finish (encode_samples samples)) = Ok samples.
Proof.
  intros Hs Hlen. change (encode_samples samples) with (encode_run gorilla_encoder_new samples). unfold gorilla_finish.
  rewrite encode_run_count. cbn [ge_count gorilla_encoder_new]. rewrite N.add_0_l, N.mod_small by done.
  pose proof (encode_run_ok gorilla_encoder_new [] samples writer_new_ok) as Hw. cbn [app] in Hw.
  set (w := ge_buf (encode_run gorilla_encoder_new samples)) in *. clearbody w.
  destruct (writer_bits _ _ Hw) as (pad & _ & Hbits). pose proof (writer_length _ _ Hw) as Hwl.
  pose proof (length_samples_bits gorilla_encoder_new samples).
  set (data := to_le 4 (N.of_nat (length samples)) ++ as_bytes w). unfold decode_samples, decode_all.
  set (d := gorilla_decoder_new data).
  assert ((N.of_nat (length data) <? 4) = false) as Hshort.
  { apply N.ltb_ge. unfold data. rewrite length_app, length_to_le. lia. }
  assert (gd_total d = N.of_nat (length samples)) as Htot.
  { unfold d, gorilla_decoder_new. rewrite Hshort. cbn [gd_total].
    change data with ([] ++ data). unfold data.
    rewrite field_app by (done || apply length_to_le). by apply from_le_to_le. }
  assert (gd_reader d = bit_reader_new (as_bytes w)) as Hrd.
  { unfold d, gorilla_decoder_new. rewrite Hshort. cbn [gd_reader].
    unfold data. by rewrite drop_app_length' by by rewrite length_to_le. }
  assert (gd_count d = 0) as Hcnt by done.
  destruct (decode_all_ok (S (N.to_nat (gd_total d - gd_count d))) gorilla_encoder_new d samples []
    (replicate pad false)) as (d' & -> & Htot').
  - by constructor; [..|left| | |].
  - done.
  - rewrite Htot, Hcnt. lia.
  - rewrite Htot, Hcnt. lia.
  - rewrite Hrd, <-Hbits. apply reader_new_ok. unfold u64_max. lia.
  - cbn [app]. by rewrite Htot', Htot, N.eqb_refl.
Qed.

(** C35. Any run of fewer than 2^32 samples, whatever the timestamps and bit
    patterns, comes back from the Gorilla decoder exactly. *)
Theorem gorilla_roundtrip samples :
  Forall sample_ok samples → N.of_nat (length samples) < 2 ^ 32 →
  decode_samples (gorilla_finish (encode_samples samples)) = Ok samples.
Proof. apply decode_samples_ok. Qed.

(** ** Arbitrary input *)

(** The window stays inside the word, so no shift or subtraction of
    [decode_value] leaves its range. *)
Record decoder_ok (d : GorillaDecoder) : Prop := {
  do_window : gd_prev_leading d + gd_prev_trailing d < 64;
  do_count : gd_count d ≤ gd_total d;
  do_first : gd_first d = true → gd_count d = 0;
}.

(** [d'] is [d] up to its reader and previous timestamp, delta and value. *)
Record same_control (d d' : GorillaDecoder) : Prop := {
  sc_window : gd_prev_leading d + gd_prev_trailing d < 64 →
    gd_prev_leading d' + gd_prev_trailing d' < 64;
  sc_count : gd_count d' = gd_count d;
  sc_total : gd_total d' = gd_total d;
  sc_first : gd_first d' = gd_first d;
}.

Lemma same_control_trans d1 d2 d3 : same_control d1 d2 → same_control d2 d3 → same_control d1 d3.
Proof. intros [] []. constructor; [auto|congruence..]. Qed.

#[local] Hint Resolve same_control_trans : core.

Lemma on_reader_control {A} (op : BitReader → BitReader * result CodecError A) d :
  same_control d (on_reader op d).1.
Proof. unfold on_reader. by destruct (op (gd_reader d)). Qed.

Lemma next_bit_control d : same_control d (next_bit d).1.
Proof. apply on_reader_control. Qed.

Lemma next_bits_control n d : same_control d (next_bits n d).1.
Proof. apply on_reader_control. Qed.

Lemma decode_timestamp_control d : same_control d (decode_timestamp d).1.
Proof.
  unfold decode_timestamp. rewrite decode_timestamp_dod_eq.
  pose proof (on_reader_control decode_dod d) as Hc. destruct (on_reader _ d) as [d' [dod|]]; [|done].
  eapply same_control_trans; [exact Hc|]. by constructor.
Qed.

(** One read of a chain: on an error the chain ends with the state so far. *)
Ltac control_step :=
  match goal with
  | |- context [next_bit ?d] =>
      pose proof (next_bit_control d); destruct (next_bit d) as [? [?|]]
  | |- context [next_bits ?n ?d] =>
      pose proof (next_bits_control n d); destruct (next_bits n d) as [? [?|]]
  end; cbn [fst snd] in *.

Lemma decode_value_xor_control d : same_control d (decode_value_xor d).1.
Proof.
  unfold decode_value_xor. control_step; [|done]. destruct (negb _).
  - control_step; eauto.
  - do 2 (control_step; [|eauto]).
    destruct (N.ltb_spec 64 (a0 + (a1 + 1))); [eauto|].
    control_step; [|eauto]. assert (same_control d g2) as [? ? ? ?] by eauto.
    constructor; cbn; [lia|done..].
Qed.

Lemma decode_value_control d : same_control d (decode_value d).1.
Proof.
  unfold decode_value. control_step; [|done]. destruct (negb _); [done|].
  pose proof (decode_value_xor_control g) as Hx. destruct (decode_value_xor g) as [d' [x|]]; cbn [fst snd] in *.
  - assert (same_control d d') as [? ? ? ?] by eauto. by constructor.
  - eauto.
Qed.

Lemma next_sample_inv d d' o :
  decoder_ok d → next_sample d = (d', o) →
  decoder_ok d' ∧ gd_total d' = gd_total d ∧
  (o = None ∨ (gd_count d < gd_total d ∧ gd_count d' = gd_count d + 1)).
Proof.
  intros [Hwin Hcount Hfirst] H. revert H. unfold next_sample.
  destruct (N.leb_spec (gd_total d) (gd_count d)); [by intros [= <- <-]; eauto using Build_decoder_ok|].
  destruct (gd_first d) eqn:Hf.
  - specialize (Hfirst eq_refl). control_step; [control_step|].
    all: assert (same_control (d {{ gd_first := false }}) ltac:(match goal with g : GorillaDecoder |- _ => exact g end))
      as [Hw Hc Ht Hf'] by eauto; cbn in Hw, Hc, Ht, Hf'; intros [= <- <-]; split_and!;
      [constructor; cbn; try lia; try congruence; auto|done|].
    + right. cbn. lia.
    + by left.
    + by left.
  - pose proof (decode_timestamp_control d) as Hts. destruct (decode_timestamp d) as [d1 [ts|]]; cbn [fst] in Hts.
    2: { intros [= <- <-]. destruct Hts. split_and!; [constructor; [auto|lia|congruence]|done|by left]. }
    pose proof (decode_value_control d1) as Hv. destruct (decode_value d1) as [d2 [v|]]; cbn [fst] in Hv;
      assert (same_control d d2) as [Hw Hc Ht Hf'] by eauto; intros [= <- <-]; split_and!;
      try (constructor; cbn; [auto|lia|congruence]); try done; [right; cbn; lia|by left].
Qed.

Lemma decode_all_safe fuel d acc :
  decoder_ok d → (N.to_nat (gd_total d - gd_count d) < fuel)%nat →
  (∀ k, decode_all_loop (fuel + k) d acc = decode_all_loop fuel d acc) ∧
  ∃ d' samples, decode_all_loop fuel d acc = (d', acc ++ samples) ∧ decoder_ok d' ∧
    gd_total d' = gd_total d ∧ N.of_nat (length samples) ≤ gd_total d - gd_count d.
Proof.
  revert d acc. induction fuel as [|fuel IH]; intros d acc Hd Hfuel; [lia|].
  cbn [decode_all_loop Nat.add]. destruct (next_sample d) as [d1 o] eqn:Hn.
  destruct (next_sample_inv _ _ _ Hd Hn) as (Hd1 & Ht1 & [->|[Hlt Hc1]]).
  { split; [done|]. exists d1, []. rewrite app_nil_r. split_and!; [done..|simpl; lia]. }
  destruct o as [s|]; [|split; [done|]; exists d1, []; rewrite app_nil_r; split_and!; [done..|simpl; lia]].
  destruct (IH d1 (acc ++ [s]) Hd1) as (Hk & d2 & ss & Heq & Hd2 & Ht2 & Hl); [lia|].
  split; [done|]. exists d2, (s :: ss). rewrite Heq, <-app_assoc. split_and!; [done|done|congruence|simpl; lia].
Qed.

(** On arbitrary bytes the Gorilla decoder's loop ends (more fuel changes
    nothing), the value window stays inside the 64-bit word, and no more
    samples come out than the header announces. *)
Theorem gorilla_decoder_safe data k :
  let d0 := gorilla_decoder_new data in
  decode_all_loop (S (N.to_nat (gd_total d0)) + k) d0 [] = decode_all d0 ∧
  let '(d, samples) := decode_all d0 in
  decoder_ok d ∧ N.of_nat (length samples) ≤ gd_total d0.
Proof.
  intros d0. assert (decoder_ok d0) as Hd by (constructor; cbn; [done|lia|done]).
  assert (gd_count d0 = 0) as Hc by done. unfold decode_all.
  destruct (decode_all_safe (S (N.to_nat (gd_total d0 - gd_count d0))) d0 [] Hd ltac:(lia))
    as (Hk & d' & ss & Heq & Hd' & _ & Hl).
  split; [rewrite <-(Hk k); do 2 f_equal; lia|]. rewrite Heq. cbn [app]. rewrite Hc in Hl. split; [done|lia].
Qed.

(** ** Columns *)

(** A column of values comes back whatever the bit patterns. *)
Lemma gorilla_f64_roundtrip values :
  Forall (λ v, v < 2 ^ 64) values → N.of_nat (length values) < 2 ^ 32 →
  decode_f64 (encode_f64 values) = Ok values.
Proof.
  intros Hv Hl. unfold decode_f64, encode_f64. rewrite decode_samples_ok.
  - f_equal. apply list_eq. intros i. rewrite list_lookup_fmap, list_lookup_imap.
    by destruct (values !! i).
  - apply Forall_lookup. intros i [ts v] Hi. rewrite list_lookup_imap in Hi.
    destruct (values !! i) as [w|] eqn:Hw; [|done]. cbn in Hi. injection Hi as <- <-.
    pose proof (lookup_lt_Some _ _ _ Hw). split; [apply to_i64_i64; cbn; lia|].
    by eapply (proj1 (Forall_lookup _ _) Hv).
  - by rewrite length_imap.
Qed.

Lemma gorilla_timestamps_roundtrip timestamps :
  Forall is_i64 timestamps → N.of_nat (length timestamps) < 2 ^ 32 →
  decode_timestamps (encode_timestamps timestamps) = Ok timestamps.
Proof.
  intros Ht Hl. unfold decode_timestamps, encode_timestamps. rewrite decode_samples_ok.
  - f_equal. rewrite <-list_fmap_compose. apply list_fmap_id.
  - apply Forall_fmap. eapply Forall_impl; [exact Ht|]. done.
  - by rewrite length_fmap.
Qed.
