(* ===== verification/FastLanes.v ===== *)
(** * FastLanes: frame-of-reference bit packing

    Model of [nodedb-codec/src/fastlanes]: the packing primitives
    ([bits.rs]), a block of up to 1024 values ([block.rs]), the frame
    ([header.rs], [codec.rs]), the block iterator ([iterator.rs]) and random
    access to blocks ([range.rs]). The block index an error message quotes is
    left out with the message. *)

From Stdlib Require Import Lia ZArith.
From stdpp Require Import base option list.
From S2P Require Import Prelude Codec.

(** ** Bit packing, [bits.rs] *)

Definition low_mask_u8 (n : usize) : u8 := if 8 <=? n then 0xFF else N.shiftl 1 n - 1.

Definition low_mask_u64 (n : usize) : u64 := if 64 <=? n then u64_max else N.shiftl 1 n - 1.

(** [packed[i] = b]. *)
Definition set_at (i : usize) (b : u8) (packed : bytes) : bytes := <[N.to_nat i := b]> packed.

Definition get_at (i : usize) (packed : bytes) : u8 := default 0 (packed !! N.to_nat i).

(** The [while remaining >= 8] of [pack_bits], eight bits a round, with the
    final partial byte. *)
Fixpoint pack_rest (fuel : nat) (packed : bytes) (bi : usize) (val : u64) (remaining : usize) : bytes :=
  match fuel with
  | O => packed
  | S fuel =>
      if 8 <=? remaining then
        pack_rest fuel (set_at bi (N.land val 0xFF) packed) (bi + 1) (N.shiftr val 8) (remaining - 8)
      else if 0 <? remaining then or_at bi (N.land val (low_mask_u64 remaining) mod 256) packed
      else packed
  end.

(** A width is at most 64, so nine rounds finish every value. *)
Definition pack_bits (packed : bytes) (bit_offset : usize) (value : u64) (bit_width : u8) : bytes :=
  let bw := bit_width in
  if bw =? 0 then packed
  else
    let byte_idx := bit_offset / 8 in
    let bit_idx := bit_offset mod 8 in
    let first_bits := N.min (8 - bit_idx) bw in
    let byte := N.shiftl (N.land value (low_mask_u64 first_bits) mod 256) bit_idx mod 256 in
    pack_rest 9 (or_at byte_idx byte packed) (byte_idx + 1) (N.shiftr value first_bits) (bw - first_bits).

(** The [while collected + 8 <= bw] of [unpack_bits], with the final partial
    byte. *)
Fixpoint unpack_rest (fuel : nat) (packed : bytes) (bi : usize) (value : u64) (collected bw : usize) : u64 :=
  match fuel with
  | O => value
  | S fuel =>
      if collected + 8 <=? bw then
        unpack_rest fuel packed (bi + 1)
          (N.lor value (wrap64 (N.shiftl (get_at bi packed) collected))) (collected + 8) bw
      else
        let remaining := bw - collected in
        if 0 <? remaining
        then N.lor value (wrap64 (N.shiftl (N.land (get_at bi packed) (low_mask_u8 remaining)) collected))
        else value
  end.

Definition unpack_bits (packed : bytes) (bit_offset : usize) (bit_width : u8) : u64 :=
  let bw := bit_width in
  if bw =? 0 then 0
  else
    let byte_idx := bit_offset / 8 in
    let bit_idx := bit_offset mod 8 in
    let first_bits := N.min (8 - bit_idx) bw in
    let value := N.land (N.shiftr (get_at byte_idx packed) bit_idx) (low_mask_u8 first_bits) in
    unpack_rest 9 packed (byte_idx + 1) value first_bits bw.

(** ** Blocks, [block.rs] *)

Definition BLOCK_HEADER_SIZE : usize := 11.
Definition BLOCK_SIZE : usize := 1024.
Definition GLOBAL_HEADER_SIZE : usize := 6.

Definition u16_max : N := 2 ^ 16 - 1.

(** [(max as u128).wrapping_sub(min as u128) as u64]. *)
Definition range_u64 (min_val max_val : i64) : u64 :=
  Z.to_N (((max_val mod 2 ^ 128 - min_val mod 2 ^ 128) mod 2 ^ 128) mod 2 ^ 64)%Z.

Definition bit_width_for_range (min_val max_val : i64) : u8 :=
  let range := range_u64 min_val max_val in
  if range =? 0 then 0 else 64 - leading_zeros range.

Definition width_mask (bit_width : u8) : u64 :=
  if bit_width =? 64 then u64_max else N.shiftl 1 bit_width - 1.

(** The [for &value in values] of [encode_block]. *)
Fixpoint pack_values (packed : bytes) (min_val : i64) (bit_width : u8) (bit_offset : usize)
    (values : list i64) : result CodecError bytes :=
  match values with
  | [] => Ok packed
  | value :: rest =>
      let residual := N.land (to_u64 (wrapping_sub value min_val)) (width_mask bit_width) in
      let packed := pack_bits packed bit_offset residual bit_width in
      let? bit_offset := checked_add bit_offset bit_width in
      pack_values packed min_val bit_width bit_offset rest
  end.

(** [encode_block(values, out)]; on an error [out] is dropped by the caller. *)
Definition encode_block (values : list i64) (out : bytes) : result CodecError bytes :=
  match values with
  | [] => Err Corrupt
  | first :: rest =>
      if BLOCK_SIZE <? N.of_nat (length values) then Err Corrupt
      else if u16_max <? N.of_nat (length values) then Err Corrupt
      else
        let count := N.of_nat (length values) in
        let min_val := foldl Z.min first rest in
        let max_val := foldl Z.max first rest in
        let bit_width := bit_width_for_range min_val max_val in
        let? packed_bits := checked_mul count bit_width in
        let packed_bytes := div_ceil8 packed_bits in
        let? header_end := checked_add (N.of_nat (length out)) BLOCK_HEADER_SIZE in
        let? output_end := checked_add header_end packed_bytes in
        let? _len := encode_u32_len output_end in
        let out := ((out ++ to_le 2 count) ++ [bit_width]) ++ i64_to_le min_val in
        if bit_width =? 0 then Ok out
        else
          let? packed := pack_values (replicate (N.to_nat packed_bytes) 0) min_val bit_width 0 values in
          Ok (out ++ packed)
  end.

Definition validate_block_shape (count : usize) (bit_width : u8) (expected_count : usize)
    : result CodecError () :=
  if negb (count =? expected_count) || (count =? 0) || (BLOCK_SIZE <? count) then Err Corrupt
  else if 64 <? bit_width then Err Corrupt
  else Ok ().

Definition packed_byte_len (count : usize) (bit_width : u8) : result CodecError usize :=
  let? bits := checked_mul count bit_width in Ok (div_ceil8 bits).

(** [byte & !low_mask_u8(final_bits)] on a byte. *)
Definition validate_padding (packed : bytes) (count : usize) (bit_width : u8) : result CodecError () :=
  let? meaningful_bits := checked_mul count bit_width in
  let final_bits := meaningful_bits mod 8 in
  if negb (final_bits =? 0)
     && match last packed with
        | Some byte => negb (N.ldiff byte (low_mask_u8 final_bits) =? 0)
        | None => false
        end
  then Err Corrupt
  else Ok ().

(** The block at [offset]: its count, width, minimum, packed bytes and end,
    after every check [decode_block] and [skip_block] share. *)
Definition block_at (data : bytes) (offset expected_count : usize)
    : result CodecError (usize * u8 * i64 * bytes * usize) :=
  let? header := checked_range data offset BLOCK_HEADER_SIZE in
  let count := from_le (field 0 2 header) in
  let bit_width := get_at 2 header in
  let min_val := i64_from_le (field 3 8 header) in
  let? _ok := validate_block_shape count bit_width expected_count in
  let? packed_bytes := packed_byte_len count bit_width in
  let? packed_start := checked_add offset BLOCK_HEADER_SIZE in
  let? packed := checked_range data packed_start packed_bytes in
  let? _ok := validate_padding packed count bit_width in
  let? next_offset := checked_add packed_start packed_bytes in
  Ok (count, bit_width, min_val, packed, next_offset).

(** The [for _ in 0..count] of [decode_block]. *)
Fixpoint unpack_values (n : nat) (packed : bytes) (min_val : i64) (bit_width : u8) (bit_offset : usize)
    (values : list i64) : result CodecError (list i64) :=
  match n with
  | O => Ok values
  | S n =>
      let residual := N.land (unpack_bits packed bit_offset bit_width) (width_mask bit_width) in
      let values := values ++ [wrapping_add min_val (to_i64 residual)] in
      let? bit_offset := checked_add bit_offset bit_width in
      unpack_values n packed min_val bit_width bit_offset values
  end.

(** Returns the values with the block's appended, and the next offset. *)
Definition decode_block (data : bytes) (offset : usize) (values : list i64) (expected_count : usize)
    : result CodecError (list i64 * usize) :=
  let? block := block_at data offset expected_count in
  let '(count, bit_width, min_val, packed, next_offset) := block in
  if bit_width =? 0 then Ok (values ++ replicate (N.to_nat count) min_val, next_offset)
  else
    let? values := unpack_values (N.to_nat count) packed min_val bit_width 0 values in
    Ok (values, next_offset).

Definition skip_block (data : bytes) (offset expected_count : usize) : result CodecError usize :=
  let? block := block_at data offset expected_count in
  let '(_, _, _, _, next_offset) := block in Ok next_offset.

(** ** Frames, [header.rs] and [codec.rs] *)

Definition div_ceil_block (n : usize) : usize := (n + (BLOCK_SIZE - 1)) / BLOCK_SIZE.

Definition parse_header (data : bytes) : result CodecError (usize * usize) :=
  let? header := checked_range data 0 GLOBAL_HEADER_SIZE in
  let? total_count := u32_to_usize (from_le (field 0 4 header)) in
  let? decoded_bytes := checked_mul total_count 8 in
  let? _len := decoded_len decoded_bytes in
  let block_count := from_le (field 4 2 header) in
  if negb (block_count =? div_ceil_block total_count) then Err Corrupt
  else Ok (total_count, block_count).

Definition expected_block_count (total_count block_idx : usize) : result CodecError usize :=
  let? start := checked_mul block_idx BLOCK_SIZE in
  if total_count <? start then Err Corrupt
  else Ok (N.min (total_count - start) BLOCK_SIZE).

(** Skips [n] blocks from block [idx] at [offset], as [validate_frame] and
    the range operations do. *)
Fixpoint skip_blocks (n : nat) (data : bytes) (total_count idx offset : usize) : result CodecError usize :=
  match n with
  | O => Ok offset
  | S n =>
      let? expected := expected_block_count total_count idx in
      let? offset := skip_block data offset expected in
      skip_blocks n data total_count (idx + 1) offset
  end.

(** Decodes [n] blocks from block [idx] at [offset]. *)
Fixpoint decode_blocks (n : nat) (data : bytes) (total_count idx offset : usize) (values : list i64)
    : result CodecError (list i64 * usize) :=
  match n with
  | O => Ok (values, offset)
  | S n =>
      let? expected := expected_block_count total_count idx in
      let? decoded := decode_block data offset values expected in
      let '(values, offset) := decoded in
      decode_blocks n data total_count (idx + 1) offset values
  end.

Definition validate_frame (data : bytes) (total_count block_count : usize) : result CodecError () :=
  let? offset := skip_blocks (N.to_nat block_count) data total_count 0 GLOBAL_HEADER_SIZE in
  if negb (offset =? N.of_nat (length data)) then Err Corrupt else Ok ().

(** [values.chunks(1024)]; the fuel is the number of values. *)
Fixpoint chunks (fuel : nat) (values : list i64) : list (list i64) :=
  match fuel, values with
  | S fuel, _ :: _ =>
      take (N.to_nat BLOCK_SIZE) values :: chunks fuel (drop (N.to_nat BLOCK_SIZE) values)
  | _, _ => []
  end.

Fixpoint encode_blocks (blocks : list (list i64)) (out : bytes) : result CodecError bytes :=
  match blocks with
  | [] => Ok out
  | chunk :: rest =>
      let? out := encode_block chunk out in
      encode_blocks rest out
  end.

Definition fastlanes_encode (values : list i64) : result CodecError bytes :=
  let len := N.of_nat (length values) in
  let? total_bytes := checked_mul len 8 in
  let? _len := decoded_len total_bytes in
  let? total_count := encode_input_len len in
  let block_count := div_ceil_block len in
  if u16_max <? block_count then Err (ResourceLimit block_count u16_max)
  else
    let? estimate := checked_mul len 5 in
    let? _estimated := checked_add GLOBAL_HEADER_SIZE estimate in
    encode_blocks (chunks (length values) values) (to_le 4 total_count ++ to_le 2 block_count).

Definition fastlanes_decode (data : bytes) : result CodecError (list i64) :=
  let len := N.of_nat (length data) in
  if len <? GLOBAL_HEADER_SIZE then Err (Truncated GLOBAL_HEADER_SIZE len)
  else
    let? header := parse_header data in
    let '(total_count, block_count) := header in
    if total_count =? 0 then
      if negb (len =? GLOBAL_HEADER_SIZE) then Err Corrupt else Ok []
    else
      let? _cap := checked_capacity total_count 8 in
      let? decoded := decode_blocks (N.to_nat block_count) data total_count 0 GLOBAL_HEADER_SIZE [] in
      let '(values, offset) := decoded in
      if negb (offset =? len) then Err Corrupt
      else if negb (N.of_nat (length values) =? total_count) then Err Corrupt
      else Ok values.

(** ** Random access, [range.rs] *)

(** The offsets of [n] blocks from block [idx] at [pos], and the end. *)
Fixpoint block_offsets (n : nat) (data : bytes) (total_count idx pos : usize) (offsets : list usize)
    : result CodecError (list usize * usize) :=
  match n with
  | O => Ok (offsets, pos)
  | S n =>
      let? expected := expected_block_count total_count idx in
      let? next := skip_block data pos expected in
      block_offsets n data total_count (idx + 1) next (offsets ++ [pos])
  end.

Definition block_byte_offsets (data : bytes) : result CodecError (list usize) :=
  let len := N.of_nat (length data) in
  if len <? GLOBAL_HEADER_SIZE then Err (Truncated GLOBAL_HEADER_SIZE len)
  else
    let? header := parse_header data in
    let '(total_count, num_blocks) := header in
    let? _cap := checked_capacity num_blocks 8 in
    let? scanned := block_offsets (N.to_nat num_blocks) data total_count 0 GLOBAL_HEADER_SIZE [] in
    let '(offsets, pos) := scanned in
    if negb (pos =? len) then Err Corrupt else Ok offsets.

(** The [try_fold] over the selected blocks' counts. *)
Fixpoint selected_count (n : nat) (total_count idx count : usize) : result CodecError usize :=
  match n with
  | O => Ok count
  | S n =>
      let? expected := expected_block_count total_count idx in
      let? count := checked_add count expected in
      selected_count n total_count (idx + 1) count
  end.

Definition decode_block_range (data : bytes) (start_block end_block : usize)
    : result CodecError (list i64) :=
  let len := N.of_nat (length data) in
  if len <? GLOBAL_HEADER_SIZE then Err (Truncated GLOBAL_HEADER_SIZE len)
  else
    let? header := parse_header data in
    let '(total_count, num_blocks) := header in
    let? _ok := validate_frame data total_count num_blocks in
    if (num_blocks <=? start_block) || (num_blocks <? end_block) || (end_block <=? start_block)
    then Ok []
    else
      let? offset := skip_blocks (N.to_nat start_block) data total_count 0 GLOBAL_HEADER_SIZE in
      let? count := selected_count (N.to_nat (end_block - start_block)) total_count start_block 0 in
      let? selected_bytes := checked_mul count 8 in
      let? _len := decoded_len selected_bytes in
      let? _cap := checked_capacity count 8 in
      let? decoded :=
        decode_blocks (N.to_nat (end_block - start_block)) data total_count start_block offset [] in
      Ok decoded.1.

Definition block_count (data : bytes) : result CodecError usize :=
  let len := N.of_nat (length data) in
  if len <? GLOBAL_HEADER_SIZE then Err (Truncated GLOBAL_HEADER_SIZE len)
  else let? header := parse_header data in Ok header.2.

Definition decode_single_block (data : bytes) (block_idx : usize) : result CodecError (list i64) :=
  let len := N.of_nat (length data) in
  if len <? GLOBAL_HEADER_SIZE then Err (Truncated GLOBAL_HEADER_SIZE len)
  else
    let? header := parse_header data in
    let '(total_count, num_blocks) := header in
    let? _ok := validate_frame data total_count num_blocks in
    if num_blocks <=? block_idx then Err Corrupt
    else
      let? offset := skip_blocks (N.to_nat block_idx) data total_count 0 GLOBAL_HEADER_SIZE in
      let? expected_count := expected_block_count total_count block_idx in
      let? _cap := checked_capacity expected_count 8 in
      let? decoded := decode_block data offset [] expected_count in
      Ok decoded.1.

(** ** The block iterator, [iterator.rs] *)

Record BlockIterator := {
  bi_data : bytes;
  bi_offset : usize;
  bi_total_count : usize;
  bi_blocks_remaining : usize;
  bi_current_block : usize;
}.

#[export] Instance eta_block_iterator : Eta BlockIterator :=
  λ r, Build_BlockIterator (bi_data r) (bi_offset r) (bi_total_count r) (bi_blocks_remaining r)
    (bi_current_block r).

Definition block_iterator_new (data : bytes) : result CodecError BlockIterator :=
  let len := N.of_nat (length data) in
  if len <? GLOBAL_HEADER_SIZE then Err (Truncated GLOBAL_HEADER_SIZE len)
  else
    let? header := parse_header data in
    let '(total_count, num_blocks) := header in
    let? _ok := validate_frame data total_count num_blocks in
    Ok {| bi_data := data; bi_offset := GLOBAL_HEADER_SIZE; bi_total_count := total_count;
          bi_blocks_remaining := num_blocks; bi_current_block := 0 |}.

Definition iterator_skip_block (it : BlockIterator) : BlockIterator * result CodecError () :=
  if bi_blocks_remaining it =? 0 then (it, Ok ())
  else
    match (let? expected := expected_block_count (bi_total_count it) (bi_current_block it) in
           skip_block (bi_data it) (bi_offset it) expected) with
    | Err e => (it, Err e)
    | Ok offset =>
        (it {{ bi_offset := offset; bi_current_block := bi_current_block it + 1;
               bi_blocks_remaining := bi_blocks_remaining it - 1 }}, Ok ())
    end.

Definition iterator_next (it : BlockIterator) : BlockIterator * option (result CodecError (list i64)) :=
  if bi_blocks_remaining it =? 0 then (it, None)
  else
    match expected_block_count (bi_total_count it) (bi_current_block it) with
    | Err e => (it, Some (Err e))
    | Ok expected_count =>
        match decode_block (bi_data it) (bi_offset it) [] expected_count with
        | Ok (values, new_offset) =>
            (it {{ bi_offset := new_offset; bi_current_block := bi_current_block it + 1;
                   bi_blocks_remaining := bi_blocks_remaining it - 1 }}, Some (Ok values))
        | Err e => (it {{ bi_blocks_remaining := 0 }}, Some (Err e))
        end
    end.
