(* ===== verification/FastLanesFacts.v ===== *)
(** * FastLanesFacts: packing, frames and random access

    A packed block spells one number, the residuals side by side, least
    significant bits first; packing adds a residual to it and unpacking reads
    one back. From there: frames decode to what was encoded, and reading by
    block, by range or through the iterator agrees with decoding it all. *)

From Stdlib Require Import Lia ZArith.
From stdpp Require Import base option list.
From S2P Require Import Prelude Codec FastLanes CodecBits CodecFacts.

(** ** Packed bytes as a number *)

Definition bit_at (packed : bytes) (k : N) : bool := N.testbit (get_at (k / 8) packed) (k mod 8).

(** The bytes spell [n], least significant bits first. *)
Definition spells (packed : bytes) (n : N) : Prop := ∀ k, bit_at packed k = N.testbit n k.

Lemma div_mod8 k : k = 8 * (k / 8) + k mod 8 ∧ k mod 8 < 8.
Proof. split; [apply N.div_mod'|by apply N.mod_lt]. Qed.

Lemma div8_unique k q r : r < 8 → k = 8 * q + r → k / 8 = q ∧ k mod 8 = r.
Proof.
  intros Hr Hk. split; [symmetry; by apply (N.div_unique _ _ _ r)|symmetry; by apply (N.mod_unique _ _ q)].
Qed.

Lemma get_at_set_at i b packed j :
  (N.to_nat i < length packed)%nat →
  get_at j (set_at i b packed) = if decide (j = i) then b else get_at j packed.
Proof.
  intros Hi. unfold get_at, set_at. case_decide as Hj.
  - subst. by rewrite list_lookup_insert_eq.
  - rewrite list_lookup_insert_ne by lia. done.
Qed.

Lemma get_at_or_at i m packed j :
  (N.to_nat i < length packed)%nat →
  get_at j (or_at i m packed) = if decide (j = i) then N.lor (get_at j packed) m else get_at j packed.
Proof.
  intros Hi. unfold get_at. rewrite or_at_lookup. destruct (decide (j = i)) as [->|Hj].
  - destruct (lookup_lt_is_Some_2 packed (N.to_nat i)) as [x ->]; [done|].
    cbn. by rewrite decide_True.
  - destruct (packed !! N.to_nat j); [|done]. cbn. by rewrite decide_False by lia.
Qed.

Lemma low_mask_u64_ones n : n ≤ 64 → low_mask_u64 n = N.ones n.
Proof.
  intros Hn. unfold low_mask_u64. destruct (N.leb_spec 64 n).
  - by replace n with 64 by lia.
  - apply ones_shiftl.
Qed.

Lemma low_mask_u8_ones n : n ≤ 8 → low_mask_u8 n = N.ones n.
Proof.
  intros Hn. unfold low_mask_u8. destruct (N.leb_spec 8 n).
  - by replace n with 8 by lia.
  - apply ones_shiftl.
Qed.

(** Bit [i] of a number below [2^n] is false from [n] on. *)
Lemma testbit_high a n i : a < 2 ^ n → n ≤ i → N.testbit a i = false.
Proof.
  intros Ha Hi. rewrite <-(N.mod_small a (2 ^ n)) by done. by apply N.mod_pow2_bits_high.
Qed.

Lemma testbit_mod a n i : N.testbit (a mod 2 ^ n) i = (i <? n) && N.testbit a i.
Proof.
  destruct (N.ltb_spec i n); [by apply N.mod_pow2_bits_low|by apply N.mod_pow2_bits_high].
Qed.

Lemma testbit_shiftl a n i : N.testbit (N.shiftl a n) i = (n <=? i) && N.testbit a (i - n).
Proof.
  destruct (N.leb_spec n i); [by rewrite N.shiftl_spec_high'|by rewrite N.shiftl_spec_low].
Qed.

Lemma testbit_shiftr a n i : N.testbit (N.shiftr a n) i = N.testbit a (i + n).
Proof. apply N.shiftr_spec'. Qed.

(** Names the byte [kq] and the bit [kr] of position [k]. *)
Ltac split_bit k :=
  let Hk := fresh "Hk" in
  let Hk8 := fresh "Hk8" in
  destruct (div_mod8 k) as [Hk Hk8]; unfold bit_at in *; generalize dependent k;
  intros k; generalize (k / 8) (k mod 8); intros kq kr; intros.

(** [packed] spells [n] with the [c] low bits of [value] at [off]. *)
Definition spells_part (packed : bytes) (n off value c : N) : Prop :=
  ∀ k, bit_at packed k = N.testbit n k || ((off <=? k) && (k <? off + c) && N.testbit value (k - off)).

Lemma pack_rest_spells fuel packed bi n off value bw c :
  (N.to_nat (bw - c) < 8 * fuel)%nat → c ≤ bw → bw ≤ 64 → off + c = 8 * bi → n < 2 ^ off →
  off + bw ≤ 8 * N.of_nat (length packed) →
  spells_part packed n off value c →
  let packed' := pack_rest fuel packed bi (N.shiftr value c) (bw - c) in
  length packed' = length packed ∧ spells_part packed' n off value bw.
Proof.
  revert packed bi c. induction fuel as [|fuel IH]; intros packed bi c Hf Hc Hbw Hbi Hn Hlen Hsp packed'; [lia|].
  subst packed'. cbn [pack_rest]. destruct (N.leb_spec 8 (bw - c)) as [H8|H8].
  - rewrite N.shiftr_shiftr. replace (bw - c - 8) with (bw - (c + 8)) by lia.
    destruct (IH (set_at bi (N.land (N.shiftr value c) 255) packed) (bi + 1) (c + 8)) as [Hl Hs];
      [lia..|done| | |].
    { unfold set_at. rewrite length_insert. lia. }
    { intros k. specialize (Hsp k). split_bit k.
      rewrite get_at_set_at by lia. case_decide as Hd.
      - change 255 with (N.ones 8). rewrite N.land_ones, testbit_mod, testbit_shiftr.
        rewrite (testbit_high n off) by (done || lia). rewrite (proj2 (N.ltb_lt _ _) Hk8).
        rewrite (proj2 (N.leb_le off k)), (proj2 (N.ltb_lt k (off + (c + 8)))) by lia.
        cbn [andb orb]. f_equal. lia.
      - rewrite Hsp. f_equal. f_equal.
        destruct (N.leb_spec off k), (N.ltb_spec k (off + c)), (N.ltb_spec k (off + (c + 8))); try done; lia. }
    split; [rewrite Hl; unfold set_at; apply length_insert|done].
  - destruct (N.ltb_spec 0 (bw - c)).
    + unfold or_at at 1. rewrite length_alter. split; [done|]. intros k.
      specialize (Hsp k). split_bit k. rewrite get_at_or_at by lia. case_decide as Hd.
      * rewrite N.lor_spec, Hsp. rewrite low_mask_u64_ones, N.land_ones by lia.
        change 256 with (2 ^ 8). rewrite !testbit_mod, testbit_shiftr. rewrite (proj2 (N.ltb_lt _ _) Hk8).
        rewrite <-orb_assoc. f_equal. rewrite (proj2 (N.leb_le off k)) by lia. cbn [andb].
        rewrite (proj2 (N.ltb_ge k (off + c))) by lia. cbn [andb orb].
        replace (kr + c) with (k - off) by lia. f_equal.
        apply eq_true_iff_eq. rewrite !N.ltb_lt. lia.
      * rewrite Hsp. f_equal. f_equal.
        destruct (N.leb_spec off k), (N.ltb_spec k (off + c)), (N.ltb_spec k (off + bw)); try done; lia.
    + split; [done|]. by replace bw with c by lia.
Qed.

Lemma lor_add_testbit n value off k :
  n < 2 ^ off → N.testbit (n + value * 2 ^ off) k = N.testbit n k || ((off <=? k) && N.testbit value (k - off)).
Proof. intros Hn. by rewrite N.add_comm, <-lor_shiftl, N.lor_spec, orb_comm, testbit_shiftl by done. Qed.

Lemma pack_bits_spells packed off value bw n :
  bw ≤ 64 → value < 2 ^ bw → n < 2 ^ off → off + bw ≤ 8 * N.of_nat (length packed) → spells packed n →
  length (pack_bits packed off value bw) = length packed ∧
  spells (pack_bits packed off value bw) (n + value * 2 ^ off).
Proof.
  intros Hbw Hval Hn Hlen Hsp. unfold pack_bits. destruct (N.eqb_spec bw 0) as [->|Hbw0].
  { split; [done|]. replace value with 0 by (simpl in Hval; lia). by rewrite N.mul_0_l, N.add_0_r. }
  destruct (div_mod8 off) as [Hoff Hoff8]. set (fb := N.min (8 - off mod 8) bw).
  set (q := off / 8) in *. set (r := off mod 8) in *. clearbody q r.
  assert (Hpart : spells_part (or_at q (N.shiftl (N.land value (low_mask_u64 fb) mod 256) r mod 256) packed)
    n off value fb).
  { intros k. specialize (Hsp k). split_bit k. rewrite get_at_or_at by lia. case_decide as Hd.
    - rewrite N.lor_spec, Hsp, low_mask_u64_ones, N.land_ones by lia. change 256 with (2 ^ 8).
      rewrite testbit_mod, testbit_shiftl, !testbit_mod. f_equal.
      rewrite (proj2 (N.ltb_lt _ 8)) by lia.
      destruct (N.leb_spec r kr), (N.leb_spec off k); try lia. cbn [andb].
      rewrite (proj2 (N.ltb_lt (kr - r) 8)) by lia. cbn [andb]. replace (kr - r) with (k - off) by lia.
      f_equal. apply eq_true_iff_eq. rewrite !N.ltb_lt. lia.
    - rewrite Hsp. destruct (N.leb_spec off k), (N.ltb_spec k (off + fb)); cbn [andb];
        rewrite ?orb_false_r; try done. lia. }
  set (packed1 := or_at q _ packed) in *.
  assert (length packed1 = length packed) as Hl1 by apply length_alter. clearbody packed1.
  assert (Hfin : length (pack_rest 9 packed1 (q + 1) (N.shiftr value fb) (bw - fb)) = length packed ∧
    spells_part (pack_rest 9 packed1 (q + 1) (N.shiftr value fb) (bw - fb)) n off value bw).
  { destruct (decide (off + fb = 8 * (q + 1))) as [Hal|Hal].
    - rewrite <-Hl1. apply pack_rest_spells; [lia..|done|lia|done].
    - assert (fb = bw) as Hfb by lia. rewrite Hfb, N.sub_diag. cbn. split; [done|by rewrite <-Hfb]. }
  destruct Hfin as [Hl Hs]. split; [done|]. intros k. rewrite Hs, lor_add_testbit by done. f_equal.
  destruct (N.leb_spec off k); [|done]. destruct (N.ltb_spec k (off + bw)); [done|]. cbn [andb].
  symmetry. apply (testbit_high _ bw); [done|lia].
Qed.

Lemma get_at_lt i packed : Forall (λ b, b < 256) packed → get_at i packed < 256.
Proof.
  intros Hb. unfold get_at. destruct (packed !! N.to_nat i) as [x|] eqn:Hx; [|done].
  by eapply (proj1 (Forall_lookup _ _) Hb).
Qed.

(** [value] is the [c] low bits of what [n] has from [off] on. *)
Definition low_bits (value n off c : N) : Prop :=
  ∀ i, N.testbit value i = (i <? c) && N.testbit n (off + i).

(** A byte's [m] low bits put at [c] extend the low bits read so far. *)
Lemma low_bits_extend packed n off bi c m value :
  spells packed n → off + c = 8 * bi → m ≤ 8 → c + m ≤ 64 → low_bits value n off c →
  low_bits (N.lor value (wrap64 (N.shiftl (get_at bi packed mod 2 ^ m) c))) n off (c + m).
Proof.
  intros Hsp Hbi Hm Hc Hv i. rewrite N.lor_spec, Hv. unfold wrap64.
  rewrite testbit_mod, testbit_shiftl, testbit_mod.
  assert (∀ j, j < 8 → N.testbit (get_at bi packed) j = N.testbit n (off + c + j)) as Hbyte.
  { intros j Hj. rewrite <-Hsp. unfold bit_at.
    by destruct (div8_unique (off + c + j) bi j Hj) as [-> ->]; [lia|]. }
  destruct (N.ltb_spec i c), (N.ltb_spec i (c + m)), (N.leb_spec c i), (N.ltb_spec i 64),
    (N.ltb_spec (i - c) m); try lia; cbn [andb orb]; rewrite ?orb_false_r; try done.
  rewrite Hbyte by lia. f_equal. lia.
Qed.

Lemma unpack_rest_spells fuel packed n off bi bw c value :
  (N.to_nat (bw - c) < 8 * fuel)%nat → c ≤ bw → bw ≤ 64 → off + c = 8 * bi →
  Forall (λ b, b < 256) packed → spells packed n → low_bits value n off c →
  low_bits (unpack_rest fuel packed bi value c bw) n off bw.
Proof.
  revert bi c value. induction fuel as [|fuel IH]; intros bi c value Hf Hc Hbw Hbi Hb Hsp Hv; [lia|].
  cbn [unpack_rest]. destruct (N.leb_spec (c + 8) bw).
  - rewrite <-(N.mod_small (get_at bi packed) (2 ^ 8)) by by apply get_at_lt.
    apply IH; [lia..|done|done|]. apply low_bits_extend; done || lia.
  - destruct (N.ltb_spec 0 (bw - c)); [|by replace bw with c by lia].
    rewrite low_mask_u8_ones, N.land_ones by lia.
    assert (c + (bw - c) = bw) as <- by lia. rewrite N.add_comm, N.add_sub, N.add_comm.
    apply low_bits_extend; done || lia.
Qed.

Lemma low_bits_mod value n off c : low_bits value n off c → value = N.shiftr n off mod 2 ^ c.
Proof.
  intros Hv. apply N.bits_inj. intros i. rewrite Hv, testbit_mod, testbit_shiftr. by rewrite N.add_comm.
Qed.

Lemma unpack_bits_spells packed off bw n :
  bw ≤ 64 → Forall (λ b, b < 256) packed → spells packed n →
  unpack_bits packed off bw = N.shiftr n off mod 2 ^ bw.
Proof.
  intros Hbw Hb Hsp. apply low_bits_mod. unfold unpack_bits.
  destruct (N.eqb_spec bw 0) as [->|Hbw0].
  { intros i. rewrite N.bits_0. by destruct (N.ltb_spec i 0); [lia|]. }
  destruct (div_mod8 off) as [Hoff Hoff8].
  revert Hoff Hoff8. generalize (off / 8) (off mod 8). intros q r Hoff Hoff8.
  set (fb := N.min (8 - r) bw) in *.
  assert (Hv : low_bits (N.land (N.shiftr (get_at q packed) r) (low_mask_u8 fb)) n off fb).
  { intros i. rewrite low_mask_u8_ones, N.land_ones by lia. rewrite testbit_mod, testbit_shiftr.
    destruct (N.ltb_spec i fb); [|done]. cbn [andb]. rewrite <-(Hsp (off + i)). unfold bit_at.
    by destruct (div8_unique (off + i) q (i + r)) as [-> ->]; [lia..|]. }
  destruct (decide (off + fb = 8 * (q + 1))) as [Hal|Hal].
  - apply unpack_rest_spells; [lia..|done|done|done].
  - assert (fb = bw) as Hfb by lia. rewrite Hfb in *. cbn [unpack_rest].
    destruct (N.leb_spec (bw + 8) bw); [lia|]. by rewrite N.sub_diag.
Qed.

(** ** Residuals *)

(** The number residuals of [bw] bits spell side by side. *)
Definition side_by_side (bw : N) (rs : list N) : N := foldr (λ r acc, r + acc * 2 ^ bw) 0 rs.

Lemma side_by_side_snoc bw rs r :
  side_by_side bw (rs ++ [r]) = side_by_side bw rs + r * 2 ^ (bw * N.of_nat (length rs)).
Proof.
  induction rs as [|x rs IH]; [simpl; rewrite N.mul_0_r; simpl; lia|].
  cbn [app side_by_side foldr length]. fold (side_by_side bw (rs ++ [r])). fold (side_by_side bw rs).
  rewrite IH, Nat2N.inj_succ, N.mul_succ_r, N.pow_add_r. lia.
Qed.

Lemma side_by_side_lt bw rs :
  Forall (λ r, r < 2 ^ bw) rs → side_by_side bw rs < 2 ^ (bw * N.of_nat (length rs)).
Proof.
  induction 1 as [|r rs Hr Hrs IH]; [simpl; by rewrite N.mul_0_r|].
  cbn [side_by_side foldr length]. fold (side_by_side bw rs).
  rewrite Nat2N.inj_succ, N.mul_succ_r, N.pow_add_r. nia.
Qed.

Lemma side_by_side_lookup bw rs i r :
  Forall (λ r, r < 2 ^ bw) rs → rs !! i = Some r →
  N.shiftr (side_by_side bw rs) (bw * N.of_nat i) mod 2 ^ bw = r.
Proof.
  intros Hrs. revert i. induction Hrs as [|x rs Hx Hrs IH]; intros i Hi; [done|].
  cbn [side_by_side foldr]. fold (side_by_side bw rs). assert (2 ^ bw ≠ 0) by by apply N.pow_nonzero.
  destruct i as [|i]; simpl in Hi.
  - simplify_eq. rewrite N.mul_0_r, N.shiftr_0_r, N.Div0.mod_add. by apply N.mod_small.
  - rewrite Nat2N.inj_succ, N.mul_succ_r, (N.add_comm (bw * N.of_nat i)), <-N.shiftr_shiftr.
    rewrite (N.shiftr_div_pow2 _ bw), (N.add_comm x), N.div_add_l, N.div_small, N.add_0_r by done.
    by apply IH.
Qed.

(** [v] is above the minimum of its block by less than [2^bw]. *)
Definition in_frame (min_val : i64) (bw : N) (v : i64) : Prop :=
  is_i64 v ∧ (min_val ≤ v)%Z ∧ Z.to_N (v - min_val) < 2 ^ bw.

Definition residual (min_val v : i64) : N := Z.to_N (v - min_val).

Lemma width_mask_ones bw : bw ≤ 64 → width_mask bw = N.ones bw.
Proof.
  intros. unfold width_mask. destruct (N.eqb_spec bw 64) as [->|]; [done|apply ones_shiftl].
Qed.

Lemma residual_ok min_val bw v :
  is_i64 min_val → bw ≤ 64 → in_frame min_val bw v →
  N.land (to_u64 (wrapping_sub v min_val)) (width_mask bw) = residual min_val v ∧
  wrapping_add min_val (to_i64 (residual min_val v)) = v.
Proof.
  intros Hm Hbw (Hv & Hle & Hlt). unfold wrapping_sub, residual.
  assert (Z.to_N (v - min_val) < 2 ^ 64) as H64 by (unfold is_i64 in *; lia).
  rewrite width_mask_ones, N.land_ones, to_u64_iwrap, to_u64_small, N.mod_small by (done || lia).
  split; [done|]. unfold wrapping_add, to_i64. rewrite Z2N.id by lia.
  destruct (Z.ltb_spec (v - min_val) (2 ^ 63)).
  - apply (iwrap_unique _ _ 0); [done|lia].
  - apply (iwrap_unique _ _ 1); [done|lia].
Qed.

Lemma range_u64_ok min_val max_val :
  is_i64 min_val → is_i64 max_val → (min_val ≤ max_val)%Z →
  range_u64 min_val max_val = Z.to_N (max_val - min_val).
Proof.
  intros Hm HM Hle. unfold range_u64, is_i64 in *. f_equal.
  rewrite <-Zminus_mod, Z.mod_mod_divide by (by exists (2 ^ 64)%Z). rewrite Z.mod_small; lia.
Qed.

Lemma bit_width_ok min_val max_val v :
  is_i64 min_val → is_i64 max_val → is_i64 v → (min_val ≤ v ≤ max_val)%Z →
  bit_width_for_range min_val max_val ≤ 64 ∧ in_frame min_val (bit_width_for_range min_val max_val) v.
Proof.
  intros Hm HM Hv Hle. unfold bit_width_for_range. rewrite range_u64_ok by (done || lia).
  set (R := Z.to_N (max_val - min_val)).
  assert (R < 2 ^ 64) by (unfold is_i64 in *; lia).
  assert (Z.to_N (v - min_val) ≤ R) by lia. clearbody R.
  destruct (N.eqb_spec R 0) as [Hz|Hz].
  - split; [lia|]. split_and!; [done|lia|change (2 ^ 0) with 1; lia].
  - destruct (leading_zeros_spec R) as [Hl Hlt]; [done|]. split; [lia|]. split_and!; [done|lia|lia].
Qed.

Lemma foldl_min_max (first : Z) rest v :
  v ∈ first :: rest → (foldl Z.min first rest ≤ v ≤ foldl Z.max first rest)%Z.
Proof.
  revert first v. induction rest as [|x rest IH]; intros first v Hv; simpl.
  - apply list_elem_of_singleton in Hv as ->. lia.
  - assert (∀ w, w ∈ Z.min first x :: rest → (foldl Z.min (Z.min first x) rest ≤ w)%Z) as Hmin by (intros; by apply IH).
    assert (∀ w, w ∈ Z.max first x :: rest → (w ≤ foldl Z.max (Z.max first x) rest)%Z) as Hmax by (intros; by apply IH).
    pose proof (Hmin _ (list_elem_of_here _ _)). pose proof (Hmax _ (list_elem_of_here _ _)).
    apply elem_of_cons in Hv as [->|[->|Hv]%elem_of_cons]; [lia|lia|].
    split; [apply Hmin|apply Hmax]; by apply list_elem_of_further.
Qed.

Lemma foldl_min_max_in (first : Z) rest :
  Forall is_i64 (first :: rest) → is_i64 (foldl Z.min first rest) ∧ is_i64 (foldl Z.max first rest).
Proof.
  revert first. induction rest as [|x rest IH]; intros first [Hf Hr]%Forall_cons_1; [done|].
  apply Forall_cons_1 in Hr as [Hx Hr]. cbn [foldl]. split; apply IH; constructor; try done;
    unfold is_i64 in *; lia.
Qed.

(** ** Packed values *)

Lemma pack_bits_bytes packed off value bw :
  Forall (λ b, b < 256) packed → Forall (λ b, b < 256) (pack_bits packed off value bw).
Proof.
  intros Hb. unfold pack_bits. destruct (bw =? 0); [done|].
  assert (∀ fuel packed bi val remaining, Forall (λ b, b < 256) packed →
    Forall (λ b, b < 256) (pack_rest fuel packed bi val remaining)) as Hrest.
  { intros fuel. induction fuel as [|fuel IH]; intros; [done|]. cbn [pack_rest].
    destruct (8 <=? remaining).
    - apply IH. apply Forall_insert; [done|]. apply (land_ones_lt val 8).
    - destruct (0 <? remaining); [|done]. apply or_at_bytes; [by apply N.mod_lt|done]. }
  apply Hrest, or_at_bytes; [by apply N.mod_lt|done].
Qed.

Lemma pack_values_ok min_val bw packed vs rs :
  is_i64 min_val → bw ≤ 64 → Forall (in_frame min_val bw) vs →
  Forall (λ r, r < 2 ^ bw) rs → Forall (λ b, b < 256) packed → spells packed (side_by_side bw rs) →
  bw * N.of_nat (length rs + length vs) ≤ 8 * N.of_nat (length packed) →
  8 * N.of_nat (length packed) ≤ u64_max →
  ∃ packed', pack_values packed min_val bw (bw * N.of_nat (length rs)) vs = Ok packed' ∧
    length packed' = length packed ∧ Forall (λ b, b < 256) packed' ∧
    spells packed' (side_by_side bw (rs ++ (residual min_val <$> vs))).
Proof.
  intros Hm Hbw. revert packed rs. induction vs as [|v vs IH]; intros packed rs Hvs Hrs Hb Hsp Hlen Hmax.
  { exists packed. by rewrite app_nil_r. }
  apply Forall_cons_1 in Hvs as [Hv Hvs]. cbn [pack_values fmap list_fmap].
  destruct (residual_ok min_val bw v Hm Hbw Hv) as [-> _].
  destruct (pack_bits_spells packed (bw * N.of_nat (length rs)) (residual min_val v) bw (side_by_side bw rs))
    as [Hl Hs]; [done|apply Hv|by apply side_by_side_lt|cbn [length] in Hlen; lia|done|].
  rewrite <-side_by_side_snoc in Hs. rewrite checked_add_ok by (cbn [length] in Hlen; lia).
  replace (bw * N.of_nat (length rs) + bw) with (bw * N.of_nat (length (rs ++ [residual min_val v])))
    by (rewrite length_app; cbn [length]; lia).
  destruct (IH (pack_bits packed (bw * N.of_nat (length rs)) (residual min_val v) bw) (rs ++ [residual min_val v]))
    as (packed' & -> & Hl' & Hb' & Hs').
  - done.
  - apply Forall_app. split; [done|]. constructor; [apply Hv|constructor].
  - by apply pack_bits_bytes.
  - done.
  - rewrite length_app, Hl. cbn [length] in *. lia.
  - by rewrite Hl.
  - exists packed'. rewrite <-app_assoc in Hs'. split_and!; [done|congruence|done|done].
Qed.

Lemma unpack_values_ok n i packed min_val bw rs vs values :
  bw ≤ 64 → Forall (λ b, b < 256) packed → is_i64 min_val → Forall (in_frame min_val bw) vs →
  rs = residual min_val <$> vs → spells packed (side_by_side bw rs) →
  (i + n = length vs)%nat → bw * N.of_nat (length vs) ≤ u64_max →
  unpack_values n packed min_val bw (bw * N.of_nat i) values = Ok (values ++ drop i vs).
Proof.
  intros Hbw Hb Hm Hvs -> Hsp. revert i values. induction n as [|n IH]; intros i values Hi Hmax.
  { rewrite drop_ge by lia. by rewrite app_nil_r. }
  cbn [unpack_values]. destruct (lookup_lt_is_Some_2 vs i) as [v Hv]; [lia|].
  rewrite (unpack_bits_spells _ _ _ _ Hbw Hb Hsp).
  assert (Forall (λ r, r < 2 ^ bw) (residual min_val <$> vs)) as Hrs.
  { apply Forall_fmap. eapply Forall_impl; [exact Hvs|]. by intros x (_ & _ & ?). }
  rewrite (side_by_side_lookup _ _ i (residual min_val v)); [|done|by rewrite list_lookup_fmap, Hv].
  pose proof (proj1 (Forall_lookup _ _) Hvs i v Hv) as Hfr.
  destruct (residual_ok min_val bw v Hm Hbw Hfr) as [_ Hadd].
  assert (N.land (residual min_val v) (width_mask bw) = residual min_val v) as ->.
  { rewrite width_mask_ones, N.land_ones by done. apply N.mod_small, Hfr. }
  rewrite Hadd, checked_add_ok by nia.
  replace (bw * N.of_nat i + bw) with (bw * N.of_nat (S i)) by lia. rewrite IH by lia.
  rewrite <-app_assoc. f_equal. f_equal. symmetry. by apply drop_S.
Qed.

(** ** Blocks *)

(** The bytes [bs] are a block that holds [vs]. *)
Definition block_ok (vs : list i64) (bs : bytes) : Prop :=
  ∃ bw min_val packed,
    bs = to_le 2 (N.of_nat (length vs)) ++ [bw] ++ i64_to_le min_val ++ packed ∧
    (1 ≤ length vs ≤ 1024)%nat ∧ bw ≤ 64 ∧ is_i64 min_val ∧ Forall (in_frame min_val bw) vs ∧
    N.of_nat (length packed) = div_ceil8 (N.of_nat (length vs) * bw) ∧
    Forall (λ b, b < 256) packed ∧ spells packed (side_by_side bw (residual min_val <$> vs)).

Lemma div_ceil8_bounds n : n ≤ 8 * div_ceil8 n < n + 8.
Proof.
  unfold div_ceil8. destruct (div_mod8 (n + 7)) as [H H8]. revert H H8.
  generalize ((n + 7) / 8) ((n + 7) mod 8). lia.
Qed.

Lemma spells_zeros n : spells (replicate n 0) 0.
Proof.
  intros k. unfold bit_at, get_at. rewrite N.bits_0. destruct (replicate n 0 !! _) as [x|] eqn:Hx; [|apply N.bits_0].
  apply lookup_replicate in Hx as [-> _]. apply N.bits_0.
Qed.

(** The frame-of-reference parameters of a block hold every value. *)
Lemma block_frame first rest :
  let vs := first :: rest in
  let min_val := foldl Z.min first rest in
  let bw := bit_width_for_range min_val (foldl Z.max first rest) in
  Forall is_i64 vs → is_i64 min_val ∧ bw ≤ 64 ∧ Forall (in_frame min_val bw) vs.
Proof.
  intros vs min_val bw Hvs. destruct (foldl_min_max_in _ _ Hvs) as [Hm HM].
  assert (∀ v, v ∈ vs → bw ≤ 64 ∧ in_frame min_val bw v) as Hall.
  { intros v Hv. apply bit_width_ok; [done|done|by eapply (proj1 (Forall_forall _ _) Hvs)|by apply foldl_min_max]. }
  split_and!; [done|apply (Hall first), list_elem_of_here|]. apply Forall_forall. intros v Hv. by apply Hall.
Qed.

Lemma encode_block_ok vs out :
  (1 ≤ length vs ≤ 1024)%nat → Forall is_i64 vs → N.of_nat (length out) + 8203 ≤ u32_max →
  ∃ bs, encode_block vs out = Ok (out ++ bs) ∧ block_ok vs bs ∧ N.of_nat (length bs) ≤ 8203.
Proof.
  intros Hlen Hvs Hout. destruct vs as [|first rest]; [simpl in Hlen; lia|].
  destruct (block_frame first rest Hvs) as (Hm & Hbw & Hfr). unfold encode_block.
  set (vs := first :: rest) in *. set (min_val := foldl Z.min first rest) in *.
  set (bw := bit_width_for_range min_val _) in *. clearbody bw min_val.
  assert (N.of_nat (length vs) * bw ≤ 1024 * 64) as Hprod by nia.
  pose proof (div_ceil8_bounds (N.of_nat (length vs) * bw)) as Hceil.
  set (pb := div_ceil8 (N.of_nat (length vs) * bw)) in *. unfold u32_max in Hout.
  unfold BLOCK_SIZE, u16_max, BLOCK_HEADER_SIZE. rewrite (proj2 (N.ltb_ge 1024 _)), (proj2 (N.ltb_ge (2 ^ 16 - 1) _)) by lia.
  unfold checked_mul. rewrite (proj2 (N.leb_le _ u64_max)) by (unfold u64_max; lia). fold pb.
  rewrite checked_add_ok by (unfold u64_max; lia). rewrite checked_add_ok by (unfold u64_max; lia).
  unfold encode_u32_len. rewrite (proj2 (N.leb_le _ u32_max)) by (unfold u32_max; lia).
  destruct (N.eqb_spec bw 0) as [->|Hbw0].
  - exists (to_le 2 (N.of_nat (length vs)) ++ [0] ++ i64_to_le min_val). rewrite <-!app_assoc. split; [done|]. split.
    + exists 0, min_val, []. rewrite app_nil_r. split_and!; try done; try lia.
      replace (side_by_side 0 (residual min_val <$> vs)) with 0; [apply (spells_zeros 0)|].
      assert (Forall (λ r, r < 2 ^ 0) (residual min_val <$> vs)) as Hz.
      { apply Forall_fmap. eapply Forall_impl; [exact Hfr|]. by intros x (_ & _ & ?). }
      apply side_by_side_lt in Hz. rewrite N.mul_0_l in Hz. change (2 ^ 0) with 1 in Hz. lia.
    + rewrite !length_app, length_to_le, length_i64_to_le. simpl. lia.
  - destruct (pack_values_ok min_val bw (replicate (N.to_nat pb) 0) vs []) as (packed & Hpack & Hl & Hb & Hs).
    { done. } { done. } { done. } { constructor. }
    { by apply Forall_replicate. } { apply spells_zeros. }
    { rewrite length_replicate, N2Nat.id. change (length [] + length vs)%nat with (length vs). lia. }
    { rewrite length_replicate, N2Nat.id. unfold u64_max. lia. }
    change (bw * N.of_nat (length [])) with (bw * 0) in Hpack. rewrite N.mul_0_r in Hpack. rewrite Hpack.
    rewrite length_replicate in Hl.
    exists (to_le 2 (N.of_nat (length vs)) ++ [bw] ++ i64_to_le min_val ++ packed). rewrite <-!app_assoc.
    split; [done|]. split.
    + exists bw, min_val, packed. split_and!; try done; lia.
    + rewrite !length_app, length_to_le, length_i64_to_le. simpl. lia.
Qed.

Lemma spells_padding packed n bits :
  Forall (λ b, b < 256) packed → spells packed n → n < 2 ^ bits → N.of_nat (length packed) = div_ceil8 bits →
  bits mod 8 ≠ 0 → ∀ byte, last packed = Some byte → N.ldiff byte (low_mask_u8 (bits mod 8)) = 0.
Proof.
  intros Hb Hsp Hn Hlen Hm byte Hlast. destruct (div_mod8 bits) as [Hbits H8].
  pose proof (div_ceil8_bounds bits) as Hceil. rewrite <-Hlen in Hceil.
  rewrite last_lookup in Hlast. rewrite low_mask_u8_ones by lia.
  revert Hbits H8 Hm. generalize (bits / 8) (bits mod 8). intros q r Hbits H8 Hm.
  apply N.bits_inj. intros i. rewrite N.ldiff_spec, N.bits_0.
  destruct (N.lt_ge_cases i r) as [Hi|Hi]; [rewrite N.ones_spec_low by done; apply andb_false_r|].
  destruct (N.lt_ge_cases i 8) as [Hi8|Hi8].
  - assert (N.testbit byte i = N.testbit n (8 * q + i)) as ->.
    { rewrite <-Hsp. unfold bit_at, get_at. destruct (div8_unique (8 * q + i) q i) as [-> ->]; [done|done|].
      replace (N.to_nat q) with (Nat.pred (length packed)) by lia. by rewrite Hlast. }
    by rewrite (testbit_high n bits) by (done || lia).
  - rewrite (testbit_high byte 8); [done| |done]. by eapply (proj1 (Forall_lookup _ _) Hb).
Qed.

Lemma block_at_ok vs bs pre post :
  block_ok vs bs → N.of_nat (length (pre ++ bs ++ post)) < 2 ^ 63 →
  ∃ bw min_val packed,
    block_at (pre ++ bs ++ post) (N.of_nat (length pre)) (N.of_nat (length vs)) =
      Ok (N.of_nat (length vs), bw, min_val, packed, N.of_nat (length pre + length bs)) ∧
    bw ≤ 64 ∧ is_i64 min_val ∧ Forall (in_frame min_val bw) vs ∧ Forall (λ b, b < 256) packed ∧
    spells packed (side_by_side bw (residual min_val <$> vs)).
Proof.
  intros (bw & min_val & packed & -> & Hlen & Hbw & Hm & Hfr & Hpl & Hb & Hsp) Hmax.
  set (c := N.of_nat (length vs)) in *.
  set (header := to_le 2 c ++ [bw] ++ i64_to_le min_val).
  assert (length header = 11%nat) as Hh by (unfold header; rewrite !length_app, length_to_le, length_i64_to_le; done).
  assert (to_le 2 c ++ [bw] ++ i64_to_le min_val ++ packed = header ++ packed) as Hbs by (unfold header; by rewrite <-!app_assoc).
  rewrite Hbs in *. rewrite <-app_assoc in *. set (data := pre ++ header ++ packed ++ post) in *.
  assert (N.of_nat (length data) ≤ u64_max) as Hu by (unfold u64_max; lia).
  pose proof Hmax as Hmax'. unfold data in Hmax'. rewrite !length_app in Hmax'.
  exists bw, min_val, packed. split; [|by split_and!]. unfold block_at.
  assert (checked_range data (N.of_nat (length pre)) BLOCK_HEADER_SIZE = Ok header) as ->.
  { unfold BLOCK_HEADER_SIZE. change 11 with (N.of_nat 11). rewrite <-Hh. by apply checked_range_app. }
  assert (from_le (field 0 2 header) = c) as ->.
  { change header with ([] ++ header). unfold header. rewrite field_app by (done || apply length_to_le).
    apply from_le_to_le. simpl. lia. }
  assert (get_at 2 header = bw) as -> by done.
  assert (i64_from_le (field 3 8 header) = min_val) as ->.
  { unfold header. rewrite <-(app_nil_r (i64_to_le min_val)), app_assoc.
    rewrite field_app by (rewrite ?length_app, ?length_to_le, ?length_i64_to_le; done). by apply i64_from_to_le. }
  unfold validate_block_shape, BLOCK_SIZE. rewrite N.eqb_refl. cbn [negb orb].
  rewrite (proj2 (N.eqb_neq c 0)), (proj2 (N.ltb_ge 1024 c)), (proj2 (N.ltb_ge 64 bw)) by lia. cbn [orb].
  assert (c * bw ≤ 1024 * 64) by nia. pose proof (div_ceil8_bounds (c * bw)).
  unfold packed_byte_len, validate_padding, checked_mul.
  rewrite (proj2 (N.leb_le (c * bw) u64_max)) by (unfold u64_max; lia). rewrite <-Hpl.
  unfold BLOCK_HEADER_SIZE. rewrite checked_add_ok by (unfold u64_max; lia).
  replace (N.of_nat (length pre) + 11) with (N.of_nat (length (pre ++ header))) by (rewrite length_app; lia).
  assert (checked_range data (N.of_nat (length (pre ++ header))) (N.of_nat (length packed)) = Ok packed) as ->.
  { unfold data. rewrite app_assoc. apply checked_range_app. by rewrite <-app_assoc. }
  assert (side_by_side bw (residual min_val <$> vs) < 2 ^ (c * bw)) as Hn.
  { rewrite N.mul_comm. unfold c. rewrite <-(length_fmap (residual min_val)). apply side_by_side_lt, Forall_fmap.
    eapply Forall_impl; [exact Hfr|]. by intros x (_ & _ & ?). }
  assert (negb (c * bw mod 8 =? 0) && match last packed with
    | Some byte => negb (N.ldiff byte (low_mask_u8 (c * bw mod 8)) =? 0) | None => false end = false) as ->.
  { destruct (N.eqb_spec (c * bw mod 8) 0) as [|Hne]; [done|]. cbn [negb andb].
    destruct (last packed) as [byte|] eqn:Hlast; [|done].
    by rewrite (spells_padding packed _ (c * bw) Hb Hsp Hn Hpl Hne byte Hlast). }
  rewrite checked_add_ok by (rewrite length_app; unfold u64_max; lia). do 2 f_equal.
  rewrite !length_app. lia.
Qed.

Lemma decode_block_ok vs bs pre post values :
  block_ok vs bs → N.of_nat (length (pre ++ bs ++ post)) < 2 ^ 63 →
  decode_block (pre ++ bs ++ post) (N.of_nat (length pre)) values (N.of_nat (length vs)) =
  Ok (values ++ vs, N.of_nat (length pre + length bs)).
Proof.
  intros Hbl Hmax. assert (1 ≤ length vs ≤ 1024)%nat as Hlen by by destruct Hbl as (? & ? & ? & _ & ? & _).
  destruct (block_at_ok vs bs pre post Hbl Hmax) as (bw & min_val & packed & Hat & Hbw & Hm & Hfr & Hb & Hsp).
  unfold decode_block. rewrite Hat, Nat2N.id. destruct (N.eqb_spec bw 0) as [->|].
  - do 2 f_equal. f_equal. clear -Hfr. induction Hfr as [|v vs (_ & Hle & Hlt) _ IH]; [done|].
    cbn [length replicate]. f_equal; [|done]. change (2 ^ 0) with 1 in Hlt. lia.
  - replace (unpack_values (length vs) packed min_val bw 0 values)
      with (unpack_values (length vs) packed min_val bw (bw * N.of_nat 0) values) by (f_equal; lia).
    rewrite (unpack_values_ok _ 0 packed min_val bw (residual min_val <$> vs) vs); try done.
    unfold u64_max. nia.
Qed.

(** ** Frames *)

Lemma chunks_step fuel ws :
  ws ≠ [] → chunks (S fuel) ws = take 1024 ws :: chunks fuel (drop 1024 ws).
Proof. by destruct ws. Qed.

Lemma div_ceil_block_step n : n ≠ 0 → div_ceil_block n = 1 + div_ceil_block (n - 1024).
Proof.
  intros Hn. unfold div_ceil_block, BLOCK_SIZE. change (1024 - 1) with 1023.
  destruct (N.le_gt_cases n 1024) as [Hle|Hgt].
  - replace (n - 1024) with 0 by lia. change ((0 + 1023) / 1024) with 0.
    symmetry. apply (N.div_unique _ _ _ (n - 1)); lia.
  - replace (n + 1023) with ((n - 1024 + 1023) + 1 * 1024) by lia. rewrite N.div_add by done. lia.
Qed.

Lemma length_chunks fuel ws :
  (length ws ≤ fuel)%nat → N.of_nat (length (chunks fuel ws)) = div_ceil_block (N.of_nat (length ws)).
Proof.
  revert ws. induction fuel as [|fuel IH]; intros ws Hf; (destruct (decide (ws = [])) as [->|Hne]; [done|]).
  { by destruct ws; [|simpl in Hf; lia]. }
  rewrite chunks_step by done. assert (length ws ≠ 0%nat) by by destruct ws.
  rewrite div_ceil_block_step by lia. cbn [length]. rewrite Nat2N.inj_succ, IH by (rewrite length_drop; lia).
  rewrite length_drop. replace (N.of_nat (length ws - 1024)) with (N.of_nat (length ws) - 1024) by lia. lia.
Qed.

Lemma encode_blocks_ok fuel ws out :
  (length ws ≤ fuel)%nat → Forall is_i64 ws →
  N.of_nat (length out) + 8203 * div_ceil_block (N.of_nat (length ws)) ≤ u32_max →
  ∃ bss, encode_blocks (chunks fuel ws) out = Ok (out ++ concat bss) ∧ Forall2 block_ok (chunks fuel ws) bss ∧
    N.of_nat (length (concat bss)) ≤ 8203 * div_ceil_block (N.of_nat (length ws)).
Proof.
  revert ws out. induction fuel as [|fuel IH]; intros ws out Hf Hws Hout;
    (destruct (decide (ws = [])) as [->|Hne]; [exists []; rewrite app_nil_r; split_and!; [done|constructor|cbn; lia]|]).
  { by destruct ws; [|simpl in Hf; lia]. }
  assert (length ws ≠ 0%nat) by by destruct ws. rewrite chunks_step by done.
  rewrite div_ceil_block_step in Hout |- * by lia. cbn [encode_blocks].
  destruct (encode_block_ok (take 1024 ws) out) as (bs & -> & Hbl & Hbs);
    [rewrite length_take; lia|by apply Forall_take|lia|].
  destruct (IH (drop 1024 ws) (out ++ bs)) as (bss & -> & Hbls & Hl).
  { rewrite length_drop. lia. } { by apply Forall_drop. }
  { rewrite length_app, length_drop.
    replace (N.of_nat (length ws - 1024)) with (N.of_nat (length ws) - 1024) by lia. lia. }
  exists (bs :: bss). rewrite <-app_assoc. split_and!; [done|by constructor|].
  cbn [concat]. rewrite length_app. rewrite length_drop in Hl.
  replace (N.of_nat (length ws - 1024)) with (N.of_nat (length ws) - 1024) in Hl by lia. lia.
Qed.

Lemma expected_block_count_ok total idx :
  total ≤ MAX_VALUES → 1024 * idx ≤ total → expected_block_count total idx = Ok (N.min (total - 1024 * idx) 1024).
Proof.
  intros Ht Hi. unfold expected_block_count, checked_mul, BLOCK_SIZE, MAX_VALUES, u64_max in *.
  rewrite N.mul_comm. rewrite (proj2 (N.leb_le _ _)), (proj2 (N.ltb_ge _ _)) by lia. done.
Qed.

Lemma decode_blocks_ok fuel ws bss pre total idx values :
  (length ws ≤ fuel)%nat → Forall2 block_ok (chunks fuel ws) bss →
  total = 1024 * idx + N.of_nat (length ws) → total ≤ MAX_VALUES →
  N.of_nat (length (pre ++ concat bss)) < 2 ^ 63 →
  decode_blocks (length (chunks fuel ws)) (pre ++ concat bss) total idx (N.of_nat (length pre)) values =
  Ok (values ++ ws, N.of_nat (length (pre ++ concat bss))).
Proof.
  revert ws bss pre idx values. induction fuel as [|fuel IH]; intros ws bss pre idx values Hf Hbl Ht Hmax Hlen;
    (destruct (decide (ws = [])) as [->|Hne]; [inversion Hbl; subst; cbn; by rewrite !app_nil_r|]).
  { by destruct ws; [|simpl in Hf; lia]. }
  assert (length ws ≠ 0%nat) by by destruct ws. rewrite chunks_step in Hbl |- * by done.
  apply Forall2_cons_inv_l in Hbl as (bs & bss' & Hbs & Hbl & ->). cbn [concat decode_blocks length] in *.
  rewrite expected_block_count_ok by lia.
  replace (N.min (total - 1024 * idx) 1024) with (N.of_nat (length (take 1024 ws))) by (rewrite length_take; lia).
  rewrite (decode_block_ok _ _ _ _ _ Hbs) by done.
  rewrite <-length_app, app_assoc. destruct (decide (length ws ≤ 1024)%nat) as [Hle|Hgt].
  - rewrite (drop_ge ws) in Hbl |- * by done. assert (chunks fuel [] = []) as Hc by by destruct fuel.
    rewrite Hc in *. inversion Hbl; subst. cbn. by rewrite app_nil_r, take_ge.
  - rewrite IH; [|rewrite length_drop; lia|done|rewrite length_drop; lia|done|by rewrite <-app_assoc].
    by rewrite <-app_assoc, take_drop.
Qed.

Lemma fastlanes_header total blocks rest :
  total ≤ MAX_VALUES → blocks = div_ceil_block total → N.of_nat (length rest) < 2 ^ 62 →
  parse_header ((to_le 4 total ++ to_le 2 blocks) ++ rest) = Ok (total, blocks).
Proof.
  intros Ht -> Hrest. unfold parse_header. set (h := to_le 4 total ++ to_le 2 (div_ceil_block total)).
  assert (length h = 6%nat) as Hh by (unfold h; by rewrite length_app, !length_to_le).
  assert (checked_range (h ++ rest) 0 GLOBAL_HEADER_SIZE = Ok h) as ->.
  { pose proof (checked_range_app [] h rest) as Hr. cbn [app length] in Hr. rewrite Hh in Hr. apply Hr.
    rewrite length_app, Hh. unfold u64_max. lia. }
  assert (div_ceil_block total < 2 ^ 16) as Hb.
  { unfold div_ceil_block, BLOCK_SIZE, MAX_VALUES in *. apply N.Div0.div_lt_upper_bound. lia. }
  unfold h. rewrite count_field by done.
  assert (from_le (field 4 2 (to_le 4 total ++ to_le 2 (div_ceil_block total))) = div_ceil_block total) as ->.
  { rewrite <-(app_nil_r (to_le 2 _)), field_app by apply length_to_le. by apply from_le_to_le. }
  pose proof (checked_capacity_ok total Ht) as Hcap. unfold checked_capacity in Hcap.
  destruct (checked_mul total 8) as [b|]; [|done]. destruct (decoded_len b); [|done].
  by rewrite N.eqb_refl.
Qed.

Lemma checked_value_bytes n : n ≤ MAX_VALUES → ∃ b, checked_mul n 8 = Ok b ∧ decoded_len b = Ok b.
Proof.
  intros Hn. unfold checked_mul, decoded_len, MAX_VALUES, MAX_DECODED_BYTES, u64_max in *.
  rewrite (proj2 (N.leb_le _ _)) by lia. eexists. split; [done|]. by rewrite (proj2 (N.ltb_ge _ _)) by lia.
Qed.

Lemma fastlanes_encode_ok vs :
  Forall is_i64 vs → N.of_nat (length vs) ≤ MAX_VALUES →
  ∃ bss, let blocks := div_ceil_block (N.of_nat (length vs)) in
    let header := to_le 4 (N.of_nat (length vs)) ++ to_le 2 blocks in
    fastlanes_encode vs = Ok (header ++ concat bss) ∧ Forall2 block_ok (chunks (length vs) vs) bss ∧
    N.of_nat (length (concat bss)) < 2 ^ 32.
Proof.
  intros Hvs Hc. unfold fastlanes_encode. set (n := N.of_nat (length vs)) in *.
  destruct (checked_value_bytes n Hc) as (b & -> & ->).
  pose proof (encode_value_count_ok n Hc) as Hn. unfold encode_value_count in Hn.
  rewrite (proj2 (validate_value_count_ok n) Hc) in Hn. rewrite Hn.
  assert (div_ceil_block n ≤ 8192) as Hb.
  { unfold div_ceil_block, BLOCK_SIZE, MAX_VALUES in *. apply N.lt_succ_r, N.Div0.div_lt_upper_bound. lia. }
  rewrite (proj2 (N.ltb_ge u16_max _)) by (unfold u16_max; lia).
  unfold checked_mul. rewrite (proj2 (N.leb_le (n * 5) u64_max)) by (unfold MAX_VALUES, u64_max in *; lia).
  rewrite checked_add_ok by (unfold GLOBAL_HEADER_SIZE, MAX_VALUES, u64_max in *; lia).
  destruct (encode_blocks_ok (length vs) vs (to_le 4 n ++ to_le 2 (div_ceil_block n))) as (bss & -> & Hbl & Hl).
  - done.
  - done.
  - rewrite length_app, !length_to_le. fold n. unfold u32_max. lia.
  - exists bss. split_and!; [done|done|]. fold n in Hl. lia.
Qed.

(** Every list of up to 2^23 values encodes to a FastLanes frame, and
    that frame decodes to exactly those values. *)
Theorem fastlanes_roundtrip vs :
  Forall is_i64 vs → N.of_nat (length vs) ≤ MAX_VALUES →
  ∃ data, fastlanes_encode vs = Ok data ∧ fastlanes_decode data = Ok vs.
Proof.
  intros Hvs Hc. destruct (fastlanes_encode_ok vs Hvs Hc) as (bss & He & Hbl & Hl). cbv zeta in He.
  eexists. split; [exact He|]. clear He. unfold fastlanes_decode.
  set (n := N.of_nat (length vs)) in *. set (h := to_le 4 n ++ to_le 2 (div_ceil_block n)).
  assert (length h = 6%nat) as Hh by (unfold h; by rewrite length_app, !length_to_le).
  unfold GLOBAL_HEADER_SIZE. rewrite (proj2 (N.ltb_ge _ 6)) by (rewrite length_app; lia).
  assert (parse_header (h ++ concat bss) = Ok (n, div_ceil_block n)) as -> by (apply fastlanes_header; done || lia).
  destruct (N.eqb_spec n 0) as [Hz|Hz].
  { destruct vs; [|unfold n in Hz; simpl in Hz; lia]. inversion Hbl; subst. cbn [concat].
    by rewrite app_nil_r, Hh. }
  rewrite checked_capacity_ok by done. change 6 with (N.of_nat 6) at 1. rewrite <-Hh at 1.
  unfold n at 1. rewrite <-length_chunks with (fuel := length vs) by done. rewrite Nat2N.id.
  rewrite (decode_blocks_ok _ _ _ _ n 0); [|done|done|unfold n; lia|done|rewrite length_app; lia].
  cbn [app]. by rewrite !N.eqb_refl.
Qed.

(** ** Reading part of a frame *)

(** Unpacking appends to what is already there. *)
Lemma unpack_values_app n packed min_val bw off values :
  unpack_values n packed min_val bw off values =
  match unpack_values n packed min_val bw off [] with
  | Ok vs => Ok (values ++ vs)
  | Err e => Err e
  end.
Proof.
  revert off values. induction n as [|n IH]; intros off values; [cbn; by rewrite app_nil_r|].
  cbn [unpack_values]. destruct (checked_add off bw) as [off'|]; [|done].
  rewrite IH, (IH _ ([] ++ _)). destruct (unpack_values n _ _ _ off' []); [|done]. by rewrite <-app_assoc.
Qed.

Lemma unpack_values_length n packed min_val bw off vs :
  unpack_values n packed min_val bw off [] = Ok vs → length vs = n.
Proof.
  revert off vs. induction n as [|n IH]; intros off vs; [by intros [= <-]|].
  cbn [unpack_values]. destruct (checked_add off bw) as [off'|]; [|done]. rewrite unpack_values_app.
  destruct (unpack_values n _ _ _ off' []) as [ws|] eqn:Hws; [|done]. intros [= <-].
  simpl. f_equal. by eapply IH.
Qed.

Lemma decode_block_app data off values e :
  decode_block data off values e =
  match decode_block data off [] e with
  | Ok (vs, off') => Ok (values ++ vs, off')
  | Err err => Err err
  end.
Proof.
  unfold decode_block. destruct (block_at data off e) as [[[[[c bw] m] packed] next]|]; [|done].
  destruct (bw =? 0); [done|]. rewrite unpack_values_app. by destruct (unpack_values _ _ _ _ _ []).
Qed.

(** What decodes can be skipped to the same place, and holds the values the
    frame announces. *)
Lemma decode_block_inv data off e vs off' :
  decode_block data off [] e = Ok (vs, off') →
  skip_block data off e = Ok off' ∧ N.of_nat (length vs) = e.
Proof.
  unfold decode_block, skip_block. destruct (block_at data off e) as [[[[[c bw] m] packed] next]|] eqn:Hb; [|done].
  assert (c = e) as Hce.
  { revert Hb. unfold block_at. destruct (checked_range _ _ _) as [header|]; [|done].
    unfold validate_block_shape. destruct (N.eqb_spec (from_le (field 0 2 header)) e) as [Heq|]; [|done].
    cbn [negb orb]. intros Hb. repeat (case_match; try done). congruence. }
  destruct (bw =? 0).
  - intros [= <- <-]. split; [done|]. cbn [app]. rewrite length_replicate. lia.
  - destruct (unpack_values _ _ _ _ _ []) as [ws|] eqn:Hws; [|done]. intros [= <- <-]. split; [done|].
    apply unpack_values_length in Hws. lia.
Qed.

Lemma decode_blocks_app n data total idx off values :
  decode_blocks n data total idx off values =
  match decode_blocks n data total idx off [] with
  | Ok (vs, off') => Ok (values ++ vs, off')
  | Err e => Err e
  end.
Proof.
  revert idx off values. induction n as [|n IH]; intros idx off values; [cbn; by rewrite app_nil_r|].
  cbn [decode_blocks]. destruct (expected_block_count total idx) as [e|]; [|done]. rewrite decode_block_app.
  destruct (decode_block data off [] e) as [[vs off']|]; [|done].
  rewrite IH, (IH _ _ vs). destruct (decode_blocks n data total _ off' []) as [[ws off'']|]; [|done].
  by rewrite app_assoc.
Qed.

(** Decoding [n] blocks from block [idx] of a frame of [total] values yields
    the values of those blocks, and skipping them leads to the same place. *)
Lemma decode_blocks_inv n data total idx off vs off' :
  total ≤ MAX_VALUES → decode_blocks n data total idx off [] = Ok (vs, off') →
  skip_blocks n data total idx off = Ok off' ∧
  N.of_nat (length vs) = N.min (1024 * N.of_nat n) (total - 1024 * idx).
Proof.
  intros Ht. revert idx off vs. induction n as [|n IH]; intros idx off vs; cbn [decode_blocks skip_blocks].
  { intros [= <- <-]. split; [done|]. cbn [length]. lia. }
  destruct (expected_block_count total idx) as [e|] eqn:He; [|done].
  assert (1024 * idx ≤ total) as Hidx.
  { revert He. unfold expected_block_count, checked_mul, BLOCK_SIZE.
    destruct (_ <=? u64_max); [|done]. destruct (N.ltb_spec total (idx * 1024)); [done|lia]. }
  rewrite expected_block_count_ok in He by done. injection He as <-.
  destruct (decode_block data off [] _) as [[ws off1]|] eqn:Hd; [|done]. apply decode_block_inv in Hd as [-> Hl].
  rewrite decode_blocks_app. destruct (decode_blocks n data total (idx + 1) off1 []) as [[ws' off2]|] eqn:Hd; [|done].
  intros [= <- <-]. apply IH in Hd as [-> Hl']. split; [done|]. rewrite length_app. lia.
Qed.

Lemma decode_blocks_split a b data total idx off vs off' :
  decode_blocks (a + b) data total idx off [] = Ok (vs, off') →
  ∃ vs1 vs2 mid, vs = vs1 ++ vs2 ∧ decode_blocks a data total idx off [] = Ok (vs1, mid) ∧
    decode_blocks b data total (idx + N.of_nat a) mid [] = Ok (vs2, off').
Proof.
  revert idx off vs. induction a as [|a IH]; intros idx off vs Hd.
  { exists [], vs, off. split_and!; [done|done|]. by rewrite N.add_0_r. }
  cbn [decode_blocks Nat.add] in *. destruct (expected_block_count total idx) as [e|]; [|done].
  destruct (decode_block data off [] e) as [[ws off1]|]; [|done]. rewrite decode_blocks_app in Hd.
  destruct (decode_blocks (a + b) data total (idx + 1) off1 []) as [[us off2]|] eqn:Hd'; [|done].
  injection Hd as <- <-. apply IH in Hd' as (vs1 & vs2 & mid & -> & Ha & Hb).
  exists (ws ++ vs1), vs2, mid. rewrite decode_blocks_app, Ha.
  replace (idx + N.of_nat (S a)) with (idx + 1 + N.of_nat a) by lia. split_and!; [by rewrite app_assoc|done|done].
Qed.

(** What a successful decode of the whole frame says of its parts. *)
Lemma fastlanes_decode_inv data vs :
  fastlanes_decode data = Ok vs → let n := N.of_nat (length vs) in
  (N.of_nat (length data) <? GLOBAL_HEADER_SIZE) = false ∧ parse_header data = Ok (n, div_ceil_block n) ∧
  n ≤ MAX_VALUES ∧
  decode_blocks (N.to_nat (div_ceil_block n)) data n 0 GLOBAL_HEADER_SIZE [] =
    Ok (vs, N.of_nat (length data)) ∧
  validate_frame data n (div_ceil_block n) = Ok ().
Proof.
  unfold fastlanes_decode. destruct (_ <? GLOBAL_HEADER_SIZE) eqn:Hh; [done|].
  destruct (parse_header data) as [[total blocks]|] eqn:Hp; [|done].
  assert (total ≤ MAX_VALUES ∧ blocks = div_ceil_block total) as [Ht ->].
  { revert Hp. unfold parse_header. destruct (checked_range _ _ _) as [header|]; [|done].
    destruct (u32_to_usize _) as [tc|]; [|done]. destruct (checked_mul tc 8) as [b|] eqn:Hm; [|done].
    destruct (decoded_len b) eqn:Hd; [|done].
    destruct (N.eqb_spec (from_le (field 4 2 header)) (div_ceil_block tc)) as [Heq|]; [|done].
    intros [= <- <-]. split; [|done]. apply validate_value_count_ok. unfold validate_value_count.
    by rewrite Hm, Hd. }
  destruct (N.eqb_spec total 0) as [->|Hne].
  { destruct (N.eqb_spec (N.of_nat (length data)) GLOBAL_HEADER_SIZE) as [Hl|]; [|done]. intros [= <-].
    split_and!; [done..|by rewrite Hl|]. unfold validate_frame. cbn. by rewrite Hl. }
  rewrite checked_capacity_ok by done.
  destruct (decode_blocks _ _ _ _ _ _) as [[ws off]|] eqn:Hd; [|done].
  destruct (N.eqb_spec off (N.of_nat (length data))) as [->|]; [|done].
  destruct (N.eqb_spec (N.of_nat (length ws)) total) as [<-|]; [|done]. intros [= <-].
  split_and!; [done|done|done|done|]. unfold validate_frame.
  apply decode_blocks_inv in Hd as [-> _]; [|done]. by rewrite N.eqb_refl.
Qed.

Lemma div_ceil_block_lt n k : k < div_ceil_block n → 1024 * k < n.
Proof.
  unfold div_ceil_block, BLOCK_SIZE. change (1024 - 1) with 1023. intros Hk.
  pose proof (N.div_mod' (n + 1023) 1024) as Hd. pose proof (N.mod_lt (n + 1023) 1024 ltac:(done)) as Hm.
  revert Hk Hd Hm. generalize ((n + 1023) / 1024) ((n + 1023) mod 1024). lia.
Qed.

(** Blocks [s] to [e] of a frame, and where they start. *)
Lemma decode_blocks_range data vs s e :
  let n := N.of_nat (length vs) in
  n ≤ MAX_VALUES → s < e → e ≤ div_ceil_block n →
  decode_blocks (N.to_nat (div_ceil_block n)) data n 0 GLOBAL_HEADER_SIZE [] = Ok (vs, N.of_nat (length data)) →
  ∃ off off', skip_blocks (N.to_nat s) data n 0 GLOBAL_HEADER_SIZE = Ok off ∧
    decode_blocks (N.to_nat (e - s)) data n s off [] =
      Ok (take (N.to_nat (1024 * (e - s))) (drop (N.to_nat (1024 * s)) vs), off').
Proof.
  intros n Hn Hse He Hd. pose proof (div_ceil_block_lt n s ltac:(lia)) as Hs.
  replace (N.to_nat (div_ceil_block n))
    with (N.to_nat s + (N.to_nat (e - s) + N.to_nat (div_ceil_block n - e)))%nat in Hd by lia.
  clear He. apply decode_blocks_split in Hd as (v1 & v23 & off1 & Hvs & H1 & H23).
  rewrite N2Nat.id, N.add_0_l in H23.
  apply decode_blocks_split in H23 as (v2 & v3 & off2 & -> & H2 & H3).
  apply decode_blocks_inv in H1 as [Hskip1 Hl1]; [|done]. pose proof H2 as H2'.
  apply decode_blocks_inv in H2' as [_ Hl2]; [|done]. apply decode_blocks_inv in H3 as [_ Hl3]; [|done].
  exists off1, off2. split; [done|]. rewrite H2. do 2 f_equal. rewrite Hvs.
  rewrite drop_app_length' by lia.
  assert (n = N.of_nat (length v1 + (length v2 + length v3))) as Hn' by (unfold n; by rewrite Hvs, !length_app).
  clearbody n. destruct (decide (length v2 = N.to_nat (1024 * (e - s)))) as [Hl|Hl].
  - by rewrite take_app_length'.
  - assert (length v3 = 0%nat) as ->%nil_length_inv by lia. rewrite app_nil_r. symmetry. apply take_ge. lia.
Qed.

Lemma selected_count_ok n total idx count :
  total ≤ MAX_VALUES → 1024 * (idx + N.of_nat n) < total + 1024 → count ≤ 1024 * idx →
  selected_count n total idx count = Ok (count + N.min (1024 * N.of_nat n) (total - 1024 * idx)).
Proof.
  intros Ht. revert idx count. induction n as [|n IH]; intros idx count Hn Hc; cbn [selected_count].
  { f_equal. lia. }
  rewrite expected_block_count_ok by lia. unfold MAX_VALUES in *.
  rewrite checked_add_ok by (unfold u64_max; lia). rewrite IH by lia. f_equal. lia.
Qed.

(** On every frame that decodes, reading a range of blocks or a single
    block yields exactly the corresponding slice of the decoded values. *)
Theorem fastlanes_random_access data vs s e :
  fastlanes_decode data = Ok vs → s < e → e ≤ div_ceil_block (N.of_nat (length vs)) →
  block_count data = Ok (div_ceil_block (N.of_nat (length vs))) ∧
  decode_block_range data s e =
    Ok (take (N.to_nat (1024 * (e - s))) (drop (N.to_nat (1024 * s)) vs)) ∧
  decode_single_block data s = Ok (take 1024 (drop (N.to_nat (1024 * s)) vs)).
Proof.
  intros Hd Hse He. destruct (fastlanes_decode_inv data vs Hd) as (Hh & Hp & Hn & Hb & Hv).
  unfold block_count, decode_block_range, decode_single_block. rewrite Hh, Hp, Hv.
  set (n := N.of_nat (length vs)) in *. set (blocks := div_ceil_block n) in *.
  rewrite (proj2 (N.leb_gt blocks s)), (proj2 (N.ltb_ge blocks e)), (proj2 (N.leb_gt e s)) by lia. cbn [orb].
  pose proof (div_ceil_block_lt n s ltac:(lia)). pose proof (div_ceil_block_lt n (e - 1) ltac:(lia)).
  split; [done|]. split.
  - destruct (decode_blocks_range data vs s e) as (off & off' & Hskip & Hdec); [done..|].
    fold n in Hskip, Hdec. rewrite Hskip, selected_count_ok by lia. rewrite N.add_0_l.
    set (c := N.min _ _). assert (c ≤ MAX_VALUES) as Hc by lia.
    destruct (checked_value_bytes c Hc) as (b & -> & ->). rewrite checked_capacity_ok by done. by rewrite Hdec.
  - destruct (decode_blocks_range data vs s (s + 1)) as (off & off' & Hskip & Hdec); [done|lia|fold n blocks; lia|done|].
    fold n in Hskip, Hdec. rewrite Hskip.
    replace (N.to_nat (s + 1 - s)) with 1%nat in Hdec by lia.
    replace (N.to_nat (1024 * (s + 1 - s))) with 1024%nat in Hdec by lia. cbn [decode_blocks] in Hdec.
    destruct (expected_block_count n s) as [ec|] eqn:Hec; [|done].
    rewrite checked_capacity_ok.
    + destruct (decode_block data off [] ec) as [[ws off1]|]; [|done]. injection Hdec as -> _. done.
    + rewrite expected_block_count_ok in Hec by lia. injection Hec as <-. lia.
Qed.

(** ** The block iterator *)

(** Drains the iterator; every call either ends it or takes a block. *)
Fixpoint iterator_collect (fuel : nat) (it : BlockIterator) : list (result CodecError (list i64)) :=
  match fuel with
  | O => []
  | S fuel =>
      match iterator_next it with
      | (_, None) => []
      | (it, Some r) => r :: iterator_collect fuel it
      end
  end.

Lemma iterator_collect_ok blocks fuel data total vs idx off off' :
  N.of_nat (length vs) = total - 1024 * idx → total ≤ MAX_VALUES → (length vs ≤ fuel)%nat →
  N.of_nat blocks = div_ceil_block (N.of_nat (length vs)) →
  decode_blocks blocks data total idx off [] = Ok (vs, off') →
  iterator_collect (S blocks)
    {| bi_data := data; bi_offset := off; bi_total_count := total;
       bi_blocks_remaining := N.of_nat blocks; bi_current_block := idx |} =
  Ok <$> chunks fuel vs.
Proof.
  revert fuel vs idx off. induction blocks as [|blocks IH]; intros fuel vs idx off Hlen Ht Hf Hb Hd.
  { simpl in Hd. injection Hd as <- _. by destruct fuel. }
  destruct (decide (vs = [])) as [->|Hne]; [done|].
  assert (length vs ≠ 0%nat) by by destruct vs. destruct fuel as [|fuel]; [lia|].
  rewrite chunks_step by done. rewrite div_ceil_block_step in Hb by lia.
  cbn [iterator_collect]. unfold iterator_next at 1. cbn [bi_blocks_remaining bi_total_count bi_current_block bi_data bi_offset].
  rewrite (proj2 (N.eqb_neq _ 0)) by lia. change (S blocks) with (1 + blocks)%nat in Hd.
  apply decode_blocks_split in Hd as (v1 & v2 & mid & Hvs & H1 & H2). pose proof H1 as H1'.
  apply decode_blocks_inv in H1' as [_ Hl1]; [|done]. cbn [decode_blocks] in H1.
  destruct (expected_block_count total idx) as [ec|]; [|done].
  destruct (decode_block data off [] ec) as [[ws off1]|]; [|done]. injection H1 as -> ->.
  assert (v1 = take 1024 vs ∧ v2 = drop 1024 vs) as [-> ->].
  { rewrite Hvs. apply decode_blocks_inv in H2 as [_ Hl2]; [|done].
    pose proof (f_equal length Hvs) as Hlen'. rewrite length_app in Hlen'.
    destruct (decide (length v1 = 1024%nat)) as [Hl|Hl]; [by rewrite take_app_length', drop_app_length'|].
    assert (length v2 = 0%nat) as ->%nil_length_inv by lia. rewrite app_nil_r, take_ge, drop_ge by lia. done. }
  cbn [fmap list_fmap]. f_equal.
  replace (N.of_nat (S blocks) - 1) with (N.of_nat blocks) by lia.
  apply (IH _ _ (idx + 1) mid); [rewrite length_drop; lia|done|rewrite length_drop; lia| |done].
  rewrite length_drop. replace (N.of_nat (length vs - 1024)) with (N.of_nat (length vs) - 1024) by lia. lia.
Qed.

(** On every frame that decodes, the block iterator yields the decoded
    values in blocks of 1024, without an error, and then ends. *)
Theorem block_iterator_complete data vs :
  fastlanes_decode data = Ok vs →
  ∃ it, block_iterator_new data = Ok it ∧
    iterator_collect (S (N.to_nat (bi_blocks_remaining it))) it = Ok <$> chunks (length vs) vs ∧
    concat (chunks (length vs) vs) = vs.
Proof.
  intros Hd. destruct (fastlanes_decode_inv data vs Hd) as (Hh & Hp & Hn & Hb & Hv).
  unfold block_iterator_new. rewrite Hh, Hp, Hv. eexists. split; [done|]. cbn [bi_blocks_remaining]. split.
  - rewrite <-(N2Nat.id (div_ceil_block _)) at 2.
    eapply iterator_collect_ok; [lia|done|done|by rewrite N2Nat.id|exact Hb].
  - clear. generalize (le_n (length vs)). generalize (length vs) at 2 3. intros fuel. revert vs.
    induction fuel as [|fuel IH]; intros vs Hf; (destruct (decide (vs = [])) as [->|Hne]; [done|]).
    { by destruct vs; [|simpl in Hf; lia]. }
    rewrite chunks_step by done. cbn [concat]. rewrite IH, take_drop; [done|]. rewrite length_drop.
    assert (length vs ≠ 0%nat) by by destruct vs. lia.
Qed.
