(* ===== verification/Rans.v ===== *)
(** * Rans: the interleaved rANS entropy coder

    Model of [nodedb-codec/src/rans.rs]. Four streams take every fourth byte;
    each has a 32-bit state and a byte stack. The encoder walks the input
    backwards, the decoder forwards. The [f64] quotient that scales a
    frequency is computed exactly, as IEEE 754 rounds it. *)

From Stdlib Require Import Lia ZArith.
From stdpp Require Import base option list.
From S2P Require Import Prelude Codec.

Definition NUM_STREAMS : nat := 4.
Definition PROB_BITS : N := 14.
Definition PROB_SCALE : u32 := N.shiftl 1 PROB_BITS.
Definition RANS_L : u32 := N.shiftl 1 23.
Definition RANS_STATE_UPPER_BOUND : u32 := N.shiftl RANS_L 8.
Definition FREQ_TABLE_SIZE : usize := 256 * 4.
Definition RANS_HEADER_SIZE : usize := 4 + FREQ_TABLE_SIZE + 4.

(** ** Frequencies *)

(** [freqs[b as usize] += 1] for every byte. *)
Definition count_freqs (data : bytes) : list u32 :=
  foldl (λ freqs b, alter N.succ (N.to_nat b) freqs) (replicate 256 0) data.

(** [n / d] to the nearest integer, ties to even. *)
Definition round_half_even (n d : N) : N :=
  let q := n / d in
  let r := n mod d in
  if 2 * r <? d then q
  else if d <? 2 * r then q + 1
  else if N.even q then q else q + 1.

(** The binary exponent that puts [a * 2^e / b] in [[2^52, 2^53)]. *)
Definition quotient_shift (a b : N) : N :=
  let e := 53 + N.size b - N.size a in
  if 2 ^ 53 <=? a * 2 ^ e / b then e - 1 else e.

(** [(a as f64 / b as f64 * PROB_SCALE as f64).round() as u32] for
    [0 < a <= b]: the quotient is rounded to 53 bits, the product with a power
    of two is exact, and [round] takes ties away from zero. *)
Definition scale_f64 (a b : N) : u32 :=
  let e := quotient_shift a b in
  let m := round_half_even (a * 2 ^ e) b in
  (2 * m * PROB_SCALE + 2 ^ e) / (2 * 2 ^ e).

(** The index of the last maximal element that satisfies [keep], as
    [filter(..).max_by_key(..)] finds it. *)
Fixpoint last_max (keep : N → bool) (i : nat) (best : option (nat * N)) (l : list N)
    : option (nat * N) :=
  match l with
  | [] => best
  | f :: l =>
      let best :=
        if keep f
        then match best with
             | Some (_, m) => if m <=? f then Some (i, f) else best
             | None => Some (i, f)
             end
        else best in
      last_max keep (S i) best l
  end.

Definition max_idx (keep : N → bool) (norm : list u32) : nat :=
  match last_max keep 0 None norm with Some (i, _) => i | None => 0 end.

(** The two [while] loops of [normalize_frequencies]; each round moves the sum
    by one. *)
Fixpoint reduce_loop (fuel : nat) (norm : list u32) (sum : u32) : list u32 * u32 :=
  match fuel with
  | O => (norm, sum)
  | S fuel =>
      if PROB_SCALE <? sum
      then reduce_loop fuel (alter N.pred (max_idx (λ f, 1 <? f) norm) norm) (sum - 1)
      else (norm, sum)
  end.

Fixpoint raise_loop (fuel : nat) (norm : list u32) (sum : u32) : list u32 * u32 :=
  match fuel with
  | O => (norm, sum)
  | S fuel =>
      if sum <? PROB_SCALE
      then raise_loop fuel (alter N.succ (max_idx (λ _, true) norm) norm) (sum + 1)
      else (norm, sum)
  end.

Definition normalize_frequencies (freqs : list u32) (total : usize) : list u32 :=
  let norm := (λ f, if 0 <? f then N.max (scale_f64 f total) 1 else 0) <$> freqs in
  let sum := foldr N.add 0 norm in
  if 0 <? sum then
    let '(norm, sum) := reduce_loop (N.to_nat (sum - PROB_SCALE)) norm sum in
    (raise_loop (N.to_nat (PROB_SCALE - sum)) norm sum).1
  else norm.

(** The running sums, [cum[0]] to [cum[256]]. *)
Fixpoint build_cum_table (acc : u32) (freqs : list u32) : list u32 :=
  acc :: match freqs with [] => [] | f :: freqs => build_cum_table (acc + f) freqs end.

(** [table[start..end]] filled with [v]. *)
Definition fill (start end_ : nat) (v : u8) (table : list u8) : list u8 :=
  take start table ++ replicate (end_ - start) v ++ drop end_ table.

Definition build_decode_table (cum_freqs : list u32) : list u8 :=
  foldl (λ table sym,
      fill (N.to_nat (default 0 (cum_freqs !! sym))) (N.to_nat (default 0 (cum_freqs !! S sym)))
        (N.of_nat sym) table)
    (replicate (N.to_nat PROB_SCALE) 0) (seq 0 256).

Fixpoint validate_total (total : u32) (freqs : list u32) : result CodecError u32 :=
  match freqs with
  | [] => Ok total
  | f :: freqs => if total + f <=? u32_max then validate_total (total + f) freqs else Err Corrupt
  end.

Definition validate_frequencies (freqs : list u32) : result CodecError () :=
  let? total := validate_total 0 freqs in
  if negb (total =? PROB_SCALE) then Err Corrupt else Ok ().

(** ** Symbols *)

(** A stream: its state and the bytes pushed so far. *)
Record RansStream := { rs_state : u32; rs_bytes : bytes }.

(** The [while *state >= max_state]; a 32-bit state has four bytes. *)
Fixpoint encode_renorm (fuel : nat) (max_state : u32) (s : RansStream) : RansStream :=
  match fuel with
  | O => s
  | S fuel =>
      if max_state <=? rs_state s
      then encode_renorm fuel max_state
             {| rs_state := N.shiftr (rs_state s) 8;
                rs_bytes := rs_bytes s ++ [N.land (rs_state s) 0xFF] |}
      else s
  end.

Definition rans_encode_symbol (s : RansStream) (start freq : u32) : RansStream :=
  let max_state := N.shiftl (N.shiftr RANS_L PROB_BITS) 8 * freq in
  let s := encode_renorm 4 max_state s in
  let x := rs_state s in
  {| rs_state := N.shiftl (x / freq) PROB_BITS + x mod freq + start; rs_bytes := rs_bytes s |}.

Definition rans_decode_symbol (state : u32) (lookup : list u8) (cum_freqs sym_freqs : list u32)
    : u8 * u32 :=
  let slot := N.land state (PROB_SCALE - 1) in
  let sym := default 0 (lookup !! N.to_nat slot) in
  let start := default 0 (cum_freqs !! N.to_nat sym) in
  let freq := default 0 (sym_freqs !! N.to_nat sym) in
  (sym, freq * N.shiftr state PROB_BITS + slot - start).

(** The [while state < RANS_L && *pos > 0], structural in [pos]. *)
Fixpoint rans_decode_renorm (state : u32) (stream : bytes) (pos : nat) : u32 * nat :=
  match pos with
  | O => (state, O)
  | S pos' =>
      if state <? RANS_L
      then rans_decode_renorm (N.lor (N.shiftl state 8 mod 2 ^ 32) (default 0 (stream !! pos'))) stream pos'
      else (state, pos)
  end.

(** ** Encoding *)

(** One round of the reverse loop: byte [b] at index [i]. *)
Definition encode_step (cum_freqs sym_freqs : list u32) (streams : list RansStream) (i : nat) (b : u8)
    : list RansStream :=
  let freq := default 0 (sym_freqs !! N.to_nat b) in
  let start := default 0 (cum_freqs !! N.to_nat b) in
  if freq =? 0 then streams
  else alter (λ s, rans_encode_symbol s start freq) (i mod NUM_STREAMS)%nat streams.

(** The reverse loop over [data], whose first byte has index [i]. *)
Fixpoint encode_rev (cum_freqs sym_freqs : list u32) (i : nat) (data : bytes) : list RansStream :=
  match data with
  | [] => replicate NUM_STREAMS {| rs_state := RANS_L; rs_bytes := [] |}
  | b :: data => encode_step cum_freqs sym_freqs (encode_rev cum_freqs sym_freqs (S i) data) i b
  end.

(** The bytes of a stream with its final state pushed. *)
Definition flush_stream (s : RansStream) : bytes :=
  let x := rs_state s in
  (((rs_bytes s ++ [N.land x 0xFF]) ++ [N.land (N.shiftr x 8) 0xFF])
    ++ [N.land (N.shiftr x 16) 0xFF]) ++ [N.land (N.shiftr x 24) 0xFF].

(** The stream sizes, each checked to fit a [u32]. *)
Fixpoint stream_lens (streams : list bytes) : result CodecError bytes :=
  match streams with
  | [] => Ok []
  | s :: streams =>
      let? len := encode_u32_len (N.of_nat (length s)) in
      let? rest := stream_lens streams in
      Ok (to_le 4 len ++ rest)
  end.

Definition rans_encode (data : bytes) : result CodecError bytes :=
  let? encoded_len := encode_input_len (N.of_nat (length data)) in
  match data with
  | [] => Ok (replicate (N.to_nat RANS_HEADER_SIZE) 0)
  | _ =>
      let norm_freqs := normalize_frequencies (count_freqs data) (N.of_nat (length data)) in
      let cum_freqs := build_cum_table 0 norm_freqs in
      let streams := flush_stream <$> encode_rev cum_freqs norm_freqs 0 data in
      let total_compressed := sum_list (length <$> streams) in
      let? comp_payload_size := encode_u32_len (N.of_nat (total_compressed + NUM_STREAMS * 4)) in
      let? lens := stream_lens streams in
      Ok ((((to_le 4 encoded_len ++ (norm_freqs ≫= to_le 4)) ++ to_le 4 comp_payload_size) ++ lens)
            ++ concat streams)
  end.

(** ** Decoding *)

(** The loop that reads the stream sizes and adds them up. *)
Fixpoint read_stream_sizes (n index : nat) (frame : bytes) (payload_len : usize)
    : result CodecError (list usize * usize) :=
  match n with
  | O => Ok ([], payload_len)
  | S n =>
      let? size := u32_to_usize (from_le (field (index * 4) 4 frame)) in
      if size <? 4 then Err Corrupt
      else
        let? payload_len := checked_add payload_len size in
        let? rest := read_stream_sizes n (S index) frame payload_len in
        let '(sizes, payload_len) := rest in
        Ok (size :: sizes, payload_len)
  end.

Fixpoint read_streams (sizes : list usize) (frame : bytes) (pos : usize) : result CodecError (list bytes) :=
  match sizes with
  | [] => Ok []
  | size :: sizes =>
      let? stream := checked_range frame pos size in
      let? pos := checked_add pos size in
      let? rest := read_streams sizes frame pos in
      Ok (stream :: rest)
  end.

(** A decoder stream: its state, its bytes, and the read position. *)
Record RansReader := { rr_state : u32; rr_stream : bytes; rr_pos : nat }.

Fixpoint initial_states (streams : list bytes) : result CodecError (list RansReader) :=
  match streams with
  | [] => Ok []
  | stream :: streams =>
      let end_ := length stream in
      let state := from_le (field (end_ - 4) 4 stream) in
      if negb ((RANS_L <=? state) && (state <? RANS_STATE_UPPER_BOUND)) then Err Corrupt
      else
        let? rest := initial_states streams in
        Ok ({| rr_state := state; rr_stream := stream; rr_pos := end_ - 4 |} :: rest)
  end.

(** The output loop from [index] on; [n] bytes are left. *)
Fixpoint decode_symbols (n index : nat) (lookup : list u8) (cum_freqs sym_freqs : list u32)
    (readers : list RansReader) : bytes * list RansReader :=
  match n with
  | O => ([], readers)
  | S n =>
      match readers !! (index mod NUM_STREAMS)%nat with
      | None => ([], readers)
      | Some r =>
          let '(symbol, state) := rans_decode_symbol (rr_state r) lookup cum_freqs sym_freqs in
          let '(state, pos) := rans_decode_renorm state (rr_stream r) (rr_pos r) in
          let readers :=
            <[(index mod NUM_STREAMS)%nat := {| rr_state := state; rr_stream := rr_stream r; rr_pos := pos |}]>
              readers in
          let '(out, readers) := decode_symbols n (S index) lookup cum_freqs sym_freqs readers in
          (symbol :: out, readers)
      end
  end.

(** The second half of [decode]: the compressed [frame], whose header gave the
    frequencies and the output size. *)
Definition decode_frame (norm_freqs : list u32) (uncompressed_size : usize) (frame : bytes)
    : result CodecError bytes :=
  let compressed_size := N.of_nat (length frame) in
  let stream_sizes_len := N.of_nat (NUM_STREAMS * 4) in
  if compressed_size <? stream_sizes_len then Err Corrupt
  else
    let? sized := read_stream_sizes NUM_STREAMS 0 frame 0 in
    let '(stream_sizes, payload_len) := sized in
    let? framing := checked_add stream_sizes_len payload_len in
    if negb (framing =? compressed_size) then Err Corrupt
    else
      let cum_freqs := build_cum_table 0 norm_freqs in
      let lookup := build_decode_table cum_freqs in
      let? streams := read_streams stream_sizes frame stream_sizes_len in
      let? readers := initial_states streams in
      let? _cap := checked_capacity uncompressed_size 1 in
      let '(output, readers) :=
        decode_symbols (N.to_nat uncompressed_size) 0 lookup cum_freqs norm_freqs readers in
      if forallb (λ r, (rr_pos r =? 0)%nat && (rr_state r =? RANS_L)) readers
      then Ok output
      else Err Corrupt.

Definition rans_decode (data : bytes) : result CodecError bytes :=
  let? header := checked_range data 0 RANS_HEADER_SIZE in
  let? size := u32_to_usize (from_le (field 0 4 header)) in
  let? uncompressed_size := decoded_len size in
  let norm_freqs := (λ index, from_le (field (4 + index * 4) 4 header)) <$> seq 0 256 in
  let? compressed_size := u32_to_usize (from_le (drop (N.to_nat (RANS_HEADER_SIZE - 4)) header)) in
  if uncompressed_size =? 0 then
    if negb (compressed_size =? 0) || negb (N.of_nat (length data) =? RANS_HEADER_SIZE) then Err Corrupt
    else Ok []
  else
    let? _ok := validate_frequencies norm_freqs in
    let? frame := checked_range data RANS_HEADER_SIZE compressed_size in
    let? frame_end := checked_add RANS_HEADER_SIZE compressed_size in
    if negb (frame_end =? N.of_nat (length data)) then Err Corrupt
    else decode_frame norm_freqs uncompressed_size frame.
