(* ===== verification/RansFacts.v ===== *)
(** * RansFacts: the rANS coder decodes what it encodes

    The normalised frequencies add up to the probability scale and give every
    byte that occurs a share of at least one. With such frequencies decoding
    a symbol undoes encoding it, bytes and state included; the four streams
    then unwind in step with the input. *)

From Stdlib Require Import Lia ZArith.
From stdpp Require Import base option list.
From S2P Require Import Prelude Codec Rans CodecBits CodecFacts.

(** ** Totals *)

Definition total (l : list N) : N := foldr N.add 0 l.

Lemma total_app l l' : total (l ++ l') = total l + total l'.
Proof. induction l as [|x l IH]; [done|]. cbn. fold (total (l ++ l')) (total l). lia. Qed.

Lemma total_alter f l i x : l !! i = Some x → total (alter f i l) + x = total l + f x.
Proof.
  revert i. induction l as [|y l IH]; intros i Hi; [done|]. destruct i as [|i]; cbn in Hi.
  - simplify_eq. cbn. fold (total l). lia.
  - apply IH in Hi. cbn. fold (total l) (total (alter f i l)). lia.
Qed.

Lemma total_lookup l i x : l !! i = Some x → x ≤ total l.
Proof. intros Hi. pose proof (total_alter (λ _, 0) l i x Hi). cbn in *. lia. Qed.

Lemma total_bound l b : Forall (λ x, x ≤ b) l → total l ≤ b * N.of_nat (length l).
Proof. induction 1 as [|x l Hx Hl IH]; [cbn; lia|]. cbn [length total foldr]. fold (total l). lia. Qed.

(** ** Normalisation *)

Lemma round_half_even_le n d k : d ≠ 0 → n ≤ k * d → round_half_even n d ≤ k.
Proof.
  intros Hd Hn. unfold round_half_even. pose proof (N.div_mod n d Hd) as Hdm. pose proof (N.mod_lt n d Hd) as Hm.
  assert (n / d ≤ k) by (apply N.Div0.div_le_upper_bound; lia).
  destruct (decide (n / d = k)) as [Heq|Hne].
  - assert (n mod d = 0) as ->.
    { rewrite Heq in Hdm. revert Hdm. generalize (n mod d). lia. }
    rewrite N.mul_0_r. destruct (N.ltb_spec 0 d); lia.
  - repeat case_match; lia.
Qed.

Lemma scale_f64_le a b : 0 < b → a ≤ b → scale_f64 a b ≤ PROB_SCALE.
Proof.
  intros Hb Hab. unfold scale_f64. set (e := quotient_shift a b). clearbody e.
  assert (2 ^ e ≠ 0) by by apply N.pow_nonzero.
  assert (round_half_even (a * 2 ^ e) b ≤ 2 ^ e) as Hm by (apply round_half_even_le; [lia|nia]).
  apply N.lt_succ_r, N.Div0.div_lt_upper_bound. nia.
Qed.

(** [last_max] finds an element that is kept, when there is one. *)
Lemma last_max_spec keep i best (l l0 : list N) :
  (∀ j m, best = Some (j, m) → l0 !! j = Some m ∧ keep m = true) →
  (∀ j x, l !! j = Some x → l0 !! (i + j)%nat = Some x) →
  match last_max keep i best l with
  | Some (j, m) => l0 !! j = Some m ∧ keep m = true
  | None => best = None ∧ ∀ x, x ∈ l → keep x = false
  end.
Proof.
  revert i best. induction l as [|f l IH]; intros i best Hbest Hl; cbn [last_max].
  { destruct best as [[j m]|]; [by apply Hbest|]. split; [done|]. by intros x Hx%elem_of_nil. }
  assert (l0 !! i = Some f) as Hi by (by rewrite <-(Nat.add_0_r i); apply Hl).
  assert (∀ j x, l !! j = Some x → l0 !! (S i + j)%nat = Some x) as Hl'.
  { intros j x Hj. replace (S i + j)%nat with (i + S j)%nat by lia. by apply Hl. }
  destruct (keep f) eqn:Hk.
  - set (best' := match best with Some (_, m) => if m <=? f then Some (i, f) else best | None => Some (i, f) end).
    assert (∃ j m, best' = Some (j, m) ∧ l0 !! j = Some m ∧ keep m = true) as (j & m & -> & Hj & Hm).
    { unfold best'. destruct best as [[j m]|]; [|by exists i, f]. destruct (m <=? f); [by exists i, f|].
      exists j, m. split; [done|by apply Hbest]. }
    specialize (IH (S i) (Some (j, m))). destruct (last_max _ _ _ l) as [[j' m']|].
    + apply IH; [by intros ? ? [= <- <-]|done].
    + destruct IH as [IH _]; [by intros ? ? [= <- <-]|done|done].
  - specialize (IH (S i) best). destruct (last_max _ _ _ l) as [[j' m']|]; [by apply IH|].
    destruct IH as [-> IH]; [done|done|]. split; [done|]. intros x [->|Hx]%elem_of_cons; [done|by apply IH].
Qed.

Lemma max_idx_spec keep l :
  (∃ x, x ∈ l ∧ keep x = true) → ∃ x, l !! max_idx keep l = Some x ∧ keep x = true.
Proof.
  intros (x & Hx & Hk). unfold max_idx. pose proof (last_max_spec keep 0 None l l) as Hs.
  destruct (last_max keep 0 None l) as [[j m]|]; [exists m; by apply Hs|].
  destruct Hs as [_ Hs]; [done|done|]. by rewrite Hs in Hk.
Qed.

(** Every symbol in [present] keeps a share. *)
Definition shares (present : nat → Prop) (norm : list u32) : Prop :=
  ∀ i, present i → ∃ f, norm !! i = Some f ∧ 1 ≤ f.

Lemma shares_alter present g i norm :
  shares present norm → (∀ x, norm !! i = Some x → 1 ≤ x → 1 ≤ g x) → shares present (alter g i norm).
Proof.
  intros Hs Hg j Hj. destruct (Hs j Hj) as (f & Hf & H1). destruct (decide (i = j)) as [->|Hne].
  - exists (g f). rewrite list_lookup_alter_eq, Hf. split; [done|by apply Hg].
  - exists f. by rewrite list_lookup_alter_ne.
Qed.

Lemma reduce_loop_ok present fuel norm :
  shares present norm → N.of_nat (length norm) ≤ 256 → (N.to_nat (total norm - PROB_SCALE) ≤ fuel)%nat →
  ∃ norm', reduce_loop fuel norm (total norm) = (norm', total norm') ∧ length norm' = length norm ∧
    total norm' = N.min (total norm) PROB_SCALE ∧ shares present norm'.
Proof.
  revert norm. induction fuel as [|fuel IH]; intros norm Hs Hlen Hf; cbn [reduce_loop].
  { exists norm. split_and!; [done|done|lia|done]. }
  destruct (N.ltb_spec PROB_SCALE (total norm)) as [Hlt|]; [|exists norm; split_and!; [done|done|lia|done]].
  destruct (max_idx_spec (λ f, 1 <? f) norm) as (x & Hx & H1).
  { destruct (decide (Forall (λ x, x ≤ 1) norm)) as [Hall|Hnot].
    - apply total_bound in Hall. change PROB_SCALE with 16384 in Hlt. lia.
    - apply not_Forall_Exists in Hnot; [|apply _]. apply Exists_exists in Hnot as (x & Hx & Hgt).
      exists x. split; [done|]. apply N.ltb_lt. cbn in Hgt. lia. }
  apply N.ltb_lt in H1. pose proof (total_alter N.pred norm _ x Hx) as Ht.
  replace (total norm - 1) with (total (alter N.pred (max_idx (λ f, 1 <? f) norm) norm)) by lia.
  destruct (IH (alter N.pred (max_idx (λ f, 1 <? f) norm) norm)) as (norm' & -> & Hl & Htot & Hs').
  - apply shares_alter; [done|]. intros y Hy _. rewrite Hx in Hy. simplify_eq. lia.
  - by rewrite length_alter.
  - lia.
  - exists norm'. rewrite length_alter in Hl. split_and!; [done|done|lia|done].
Qed.

Lemma raise_loop_ok present fuel norm :
  shares present norm → norm ≠ [] → total norm ≤ PROB_SCALE → (N.to_nat (PROB_SCALE - total norm) ≤ fuel)%nat →
  ∃ norm', raise_loop fuel norm (total norm) = (norm', PROB_SCALE) ∧ length norm' = length norm ∧
    total norm' = PROB_SCALE ∧ shares present norm'.
Proof.
  revert norm. induction fuel as [|fuel IH]; intros norm Hs Hne Hle Hf; cbn [raise_loop].
  { assert (total norm = PROB_SCALE) as Ht by lia. exists norm. by rewrite Ht. }
  destruct (N.ltb_spec (total norm) PROB_SCALE) as [Hlt|].
  2: { assert (total norm = PROB_SCALE) as Ht by lia. exists norm. by rewrite Ht. }
  destruct (max_idx_spec (λ _, true) norm) as (x & Hx & _).
  { destruct norm as [|y norm]; [done|]. exists y. split; [apply list_elem_of_here|done]. }
  pose proof (total_alter N.succ norm _ x Hx) as Ht.
  replace (total norm + 1) with (total (alter N.succ (max_idx (λ _, true) norm) norm)) by lia.
  destruct (IH (alter N.succ (max_idx (λ _, true) norm) norm)) as (norm' & -> & Hl & Htot & Hs').
  - apply shares_alter; [done|]. intros; lia.
  - intros Heq. apply (f_equal length) in Heq. rewrite length_alter in Heq. by destruct norm.
  - lia.
  - lia.
  - exists norm'. rewrite length_alter in Hl. by split_and!.
Qed.

(** The bytes of [data] that occur. *)
Definition occurs (data : bytes) (i : nat) : Prop := N.of_nat i ∈ data.

Lemma count_freqs_spec data :
  Forall (λ b, b < 256) data →
  length (count_freqs data) = 256%nat ∧
  (∀ i f, count_freqs data !! i = Some f → f ≤ N.of_nat (length data)) ∧
  shares (occurs data) (count_freqs data).
Proof.
  unfold count_freqs. intros Hb. induction data as [|b data IH] using rev_ind.
  - cbn [foldl]. split_and!; [by rewrite length_replicate| |].
    + intros i f Hf. apply lookup_replicate in Hf as [-> _]. cbn. lia.
    + intros i Hi. by apply elem_of_nil in Hi.
  - apply Forall_app in Hb as [Hb Hb1]. rewrite Forall_singleton in Hb1.
    destruct (IH Hb) as (Hlen & Hle & Hs). rewrite foldl_app. cbn [foldl]. set (fr := foldl _ _ data) in *.
    rewrite length_app. cbn [length]. split_and!.
    + by rewrite length_alter.
    + intros i f Hf. destruct (decide (N.to_nat b = i)) as [<-|Hne].
      * rewrite list_lookup_alter_eq in Hf. apply fmap_Some in Hf as (g & Hg & ->). apply Hle in Hg. lia.
      * rewrite list_lookup_alter_ne in Hf by done. apply Hle in Hf. lia.
    + intros i Hi. destruct (lookup_lt_is_Some_2 fr (N.to_nat b)) as [g Hg]; [lia|].
      destruct (decide (N.to_nat b = i)) as [<-|Hne].
      * exists (N.succ g). rewrite list_lookup_alter_eq, Hg. split; [done|lia].
      * rewrite list_lookup_alter_ne by done. apply Hs. unfold occurs in *.
        apply elem_of_app in Hi as [Hi|Hi%list_elem_of_singleton]; [done|]. lia.
Qed.

Lemma normalize_ok data :
  Forall (λ b, b < 256) data → data ≠ [] →
  let norm := normalize_frequencies (count_freqs data) (N.of_nat (length data)) in
  length norm = 256%nat ∧ total norm = PROB_SCALE ∧ shares (occurs data) norm.
Proof.
  intros Hb Hne norm. destruct (count_freqs_spec data Hb) as (Hlen & Hle & Hs).
  assert (0 < N.of_nat (length data)) as Hpos by (destruct data; [done|cbn; lia]).
  unfold norm, normalize_frequencies. set (n := N.of_nat (length data)) in *.
  set (norm0 := _ <$> count_freqs data).
  assert (length norm0 = 256%nat) as Hl0 by (unfold norm0; by rewrite length_fmap).
  assert (shares (occurs data) norm0) as Hs0.
  { intros i Hi. destruct (Hs i Hi) as (f & Hf & H1). unfold norm0. rewrite list_lookup_fmap, Hf. cbn.
    eexists. split; [done|]. destruct (N.ltb_spec 0 f); lia. }
  assert (1 ≤ total norm0) as Ht0.
  { destruct data as [|b data]; [done|]. apply Forall_cons_1 in Hb as [Hb _].
    destruct (Hs0 (N.to_nat b)) as (f & Hf & H1); [unfold occurs; rewrite N2Nat.id; apply list_elem_of_here|].
    apply total_lookup in Hf. lia. }
  fold (total norm0). rewrite (proj2 (N.ltb_lt 0 (total norm0))) by lia.
  destruct (reduce_loop_ok (occurs data) (N.to_nat (total norm0 - PROB_SCALE)) norm0)
    as (norm1 & -> & Hl1 & Ht1 & Hs1); [done|lia|lia|].
  destruct (raise_loop_ok (occurs data) (N.to_nat (PROB_SCALE - total norm1)) norm1)
    as (norm2 & -> & Hl2 & Ht2 & Hs2); [done| |lia|lia|].
  { intros ->. cbn in Hl1. lia. }
  cbn [fst]. split_and!; [lia|done|done].
Qed.

(** ** Tables *)

Lemma build_cum_table_lookup freqs acc k :
  (k ≤ length freqs)%nat → build_cum_table acc freqs !! k = Some (acc + total (take k freqs)).
Proof.
  revert acc k. induction freqs as [|f freqs IH]; intros acc k Hk; (destruct k as [|k]; [cbn; f_equal; lia|]).
  - cbn in Hk. lia.
  - cbn [build_cum_table lookup list_lookup take]. rewrite IH by (cbn in Hk; lia). cbn [total foldr].
    fold (total (take k freqs)). f_equal. lia.
Qed.

(** Where symbol [k]'s slots start. *)
Definition cum (freqs : list u32) (k : nat) : N := total (take k freqs).

Lemma cum_succ freqs k f : freqs !! k = Some f → cum freqs (S k) = cum freqs k + f.
Proof. intros Hk. unfold cum. rewrite (take_S_r _ _ _ Hk), total_app. cbn. lia. Qed.

Lemma cum_mono freqs j k : (j ≤ k)%nat → cum freqs j ≤ cum freqs k.
Proof.
  intros Hjk. unfold cum. rewrite <-(take_drop j (take k freqs)), take_take, total_app, Nat.min_l by done. lia.
Qed.

Lemma cum_total freqs k : cum freqs k ≤ total freqs.
Proof. unfold cum. rewrite <-(take_drop k freqs) at 2. rewrite total_app. lia. Qed.

Lemma fill_lookup start end_ v table i :
  (start ≤ end_ ≤ length table)%nat →
  length (fill start end_ v table) = length table ∧
  fill start end_ v table !! i = if decide (start ≤ i < end_)%nat then Some v else table !! i.
Proof.
  intros Hse. unfold fill. split.
  - rewrite !length_app, length_take, length_replicate, length_drop. lia.
  - case_decide as Hi.
    + rewrite lookup_app_r, lookup_app_l, lookup_replicate_2;
        rewrite ?length_take, ?length_replicate; try done; lia.
    + destruct (decide (i < start)%nat).
      * rewrite lookup_app_l, lookup_take_lt by (rewrite ?length_take; lia). done.
      * rewrite !lookup_app_r; rewrite ?length_take, ?length_replicate; try lia.
        rewrite lookup_drop. f_equal. lia.
Qed.

(** A frequency table the coder can work with: 256 entries that add up to the
    probability scale. *)
Record freqs_ok (freqs : list u32) : Prop := {
  fo_len : length freqs = 256%nat;
  fo_total : total freqs = PROB_SCALE;
}.

Section Symbols.

Context (freqs : list u32) (Hok : freqs_ok freqs).

Lemma cum_lookup k : (k ≤ 256)%nat → default 0 (build_cum_table 0 freqs !! k) = cum freqs k.
Proof. intros Hk. rewrite build_cum_table_lookup by (rewrite (fo_len _ Hok); lia). exact (N.add_0_l _). Qed.

Lemma cum_le k : cum freqs k ≤ PROB_SCALE.
Proof. rewrite <-(fo_total _ Hok). apply cum_total. Qed.

Lemma decode_table_prefix n :
  (n ≤ 256)%nat →
  let table := foldl (λ table sym,
      fill (N.to_nat (default 0 (build_cum_table 0 freqs !! sym)))
        (N.to_nat (default 0 (build_cum_table 0 freqs !! S sym))) (N.of_nat sym) table)
    (replicate (N.to_nat PROB_SCALE) 0) (seq 0 n) in
  length table = N.to_nat PROB_SCALE ∧
  ∀ sym slot, (sym < n)%nat → cum freqs sym ≤ slot < cum freqs (S sym) →
    table !! N.to_nat slot = Some (N.of_nat sym).
Proof.
  induction n as [|n IH]; intros Hn table; subst table.
  { split; [apply length_replicate|lia]. }
  rewrite seq_S, foldl_app. cbn [foldl Nat.add]. destruct IH as [Hl Ht]; [lia|].
  set (table := foldl _ _ _) in *. rewrite !cum_lookup by lia.
  pose proof (cum_mono freqs n (S n) ltac:(lia)). pose proof (cum_le (S n)).
  split; [rewrite <-Hl; apply (fill_lookup _ _ _ _ 0); lia|]. intros sym slot Hsym Hslot.
  destruct (fill_lookup (N.to_nat (cum freqs n)) (N.to_nat (cum freqs (S n))) (N.of_nat n) table (N.to_nat slot))
    as [_ ->]; [lia|]. case_decide as Hin.
  - destruct (decide (sym = n)) as [->|]; [done|].
    pose proof (cum_mono freqs (S sym) n ltac:(lia)). lia.
  - apply Ht; [|done]. destruct (decide (sym = n)) as [->|]; [lia|lia].
Qed.

Lemma decode_table_lookup sym slot :
  (sym < 256)%nat → cum freqs sym ≤ slot < cum freqs (S sym) →
  build_decode_table (build_cum_table 0 freqs) !! N.to_nat slot = Some (N.of_nat sym).
Proof. intros Hsym Hslot. by apply (decode_table_prefix 256). Qed.

(** ** One symbol *)

(** The states a stream is in between symbols. *)
Definition state_ok (x : u32) : Prop := RANS_L ≤ x < RANS_STATE_UPPER_BOUND.

(** The byte stack a renormalised state [x] stands on leads back to [y]. *)
Definition unwinds (x : u32) (bs : bytes) (y : u32) (bs' : bytes) : Prop :=
  ∀ stream, take (length bs) stream = bs →
    rans_decode_renorm x stream (length bs) = (y, length bs') ∧ take (length bs') stream = bs'.

Lemma unwinds_refl x bs : RANS_L ≤ x → unwinds x bs x bs.
Proof.
  intros Hx stream Hs. split; [|done]. destruct (length bs); [done|]. cbn [rans_decode_renorm].
  by rewrite (proj2 (N.ltb_ge _ _)).
Qed.

Lemma unwinds_pop x bs y bs' :
  x < 2 ^ 31 → N.shiftr x 8 < RANS_L → unwinds x bs y bs' →
  unwinds (N.shiftr x 8) (bs ++ [N.land x 0xFF]) y bs'.
Proof.
  intros Hx Hlt Hu stream Hs. rewrite length_app, Nat.add_1_r in Hs |- *. cbn [rans_decode_renorm].
  rewrite (proj2 (N.ltb_lt _ _)) by done.
  assert (Hl : (length bs < length stream)%nat).
  { apply (f_equal length) in Hs. rewrite length_take, length_app in Hs. cbn [length] in Hs. lia. }
  destruct (lookup_lt_is_Some_2 stream (length bs) Hl) as [b Hb].
  rewrite (take_S_r _ _ _ Hb) in Hs. apply app_inj_2 in Hs as [Hs [= ->]]; [|done].
  rewrite Hb. cbn [default from_option id]. change 0xFF with (N.ones 8). rewrite N.land_ones.
  rewrite N.mod_small.
  - rewrite lor_shiftl by by apply N.mod_lt. rewrite N.shiftr_div_pow2, N.mul_comm, <-N.div_mod'. by apply Hu.
  - rewrite N.shiftl_mul_pow2. unfold RANS_L in Hlt. change (N.shiftl 1 23) with (2 ^ 23) in Hlt.
    change (2 ^ 32) with (2 ^ 24 * 2 ^ 8). apply N.mul_lt_mono_pos_r; [done|].
    eapply N.lt_trans; [exact Hlt|done].
Qed.

Lemma encode_renorm_ok freq s :
  1 ≤ freq ≤ PROB_SCALE → state_ok (rs_state s) →
  let s' := encode_renorm 4 (2 ^ 17 * freq) s in
  2 ^ 9 * freq ≤ rs_state s' < 2 ^ 17 * freq ∧
  unwinds (rs_state s') (rs_bytes s') (rs_state s) (rs_bytes s) ∧
  (length (rs_bytes s') ≤ length (rs_bytes s) + 2)%nat.
Proof.
  intros Hf [Hlo Hhi] s'. subst s'. destruct s as [y bs]. cbn [rs_state rs_bytes] in *.
  change PROB_SCALE with (2 ^ 14) in Hf. change RANS_L with (2 ^ 23) in Hlo.
  change RANS_STATE_UPPER_BOUND with (2 ^ 31) in Hhi.
  assert (∀ x, N.shiftr x 8 = x / 2 ^ 8) as Hsh by (intros; apply N.shiftr_div_pow2).
  assert (N.shiftr y 8 < RANS_L) as H8.
  { rewrite Hsh. change RANS_L with (2 ^ 23). apply N.Div0.div_lt_upper_bound. exact Hhi. }
  assert (N.shiftr (N.shiftr y 8) 8 < 2 ^ 15) as H16.
  { rewrite (Hsh (N.shiftr y 8)). apply N.Div0.div_lt_upper_bound. exact H8. }
  cbn [encode_renorm rs_state rs_bytes]. destruct (N.leb_spec (2 ^ 17 * freq) y) as [H1|H1]; cbn [rs_state rs_bytes].
  2: { split; [lia|]. split; [by apply unwinds_refl|lia]. }
  destruct (N.leb_spec (2 ^ 17 * freq) (N.shiftr y 8)) as [H2|H2]; cbn [rs_state rs_bytes].
  - assert (2 ^ 9 * freq ≤ N.shiftr (N.shiftr y 8) 8) as Hge.
    { rewrite (Hsh (N.shiftr y 8)). apply N.div_le_lower_bound; [done|]. lia. }
    rewrite (proj2 (N.leb_gt (2 ^ 17 * freq) _)) by lia. cbn [rs_state rs_bytes].
    split; [lia|]. split; [|rewrite !length_app; cbn [length]; lia].
    apply unwinds_pop; [change RANS_L with (2 ^ 23) in H8; lia|eapply N.lt_trans; [exact H16|done]|].
    apply unwinds_pop; [done|done|by apply unwinds_refl].
  - assert (2 ^ 9 * freq ≤ N.shiftr y 8) as Hge.
    { rewrite Hsh. apply N.div_le_lower_bound; [done|]. lia. }
    split; [lia|]. split; [|rewrite length_app; cbn [length]; lia].
    apply unwinds_pop; [done|done|by apply unwinds_refl].
Qed.

(** The state arithmetic of a symbol with [freq] slots from [start]. *)
Lemma symbol_state start freq x :
  1 ≤ freq → start + freq ≤ PROB_SCALE → 2 ^ 9 * freq ≤ x < 2 ^ 17 * freq →
  let z := N.shiftl (x / freq) PROB_BITS + x mod freq + start in
  state_ok z ∧ N.land z (PROB_SCALE - 1) = x mod freq + start ∧
  freq * N.shiftr z PROB_BITS + (x mod freq + start) - start = x.
Proof.
  intros Hf Hsf Hx z. pose proof (N.div_mod x freq ltac:(lia)) as Hdm. pose proof (N.mod_lt x freq ltac:(lia)) as Hm.
  assert (2 ^ 9 ≤ x / freq) as Hlo by (apply N.div_le_lower_bound; lia).
  assert (x / freq < 2 ^ 17) as Hhi by (apply N.Div0.div_lt_upper_bound; lia).
  assert (z = (x mod freq + start) + x / freq * 2 ^ 14) as Hz.
  { unfold z. rewrite N.shiftl_mul_pow2. change PROB_BITS with 14. lia. }
  revert Hz Hdm Hm Hlo Hhi. generalize (x / freq) (x mod freq). intros q r Hz Hdm Hm Hlo Hhi.
  change PROB_SCALE with (2 ^ 14) in *. change PROB_BITS with 14. clearbody z.
  assert (r + start < 2 ^ 14) as Hslot by lia. split_and!.
  - unfold state_ok. change RANS_L with (2 ^ 23). change RANS_STATE_UPPER_BOUND with (2 ^ 31). lia.
  - change (2 ^ 14 - 1) with (N.ones 14). rewrite N.land_ones, Hz, N.Div0.mod_add. by apply N.mod_small.
  - rewrite N.shiftr_div_pow2, Hz, N.div_add, N.div_small by done. lia.
Qed.

Lemma encode_decode_symbol s (sym : nat) freq :
  freqs !! sym = Some freq → 1 ≤ freq → state_ok (rs_state s) →
  let s' := rans_encode_symbol s (cum freqs sym) freq in
  state_ok (rs_state s') ∧ (length (rs_bytes s') ≤ length (rs_bytes s) + 2)%nat ∧
  ∃ x, rans_decode_symbol (rs_state s') (build_decode_table (build_cum_table 0 freqs))
         (build_cum_table 0 freqs) freqs = (N.of_nat sym, x) ∧
    unwinds x (rs_bytes s') (rs_state s) (rs_bytes s).
Proof.
  intros Hfreq Hf1 Hs s'. subst s'. unfold rans_encode_symbol. cbn [rs_state rs_bytes].
  pose proof (lookup_lt_Some _ _ _ Hfreq) as Hsym. rewrite (fo_len _ Hok) in Hsym.
  pose proof (cum_succ freqs sym freq Hfreq) as Hcs. pose proof (cum_le (S sym)) as Hcl.
  change (N.shiftl (N.shiftr RANS_L PROB_BITS) 8) with (2 ^ 17).
  destruct (encode_renorm_ok freq s) as (Hx & Hu & Hl); [lia|done|].
  set (s1 := encode_renorm 4 (2 ^ 17 * freq) s) in *. clearbody s1.
  destruct (symbol_state (cum freqs sym) freq (rs_state s1)) as (Hz & Hslot & Hback); [lia..|].
  split; [done|]. split; [done|]. exists (rs_state s1). split; [|done].
  unfold rans_decode_symbol. rewrite Hslot.
  pose proof (N.mod_lt (rs_state s1) freq ltac:(lia)) as Hm.
  rewrite (decode_table_lookup sym) by (revert Hm; generalize (rs_state s1 mod freq); lia).
  cbn [default from_option id]. rewrite Nat2N.id, Hfreq, cum_lookup by lia. cbn [default from_option id].
  by rewrite Hback.
Qed.

End Symbols.

(** ** Streams *)

(** The reader is where the encoder's stream was. *)
Definition follows (r : RansReader) (s : RansStream) : Prop :=
  rr_state r = rs_state s ∧ rr_pos r = length (rs_bytes s) ∧ take (rr_pos r) (rr_stream r) = rs_bytes s.

(** Every byte of [data] has slots. *)
Definition covers (freqs : list u32) (data : bytes) : Prop :=
  ∀ b, b ∈ data → ∃ f, freqs !! N.to_nat b = Some f ∧ 1 ≤ f.

Definition stream_bytes (streams : list RansStream) : nat := sum_list (length ∘ rs_bytes <$> streams).

Lemma sum_list_alter {A} (g : A → nat) f (l : list A) i x k :
  l !! i = Some x → (g (f x) ≤ g x + k)%nat →
  (sum_list (g <$> alter f i l) ≤ sum_list (g <$> l) + k)%nat.
Proof.
  revert i. induction l as [|y l IH]; intros i Hi Hg; [done|]. destruct i as [|i]; cbn in Hi.
  - simplify_eq. cbn. lia.
  - specialize (IH i Hi Hg). cbn in *. lia.
Qed.

Section Streams.

Context (freqs : list u32) (Hok : freqs_ok freqs).
#[local] Abbreviation table := (build_cum_table 0 freqs).

(** One symbol of the reverse loop, in full. *)
Lemma encode_step_ok streams i b :
  (∃ f, freqs !! N.to_nat b = Some f ∧ 1 ≤ f) →
  Forall (λ s, state_ok (rs_state s)) streams → length streams = NUM_STREAMS →
  ∃ f s, freqs !! N.to_nat b = Some f ∧ 1 ≤ f ∧ streams !! (i mod NUM_STREAMS)%nat = Some s ∧
    state_ok (rs_state s) ∧
    encode_step table freqs streams i b =
      alter (λ s, rans_encode_symbol s (cum freqs (N.to_nat b)) f) (i mod NUM_STREAMS)%nat streams.
Proof.
  intros (f & Hf & H1) Hst Hlen. pose proof (Nat.mod_upper_bound i NUM_STREAMS ltac:(done)).
  destruct (lookup_lt_is_Some_2 streams (i mod NUM_STREAMS)) as [s Hs]; [lia|].
  exists f, s. split_and!; [done|done|done|by eapply (proj1 (Forall_lookup _ _) Hst)|].
  pose proof (lookup_lt_Some _ _ _ Hf) as Hb. rewrite (fo_len _ Hok) in Hb.
  unfold encode_step. rewrite Hf, cum_lookup by (done || lia). cbn [default from_option id].
  by rewrite (proj2 (N.eqb_neq f 0)) by lia.
Qed.

Lemma encode_rev_ok i data :
  covers freqs data →
  let streams := encode_rev table freqs i data in
  length streams = NUM_STREAMS ∧ Forall (λ s, state_ok (rs_state s)) streams ∧
  (stream_bytes streams ≤ 2 * length data)%nat.
Proof.
  revert i. induction data as [|b data IH]; intros i Hc; cbn [encode_rev].
  { split_and!; [done| |cbn; lia]. apply Forall_replicate. cbn. unfold state_ok. split; [done|done]. }
  destruct (IH (S i)) as (Hlen & Hst & Hsz); [intros x Hx; apply Hc; by right|].
  destruct (encode_step_ok _ i b (Hc b (list_elem_of_here _ _)) Hst Hlen) as (f & s & Hf & H1 & Hs & Hss & ->).
  destruct (encode_decode_symbol freqs Hok s (N.to_nat b) f Hf H1 Hss) as (Hz & Hl & _).
  split_and!.
  - by rewrite length_alter.
  - apply Forall_alter; [done|]. intros x Hx _. rewrite Hs in Hx. by simplify_eq.
  - unfold stream_bytes in *.
    pose proof (sum_list_alter (length ∘ rs_bytes) (λ s, rans_encode_symbol s (cum freqs (N.to_nat b)) f)
      _ _ s 2 Hs Hl). cbn [length]. lia.
Qed.

Lemma decode_symbols_ok data i readers :
  Forall (λ b, b < 256) data → covers freqs data →
  Forall2 follows readers (encode_rev table freqs i data) →
  ∃ readers', decode_symbols (length data) i (build_decode_table table) table freqs readers = (data, readers') ∧
    Forall2 follows readers' (replicate NUM_STREAMS {| rs_state := RANS_L; rs_bytes := [] |}).
Proof.
  revert i readers. induction data as [|b data IH]; intros i readers Hb Hc Hf.
  { exists readers. by split. }
  apply Forall_cons_1 in Hb as [Hb1 Hb]. assert (covers freqs data) as Hc' by (intros x Hx; apply Hc; by right).
  cbn [encode_rev] in Hf. destruct (encode_rev_ok (S i) data Hc') as (Hlen & Hst & _).
  destruct (encode_step_ok _ i b (Hc b (list_elem_of_here _ _)) Hst Hlen) as (f & s & Hfr & H1 & Hs & Hss & Heq).
  rewrite Heq in Hf. clear Heq. set (E := encode_rev table freqs (S i) data) in *. set (j := (i mod NUM_STREAMS)%nat) in *.
  destruct (encode_decode_symbol freqs Hok s (N.to_nat b) f Hfr H1 Hss) as (_ & _ & x & Hdec & Hu).
  destruct (Forall2_lookup_r _ _ _ j (rans_encode_symbol s (cum freqs (N.to_nat b)) f) Hf) as (r & Hr & Hrs & Hrp & Hrt);
    [by rewrite list_lookup_alter_eq, Hs|].
  cbn [length decode_symbols]. fold j. rewrite Hr, Hrs, Hdec, N2Nat.id.
  rewrite Hrp in Hrt. destruct (Hu (rr_stream r) Hrt) as [Hren Htake]. rewrite Hrp, Hren.
  destruct (IH (S i) (<[j := {| rr_state := rs_state s; rr_stream := rr_stream r; rr_pos := length (rs_bytes s) |}]> readers))
    as (readers' & Hd & Hfin); [done|done| |].
  - fold E. apply Forall2_same_length_lookup. apply Forall2_same_length_lookup in Hf as [Hl Hf].
    rewrite length_alter in Hl. split; [by rewrite length_insert|]. intros k r' s' Hr' Hs'.
    destruct (decide (k = j)) as [->|Hne].
    + rewrite list_lookup_insert_eq in Hr' by by eapply lookup_lt_Some. rewrite Hs in Hs'. simplify_eq.
      by split_and!.
    + rewrite list_lookup_insert_ne in Hr' by done. apply (Hf k); [done|].
      by rewrite list_lookup_alter_ne.
  - exists readers'. rewrite Hd. by split.
Qed.

End Streams.

(** ** Frames *)

Lemma to_le_4 x :
  to_le 4 x = [N.land x 0xFF; N.land (N.shiftr x 8) 0xFF; N.land (N.shiftr x 16) 0xFF; N.land (N.shiftr x 24) 0xFF].
Proof.
  change 0xFF with (N.ones 8). rewrite !N.land_ones, !N.shiftr_div_pow2. change (2 ^ 8) with 256.
  unfold to_le, to_be. cbn [app reverse rev_append]. rewrite !N.Div0.div_div. reflexivity.
Qed.

Lemma flush_stream_eq s : flush_stream s = rs_bytes s ++ to_le 4 (rs_state s).
Proof. rewrite to_le_4. unfold flush_stream. by rewrite <-!app_assoc. Qed.

Lemma validate_total_ok acc l : acc + total l ≤ u32_max → validate_total acc l = Ok (acc + total l).
Proof.
  revert acc. induction l as [|x l IH]; intros acc Hl; cbn [validate_total total foldr] in *; [f_equal; lia|].
  fold (total l) in *. rewrite (proj2 (N.leb_le _ _)) by lia. rewrite IH by lia. f_equal. lia.
Qed.

Definition sizes_of (streams : list bytes) : list N := (N.of_nat ∘ length) <$> streams.

Lemma total_sizes streams : total (sizes_of streams) = N.of_nat (length (concat streams)).
Proof.
  induction streams as [|s streams IH]; [done|]. cbn [sizes_of fmap list_fmap total foldr concat].
  fold (sizes_of streams) (total (sizes_of streams)). rewrite IH, length_app. cbn. lia.
Qed.

Lemma stream_lens_ok streams :
  N.of_nat (length (concat streams)) ≤ u32_max → stream_lens streams = Ok (sizes_of streams ≫= to_le 4).
Proof.
  induction streams as [|s streams IH]; intros Hl; [done|]. cbn [stream_lens concat] in *.
  rewrite length_app in Hl. unfold encode_u32_len. rewrite (proj2 (N.leb_le _ _)) by lia. by rewrite IH by lia.
Qed.

Lemma read_stream_sizes_ok sizes index pre rest payload :
  length pre = (index * 4)%nat → Forall (λ x, 4 ≤ x) sizes → payload + total sizes ≤ u32_max →
  read_stream_sizes (length sizes) index (pre ++ (sizes ≫= to_le 4) ++ rest) payload =
  Ok (sizes, payload + total sizes).
Proof.
  revert index pre payload. induction sizes as [|x sizes IH]; intros index pre payload Hpre H4 Hmax.
  { cbn. do 2 f_equal. lia. }
  apply Forall_cons_1 in H4 as [Hx H4]. cbn [length read_stream_sizes mbind list_bind total foldr] in *.
  fold (total sizes) in *. rewrite <-app_assoc.
  rewrite field_app by (done || apply length_to_le). rewrite from_le_to_le by (unfold u32_max in Hmax; cbn; lia).
  rewrite u32_to_usize_ok, (proj2 (N.ltb_ge x 4)) by lia.
  rewrite checked_add_ok by (unfold u32_max, u64_max in *; lia). rewrite app_assoc.
  rewrite IH by (rewrite ?length_app, ?length_to_le; done || lia). by rewrite N.add_assoc.
Qed.

Lemma read_streams_ok streams pre :
  N.of_nat (length (pre ++ concat streams)) ≤ u64_max →
  read_streams (sizes_of streams) (pre ++ concat streams) (N.of_nat (length pre)) = Ok streams.
Proof.
  revert pre. induction streams as [|s streams IH]; intros pre Hl; [done|].
  cbn [sizes_of fmap list_fmap read_streams concat compose] in *. fold (sizes_of streams).
  rewrite checked_range_app by done. rewrite !length_app in Hl. rewrite checked_add_ok by lia.
  rewrite <-Nat2N.inj_add, <-length_app, app_assoc, IH; [done|]. rewrite !length_app. lia.
Qed.

Lemma initial_states_ok E :
  Forall (λ s, state_ok (rs_state s)) E →
  ∃ readers, initial_states (flush_stream <$> E) = Ok readers ∧ Forall2 follows readers E.
Proof.
  induction 1 as [|s E Hs HE IH]; [by exists []|]. destruct IH as (readers & Heq & Hf).
  cbn [fmap list_fmap initial_states]. rewrite flush_stream_eq, length_app, length_to_le.
  replace (length (rs_bytes s) + 4 - 4)%nat with (length (rs_bytes s)) by lia.
  assert (from_le (field (length (rs_bytes s)) 4 (rs_bytes s ++ to_le 4 (rs_state s))) = rs_state s) as ->.
  { rewrite <-(app_nil_r (to_le 4 _)), field_app by (done || apply length_to_le).
    apply from_le_to_le. destruct Hs as [_ Hs]. eapply N.lt_trans; [exact Hs|done]. }
  destruct Hs as [Hlo Hhi]. rewrite (proj2 (N.leb_le _ _) Hlo), (proj2 (N.ltb_lt _ _) Hhi). cbn [andb negb].
  rewrite Heq. eexists. split; [done|]. constructor; [|done]. split_and!; [done|done|]. cbn. apply take_app_length.
Qed.

(** The pieces of a frame, as [rans_encode] lays them out. *)
Definition rans_frame (n : N) (freqs : list u32) (streams : list bytes) : bytes :=
  (to_le 4 n ++ (freqs ≫= to_le 4) ++ to_le 4 (N.of_nat (length (concat streams) + 16))) ++
  ((sizes_of streams ≫= to_le 4) ++ concat streams).

Lemma sum_lengths (streams : list bytes) : sum_list (length <$> streams) = length (concat streams).
Proof. induction streams as [|s streams IH]; [done|]. cbn. rewrite length_app. lia. Qed.

Lemma flush_length E : length (concat (flush_stream <$> E)) = (stream_bytes E + 4 * length E)%nat.
Proof.
  induction E as [|s E IH]; [done|]. cbn [fmap list_fmap concat stream_bytes sum_list length].
  rewrite length_app, IH, flush_stream_eq, length_app, length_to_le. unfold stream_bytes. cbn. lia.
Qed.

Lemma freqs_small freqs : freqs_ok freqs → Forall (λ x, x < 2 ^ 32) freqs.
Proof.
  intros [_ Ht]. apply Forall_lookup. intros i x Hx. apply total_lookup in Hx. rewrite Ht in Hx.
  change PROB_SCALE with 16384 in Hx. lia.
Qed.

Lemma decode_frame_ok data freqs :
  Forall (λ b, b < 256) data → N.of_nat (length data) ≤ MAX_DECODED_BYTES →
  freqs_ok freqs → covers freqs data →
  let streams := flush_stream <$> encode_rev (build_cum_table 0 freqs) freqs 0 data in
  N.of_nat (length (concat streams) + 16) ≤ u32_max ∧ length streams = NUM_STREAMS ∧
  decode_frame freqs (N.of_nat (length data)) ((sizes_of streams ≫= to_le 4) ++ concat streams) = Ok data.
Proof.
  intros Hb Hmax Hok Hcov streams. destruct (encode_rev_ok freqs Hok 0 data Hcov) as (HEl & HEs & HEb).
  set (E := encode_rev _ _ 0 data) in *. pose proof (flush_length E) as Hfl. fold streams in Hfl.
  rewrite HEl in Hfl. unfold MAX_DECODED_BYTES in Hmax.
  assert (N.of_nat (length (concat streams) + 16) ≤ u32_max) as Hmax32 by (unfold NUM_STREAMS, u32_max in *; lia).
  assert (length streams = NUM_STREAMS) as Hsl by (unfold streams; by rewrite length_fmap).
  split_and!; [done|done|]. unfold decode_frame.
  assert (length (sizes_of streams ≫= to_le 4) = 16%nat) as H16.
  { rewrite length_words. unfold sizes_of. by rewrite length_fmap, Hsl. }
  assert (N.of_nat (length ((sizes_of streams ≫= to_le 4) ++ concat streams)) =
    16 + total (sizes_of streams)) as Hfr by (rewrite length_app, H16, total_sizes; lia).
  rewrite Hfr. change (N.of_nat (NUM_STREAMS * 4)) with 16. rewrite (proj2 (N.ltb_ge _ 16)) by lia.
  pose proof (read_stream_sizes_ok (sizes_of streams) 0 [] (concat streams) 0) as Hsizes.
  assert (length (sizes_of streams) = NUM_STREAMS) as Hssl by (unfold sizes_of; by rewrite length_fmap).
  rewrite Hssl in Hsizes. cbn [app] in Hsizes. rewrite total_sizes in *. rewrite Hsizes; clear Hsizes.
  - rewrite N.add_0_l, checked_add_ok by (unfold u32_max, u64_max in *; lia). rewrite N.eqb_refl. cbn [negb].
    change 16 with (N.of_nat 16). rewrite <-H16.
    rewrite read_streams_ok by (rewrite length_app, H16; unfold u32_max, u64_max in *; lia).
    destruct (initial_states_ok E HEs) as (readers & Hinit & Hfol). fold streams in Hinit. rewrite Hinit.
    unfold checked_capacity, checked_mul, decoded_len, MAX_DECODED_BYTES.
    rewrite (proj2 (N.leb_le _ u64_max)), (proj2 (N.ltb_ge _ _)) by (unfold u64_max; lia). rewrite Nat2N.id.
    destruct (decode_symbols_ok freqs Hok data 0 readers Hb Hcov Hfol) as (readers' & -> & Hfin).
    assert (forallb (λ r, (rr_pos r =? 0)%nat && (rr_state r =? RANS_L)) readers' = true) as ->; [|done].
    apply forallb_forall. intros r Hr%list_elem_of_In. apply list_elem_of_lookup in Hr as [k Hk].
    destruct (Forall2_lookup_l _ _ _ _ _ Hfin Hk) as (s & Hs & Hst & Hp & _).
    apply lookup_replicate in Hs as [-> _]. by rewrite Hst, Hp, N.eqb_refl.
  - done.
  - unfold sizes_of, streams. rewrite !Forall_fmap. apply Forall_true. intros s.
    cbn. rewrite flush_stream_eq, length_app, length_to_le. lia.
  - lia.
Qed.

Lemma rans_decode_frame n freqs streams out :
  n ≠ 0 → n ≤ MAX_DECODED_BYTES → freqs_ok freqs → length streams = NUM_STREAMS →
  N.of_nat (length (concat streams) + 16) ≤ u32_max →
  decode_frame freqs n ((sizes_of streams ≫= to_le 4) ++ concat streams) = Ok out →
  rans_decode (rans_frame n freqs streams) = Ok out.
Proof.
  intros Hn0 Hmax Hok Hsl Hcomp Hdec. unfold rans_frame. set (comp := N.of_nat (length (concat streams) + 16)) in *.
  set (header := to_le 4 n ++ (freqs ≫= to_le 4) ++ to_le 4 comp).
  set (frame := (sizes_of streams ≫= to_le 4) ++ concat streams) in *.
  assert (length header = 1032%nat) as Hh.
  { unfold header. rewrite !length_app, !length_to_le, length_words, (fo_len _ Hok). done. }
  assert (length frame = N.to_nat comp) as Hfr.
  { unfold frame. rewrite length_app, length_words. unfold sizes_of. rewrite length_fmap, Hsl. unfold comp, NUM_STREAMS. lia. }
  clearbody comp frame. assert (N.of_nat (length (header ++ frame)) ≤ u64_max) as Hall.
  { rewrite length_app, Hh, Hfr. unfold u32_max, u64_max in *. lia. }
  assert (checked_range (header ++ frame) 0 RANS_HEADER_SIZE = Ok header) as Hr1.
  { pose proof (checked_range_app [] header frame) as Hr. cbn [app length] in Hr. rewrite Hh in Hr. by apply Hr. }
  assert (checked_range (header ++ frame) RANS_HEADER_SIZE comp = Ok frame) as Hr2.
  { pose proof (checked_range_app header frame []) as Hr. rewrite app_nil_r, Hh, Hfr, N2Nat.id in Hr. by apply Hr. }
  unfold rans_decode. rewrite Hr1. unfold MAX_DECODED_BYTES in Hmax.
  assert (from_le (field 0 4 header) = n) as ->.
  { change header with ([] ++ header). unfold header. rewrite field_app by (done || apply length_to_le).
    apply from_le_to_le. cbn. lia. }
  rewrite u32_to_usize_ok by (unfold u32_max; lia). unfold decoded_len, MAX_DECODED_BYTES.
  rewrite (proj2 (N.ltb_ge _ n)) by lia.
  assert ((λ index, from_le (field (4 + index * 4) 4 header)) <$> seq 0 256 = freqs) as ->.
  { rewrite <-(fo_len _ Hok). unfold header. apply read_words; [apply length_to_le|by apply freqs_small]. }
  assert (from_le (drop (N.to_nat (RANS_HEADER_SIZE - 4)) header) = comp) as ->.
  { unfold header. rewrite app_assoc, drop_app_length'; [apply from_le_to_le; unfold u32_max in Hcomp; cbn; lia|].
    rewrite length_app, length_to_le, length_words, (fo_len _ Hok). done. }
  rewrite u32_to_usize_ok, (proj2 (N.eqb_neq n 0)) by done.
  assert (validate_frequencies freqs = Ok ()) as ->.
  { unfold validate_frequencies. rewrite validate_total_ok; rewrite (fo_total _ Hok); done. }
  rewrite Hr2, checked_add_ok by (unfold u32_max, u64_max, RANS_HEADER_SIZE, FREQ_TABLE_SIZE in *; lia).
  rewrite length_app, Hh, Hfr.
  rewrite (proj2 (N.eqb_eq _ _)) by (unfold RANS_HEADER_SIZE, FREQ_TABLE_SIZE; lia). done.
Qed.

Lemma rans_encode_ok data :
  Forall (λ b, b < 256) data → data ≠ [] → N.of_nat (length data) ≤ MAX_DECODED_BYTES →
  ∃ freqs, freqs_ok freqs ∧ covers freqs data ∧
    rans_encode data = Ok (rans_frame (N.of_nat (length data)) freqs
      (flush_stream <$> encode_rev (build_cum_table 0 freqs) freqs 0 data)).
Proof.
  intros Hb Hne Hmax. destruct (normalize_ok data Hb Hne) as (Hl & Ht & Hs).
  unfold rans_encode. set (freqs := normalize_frequencies _ _) in *. clearbody freqs.
  assert (freqs_ok freqs) as Hok by by constructor.
  assert (covers freqs data) as Hcov.
  { intros b Hin. apply (Hs (N.to_nat b)). unfold occurs. by rewrite N2Nat.id. }
  exists freqs. split_and!; [done|done|]. unfold encode_input_len, decoded_len, encode_u32_len at 1.
  unfold MAX_DECODED_BYTES in *. rewrite (proj2 (N.ltb_ge _ (N.of_nat (length data)))), (proj2 (N.leb_le (N.of_nat (length data)) u32_max))
    by (unfold u32_max; lia).
  destruct data as [|b data]; [done|]. destruct (decode_frame_ok (b :: data) freqs Hb Hmax Hok Hcov) as (Hc & Hsl & _).
  set (streams := flush_stream <$> _) in *. rewrite sum_lengths. change (NUM_STREAMS * 4)%nat with 16%nat.
  unfold encode_u32_len. rewrite (proj2 (N.leb_le _ u32_max)) by done.
  rewrite stream_lens_ok by lia. unfold rans_frame. by rewrite <-!app_assoc.
Qed.

(** C33. Every byte string of up to 64 MiB encodes, and the frame decodes to
    exactly that string: the normalised frequencies, the four interleaved
    states and the byte stacks all unwind to where the encoder started. *)
Theorem rans_roundtrip data :
  Forall (λ b, b < 256) data → N.of_nat (length data) ≤ MAX_DECODED_BYTES →
  ∃ out, rans_encode data = Ok out ∧ rans_decode out = Ok data.
Proof.
  intros Hb Hmax. destruct (decide (data = [])) as [->|Hne].
  { eexists. split; [done|]. by vm_compute. }
  destruct (rans_encode_ok data Hb Hne Hmax) as (freqs & Hok & Hcov & ->). eexists. split; [done|].
  destruct (decode_frame_ok data freqs Hb Hmax Hok Hcov) as (Hc & Hsl & Hdec).
  apply rans_decode_frame; try done. destruct data; [done|cbn; lia].
Qed.
