(* ===== verification/Fsst.v ===== *)
(** * Fsst: the static symbol table codec for strings

    Model of [nodedb-codec/src/fsst.rs]. Training counts n-grams in a
    [HashMap] and drains it in the map's unspecified order; that order is the
    parameter [drain_order] of the training and encoding definitions, of which
    the theorems assume that it permutes the map's entries. [symbol_set] always
    holds the symbols pushed so far and is read off the list. *)

From Stdlib Require Import Lia ZArith.
From stdpp Require Import base option gmap list.
From S2P Require Import Prelude Codec.

Definition MAX_SYMBOLS : usize := 255.
Definition MAX_SYMBOL_LEN : usize := 8.
Definition ESCAPE : u8 := 255.
Definition TRAINING_ROUNDS : nat := 5.

(** [size_of::<usize>()] and [size_of::<Vec<u8>>()] on a 64-bit target. *)
Definition USIZE_BYTES : usize := 8.
Definition VEC_BYTES : usize := 24.

(** ** Training *)

(** [remaining.starts_with(sym)]. *)
Definition starts_with (sym data : bytes) : bool := bool_decide (take (length sym) data = sym).

(** The length of the first symbol that matches at the head of [data]. *)
Fixpoint longest_symbol_match (symbols : list bytes) (data : bytes) : nat :=
  match symbols with
  | [] => 0
  | sym :: symbols =>
      if starts_with sym data then length sym else longest_symbol_match symbols data
  end.

(** [*candidates.entry(ngram).or_insert(0) += 1] for the n-grams of lengths
    1 to [n] at the head of [s]. *)
Fixpoint count_heads (n : nat) (s : bytes) (candidates : gmap bytes N) : gmap bytes N :=
  match n with
  | O => candidates
  | S n =>
      let candidates := count_heads n s candidates in
      let ngram := take (S n) s in
      <[ngram := default 0 (candidates !! ngram) + 1]> candidates
  end.

(** The [while pos < s.len()] over one string; [s] is what is left. *)
Fixpoint count_string (fuel : nat) (symbols : list bytes) (s : bytes) (candidates : gmap bytes N)
    : gmap bytes N :=
  match fuel, s with
  | S fuel, _ :: tail =>
      let existing_match := longest_symbol_match symbols s in
      if (0 <? existing_match)%nat then count_string fuel symbols (drop existing_match s) candidates
      else
        count_string fuel symbols tail
          (count_heads (Nat.min (N.to_nat MAX_SYMBOL_LEN) (length s)) s candidates)
  | _, _ => candidates
  end.

Definition count_strings (symbols : list bytes) (strings : list bytes) : gmap bytes N :=
  foldl (λ candidates s, count_string (length s) symbols s candidates) ∅ strings.

(** A stable sort by decreasing key, as [sort_by_key(Reverse(..))]. *)
Fixpoint insert_desc {A} (key : A → N) (x : A) (l : list A) : list A :=
  match l with
  | [] => [x]
  | y :: l => if key y <? key x then x :: y :: l else y :: insert_desc key x l
  end.

Definition sort_by_key_desc {A} (key : A → N) (l : list A) : list A :=
  foldl (λ acc x, insert_desc key x acc) [] l.

(** The [for (ngram, _) in scored] that adds the best candidates. *)
Fixpoint add_symbols (symbols : list bytes) (scored : list (bytes * N)) : list bytes :=
  match scored with
  | [] => symbols
  | (ngram, _) :: scored =>
      if MAX_SYMBOLS <=? N.of_nat (length symbols) then symbols
      else if bool_decide (ngram ∈ symbols) then add_symbols symbols scored
      else add_symbols (symbols ++ [ngram]) scored
  end.

Section Fsst.

Context (drain_order : gmap bytes N → list (bytes * N)).

Definition score (candidates : gmap bytes N) : list (bytes * N) :=
  let scored :=
    (λ '(ngram, freq), (ngram, freq * (N.of_nat (length ngram) - 1))) <$> drain_order candidates in
  sort_by_key_desc snd (filter (λ s, bool_decide (0 < s.2)) scored).

Fixpoint train_rounds (rounds : nat) (strings : list bytes) (symbols : list bytes) : list bytes :=
  match rounds with
  | O => symbols
  | S rounds =>
      let candidates := count_strings symbols strings in
      if bool_decide (candidates = ∅) then symbols
      else train_rounds rounds strings (add_symbols symbols (score candidates))
  end.

(** The symbols of [SymbolTable::train], longest first. *)
Definition train (strings : list bytes) : list bytes :=
  match strings with
  | [] => []
  | _ => sort_by_key_desc (N.of_nat ∘ length) (train_rounds TRAINING_ROUNDS strings [])
  end.

(** ** One string *)

(** The first symbol that matches, with its index. *)
Fixpoint find_symbol (idx : nat) (symbols : list bytes) (input : bytes) : option (nat * bytes) :=
  match symbols with
  | [] => None
  | sym :: symbols =>
      if starts_with sym input then Some (idx, sym) else find_symbol (S idx) symbols input
  end.

(** The [while pos < input.len()] of [encode_string]; [input] is what is left. *)
Fixpoint encode_string_loop (fuel : nat) (symbols : list bytes) (input out : bytes) : bytes :=
  match fuel, input with
  | S fuel, b :: tail =>
      match find_symbol 0 symbols input with
      | Some (idx, sym) =>
          encode_string_loop fuel symbols (drop (length sym) input) (out ++ [N.of_nat idx mod 256])
      | None => encode_string_loop fuel symbols tail ((out ++ [ESCAPE]) ++ [b])
      end
  | _, _ => out
  end.

Definition encode_string (symbols : list bytes) (input : bytes) : result CodecError bytes :=
  let? capacity := checked_mul (N.of_nat (length input)) 2 in
  let? _len := decoded_len capacity in
  Ok (encode_string_loop (length input) symbols input []).

(** The [while pos < encoded.len()] of [decode_string]. *)
Fixpoint decode_string_loop (fuel : nat) (symbols : list bytes) (encoded out : bytes)
    : result CodecError bytes :=
  match fuel, encoded with
  | S fuel, byte :: rest =>
      if byte =? ESCAPE then
        match rest with
        | [] => Err Corrupt
        | b :: rest => decode_string_loop fuel symbols rest (out ++ [b])
        end
      else
        match symbols !! N.to_nat byte with
        | None => Err Corrupt
        | Some sym =>
            let? next_len := checked_add (N.of_nat (length out)) (N.of_nat (length sym)) in
            let? _len := decoded_len next_len in
            decode_string_loop fuel symbols rest (out ++ sym)
        end
  | _, _ => Ok out
  end.

Definition decode_string (symbols : list bytes) (encoded : bytes) : result CodecError bytes :=
  let? expanded_capacity := checked_mul (N.of_nat (length encoded)) MAX_SYMBOL_LEN in
  let? _capacity := decoded_len expanded_capacity in
  decode_string_loop (length encoded) symbols encoded [].

(** ** Encoding a batch *)

(** [try_fold] of the lengths with [checked_add]; [extra] is added to each. *)
Fixpoint sum_lens (extra : usize) (total : usize) (l : list bytes) : result CodecError usize :=
  match l with
  | [] => Ok total
  | s :: l =>
      let? total := checked_add total extra in
      let? total := checked_add total (N.of_nat (length s)) in
      sum_lens extra total l
  end.

Fixpoint encode_strings (symbols : list bytes) (strings : list bytes) : result CodecError (list bytes) :=
  match strings with
  | [] => Ok []
  | s :: strings =>
      let? es := encode_string symbols s in
      let? rest := encode_strings symbols strings in
      Ok (es :: rest)
  end.

(** The cumulative offsets, each checked to fit a [u32]. *)
Fixpoint write_offsets (offset : usize) (encoded_strings : list bytes) : result CodecError bytes :=
  match encoded_strings with
  | [] => Ok []
  | es :: rest =>
      let? offset := checked_add offset (N.of_nat (length es)) in
      let? word := encode_u32_len offset in
      let? out := write_offsets offset rest in
      Ok (to_le 4 word ++ out)
  end.

(** A symbol on the wire: its length, cast to a byte, and its bytes. *)
Definition symbol_entry (sym : bytes) : bytes := (N.of_nat (length sym) mod 256) :: sym.

Definition fsst_encode (strings : list bytes) : result CodecError bytes :=
  let count := N.of_nat (length strings) in
  let? _count := encode_input_len count in
  let? input_bytes := sum_lens 0 0 strings in
  let? _len := decoded_len input_bytes in
  let symbols := train strings in
  let? encoded_strings := encode_strings symbols strings in
  let? total_encoded := sum_lens 0 0 encoded_strings in
  let? _len := decoded_len total_encoded in
  let? total_encoded_u32 := encode_u32_len total_encoded in
  let? offset_bytes := checked_mul count 4 in
  let? _len := decoded_len offset_bytes in
  let? symbol_bytes := sum_lens 1 0 symbols in
  let? head := checked_add 2 symbol_bytes in
  let? head := checked_add head 8 in
  let? tail := checked_add offset_bytes total_encoded in
  let? output_len := checked_add head tail in
  let? _len := decoded_len output_len in
  let? string_count := encode_input_len count in
  let out := to_le 2 (N.of_nat (length symbols) mod 2 ^ 16) ++ (symbols ≫= symbol_entry) in
  let out := (out ++ to_le 4 total_encoded_u32) ++ to_le 4 string_count in
  let? offsets := write_offsets 0 encoded_strings in
  Ok ((out ++ offsets) ++ concat encoded_strings).

(** ** Decoding a batch *)

Fixpoint read_symbols (n : nat) (data : bytes) (pos : usize) (symbols : list bytes)
    : result CodecError (list bytes * usize) :=
  match n with
  | O => Ok (symbols, pos)
  | S n =>
      let? head := checked_range data pos 1 in
      let len := default 0 (head !! 0%nat) in
      let? pos := checked_add pos 1 in
      if (len =? 0) || (MAX_SYMBOL_LEN <? len) then Err Corrupt
      else
        let? symbol := checked_range data pos len in
        if bool_decide (symbol ∈ symbols) then Err Corrupt
        else
          let? pos := checked_add pos len in
          read_symbols n data pos (symbols ++ [symbol])
  end.

(** The loop over the offsets. *)
Fixpoint decode_strings (symbols : list bytes) (encoded_data : bytes) (offsets : list usize)
    (prev_end decoded_total : usize) : result CodecError (list bytes * usize) :=
  match offsets with
  | [] => Ok ([], prev_end)
  | end_ :: offsets =>
      if (end_ <? prev_end) || (N.of_nat (length encoded_data) <? end_) then Err Corrupt
      else
        let encoded_str := take (N.to_nat (end_ - prev_end)) (drop (N.to_nat prev_end) encoded_data) in
        let? decoded := decode_string symbols encoded_str in
        let? decoded_total := checked_add decoded_total (N.of_nat (length decoded)) in
        let? _len := decoded_len decoded_total in
        let? rest := decode_strings symbols encoded_data offsets end_ decoded_total in
        Ok (decoded :: rest.1, rest.2)
  end.

(** The offsets, the encoded data and the strings, from [pos] on. *)
Definition decode_body (symbols : list bytes) (data : bytes) (pos total_encoded string_count : usize)
    : result CodecError (list bytes) :=
  let? offsets_size := checked_mul string_count 4 in
  let? _len := decoded_len offsets_size in
  let? offsets_data := checked_range data pos offsets_size in
  let? _cap := checked_capacity string_count USIZE_BYTES in
  let offsets := (λ i, from_le (field (i * 4) 4 offsets_data)) <$> seq 0 (N.to_nat string_count) in
  let? pos := checked_add pos offsets_size in
  let? encoded_data := checked_range data pos total_encoded in
  let? frame_end := checked_add pos total_encoded in
  if negb (frame_end =? N.of_nat (length data)) then Err Corrupt
  else
    let? _cap := checked_capacity string_count VEC_BYTES in
    let? decoded := decode_strings symbols encoded_data offsets 0 0 in
    let '(result, prev_end) := decoded in
    if negb (prev_end =? total_encoded) then Err Corrupt else Ok result.

Definition fsst_decode (data : bytes) : result CodecError (list bytes) :=
  if N.of_nat (length data) <? 2 then Err (Truncated 2 (N.of_nat (length data)))
  else
    let sym_count := from_le (field 0 2 data) in
    if MAX_SYMBOLS <? sym_count then Err Corrupt
    else
      let? _cap := checked_capacity sym_count VEC_BYTES in
      let? table := read_symbols (N.to_nat sym_count) data 2 [] in
      let '(symbols, pos) := table in
      let? header := checked_range data pos 8 in
      let? total_encoded := u32_to_usize (from_le (field 0 4 header)) in
      let? string_count := u32_to_usize (from_le (field 4 4 header)) in
      let? _len := decoded_len total_encoded in
      let? offset_alloc := checked_mul string_count USIZE_BYTES in
      let? result_alloc := checked_mul string_count VEC_BYTES in
      let? container_bytes := checked_add offset_alloc result_alloc in
      let? _len := decoded_len container_bytes in
      let? pos := checked_add pos 8 in
      decode_body symbols data pos total_encoded string_count.

(** ** Delimited text *)

(** [data.split(|&b| b == delimiter)]; [acc] is the current piece. *)
Fixpoint split_on (delimiter : u8) (acc data : bytes) : list bytes :=
  match data with
  | [] => [acc]
  | b :: data => if b =? delimiter then acc :: split_on delimiter [] data else split_on delimiter (acc ++ [b]) data
  end.

Definition encode_delimited (data : bytes) (delimiter : u8) : result CodecError bytes :=
  let? _len := decoded_len (N.of_nat (length data)) in
  fsst_encode (split_on delimiter [] data).

Fixpoint join_loop (first : bool) (delimiter : u8) (out : bytes) (strings : list bytes)
    : result CodecError bytes :=
  match strings with
  | [] => Ok out
  | s :: strings =>
      let separator := if first then 0 else 1 in
      let? next := checked_add (N.of_nat (length out)) separator in
      let? next := checked_add next (N.of_nat (length s)) in
      let? _len := decoded_len next in
      let out := if first then out else out ++ [delimiter] in
      join_loop false delimiter (out ++ s) strings
  end.

Definition decode_delimited (data : bytes) (delimiter : u8) : result CodecError bytes :=
  let? strings := fsst_decode data in
  join_loop true delimiter [] strings.

End Fsst.
