(* ===== verification/FsstFacts.v ===== *)
(** * FsstFacts: symbol tables and the round trip of string batches

    Whatever order the candidate map drains in, training yields at most 255
    distinct symbols of one to eight bytes, longest first; any such table
    decodes the strings it encodes. Some batches the encoder accepts and the
    decoder refuses: the two charge different amounts for one string. *)

From Stdlib Require Import Lia ZArith.
From stdpp Require Import base option gmap sorting list.
From S2P Require Import Prelude Codec Fsst CodecBits CodecFacts.

(** ** Sorting *)

Lemma insert_desc_perm {A} (key : A → N) x l : insert_desc key x l ≡ₚ x :: l.
Proof.
  induction l as [|y l IH]; [done|]. cbn [insert_desc]. destruct (key y <? key x); [done|].
  rewrite IH. apply Permutation_swap.
Qed.

Lemma sort_by_key_desc_perm {A} (key : A → N) l : sort_by_key_desc key l ≡ₚ l.
Proof.
  unfold sort_by_key_desc. assert (∀ acc, foldl (λ acc x, insert_desc key x acc) acc l ≡ₚ acc ++ l) as H.
  { induction l as [|x l IH]; intros acc; cbn [foldl]; [by rewrite app_nil_r|].
    rewrite IH, insert_desc_perm. apply Permutation_middle. }
  apply (H []).
Qed.

Lemma insert_desc_sorted {A} (key : A → N) x l :
  StronglySorted (λ a b, key b ≤ key a) l → StronglySorted (λ a b, key b ≤ key a) (insert_desc key x l).
Proof.
  induction 1 as [|y l Hs IH Hy]; cbn [insert_desc]; [repeat constructor|].
  destruct (N.ltb_spec (key y) (key x)).
  - constructor; [by constructor|]. constructor; [lia|]. eapply Forall_impl; [exact Hy|]. intros z Hz. cbn in Hz. lia.
  - constructor; [done|]. rewrite insert_desc_perm. by constructor.
Qed.

Lemma sort_by_key_desc_sorted {A} (key : A → N) l : StronglySorted (λ a b, key b ≤ key a) (sort_by_key_desc key l).
Proof.
  unfold sort_by_key_desc. assert (∀ acc, StronglySorted (λ a b, key b ≤ key a) acc →
    StronglySorted (λ a b, key b ≤ key a) (foldl (λ acc x, insert_desc key x acc) acc l)) as H.
  { induction l as [|x l IH]; intros acc Ha; [done|]. cbn [foldl]. by apply IH, insert_desc_sorted. }
  apply H. constructor.
Qed.

(** ** Training *)

Definition symbol_ok (sym : bytes) : Prop := (1 ≤ length sym ≤ 8)%nat ∧ Forall (λ b, b < 256) sym.

(** What the decoder accepts as a symbol table. *)
Record table_ok (symbols : list bytes) : Prop := {
  to_nodup : NoDup symbols;
  to_count : (length symbols ≤ 255)%nat;
  to_symbols : Forall symbol_ok symbols;
}.

Lemma count_heads_ok n s candidates :
  (n ≤ 8)%nat → (n ≤ length s)%nat → Forall (λ b, b < 256) s →
  map_Forall (λ ngram _, symbol_ok ngram) candidates →
  map_Forall (λ ngram _, symbol_ok ngram) (count_heads n s candidates).
Proof.
  intros H8 Hs Hb Hc. induction n as [|n IH]; [done|]. cbn [count_heads].
  apply map_Forall_insert_2; [|by apply IH; lia]. split; [rewrite length_take; lia|by apply Forall_take].
Qed.

Lemma count_string_ok fuel symbols s candidates :
  Forall (λ b, b < 256) s → map_Forall (λ ngram _, symbol_ok ngram) candidates →
  map_Forall (λ ngram _, symbol_ok ngram) (count_string fuel symbols s candidates).
Proof.
  revert s candidates. induction fuel as [|fuel IH]; intros s candidates Hb Hc; [by destruct s|].
  destruct s as [|b s]; [done|]. cbn [count_string]. destruct (_ <? _)%nat.
  - apply IH; [by apply Forall_drop|done].
  - apply IH; [by apply Forall_cons_1 in Hb as [_ Hb]|]. change (N.to_nat MAX_SYMBOL_LEN) with 8%nat. apply count_heads_ok; try done; [lia|].
    apply Nat.le_min_r.
Qed.

Lemma count_strings_ok symbols strings :
  Forall (Forall (λ b, b < 256)) strings →
  map_Forall (λ ngram _, symbol_ok ngram) (count_strings symbols strings).
Proof.
  unfold count_strings. assert (∀ c, map_Forall (λ ngram _, symbol_ok ngram) c → Forall (Forall (λ b, b < 256)) strings →
    map_Forall (λ ngram _, symbol_ok ngram)
      (foldl (λ candidates s, count_string (length s) symbols s candidates) c strings)) as H.
  { induction strings as [|s strings IH]; intros c Hc Hs; [done|]. apply Forall_cons_1 in Hs as [Hs1 Hs].
    cbn [foldl]. apply IH; [by apply count_string_ok|done]. }
  apply H. apply map_Forall_empty.
Qed.

Lemma add_symbols_ok symbols scored :
  table_ok symbols → Forall (λ s, symbol_ok s.1) scored → table_ok (add_symbols symbols scored).
Proof.
  revert symbols. induction scored as [|[ngram gain] scored IH]; intros symbols Ht Hs; [done|].
  apply Forall_cons_1 in Hs as [Hn Hs]. cbn [add_symbols]. unfold MAX_SYMBOLS.
  destruct (N.leb_spec 255 (N.of_nat (length symbols))); [done|].
  case_bool_decide as Hin; [by apply IH|]. apply IH; [|done]. destruct Ht as [Hnd Hc Hsy]. constructor.
  - apply NoDup_app. split_and!; [done| |apply NoDup_singleton]. by intros x Hx ->%list_elem_of_singleton.
  - rewrite length_app. cbn [length]. lia.
  - apply Forall_app. split; [done|by constructor].
Qed.

Section Training.

Context (drain_order : gmap bytes N → list (bytes * N)).
(** Draining a [HashMap] yields every entry once. *)
Hypothesis drain_order_perm : ∀ m, drain_order m ≡ₚ map_to_list m.

Lemma score_ok candidates :
  map_Forall (λ ngram _, symbol_ok ngram) candidates → Forall (λ s, symbol_ok s.1) (score drain_order candidates).
Proof.
  intros Hc. unfold score. rewrite sort_by_key_desc_perm. apply Forall_forall. intros [ngram gain] Hin.
  apply list_elem_of_filter in Hin as [_ Hin]. apply list_elem_of_fmap in Hin as ([ng fr] & [= -> ->] & Hin).
  rewrite drain_order_perm in Hin. apply elem_of_map_to_list in Hin. exact (Hc _ _ Hin).
Qed.

Lemma train_ok strings : Forall (Forall (λ b, b < 256)) strings → table_ok (train drain_order strings).
Proof.
  intros Hs. assert (table_ok []) as Hnil by (constructor; [constructor|cbn; lia|constructor]).
  assert (∀ rounds symbols, table_ok symbols → table_ok (train_rounds drain_order rounds strings symbols)) as Hr.
  { induction rounds as [|rounds IH]; intros symbols Ht; [done|]. cbn [train_rounds].
    case_bool_decide; [done|]. apply IH, add_symbols_ok; [done|]. by apply score_ok, count_strings_ok. }
  unfold train. destruct strings as [|s strings]; [done|].
  destruct (Hr TRAINING_ROUNDS [] Hnil) as [Hnd Hc Hsy]. constructor; rewrite sort_by_key_desc_perm; done.
Qed.

(** Longest first: the encoder's first match is a longest match. *)
Lemma train_longest_first strings :
  StronglySorted (λ a b, N.of_nat (length b) ≤ N.of_nat (length a)) (train drain_order strings).
Proof. unfold train. destruct strings; [constructor|]. apply (sort_by_key_desc_sorted (N.of_nat ∘ length)). Qed.

End Training.

(** ** One string *)

Lemma find_symbol_spec idx symbols input i sym :
  find_symbol idx symbols input = Some (i, sym) →
  ∃ j, i = (idx + j)%nat ∧ symbols !! j = Some sym ∧ take (length sym) input = sym.
Proof.
  revert idx. induction symbols as [|s symbols IH]; intros idx; cbn [find_symbol]; [done|].
  unfold starts_with. case_bool_decide as Hs.
  - intros [= <- <-]. exists 0%nat. split_and!; [lia|done|done].
  - intros (j & -> & Hj & Ht)%IH. exists (S j). split_and!; [lia|done|done].
Qed.

(** What the encoder appends for [input] decodes to [input]. *)
Lemma encode_string_loop_ok symbols fuel input out :
  table_ok symbols → (length input ≤ fuel)%nat →
  ∃ enc, encode_string_loop fuel symbols input out = out ++ enc ∧ (length enc ≤ 2 * length input)%nat ∧
    ∀ acc fuel', (length enc ≤ fuel')%nat → N.of_nat (length acc + length input) ≤ MAX_DECODED_BYTES →
      decode_string_loop fuel' symbols enc acc = Ok (acc ++ input).
Proof.
  intros Ht. revert input out. induction fuel as [|fuel IH]; intros input out Hf.
  { destruct input; [|cbn in Hf; lia]. exists []. rewrite app_nil_r. split_and!; [done|done|].
    intros acc fuel' _ _. rewrite app_nil_r. by destruct fuel'. }
  destruct input as [|b tail].
  { exists []. rewrite app_nil_r. split_and!; [done|done|]. intros acc fuel' _ _. rewrite app_nil_r. by destruct fuel'. }
  cbn [encode_string_loop]. destruct (find_symbol 0 symbols (b :: tail)) as [[idx sym]|] eqn:Hfind.
  - apply find_symbol_spec in Hfind as (j & -> & Hj & Htake). cbn [Nat.add].
    destruct Ht as [_ Hcount Hsyms]. destruct (proj1 (Forall_lookup _ _) Hsyms j sym Hj) as [Hlen _].
    pose proof (lookup_lt_Some _ _ _ Hj) as Hjl. set (input := b :: tail) in *.
    assert (input = sym ++ drop (length sym) input) as Hin by (rewrite <-Htake at 1; by rewrite take_drop).
    assert (length input = length sym + length (drop (length sym) input))%nat as Hil by (rewrite Hin at 1; by rewrite length_app).
    destruct (IH (drop (length sym) input) (out ++ [N.of_nat j mod 256])) as (enc & -> & Hel & Hdec); [lia|].
    exists (N.of_nat j mod 256 :: enc). rewrite <-app_assoc. split_and!; [done|cbn [length]; lia|].
    intros acc fuel' Hf' Hmax. destruct fuel' as [|fuel']; [cbn in Hf'; lia|]. cbn [decode_string_loop].
    rewrite N.mod_small by lia. unfold ESCAPE. rewrite (proj2 (N.eqb_neq _ 255)) by lia. rewrite Nat2N.id, Hj.
    rewrite checked_add_ok by (unfold MAX_DECODED_BYTES, u64_max in *; lia). rewrite decoded_len_ok by lia.
    rewrite Hdec by (rewrite ?length_app; cbn [length] in Hf'; lia). by rewrite <-app_assoc, <-Hin.
  - destruct (IH tail ((out ++ [ESCAPE]) ++ [b])) as (enc & -> & Hel & Hdec); [cbn in Hf; lia|].
    exists (ESCAPE :: b :: enc). rewrite <-!app_assoc. split_and!; [done|cbn [length]; lia|].
    intros acc fuel' Hf' Hmax. destruct fuel' as [|fuel']; [cbn in Hf'; lia|]. cbn [decode_string_loop].
    rewrite N.eqb_refl. rewrite Hdec by (rewrite ?length_app; cbn [length] in *; lia). by rewrite <-app_assoc.
Qed.

Lemma encode_string_ok symbols s :
  table_ok symbols → N.of_nat (length s) ≤ 2 ^ 22 →
  ∃ es, encode_string symbols s = Ok es ∧ (length es ≤ 2 * length s)%nat ∧ decode_string symbols es = Ok s.
Proof.
  intros Ht Hs. destruct (encode_string_loop_ok symbols (length s) s [] Ht ltac:(done)) as (es & Henc & Hel & Hdec).
  cbn [app] in Henc. unfold encode_string, decode_string, checked_mul. exists es.
  rewrite (proj2 (N.leb_le _ u64_max)) by (unfold u64_max; lia).
  rewrite decoded_len_ok by (unfold MAX_DECODED_BYTES; lia). rewrite Henc. split_and!; [done|done|].
  unfold MAX_SYMBOL_LEN. rewrite (proj2 (N.leb_le _ u64_max)) by (unfold u64_max; lia).
  rewrite decoded_len_ok by (unfold MAX_DECODED_BYTES; lia). apply Hdec; [done|]. cbn. unfold MAX_DECODED_BYTES. lia.
Qed.

(** ** Batches *)

Definition lens (l : list bytes) : nat := length (concat l).

Lemma sum_lens_ok extra total l :
  total + N.of_nat (lens l) + extra * N.of_nat (length l) ≤ u64_max →
  sum_lens extra total l = Ok (total + N.of_nat (lens l) + extra * N.of_nat (length l)).
Proof.
  revert total. induction l as [|s l IH]; intros total Hm; [cbn; f_equal; lia|].
  unfold lens in *. cbn [sum_lens concat length] in *. rewrite length_app in *.
  rewrite checked_add_ok by lia. rewrite checked_add_ok by lia. rewrite IH by lia. f_equal. lia.
Qed.

Lemma encode_strings_ok symbols strings :
  table_ok symbols → Forall (λ s, N.of_nat (length s) ≤ 2 ^ 22) strings →
  ∃ ess, encode_strings symbols strings = Ok ess ∧ length ess = length strings ∧ (lens ess ≤ 2 * lens strings)%nat ∧
    Forall2 (λ es s, decode_string symbols es = Ok s) ess strings.
Proof.
  intros Ht. induction 1 as [|s strings Hs _ IH]; [by exists []; split_and!|].
  destruct IH as (ess & Heq & Hl & Hlens & Hdec). destruct (encode_string_ok symbols s Ht Hs) as (es & He & Hel & Hd).
  exists (es :: ess). cbn [encode_strings]. rewrite He, Heq. unfold lens in *. cbn [concat length] in *.
  rewrite !length_app. split_and!; [done|lia|lia|by constructor].
Qed.

(** The cumulative ends of the encoded strings, from [off] on. *)
Fixpoint ends (off : N) (ess : list bytes) : list N :=
  match ess with [] => [] | es :: ess => let off := off + N.of_nat (length es) in off :: ends off ess end.

Lemma write_offsets_ok off ess :
  off + N.of_nat (lens ess) ≤ u32_max → write_offsets off ess = Ok (ends off ess ≫= to_le 4).
Proof.
  revert off. induction ess as [|es ess IH]; intros off Hm; [done|]. unfold lens in *.
  cbn [write_offsets concat ends mbind list_bind] in *. rewrite length_app in Hm.
  rewrite checked_add_ok by (unfold u32_max, u64_max in *; lia). unfold encode_u32_len.
  rewrite (proj2 (N.leb_le _ _)) by lia. by rewrite IH by lia.
Qed.

Lemma ends_small off ess : off + N.of_nat (lens ess) ≤ u32_max → Forall (λ x, x < 2 ^ 32) (ends off ess).
Proof.
  revert off. induction ess as [|es ess IH]; intros off Hm; [constructor|]. unfold lens in *.
  cbn [concat ends] in *. rewrite length_app in Hm. constructor; [unfold u32_max in Hm; lia|]. apply IH. lia.
Qed.

Lemma length_ends off ess : length (ends off ess) = length ess.
Proof. revert off. induction ess as [|es ess IH]; intros off; [done|]. cbn. f_equal. apply IH. Qed.

Lemma decode_strings_ok symbols strings ess pre total :
  Forall2 (λ es s, decode_string symbols es = Ok s) ess strings →
  N.of_nat (length (pre ++ concat ess)) ≤ u64_max → total + N.of_nat (lens strings) ≤ MAX_DECODED_BYTES →
  decode_strings symbols (pre ++ concat ess) (ends (N.of_nat (length pre)) ess) (N.of_nat (length pre)) total =
  Ok (strings, N.of_nat (length (pre ++ concat ess))).
Proof.
  intros Hf. revert pre total. induction Hf as [|es s ess strings Hd Hf IH]; intros pre total Hm Ht.
  { cbn. by rewrite app_nil_r. }
  unfold lens in *. cbn [ends concat decode_strings] in *. rewrite !length_app in *.
  rewrite (proj2 (N.ltb_ge _ _)) by lia. rewrite (proj2 (N.ltb_ge (N.of_nat (length pre + _)) _)) by lia. cbn [orb].
  replace (N.to_nat (N.of_nat (length pre) + N.of_nat (length es) - N.of_nat (length pre))) with (length es) by lia.
  rewrite Nat2N.id, drop_app_length, take_app_length, Hd.
  rewrite checked_add_ok by (unfold MAX_DECODED_BYTES, u64_max in *; lia). rewrite decoded_len_ok by lia.
  specialize (IH (pre ++ es) (total + N.of_nat (length s))). rewrite !length_app, <-app_assoc in IH.
  rewrite (Nat2N.inj_add (length pre) (length es)) in IH. rewrite IH by lia. cbn [fst snd]. do 2 f_equal. lia.
Qed.

(** ** The symbol table on the wire *)

Lemma symbol_entry_ok sym : symbol_ok sym → symbol_entry sym = N.of_nat (length sym) :: sym.
Proof. intros [Hl _]. unfold symbol_entry. by rewrite N.mod_small by lia. Qed.

Lemma read_symbols_ok symbols seen pre rest :
  NoDup (seen ++ symbols) → Forall symbol_ok symbols →
  let data := pre ++ (symbols ≫= symbol_entry) ++ rest in
  N.of_nat (length data) ≤ u64_max →
  read_symbols (length symbols) data (N.of_nat (length pre)) seen =
  Ok (seen ++ symbols, N.of_nat (length (pre ++ (symbols ≫= symbol_entry)))).
Proof.
  revert seen pre. induction symbols as [|sym symbols IH]; intros seen pre Hnd Hs data Hm; subst data.
  { cbn. by rewrite !app_nil_r. }
  apply Forall_cons_1 in Hs as [Hsym Hs]. cbn [length read_symbols mbind list_bind] in *.
  rewrite (symbol_entry_ok sym Hsym) in *. destruct Hsym as [Hlen _].
  change ((?x :: sym) ++ ?l) with ([x] ++ sym ++ l) in *. rewrite <-!app_assoc in *.
  set (tail := (symbols ≫= symbol_entry) ++ rest) in *.
  rewrite (checked_range_app pre [N.of_nat (length sym)]) by done. cbn [default lookup list_lookup from_option id].
  pose proof Hm as Hm'. rewrite !length_app in Hm'. cbn [length] in Hm'.
  rewrite checked_add_ok by lia. unfold MAX_SYMBOL_LEN.
  rewrite (proj2 (N.eqb_neq _ 0)), (proj2 (N.ltb_ge 8 _)) by lia. cbn [orb].
  replace (N.of_nat (length pre) + 1) with (N.of_nat (length (pre ++ [N.of_nat (length sym)]))) by (rewrite length_app; cbn; lia).
  rewrite (app_assoc pre), (checked_range_app (pre ++ _) sym) by by rewrite <-app_assoc.
  rewrite bool_decide_false.
  2: { intros Hin. apply NoDup_app in Hnd as (_ & Hd & _). apply (Hd sym Hin). left. }
  rewrite checked_add_ok by (rewrite length_app; cbn [length]; lia).
  replace (N.of_nat (length (pre ++ [N.of_nat (length sym)])) + N.of_nat (length sym))
    with (N.of_nat (length ((pre ++ [N.of_nat (length sym)]) ++ sym))) by (rewrite (length_app _ sym); lia).
  rewrite (app_assoc _ sym). unfold tail. rewrite IH.
  - by rewrite <-!app_assoc.
  - by rewrite <-app_assoc.
  - done.
  - by rewrite <-!app_assoc.
Qed.

Lemma symbols_bytes symbols :
  Forall symbol_ok symbols → (length symbols ≤ 255)%nat →
  length (symbols ≫= symbol_entry) = (lens symbols + length symbols)%nat ∧
  (length (symbols ≫= symbol_entry) ≤ 9 * 255)%nat.
Proof.
  intros Hs Hc. assert (length (symbols ≫= symbol_entry) = (lens symbols + length symbols)%nat ∧
    (length (symbols ≫= symbol_entry) ≤ 9 * length symbols)%nat) as [H1 H2]; [|split; [done|lia]].
  clear Hc. induction Hs as [|sym symbols [Hl _] _ IH]; [done|]. unfold lens in *.
  cbn [mbind list_bind concat length] in *. rewrite !length_app. unfold symbol_entry at 1 3. cbn [length]. lia.
Qed.

(** ** Frames *)

(** The frame of the encoded strings [ess] under [symbols]. *)
Definition fsst_frame (symbols ess : list bytes) : bytes :=
  to_le 2 (N.of_nat (length symbols)) ++ (symbols ≫= symbol_entry) ++
  (to_le 4 (N.of_nat (lens ess)) ++ to_le 4 (N.of_nat (length ess))) ++
  (ends 0 ess ≫= to_le 4) ++ concat ess.

Lemma checked_mul_ok a b : a * b ≤ u64_max → checked_mul a b = Ok (a * b).
Proof. intros H. unfold checked_mul. by rewrite (proj2 (N.leb_le _ _) H). Qed.

Lemma capacity_ok c sz : c * sz ≤ MAX_DECODED_BYTES → checked_capacity c sz = Ok c.
Proof.
  intros H. unfold checked_capacity. rewrite checked_mul_ok by (unfold MAX_DECODED_BYTES, u64_max in *; lia).
  by rewrite decoded_len_ok.
Qed.

Lemma decode_body_ok symbols strings ess pre :
  Forall2 (λ es s, decode_string symbols es = Ok s) ess strings →
  N.of_nat (length ess) ≤ 2 ^ 21 → N.of_nat (lens ess) ≤ 2 ^ 26 → N.of_nat (lens strings) ≤ MAX_DECODED_BYTES →
  N.of_nat (length pre) ≤ 2 ^ 20 →
  decode_body symbols (pre ++ (ends 0 ess ≫= to_le 4) ++ concat ess) (N.of_nat (length pre))
    (N.of_nat (lens ess)) (N.of_nat (length ess)) = Ok strings.
Proof.
  intros Hd Hc Hl Hs Hp. unfold decode_body. unfold MAX_DECODED_BYTES in Hs.
  assert (length (ends 0 ess ≫= to_le 4) = 4 * length ess)%nat as Hw by by rewrite length_words, length_ends.
  set (words := ends 0 ess ≫= to_le 4) in *.
  assert (N.of_nat (length (pre ++ words ++ concat ess)) ≤ u64_max) as Hm.
  { rewrite !length_app, Hw. fold (lens ess). unfold u64_max. lia. }
  rewrite checked_mul_ok by (unfold u64_max; lia). rewrite decoded_len_ok by (unfold MAX_DECODED_BYTES; lia).
  replace (N.of_nat (length ess) * 4) with (N.of_nat (length words)) by lia.
  rewrite checked_range_app by done.
  rewrite capacity_ok by (unfold USIZE_BYTES, MAX_DECODED_BYTES; lia).
  rewrite checked_add_ok by (unfold u64_max; lia). rewrite <-Nat2N.inj_add, <-length_app.
  pose proof (checked_range_app (pre ++ words) (concat ess) []) as Hr. rewrite app_nil_r, <-app_assoc in Hr.
  fold (lens ess) in Hr. rewrite Hr by done. clear Hr. rewrite checked_add_ok by (rewrite length_app; unfold u64_max; lia).
  rewrite (proj2 (N.eqb_eq _ _)) by (rewrite !length_app; unfold lens; lia). cbn [negb].
  rewrite capacity_ok by (unfold VEC_BYTES, MAX_DECODED_BYTES; lia).
  pose proof (read_words 0 [] (ends 0 ess) [] eq_refl) as Hwords. rewrite length_ends, app_nil_r in Hwords.
  cbn [app Nat.add] in Hwords. fold words in Hwords. rewrite Nat2N.id.
  rewrite Hwords by (apply ends_small; unfold u32_max; lia).
  pose proof (decode_strings_ok symbols strings ess [] 0 Hd) as Hds. cbn [app length] in Hds. change (N.of_nat 0) with 0 in Hds.
  rewrite Hds by (unfold MAX_DECODED_BYTES, u64_max; fold (lens ess); lia).
  by rewrite (proj2 (N.eqb_eq _ _)) by done.
Qed.

Lemma fsst_decode_frame symbols strings ess :
  table_ok symbols → Forall2 (λ es s, decode_string symbols es = Ok s) ess strings →
  N.of_nat (length ess) ≤ 2 ^ 21 → N.of_nat (lens ess) ≤ 2 ^ 26 → N.of_nat (lens strings) ≤ MAX_DECODED_BYTES →
  fsst_decode (fsst_frame symbols ess) = Ok strings.
Proof.
  intros [Hnd Hcount Hsyms] Hd Hc Hl Hs. destruct (symbols_bytes symbols Hsyms Hcount) as [_ Hsb].
  unfold fsst_decode, fsst_frame. set (n2 := to_le 2 _). set (entries := symbols ≫= symbol_entry) in *.
  set (header := to_le 4 _ ++ to_le 4 _). set (body := (ends 0 ess ≫= to_le 4) ++ concat ess).
  assert (length n2 = 2%nat) as Hn2 by apply length_to_le.
  assert (length header = 8%nat) as Hh by (unfold header; by rewrite length_app, !length_to_le).
  assert (length body = 4 * length ess + lens ess)%nat as Hb by (unfold body; by rewrite length_app, length_words, length_ends).
  set (data := n2 ++ entries ++ header ++ body).
  assert (length data = 2 + (length entries + (8 + (4 * length ess + lens ess))))%nat as Hlen.
  { unfold data. rewrite !length_app, Hn2, Hh, Hb. done. }
  assert (N.of_nat (length data) ≤ u64_max) as Hm by (unfold u64_max; lia).
  rewrite (proj2 (N.ltb_ge _ 2)) by lia.
  assert (from_le (field 0 2 data) = N.of_nat (length symbols)) as ->.
  { unfold data. change (n2 ++ entries ++ header ++ body) with ([] ++ n2 ++ entries ++ header ++ body).
    rewrite field_app by (done || apply length_to_le). apply from_le_to_le. cbn. lia. }
  unfold MAX_SYMBOLS. rewrite (proj2 (N.ltb_ge 255 _)) by lia.
  rewrite capacity_ok by (unfold VEC_BYTES, MAX_DECODED_BYTES; lia). rewrite Nat2N.id.
  pose proof (read_symbols_ok symbols [] n2 (header ++ body) Hnd Hsyms Hm) as Hread. cbn [app] in Hread.
  rewrite Hn2 in Hread. change (N.of_nat 2) with 2 in Hread. fold entries data in Hread. rewrite Hread. clear Hread.
  pose proof (checked_range_app (n2 ++ entries) header body) as Hr. rewrite <-app_assoc in Hr. fold data in Hr.
  rewrite Hh in Hr. change (N.of_nat 8) with 8 in Hr. rewrite Hr by done. clear Hr.
  assert (from_le (field 0 4 header) = N.of_nat (lens ess)) as ->.
  { change header with ([] ++ header). unfold header. rewrite field_app by (done || apply length_to_le).
    apply from_le_to_le. cbn. lia. }
  assert (from_le (field 4 4 header) = N.of_nat (length ess)) as ->.
  { unfold header. rewrite <-(app_nil_r (to_le 4 (N.of_nat (length ess)))).
    rewrite field_app by apply length_to_le. apply from_le_to_le. cbn. lia. }
  rewrite !u32_to_usize_ok by (unfold u32_max; lia). rewrite decoded_len_ok by (unfold MAX_DECODED_BYTES; lia).
  unfold USIZE_BYTES, VEC_BYTES. rewrite !checked_mul_ok by (unfold u64_max; lia).
  rewrite checked_add_ok by (unfold u64_max; lia). rewrite decoded_len_ok by (unfold MAX_DECODED_BYTES; lia).
  rewrite checked_add_ok by (rewrite length_app; unfold u64_max; lia).
  replace (N.of_nat (length (n2 ++ entries)) + 8) with (N.of_nat (length (n2 ++ entries ++ header)))
    by (rewrite !length_app; lia).
  unfold data, body. rewrite !app_assoc, <-(app_assoc (_ ++ _) (_ ≫= _)).
  apply decode_body_ok; try done. rewrite !length_app, Hn2, Hh. lia.
Qed.

Section Encoding.

Context (drain_order : gmap bytes N → list (bytes * N)).

Lemma fsst_encode_frame strings ess :
  let symbols := train drain_order strings in
  table_ok symbols → encode_strings symbols strings = Ok ess → length ess = length strings →
  N.of_nat (lens strings) ≤ MAX_DECODED_BYTES →
  4 * N.of_nat (length strings) + N.of_nat (lens ess) + 4096 ≤ MAX_DECODED_BYTES →
  fsst_encode drain_order strings = Ok (fsst_frame symbols ess).
Proof.
  intros symbols [Hnd Hcount Hsyms] He Hl Hs Hes. destruct (symbols_bytes symbols Hsyms Hcount) as [Hsb Hsb'].
  unfold fsst_encode, MAX_DECODED_BYTES in *. fold symbols. set (n := N.of_nat (length strings)) in *.
  assert (encode_input_len n = Ok n) as Hn.
  { unfold encode_input_len, encode_u32_len. rewrite decoded_len_ok by (unfold MAX_DECODED_BYTES; lia).
    by rewrite (proj2 (N.leb_le _ _)) by (unfold u32_max; lia). }
  rewrite Hn, sum_lens_ok by (unfold u64_max; lia). rewrite N.add_0_l, N.mul_0_l, N.add_0_r.
  rewrite decoded_len_ok by (unfold MAX_DECODED_BYTES; lia). rewrite He.
  rewrite sum_lens_ok by (unfold u64_max; lia). rewrite N.add_0_l, N.mul_0_l, N.add_0_r.
  rewrite decoded_len_ok by (unfold MAX_DECODED_BYTES; lia). unfold encode_u32_len at 1.
  rewrite (proj2 (N.leb_le _ _)) by (unfold u32_max; lia). rewrite checked_mul_ok by (unfold u64_max; lia).
  rewrite decoded_len_ok by (unfold MAX_DECODED_BYTES; lia). rewrite sum_lens_ok by (unfold u64_max; lia).
  do 4 (rewrite checked_add_ok by (unfold u64_max; lia)). rewrite decoded_len_ok by (unfold MAX_DECODED_BYTES; lia).
  rewrite write_offsets_ok by (unfold u32_max; lia). rewrite N.mod_small by lia.
  unfold fsst_frame, n. rewrite Hl. by rewrite <-!app_assoc.
Qed.

Lemma fsst_batch_roundtrip strings :
  (∀ m, drain_order m ≡ₚ map_to_list m) →
  Forall (Forall (λ b, b < 256)) strings → Forall (λ s, N.of_nat (length s) ≤ 2 ^ 22) strings →
  N.of_nat (length strings) ≤ 2 ^ 21 → N.of_nat (length (concat strings)) ≤ 2 ^ 24 →
  ∃ data, fsst_encode drain_order strings = Ok data ∧ fsst_decode data = Ok strings.
Proof.
  intros Hperm Hb Hs Hc Hl. fold (lens strings) in Hl.
  pose proof (train_ok drain_order Hperm strings Hb) as Ht.
  destruct (encode_strings_ok _ strings Ht Hs) as (ess & He & Hel & Hlens & Hd).
  exists (fsst_frame (train drain_order strings) ess). split.
  - apply fsst_encode_frame; try done; unfold MAX_DECODED_BYTES; lia.
  - apply fsst_decode_frame; try done; unfold MAX_DECODED_BYTES; lia.
Qed.

(** C34. A batch of up to 2^21 byte strings of up to 4 MiB each, 16 MiB
    together, encodes, and the frame decodes to exactly those strings, in
    whatever order the training map drains. *)
Theorem fsst_roundtrip strings :
  (∀ m, drain_order m ≡ₚ map_to_list m) →
  Forall (Forall (λ b, b < 256)) strings → Forall (λ s, N.of_nat (length s) ≤ 2 ^ 22) strings →
  N.of_nat (length strings) ≤ 2 ^ 21 → N.of_nat (length (concat strings)) ≤ 2 ^ 24 →
  ∃ data, fsst_encode drain_order strings = Ok data ∧ fsst_decode data = Ok strings.
Proof. apply fsst_batch_roundtrip. Qed.

(** Empty strings train no symbol. *)
Lemma train_empty n : train drain_order (replicate n []) = [].
Proof.
  unfold train. destruct n as [|n]; [done|]. cbn [replicate TRAINING_ROUNDS train_rounds].
  assert (count_strings [] ([] :: replicate n []) = ∅) as ->; [|by rewrite bool_decide_true].
  unfold count_strings. cbn [foldl length count_string]. by induction n.
Qed.

Lemma encode_strings_empty n : encode_strings [] (replicate n []) = Ok (replicate n []).
Proof. induction n as [|n IH]; [done|]. cbn [replicate encode_strings]. by rewrite IH. Qed.

Lemma lens_empty n : lens (replicate n []) = 0%nat.
Proof. unfold lens. by induction n. Qed.

(** The encoder accepts batches its own decoder refuses: with more than
    2^21 strings the encoder's only limit is the size of the offset table,
    while the decoder also charges 32 bytes of containers per string against
    the same 64 MiB. *)
Theorem fsst_refuses_own_frame n :
  2 ^ 21 < n → n ≤ 2 ^ 23 →
  ∃ data, fsst_encode drain_order (replicate (N.to_nat n) []) = Ok data ∧
    fsst_decode data = Err (ResourceLimit (32 * n) MAX_DECODED_BYTES).
Proof.
  intros Hlo Hhi. set (strings := replicate (N.to_nat n) []).
  assert (length strings = N.to_nat n) as Hl by apply length_replicate.
  exists (fsst_frame [] strings). split.
  - pose proof (fsst_encode_frame strings strings) as He. unfold strings in He at 1 2. rewrite train_empty in He.
    unfold strings at 1. apply He; clear He; try done.
    + constructor; [constructor|cbn; lia|constructor].
    + apply encode_strings_empty.
    + unfold strings. rewrite lens_empty. unfold MAX_DECODED_BYTES. lia.
    + unfold strings. rewrite lens_empty, length_replicate. unfold MAX_DECODED_BYTES. lia.
  - assert (lens strings = 0%nat) as Hz by apply lens_empty. unfold fsst_frame. rewrite Hl, Hz, N2Nat.id.
    cbn [length mbind list_bind app]. set (tail := (ends 0 strings ≫= to_le 4) ++ concat strings).
    assert (length tail = 4 * N.to_nat n)%nat as Htail.
    { unfold tail. rewrite length_app, length_words, length_ends, Hl. fold (lens strings). lia. }
    clearbody tail strings. set (header := to_le 4 (N.of_nat 0) ++ to_le 4 n).
    assert (length header = 8%nat) as Hh by (unfold header; by rewrite length_app, !length_to_le).
    change (to_le 2 (N.of_nat 0)) with [0; 0]. unfold fsst_decode.
    rewrite (proj2 (N.ltb_ge _ 2)) by (rewrite length_app; cbn [length]; lia).
    change (from_le (field 0 2 ([0; 0] ++ header ++ tail))) with 0.
    change (MAX_SYMBOLS <? 0) with false. change (checked_capacity 0 VEC_BYTES) with (@Ok CodecError N 0). cbv match.
    change (N.to_nat 0) with 0%nat. cbn [read_symbols].
    pose proof (checked_range_app [0; 0] header tail) as Hr. rewrite Hh in Hr.
    change (N.of_nat (length [0; 0])) with 2 in Hr. change (N.of_nat 8) with 8 in Hr.
    rewrite Hr by (rewrite !length_app, Hh, Htail; cbn [length]; unfold u64_max; lia).
    assert (from_le (field 0 4 header) = 0) as ->.
    { change header with ([] ++ header). unfold header. rewrite field_app by (done || apply length_to_le). done. }
    assert (from_le (field 4 4 header) = n) as ->.
    { unfold header. rewrite <-(app_nil_r (to_le 4 n)), field_app by apply length_to_le. apply from_le_to_le. cbn. lia. }
    rewrite !u32_to_usize_ok by (unfold u32_max; lia). rewrite decoded_len_ok by done.
    unfold USIZE_BYTES, VEC_BYTES. rewrite !checked_mul_ok by (unfold u64_max; lia).
    rewrite checked_add_ok by (unfold u64_max; lia). replace (n * 8 + n * 24) with (32 * n) by lia.
    unfold decoded_len. by rewrite (proj2 (N.ltb_lt _ _)) by (unfold MAX_DECODED_BYTES; lia).
Qed.

(** ** Delimited text *)

Lemma join_split first d out acc data :
  N.of_nat (length out + 1 + length acc + length data) ≤ MAX_DECODED_BYTES →
  join_loop first d out (split_on d acc data) = Ok (out ++ (if first then [] else [d]) ++ acc ++ data).
Proof.
  revert first out acc. induction data as [|b data IH]; intros first out acc Hm; cbn [split_on length] in *.
  - cbn [join_loop]. rewrite !checked_add_ok by (unfold MAX_DECODED_BYTES, u64_max in *; destruct first; lia).
    rewrite decoded_len_ok by (destruct first; lia). destruct first; by rewrite ?app_nil_r, <-?app_assoc.
  - destruct (N.eqb_spec b d) as [->|].
    + cbn [join_loop]. rewrite !checked_add_ok by (unfold MAX_DECODED_BYTES, u64_max in *; destruct first; lia).
      rewrite decoded_len_ok by (destruct first; lia).
      rewrite IH by (destruct first; rewrite !length_app; cbn [length]; lia).
      destruct first; by rewrite <-!app_assoc.
    + rewrite IH by (rewrite length_app; cbn [length]; lia). by rewrite <-!app_assoc.
Qed.

Lemma split_on_pieces d acc data :
  let strings := split_on d acc data in
  (length strings ≤ length data + 1)%nat ∧ (length (concat strings) ≤ length acc + length data)%nat ∧
  Forall (λ s, (length s ≤ length acc + length data)%nat) strings ∧
  (Forall (λ b, b < 256) (acc ++ data) → Forall (Forall (λ b, b < 256)) strings).
Proof.
  revert acc. induction data as [|b data IH]; intros acc; cbn [split_on].
  - rewrite app_nil_r. split_and!; [cbn; lia|cbn; rewrite app_nil_r; lia|repeat constructor; lia|]. intros H. by constructor.
  - destruct (b =? d).
    + destruct (IH []) as (H1 & H2 & H3 & H4). cbn [length concat app] in *. rewrite length_app. split_and!; [lia|lia| |].
      * constructor; [lia|]. eapply Forall_impl; [exact H3|]. cbn. intros; lia.
      * intros [Ha Hb]%Forall_app. apply Forall_cons_1 in Hb as [_ Hb]. constructor; [done|by apply H4].
    + destruct (IH (acc ++ [b])) as (H1 & H2 & H3 & H4). rewrite length_app in *. cbn [length] in *. split_and!; [lia|lia| |].
      * eapply Forall_impl; [exact H3|]. cbn. intros; lia.
      * intros H. apply H4. by rewrite <-app_assoc.
Qed.

(** Text of less than 2 MiB survives splitting, encoding, decoding and
    joining. *)
Lemma delimited_roundtrip data d :
  (∀ m, drain_order m ≡ₚ map_to_list m) → Forall (λ b, b < 256) data → N.of_nat (length data) < 2 ^ 21 →
  ∃ out, encode_delimited drain_order data d = Ok out ∧ decode_delimited out d = Ok data.
Proof.
  intros Hp Hb Hl. destruct (split_on_pieces d [] data) as (H1 & H2 & H3 & H4). cbn [length app] in *.
  destruct (fsst_batch_roundtrip (split_on d [] data) Hp (H4 Hb)) as (out & He & Hd); [|lia|lia|].
  { eapply Forall_impl; [exact H3|]. cbn. intros; lia. }
  exists out. unfold encode_delimited, decode_delimited. rewrite decoded_len_ok by (unfold MAX_DECODED_BYTES; lia).
  rewrite He, Hd. split; [done|]. apply (join_split true d [] []). cbn [length]. unfold MAX_DECODED_BYTES. lia.
Qed.

End Encoding.
