(* ===== verification/CodecExamples.v ===== *)
(** * CodecExamples: the codecs on concrete data

    The hypotheses of the codec theorems hold on concrete columns, samples,
    byte strings and frames, and the conclusions evaluate. *)

From Stdlib Require Import Lia ZArith.
From stdpp Require Import base option gmap list.
From S2P Require Import Prelude Codec Gorilla FastLanes Rans Fsst.
From S2P Require Import CodecBits CodecFacts GorillaFacts FastLanesFacts RansFacts FsstFacts.

(** Small steps, a jump across the whole range and back. *)
Definition example_column : list i64 :=
  [1700000000000; 1700000010000; 1700000020007; -5; 9223372036854775807; -9223372036854775808; 0]%Z.

Lemma example_column_i64 : Forall is_i64 example_column.
Proof. unfold example_column, is_i64. repeat constructor; lia. Qed.

Lemma delta_roundtrip_witness :
  ∃ data, delta_encode example_column = Ok data ∧ is_slice data ∧
    ∀ data', is_slice data' → (delta_decode data' = Ok example_column ↔ data' = data).
Proof. apply delta_roundtrip; [apply example_column_i64|by vm_compute]. Defined.

Lemma double_delta_roundtrip_witness :
  ∃ data, double_delta_encode example_column = Ok data ∧ double_delta_decode data = Ok example_column.
Proof. apply double_delta_roundtrip; [apply example_column_i64|by vm_compute]. Defined.

(** Eleven bits across two byte borders. *)
Definition example_reader : BitReader := {| br_buf := [0xAB; 0xCD; 0xEF]; br_bit_pos := 5 |}.

Lemma read_bits_bitwise_witness :
  match read_bitwise 11 example_reader 0 with
  | (r', Ok v) => read_bits example_reader 11 = (r', Ok v)
  | (_, Err _) => False
  end.
Proof. refine (read_bits_bitwise example_reader 11 _ _ _); vm_compute; discriminate. Defined.

(** Irregular timestamps; values with a shared window, a new window and no
    change. *)
Definition example_samples : list (i64 * u64) :=
  [(1000%Z, 4607182418800017408); (1010%Z, 4607182418800017408); (1021%Z, 4611686018427387904);
   ((-40000)%Z, 4611686018427387905); (9223372036854775807%Z, 0);
   ((-9223372036854775808)%Z, 18446744073709551615)].

Lemma gorilla_roundtrip_witness :
  decode_samples (gorilla_finish (encode_samples example_samples)) = Ok example_samples.
Proof.
  apply gorilla_roundtrip; [|by vm_compute].
  unfold example_samples, sample_ok, is_i64. repeat constructor; simpl; lia.
Defined.

Lemma fastlanes_roundtrip_witness :
  ∃ data, fastlanes_encode example_column = Ok data ∧ fastlanes_decode data = Ok example_column.
Proof. apply fastlanes_roundtrip; [apply example_column_i64|by vm_compute]. Defined.

(** A column of two blocks, one constant and one short, and its frame. *)
Definition long_column : list i64 := replicate 1024 5%Z ++ [7; -3; 12; 100]%Z.

Definition long_frame : bytes :=
  Eval vm_compute in match fastlanes_encode long_column with Ok data => data | Err _ => [] end.

Lemma long_frame_decodes : fastlanes_decode long_frame = Ok long_column.
Proof. by vm_compute. Qed.

Lemma fastlanes_random_access_witness :
  block_count long_frame = Ok (div_ceil_block (N.of_nat (length long_column))) ∧
  decode_block_range long_frame 1 2 =
    Ok (take (N.to_nat (1024 * (2 - 1))) (drop (N.to_nat (1024 * 1)) long_column)) ∧
  decode_single_block long_frame 1 = Ok (take 1024 (drop (N.to_nat (1024 * 1)) long_column)).
Proof. apply fastlanes_random_access; [exact long_frame_decodes|done|by vm_compute]. Defined.

Lemma block_iterator_complete_witness :
  ∃ it, block_iterator_new long_frame = Ok it ∧
    iterator_collect (S (N.to_nat (bi_blocks_remaining it))) it = Ok <$> chunks (length long_column) long_column ∧
    concat (chunks (length long_column) long_column) = long_column.
Proof. apply block_iterator_complete. exact long_frame_decodes. Defined.

Definition example_text : bytes :=
  [104; 101; 108; 108; 111; 32; 119; 111; 114; 108; 100; 32; 104; 101; 108; 108; 111; 0; 255].

Lemma example_text_bytes : Forall (λ b, b < 256) example_text.
Proof. by repeat constructor. Qed.

Lemma rans_roundtrip_witness :
  ∃ out, rans_encode example_text = Ok out ∧ rans_decode out = Ok example_text.
Proof. apply rans_roundtrip; [exact example_text_bytes|by vm_compute]. Defined.

(** A batch with shared substrings and an empty string; the training map
    drains in the order of [map_to_list]. *)
Definition example_batch : list bytes := [example_text; []; drop 12 example_text].

Lemma fsst_roundtrip_witness :
  ∃ data, fsst_encode map_to_list example_batch = Ok data ∧ fsst_decode data = Ok example_batch.
Proof.
  apply fsst_roundtrip; [done| | |by vm_compute|by vm_compute].
  - by repeat constructor.
  - repeat constructor; by vm_compute.
Defined.

(** The batch compresses: its frame evaluates and decodes. *)
Lemma fsst_example :
  match fsst_encode map_to_list example_batch with
  | Ok data => fsst_decode data = Ok example_batch
  | Err _ => False
  end.
Proof. by vm_compute. Qed.

Lemma fsst_refuses_own_frame_witness :
  ∃ data, fsst_encode map_to_list (replicate (N.to_nat 2097153) []) = Ok data ∧
    fsst_decode data = Err (ResourceLimit (32 * 2097153) MAX_DECODED_BYTES).
Proof. apply fsst_refuses_own_frame; [reflexivity|discriminate]. Defined.
