(* ===== verification/MemState.v ===== *)
(** * Shared state of the memory governor and the code that runs on it

    [nodedb-mem/src/engine.rs], [over_release.rs], [error.rs] and the atomics
    of [budget.rs], [scoped_budget.rs] and [governor/global_counter.rs].

    The governor is called from every core at once, so its operations are
    written as programs over single shared-memory accesses ([prog]) and run
    by a machine that interleaves them one access at a time. An atomic keeps
    the values it has held: a plain load is [Relaxed] almost everywhere in
    the crate and may return an older one, a read-modify-write works on the
    newest. [compare_exchange_weak] may fail although the value matches. *)

From stdpp Require Import base option gmap fin_maps functions list.
From S2P Require Import Prelude.

Open Scope N_scope.

Abbreviation DatabaseId := N (only parsing).
Abbreviation TenantId := N (only parsing).

Inductive EngineId : Type :=
  | Vector | Graph | DocumentSchemaless | DocumentStrict | Kv | Columnar | Timeseries
  | Spatial | Array | Fts | Sparse | Crdt | Query | Wal | Bridge.

(** [EngineId::ALL]; the position in it is [EngineId::index]. *)
Definition engine_all : list EngineId :=
  [Vector; Graph; DocumentSchemaless; DocumentStrict; Kv; Columnar; Timeseries; Spatial; Array;
   Fts; Sparse; Crdt; Query; Wal; Bridge].

Inductive Layer : Type := Global | Database | Tenant | Engine.

#[export] Instance engine_eq_dec : EqDecision EngineId.
Proof. solve_decision. Defined.
#[export] Instance layer_eq_dec : EqDecision Layer.
Proof. solve_decision. Defined.

(** The key of a scoped budget. [MemoryGovernor] has one map for databases
    and one for tenants; here they are one map whose keys say which of the
    two a key belongs to, each half under its own lock. *)
Inductive Scope : Type :=
  | DatabaseScope (db : DatabaseId)
  | TenantScope (db : DatabaseId) (tenant : TenantId).

Definition scope_layer (k : Scope) : Layer :=
  match k with DatabaseScope _ => Database | TenantScope _ _ => Tenant end.

#[export] Instance scope_eq_dec : EqDecision Scope.
Proof. solve_decision. Defined.
#[export] Instance scope_countable : Countable Scope.
Proof.
  refine (inj_countable'
    (λ k, match k with DatabaseScope d => inl d | TenantScope d t => inr (d, t) end)
    (λ x, match x with inl d => DatabaseScope d | inr (d, t) => TenantScope d t end) _).
  by intros [].
Defined.

(** Every [AtomicUsize] of the crate. A scoped counter lives behind an [Arc]
    and is named by the allocation it is; its strong count is an atomic too. *)
Inductive Cell : Type :=
  | GlobalAllocated
  | OverReleased (l : Layer)
  | EngineLimit (e : EngineId)
  | EngineAllocated (e : EngineId)
  | EnginePeak (e : EngineId)
  | EngineRejections (e : EngineId)
  | ScopeAllocated (arc : N)
  | StrongCount (arc : N).

#[export] Instance cell_eq_dec : EqDecision Cell.
Proof. solve_decision. Defined.

Record ScopedBudget : Type := MkScopedBudget {
  sb_limit : option usize;
  sb_allocated : N;
}.

#[export] Instance eta_ScopedBudget : Eta ScopedBudget := λ r,
  MkScopedBudget (sb_limit r) (sb_allocated r).

(** The memory all threads share: the history of each atomic, newest first,
    the two budget maps, how many threads read each of them, and the next
    allocation. *)
Record Mem : Type := MkMem {
  m_cells : Cell → list usize;
  m_budgets : gmap Scope ScopedBudget;
  m_readers : Layer → N;
  m_next : N;
}.

#[export] Instance eta_Mem : Eta Mem := λ r,
  MkMem (m_cells r) (m_budgets r) (m_readers r) (m_next r).

Inductive MemError : Type :=
  | BudgetExhausted (engine : EngineId) (requested available limit : usize)
  | GlobalCeilingExceeded (allocated ceiling requested : usize)
  | DatabaseBudgetExhausted (db : DatabaseId) (requested available limit : usize)
  | TenantBudgetExhausted (db : DatabaseId) (tenant : TenantId) (requested available limit : usize).

(** ** Atomics *)

(** The newest value of an atomic. *)
Definition cell (m : Mem) (c : Cell) : usize := hd 0 (m_cells m c).

(** What a [Relaxed] load may return: the value [seen] writes ago, and the
    newest when there were fewer. *)
Definition cell_seen (m : Mem) (seen : nat) (c : Cell) : usize :=
  List.nth seen (m_cells m c) (cell m c).

Definition set_cell (c : Cell) (v : usize) (m : Mem) : Mem :=
  m {{ m_cells := <[c := v :: m_cells m c]> (m_cells m) }}.

(** [Arc::clone] and the drop of an [Arc]. *)
Definition clone_count (arc : N) (m : Mem) : Mem :=
  set_cell (StrongCount arc) (cell m (StrongCount arc) + 1) m.
Definition drop_count (arc : N) (m : Mem) : Mem :=
  set_cell (StrongCount arc) (cell m (StrongCount arc) - 1) m.

(** ** Programs

    A thread's code: the shared access it makes next and how it goes on with
    the answer. A [Loop] carries the state of a Rust [loop]; its body ends
    with [inl] to go round again and with [inr] to break. *)

Inductive prog (A : Type) : Type :=
  | Ret (a : A)
  | Load (c : Cell) (k : usize → prog A)
  | Store (c : Cell) (v : usize) (k : prog A)
  | FetchAdd (c : Cell) (n : usize) (k : usize → prog A)
  | CompareExchange (c : Cell) (old new : usize) (k : result usize usize → prog A)
  | CloneArc (arc : N) (k : prog A)
  | DropArc (arc : N) (k : prog A)
  | ReadLock (l : Layer) (k : prog A)
  | Get (key : Scope) (k : option ScopedBudget → prog A)
  | ReadUnlock (l : Layer) (k : prog A)
  | WriteLocked (l : Layer) (f : Mem → Mem) (k : prog A)
  | Loop (B : Type) (body : N → prog (N + B)) (s : N) (k : B → prog A).
Arguments Ret {A}.
Arguments Load {A}.
Arguments Store {A}.
Arguments FetchAdd {A}.
Arguments CompareExchange {A}.
Arguments CloneArc {A}.
Arguments DropArc {A}.
Arguments ReadLock {A}.
Arguments Get {A}.
Arguments ReadUnlock {A}.
Arguments WriteLocked {A}.
Arguments Loop {A B}.

Fixpoint bind {A B} (p : prog A) (f : A → prog B) : prog B :=
  match p with
  | Ret a => f a
  | Load c k => Load c (λ v, bind (k v) f)
  | Store c v k => Store c v (bind k f)
  | FetchAdd c n k => FetchAdd c n (λ v, bind (k v) f)
  | CompareExchange c old new k => CompareExchange c old new (λ r, bind (k r) f)
  | CloneArc a k => CloneArc a (bind k f)
  | DropArc a k => DropArc a (bind k f)
  | ReadLock l k => ReadLock l (bind k f)
  | Get key k => Get key (λ r, bind (k r) f)
  | ReadUnlock l k => ReadUnlock l (bind k f)
  | WriteLocked l g k => WriteLocked l g (bind k f)
  | Loop body s k => Loop body s (λ b, bind (k b) f)
  end.

Notation "'let!' x := p 'in' k" := (bind p (λ x, k))
  (at level 10, x name, p at level 100, k at level 200).
Notation "'do!' p ; k" := (bind p (λ _, k))
  (at level 10, p at level 100, k at level 200).

Definition load (c : Cell) : prog usize := Load c Ret.
Definition store (c : Cell) (v : usize) : prog unit := Store c v (Ret tt).
Definition fetch_add (c : Cell) (n : usize) : prog usize := FetchAdd c n Ret.
Definition compare_exchange (c : Cell) (old new : usize) : prog (result usize usize) :=
  CompareExchange c old new Ret.
Definition clone_arc (arc : N) : prog unit := CloneArc arc (Ret tt).
Definition drop_arc (arc : N) : prog unit := DropArc arc (Ret tt).
Definition read_lock (l : Layer) : prog unit := ReadLock l (Ret tt).
Definition read_unlock (l : Layer) : prog unit := ReadUnlock l (Ret tt).
Definition get (key : Scope) : prog (option ScopedBudget) := Get key Ret.
Definition write_locked (l : Layer) (f : Mem → Mem) : prog unit := WriteLocked l f (Ret tt).
Definition loop {B} (s : N) (body : N → prog (N + B)) : prog B := Loop body s Ret.

(** One step of a thread. [seen] is how many writes a load is behind and
    [weak] whether a [compare_exchange_weak] fails for no reason. A write
    section waits for the readers of its map and then runs in one step: until
    its lock is released nobody else reads or changes that map, and the one
    atomic it looks at, a strong count, can meanwhile only be lowered. *)
Definition step {A} (seen : nat) (weak : bool) (p : prog A) (m : Mem) : option (Mem * prog A) :=
  match p with
  | Ret _ => None
  | Load c k => Some (m, k (cell_seen m seen c))
  | Store c v k => Some (set_cell c v m, k)
  | FetchAdd c n k => Some (set_cell c (wrap64 (cell m c + n)) m, k (cell m c))
  | CompareExchange c old new k =>
      if negb weak && (cell m c =? old) then Some (set_cell c new m, k (Ok (cell m c)))
      else Some (m, k (Err (cell m c)))
  | CloneArc a k => Some (clone_count a m, k)
  | DropArc a k => Some (drop_count a m, k)
  | ReadLock l k => Some (m {{ m_readers := <[l := m_readers m l + 1]> (m_readers m) }}, k)
  | Get key k => Some (m, k (m_budgets m !! key))
  | ReadUnlock l k => Some (m {{ m_readers := <[l := m_readers m l - 1]> (m_readers m) }}, k)
  | WriteLocked l f k => if m_readers m l =? 0 then Some (f m, k) else None
  | Loop body s k =>
      Some (m, bind (body s) (λ r, match r with inl s' => Loop body s' k | inr b => k b end))
  end.

(** A thread that nobody disturbs: newest values, no spurious failure. *)
Fixpoint run_alone {A} (fuel : nat) (p : prog A) (m : Mem) : option (Mem * A) :=
  match fuel, p with
  | O, _ => None
  | S _, Ret a => Some (m, a)
  | S fuel, _ => match step 0 false p m with
                 | Some (m, p) => run_alone fuel p m
                 | None => None
                 end
  end.
