(* ===== verification/MemGovernor.v ===== *)
(** * The memory governor's operations

    [nodedb-mem/src/budget.rs], [scoped_budget.rs], [over_release.rs],
    [reserve_scope.rs], [reservation_token.rs], [engine_limits.rs] and
    [governor/]: reserving, charging and releasing bytes in the four layers
    (global, database, tenant, engine), quotas and their teardown; and the
    machine that interleaves any number of such calls. Arithmetic on [usize]
    wraps, as in the release profile. *)

From stdpp Require Import base option gmap fin_maps functions list.
From S2P Require Import Prelude MemState.

Open Scope N_scope.

(** ** Releasing ([budget.rs], [over_release.rs]) *)

Definition atomic_saturating_sub (counter : Cell) (size : usize) : prog usize :=
  if size =? 0 then Ret 0
  else
    let! current := load counter in
    loop current (λ current,
      let new_val := current - size in
      let! r := compare_exchange counter current new_val in
      match r with
      | Ok _ => Ret (inr (size - current))
      | Err actual => Ret (inl actual)
      end).

(** [OverRelease::record]. *)
Definition over_release_record (l : Layer) (shortfall : usize) : prog unit :=
  if shortfall =? 0 then Ret tt
  else do! fetch_add (OverReleased l) 1; Ret tt.

Definition release_layer (counter : Cell) (size : usize) (l : Layer) : prog usize :=
  let! shortfall := atomic_saturating_sub counter size in
  if shortfall =? 0 then Ret 0
  else do! over_release_record l shortfall; Ret shortfall.

(** ** Engine budgets ([budget.rs]) *)

Definition raise_peak (e : EngineId) (new_allocated : usize) : prog unit :=
  let! peak := load (EnginePeak e) in
  loop peak (λ peak,
    if peak <? new_allocated then
      let! r := compare_exchange (EnginePeak e) peak new_allocated in
      match r with
      | Ok _ => Ret (inr tt)
      | Err actual => Ret (inl actual)
      end
    else Ret (inr tt)).

(** [Budget::try_reserve]. *)
Definition budget_try_reserve (e : EngineId) (size : usize) : prog bool :=
  let! limit := load (EngineLimit e) in
  loop 0 (λ _,
    let! current := load (EngineAllocated e) in
    if limit <? wrap64 (current + size) then
      do! fetch_add (EngineRejections e) 1;
      Ret (inr false)
    else
      let! r := compare_exchange (EngineAllocated e) current (wrap64 (current + size)) in
      match r with
      | Ok _ => do! raise_peak e (wrap64 (current + size)); Ret (inr true)
      | Err _ => Ret (inl 0)
      end).

(** [Budget::credit_arc]. *)
Definition budget_credit (e : EngineId) (size : usize) : prog unit :=
  let! old := fetch_add (EngineAllocated e) size in
  raise_peak e (wrap64 (old + size)).

(** [Budget::available]. *)
Definition budget_available (e : EngineId) : prog usize :=
  let! limit := load (EngineLimit e) in
  let! allocated := load (EngineAllocated e) in
  Ret (limit - allocated).

(** [Budget::set_limit]. *)
Definition set_limit (e : EngineId) (new_limit : usize) : prog unit :=
  let! allocated := load (EngineAllocated e) in
  store (EngineLimit e) (N.max new_limit allocated).

(** ** Database and tenant budgets ([scoped_budget.rs]) *)

(** [ScopedBudget::try_reserve]; [Err] carries [BudgetDenied::limit]. *)
Definition scoped_try_reserve (b : ScopedBudget) (size : usize) : prog (result usize N) :=
  let counter := ScopeAllocated (sb_allocated b) in
  match sb_limit b with
  | None =>
      do! fetch_add counter size;
      do! clone_arc (sb_allocated b);
      Ret (Ok (sb_allocated b))
  | Some limit =>
      loop 0 (λ _,
        let! current := load counter in
        if limit <? wrap64 (current + size) then Ret (inr (Err limit))
        else
          let! r := compare_exchange counter current (wrap64 (current + size)) in
          match r with
          | Ok _ => do! clone_arc (sb_allocated b); Ret (inr (Ok (sb_allocated b)))
          | Err _ => Ret (inl 0)
          end)
  end.

(** [ScopedBudget::credit]. *)
Definition scoped_credit (b : ScopedBudget) (size : usize) : prog N :=
  do! fetch_add (ScopeAllocated (sb_allocated b)) size;
  do! clone_arc (sb_allocated b);
  Ret (sb_allocated b).

(** [ScopedBudget::available]. *)
Definition scoped_available (b : ScopedBudget) : prog usize :=
  match sb_limit b with
  | Some limit => let! allocated := load (ScopeAllocated (sb_allocated b)) in Ret (limit - allocated)
  | None => Ret u64_max
  end.

(** [ScopedBudget::new] behind a fresh [Arc], put into the map. *)
Definition insert_scoped (key : Scope) (limit : option usize) (m : Mem) : Mem :=
  let arc := m_next m in
  m {{ m_cells ::= λ cs, <[ScopeAllocated arc := [0]]> (<[StrongCount arc := [1]]> cs);
       m_budgets := <[key := MkScopedBudget limit arc]> (m_budgets m);
       m_next := arc + 1 }}.

(** [HashMap::remove], which drops the entry's [Arc]. *)
Definition remove_scoped (key : Scope) (m : Mem) : Mem :=
  match m_budgets m !! key with
  | Some entry => (drop_count (sb_allocated entry) m) {{ m_budgets := delete key (m_budgets m) }}
  | None => m
  end.

Definition set_scoped_limit (key : Scope) (max_bytes : usize) (m : Mem) : Mem :=
  match m_budgets m !! key with
  | Some entry =>
      m {{ m_budgets := <[key := entry {{ sb_limit := Some max_bytes }}]> (m_budgets m) }}
  | None => insert_scoped key (Some max_bytes) m
  end.

Definition clear_scoped_limit (key : Scope) (m : Mem) : Mem :=
  match m_budgets m !! key with
  | Some entry =>
      if cell m (StrongCount (sb_allocated entry)) =? 1 then remove_scoped key m
      else m {{ m_budgets := <[key := entry {{ sb_limit := None }}]> (m_budgets m) }}
  | None => m
  end.

(** [HashMap::retain] on the entries of one map. *)
Definition retain_scoped (keep : Scope → bool) (m : Mem) : Mem :=
  foldr remove_scoped m (List.filter (λ key, negb (keep key)) (map_to_list (m_budgets m)).*1).

(** ** The unwind scope ([reserve_scope.rs])

    A local of the reserving thread. An engine's counter is named by the
    engine; the identity, only printed, is left out. *)

Record ReserveScope : Type := MkReserveScope {
  rs_global_credited : bool;
  rs_database : option N;
  rs_tenant : option N;
  rs_engine : option EngineId;
  rs_size : usize;
  rs_committed : bool;
}.

#[export] Instance eta_ReserveScope : Eta ReserveScope := λ r,
  MkReserveScope (rs_global_credited r) (rs_database r) (rs_tenant r) (rs_engine r) (rs_size r)
    (rs_committed r).

Definition reserve_scope_new (size : usize) : ReserveScope :=
  MkReserveScope false None None None size false.

Definition try_credit_global (ceiling : usize) (scope : ReserveScope)
    : prog (result MemError ReserveScope) :=
  if rs_size scope =? 0 then Ret (Ok (scope {{ rs_global_credited := true }}))
  else
    loop 0 (λ _,
      let! current := load GlobalAllocated in
      if ceiling <? wrap64 (current + rs_size scope) then
        Ret (inr (Err (GlobalCeilingExceeded current ceiling (rs_size scope))))
      else
        let! r := compare_exchange GlobalAllocated current (wrap64 (current + rs_size scope)) in
        match r with
        | Ok _ => Ret (inr (Ok (scope {{ rs_global_credited := true }})))
        | Err _ => Ret (inl 0)
        end).

Definition credit_global_unchecked (scope : ReserveScope) : prog ReserveScope :=
  do! fetch_add GlobalAllocated (rs_size scope);
  Ret (scope {{ rs_global_credited := true }}).

(** [if let Some(ref counter) = ... { release_layer(...) }]. *)
Definition release_opt (counter : option Cell) (size : usize) (l : Layer) : prog unit :=
  match counter with
  | Some c => do! release_layer c size l; Ret tt
  | None => Ret tt
  end.

(** The [Arc] fields of a dropped struct. *)
Definition drop_arc_opt (arc : option N) : prog unit :=
  match arc with Some a => drop_arc a | None => Ret tt end.

(** [ReserveScope::drop], then its fields. *)
Definition reserve_scope_drop (scope : ReserveScope) : prog unit :=
  do! (if rs_committed scope || (rs_size scope =? 0) then Ret tt
       else
         do! release_opt (EngineAllocated <$> rs_engine scope) (rs_size scope) Engine;
         do! release_opt (ScopeAllocated <$> rs_tenant scope) (rs_size scope) Tenant;
         do! release_opt (ScopeAllocated <$> rs_database scope) (rs_size scope) Database;
         if rs_global_credited scope then
           do! release_layer GlobalAllocated (rs_size scope) Global; Ret tt
         else Ret tt);
  do! drop_arc_opt (rs_database scope);
  drop_arc_opt (rs_tenant scope).

(** ** The reservation token ([reservation_token.rs]) *)

Record ReservationToken : Type := MkToken {
  tk_database_counter : option N;
  tk_tenant_counter : option N;
  tk_engine_counter : option EngineId;
  tk_size : usize;
  tk_db : DatabaseId;
  tk_tenant : TenantId;
  tk_engine : EngineId;
}.

(** [ReserveScope::commit] takes the counters out, so the drop of the
    committed scope releases nothing; [token_from_layers] wraps them. *)
Definition token_from_layers (scope : ReserveScope) (db : DatabaseId) (tenant : TenantId)
    (engine : EngineId) : ReservationToken :=
  MkToken (rs_database scope) (rs_tenant scope) (rs_engine scope) (rs_size scope) db tenant engine.

(** [ReservationToken::drop], then its fields. *)
Definition token_drop (t : ReservationToken) : prog unit :=
  do! (if tk_size t =? 0 then Ret tt
       else
         do! release_opt (EngineAllocated <$> tk_engine_counter t) (tk_size t) Engine;
         do! release_opt (ScopeAllocated <$> tk_tenant_counter t) (tk_size t) Tenant;
         do! release_opt (ScopeAllocated <$> tk_database_counter t) (tk_size t) Database;
         do! release_layer GlobalAllocated (tk_size t) Global;
         Ret tt);
  do! drop_arc_opt (tk_database_counter t);
  drop_arc_opt (tk_tenant_counter t).

(** ** Reserving and charging ([governor/reserve.rs]) *)

(** The early return of an error: the scope is dropped on the way out. *)
Definition denied {A} (scope : ReserveScope) (e : MemError) : prog (result MemError A) :=
  do! reserve_scope_drop scope; Ret (Err e).

Definition try_reserve (ceiling : usize) (db : DatabaseId) (tenant : TenantId) (engine : EngineId)
    (size : usize) : prog (result MemError ReservationToken) :=
  let! credited := try_credit_global ceiling (reserve_scope_new size) in
  match credited with
  | Err e => denied (reserve_scope_new size) e
  | Ok scope =>
      do! read_lock Database;
      let! entry := get (DatabaseScope db) in
      let! database :=
        match entry with
        | Some budget =>
            let! r := scoped_try_reserve budget size in
            match r with
            | Ok arc => Ret (Ok (scope {{ rs_database := Some arc }}))
            | Err limit =>
                let! available := scoped_available budget in
                Ret (Err (DatabaseBudgetExhausted db size available limit))
            end
        | None => Ret (Ok scope)
        end in
      do! read_unlock Database;
      match database with
      | Err e => denied scope e
      | Ok scope =>
          do! read_lock Tenant;
          let! entry := get (TenantScope db tenant) in
          let! tenant_layer :=
            match entry with
            | Some budget =>
                let! r := scoped_try_reserve budget size in
                match r with
                | Ok arc => Ret (Ok (scope {{ rs_tenant := Some arc }}))
                | Err limit =>
                    let! available := scoped_available budget in
                    Ret (Err (TenantBudgetExhausted db tenant size available limit))
                end
            | None => Ret (Ok scope)
            end in
          do! read_unlock Tenant;
          match tenant_layer with
          | Err e => denied scope e
          | Ok scope =>
              let! reserved := budget_try_reserve engine size in
              if reserved : bool then
                Ret (Ok (token_from_layers (scope {{ rs_engine := Some engine }}) db tenant engine))
              else
                let! available := budget_available engine in
                let! limit := load (EngineLimit engine) in
                denied scope (BudgetExhausted engine size available limit)
          end
      end
  end.

Definition charge (db : DatabaseId) (tenant : TenantId) (engine : EngineId) (size : usize)
    : prog ReservationToken :=
  let! scope := credit_global_unchecked (reserve_scope_new size) in
  do! read_lock Database;
  let! entry := get (DatabaseScope db) in
  let! scope :=
    match entry with
    | Some budget =>
        let! arc := scoped_credit budget size in Ret (scope {{ rs_database := Some arc }})
    | None => Ret scope
    end in
  do! read_unlock Database;
  do! read_lock Tenant;
  let! entry := get (TenantScope db tenant) in
  let! scope :=
    match entry with
    | Some budget =>
        let! arc := scoped_credit budget size in Ret (scope {{ rs_tenant := Some arc }})
    | None => Ret scope
    end in
  do! read_unlock Tenant;
  do! budget_credit engine size;
  Ret (token_from_layers (scope {{ rs_engine := Some engine }}) db tenant engine).

(** ** Quotas ([governor/quotas.rs]) *)

Definition set_database_budget (db : DatabaseId) (max_bytes : usize) : prog unit :=
  write_locked Database (set_scoped_limit (DatabaseScope db) max_bytes).

Definition clear_database_budget (db : DatabaseId) : prog unit :=
  write_locked Database (clear_scoped_limit (DatabaseScope db)).

Definition set_tenant_budget (db : DatabaseId) (tenant : TenantId) (max_bytes : usize) : prog unit :=
  write_locked Tenant (set_scoped_limit (TenantScope db tenant) max_bytes).

Definition clear_tenant_budget (db : DatabaseId) (tenant : TenantId) : prog unit :=
  write_locked Tenant (clear_scoped_limit (TenantScope db tenant)).

Definition clear_database_scope (db : DatabaseId) : prog unit :=
  do! write_locked Database (remove_scoped (DatabaseScope db));
  write_locked Tenant (retain_scoped (λ key,
    match key with TenantScope entry_db _ => negb (entry_db =? db) | DatabaseScope _ => true end)).

Definition clear_tenant_scope (tenant : TenantId) : prog unit :=
  write_locked Tenant (retain_scoped (λ key,
    match key with
    | TenantScope _ entry_tenant => negb (entry_tenant =? tenant)
    | DatabaseScope _ => true
    end)).

(** ** Configuration ([engine_limits.rs], [governor/config.rs], [core.rs]) *)

Abbreviation EngineLimits := (EngineId → usize) (only parsing).

Definition limits_uniform (bytes : usize) : EngineLimits := λ _, bytes.
Definition limits_set (engine : EngineId) (bytes : usize) (l : EngineLimits) : EngineLimits :=
  <[engine := bytes]> l.
Definition limits_total (l : EngineLimits) : usize :=
  foldl (λ acc e, wrap64 (acc + l e)) 0 engine_all.

(** [GovernorConfig::validate]. *)
Definition config_validate (ceiling : usize) (limits : EngineLimits) : result MemError unit :=
  if ceiling <? limits_total limits then
    Err (GlobalCeilingExceeded (limits_total limits) ceiling 0)
  else Ok tt.

(** [MemoryGovernor::new]: the limits in place, every other atomic at zero,
    both maps empty. *)
Definition governor_new (ceiling : usize) (limits : EngineLimits) : result MemError Mem :=
  let? _ := config_validate ceiling limits in
  Ok (MkMem (λ c, match c with EngineLimit e => [limits e] | _ => [0] end) ∅ (λ _, 0) 0).

(** ** Any number of callers at once

    Each call occupies a slot: it runs, and a reservation that succeeded then
    holds its token until the token is dropped. [size] is what the call asks
    for, kept beside the code. *)

Inductive Answer : Type :=
  | Reserved (t : ReservationToken)
  | Denied (e : MemError)
  | Finished.

Inductive Slot : Type :=
  | Running (size : usize) (p : prog Answer)
  | Holding (t : ReservationToken)
  | Returned (a : Answer).

Inductive Call : Type :=
  | Reserve (db : DatabaseId) (tenant : TenantId) (engine : EngineId) (size : usize)
  | Charge (db : DatabaseId) (tenant : TenantId) (engine : EngineId) (size : usize)
  | SetLimit (engine : EngineId) (bytes : usize)
  | SetDatabaseBudget (db : DatabaseId) (bytes : usize)
  | ClearDatabaseBudget (db : DatabaseId)
  | SetTenantBudget (db : DatabaseId) (tenant : TenantId) (bytes : usize)
  | ClearTenantBudget (db : DatabaseId) (tenant : TenantId)
  | ClearDatabaseScope (db : DatabaseId)
  | ClearTenantScope (tenant : TenantId).

Definition call_size (c : Call) : usize :=
  match c with Reserve _ _ _ size | Charge _ _ _ size => size | _ => 0 end.

Definition finished (p : prog unit) : prog Answer := do! p; Ret Finished.

Definition call_prog (ceiling : usize) (c : Call) : prog Answer :=
  match c with
  | Reserve db tenant engine size =>
      let! r := try_reserve ceiling db tenant engine size in
      Ret (match r with Ok t => Reserved t | Err e => Denied e end)
  | Charge db tenant engine size => let! t := charge db tenant engine size in Ret (Reserved t)
  | SetLimit engine bytes => finished (set_limit engine bytes)
  | SetDatabaseBudget db bytes => finished (set_database_budget db bytes)
  | ClearDatabaseBudget db => finished (clear_database_budget db)
  | SetTenantBudget db tenant bytes => finished (set_tenant_budget db tenant bytes)
  | ClearTenantBudget db tenant => finished (clear_tenant_budget db tenant)
  | ClearDatabaseScope db => finished (clear_database_scope db)
  | ClearTenantScope tenant => finished (clear_tenant_scope tenant)
  end.

Record World : Type := MkWorld { w_mem : Mem; w_slots : list Slot }.

(** What the scheduler does next: a new call, one step of a slot, or the drop
    of the token a slot holds. *)
Inductive MAction : Type :=
  | Invoke (c : Call)
  | Step (i : nat) (seen : nat) (weak : bool)
  | DropToken (i : nat).

(** [None] where the action is not possible. *)
Definition mact (ceiling : usize) (w : World) (a : MAction) : option World :=
  match a with
  | Invoke c =>
      Some (MkWorld (w_mem w) (w_slots w ++ [Running (call_size c) (call_prog ceiling c)]))
  | Step i seen weak =>
      match w_slots w !! i with
      | Some (Running size (Ret a)) =>
          let s := match a with Reserved t => Holding t | _ => Returned a end in
          Some (MkWorld (w_mem w) (<[i := s]> (w_slots w)))
      | Some (Running size p) =>
          match step seen weak p (w_mem w) with
          | Some (m, p) => Some (MkWorld m (<[i := Running size p]> (w_slots w)))
          | None => None
          end
      | _ => None
      end
  | DropToken i =>
      match w_slots w !! i with
      | Some (Holding t) =>
          Some (MkWorld (w_mem w) (<[i := Running (tk_size t) (finished (token_drop t))]> (w_slots w)))
      | _ => None
      end
  end.

(** A run in which [allowed] holds of every action where it is taken. *)
Fixpoint mrun (ceiling : usize) (allowed : World → MAction → bool) (w : World) (l : list MAction)
    : option World :=
  match l with
  | [] => Some w
  | a :: l =>
      if allowed w a then
        match mact ceiling w a with
        | Some w => mrun ceiling allowed w l
        | None => None
        end
      else None
  end.

(** Bytes asked for by the calls under way and held by the live tokens. *)
Definition slot_size (s : Slot) : usize :=
  match s with Running size _ => size | Holding t => tk_size t | Returned _ => 0 end.

Definition bytes_out (w : World) : N := foldr (λ s acc, slot_size s + acc) 0 (w_slots w).

(** The bytes asked for at one time stay below [2^64]. *)
Definition fits (w : World) (a : MAction) : bool :=
  match a with Invoke c => bytes_out w + call_size c <? 2 ^ 64 | _ => true end.

(** Calls that respect the limits: no unconditional charge, no change of an
    engine's limit. *)
Definition respects_limits (a : MAction) : bool :=
  match a with Invoke (Charge _ _ _ _ | SetLimit _ _) => false | _ => true end.

(** Quotas are set and cleared, but no scope is torn down. *)
Definition keeps_scopes (a : MAction) : bool :=
  match a with Invoke (ClearDatabaseScope _ | ClearTenantScope _) => false | _ => true end.
