(* ===== verification/MemLogic.v ===== *)
(** * Accounting of the memory governor under interleaving

    What a thread has credited and not yet released is its ghost state. [wp]
    says of a program that each of its shared accesses is one the accounting
    allows, whatever other threads do in between; [step_sound] says that a
    thread for which it holds keeps the invariant that every counter is the
    sum of what all threads and tokens have credited. *)

From stdpp Require Import base option gmap fin_maps functions list.
From S2P Require Import Prelude MemState MemGovernor.

Open Scope N_scope.

(** ** Sums over the ghosts of all slots *)

Section total.
Context {G : Type}.
Implicit Types (f h : G → N) (gs : list G).

Definition total f gs : N := foldr (λ g acc, f g + acc) 0 gs.

Lemma total_insert f gs i g g' :
  gs !! i = Some g → total f (<[i := g']> gs) + f g = total f gs + f g'.
Proof.
  revert i. induction gs as [|x gs IH]; intros [|i] Hi; simplify_eq/=; [lia|].
  specialize (IH i Hi). lia.
Qed.

Lemma total_append f gs1 gs2 : total f (gs1 ++ gs2) = total f gs1 + total f gs2.
Proof. induction gs1; simpl; lia. Qed.

Lemma total_le f h gs : (∀ g, g ∈ gs → f g ≤ h g) → total f gs ≤ total h gs.
Proof.
  induction gs as [|g gs IH]; intros Hle; simpl; [done|].
  pose proof (Hle g ltac:(left)). specialize (IH ltac:(intros; apply Hle; by right)). lia.
Qed.

Lemma total_ge f gs i g : gs !! i = Some g → f g ≤ total f gs.
Proof.
  revert i. induction gs as [|x gs IH]; intros [|i] Hi; simplify_eq/=; [lia|].
  specialize (IH i Hi). lia.
Qed.

Lemma total_zero f gs : total f gs = 0 ↔ ∀ g, g ∈ gs → f g = 0.
Proof.
  induction gs as [|x gs IH]; simpl.
  - split; [intros _ g ?%elem_of_nil|]; done.
  - split.
    + intros H g [->|?]%elem_of_cons; [lia|apply IH; [lia|done]].
    + intros H. rewrite (H x) by left. rewrite (proj2 IH); [done|]. intros; apply H; by right.
Qed.
End total.

(** ** Ghost state *)

(** [gh_credits] are the counters credited with [gh_size], last one first;
    [gh_arcs] the scoped counters it holds an [Arc] of; [gh_reading] the read
    lock it holds and [gh_borrow] the entry it found under it. *)
Record Ghost : Type := MkGhost {
  gh_size : usize;
  gh_credits : list Cell;
  gh_arcs : list (Scope * N);
  gh_reading : option Layer;
  gh_borrow : option (Scope * ScopedBudget);
}.

#[export] Instance eta_Ghost : Eta Ghost := λ r,
  MkGhost (gh_size r) (gh_credits r) (gh_arcs r) (gh_reading r) (gh_borrow r).

Definition held (c : Cell) (g : Ghost) : N :=
  if decide (c ∈ gh_credits g) then gh_size g else 0.
Definition arcs_on (n : N) (g : Ghost) : N :=
  N.of_nat (length (filter (λ x : Scope * N, x.2 = n) (gh_arcs g))).
Definition reads (l : Layer) (g : Ghost) : N :=
  if decide (gh_reading g = Some l) then 1 else 0.

Definition is_counter (c : Cell) : Prop :=
  match c with GlobalAllocated | EngineAllocated _ | ScopeAllocated _ => True | _ => False end.

(** Statistics: nothing depends on their values. *)
Definition is_stat (c : Cell) : Prop :=
  match c with EnginePeak _ | EngineRejections _ => True | _ => False end.

Definition may_credit (g : Ghost) (c : Cell) : Prop :=
  (c ∉ gh_credits g) ∧
  match c with
  | GlobalAllocated | EngineAllocated _ => True
  | ScopeAllocated n => ∃ key b, gh_borrow g = Some (key, b) ∧ sb_allocated b = n
  | _ => False
  end.

Section logic.
(** [capped]: the limits are enforced, so engine limits are [lim] for good.
    [kept]: no scope is torn down. *)
Context (capped kept : bool) (ceiling : usize) (lim : EngineId → usize).

(** The cap in force when [g] credits [c]. *)
Definition cap (g : Ghost) (c : Cell) : option usize :=
  if capped then
    match c with
    | GlobalAllocated => Some ceiling
    | EngineAllocated e => Some (lim e)
    | ScopeAllocated _ => gh_borrow g ≫= λ kb, sb_limit kb.2
    | _ => None
    end
  else None.

Definition load_ok (c : Cell) (v : usize) : Prop :=
  match c with EngineLimit e => capped = true → v = lim e | _ => True end.

(** What a write section may do to the map of layer [l]. *)
Inductive quota_update (l : Layer) : (Mem → Mem) → Prop :=
  | qu_set key bytes : scope_layer key = l → quota_update l (set_scoped_limit key bytes)
  | qu_clear key : scope_layer key = l → quota_update l (clear_scoped_limit key)
  | qu_remove key : kept = false → scope_layer key = l → quota_update l (remove_scoped key)
  | qu_retain keep : kept = false → (∀ key, keep key = false → scope_layer key = l) →
      quota_update l (retain_scoped keep).

Fixpoint wp {A} (p : prog A) (g : Ghost) (Q : A → Ghost → Prop) : Prop :=
  match p with
  | Ret a => Q a g
  | Load c k => ∀ v, load_ok c v → wp (k v) g Q
  | Store c v k => capped = false ∧ (∃ e, c = EngineLimit e) ∧ wp k g Q
  | FetchAdd c n k =>
      ((is_stat c ∨ is_counter c ∧ n = 0) ∧ ∀ v, wp (k v) g Q) ∨
      (n = gh_size g ∧ may_credit g c ∧ cap g c = None ∧
       ∀ v, v + n < 2 ^ 64 → wp (k v) (g {{ gh_credits ::= cons c }}) Q)
  | CompareExchange c old new k =>
      (∀ v, wp (k (Err v)) g Q) ∧
      ((is_stat c ∧ wp (k (Ok old)) g Q) ∨
       (may_credit g c ∧
        (old + gh_size g < 2 ^ 64 →
         new = old + gh_size g ∧ (∀ L, cap g c = Some L → new ≤ L) ∧
         wp (k (Ok old)) (g {{ gh_credits ::= cons c }}) Q)) ∨
       (∃ cs, gh_credits g = c :: cs ∧
        (gh_size g ≤ old → new = old - gh_size g ∧ wp (k (Ok old)) (g {{ gh_credits := cs }}) Q)))
  | CloneArc n k =>
      ∃ key b, gh_borrow g = Some (key, b) ∧ sb_allocated b = n ∧
        wp k (g {{ gh_arcs ::= cons (key, n) }}) Q
  | DropArc n k =>
      ∃ l1 key l2, gh_arcs g = l1 ++ (key, n) :: l2 ∧ wp k (g {{ gh_arcs := l1 ++ l2 }}) Q
  | ReadLock l k => gh_reading g = None ∧ wp k (g {{ gh_reading := Some l }}) Q
  | Get key k =>
      gh_reading g = Some (scope_layer key) ∧
      ∀ r, (∀ b key', r = Some b → key' ≠ key → (key', sb_allocated b) ∉ gh_arcs g) →
        wp (k r) (g {{ gh_borrow := pair key <$> r }}) Q
  | ReadUnlock l k =>
      gh_reading g = Some l ∧ wp k (g {{ gh_reading := None; gh_borrow := None }}) Q
  | WriteLocked l f k => quota_update l f ∧ wp k g Q
  | Loop body s k =>
      ∀ s, wp (body s) g (λ r g', match r with inl _ => g' = g | inr b => wp (k b) g' Q end)
  end.

Lemma wp_mono {A} (p : prog A) g (Q1 Q2 : A → Ghost → Prop) :
  (∀ a g, Q1 a g → Q2 a g) → wp p g Q1 → wp p g Q2.
Proof.
  revert g Q1 Q2. induction p as [| | | | | | | | | | |A B body IHb s k IHk];
    intros g Q1 Q2 HQ; simpl; try naive_solver.
  intros Hb s'. eapply IHb; [|apply Hb]. intros [?|b] g'; [done|]. simpl. eauto.
Qed.

Lemma wp_bind {A B} (p : prog A) (f : A → prog B) g Q :
  wp p g (λ a g', wp (f a) g' Q) → wp (bind p f) g Q.
Proof.
  revert g Q. induction p as [| | | | | | | | | | |A C body IHb s k IHk];
    intros g Q; simpl; try naive_solver.
  intros Hb s'. eapply wp_mono; [|apply Hb]. intros [?|b] g'; [done|]. simpl. eauto.
Qed.

(** ** The invariant *)

Record ghost_ok (m : Mem) (g : Ghost) : Prop := {
  go_nodup : NoDup (gh_credits g);
  go_credits c : c ∈ gh_credits g → is_counter c ∧ ∀ n, c = ScopeAllocated n → n < m_next m;
  go_arcs key n : (key, n) ∈ gh_arcs g →
    n < m_next m ∧ (kept = true → ∃ b, m_budgets m !! key = Some b ∧ sb_allocated b = n);
  go_owner key key' b : m_budgets m !! key' = Some b → (key, sb_allocated b) ∈ gh_arcs g → key = key';
  go_borrow key b : gh_borrow g = Some (key, b) →
    m_budgets m !! key = Some b ∧ gh_reading g = Some (scope_layer key);
}.

Record inv (m : Mem) (gs : list Ghost) : Prop := {
  inv_counter c : is_counter c → cell m c = total (held c) gs;
  inv_over l : cell m (OverReleased l) = 0;
  inv_sizes : total gh_size gs < 2 ^ 64;
  inv_readers l : m_readers m l = total (reads l) gs;
  inv_strong key b : m_budgets m !! key = Some b →
    cell m (StrongCount (sb_allocated b)) = total (arcs_on (sb_allocated b)) gs + 1;
  inv_fresh key b : m_budgets m !! key = Some b → sb_allocated b < m_next m;
  inv_inj key1 key2 b1 b2 :
    m_budgets m !! key1 = Some b1 → m_budgets m !! key2 = Some b2 →
    sb_allocated b1 = sb_allocated b2 → key1 = key2;
  inv_ghosts g : g ∈ gs → ghost_ok m g;
  inv_global : capped = true → cell m GlobalAllocated ≤ ceiling;
  inv_engine e : capped = true → cell m (EngineAllocated e) ≤ lim e;
  inv_limit e v : capped = true → v ∈ m_cells m (EngineLimit e) → v = lim e;
  inv_limited e : m_cells m (EngineLimit e) ≠ [];
}.

(** ** Reading a changed memory *)

Lemma cell_set c v m c' : cell (set_cell c v m) c' = if decide (c = c') then v else cell m c'.
Proof. unfold cell, set_cell. simpl. unfold insert, fn_insert. by destruct (decide (c = c')). Qed.

Lemma cells_set_ne c v m c' : c ≠ c' → m_cells (set_cell c v m) c' = m_cells m c'.
Proof. intros H. unfold set_cell. simpl. by rewrite fn_lookup_insert_ne. Qed.

Lemma held_le c g : held c g ≤ gh_size g.
Proof. unfold held. case_decide; lia. Qed.

Lemma held_cons c c' g :
  c' ∉ gh_credits g →
  held c (g {{ gh_credits ::= cons c' }}) = held c g + if decide (c' = c) then gh_size g else 0.
Proof.
  intros Hc'. unfold held. simpl. repeat case_decide; set_solver by lia.
Qed.

Lemma held_pop c c' cs g :
  gh_credits g = c' :: cs → NoDup (gh_credits g) →
  held c g = held c (g {{ gh_credits := cs }}) + if decide (c' = c) then gh_size g else 0.
Proof.
  intros Hg Hn. rewrite Hg in Hn. apply NoDup_cons in Hn as [Hn _].
  unfold held. simpl. rewrite Hg.
  repeat case_decide; set_solver by lia.
Qed.

Lemma arcs_on_zero n g : arcs_on n g = 0 ↔ ∀ key, (key, n) ∉ gh_arcs g.
Proof.
  unfold arcs_on. induction (gh_arcs g) as [|[key' n'] l IH].
  - split; [intros _ key ?%elem_of_nil|]; done.
  - rewrite filter_cons. simpl. case_decide as Hn; simplify_eq/=.
    + split; [lia|]. intros H. destruct (H key'). left.
    + rewrite IH. split.
      * intros H key [?|?]%elem_of_cons; [congruence|by eapply H].
      * intros H key ?. eapply H. by right.
Qed.

(** One ghost and the memory change together and the books still balance. *)
Lemma inv_update m gs i g g' m' :
  inv m gs → gs !! i = Some g → gh_size g' ≤ gh_size g →
  m_budgets m' = m_budgets m → m_next m' = m_next m →
  (∀ c, is_counter c → cell m' c + held c g = cell m c + held c g') →
  (∀ l, cell m' (OverReleased l) = cell m (OverReleased l)) →
  (∀ l, m_readers m' l + reads l g = m_readers m l + reads l g') →
  (∀ key b, m_budgets m !! key = Some b →
     cell m' (StrongCount (sb_allocated b)) + arcs_on (sb_allocated b) g =
     cell m (StrongCount (sb_allocated b)) + arcs_on (sb_allocated b) g') →
  (ghost_ok m g → ghost_ok m g') →
  (capped = true → cell m' GlobalAllocated ≤ ceiling) →
  (∀ e, capped = true → cell m' (EngineAllocated e) ≤ lim e) →
  (∀ e, m_cells m' (EngineLimit e) = m_cells m (EngineLimit e) ∨
        capped = false ∧ m_cells m' (EngineLimit e) ≠ []) →
  inv m' (<[i := g']> gs).
Proof.
  intros Hinv Hi Hsz Hb Hn Hc Ho Hr Hs Hg Hcap1 Hcap2 Hlim.
  assert (∀ x, ghost_ok m x → ghost_ok m' x) as Hok.
  { intros x [H1 H2 H3 H5 H4]. split; rewrite ?Hb, ?Hn; auto. }
  split; rewrite ?Hb, ?Hn; try apply Hinv; try done.
  - intros c Hcc. pose proof (total_insert (held c) gs i g g' Hi).
    specialize (Hc c Hcc). rewrite (inv_counter _ _ Hinv) in Hc by done. lia.
  - intros l. rewrite Ho. apply Hinv.
  - pose proof (total_insert gh_size gs i g g' Hi). pose proof (inv_sizes _ _ Hinv). lia.
  - intros l. pose proof (total_insert (reads l) gs i g g' Hi).
    specialize (Hr l). rewrite (inv_readers _ _ Hinv) in Hr. lia.
  - intros key b Hkb. pose proof (total_insert (arcs_on (sb_allocated b)) gs i g g' Hi).
    specialize (Hs key b Hkb). rewrite (inv_strong _ _ Hinv key b Hkb) in Hs. lia.
  - intros x (j & Hj)%list_elem_of_lookup_1.
    apply list_lookup_insert_Some in Hj as [(<- & <- & _)|[_ Hj]].
    + apply Hok, Hg, (inv_ghosts _ _ Hinv). by eapply list_elem_of_lookup_2.
    + apply Hok, (inv_ghosts _ _ Hinv). by eapply list_elem_of_lookup_2.
  - intros e v Hcp. destruct (Hlim e) as [->|[? _]]; [by apply Hinv|congruence].
  - intros e. destruct (Hlim e) as [->|[_ ?]]; [apply Hinv|done].
Qed.

(** ** Single accesses *)

Ltac cell_eqs := intros; rewrite ?cell_set; repeat case_decide; simplify_eq/=; try done; try lia.

Section access.
Context (m : Mem) (gs : list Ghost) (i : nat) (g : Ghost).
Context (Hinv : inv m gs) (Hi : gs !! i = Some g).

Lemma access_ghost : ghost_ok m g.
Proof. apply (inv_ghosts _ _ Hinv). by eapply list_elem_of_lookup_2. Qed.

Lemma credit_fits c : may_credit g c → cell m c + gh_size g < 2 ^ 64.
Proof.
  intros [Hc Hk]. rewrite (inv_counter _ _ Hinv) by by destruct c.
  pose proof (total_insert (held c) gs i g (g {{ gh_credits ::= cons c }}) Hi) as H1.
  rewrite held_cons in H1 by done. rewrite decide_True in H1 by done.
  pose proof (total_insert gh_size gs i g (g {{ gh_credits ::= cons c }}) Hi) as H2.
  assert (total (held c) (<[i:=g {{ gh_credits ::= cons c }}]> gs)
          ≤ total gh_size (<[i:=g {{ gh_credits ::= cons c }}]> gs)) as H3
    by (apply total_le; intros; apply held_le).
  pose proof (inv_sizes _ _ Hinv). simpl in *. lia.
Qed.

Lemma release_covers c cs : gh_credits g = c :: cs → gh_size g ≤ cell m c.
Proof.
  intros Hg. rewrite (inv_counter _ _ Hinv).
  - pose proof (total_ge (held c) gs i g Hi) as H. unfold held in H at 1.
    rewrite decide_True in H; [done|]. rewrite Hg. left.
  - apply (go_credits _ _ access_ghost c). rewrite Hg. left.
Qed.

Lemma inv_credit c :
  may_credit g c → (∀ L, cap g c = Some L → cell m c + gh_size g ≤ L) →
  inv (set_cell c (cell m c + gh_size g) m) (<[i := g {{ gh_credits ::= cons c }}]> gs).
Proof.
  intros [Hc Hk] HL. eapply inv_update; try done.
  - intros c' Hc'. rewrite held_cons by done. cell_eqs.
  - cell_eqs.
  - intros key b Hkb. unfold arcs_on. simpl. cell_eqs.
  - intros [H1 H2 H3 H5 H4]. split; simpl; try done.
    + by constructor.
    + intros c' [->|Hc']%elem_of_cons; [|auto]. split; [by destruct c|].
      intros n ->. destruct Hk as (key & b & Hb & <-). by eapply (inv_fresh _ _ Hinv), H4.
  - intros Hcp. unfold cap in HL. rewrite Hcp in HL. pose proof (inv_global _ _ Hinv Hcp).
    cell_eqs. by apply HL.
  - intros e Hcp. unfold cap in HL. rewrite Hcp in HL. pose proof (inv_engine _ _ Hinv e Hcp).
    cell_eqs. by apply HL.
  - intros e. left. apply cells_set_ne. by intros ->.
Qed.

Lemma inv_release c cs :
  gh_credits g = c :: cs →
  inv (set_cell c (cell m c - gh_size g) m) (<[i := g {{ gh_credits := cs }}]> gs).
Proof.
  intros Hg. pose proof (release_covers c cs Hg). pose proof access_ghost as [H1 H2 H3 H5 H4].
  assert (is_counter c) as Hc by (apply H2; rewrite Hg; left).
  eapply inv_update; try done.
  - intros c' Hc'. rewrite (held_pop c' c cs) by done. cell_eqs.
  - cell_eqs.
  - intros key b Hkb. unfold arcs_on. simpl. cell_eqs.
  - intros _. rewrite Hg in H1. split; simpl; try done.
    + by apply NoDup_cons in H1 as [_ ?].
    + intros c' Hc'. apply H2. rewrite Hg. by right.
  - intros Hcp. pose proof (inv_global _ _ Hinv Hcp). cell_eqs.
  - intros e Hcp. pose proof (inv_engine _ _ Hinv e Hcp). cell_eqs.
  - intros e. left. apply cells_set_ne. by intros ->.
Qed.

Lemma inv_stat c v : is_stat c → inv (set_cell c v m) gs.
Proof.
  intros Hc. rewrite <-(list_insert_id gs i g Hi).
  eapply inv_update; try done; try (by cell_eqs).
  - intros c' Hc'. cell_eqs. by destruct c'.
  - intros Hcp. pose proof (inv_global _ _ Hinv Hcp). cell_eqs.
  - intros e Hcp. pose proof (inv_engine _ _ Hinv e Hcp). cell_eqs.
  - intros e. left. apply cells_set_ne. by intros ->.
Qed.

(** A counter written with the value it has. *)
Lemma inv_touch c : is_counter c → inv (set_cell c (cell m c) m) gs.
Proof.
  intros Hc. rewrite <-(list_insert_id gs i g Hi).
  eapply inv_update; try done; try (by cell_eqs).
  - intros Hcp. pose proof (inv_global _ _ Hinv Hcp). cell_eqs.
  - intros e Hcp. pose proof (inv_engine _ _ Hinv e Hcp). cell_eqs.
  - intros e. left. apply cells_set_ne. by intros ->.
Qed.

Lemma counter_fits c : is_counter c → cell m c < 2 ^ 64.
Proof.
  intros Hc. rewrite (inv_counter _ _ Hinv) by done.
  assert (total (held c) gs ≤ total gh_size gs) by (apply total_le; intros; apply held_le).
  pose proof (inv_sizes _ _ Hinv). lia.
Qed.

Lemma inv_store_limit e v : capped = false → inv (set_cell (EngineLimit e) v m) gs.
Proof.
  intros Hcp. rewrite <-(list_insert_id gs i g Hi).
  eapply inv_update; try done; try (by cell_eqs); try congruence.
  intros e'. destruct (decide (e = e')) as [->|].
  - right. split; [done|]. unfold set_cell. simpl. by rewrite fn_lookup_insert.
  - left. apply cells_set_ne. congruence.
Qed.

Lemma inv_clone key b :
  gh_borrow g = Some (key, b) →
  inv (clone_count (sb_allocated b) m) (<[i := g {{ gh_arcs ::= cons (key, sb_allocated b) }}]> gs).
Proof.
  intros Hb. pose proof access_ghost as [H1 H2 H3 H5 H4]. unfold clone_count.
  eapply inv_update; try done; try (by cell_eqs).
  - intros key' b' _. unfold arcs_on. simpl.
    generalize (sb_allocated b) (sb_allocated b'). intros n n'. rewrite filter_cons. cell_eqs.
  - intros _. split; simpl; try done; [intros key' n [[= -> ->]|?]%elem_of_cons; [|auto]|].
    + destruct (H4 key b Hb) as [Hk _]. split; [by eapply Hinv|]. intros _. by exists b.
    + intros key1 key' b' Hb' [[= -> Heq]|?]%elem_of_cons; [|eauto].
      destruct (H4 key b Hb) as [Hk _]. by eapply (inv_inj _ _ Hinv).
  - intros Hcp. pose proof (inv_global _ _ Hinv Hcp). cell_eqs.
  - intros e Hcp. pose proof (inv_engine _ _ Hinv e Hcp). cell_eqs.
  - intros e. left. by apply cells_set_ne.
Qed.

Lemma inv_drop key n l1 l2 :
  gh_arcs g = l1 ++ (key, n) :: l2 →
  inv (drop_count n m) (<[i := g {{ gh_arcs := l1 ++ l2 }}]> gs).
Proof.
  intros Hg. pose proof access_ghost as [H1 H2 H3 H5 H4]. unfold drop_count.
  eapply inv_update; try done; try (by cell_eqs).
  - intros key' b' Hkb. unfold arcs_on. simpl. rewrite Hg, !filter_app, filter_cons, !length_app.
    pose proof (inv_strong _ _ Hinv _ _ Hkb) as Hs. revert Hs. generalize (sb_allocated b').
    intros n' Hs. cell_eqs.
  - intros _. rewrite Hg in H3, H5. split; simpl; try done.
    + intros key' n' Hn. apply H3. set_solver.
    + intros key1 key' b' Hb' Hn. eapply H5; [done|]. set_solver.
  - intros Hcp. pose proof (inv_global _ _ Hinv Hcp). cell_eqs.
  - intros e Hcp. pose proof (inv_engine _ _ Hinv e Hcp). cell_eqs.
  - intros e. left. by apply cells_set_ne.
Qed.

Lemma inv_lock l :
  gh_reading g = None →
  inv (m {{ m_readers := <[l := m_readers m l + 1]> (m_readers m) }})
    (<[i := g {{ gh_reading := Some l }}]> gs).
Proof.
  intros Hg. pose proof access_ghost as [H1 H2 H3 H5 H4].
  eapply inv_update; try done; try apply Hinv; simpl.
  - intros l'. unfold reads. rewrite Hg. simpl. unfold insert, fn_insert.
    repeat case_decide; simplify_eq; lia.
  - intros _. split; simpl; try done. intros key b Hb. destruct (H4 _ _ Hb). congruence.
  - by left.
Qed.

Lemma inv_unlock l :
  gh_reading g = Some l →
  inv (m {{ m_readers := <[l := m_readers m l - 1]> (m_readers m) }})
    (<[i := g {{ gh_reading := None; gh_borrow := None }}]> gs).
Proof.
  intros Hg. pose proof access_ghost as [H1 H2 H3 H5 H4].
  assert (1 ≤ m_readers m l).
  { rewrite (inv_readers _ _ Hinv). pose proof (total_ge (reads l) gs i g Hi) as H.
    unfold reads in H at 1. by rewrite decide_True in H. }
  eapply inv_update; try done; try apply Hinv; simpl.
  - intros l'. unfold reads. rewrite Hg. simpl. unfold insert, fn_insert.
    repeat case_decide; simplify_eq; lia.
  - by left.
Qed.

Lemma inv_get key :
  gh_reading g = Some (scope_layer key) →
  inv m (<[i := g {{ gh_borrow := pair key <$> m_budgets m !! key }}]> gs).
Proof.
  intros Hg. pose proof access_ghost as [H1 H2 H3 H5 H4].
  eapply inv_update; try done; try apply Hinv; simpl.
  - intros _. split; simpl; try done. intros key' b'.
    destruct (m_budgets m !! key) as [b|] eqn:Hb; simpl; [|done]. by intros [= <- <-].
  - by left.
Qed.
End access.

(** ** Write sections *)

Section quota.
Context (m : Mem) (gs : list Ghost) (l : Layer).
Context (Hinv : inv m gs) (Hl : m_readers m l = 0).

(** Nobody stands on an entry of a map that is being written. *)
Lemma not_borrowed g key b :
  g ∈ gs → gh_borrow g = Some (key, b) → scope_layer key ≠ l.
Proof.
  intros Hg Hb Hk. destruct (go_borrow _ _ (inv_ghosts _ _ Hinv g Hg) key b Hb) as [_ Hr].
  rewrite (inv_readers _ _ Hinv) in Hl. pose proof (proj1 (total_zero _ _) Hl g Hg) as Hz.
  unfold reads in Hz. by rewrite decide_True in Hz by congruence.
Qed.

Lemma inv_relimit key b L :
  scope_layer key = l → m_budgets m !! key = Some b →
  inv (m {{ m_budgets := <[key := b {{ sb_limit := L }}]> (m_budgets m) }}) gs.
Proof.
  intros Hk Hb.
  assert (∀ key' b', <[key:=b {{ sb_limit := L }}]> (m_budgets m) !! key' = Some b' →
          ∃ b0, m_budgets m !! key' = Some b0 ∧ sb_allocated b0 = sb_allocated b') as Hold.
  { intros key' b' [[<- <-]|[_ H]]%lookup_insert_Some; [by exists b|by exists b']. }
  split; simpl; try apply Hinv.
  - intros key' b' (b0 & Hb0 & <-)%Hold. by apply (inv_strong _ _ Hinv key').
  - intros key' b' (b0 & Hb0 & <-)%Hold. by apply (inv_fresh _ _ Hinv key').
  - intros k1 k2 b1 b2 (b3 & H3 & <-)%Hold (b4 & H4 & <-)%Hold. by apply (inv_inj _ _ Hinv).
  - intros g Hg. destruct (inv_ghosts _ _ Hinv g Hg) as [H1 H2 H3 H5 H4]. split; simpl; try done.
    + intros key' n Hn. destruct (H3 _ _ Hn) as [? Hkept]. split; [done|]. intros Hkp.
      destruct (Hkept Hkp) as (b' & Hb' & <-). destruct (decide (key = key')) as [<-|Hne].
      * rewrite Hb in Hb'. simplify_eq. rewrite lookup_insert_eq. eauto.
      * rewrite lookup_insert_ne by done. eauto.
    + intros key1 key' b' (b0 & Hb0 & <-)%Hold. by apply H5.
    + intros key' b' Hb'. destruct (H4 _ _ Hb') as [? ?]. split; [|done].
      rewrite lookup_insert_ne; [done|]. intros <-. by eapply not_borrowed.
Qed.

Lemma inv_insert key L :
  scope_layer key = l → m_budgets m !! key = None → inv (insert_scoped key L m) gs.
Proof.
  intros Hk Hb.
  assert (∀ c, cell (insert_scoped key L m) c =
               if decide (c = ScopeAllocated (m_next m)) then 0 else
               if decide (c = StrongCount (m_next m)) then 1 else cell m c) as Hcell.
  { intros c. unfold cell, insert_scoped. simpl. unfold insert, fn_insert.
    repeat case_decide; simplify_eq; done. }
  assert (∀ g n, g ∈ gs → m_next m ≤ n → held (ScopeAllocated n) g = 0 ∧ arcs_on n g = 0) as Hnew.
  { intros g n Hg Hn. destruct (inv_ghosts _ _ Hinv g Hg) as [_ H2 H3 _ _]. split.
    - unfold held. case_decide as Hc; [|done]. destruct (H2 _ Hc) as [_ H]. specialize (H n eq_refl). lia.
    - apply arcs_on_zero. intros key' Hin. destruct (H3 _ _ Hin). lia. }
  pose (bs := <[key := MkScopedBudget L (m_next m)]> (m_budgets m)).
  assert (m_budgets (insert_scoped key L m) = bs) as Hbs by done.
  split; rewrite ?Hbs; unfold bs; try apply Hinv; try (intros; rewrite Hcell; by apply Hinv).
  - intros c Hc. rewrite Hcell. repeat case_decide; simplify_eq/=; [|by apply Hinv].
    symmetry. apply total_zero. intros g Hg. by apply Hnew.
  - intros key' b' [[<- <-]|[_ H]]%lookup_insert_Some; rewrite Hcell; simpl.
    + rewrite decide_True by done.
      rewrite (proj2 (total_zero _ _)); [done|]. intros g Hg. by apply Hnew.
    + pose proof (inv_fresh _ _ Hinv _ _ H). rewrite !decide_False by (intros [=]; lia).
      by apply (inv_strong _ _ Hinv key').
  - intros key' b' [[<- <-]|[_ H]]%lookup_insert_Some; simpl; [lia|].
    pose proof (inv_fresh _ _ Hinv _ _ H). lia.
  - intros k1 k2 b1 b2 [[<- <-]|[_ H]]%lookup_insert_Some [[<- <-]|[_ H']]%lookup_insert_Some;
      simpl; try done; intros Heq.
    + pose proof (inv_fresh _ _ Hinv _ _ H'). lia.
    + pose proof (inv_fresh _ _ Hinv _ _ H). lia.
    + by eapply (inv_inj _ _ Hinv).
  - intros g Hg. destruct (inv_ghosts _ _ Hinv g Hg) as [H1 H2 H3 H5 H4]. split; simpl; try done.
    + intros c Hc. destruct (H2 c Hc) as [? Hn]. split; [done|]. intros n ->.
      specialize (Hn n eq_refl). lia.
    + intros key' n Hn. destruct (H3 _ _ Hn) as [? Hkept]. split; [lia|]. intros Hkp.
      destruct (Hkept Hkp) as (b' & Hb' & <-). rewrite lookup_insert_ne by congruence. eauto.
    + intros key1 key' b' [[<- <-]|[_ H]]%lookup_insert_Some Hin; [|by eapply H5].
      destruct (H3 _ _ Hin). simpl in *. lia.
    + intros key' b' Hb'. destruct (H4 _ _ Hb') as [? ?]. split; [|done].
      rewrite lookup_insert_ne by congruence. done.
Qed.

Lemma inv_remove key :
  scope_layer key = l →
  (kept = true → ∀ b, m_budgets m !! key = Some b → total (arcs_on (sb_allocated b)) gs = 0) →
  inv (remove_scoped key m) gs.
Proof.
  intros Hk Hidle. unfold remove_scoped. destruct (m_budgets m !! key) as [b|] eqn:Hb; [|done].
  split; simpl; try apply Hinv.
  - intros c Hc. transitivity (cell m c); [|by apply Hinv].
    transitivity (cell (drop_count (sb_allocated b) m) c); [done|]. unfold drop_count. cell_eqs.
  - intros key' b' [Hne H]%lookup_delete_Some. rewrite <-(inv_strong _ _ Hinv key' b' H).
    transitivity (cell (drop_count (sb_allocated b) m) (StrongCount (sb_allocated b'))); [done|].
    unfold drop_count. rewrite cell_set, decide_False; [done|]. intros [= Heq].
    by eapply Hne, (inv_inj _ _ Hinv).
  - intros key' b' [_ H]%lookup_delete_Some. by eapply (inv_fresh _ _ Hinv).
  - intros k1 k2 b1 b2 [_ H1]%lookup_delete_Some [_ H2]%lookup_delete_Some.
    by eapply (inv_inj _ _ Hinv).
  - intros g Hg. destruct (inv_ghosts _ _ Hinv g Hg) as [H1 H2 H3 H5 H4]. split; simpl; try done.
    + intros key' n Hn. destruct (H3 _ _ Hn) as [? Hkept]. split; [done|]. intros Hkp.
      destruct (Hkept Hkp) as (b' & Hb' & <-). exists b'. split; [|done].
      apply lookup_delete_Some. split; [|done]. intros <-. rewrite Hb in Hb'. simplify_eq.
      pose proof (proj1 (total_zero _ _) (Hidle Hkp b' eq_refl) g Hg) as Hz.
      by eapply arcs_on_zero.
    + intros key1 key' b' [_ H]%lookup_delete_Some. by apply H5.
    + intros key' b' Hb'. destruct (H4 _ _ Hb') as [? ?]. split; [|done].
      apply lookup_delete_Some. split; [|done]. intros <-. by eapply not_borrowed.
Qed.
End quota.

Lemma remove_readers key m : m_readers (remove_scoped key m) = m_readers m.
Proof. unfold remove_scoped. by destruct (m_budgets m !! key). Qed.

Lemma inv_quota m gs l f :
  inv m gs → m_readers m l = 0 → quota_update l f → inv (f m) gs.
Proof.
  intros Hinv Hl [key bytes Hk|key Hk|key Hkp Hk|keep Hkp Hk].
  - unfold set_scoped_limit. destruct (m_budgets m !! key) as [b|] eqn:Hb.
    + by eapply inv_relimit.
    + by eapply inv_insert.
  - unfold clear_scoped_limit. destruct (m_budgets m !! key) as [b|] eqn:Hb; [|done].
    case N.eqb_spec; intros H1.
    + eapply inv_remove; try done. intros _ b' Hb'. rewrite Hb in Hb'. simplify_eq.
      pose proof (inv_strong _ _ Hinv _ _ Hb). lia.
    + by eapply inv_relimit.
  - eapply inv_remove; try done. congruence.
  - unfold retain_scoped. generalize (map_to_list (m_budgets m)).*1. intros keys.
    assert (inv (foldr remove_scoped m (List.filter (λ key, negb (keep key)) keys)) gs ∧
            m_readers (foldr remove_scoped m (List.filter (λ key, negb (keep key)) keys)) l = 0)
      as [? _]; [|done].
    induction keys as [|key keys [IH1 IH2]]; simpl; [done|].
    destruct (keep key) eqn:Hkey; simpl; [done|]. rewrite remove_readers. split; [|done].
    eapply inv_remove; try done; [by apply Hk|congruence].
Qed.

(** ** One step of a thread *)

(** Nothing a step does lifts a capped scope over its cap. *)
Definition keeps_caps (m m' : Mem) : Prop :=
  capped = true → ∀ key b L,
    m_budgets m !! key = Some b → sb_limit b = Some L →
    cell m' (ScopeAllocated (sb_allocated b)) ≤ N.max (cell m (ScopeAllocated (sb_allocated b))) L.

Lemma keeps_caps_same m m' :
  (∀ n, cell m' (ScopeAllocated n) ≤ cell m (ScopeAllocated n)) → keeps_caps m m'.
Proof. intros H _ key b L _ _. specialize (H (sb_allocated b)). lia. Qed.

Lemma keeps_caps_credit m gs i g c :
  inv m gs → gs !! i = Some g → may_credit g c →
  (∀ L, cap g c = Some L → cell m c + gh_size g ≤ L) →
  keeps_caps m (set_cell c (cell m c + gh_size g) m).
Proof.
  intros Hinv Hi [_ Hc] HL Hcp key b L Hb Hlim. rewrite cell_set. case_decide; [|lia]. subst c.
  destruct Hc as (key' & b' & Hg & Heq).
  destruct (go_borrow _ _ (access_ghost _ _ _ _ Hinv Hi) _ _ Hg) as [Hb' _].
  assert (key' = key) as -> by by eapply (inv_inj _ _ Hinv).
  rewrite Hb in Hb'. simplify_eq. specialize (HL L). unfold cap in HL. rewrite Hcp, Hg in HL.
  specialize (HL Hlim). lia.
Qed.

Lemma quota_cells m l f n :
  quota_update l f → cell (f m) (ScopeAllocated n) ≤ cell m (ScopeAllocated n).
Proof.
  assert (∀ key m, cell (remove_scoped key m) (ScopeAllocated n) = cell m (ScopeAllocated n)) as Hrem.
  { intros key m'. unfold remove_scoped. by destruct (m_budgets m' !! key). }
  intros [key bytes Hk|key Hk|key Hkp Hk|keep Hkp Hk].
  - unfold set_scoped_limit. destruct (m_budgets m !! key); [done|].
    unfold cell, insert_scoped. simpl. unfold insert, fn_insert. case_decide; simpl; [lia|done].
  - unfold clear_scoped_limit. destruct (m_budgets m !! key); [|done].
    destruct (_ =? 1); [by rewrite Hrem|done].
  - by rewrite Hrem.
  - unfold retain_scoped. induction (List.filter _ _); simpl; [done|by rewrite Hrem].
Qed.

Lemma load_sound m gs seen c : inv m gs → load_ok c (cell_seen m seen c).
Proof.
  intros Hinv. destruct c as [| |e| | | | |]; try done. intros Hcp. unfold cell_seen, cell.
  pose proof (inv_limited _ _ Hinv e) as Hne.
  pose proof (λ v, inv_limit _ _ Hinv e v Hcp) as Hv.
  destruct (m_cells m (EngineLimit e)) as [|x xs]; [done|]. simpl hd.
  destruct (nth_in_or_default seen (x :: xs) x) as [Hin| -> ]; apply Hv; [|left].
  by apply list_elem_of_In.
Qed.

(** What a step leaves: the invariant for some new ghost of the thread, and
    the rest of the program in order. *)
Definition sound_after {A} (m m' : Mem) (gs : list Ghost) (i : nat) (g : Ghost) (p' : prog A)
    (Q : A → Ghost → Prop) : Prop :=
  ∃ g', inv m' (<[i := g']> gs) ∧ wp p' g' Q ∧ gh_size g' = gh_size g ∧ keeps_caps m m'.

Lemma sound_with {A} m m' gs i g g' (p' : prog A) Q :
  inv m' (<[i := g']> gs) → wp p' g' Q → gh_size g' = gh_size g → keeps_caps m m' →
  sound_after m m' gs i g p' Q.
Proof. intros. by exists g'. Qed.

Lemma sound_same {A} m m' gs i g (p' : prog A) Q :
  gs !! i = Some g → inv m' gs → wp p' g Q →
  (∀ n, cell m' (ScopeAllocated n) ≤ cell m (ScopeAllocated n)) →
  sound_after m m' gs i g p' Q.
Proof. intros Hi Hinv Hwp Hc. exists g. rewrite list_insert_id by done. auto using keeps_caps_same. Qed.

Lemma cas_sound {A} m gs i g c new (k : result usize usize → prog A) Q :
  inv m gs → gs !! i = Some g → wp (CompareExchange c (cell m c) new k) g Q →
  sound_after m (set_cell c new m) gs i g (k (Ok (cell m c))) Q.
Proof.
  intros Hinv Hi [_ [[Hst Hk]|[[Hmc Hk]|(cs & Hcs & Hk)]]].
  - apply sound_same; [done|by eapply inv_stat|done|]. intros n. rewrite cell_set.
    case_decide; [by subst c|done].
  - destruct (Hk (credit_fits _ _ _ _ Hinv Hi c Hmc)) as (-> & HL & Hwp).
    eapply sound_with; [by apply inv_credit|done|done|by eapply keeps_caps_credit].
  - destruct (Hk (release_covers _ _ _ _ Hinv Hi _ _ Hcs)) as [-> Hwp].
    eapply sound_with; [by eapply inv_release|done|done|].
    apply keeps_caps_same. intros n. rewrite cell_set. case_decide; [subst c; lia|done].
Qed.

Lemma fetch_add_sound {A} m gs i g c n (k : usize → prog A) Q :
  inv m gs → gs !! i = Some g → wp (FetchAdd c n k) g Q →
  sound_after m (set_cell c (wrap64 (cell m c + n)) m) gs i g (k (cell m c)) Q.
Proof.
  intros Hinv Hi [[[Hst|[Hc ->]] Hk]|(-> & Hmc & Hcap & Hk)].
  - apply sound_same; [done|by eapply inv_stat|done|]. intros n'. rewrite cell_set.
    case_decide; [by subst c|done].
  - unfold wrap64. rewrite N.add_0_r, N.mod_small by by eapply counter_fits.
    apply sound_same; [done|by eapply inv_touch|done|]. intros n'. rewrite cell_set.
    case_decide; [by subst c|done].
  - pose proof (credit_fits _ _ _ _ Hinv Hi c Hmc) as Hf. unfold wrap64. rewrite N.mod_small by done.
    assert (∀ L, cap g c = Some L → cell m c + gh_size g ≤ L) as HL by (rewrite Hcap; done).
    eapply sound_with; [by apply inv_credit|by apply Hk|done|by eapply keeps_caps_credit].
Qed.

Lemma step_sound {A} seen weak (p p' : prog A) m m' gs i g Q :
  inv m gs → gs !! i = Some g → wp p g Q → step seen weak p m = Some (m', p') →
  sound_after m m' gs i g p' Q.
Proof.
  intros Hinv Hi Hwp Hst. destruct p as [a|c k|c v k|c n k|c old new k|n k|n k|l k|key k|l k|l f k|B body s k];
    simpl in Hst; simplify_eq.
  - by apply sound_same; [| |apply Hwp; by eapply load_sound|].
  - destruct Hwp as (Hcp & [e ->] & Hk). apply sound_same; try done.
    by eapply inv_store_limit.
  - by apply fetch_add_sound.
  - destruct weak; simpl in Hst; simplify_eq; [apply sound_same; try done; apply Hwp|].
    destruct (N.eqb_spec (cell m c) old) as [<-|]; simplify_eq; [by apply cas_sound|].
    apply sound_same; try done. apply Hwp.
  - destruct Hwp as (key & b & Hb & <- & Hk).
    eapply sound_with; [by apply inv_clone|done|done|by apply keeps_caps_same].
  - destruct Hwp as (l1 & key & l2 & Hl & Hk).
    eapply sound_with; [by eapply inv_drop|done|done|by apply keeps_caps_same].
  - destruct Hwp as [Hr Hk].
    eapply sound_with; [by apply inv_lock|done|done|by apply keeps_caps_same].
  - destruct Hwp as [Hr Hk].
    eapply sound_with; [by apply inv_get|apply Hk; intros b key' Hb Hne ?; eapply Hne, go_owner; eauto using access_ghost|done|by apply keeps_caps_same].
  - destruct Hwp as [Hr Hk].
    eapply sound_with; [by apply inv_unlock|done|done|by apply keeps_caps_same].
  - destruct Hwp as [Hq Hk]. destruct (N.eqb_spec (m_readers m l) 0) as [Hl|]; simplify_eq.
    apply sound_same; [done|by eapply inv_quota|done|]. intros n. by eapply quota_cells.
  - apply sound_same; try done. apply wp_bind. eapply wp_mono; [|apply Hwp].
    intros [s'|b] g'; [|done]. by intros ->.
Qed.
End logic.
