(* ===== verification/MemAccounting.v ===== *)
(** * The governor's operations keep the books

    [wp] for every operation of [MemGovernor], and from it the invariant of
    every run of the interleaving machine: counters are what the live
    reservations credited, limits hold, and quotas keep counting the tokens
    they were charged to. *)

From stdpp Require Import base option gmap fin_maps functions list.
From S2P Require Import Prelude MemState MemGovernor MemLogic.

Open Scope N_scope.

(** ** What a scope and a token stand for *)

Definition opt {A B} (f : A → B) (o : option A) : list B :=
  match o with Some a => [f a] | None => [] end.

Definition layer_credits (size : usize) (engine : option EngineId) (tenant database : option N)
    (global : bool) : list Cell :=
  opt EngineAllocated engine ++ opt ScopeAllocated tenant ++ opt ScopeAllocated database ++
  (if global && negb (size =? 0) then [GlobalAllocated] else []).

Definition layer_arcs (db : DatabaseId) (t : TenantId) (tenant database : option N)
    : list (Scope * N) :=
  opt (pair (TenantScope db t)) tenant ++ opt (pair (DatabaseScope db)) database.

Definition scope_ghost (db : DatabaseId) (t : TenantId) (s : ReserveScope) : Ghost :=
  MkGhost (rs_size s)
    (layer_credits (rs_size s) (rs_engine s) (rs_tenant s) (rs_database s) (rs_global_credited s))
    (layer_arcs db t (rs_tenant s) (rs_database s)) None None.

Definition token_ghost (t : ReservationToken) : Ghost :=
  MkGhost (tk_size t)
    (layer_credits (tk_size t) (tk_engine_counter t) (tk_tenant_counter t)
       (tk_database_counter t) true)
    (layer_arcs (tk_db t) (tk_tenant t) (tk_tenant_counter t) (tk_database_counter t)) None None.

Definition ghost_new (size : usize) : Ghost := MkGhost size [] [] None None.

(** Nothing credited and nothing held any more. *)
Record rests (g : Ghost) : Prop := {
  rests_credits : gh_size g = 0 ∨ gh_credits g = [];
  rests_arcs : gh_arcs g = [];
  rests_reading : gh_reading g = None;
  rests_borrow : gh_borrow g = None;
}.

Lemma rests_new size : rests (ghost_new size).
Proof. split; auto. Qed.

Lemma wrap64_small n : n < 2 ^ 64 → wrap64 n = n.
Proof. apply N.mod_small. Qed.

Section programs.
Context (capped kept : bool) (ceiling : usize) (lim : EngineId → usize).

Local Abbreviation wp := (wp capped kept ceiling lim).
Local Abbreviation cap := (cap capped ceiling lim).

(** The rest of a program after a call that is known. *)
Lemma wp_then {A B} (p : prog A) (f : A → prog B) g P Q :
  wp p g P → (∀ a g', P a g' → wp (f a) g' Q) → wp (bind p f) g Q.
Proof. intros Hp Hf. apply wp_bind. eapply wp_mono; [|exact Hp]. exact Hf. Qed.

(** ** Releasing *)

Lemma wp_saturating_sub c size g cs :
  gh_credits g = c :: cs → gh_size g = size → size ≠ 0 →
  wp (atomic_saturating_sub c size) g (λ r g', r = 0 ∧ g' = g {{ gh_credits := cs }}).
Proof.
  intros Hg Hsz Hnz. unfold atomic_saturating_sub. rewrite (proj2 (N.eqb_neq _ _) Hnz). simpl.
  intros _ _ current. split; [done|]. right; right. exists cs. split; [done|].
  rewrite Hsz. intros Hle. split; [done|]. split; [lia|done].
Qed.

Lemma wp_release_layer c size l g cs :
  gh_credits g = c :: cs → gh_size g = size → size ≠ 0 →
  wp (release_layer c size l) g (λ _ g', g' = g {{ gh_credits := cs }}).
Proof.
  intros Hg Hsz Hnz. eapply wp_then; [by apply wp_saturating_sub|].
  by intros _ g' [-> ->].
Qed.

Lemma wp_release_opt {A} (f : A → Cell) o size l g cs :
  gh_credits g = opt f o ++ cs → gh_size g = size → size ≠ 0 →
  wp (release_opt (f <$> o) size l) g (λ _ g', g' = g {{ gh_credits := cs }}).
Proof.
  intros Hg Hsz Hnz. destruct o as [a|]; simpl in *.
  - eapply wp_then; [by apply wp_release_layer|]. by intros _ g' ->.
  - subst cs. by destruct g.
Qed.

Lemma wp_drop_arcs db t tenant database g :
  gh_arcs g = layer_arcs db t tenant database →
  wp (do! drop_arc_opt database; drop_arc_opt tenant) g (λ _ g', g' = g {{ gh_arcs := [] }}).
Proof.
  intros Hg. destruct g as [sz cs arcs rd bo]. simpl in Hg. subst arcs.
  destruct tenant as [a|], database as [b|]; simpl.
  - exists [(TenantScope db t, a)], (DatabaseScope db), []. split; [done|].
    by exists [], (TenantScope db t), [].
  - by exists [], (TenantScope db t), [].
  - by exists [], (DatabaseScope db), [].
  - done.
Qed.

(** All four layers, engine first; the global one where it was credited. *)
Lemma wp_release_layers size engine tenant database (global : bool) g :
  gh_credits g = layer_credits size engine tenant database global → gh_size g = size → size ≠ 0 →
  wp (do! release_opt (EngineAllocated <$> engine) size Engine;
      do! release_opt (ScopeAllocated <$> tenant) size Tenant;
      do! release_opt (ScopeAllocated <$> database) size Database;
      if global then do! release_layer GlobalAllocated size Global; Ret tt else Ret tt)
    g (λ _ g', g' = g {{ gh_credits := [] }}).
Proof.
  intros Hg Hsz Hnz. unfold layer_credits in Hg. rewrite (proj2 (N.eqb_neq _ _) Hnz) in Hg.
  rewrite andb_true_r in Hg.
  eapply wp_then; [by apply wp_release_opt|]. intros _ ? ->.
  eapply wp_then; [by apply wp_release_opt|]. intros _ ? ->.
  eapply wp_then; [by apply wp_release_opt|]. intros _ ? ->.
  destruct global; simpl; [|done].
  eapply wp_then; [by eapply wp_release_layer|]. by intros _ ? ->.
Qed.

Lemma rests_dropped g :
  gh_reading g = None → gh_borrow g = None → gh_size g = 0 ∨ gh_credits g = [] →
  rests (g {{ gh_arcs := [] }}).
Proof. by split. Qed.

Lemma wp_scope_drop db t s :
  rs_committed s = false →
  wp (reserve_scope_drop s) (scope_ghost db t s) (λ _ g', rests g').
Proof.
  intros Hc. unfold reserve_scope_drop. rewrite Hc. simpl.
  eapply (wp_then _ _ _ (λ _ g', ∃ cs, g' = (scope_ghost db t s) {{ gh_credits := cs }} ∧
                              (rs_size s = 0 ∨ cs = []))).
  - case N.eqb_spec; intros Hz; [by eexists; auto|].
    eapply wp_mono; [|by apply wp_release_layers]. intros _ ? ->. eauto.
  - intros _ ? (cs & -> & Hcs). eapply wp_mono; [|by eapply wp_drop_arcs].
    intros _ ? ->. by apply rests_dropped.
Qed.

Lemma wp_token_drop t : wp (token_drop t) (token_ghost t) (λ _ g', rests g').
Proof.
  unfold token_drop.
  eapply (wp_then _ _ _ (λ _ g', ∃ cs, g' = (token_ghost t) {{ gh_credits := cs }} ∧
                              (tk_size t = 0 ∨ cs = []))).
  - case N.eqb_spec; intros Hz; [by eexists; auto|].
    eapply wp_mono; [|by apply (wp_release_layers _ _ _ _ true)]. intros _ ? ->. eauto.
  - intros _ ? (cs & -> & Hcs). eapply wp_mono; [|by eapply wp_drop_arcs].
    intros _ ? ->. by apply rests_dropped.
Qed.

(** ** Crediting *)

Lemma wp_raise_peak e n g : wp (raise_peak e n) g (λ _ g', g' = g).
Proof. unfold raise_peak. simpl. intros _ _ s. case (s <? n); simpl; [|done]. split; [done|]. by left. Qed.

#[local] Opaque raise_peak.

Lemma wp_budget_try_reserve e size g :
  EngineAllocated e ∉ gh_credits g → gh_size g = size →
  wp (budget_try_reserve e size) g (λ r g',
    g' = if r : bool then g {{ gh_credits ::= cons (EngineAllocated e) }} else g).
Proof.
  intros Hc <-. simpl. intros limit Hlim _ current _.
  case N.ltb_spec; intros Hle; simpl; [left; split; [by left|done]|]. split; [done|]. right; left.
  split; [done|]. intros Hf. rewrite wrap64_small in * by done. split; [done|]. split.
  - intros L. unfold MemLogic.cap. destruct capped eqn:Hcp; [|done]. intros [= <-].
    by rewrite <-Hlim.
  - eapply wp_then; [apply wp_raise_peak|]. by intros _ ? ->.
Qed.

Lemma wp_budget_credit e size g :
  capped = false → EngineAllocated e ∉ gh_credits g → gh_size g = size →
  wp (budget_credit e size) g (λ _ g', g' = g {{ gh_credits ::= cons (EngineAllocated e) }}).
Proof.
  intros Hcp Hc Hsz. eapply (wp_then _ _ _ (λ _ g', g' = g {{ gh_credits ::= cons (EngineAllocated e) }})).
  - simpl. right. split_and!; [done|done|by unfold MemLogic.cap; rewrite Hcp|done].
  - intros old ? ->. eapply wp_mono; [|apply wp_raise_peak]. done.
Qed.

(** A scoped counter credited under the read lock, with its [Arc]. *)
Definition scoped_credited (key : Scope) (n : N) (g : Ghost) : Ghost :=
  g {{ gh_credits ::= cons (ScopeAllocated n); gh_arcs ::= cons (key, n) }}.

Lemma wp_scoped_try_reserve key b size g :
  gh_borrow g = Some (key, b) → ScopeAllocated (sb_allocated b) ∉ gh_credits g →
  gh_size g = size →
  wp (scoped_try_reserve b size) g (λ r g',
    match r with
    | Ok n => n = sb_allocated b ∧ g' = scoped_credited key n g
    | Err _ => g' = g
    end).
Proof.
  intros Hb Hc <-. assert (may_credit g (ScopeAllocated (sb_allocated b))) as Hmc by (split; eauto).
  unfold scoped_try_reserve. destruct (sb_limit b) as [limit|] eqn:HL; simpl.
  - intros _ current _. case N.ltb_spec; intros Hle; simpl; [done|]. split; [done|].
    right; left. split; [done|]. intros Hf. rewrite wrap64_small in * by done.
    split; [done|]. split; [|by exists key, b].
    intros L. unfold MemLogic.cap. destruct capped; [|done]. rewrite Hb. simpl. congruence.
  - right. split_and!; [done|done| |by intros _ _; exists key, b].
    unfold MemLogic.cap. destruct capped; [|done]. by rewrite Hb.
Qed.

Lemma wp_scoped_credit key b size g :
  capped = false → gh_borrow g = Some (key, b) → ScopeAllocated (sb_allocated b) ∉ gh_credits g →
  gh_size g = size →
  wp (scoped_credit b size) g (λ n g', n = sb_allocated b ∧ g' = scoped_credited key n g).
Proof.
  intros Hcp Hb Hc Hsz. simpl. right. split_and!; [done|split; eauto| |by intros _ _; exists key, b].
  unfold MemLogic.cap. by rewrite Hcp.
Qed.

Lemma wp_scoped_available b g : wp (scoped_available b) g (λ _ g', g' = g).
Proof. unfold scoped_available. by destruct (sb_limit b). Qed.

Lemma wp_try_credit_global s db t :
  s = reserve_scope_new (rs_size s) →
  wp (try_credit_global ceiling s) (scope_ghost db t s) (λ r g',
    match r with
    | Ok s' => s' = s {{ rs_global_credited := true }} ∧ g' = scope_ghost db t s'
    | Err _ => g' = scope_ghost db t s
    end).
Proof.
  generalize (rs_size s). intros size ->. unfold try_credit_global. simpl.
  destruct (N.eqb_spec size 0) as [->|Hnz]; [done|]. simpl. intros _ current _.
  case N.ltb_spec; intros Hle; simpl; [done|]. split; [done|]. right; left.
  split; [split; [by intros ?%elem_of_nil|done]|]. intros Hf. rewrite wrap64_small in * by done.
  split; [done|]. split.
  - intros L. unfold MemLogic.cap. destruct capped; [|done]. by intros [= <-].
  - split; [done|]. unfold scope_ghost, layer_credits. simpl.
    by rewrite (proj2 (N.eqb_neq _ _) Hnz).
Qed.

(** ** Under a read lock *)

Lemma wp_under_lock {A B} key (body : option ScopedBudget → prog A) (K : A → prog B) g P Q :
  gh_reading g = None →
  (∀ r, (∀ b key', r = Some b → key' ≠ key → (key', sb_allocated b) ∉ gh_arcs g) →
     wp (body r) (g {{ gh_reading := Some (scope_layer key); gh_borrow := pair key <$> r }})
       (λ a g', gh_reading g' = Some (scope_layer key) ∧
                P a (g' {{ gh_reading := None; gh_borrow := None }}))) →
  (∀ a g', P a g' → wp (K a) g' Q) →
  wp (do! read_lock (scope_layer key);
      let! entry := get key in
      let! a := body entry in
      do! read_unlock (scope_layer key);
      K a) g Q.
Proof.
  intros Hr Hbody HK. simpl. split; [done|]. split; [done|]. intros r Hfresh.
  eapply wp_then; [by apply Hbody|]. intros a g' [Hg' HP]. simpl. split; [done|]. by apply HK.
Qed.

(** What a layer's section leaves: the scope as it was where the map has no
    entry, and the entry's counter credited where it has one. *)
Definition layer_post (key : Scope) (with_arc : N → ReserveScope) (s : ReserveScope) (g : Ghost)
    (s' : ReserveScope) (g' : Ghost) : Prop :=
  (s' = s ∧ g' = g) ∨ ∃ n, s' = with_arc n ∧ g' = scoped_credited key n g.

Definition entry_post (key : Scope) (with_arc : N → ReserveScope) (s : ReserveScope) (g : Ghost)
    (r : result MemError ReserveScope) (g' : Ghost) : Prop :=
  match r with Ok s' => layer_post key with_arc s g s' g' | Err _ => g' = g end.

Lemma wp_reserve_entry key with_arc s mkerr g size r :
  gh_reading g = None → gh_borrow g = None → gh_size g = size →
  (∀ b, r = Some b → ScopeAllocated (sb_allocated b) ∉ gh_credits g) →
  wp (match r with
      | Some budget =>
          let! r := scoped_try_reserve budget size in
          match r with
          | Ok arc => Ret (Ok (with_arc arc))
          | Err limit =>
              let! available := scoped_available budget in
              Ret (Err (mkerr available limit : MemError))
          end
      | None => Ret (Ok s)
      end)
    (g {{ gh_reading := Some (scope_layer key); gh_borrow := pair key <$> r }})
    (λ a g', gh_reading g' = Some (scope_layer key) ∧
       entry_post key with_arc s g a (g' {{ gh_reading := None; gh_borrow := None }})).
Proof.
  destruct g as [sz cs arcs rd bo]. cbn [gh_reading gh_borrow gh_size gh_credits]. intros -> -> <- Hfresh. destruct r as [b|].
  - eapply wp_then; [by eapply wp_scoped_try_reserve; [|apply Hfresh|]|].
    intros [n|limit] g'.
    + intros [-> ->]. simpl. split; [done|]. right. eauto.
    + intros ->. eapply wp_then; [apply wp_scoped_available|]. by intros ? ? ->.
  - split; [done|]. by left.
Qed.

Lemma wp_charge_entry key with_arc s g size r :
  capped = false → gh_reading g = None → gh_borrow g = None → gh_size g = size →
  (∀ b, r = Some b → ScopeAllocated (sb_allocated b) ∉ gh_credits g) →
  wp (match r with
      | Some budget => let! arc := scoped_credit budget size in Ret (with_arc arc)
      | None => Ret s
      end)
    (g {{ gh_reading := Some (scope_layer key); gh_borrow := pair key <$> r }})
    (λ a g', gh_reading g' = Some (scope_layer key) ∧
       layer_post key with_arc s g a (g' {{ gh_reading := None; gh_borrow := None }})).
Proof.
  destruct g as [sz cs arcs rd bo]. cbn [gh_reading gh_borrow gh_size gh_credits]. intros Hcp -> -> <- Hfresh. destruct r as [b|].
  - eapply wp_then; [by eapply wp_scoped_credit; [| |apply Hfresh|]|].
    intros n g' [-> ->]. simpl. split; [done|]. right. eauto.
  - split; [done|]. by left.
Qed.

(** ** Whole calls *)

#[local] Opaque try_credit_global scoped_try_reserve scoped_credit scoped_available
  budget_try_reserve budget_credit reserve_scope_drop.

(** The answer of a call and what it leaves with the caller. *)
Definition answer_ok (r : result MemError ReservationToken) (g : Ghost) : Prop :=
  match r with Ok t => g = token_ghost t | Err _ => rests g end.

Lemma wp_denied db t s e :
  rs_committed s = false → wp (denied s e) (scope_ghost db t s) answer_ok.
Proof.
  intros Hc. eapply wp_then; [by apply wp_scope_drop|]. by intros ? g' Hg.
Qed.

(** The scope after the global layer, and with each scoped layer added. *)
Local Abbreviation credited size :=
  ((reserve_scope_new size) {{ rs_global_credited := true }}).

Lemma fresh_database db t size n :
  ScopeAllocated n ∉ gh_credits (scope_ghost db t (credited size)).
Proof. unfold scope_ghost, layer_credits. simpl. case (size =? 0); set_solver. Qed.

Lemma fresh_tenant db t size database (b : ScopedBudget) :
  (∀ key', key' ≠ TenantScope db t →
     (key', sb_allocated b) ∉ layer_arcs db t None database) →
  ScopeAllocated (sb_allocated b) ∉
    gh_credits (scope_ghost db t ((credited size) {{ rs_database := database }})).
Proof.
  intros H. unfold scope_ghost, layer_credits. simpl. specialize (H (DatabaseScope db) ltac:(done)).
  destruct database; case (size =? 0); set_solver.
Qed.

Lemma fresh_engine db t s e :
  rs_engine s = None → EngineAllocated e ∉ gh_credits (scope_ghost db t s).
Proof.
  intros He. unfold scope_ghost, layer_credits. simpl. rewrite He.
  destruct (rs_tenant s), (rs_database s), (_ && _); set_solver.
Qed.

(** The engine layer is the last: its credit makes the scope a token. *)
Lemma wp_reserve_engine db t e size s :
  rs_engine s = None → rs_committed s = false → rs_size s = size → rs_global_credited s = true →
  wp (let! reserved := budget_try_reserve e size in
      if reserved : bool then
        Ret (Ok (token_from_layers (s {{ rs_engine := Some e }}) db t e))
      else
        let! available := budget_available e in
        let! limit := load (EngineLimit e) in
        denied s (BudgetExhausted e size available limit))
    (scope_ghost db t s) answer_ok.
Proof.
  intros He Hc Hsz Hg. eapply wp_then; [by apply wp_budget_try_reserve; [apply fresh_engine|]|].
  intros [] ? ->; simpl.
  - unfold token_ghost, scope_ghost, layer_credits. simpl. by rewrite He, Hg.
  - intros ? _ ? _ ? _. by apply wp_denied.
Qed.

Lemma wp_reserve_tenant db t e size database :
  wp (do! read_lock Tenant;
      let! entry := get (TenantScope db t) in
      let! tenant_layer :=
        match entry with
        | Some budget =>
            let! r := scoped_try_reserve budget size in
            match r with
            | Ok arc =>
                Ret (Ok ((credited size) {{ rs_database := database; rs_tenant := Some arc }}))
            | Err limit =>
                let! available := scoped_available budget in
                Ret (Err (TenantBudgetExhausted db t size available limit))
            end
        | None => Ret (Ok ((credited size) {{ rs_database := database }}))
        end in
      do! read_unlock Tenant;
      match tenant_layer with
      | Err err => denied ((credited size) {{ rs_database := database }}) err
      | Ok scope =>
          let! reserved := budget_try_reserve e size in
          if reserved : bool then
            Ret (Ok (token_from_layers (scope {{ rs_engine := Some e }}) db t e))
          else
            let! available := budget_available e in
            let! limit := load (EngineLimit e) in
            denied scope (BudgetExhausted e size available limit)
      end)
    (scope_ghost db t ((credited size) {{ rs_database := database }})) answer_ok.
Proof.
  eapply (wp_under_lock (TenantScope db t) _ _ _ (entry_post (TenantScope db t)
    (λ arc, (credited size) {{ rs_database := database; rs_tenant := Some arc }})
    ((credited size) {{ rs_database := database }}) _)); [done| |].
  - intros r Hr. apply wp_reserve_entry; [done..|]. intros b ->. apply fresh_tenant.
    intros key'. by apply Hr.
  - intros [s'|err] g'; [|intros ->; by apply wp_denied].
    intros [[-> ->]|(n & -> & ->)]; by apply wp_reserve_engine.
Qed.

Lemma wp_try_reserve db t e size :
  wp (try_reserve ceiling db t e size) (ghost_new size) answer_ok.
Proof.
  eapply wp_then; [by apply (wp_try_credit_global (reserve_scope_new size) db t)|].
  intros [s|err] g'; [intros [-> ->]|intros ->; by apply wp_denied].
  eapply (wp_under_lock (DatabaseScope db) _ _ _ (entry_post (DatabaseScope db)
    (λ arc, (credited size) {{ rs_database := Some arc }}) (credited size) _)); [done| |].
  - intros r _. apply wp_reserve_entry; [done..|]. intros b ->. apply fresh_database.
  - intros [s'|err] g'; [|intros ->; by apply wp_denied].
    intros [[-> ->]|(n & -> & ->)]; [apply (wp_reserve_tenant _ _ _ _ None)|
      apply (wp_reserve_tenant _ _ _ _ (Some n))].
Qed.

Lemma wp_credit_global_unchecked db t size :
  capped = false →
  wp (credit_global_unchecked (reserve_scope_new size)) (ghost_new size)
    (λ s g', s = credited size ∧ g' = scope_ghost db t s).
Proof.
  intros Hcp. simpl. destruct (N.eq_dec size 0) as [->|Hnz]; [left; by auto|right].
  unfold MemLogic.cap. rewrite Hcp. split_and!; [done|split; [set_solver|done]|done|].
  intros _ _. split; [done|]. unfold scope_ghost, layer_credits. simpl.
  by rewrite (proj2 (N.eqb_neq _ _) Hnz).
Qed.

Lemma wp_charge_engine db t e size s :
  capped = false → rs_engine s = None → rs_size s = size → rs_global_credited s = true →
  wp (do! budget_credit e size;
      Ret (token_from_layers (s {{ rs_engine := Some e }}) db t e))
    (scope_ghost db t s) (λ tk g', g' = token_ghost tk).
Proof.
  intros Hcp He Hsz Hg. eapply wp_then; [by apply wp_budget_credit; [|apply fresh_engine|]|].
  intros _ ? ->. unfold token_ghost, scope_ghost, layer_credits. simpl. by rewrite He, Hg.
Qed.

Lemma wp_charge_tenant db t e size database :
  capped = false →
  wp (do! read_lock Tenant;
      let! entry := get (TenantScope db t) in
      let! scope :=
        match entry with
        | Some budget =>
            let! arc := scoped_credit budget size in
            Ret ((credited size) {{ rs_database := database; rs_tenant := Some arc }})
        | None => Ret ((credited size) {{ rs_database := database }})
        end in
      do! read_unlock Tenant;
      do! budget_credit e size;
      Ret (token_from_layers (scope {{ rs_engine := Some e }}) db t e))
    (scope_ghost db t ((credited size) {{ rs_database := database }}))
    (λ tk g', g' = token_ghost tk).
Proof.
  intros Hcp. eapply (wp_under_lock (TenantScope db t) _ _ _ (layer_post (TenantScope db t)
    (λ arc, (credited size) {{ rs_database := database; rs_tenant := Some arc }})
    ((credited size) {{ rs_database := database }}) _)); [done| |].
  - intros r Hr. apply wp_charge_entry; [done..|]. intros b ->. apply fresh_tenant.
    intros key'. by apply Hr.
  - intros s' g' [[-> ->]|(n & -> & ->)]; by apply wp_charge_engine.
Qed.

Lemma wp_charge db t e size :
  capped = false →
  wp (charge db t e size) (ghost_new size) (λ tk g', g' = token_ghost tk).
Proof.
  intros Hcp. eapply wp_then; [by apply (wp_credit_global_unchecked db t)|]. intros s ? [-> ->].
  eapply (wp_under_lock (DatabaseScope db) _ _ _ (layer_post (DatabaseScope db)
    (λ arc, (credited size) {{ rs_database := Some arc }}) (credited size) _)); [done| |].
  - intros r _. apply wp_charge_entry; [done..|]. intros b ->. apply fresh_database.
  - intros s' g' [[-> ->]|(n & -> & ->)]; [by apply (wp_charge_tenant _ _ _ _ None)|
      by apply (wp_charge_tenant _ _ _ _ (Some n))].
Qed.

#[local] Opaque try_reserve charge.

(** A slot's answer, and what it leaves. *)
Definition slot_post (a : Answer) (g : Ghost) : Prop :=
  match a with Reserved t => g = token_ghost t | _ => rests g end.

Lemma wp_call c :
  (capped = true → respects_limits (Invoke c) = true) →
  (kept = true → keeps_scopes (Invoke c) = true) →
  wp (call_prog ceiling c) (ghost_new (call_size c)) slot_post.
Proof.
  intros Hc Hk.
  assert (∀ b, (b = true → false = true) → b = false) as Hf by (intros []; naive_solver).
  destruct c as [db t e size|db t e size|e n|db n|db|db t n|db t|db|t]; simpl in *.
  - eapply wp_then; [apply wp_try_reserve|]. by intros [] g'.
  - eapply wp_then; [apply wp_charge; by apply Hf|]. by intros tk g'.
  - intros v _. split; [by apply Hf|]. split; [by exists e|]. apply rests_new.
  - split; [by constructor|]. apply rests_new.
  - split; [by constructor|]. apply rests_new.
  - split; [by constructor|]. apply rests_new.
  - split; [by constructor|]. apply rests_new.
  - apply Hf in Hk. split; [by constructor|]. split; [|apply rests_new].
    constructor; [done|]. by intros [].
  - apply Hf in Hk. split; [|apply rests_new]. constructor; [done|]. by intros [].
Qed.
End programs.
