(* ===== verification/MemThms.v ===== *)
(** * What the memory governor guarantees under any interleaving

    From [MemAccounting]: runs of the machine of [MemGovernor] keep the
    books, stay within the limits, enforce quotas and never lose count of a
    live token. *)

From stdpp Require Import base option gmap fin_maps functions list.
From S2P Require Import Prelude MemState MemGovernor MemLogic MemAccounting.

Open Scope N_scope.

(** ** Reading a world *)

(** The counters a token's drop releases. *)
Definition token_counters (t : ReservationToken) : list Cell :=
  opt EngineAllocated (tk_engine_counter t) ++ opt ScopeAllocated (tk_tenant_counter t) ++
  opt ScopeAllocated (tk_database_counter t) ++ [GlobalAllocated].

(** Bytes of the live tokens that are counted at [c]. *)
Definition tokens_on (c : Cell) (w : World) : N :=
  foldr (λ s acc, match s with
                  | Holding t => if decide (c ∈ token_counters t) then tk_size t + acc else acc
                  | _ => acc
                  end) 0 (w_slots w).

(** Bytes of the calls, releases included, that are under way. *)
Definition in_flight (w : World) : N :=
  foldr (λ s acc, match s with Running size _ => size + acc | _ => acc end) 0 (w_slots w).

(** ** The invariant of a run *)

Section runs.
Context (capped kept : bool) (ceiling : usize) (lim : EngineId → usize).

Local Abbreviation wp := (wp capped kept ceiling lim).
Local Abbreviation inv := (inv capped kept ceiling lim).

Definition slot_ok (s : Slot) (g : Ghost) : Prop :=
  match s with
  | Running size p => gh_size g = size ∧ wp p g slot_post
  | Holding t => g = token_ghost t
  | Returned _ => g = ghost_new 0
  end.

Definition winv (w : World) (gs : list Ghost) : Prop :=
  inv (w_mem w) gs ∧ Forall2 slot_ok (w_slots w) gs.

(** What the scheduler may do in this section's kind of run. *)
Definition permitted (w : World) (a : MAction) : bool :=
  fits w a && (negb capped || respects_limits a) && (negb kept || keeps_scopes a).

Lemma inv_spawn m gs size :
  inv m gs → total gh_size gs + size < 2 ^ 64 → inv m (gs ++ [ghost_new size]).
Proof.
  intros Hinv Hsz. assert (∀ f, f (ghost_new size) = 0 → total f (gs ++ [ghost_new size]) = total f gs) as Ht.
  { intros f Hf. rewrite total_append. simpl. rewrite Hf. lia. }
  split; try apply Hinv.
  - intros c Hc. rewrite Ht by done. by apply Hinv.
  - rewrite total_append. simpl. lia.
  - intros l. rewrite Ht by done. by apply Hinv.
  - intros key b Hb. rewrite Ht by done. by apply (inv_strong _ _ _ _ _ _ Hinv key).
  - intros g [Hg|Hg%list_elem_of_singleton]%elem_of_app; [by apply Hinv|subst g].
    split; simpl; try (by intros; set_solver). constructor.
Qed.

Lemma inv_rest m gs i g :
  inv m gs → gs !! i = Some g → rests g → inv m (<[i := ghost_new 0]> gs).
Proof.
  intros Hinv Hi [Hc Ha Hr Hb].
  eapply inv_update; try done; try apply Hinv.
  - simpl. lia.
  - intros c _. unfold held. simpl. case_decide as Hin; [|done].
    destruct Hc as [->|Hc]; [done|]. rewrite Hc in Hin. by apply elem_of_nil in Hin.
  - intros l. unfold reads. by rewrite Hr.
  - intros key b _. unfold arcs_on. by rewrite Ha.
  - intros _. split; simpl; try (by intros; set_solver). constructor.
  - by left.
Qed.

Lemma bytes_out_total w gs : Forall2 slot_ok (w_slots w) gs → bytes_out w = total gh_size gs.
Proof.
  unfold bytes_out. induction 1 as [|s g slots gs Hs _ IH]; simpl; [done|]. rewrite IH. f_equal.
  destruct s; simpl in *; [by destruct Hs| |]; by subst g.
Qed.

Lemma mact_sound w w' gs a :
  winv w gs → permitted w a = true → mact ceiling w a = Some w' →
  ∃ gs', winv w' gs' ∧ keeps_caps capped (w_mem w) (w_mem w').
Proof.
  intros [Hinv Hsl] Hp Ha. unfold permitted in Hp.
  apply andb_true_iff in Hp as [[Hfit Hcap]%andb_true_iff Hkept].
  assert (keeps_caps capped (w_mem w) (w_mem w)) as Hkc by by apply keeps_caps_same.
  destruct a as [c|i seen weak|i]; simpl in Ha; simplify_eq.
  - eexists. split; [|done]. split; simpl.
    + apply inv_spawn; [done|]. rewrite <-(bytes_out_total w) by done. by apply N.ltb_lt.
    + apply Forall2_app; [done|]. constructor; [|done]. split; [done|]. apply wp_call.
      * intros Hc. by rewrite Hc in Hcap.
      * intros Hk. by rewrite Hk in Hkept.
  - destruct (w_slots w !! i) as [s|] eqn:Hi; [|done].
    destruct (Forall2_lookup_l _ _ _ _ _ Hsl Hi) as (g & Hg & Hok).
    destruct s as [size p| |]; [|done|done]. destruct Hok as [Hsz Hwp].
    assert (∀ m' p', step seen weak p (w_mem w) = Some (m', p') →
            Some (MkWorld m' (<[i:=Running size p']> (w_slots w))) = Some w' →
            ∃ gs', winv w' gs' ∧ keeps_caps capped (w_mem w) (w_mem w')) as Hstep.
    { intros m' p' Hst [= <-].
      destruct (step_sound _ _ _ _ _ _ _ _ _ _ _ _ _ _ Hinv Hg Hwp Hst) as (g' & Hinv' & Hwp' & Hsz' & ?).
      eexists. split; [|done]. split; [done|]. apply Forall2_insert; [done|]. split; [congruence|done]. }
    destruct p as [a| | | | | | | | | | |];
      try (revert Ha; case_match eqn:Hst; [case_match; subst; by apply Hstep|done]).
    destruct a as [t|e|]; simplify_eq; (eexists; split; [|done]).
    + split; [done|]. simpl. rewrite <-(list_insert_id gs i g Hg). by apply Forall2_insert.
    + split; [by eapply inv_rest|by apply Forall2_insert].
    + split; [by eapply inv_rest|by apply Forall2_insert].
  - destruct (w_slots w !! i) as [[|t|]|] eqn:Hi; simplify_eq.
    destruct (Forall2_lookup_l _ _ _ _ _ Hsl Hi) as (g & Hg & ->).
    exists gs. split; [|done]. split; [done|]. simpl. rewrite <-(list_insert_id gs i _ Hg).
    apply Forall2_insert; [done|]. split; [done|]. eapply wp_then; [apply wp_token_drop|].
    by intros ? g' ?.
Qed.

Lemma mrun_sound acts w w' gs :
  winv w gs → mrun ceiling permitted w acts = Some w' → ∃ gs', winv w' gs'.
Proof.
  revert w gs. induction acts as [|a acts IH]; intros w gs Hw; simpl; [naive_solver|].
  destruct (permitted w a) eqn:Hp; [|done].
  destruct (mact ceiling w a) as [w1|] eqn:Ha; [|done].
  destruct (mact_sound _ _ _ _ Hw Hp Ha) as (gs1 & Hw1 & _). by apply (IH _ gs1).
Qed.

Lemma new_sound m : governor_new ceiling lim = Ok m → winv (MkWorld m []) [].
Proof.
  unfold governor_new. destruct (config_validate ceiling lim); [|done]. intros [= <-].
  split; [|constructor]. split; simpl; try done; try set_solver; try lia.
  - intros [] Hc; done.
  - intros _. apply N.le_0_l.
  - intros e _. apply N.le_0_l.
Qed.
End runs.

(** ** Theorems *)

Lemma mrun_weaken (p q : World → MAction → bool) ceiling w w' acts :
  (∀ w a, p w a = true → q w a = true) →
  mrun ceiling p w acts = Some w' → mrun ceiling q w acts = Some w'.
Proof.
  intros Hpq. revert w. induction acts as [|a acts IH]; intros w; simpl; [done|].
  destruct (p w a) eqn:Hp; [|done]. rewrite (Hpq _ _ Hp). destruct (mact ceiling w a); [apply IH|done].
Qed.

(** A reachable world has ghosts that account for it. *)
Lemma reach_sound capped kept ceiling limits m acts w allowed :
  governor_new ceiling limits = Ok m →
  (∀ w a, allowed w a = true → permitted capped kept w a = true) →
  mrun ceiling allowed (MkWorld m []) acts = Some w →
  ∃ gs, winv capped kept ceiling limits w gs.
Proof.
  intros Hm Ha Hr. eapply mrun_sound; [by apply new_sound|]. by eapply mrun_weaken.
Qed.

(** A slot's credit at a counter: a token's in full, nothing of a finished
    call, some of what a call under way asked for. *)
Lemma slots_held capped kept ceiling lim slots gs m c :
  Forall2 (slot_ok capped kept ceiling lim) slots gs → is_counter c →
  tokens_on c (MkWorld m slots) ≤ total (held c) gs ≤
    tokens_on c (MkWorld m slots) + in_flight (MkWorld m slots).
Proof.
  unfold tokens_on, in_flight. simpl. intros Hsl Hc.
  induction Hsl as [|s g slots gs Hs _ IH]; simpl; [lia|]. destruct s as [size p|t|a]; simpl in Hs.
  - destruct Hs as [Hsz _]. pose proof (held_le c g). lia.
  - subst g. assert (held c (token_ghost t) = if decide (c ∈ token_counters t) then tk_size t else 0) as Hh.
    { unfold held, token_ghost, layer_credits, token_counters. simpl.
      destruct (N.eqb_spec (tk_size t) 0) as [->|]; simpl; [by repeat case_decide|done]. }
    rewrite Hh. case_decide; lia.
  - subst g. pose proof (held_le c (ghost_new 0)). simpl in *. lia.
Qed.



(** C16. Quotas never lose count of a live token: unless a scope is torn
    down, the counter a token was charged to is the one its database's (and
    its tenant's) entry still has, through every setting, raising, clearing
    and re-setting of quotas, however they race with the reservations; so the
    token's bytes count against whatever quota comes next. *)
Theorem quota_counts_tokens ceiling limits m acts w i t :
  governor_new ceiling limits = Ok m →
  mrun ceiling (λ w a, fits w a && keeps_scopes a) (MkWorld m []) acts = Some w →
  w_slots w !! i = Some (Holding t) →
  (∀ n, tk_database_counter t = Some n →
     ∃ b, m_budgets (w_mem w) !! DatabaseScope (tk_db t) = Some b ∧ sb_allocated b = n) ∧
  (∀ n, tk_tenant_counter t = Some n →
     ∃ b, m_budgets (w_mem w) !! TenantScope (tk_db t) (tk_tenant t) = Some b ∧ sb_allocated b = n).
Proof.
  intros Hm Hr Hi.
  assert (∀ w a, fits w a && keeps_scopes a = true → permitted false true w a = true) as Hp.
  { intros w0 a0 [H1 H2]%andb_true_iff. unfold permitted. simpl. by rewrite H1, H2. }
  destruct (reach_sound false true _ _ _ _ _ _ Hm Hp Hr) as (gs & Hinv & Hsl).
  destruct (Forall2_lookup_l _ _ _ _ _ Hsl Hi) as (g & Hg & ->).
  pose proof (access_ghost _ _ _ _ _ _ _ _ Hinv Hg) as Hok.
  assert (∀ key n, (key, n) ∈ layer_arcs (tk_db t) (tk_tenant t) (tk_tenant_counter t) (tk_database_counter t) →
          ∃ b, m_budgets (w_mem w) !! key = Some b ∧ sb_allocated b = n) as Harc.
  { intros key n Hin. by apply (go_arcs _ _ _ Hok key n). }
  split; intros n Hn; apply Harc; unfold layer_arcs; rewrite Hn; simpl; set_solver.
Qed.
