(* ===== verification/MemAlone.v ===== *)
(** * The memory governor without contention

    What a call does when no other thread runs: it finishes, with the answer
    a direct reading of the limits gives, and a denial leaves every counter
    as it was. Also what happens to a request so large that the addition in
    the limit check wraps. *)

From stdpp Require Import base option gmap fin_maps functions list.
From S2P Require Import Prelude MemState MemGovernor MemLogic MemAccounting MemThms.

Open Scope N_scope.

(** ** Running to the end *)

Definition is_loop {A} (p : prog A) : bool :=
  match p with Loop _ _ _ => true | _ => false end.

(** An undisturbed run in which every loop breaks in its first round, as all
    loops of the governor do: they only go round when another thread has
    changed the value they loaded. *)
Inductive alone : ∀ {A}, prog A → Mem → Mem → A → Prop :=
  | alone_ret {A} (a : A) m : alone (Ret a) m m a
  | alone_step {A} (p p1 : prog A) m m1 m2 a :
      is_loop p = false → step 0 false p m = Some (m1, p1) → alone p1 m1 m2 a → alone p m m2 a
  | alone_break {A B} (body : N → prog (N + B)) s b (k : B → prog A) m m1 m2 a :
      alone (body s) m m1 (inr b) → alone (k b) m1 m2 a → alone (Loop body s k) m m2 a.

Lemma alone_bind {A B} (p : prog A) (f : A → prog B) m m1 m2 a b :
  alone p m m1 a → alone (f a) m1 m2 b → alone (bind p f) m m2 b.
Proof.
  intros Hp. revert B f m2 b. induction Hp as [A a m|A p p1 m m1 m2 a Hl Hs Hp IH|
    A C body s c k m m1 m2 a Hb IHb Hk IHk];
    intros B f m3 b Hf; simpl.
  - done.
  - eapply alone_step; [by destruct p| |by eapply IH].
    destruct p as [| | | |c old new k| | | | | |l g k|]; simpl in *; simplify_eq; try done.
    + destruct (cell m c =? old); by simplify_eq.
    + destruct (m_readers m l =? 0); by simplify_eq.
  - eapply alone_break; [done|]. by eapply IHk.
Qed.

Lemma run_alone_step {A} (p p1 : prog A) m m1 fuel r :
  step 0 false p m = Some (m1, p1) → run_alone fuel p1 m1 = Some r →
  run_alone (S fuel) p m = Some r.
Proof. intros Hs Hr. destruct p; simpl in *; simplify_eq; try done; by rewrite Hs. Qed.

(** Such a run is one of [run_alone] with enough fuel, on its own and in
    front of any continuation. *)
Lemma alone_fuel_bind {A B} (p : prog A) (f : A → prog B) m m1 a fuel r :
  alone p m m1 a → run_alone fuel (f a) m1 = Some r → ∃ fuel, run_alone fuel (bind p f) m = Some r.
Proof.
  intros Hp. revert B f fuel r. induction Hp as [A a m|A p p1 m m1 m2 a Hl Hs Hp IH|
    A C body s c k m m1 m2 a Hb IHb Hk IHk];
    intros B f fuel r Hf; simpl.
  - by exists fuel.
  - destruct (IH B f fuel r Hf) as [fuel' Hr]. exists (S fuel'). eapply run_alone_step; [|done].
    destruct p as [| | | |c old new k| | | | | |l g k|]; simpl in *; simplify_eq; try done.
    + destruct (cell m c =? old); by simplify_eq.
    + destruct (m_readers m l =? 0); by simplify_eq.
  - destruct (IHk B f fuel r Hf) as [fuel1 H1].
    edestruct (IHb B (λ r, match r with
                           | inl s' => Loop body s' (λ b, bind (k b) f)
                           | inr b => bind (k b) f
                           end)) as [fuel2 H2]; [exact H1|].
    exists (S fuel2). by eapply run_alone_step.
Qed.

Lemma alone_fuel {A} (p : prog A) m m' a :
  alone p m m' a → ∃ fuel, run_alone fuel p m = Some (m', a).
Proof.
  induction 1 as [A a m|A p p1 m m1 m2 a Hl Hs Hp [fuel IH]|
    A C body s c k m m1 m2 a Hb _ Hk [fuel IH]].
  - by exists 1%nat.
  - exists (S fuel). by eapply run_alone_step.
  - edestruct (alone_fuel_bind (body s) (λ r, match r with inl s' => Loop body s' k | inr b => k b end))
      as [fuel' H]; [done|exact IH|]. exists (S fuel'). by eapply run_alone_step.
Qed.

(** ** Total correctness of an undisturbed run *)

Definition ends {A} (p : prog A) (m : Mem) (Q : Mem → A → Prop) : Prop :=
  ∃ m' a, alone p m m' a ∧ Q m' a.

Lemma ends_ret {A} (a : A) m (Q : Mem → A → Prop) : Q m a → ends (Ret a) m Q.
Proof. intros HQ. exists m, a. split; [constructor|done]. Qed.

Lemma ends_bind {A B} (p : prog A) (f : A → prog B) m Q P :
  ends p m P → (∀ m1 a, P m1 a → ends (f a) m1 Q) → ends (bind p f) m Q.
Proof.
  intros (m1 & a & Hp & HP) Hf. destruct (Hf _ _ HP) as (m2 & b & Hb & HQ).
  exists m2, b. split; [by eapply alone_bind|done].
Qed.

Lemma ends_step {A} (p p1 : prog A) m m1 Q :
  is_loop p = false → step 0 false p m = Some (m1, p1) → ends p1 m1 Q → ends p m Q.
Proof. intros Hl Hs (m2 & a & Hp & HQ). exists m2, a. split; [by eapply alone_step|done]. Qed.

(** A loop that breaks in its first round. *)
Lemma ends_loop {B} s (body : N → prog (N + B)) m Q :
  ends (body s) m (λ m1 r, match r with inl _ => False | inr b => Q m1 b end) →
  ends (loop s body) m Q.
Proof.
  intros (m1 & [s'|b] & Hb & HQ); [done|]. exists m1, b. split; [|done].
  eapply alone_break; [done|constructor].
Qed.

Lemma ends_mono {A} (p : prog A) m (P Q : Mem → A → Prop) :
  ends p m P → (∀ m1 a, P m1 a → Q m1 a) → ends p m Q.
Proof. intros (m1 & a & Hp & HP) HPQ. exists m1, a. eauto. Qed.

(** ** The operations *)

(** [f] gives every counter's value; the maps and the engine limits are those
    of [m0]. *)
Record books (m0 : Mem) (f : Cell → usize) (m : Mem) : Prop := {
  bk_counter c : is_counter c → cell m c = f c;
  bk_budgets : m_budgets m = m_budgets m0;
  bk_limit e : cell m (EngineLimit e) = cell m0 (EngineLimit e);
}.

Lemma books_refl m : books m (cell m) m.
Proof. by split. Qed.

Lemma books_set m0 f m c v :
  books m0 f m → is_counter c → books m0 (<[c := v]> f) (set_cell c v m).
Proof.
  intros [H1 H2 H3] Hc. split; [|done|].
  - intros c' Hc'. rewrite cell_set. unfold insert, fn_insert. case_decide; [done|auto].
  - intros e. rewrite cell_set. case_decide; [by subst c|done].
Qed.

Lemma books_other m0 f m c v :
  books m0 f m →
  match c with
  | OverReleased _ | EnginePeak _ | EngineRejections _ | StrongCount _ => True
  | _ => False
  end →
  books m0 f (set_cell c v m).
Proof.
  intros [H1 H2 H3] Hc. split; [|done|].
  - intros c' Hc'. rewrite cell_set. case_decide; [by subst c; destruct c'|auto].
  - intros e. rewrite cell_set. case_decide; [by subst c|done].
Qed.

Lemma books_readers m0 f m r : books m0 f m → books m0 f (m {{ m_readers := r }}).
Proof. by intros [H1 H2 H3]. Qed.

Lemma ends_load {A} c (k : usize → prog A) m Q : ends (k (cell m c)) m Q → ends (Load c k) m Q.
Proof.
  intros H. eapply ends_step; [done|done|]. unfold cell_seen. cbn beta.
  assert (List.nth 0 (m_cells m c) (cell m c) = cell m c) as ->; [|done].
  unfold cell. by destruct (m_cells m c).
Qed.

Lemma ends_cas {A} c new (k : result usize usize → prog A) m Q :
  ends (k (Ok (cell m c))) (set_cell c new m) Q → ends (CompareExchange c (cell m c) new k) m Q.
Proof. intros H. eapply ends_step; [done| |exact H]. simpl. by rewrite N.eqb_refl. Qed.

(** An access that neither waits nor compares. *)
Ltac one_step := eapply ends_step; [reflexivity|reflexivity|]; cbn beta.

Section operations.
Context (m0 : Mem).
Implicit Types (f : Cell → usize) (m : Mem).

Lemma ends_saturating_sub c size f m :
  books m0 f m → is_counter c → size ≠ 0 →
  ends (atomic_saturating_sub c size) m (λ m1 r,
    books m0 (<[c := f c - size]> f) m1 ∧ r = size - f c ∧
    ∀ l, cell m1 (OverReleased l) = cell m (OverReleased l)).
Proof.
  intros Hb Hc Hnz. unfold atomic_saturating_sub. rewrite (proj2 (N.eqb_neq _ _) Hnz).
  apply ends_load, ends_loop, ends_cas, ends_ret.
  rewrite <-(bk_counter _ _ _ Hb c Hc). split_and!; [|done|].
  - by apply books_set.
  - intros l. rewrite cell_set, decide_False; [done|]. by intros ->.
Qed.

(** Releasing more than a counter holds clamps it at zero, answers the
    shortfall and counts one event against the layer. *)
Lemma ends_release_layer c size l f m :
  books m0 f m → is_counter c → size ≠ 0 →
  ends (release_layer c size l) m (λ m1 r,
    books m0 (<[c := f c - size]> f) m1 ∧ r = size - f c ∧
    cell m1 (OverReleased l) =
      if f c <? size then wrap64 (cell m (OverReleased l) + 1) else cell m (OverReleased l)).
Proof.
  intros Hb Hc Hnz. eapply ends_bind; [by apply ends_saturating_sub|].
  intros m1 r (Hb1 & -> & Ho). rewrite <-Ho. case N.ltb_spec; intros Hlt.
  - rewrite (proj2 (N.eqb_neq (size - f c) 0)) by lia. unfold over_release_record.
    rewrite (proj2 (N.eqb_neq (size - f c) 0)) by lia. one_step. apply ends_ret.
    split_and!; [by apply books_other|done|]. rewrite cell_set. by rewrite decide_True.
  - rewrite (proj2 (N.eqb_eq (size - f c) 0)) by lia. apply ends_ret. split_and!; [done|lia|done].
Qed.

Lemma ends_raise_peak e n f m :
  books m0 f m → ends (raise_peak e n) m (λ m1 _, books m0 f m1).
Proof.
  intros Hb. apply ends_load, ends_loop. case N.ltb_spec; intros _.
  - apply ends_cas, ends_ret. by apply books_other.
  - by apply ends_ret.
Qed.

Lemma ends_budget_try_reserve e size f m :
  books m0 f m →
  ends (budget_try_reserve e size) m (λ m1 r,
    let v := wrap64 (f (EngineAllocated e) + size) in
    if cell m0 (EngineLimit e) <? v then r = false ∧ books m0 f m1
    else r = true ∧ books m0 (<[EngineAllocated e := v]> f) m1).
Proof.
  intros Hb. unfold budget_try_reserve. apply ends_load, ends_loop, ends_load.
  rewrite (bk_limit _ _ _ Hb), (bk_counter _ _ _ Hb) by done. case N.ltb_spec; intros _.
  - one_step. apply ends_ret. split; [done|]. by apply books_other.
  - rewrite <-(bk_counter _ _ _ Hb (EngineAllocated e)) by done. apply ends_cas.
    eapply ends_bind; [apply ends_raise_peak; by apply books_set|]. intros m1 ? Hb1.
    by apply ends_ret.
Qed.

(** Whether a scope's cap, if it has one, is below [v]. *)
Definition over_cap (limit : option usize) (v : usize) : bool :=
  match limit with Some l => l <? v | None => false end.

Lemma ends_drop_arc_opt o f m :
  books m0 f m → ends (drop_arc_opt o) m (λ m1 _, books m0 f m1).
Proof.
  intros Hb. destruct o; [one_step; apply ends_ret; by apply books_other|by apply ends_ret].
Qed.

Lemma ends_scoped_try_reserve b size f m :
  books m0 f m →
  ends (scoped_try_reserve b size) m (λ m1 r,
    let c := ScopeAllocated (sb_allocated b) in
    let v := wrap64 (f c + size) in
    if over_cap (sb_limit b) v then Err <$> sb_limit b = Some r ∧ books m0 f m1
    else r = Ok (sb_allocated b) ∧ books m0 (<[c := v]> f) m1).
Proof.
  intros Hb. unfold scoped_try_reserve. destruct (sb_limit b) as [limit|]; simpl.
  - apply ends_loop, ends_load. rewrite (bk_counter _ _ _ Hb) by done.
    case N.ltb_spec; intros _; [by apply ends_ret|].
    rewrite <-(bk_counter _ _ _ Hb (ScopeAllocated _)) by done. apply ends_cas.
    one_step. apply ends_ret. split; [done|].
    apply books_other; [by apply books_set|done].
  - one_step. rewrite (bk_counter _ _ _ Hb) by done.
    one_step. apply ends_ret. split; [done|].
    apply books_other; [by apply books_set|done].
Qed.

Lemma ends_budget_available e f m :
  books m0 f m →
  ends (budget_available e) m (λ m1 r,
    r = cell m0 (EngineLimit e) - f (EngineAllocated e) ∧ books m0 f m1).
Proof.
  intros Hb. apply ends_load, ends_load, ends_ret.
  rewrite (bk_limit _ _ _ Hb). by rewrite (bk_counter _ _ _ Hb).
Qed.

(** ** Unwinding *)

(** [size] more at each counter of [cs]. *)
Definition plus (size : usize) (cs : list Cell) (f : Cell → usize) : Cell → usize :=
  λ c, f c + if decide (c ∈ cs) then size else 0.

Lemma books_ext f1 f2 m :
  (∀ c, is_counter c → f1 c = f2 c) → books m0 f1 m → books m0 f2 m.
Proof. intros Hf [H1 H2 H3]. split; [|done|done]. intros c Hc. by rewrite H1, Hf. Qed.

Lemma books_pop size c cs f m :
  c ∉ cs → books m0 (<[c := plus size (c :: cs) f c - size]> (plus size (c :: cs) f)) m →
  books m0 (plus size cs f) m.
Proof.
  intros Hc. apply books_ext. intros c' _. unfold plus, insert, fn_insert.
  repeat case_decide; set_solver by lia.
Qed.

Lemma books_push size c cs f m :
  c ∉ cs → f c + size < 2 ^ 64 →
  books m0 (<[c := wrap64 (plus size cs f c + size)]> (plus size cs f)) m →
  books m0 (plus size (c :: cs) f) m.
Proof.
  intros Hc Hf. apply books_ext. intros c' _. unfold plus, insert, fn_insert.
  repeat case_decide; simplify_eq; try set_solver by lia. rewrite wrap64_small; lia.
Qed.

Lemma ends_release_opt {A} (g : A → Cell) o size l cs f m :
  books m0 (plus size (opt g o ++ cs) f) m → NoDup (opt g o ++ cs) →
  (∀ a, is_counter (g a)) → size ≠ 0 →
  ends (release_opt (g <$> o) size l) m (λ m1 _, books m0 (plus size cs f) m1).
Proof.
  intros Hb Hn Hc Hnz. destruct o as [a|]; simpl in *; [|by apply ends_ret].
  eapply ends_bind; [by apply ends_release_layer|]. intros m1 r (Hb1 & _).
  apply ends_ret. apply NoDup_cons in Hn as [? _]. by eapply books_pop.
Qed.

Lemma ends_scope_drop s f m :
  rs_committed s = false →
  let cs := layer_credits (rs_size s) (rs_engine s) (rs_tenant s) (rs_database s)
              (rs_global_credited s) in
  books m0 (plus (rs_size s) cs f) m → NoDup cs →
  ends (reserve_scope_drop s) m (λ m1 _, books m0 f m1).
Proof.
  intros Hc cs Hb Hn. unfold reserve_scope_drop. rewrite Hc. simpl.
  eapply (ends_bind _ _ _ _ (λ m1 _, books m0 f m1)).
  - subst cs. unfold layer_credits in *. case N.eqb_spec; intros Hz.
    { apply ends_ret. eapply books_ext; [|exact Hb]. intros c _. unfold plus. rewrite Hz.
      case_decide; lia. }
    rewrite (proj2 (N.eqb_neq _ _) Hz), andb_true_r in *.
    eapply ends_bind; [by apply ends_release_opt|]. intros m1 ? Hb1. apply NoDup_app in Hn as (_ & _ & Hn).
    eapply ends_bind; [by eapply ends_release_opt; [exact Hb1|..]|]. intros m2 ? Hb2. apply NoDup_app in Hn as (_ & _ & Hn).
    eapply ends_bind; [by eapply ends_release_opt; [exact Hb2|..]|]. intros m3 ? Hb3. simpl in Hb3.
    destruct (rs_global_credited s).
    + eapply ends_bind; [by apply ends_release_layer|]. intros m4 r (Hb4 & _). apply ends_ret.
      eapply books_ext; [|eapply books_pop; [|exact Hb4]; set_solver].
      intros c _. unfold plus. case_decide; [set_solver|lia].
    + apply ends_ret. eapply books_ext; [|exact Hb3]. intros c _. unfold plus.
      case_decide; [set_solver|lia].
  - intros m1 ? Hb1. eapply ends_bind; [by apply ends_drop_arc_opt|]. intros m2 ? Hb2.
    by apply ends_drop_arc_opt.
Qed.

(** ** Sections *)

Lemma ends_under_lock {A B} key (body : option ScopedBudget → prog A) (K : A → prog B) m f a f' Q :
  books m0 f m →
  (∀ m1, books m0 f m1 →
     ends (body (m_budgets m0 !! key)) m1 (λ m2 r, r = a ∧ books m0 f' m2)) →
  (∀ m3, books m0 f' m3 → ends (K a) m3 Q) →
  ends (do! read_lock (scope_layer key);
        let! entry := get key in
        let! a := body entry in
        do! read_unlock (scope_layer key);
        K a) m Q.
Proof.
  intros Hb Hbody HK. one_step. one_step.
  assert (books m0 f (m {{ m_readers := <[scope_layer key := m_readers m (scope_layer key) + 1]>
            (m_readers m) }})) as Hb1 by by apply books_readers.
  rewrite (bk_budgets _ _ _ Hb1). eapply ends_bind; [by apply Hbody|].
  intros m2 r [-> Hb2]. one_step. apply HK. by apply books_readers.
Qed.

(** What an entry answers to a request: what is left and the cap, if the
    request does not fit. *)
Definition entry_full (f : Cell → usize) (r : option ScopedBudget) (size : usize)
    : option (usize * usize) :=
  match r with
  | Some (MkScopedBudget (Some limit) arc) =>
      if limit <? wrap64 (f (ScopeAllocated arc) + size)
      then Some (limit - f (ScopeAllocated arc), limit) else None
  | _ => None
  end.

Definition entry_credit (f : Cell → usize) (r : option ScopedBudget) (size : usize)
    : Cell → usize :=
  match r with
  | Some b => <[ScopeAllocated (sb_allocated b) :=
                wrap64 (f (ScopeAllocated (sb_allocated b)) + size)]> f
  | None => f
  end.

Lemma ends_reserve_entry r with_arc s mkerr size f m :
  books m0 f m →
  ends (match r with
        | Some budget =>
            let! r := scoped_try_reserve budget size in
            match r with
            | Ok arc => Ret (Ok (with_arc arc))
            | Err limit =>
                let! available := scoped_available budget in
                Ret (Err (mkerr available limit : MemError))
            end
        | None => Ret (Ok (s : ReserveScope))
        end) m
    (λ m1 a,
      a = match entry_full f r size with
          | Some (available, limit) => Err (mkerr available limit)
          | None => Ok (match r with Some b => with_arc (sb_allocated b) | None => s end)
          end ∧
      books m0 (match entry_full f r size with Some _ => f | None => entry_credit f r size end) m1).
Proof.
  intros Hb. destruct r as [[limit arc]|]; [|by apply ends_ret].
  eapply ends_bind; [by apply ends_scoped_try_reserve|].
  intros m1 r. destruct limit as [limit|]; simpl; [case_match|].
  - intros [[= <-] Hb1]. apply ends_load, ends_ret. by rewrite (bk_counter _ _ _ Hb1).
  - intros [-> Hb1]. by apply ends_ret.
  - intros [-> Hb1]. by apply ends_ret.
Qed.

Lemma ends_try_credit_global ceiling size f m :
  books m0 f m →
  ends (try_credit_global ceiling (reserve_scope_new size)) m (λ m1 r,
    if negb (size =? 0) && (ceiling <? wrap64 (f GlobalAllocated + size)) then
      r = Err (GlobalCeilingExceeded (f GlobalAllocated) ceiling size) ∧ books m0 f m1
    else
      r = Ok ((reserve_scope_new size) {{ rs_global_credited := true }}) ∧
      books m0 (if size =? 0 then f
                else <[GlobalAllocated := wrap64 (f GlobalAllocated + size)]> f) m1).
Proof.
  intros Hb. unfold try_credit_global. simpl. destruct (size =? 0); simpl; [by apply ends_ret|].
  apply ends_loop, ends_load. rewrite (bk_counter _ _ _ Hb) by done.
  case N.ltb_spec; intros _; [by apply ends_ret|].
  rewrite <-(bk_counter _ _ _ Hb GlobalAllocated) by done. apply ends_cas, ends_ret.
  split; [done|]. by apply books_set.
Qed.
End operations.

(** ** A reservation alone *)

(** What a scope's cap answers to a request for [size] bytes that does not
    fit under it: what is left, and the cap. *)
Definition no_room (m : Mem) (key : Scope) (size : usize) : option (usize * usize) :=
  match m_budgets m !! key with
  | Some (MkScopedBudget (Some limit) arc) =>
      if limit <? cell m (ScopeAllocated arc) + size
      then Some (limit - cell m (ScopeAllocated arc), limit) else None
  | _ => None
  end.

(** The error a request deserves: the widest layer without room. *)
Definition denial (ceiling : usize) (m : Mem) (db : DatabaseId) (t : TenantId) (e : EngineId)
    (size : usize) : option MemError :=
  let limit := cell m (EngineLimit e) in
  let allocated := cell m (EngineAllocated e) in
  if negb (size =? 0) && (ceiling <? cell m GlobalAllocated + size) then
    Some (GlobalCeilingExceeded (cell m GlobalAllocated) ceiling size)
  else match no_room m (DatabaseScope db) size with
  | Some (available, quota) => Some (DatabaseBudgetExhausted db size available quota)
  | None =>
      match no_room m (TenantScope db t) size with
      | Some (available, quota) => Some (TenantBudgetExhausted db t size available quota)
      | None =>
          if limit <? allocated + size then Some (BudgetExhausted e size (limit - allocated) limit)
          else None
      end
  end.

(** The token it gets otherwise: on every counter there is. *)
Definition granted (m : Mem) (db : DatabaseId) (t : TenantId) (e : EngineId) (size : usize)
    : ReservationToken :=
  MkToken (sb_allocated <$> m_budgets m !! DatabaseScope db)
    (sb_allocated <$> m_budgets m !! TenantScope db t) (Some e) size db t e.

Section reserve.
Context (ceiling : usize) (m0 : Mem) (db : DatabaseId) (t : TenantId) (e : EngineId) (size : usize).
Context (Hfit : ∀ c, is_counter c → cell m0 c + size < 2 ^ 64).
Context (Hdistinct : ∀ b1 b2, m_budgets m0 !! DatabaseScope db = Some b1 →
  m_budgets m0 !! TenantScope db t = Some b2 → sb_allocated b1 ≠ sb_allocated b2).

Local Abbreviation dcounter := (sb_allocated <$> m_budgets m0 !! DatabaseScope db).
Local Abbreviation tcounter := (sb_allocated <$> m_budgets m0 !! TenantScope db t).

(** The counters credited with these scoped ones, and the books then. *)
Local Abbreviation credits database tenant := (layer_credits size None tenant database true).
Local Abbreviation scope_with database tenant :=
  (MkReserveScope true database tenant None size false).
Local Abbreviation booked cs := (books m0 (plus size cs (cell m0))).

Lemma credits_nodup tenant : tenant = None ∨ tenant = tcounter → NoDup (credits dcounter tenant).
Proof.
  intros Ht. unfold layer_credits.
  destruct (m_budgets m0 !! DatabaseScope db) as [b1|] eqn:H1,
    (m_budgets m0 !! TenantScope db t) as [b2|] eqn:H2; destruct Ht as [->| ->]; simpl;
    destruct (size =? 0); simpl; repeat constructor; try set_solver.
  all: pose proof (Hdistinct _ _ eq_refl eq_refl); set_solver.
Qed.

Lemma ends_denied s err m :
  s = scope_with (rs_database s) (rs_tenant s) → NoDup (credits (rs_database s) (rs_tenant s)) →
  booked (credits (rs_database s) (rs_tenant s)) m →
  ends (denied (A := ReservationToken) s err) m (λ m1 r, r = Err err ∧ books m0 (cell m0) m1).
Proof.
  intros Hs Hn Hb. destruct s as [gc sd st se ss sc]. simpl in *. simplify_eq.
  eapply ends_bind; [by eapply ends_scope_drop|]. intros m1 ? Hb1. by apply ends_ret.
Qed.

(** A counter not credited yet has the value it had. *)
Lemma plus_fresh c cs : c ∉ cs → plus size cs (cell m0) c = cell m0 c.
Proof. intros Hc. unfold plus. rewrite decide_False by done. lia. Qed.

Lemma engine_fresh database tenant : EngineAllocated e ∉ credits database tenant.
Proof. unfold layer_credits. destruct database, tenant, (size =? 0); set_solver. Qed.

(** Zero bytes are booked nowhere, so the global counter may be listed. *)
Lemma booked_token m :
  booked (EngineAllocated e :: credits dcounter tcounter) m →
  booked (token_counters (granted m0 db t e size)) m.
Proof.
  apply books_ext. intros c _. unfold plus, layer_credits, token_counters. simpl.
  destruct (N.eqb_spec size 0) as [->|]; simpl; [by repeat case_decide|done].
Qed.

Definition engine_outcome (m1 : Mem) (r : result MemError ReservationToken) : Prop :=
  let limit := cell m0 (EngineLimit e) in
  let allocated := cell m0 (EngineAllocated e) in
  if limit <? allocated + size then
    r = Err (BudgetExhausted e size (limit - allocated) limit) ∧ books m0 (cell m0) m1
  else r = Ok (granted m0 db t e size) ∧ booked (token_counters (granted m0 db t e size)) m1.

Lemma ends_engine m :
  booked (credits dcounter tcounter) m →
  ends (let! reserved := budget_try_reserve e size in
        if reserved : bool then
          Ret (Ok (token_from_layers ((scope_with dcounter tcounter) {{ rs_engine := Some e }}) db t e))
        else
          let! available := budget_available e in
          let! limit := load (EngineLimit e) in
          denied (scope_with dcounter tcounter) (BudgetExhausted e size available limit))
    m engine_outcome.
Proof.
  intros Hb. pose proof (engine_fresh dcounter tcounter) as Hf.
  assert (wrap64 (cell m0 (EngineAllocated e) + size) = cell m0 (EngineAllocated e) + size) as Hw
    by (apply wrap64_small; by apply Hfit).
  eapply ends_bind; [by apply ends_budget_try_reserve|]. intros m1 r. cbv zeta.
  rewrite (plus_fresh _ _ Hf), Hw. unfold engine_outcome. case N.ltb_spec; intros _ [-> Hb1].
  - eapply ends_bind; [by apply ends_budget_available|]. intros m2 ? [-> Hb2].
    rewrite (plus_fresh _ _ Hf). apply ends_load. rewrite (bk_limit _ _ _ Hb2).
    apply ends_denied; [done|by apply credits_nodup; right|done].
  - apply ends_ret. split; [done|]. apply booked_token. apply books_push; [done|by apply Hfit|].
    by rewrite (plus_fresh _ _ Hf), Hw.
Qed.

(** A scoped layer: its decision is [no_room]'s and its credit one more
    counter. *)
Lemma entry_full_room key cs :
  (∀ b, m_budgets m0 !! key = Some b → ScopeAllocated (sb_allocated b) ∉ cs) →
  entry_full (plus size cs (cell m0)) (m_budgets m0 !! key) size = no_room m0 key size.
Proof.
  intros Hf. unfold entry_full, no_room. destruct (m_budgets m0 !! key) as [[[limit|] arc]|]; try done.
  rewrite plus_fresh by by apply (Hf (MkScopedBudget (Some limit) arc)).
  by rewrite wrap64_small by by apply Hfit.
Qed.

Lemma booked_entry key cs m :
  (∀ b, m_budgets m0 !! key = Some b → ScopeAllocated (sb_allocated b) ∉ cs) →
  books m0 (entry_credit (plus size cs (cell m0)) (m_budgets m0 !! key) size) m →
  booked (opt ScopeAllocated (sb_allocated <$> m_budgets m0 !! key) ++ cs) m.
Proof.
  intros Hf. unfold entry_credit. destruct (m_budgets m0 !! key) as [b|]; simpl; [|done].
  apply books_push; [by apply Hf|by apply Hfit].
Qed.

Lemma database_fresh b : m_budgets m0 !! DatabaseScope db = Some b →
  ScopeAllocated (sb_allocated b) ∉ credits None None.
Proof. intros _. unfold layer_credits. destruct (size =? 0); set_solver. Qed.

Lemma tenant_fresh b : m_budgets m0 !! TenantScope db t = Some b →
  ScopeAllocated (sb_allocated b) ∉ credits dcounter None.
Proof.
  intros Hb. unfold layer_credits. destruct (m_budgets m0 !! DatabaseScope db) as [b1|] eqn:H1; simpl.
  - pose proof (Hdistinct _ _ eq_refl Hb). destruct (size =? 0); set_solver.
  - destruct (size =? 0); set_solver.
Qed.

Definition tenant_outcome (m1 : Mem) (r : result MemError ReservationToken) : Prop :=
  match no_room m0 (TenantScope db t) size with
  | Some (available, quota) =>
      r = Err (TenantBudgetExhausted db t size available quota) ∧ books m0 (cell m0) m1
  | None => engine_outcome m1 r
  end.

Lemma ends_tenant m :
  booked (credits dcounter None) m →
  ends (do! read_lock Tenant;
        let! entry := get (TenantScope db t) in
        let! tenant_layer :=
          match entry with
          | Some budget =>
              let! r := scoped_try_reserve budget size in
              match r with
              | Ok arc => Ret (Ok ((scope_with dcounter None) {{ rs_tenant := Some arc }}))
              | Err limit =>
                  let! available := scoped_available budget in
                  Ret (Err (TenantBudgetExhausted db t size available limit))
              end
          | None => Ret (Ok (scope_with dcounter None))
          end in
        do! read_unlock Tenant;
        match tenant_layer with
        | Err err => denied (scope_with dcounter None) err
        | Ok scope =>
            let! reserved := budget_try_reserve e size in
            if reserved : bool then
              Ret (Ok (token_from_layers (scope {{ rs_engine := Some e }}) db t e))
            else
              let! available := budget_available e in
              let! limit := load (EngineLimit e) in
              denied scope (BudgetExhausted e size available limit)
        end) m tenant_outcome.
Proof.
  intros Hb. eapply (ends_under_lock m0 (TenantScope db t)); [exact Hb| |].
  - intros m1 Hb1. by apply ends_reserve_entry.
  - intros m3 Hb3. rewrite entry_full_room in * by apply tenant_fresh. unfold tenant_outcome.
    destruct (no_room m0 (TenantScope db t) size) as [[available quota]|].
    + apply ends_denied; [done|by apply credits_nodup; left|done].
    + apply booked_entry in Hb3; [|apply tenant_fresh].
      pose proof (ends_engine m3 Hb3) as He. by destruct (m_budgets m0 !! TenantScope db t).
Qed.

Definition outcome (m1 : Mem) (r : result MemError ReservationToken) : Prop :=
  match denial ceiling m0 db t e size with
  | Some err => r = Err err ∧ books m0 (cell m0) m1
  | None => r = Ok (granted m0 db t e size) ∧ booked (token_counters (granted m0 db t e size)) m1
  end.

Lemma ends_try_reserve : ends (try_reserve ceiling db t e size) m0 outcome.
Proof.
  eapply ends_bind; [apply ends_try_credit_global, books_refl|]. intros m1 r.
  rewrite (wrap64_small (cell m0 GlobalAllocated + size)) by by apply Hfit. unfold outcome, denial.
  destruct (_ && _); intros [-> Hb].
  { eapply ends_bind; [eapply (ends_scope_drop _ _ (cell m0)); [done| |constructor]|].
    - eapply books_ext; [|exact Hb]. intros c _. unfold plus. simpl. lia.
    - intros m2 ? Hb2. by apply ends_ret. }
  assert (booked (credits None None) m1) as Hb1.
  { eapply books_ext; [|exact Hb]. intros c _. unfold plus, layer_credits. simpl.
    destruct (size =? 0); simpl; unfold insert, fn_insert; repeat case_decide; set_solver by lia. }
  eapply (ends_under_lock m0 (DatabaseScope db)); [exact Hb1| |].
  - intros m2 Hb2. by apply ends_reserve_entry.
  - intros m3 Hb3. rewrite entry_full_room in * by apply database_fresh.
    destruct (no_room m0 (DatabaseScope db) size) as [[available quota]|].
    + apply ends_denied; [done| |done]. unfold layer_credits. simpl.
      destruct (size =? 0); repeat constructor; set_solver.
    + apply booked_entry in Hb3; [|apply database_fresh]. pose proof (ends_tenant m3 Hb3) as Ht.
      apply (ends_mono _ _ tenant_outcome).
      * by destruct (m_budgets m0 !! DatabaseScope db).
      * intros m4 r4. unfold tenant_outcome, engine_outcome.
        destruct (no_room m0 (TenantScope db t) size) as [[]|]; [done|]. by case N.ltb_spec.
Qed.
End reserve.

(** C17. A reservation that nobody disturbs comes to an end and does what
    the limits say: it is denied by the widest layer (global, database,
    tenant, engine) that has no room, with an error that gives what that
    layer had left, and then every counter is back where it was; and if every
    layer has room it returns a token that stands on all counters there are,
    each raised by exactly the size. Holds wherever the additions do not
    wrap and the two scopes have counters of their own. *)
Theorem reserve_alone ceiling m db t e size :
  (∀ c, is_counter c → cell m c + size < 2 ^ 64) →
  (∀ b1 b2, m_budgets m !! DatabaseScope db = Some b1 →
     m_budgets m !! TenantScope db t = Some b2 → sb_allocated b1 ≠ sb_allocated b2) →
  ∃ fuel m' r,
    run_alone fuel (try_reserve ceiling db t e size) m = Some (m', r) ∧
    m_budgets m' = m_budgets m ∧
    match denial ceiling m db t e size with
    | Some err => r = Err err ∧ ∀ c, is_counter c → cell m' c = cell m c
    | None =>
        let tk := granted m db t e size in
        r = Ok tk ∧
        ∀ c, is_counter c → cell m' c = cell m c + if decide (c ∈ token_counters tk) then size else 0
    end.
Proof.
  intros Hfit Hd. destruct (ends_try_reserve ceiling m db t e size Hfit Hd) as (m' & r & Hrun & Ho).
  apply alone_fuel in Hrun as [fuel Hrun]. exists fuel, m', r. split; [done|].
  unfold outcome in Ho. destruct (denial _ _ _ _ _ _); destruct Ho as [-> [H1 H2 H3]]; auto.
Qed.

(** C37. The limit checks add without a check for overflow: a request of
    [2^64 - 1] bytes made while at least one byte is allocated is granted,
    whatever the ceiling and the engine's limit, and lowers the global and
    the engine's counter by one instead of raising them. *)
Theorem oversized_request_granted ceiling m db t e :
  m_budgets m !! DatabaseScope db = None → m_budgets m !! TenantScope db t = None →
  1 ≤ cell m GlobalAllocated ≤ ceiling → ceiling < 2 ^ 64 →
  1 ≤ cell m (EngineAllocated e) ≤ cell m (EngineLimit e) → cell m (EngineLimit e) < 2 ^ 64 →
  ∃ fuel m',
    run_alone fuel (try_reserve ceiling db t e u64_max) m =
      Some (m', Ok (MkToken None None (Some e) u64_max db t e)) ∧
    cell m' GlobalAllocated = cell m GlobalAllocated - 1 ∧
    cell m' (EngineAllocated e) = cell m (EngineAllocated e) - 1.
Proof.
  intros Hd Ht Hg Hc He Hl.
  assert (∀ v, 1 ≤ v → v < 2 ^ 64 → wrap64 (v + u64_max) = v - 1) as Hw.
  { intros v H1 H2. unfold wrap64, u64_max. replace (v + (2 ^ 64 - 1)) with (v - 1 + 1 * 2 ^ 64) by lia.
    rewrite N.Div0.mod_add. apply N.mod_small. lia. }
  assert (ends (try_reserve ceiling db t e u64_max) m (λ m' r,
    r = Ok (MkToken None None (Some e) u64_max db t e) ∧
    cell m' GlobalAllocated = cell m GlobalAllocated - 1 ∧
    cell m' (EngineAllocated e) = cell m (EngineAllocated e) - 1)) as (m' & r & Hrun & -> & ? & ?).
  { eapply ends_bind; [apply ends_try_credit_global, books_refl|]. intros m1 r.
    rewrite Hw by lia. rewrite (proj2 (N.ltb_ge _ _)), andb_false_r by lia.
    change (u64_max =? 0) with false. intros [-> Hb].
    eapply (ends_under_lock m (DatabaseScope db)); [exact Hb|rewrite Hd; intros; by apply ends_ret|].
    intros m2 Hb2.
    eapply (ends_under_lock m (TenantScope db t)); [exact Hb2|rewrite Ht; intros; by apply ends_ret|].
    intros m3 Hb3. eapply ends_bind; [by apply ends_budget_try_reserve|]. intros m4 r. cbv zeta.
    rewrite fn_lookup_insert_ne, Hw by (done || lia). rewrite (proj2 (N.ltb_ge _ _)) by lia.
    intros [-> [Hb4 _ _]]. apply ends_ret. split; [done|].
    rewrite (Hb4 GlobalAllocated I), (Hb4 (EngineAllocated e) I), fn_lookup_insert_ne by done.
    by rewrite !fn_lookup_insert. }
  apply alone_fuel in Hrun as [fuel Hrun]. by exists fuel, m'.
Qed.
