(* ===== verification/MemPressure.v ===== *)
(** * Memory pressure and the spill controller

    [nodedb-mem/src/pressure.rs], [spill.rs], [Budget::utilization_percent]
    of [budget.rs] and the reports of [governor/metrics.rs]. *)

From stdpp Require Import base option gmap fin_maps functions list.
From S2P Require Import Prelude MemState MemGovernor.

Open Scope N_scope.

(** ** Pressure *)

Inductive PressureLevel : Type := Normal | Warning | Critical | Emergency.

(** The derived [Ord]: declaration order. *)
Definition level_rank (l : PressureLevel) : N :=
  match l with Normal => 0 | Warning => 1 | Critical => 2 | Emergency => 3 end.

Record PressureThresholds : Type := MkThresholds {
  pt_warning : N;
  pt_critical : N;
  pt_emergency : N;
}.

Definition thresholds_default : PressureThresholds := MkThresholds 70 85 95.

Definition level_for (t : PressureThresholds) (utilization_percent : N) : PressureLevel :=
  if pt_emergency t <=? utilization_percent then Emergency
  else if pt_critical t <=? utilization_percent then Critical
  else if pt_warning t <=? utilization_percent then Warning
  else Normal.

(** [Budget::utilization_percent] and [global_utilization_percent] on loaded
    values; the product is a [u128] and cannot overflow. *)
Definition utilization_percent (limit allocated : usize) : N :=
  if limit =? 0 then (if allocated =? 0 then 0 else 100)
  else N.min (allocated * 100 / limit) 100.

Definition engine_pressure (t : PressureThresholds) (m : Mem) (e : EngineId) : PressureLevel :=
  level_for t (utilization_percent (cell m (EngineLimit e)) (cell m (EngineAllocated e))).

(** [Iterator::max] returns the last of the greatest. *)
Definition max_level (a b : PressureLevel) : PressureLevel :=
  if level_rank b <? level_rank a then a else b.

Definition worst_engine_pressure (t : PressureThresholds) (m : Mem) : PressureLevel :=
  match engine_pressure t m <$> engine_all with
  | [] => Normal
  | l :: ls => foldl max_level l ls
  end.

(** ** Spilling *)

Inductive SpillAction : Type := SpillNone | BeginSpill | ContinueSpill | BeginRestore.

Record SpillConfig : Type := MkSpillConfig {
  sc_spill_threshold : N;
  sc_restore_threshold : N;
}.

Record SpillController : Type := MkSpill {
  sp_config : SpillConfig;
  sp_spilling : bool;
  sp_spill_count : u64;
  sp_entries_spilled : u64;
}.

#[export] Instance eta_SpillController : Eta SpillController := λ r,
  MkSpill (sp_config r) (sp_spilling r) (sp_spill_count r) (sp_entries_spilled r).

Definition spill_new (config : SpillConfig) : SpillController := MkSpill config false 0 0.

(** [SpillController::check]. *)
Definition spill_check (c : SpillController) (utilization : N) : SpillController * SpillAction :=
  match sp_spilling c, sc_spill_threshold (sp_config c) <=? utilization with
  | false, false => (c, SpillNone)
  | false, true =>
      (c {{ sp_spilling := true; sp_spill_count := wrap64 (sp_spill_count c + 1);
            sp_entries_spilled := 0 }}, BeginSpill)
  | true, true => (c, ContinueSpill)
  | true, false =>
      if utilization <=? sc_restore_threshold (sp_config c)
      then (c {{ sp_spilling := false }}, BeginRestore)
      else (c, SpillNone)
  end.

Definition spill_record (c : SpillController) (count : u64) : SpillController :=
  c {{ sp_entries_spilled := wrap64 (sp_entries_spilled c + count) }}.

Definition spill_reset_cycle (c : SpillController) : SpillController :=
  c {{ sp_entries_spilled := 0 }}.

(** A series of checks. *)
Fixpoint spill_run (c : SpillController) (us : list N) : list SpillAction :=
  match us with
  | [] => []
  | u :: us => let '(c, a) := spill_check c u in a :: spill_run c us
  end.

(** ** Facts *)

Lemma utilization_mono limit a b :
  a ≤ b → utilization_percent limit a ≤ utilization_percent limit b.
Proof.
  intros Hab. unfold utilization_percent. destruct (N.eqb_spec limit 0) as [->|Hl].
  - destruct (N.eqb_spec a 0), (N.eqb_spec b 0); lia.
  - assert (a * 100 / limit ≤ b * 100 / limit) by (apply N.Div0.div_le_mono; lia). lia.
Qed.

Lemma level_mono t u v :
  u ≤ v → level_rank (level_for t u) ≤ level_rank (level_for t v).
Proof.
  intros Huv. unfold level_for. repeat case N.leb_spec; simpl; lia.
Qed.

(** More allocated never lowers an engine's pressure. *)
Lemma pressure_mono t m m' e :
  cell m (EngineLimit e) = cell m' (EngineLimit e) →
  cell m (EngineAllocated e) ≤ cell m' (EngineAllocated e) →
  level_rank (engine_pressure t m e) ≤ level_rank (engine_pressure t m' e).
Proof. intros Hl Ha. apply level_mono. rewrite Hl. by apply utilization_mono. Qed.

Lemma max_level_rank a b : level_rank (max_level a b) = N.max (level_rank a) (level_rank b).
Proof. unfold max_level. case N.ltb_spec; lia. Qed.

(** The worst pressure is that of some engine and of none less. *)
Lemma worst_pressure t m :
  (∃ e, worst_engine_pressure t m = engine_pressure t m e) ∧
  ∀ e, level_rank (engine_pressure t m e) ≤ level_rank (worst_engine_pressure t m).
Proof.
  assert (∀ ls l, (foldl max_level l ls = l ∨ foldl max_level l ls ∈ ls) ∧
            level_rank l ≤ level_rank (foldl max_level l ls) ∧
            ∀ x, x ∈ ls → level_rank x ≤ level_rank (foldl max_level l ls)) as Hf.
  { induction ls as [|x ls IH]; intros l; simpl; [by repeat split; [left| |intros ? ?%elem_of_nil]|].
    destruct (IH (max_level l x)) as (H1 & H2 & H3). rewrite max_level_rank in H2. split_and!.
    - destruct H1 as [->|H1]; [|right; by right]. unfold max_level.
      case (level_rank x <? level_rank l); [by left|right; left].
    - lia.
    - intros y [->|Hy]%elem_of_cons; [lia|by apply H3]. }
  change (worst_engine_pressure t m) with
    (foldl max_level (engine_pressure t m Vector) (engine_pressure t m <$> tail engine_all)).
  destruct (Hf (engine_pressure t m <$> tail engine_all) (engine_pressure t m Vector)) as (H1 & H2 & H3).
  split.
  - destruct H1 as [->|(e & -> & _)%list_elem_of_fmap]; eauto.
  - intros e. assert (e ∈ Vector :: tail engine_all) as [->|He]%elem_of_cons
      by (apply (bool_decide_unpack _); by destruct e).
    + exact H2.
    + apply H3. by apply list_elem_of_fmap_2.
Qed.

(** The controller alternates: from a state that is not spilling the begin
    actions come as [BeginSpill], [BeginRestore], [BeginSpill], ...; and it
    says [ContinueSpill] only between the two. *)
Fixpoint alternates (spilling : bool) (l : list SpillAction) : bool :=
  match l with
  | [] => true
  | SpillNone :: l => alternates spilling l
  | BeginSpill :: l => negb spilling && alternates true l
  | ContinueSpill :: l => spilling && alternates true l
  | BeginRestore :: l => spilling && alternates false l
  end.

Lemma spill_alternates c us : alternates (sp_spilling c) (spill_run c us) = true.
Proof.
  revert c. induction us as [|u us IH]; intros c; simpl; [done|].
  unfold spill_check. destruct (sp_spilling c) eqn:Hs, (_ <=? u); simpl.
  - by pose proof (IH c) as H; rewrite Hs in H.
  - destruct (u <=? _); simpl; [exact (IH (c {{ sp_spilling := false }}))|by pose proof (IH c) as H; rewrite Hs in H].
  - exact (IH (c {{ sp_spilling := true; sp_spill_count := wrap64 (sp_spill_count c + 1);
                    sp_entries_spilled := 0 }})).
  - by pose proof (IH c) as H; rewrite Hs in H.
Qed.
