(* ===== verification/MemExamples.v ===== *)
(** * Runs of the memory governor

    Concrete schedules on which the hypotheses of the theorems of [MemThms]
    and [MemAlone] hold: two reservations race for a quota that has room for
    one of them, with stale loads and a spurious failure. *)

From stdpp Require Import base option gmap fin_maps functions list.
From S2P Require Import Prelude MemState MemGovernor MemLogic MemAccounting MemThms MemAlone.

Open Scope N_scope.

Definition vector_limits : EngineId → usize := limits_set Vector 600 (limits_uniform 0).

Definition idle_mem (limits : EngineId → usize) : Mem :=
  MkMem (λ c, match c with EngineLimit e => [limits e] | _ => [0] end) ∅ (λ _, 0) 0.

Lemma vector_governor : governor_new 1000 vector_limits = Ok (idle_mem vector_limits).
Proof. reflexivity. Defined.

Abbreviation start := (MkWorld (idle_mem vector_limits) []).

Definition alternate (i j n : nat) : list MAction :=
  concat (repeat [Step i 0 false; Step j 1 false] n).

Definition opening : list MAction :=
  [Invoke (SetDatabaseBudget 1 500); Step 0 0 false; Step 0 0 false;
   Invoke (Reserve 1 7 Vector 300); Invoke (Reserve 1 8 Vector 300)].

(** Both reservations to their end: one gets its token, the other is denied
    and unwinds. *)
Definition race : list MAction :=
  opening ++ alternate 1 2 9 ++ [Step 1 0 true] ++ repeat (Step 1 0 false) 11 ++
  repeat (Step 2 0 false) 13.

(** The quota is then cleared and set anew. *)
Definition requota : list MAction :=
  race ++ [Invoke (ClearDatabaseBudget 1); Step 3 0 false; Step 3 0 false;
           Invoke (SetDatabaseBudget 1 900); Step 4 0 false; Step 4 0 false].

Definition sizes (w : World) : list usize := slot_size <$> w_slots w.


(** The step at which the first reservation credits the database. *)
Definition crediting : MAction := Step 1 0 false.


(** The token of slot 1. *)
Definition raced_token : ReservationToken := MkToken (Some 0) None (Some Vector) 300 1 7 Vector.

Lemma quota_counts_tokens_witness :
  ∃ w, mrun 1000 (λ w a, fits w a && keeps_scopes a) start requota = Some w ∧
    w_slots w !! 1%nat = Some (Holding raced_token) ∧
    (∀ n, tk_database_counter raced_token = Some n →
       ∃ b, m_budgets (w_mem w) !! DatabaseScope 1 = Some b ∧ sb_allocated b = n) ∧
    (∀ n, tk_tenant_counter raced_token = Some n →
       ∃ b, m_budgets (w_mem w) !! TenantScope 1 7 = Some b ∧ sb_allocated b = n).
Proof.
  assert ((λ w, w_slots w !! 1%nat) <$>
          mrun 1000 (λ w a, fits w a && keeps_scopes a) start requota =
          Some (Some (Holding raced_token))) as Hs by (vm_compute; reflexivity).
  destruct (mrun 1000 _ start requota) as [w|] eqn:Hr; [|discriminate Hs].
  injection Hs as Hi. exists w. split; [reflexivity|]. split; [exact Hi|].
  exact (quota_counts_tokens 1000 vector_limits _ requota w 1 raced_token vector_governor Hr Hi).
Defined.

(** A governor with one byte allocated everywhere. *)
Definition byte_mem : Mem :=
  set_cell GlobalAllocated 1 (set_cell (EngineAllocated Vector) 1 (idle_mem vector_limits)).

Lemma byte_cells c : is_counter c → cell byte_mem c ≤ 1.
Proof. destruct c as [| | |[]| | | |]; intros H; try destruct H; vm_compute; discriminate. Defined.

(** 2,000 bytes do not fit under a ceiling of 1,000. *)
Lemma reserve_alone_witness :
  denial 1000 byte_mem 1 7 Vector 2000 = Some (GlobalCeilingExceeded 1 1000 2000) ∧
  ∃ fuel m' r,
    run_alone fuel (try_reserve 1000 1 7 Vector 2000) byte_mem = Some (m', r) ∧
    m_budgets m' = m_budgets byte_mem ∧
    match denial 1000 byte_mem 1 7 Vector 2000 with
    | Some err => r = Err err ∧ ∀ c, is_counter c → cell m' c = cell byte_mem c
    | None =>
        let tk := granted byte_mem 1 7 Vector 2000 in
        r = Ok tk ∧
        ∀ c, is_counter c →
          cell m' c = cell byte_mem c + if decide (c ∈ token_counters tk) then 2000 else 0
    end.
Proof.
  split; [vm_compute; reflexivity|]. apply (reserve_alone 1000 byte_mem 1 7 Vector 2000).
  - intros c Hc. pose proof (byte_cells c Hc). lia.
  - intros b1 b2 H1. discriminate H1.
Defined.

Lemma oversized_request_granted_witness :
  ∃ fuel m',
    run_alone fuel (try_reserve 1000 1 7 Vector u64_max) byte_mem =
      Some (m', Ok (MkToken None None (Some Vector) u64_max 1 7 Vector)) ∧
    cell m' GlobalAllocated = cell byte_mem GlobalAllocated - 1 ∧
    cell m' (EngineAllocated Vector) = cell byte_mem (EngineAllocated Vector) - 1.
Proof.
  apply (oversized_request_granted 1000 byte_mem 1 7 Vector);
    first [reflexivity | split; vm_compute; discriminate].
Defined.
